(* ===== verification/_CoqProject ===== *)
-Q . S2P
Prelude.v
BitField.v
Double.v
Digit.v
Digits.v
VectorArithmetic.v
Processor.v
MulSchoolbook.v
MulKaratsuba.v
DivHelpers.v
MulToom.v
MulFft.v
FftMod.v
FftAlgebra.v
FftTransform.v
FftPointwise.v
FftStart.v
FftRecombine.v
FftCounterWeight.v
FftInner.v
FftOuter.v
FftParameters.v
Multiply.v
FftMultiply.v
DivSchoolbook.v
DivBurnikel.v
DivBarrett.v
DivNewton.v
Division.v
FromString.v
FromStringSpec.v
FromStringPowerTwo.v
FromStringLarge.v
Parsing.v
ToString.v
ToStringSpec.v
ToStringPowerTwo.v
ToStringFast.v
Printing.v
SignedArithmetic.v
Bitwise.v
BitwiseShift.v
BigIntObject.v
BigIntSpec.v
BigIntArith.v
BigIntPower.v
BigIntBits.v
BigIntWords.v
BigIntDouble.v
BigIntDoubleSpec.v
BigIntToDouble.v
BigIntString.v
BigIntStringSpec.v
BigIntStringPrint.v
BigIntRuntime.v
Instances.v
ProcessorCorrect.v
ArithmeticCorrect.v
MultiplicationCorrect.v
FftCorrect.v
DivisionCorrect.v
StringCorrect.v
BigIntCorrect.v
NumberCorrect.v
BigIntStringCorrect.v
