(* ===== verification/Prelude.v ===== *)
(** * The BigInt implementation of V8: a verification development

    The repository builds the JavaScript engine V8 with CMake.  This development verifies
    the part of V8 that implements arbitrary-precision integers: the arithmetic library
    [src/v8/src/bigint/], the heap objects and operations of [src/v8/src/objects/bigint.cc]
    that scripts reach through the operators on BigInts, and the conversions between
    BigInts, numbers and strings.  File names below are relative to [src/v8/src/].

    ** The program

    A BigInt is a sign and a magnitude, a vector of machine digits of 32 or 64 bits without
    leading zeros.  Every operation of [objects/bigint.cc] computes the length of its result
    with one of the [...ResultLength] functions of [bigint/bigint.h], allocates an
    uninitialised object of that length, lets the library fill in the digits, sets the sign
    and canonicalizes.  The library works on views ([Digits], [RWDigits]) of digit vectors;
    a [Processor] counts the work that has been done, polls the embedder for interrupts and
    chooses the algorithm by the lengths of the operands: schoolbook, Karatsuba, Toom-Cook
    or FFT multiplication; schoolbook, Burnikel-Ziegler or Barrett division; classic,
    power-of-two or divide-and-conquer conversion from and to strings.

    ** How it is modelled

    - A digit is a [Z] below [digit_base]; every operation wraps explicitly.  [Config] is the
      build: digit width, availability of a double-width type and of inline assembly, and
      [V8_ADVANCED_BIGINT_ALGORITHMS].  All theorems hold for every configuration unless
      they say otherwise.
    - A view is the list of its digits, least significant first; an operation that writes a
      buffer returns its new contents, and a buffer keeps its length.
    - [res] is the error monad: an access outside a view, a failed [DCHECK], an undefined
      shift or exhausted fuel is a [fault].  The model is that of a build with [DCHECK]s, so
      a theorem that an operation returns [Ok] also says that no [DCHECK] fails and no memory
      outside the views is touched.  [wp m Q] says that [m] returns without a fault and
      that [Q] holds of its result.
    - [PM] adds the state of the processor ([wpP]), [IM] the exceptions that an operation of
      the engine throws ([wpI_...]).
    - Memory that was just allocated has arbitrary contents (classes [Allocator] and
      [StringAllocator]); the answers of the embedder to interrupt polls are an arbitrary
      sequence (class [Platform]).

    ** The files

    - [Prelude]: faults, the monad, loops, generic lemmas, hints.
    - [BitField]: [base/bit-field.h].  [Double]: [base/numbers/double.h] and the meaning of
      the bits of a double.
    - [Digit]: [bigint/digit-arithmetic.h], [bigint/util.h].  [Digits]: the views of
      [bigint/bigint.h], the value of a vector.  [VectorArithmetic]:
      [bigint/vector-arithmetic.h] and [.cc], [BitLength].
    - [Processor]: the state of [ProcessorImpl], work estimates, interrupts.
    - [MulSchoolbook], [MulKaratsuba], [MulToom]: [bigint/mul-*.cc].  [Multiply]:
      [ProcessorImpl::Multiply] and the interface [Multiplier] through which the other
      algorithms use it.
    - [MulFft] (model: [bigint/mul-fft.cc]) with [FftMod] (arithmetic modulo [2^K + 1]),
      [FftAlgebra] (convolutions and the transform, on integers), [FftTransform] (both
      transformations of an [FFTContainer]), [FftPointwise], [FftStart] (splitting into
      chunks), [FftRecombine], [FftCounterWeight] (putting the coefficients together),
      [FftInner], [FftOuter] (the two layers), [FftParameters] (the choice of the
      parameters) and [FftMultiply] (the recursion through [Multiply]).
    - [DivHelpers], [DivSchoolbook], [DivBurnikel], [DivBarrett]: [bigint/div-*.cc], with
      [DivNewton] (the accuracy of [InvertNewton]: the chain of precisions, the error of each
      truncated step, the final correction).
      [Division]: [ProcessorImpl::Divide], [Modulo] and the public entry points.
    - [FromString] (model: [FromStringAccumulator] of [bigint/bigint.h] and
      [bigint/fromstring.cc]) with [FromStringSpec], [FromStringPowerTwo], [FromStringLarge]
      and [Parsing] (proofs).  [ToString] (model: [bigint/tostring.cc]) with [ToStringSpec],
      [ToStringPowerTwo], [ToStringFast] and [Printing] (proofs).
    - [SignedArithmetic], [Bitwise], [BitwiseShift]: [AddSigned], [SubtractSigned] and
      [bigint/bitwise.cc].
    - [BigIntObject] (model: [objects/bigint.h] and [.cc]) with [BigIntSpec] (contract:
      [toZ], [bigint_ok], [computes]), [BigIntArith], [BigIntPower], [BigIntBits]
      (proofs).  [BigIntWords]: conversions to and from words and bytes.  [BigIntRuntime]:
      the [MutableBigInt_...AndCanonicalize] functions that generated code calls.
    - [BigIntDouble] (model: [NewFromDouble], [FromNumber], [CompareToDouble],
      [CompareToNumber], [EqualToNumber], [ToDouble], [ToNumber] of [objects/bigint.cc]) with
      [BigIntDoubleSpec] and [BigIntToDouble] (proofs).
    - [BigIntString] (model: [StringToIntHelper], [StringToBigIntHelper] of
      [numbers/conversions.cc], the whitespace predicates of [strings/], and
      [BigInt::ToString], [NoSideEffectsToString], [CompareToString], [EqualToString],
      [FromObject], [Allocate] of [objects/bigint.cc]) with [BigIntStringSpec] (reading) and
      [BigIntStringPrint] (printing, clients).
    - [Instances]: concrete configurations, platforms and allocators.
    - [ProcessorCorrect], [ArithmeticCorrect], [MultiplicationCorrect], [FftCorrect],
      [DivisionCorrect], [StringCorrect], [BigIntCorrect], [NumberCorrect], [BigIntStringCorrect]: the
      correctness statements, each evaluated at a concrete input.

    ** What the theorems show

    - Library: every multiplication and division algorithm computes the exact product,
      quotient and remainder inside the buffers it is given; the fast algorithms return the
      same digits as the schoolbook ones; the dispatchers are correct whichever algorithm is
      selected; the portable digit division terminates with the Euclidean quotient.
    - FFT: [ShiftModFn] multiplies by powers of two modulo [2^K + 1]; the parameters leave
      room for every coefficient (up to the bound below); the forward transformation evaluates a polynomial at the
      powers of a root of unity; the inner layer multiplies modulo [2^K + 1], the outer one
      returns the digits of the schoolbook product.
    - Strings: parsing returns the value of the longest prefix of digits whenever the digits
      that are accumulated inline fit on the stack, printing the numeral without leading
      zeros.
    - Processor: an interrupt request is noticed after a bounded amount of work and is
      reported by the operation that was interrupted; the accumulated work stays bounded.
    - BigInts: each operator returns the canonical object for the exact integer result, or
      one of the exceptions that ECMAScript prescribes, on every branch; bitwise operators
      are those of two's complement; [asIntN] and [asUintN] are in range.
    - Conversions: round trips with 64-bit integers, word arrays, serialized bytes, integral
      doubles and decimal strings; [ToNumber] rounds to nearest, ties to even; comparison
      with numbers and strings is that of the exact values; [StringToBigInt] accepts exactly
      the grammar [StringIntegerLiteral] among the strings of fewer than [2^24] characters.
    - Defects: the code that overflows the inline stack of the parser, the wrong copy in
      [Modulo], the wrong comparison in [FromWords64] and the first chunk that
      [FFTContainer::Start] reads behind the end of an operand are stated as theorems.

    ** Interfaces

    [Multiplier L] (products of operands up to [L] digits are exact), [Inverter L] (the
    reciprocal of a divisor up to [L] digits is accurate), [FftMultiplier] (the function
    [MultiplyFFT] that the dispatcher calls), [PointerEquality] (whether two views are the
    same memory, which the lists do not show), [Allocator], [Platform], [Config], [SmiConfig] (width of a Smi),
    [UnicodeData] (the general category [Zs], which ICU supplies; its law fixes Latin-1),
    [StringAllocator].  The clients are proved against them; [Multiplier_supported] and
    [Inverter_of_Multiplier] discharge the first two ([Inverter L] from [Multiplier (L + 3)]),
    [nested_fft] is the third.

    ** Bounds and fuel

    Loops over a vector are structural.  The others have fuel that the theorems prove to be
    enough, since a run out of fuel is a fault: 3 for the corrections in [digit_div] and in
    [D3n2n], 6 for the corrections of Barrett division, 33 rounds of Newton's iteration, 3
    levels of [Multiply] below Toom-Cook, 3 nested calls of [MultiplyFFT] from [Multiply] and
    32 of [MultiplyFFT_Inner], 10 rounds of rounding [K] up in [ComputeParameters], 31 squarings of [Exponentiate], 64 levels of the
    conversion to strings, one step per character, digit or bit elsewhere.

    The parameters of the FFT, and the powers of the root of unity computed from them, are
    integers without wrap-around; the products for which the multiplication is proved, of at
    most [2^18 * kDigitBits] digits, keep every one of them below [2^31].  With 64-bit digits
    these are all products a BigInt can hold.

    Sizes, in builds with the advanced algorithms: products have at most [2^18 * kDigitBits]
    digits ([2^24] with 64-bit, [2^23] with 32-bit digits); divisors, and numbers printed in a
    radix that is not a power of two, at most [2^17 * kDigitBits - 3]; literals fewer than
    [2^24] characters.  The predicates [mul_supported], [print_supported], [parse_supported]
    and [readable] state these limits.  The theorems about division and strings are about runs
    without an interrupt request ([uninterrupted]); what an interrupt does is the subject of
    [ProcessorCorrect], and the multiplication theorems include it in builds with the advanced
    algorithms ([steady]).

    ** What is not modelled

    - Big-endian serialization, [BigInt::BigIntShortPrint] and the other debug printers, heap
      notifications of the garbage collector, the text of error messages.
    - The parser, interpreter, compilers, garbage collector, WebAssembly and the other parts
      of V8, which are separate systems; most of them generate machine code or manage raw
      memory concurrently. *)

From Stdlib Require Import ZArith Lia.
From stdpp Require Import base tactics numbers list option.

#[local] Open Scope Z_scope.

(** ** Faults and the error monad *)

(** Ways in which the modelled code can go wrong.  [OutOfBounds] is a read or
    a write outside the view a [Digits]/[RWDigits] object describes (undefined
    behaviour in a release build, a failed [BIGINT_H_DCHECK] in a debug build),
    [DCheckFailed] is a failed [DCHECK], [UndefinedShift] is a shift by at least the
    width of the type (undefined behaviour in every build), [OutOfFuel] is the model's
    own bound on a loop or recursion that is not structural. *)
Inductive fault : Type :=
  | OutOfBounds
  | DCheckFailed
  | UndefinedShift
  | OutOfFuel.

Inductive res (A : Type) : Type :=
  | Ok (a : A)
  | Err (e : fault).
Arguments Ok {A} a.
Arguments Err {A} e.

#[global] Instance res_ret : MRet res := fun A a => Ok a.
#[global] Instance res_bind : MBind res := fun A B f m =>
  match m with Ok a => f a | Err e => Err e end.

(** [DCHECK(cond)]. *)
Definition dcheck (b : bool) : res unit :=
  if b then Ok tt else Err DCheckFailed.

(** Weakest precondition of a computation: it returns, without any fault, a
    value that satisfies [Q]. *)
Definition wp {A} (m : res A) (Q : A -> Prop) : Prop :=
  match m with Ok a => Q a | Err _ => False end.

Lemma wp_ret {A} (a : A) (Q : A -> Prop) : Q a -> wp (mret a) Q.
Proof. done. Qed.

Lemma wp_Ok {A} (a : A) (Q : A -> Prop) : Q a -> wp (Ok a) Q.
Proof. done. Qed.

Lemma wp_bind {A B} (m : res A) (f : A -> res B) (Q : B -> Prop) :
  wp m (fun a => wp (f a) Q) -> wp (m ≫= f) Q.
Proof. by destruct m. Qed.

Lemma wp_mono {A} (m : res A) (Q Q' : A -> Prop) :
  wp m Q -> (forall a, Q a -> Q' a) -> wp m Q'.
Proof. destruct m; simpl; auto. Qed.

Lemma wp_dcheck (b : bool) (Q : unit -> Prop) :
  b = true -> Q tt -> wp (dcheck b) Q.
Proof. by intros ->. Qed.

Lemma wp_elim {A} (m : res A) (Q : A -> Prop) :
  wp m Q -> exists a, m = Ok a /\ Q a.
Proof. destruct m; simpl; [eauto | done]. Qed.

Lemma wp_and {A} (m : res A) (Q1 Q2 : A -> Prop) :
  wp m Q1 -> wp m Q2 -> wp m (fun a => Q1 a /\ Q2 a).
Proof. destruct m; simpl; auto. Qed.

(** ** Loops *)

Section loops.
Context {St : Type}.

(** [for (; i < i + n; i++) body]. *)
Fixpoint for_loop (n i : nat) (body : nat -> St -> res St) (s : St) : res St :=
  match n with
  | O => mret s
  | S n' => s' ← body i s; for_loop n' (S i) body s'
  end.

(** [for (i = n - 1; i >= 0; i--) body]. *)
Fixpoint for_down (n : nat) (body : nat -> St -> res St) (s : St) : res St :=
  match n with
  | O => mret s
  | S n' => s' ← body n' s; for_down n' body s'
  end.

Lemma wp_for_loop (I : nat -> St -> Prop) n i body s :
  I i s ->
  (forall k s', (i <= k < i + n)%nat -> I k s' -> wp (body k s') (I (S k))) ->
  wp (for_loop n i body s) (I (i + n)%nat).
Proof.
  revert i s. induction n as [|n IH]; intros i s Hi Hstep; simpl.
  - by rewrite Nat.add_0_r.
  - apply wp_bind. eapply wp_mono; [apply Hstep; [lia | done]|].
    intros s' Hs'. replace (i + S n)%nat with (S i + n)%nat by lia.
    apply IH; [done|]. intros; apply Hstep; [lia | done].
Qed.

Lemma wp_for_down (I : nat -> St -> Prop) n body s :
  I n s ->
  (forall k s', (k < n)%nat -> I (S k) s' -> wp (body k s') (I k)) ->
  wp (for_down n body s) (I 0%nat).
Proof.
  revert s. induction n as [|n IH]; intros s Hi Hstep; simpl; [done|].
  apply wp_bind. eapply wp_mono; [apply Hstep; [lia | done]|].
  intros s' Hs'. apply IH; [done|]. intros; apply Hstep; [lia | done].
Qed.
End loops.

(** ** Tactics *)

(** One step of symbolic execution. *)
Ltac wp_step :=
  lazymatch goal with
  | |- wp (mret _) _ => apply wp_ret
  | |- wp (Ok _) _ => apply wp_Ok
  | |- wp (mbind _ (dcheck _)) _ =>
      apply wp_bind, wp_dcheck; [|]
  | |- wp (mbind _ _) _ => apply wp_bind
  | |- wp (let '(_, _) := ?x in _) _ => destruct x eqn:?
  end.

(** Use a specification lemma for the first computation. *)
Tactic Notation "wp_apply" uconstr(lem) :=
  lazymatch goal with |- wp (mbind _ _) _ => apply wp_bind | _ => idtac end;
  eapply wp_mono; [eapply lem | cbv beta].

(** ** Slices of lists *)

Section slices.
Context {A : Type}.
Implicit Types l v : list A.

Definition slice (l : list A) (off n : nat) : list A := take n (drop off l).

(** [l] with the elements from [off] on overwritten by [v]. *)
Definition splice (l : list A) (off : nat) (v : list A) : list A :=
  take off l ++ v ++ drop (off + length v) l.

Lemma length_slice l off n :
  length (slice l off n) = (n `min` (length l - off))%nat.
Proof. unfold slice. rewrite length_take, length_drop. done. Qed.

Lemma length_splice l off v :
  (off + length v <= length l)%nat -> length (splice l off v) = length l.
Proof. intros. unfold splice. rewrite !length_app, length_take, length_drop. lia. Qed.

Lemma slice_all l : slice l 0 (length l) = l.
Proof. unfold slice. rewrite drop_0. by apply take_ge. Qed.

Lemma splice_self l off n :
  (off + n <= length l)%nat -> splice l off (slice l off n) = l.
Proof.
  intros. unfold splice, slice.
  rewrite length_take, length_drop.
  replace (n `min` (length l - off))%nat with n by lia.
  rewrite <- drop_drop, take_drop, take_drop. done.
Qed.

Lemma slice_splice_same l off v :
  (off + length v <= length l)%nat -> slice (splice l off v) off (length v) = v.
Proof.
  intros. unfold slice, splice.
  rewrite drop_app_length' by (rewrite length_take; lia).
  by rewrite take_app_length.
Qed.

Lemma slice_cons l i n x : l !! i = Some x -> slice l i (S n) = x :: slice l (S i) n.
Proof. intros E. unfold slice. by rewrite (drop_S _ _ _ E). Qed.

Lemma slice_app_r l l' off n :
  slice (l ++ l') (length l + off) n = slice l' off n.
Proof.
  unfold slice. rewrite <- drop_drop, drop_app_length. done.
Qed.
End slices.

(** ** Integer lemmas *)

(** Bitwise or of numbers that share no bit is addition. *)
Lemma lor_shiftl_add (a b n : Z) :
  0 <= n -> 0 <= b < 2 ^ n -> Z.lor (a * 2 ^ n) b = a * 2 ^ n + b.
Proof.
  intros Hn Hb. rewrite <- Z.add_lor_land.
  enough (Z.land (a * 2 ^ n) b = 0) as -> by (by rewrite Z.add_0_r).
  apply Z.bits_inj'. intros i Hi. rewrite Z.land_spec, Z.bits_0.
  destruct (Z.lt_ge_cases i n).
  - by rewrite Z.mul_pow2_bits_low.
  - destruct (Z.eq_dec b 0) as [->|]; [by rewrite Z.bits_0, andb_false_r|].
    assert (Z.log2 b < n) by (apply Z.log2_lt_pow2; lia).
    rewrite (Z.bits_above_log2 b i), andb_false_r; [done | lia | lia].
Qed.

(** Wrapped arithmetic: a value known modulo [m] and known to be in range. *)
Lemma mod_eq_of_bounds (x y m : Z) :
  0 <= y < m -> (exists k, x = y + k * m) -> x mod m = y.
Proof. intros Hy [k ->]. rewrite Z.mod_add by lia. by apply Z.mod_small. Qed.

(** Euclidean division is determined by its defining equation. *)
Lemma div_mod_unique (a b q r : Z) :
  0 <= r < b -> a = b * q + r -> a / b = q /\ a mod b = r.
Proof.
  intros Hr Ha. split; symmetry.
  - by apply Z.div_unique with r; [left|].
  - by apply Z.mod_unique with q; [left|].
Qed.

Lemma mul_lt_cancel (a b v : Z) : 0 < v -> a * v < b * v -> a < b.
Proof. intros ?. by apply Z.mul_lt_mono_pos_r. Qed.

Lemma quotient_digit_bounds (u2 un v h : Z) :
  0 <= u2 < v -> 0 <= un < h -> 0 <= (u2 * h + un) / v < h.
Proof.
  intros. split; [apply Z.div_pos; nia | apply Z.div_lt_upper_bound; nia].
Qed.
