(* ===== verification/BitField.v ===== *)
(** Bit fields: the template [BitField<T, shift, size, U>] of [src/base/bit-field.h]. *)

From Stdlib Require Import ZArith Lia.
From stdpp Require Import base tactics numbers list option.
From S2P Require Import Prelude.

#[local] Open Scope Z_scope.

(** The template parameters: position, size, and the width in bits of the type [U]. *)
Record BitField : Type := mkBitField {
  kShift : Z;
  kSize : Z;
  kWidth : Z;
}.

(** The static assertions of the template. *)
Record bitfield_ok (F : BitField) : Prop := {
  bf_shift : 0 <= kShift F;
  bf_size : 0 < kSize F;
  bf_fits : kShift F + kSize F <= kWidth F;
  bf_size_width : kSize F < kWidth F;
}.

Section bit_field.
Context (F : BitField).

Definition to_U (v : Z) : Z := v mod 2 ^ kWidth F.

Definition kMask : Z :=
  to_U (to_U (Z.shiftl (to_U (Z.shiftl 1 (kShift F))) (kSize F)) - to_U (Z.shiftl 1 (kShift F))).
Definition kLastUsedBit : Z := kShift F + kSize F - 1.
Definition kNumValues : Z := to_U (Z.shiftl 1 (kSize F)).

(** The value type [T] is taken to hold every value of the field, as the fields declared in
    the sources do, so that the cast to [T] keeps [kNumValues - 1]. *)
Definition kMax : Z := kNumValues - 1.

(** [Next<T2, size2>]. *)
Definition Next (size2 : Z) : BitField := mkBitField (kShift F + kSize F) size2 (kWidth F).

Definition is_valid (value : Z) : bool := Z.land (to_U value) (to_U (Z.lnot (to_U kMax))) =? 0.

Definition encode (value : Z) : res Z :=
  dcheck (is_valid value);; mret (to_U (Z.shiftl (to_U value) (kShift F))).

Definition update (previous value : Z) : res Z :=
  e ← encode value; mret (Z.lor (Z.land previous (to_U (Z.lnot kMask))) e).

Definition decode (value : Z) : Z := Z.shiftr (Z.land value kMask) (kShift F).

Context (HF : bitfield_ok F).

Lemma to_U_small v : 0 <= v < 2 ^ kWidth F -> to_U v = v.
Proof. apply Z.mod_small. Qed.

Lemma kMask_spec i : 0 <= i -> Z.testbit kMask i = (kShift F <=? i) && (i <? kShift F + kSize F).
Proof.
  intros Hi. destruct HF as [Hs Hz Hf Hw]. unfold kMask.
  assert (to_U (Z.shiftl 1 (kShift F)) = 2 ^ kShift F) as ->.
  { rewrite Z.shiftl_1_l. apply to_U_small. split; [apply Z.pow_nonneg; lia | apply Z.pow_lt_mono_r; lia]. }
  assert (to_U (to_U (Z.shiftl (2 ^ kShift F) (kSize F)) - 2 ^ kShift F) =
    Z.shiftl (Z.ones (kSize F)) (kShift F)) as ->.
  { rewrite !Z.shiftl_mul_pow2, Z.ones_equiv by lia. unfold to_U. rewrite Zminus_mod_idemp_l.
    replace (2 ^ kShift F * 2 ^ kSize F - 2 ^ kShift F) with (Z.pred (2 ^ kSize F) * 2 ^ kShift F) by lia.
    apply Z.mod_small. pose proof (Z.pow_pos_nonneg 2 (kShift F)). pose proof (Z.pow_pos_nonneg 2 (kSize F)).
    assert (2 ^ (kShift F + kSize F) <= 2 ^ kWidth F) as Hp by (apply Z.pow_le_mono_r; lia).
    rewrite Z.pow_add_r in Hp by lia. nia. }
  rewrite Z.shiftl_spec by done. destruct (Z.leb_spec (kShift F) i); cbn [andb].
  - destruct (Z.ltb_spec i (kShift F + kSize F)).
    + apply Z.ones_spec_low. lia.
    + apply Z.ones_spec_high. lia.
  - apply Z.testbit_neg_r. lia.
Qed.

Lemma is_valid_spec v : 0 <= v < 2 ^ kWidth F -> is_valid v = (v <? 2 ^ kSize F).
Proof.
  intros Hv. destruct HF as [Hs Hz Hf Hw]. unfold is_valid, kMax, kNumValues.
  assert (0 < 2 ^ kSize F < 2 ^ kWidth F) as Hp
    by (split; [apply Z.pow_pos_nonneg; lia | apply Z.pow_lt_mono_r; lia]).
  rewrite Z.shiftl_1_l, (to_U_small (2 ^ kSize F)), (to_U_small (2 ^ kSize F - 1)), (to_U_small v) by lia.
  assert (Z.land v (to_U (Z.lnot (2 ^ kSize F - 1))) = Z.shiftl (Z.shiftr v (kSize F)) (kSize F)) as ->.
  { replace (2 ^ kSize F - 1) with (Z.ones (kSize F)) by (rewrite Z.ones_equiv; lia).
    rewrite <- Z.ldiff_ones_r by lia. apply Z.bits_inj'. intros i Hi.
    rewrite Z.land_spec, Z.ldiff_spec. unfold to_U.
    destruct (Z.lt_ge_cases i (kWidth F)).
    - rewrite Z.mod_pow2_bits_low, Z.lnot_spec by lia. done.
    - rewrite Z.mod_pow2_bits_high by lia.
      rewrite (Z.bits_above_log2 v i); [done | lia |]. destruct (Z.eq_dec v 0) as [-> | ?]; [cbn; lia|].
      apply Z.log2_lt_pow2; [lia|]. eapply Z.lt_le_trans; [apply Hv|]. apply Z.pow_le_mono_r; lia. }
  rewrite Z.shiftl_mul_pow2, Z.shiftr_div_pow2 by lia.
  destruct (Z.ltb_spec v (2 ^ kSize F)).
  - rewrite Z.div_small by lia. done.
  - apply Z.eqb_neq. pose proof (Z.div_le_lower_bound v (2 ^ kSize F) 1). nia.
Qed.

Lemma low_bits_high v n i : 0 <= v < 2 ^ n -> n <= i -> 0 <= n -> Z.testbit v i = false.
Proof.
  intros Hv Hi Hn. destruct (Z.eq_dec v 0) as [-> | ?]; [apply Z.bits_0|].
  apply Z.bits_above_log2; [lia|]. eapply Z.lt_le_trans; [|exact Hi]. apply Z.log2_lt_pow2; lia.
Qed.

Lemma encode_spec v : 0 <= v < 2 ^ kSize F -> encode v = Ok (v * 2 ^ kShift F).
Proof.
  intros Hv. destruct HF as [Hs Hz Hf Hw].
  assert (2 ^ kSize F <= 2 ^ kWidth F) by (apply Z.pow_le_mono_r; lia).
  unfold encode. rewrite is_valid_spec by lia. rewrite (proj2 (Z.ltb_lt _ _)) by lia. cbn.
  rewrite Z.shiftl_mul_pow2, (to_U_small v) by lia. f_equal. apply to_U_small.
  pose proof (Z.pow_pos_nonneg 2 (kShift F)).
  assert (2 ^ kSize F * 2 ^ kShift F <= 2 ^ kWidth F)
    by (rewrite <- Z.pow_add_r by lia; apply Z.pow_le_mono_r; lia). nia.
Qed.

(** Encoding a value that does not fit is a failed [DCHECK]. *)
Lemma encode_invalid v : 2 ^ kSize F <= v < 2 ^ kWidth F -> encode v = Err DCheckFailed.
Proof.
  intros Hv. destruct HF as [Hs Hz Hf Hw]. unfold encode.
  pose proof (Z.pow_pos_nonneg 2 (kSize F)). rewrite is_valid_spec by lia.
  by rewrite (proj2 (Z.ltb_ge _ _)) by lia.
Qed.

Lemma decode_testbit u i :
  0 <= i -> Z.testbit (decode u) i = (i <? kSize F) && Z.testbit u (i + kShift F).
Proof.
  intros Hi. destruct HF as [Hs Hz Hf Hw]. unfold decode.
  rewrite Z.shiftr_spec, Z.land_spec, kMask_spec by lia.
  destruct (Z.leb_spec (kShift F) (i + kShift F)); [|lia].
  destruct (Z.ltb_spec i (kSize F)), (Z.ltb_spec (i + kShift F) (kShift F + kSize F)); try lia;
    cbn [andb]; rewrite ?andb_true_r, ?andb_false_r; done.
Qed.

Lemma update_testbit u v w i :
  0 <= u < 2 ^ kWidth F -> 0 <= v < 2 ^ kSize F -> update u v = Ok w -> 0 <= i ->
  Z.testbit w i = if (kShift F <=? i) && (i <? kShift F + kSize F) then Z.testbit v (i - kShift F)
                  else Z.testbit u i.
Proof.
  intros Hu Hv Hw Hi. pose proof HF as [Hs Hz Hf Hwd]. unfold update in Hw. rewrite encode_spec in Hw by done.
  injection Hw as <-. rewrite Z.lor_spec, Z.land_spec. unfold to_U.
  assert (Z.testbit u i && Z.testbit (Z.lnot kMask mod 2 ^ kWidth F) i =
    Z.testbit u i && negb ((kShift F <=? i) && (i <? kShift F + kSize F))) as ->.
  { destruct (Z.lt_ge_cases i (kWidth F)).
    - by rewrite Z.mod_pow2_bits_low, Z.lnot_spec, kMask_spec by lia.
    - by rewrite (low_bits_high u (kWidth F)) by lia. }
  destruct (Z.leb_spec (kShift F) i); cbn [andb negb].
  - rewrite Z.mul_pow2_bits by lia. destruct (Z.ltb_spec i (kShift F + kSize F)); cbn [negb].
    + by rewrite andb_false_r.
    + rewrite (low_bits_high v (kSize F)) by lia. by rewrite andb_true_r, orb_false_r.
  - rewrite Z.mul_pow2_bits_low by lia. by rewrite andb_true_r, orb_false_r.
Qed.

Lemma decode_encode v : 0 <= v < 2 ^ kSize F -> decode (v * 2 ^ kShift F) = v.
Proof.
  intros Hv. pose proof HF as [Hs Hz Hf Hw]. apply Z.bits_inj'. intros i Hi.
  rewrite decode_testbit, Z.mul_pow2_bits by lia. replace (i + kShift F - kShift F) with i by lia.
  destruct (Z.ltb_spec i (kSize F)); [done|]. by rewrite (low_bits_high v (kSize F)) by lia.
Qed.
End bit_field.

(** ** Several fields in one word *)

(** Two fields of the same word that do not overlap. *)
Definition disjoint (F G : BitField) : Prop :=
  kShift F + kSize F <= kShift G \/ kShift G + kSize G <= kShift F.

Lemma disjoint_Next F size2 : disjoint F (Next F size2).
Proof. left. done. Qed.

Lemma decode_update_other F G u v w :
  bitfield_ok F -> bitfield_ok G -> disjoint F G ->
  0 <= u < 2 ^ kWidth F -> 0 <= v < 2 ^ kSize F -> update F u v = Ok w -> decode G w = decode G u.
Proof.
  intros HF HG Hd Hu Hv Hw. pose proof HF as [? ? _ _]. pose proof HG as [? ? _ _].
  apply Z.bits_inj'. intros i Hi. rewrite !decode_testbit by done.
  destruct (Z.ltb_spec i (kSize G)); [|done]. cbn [andb].
  rewrite (update_testbit F HF u v w) by (done || lia).
  destruct (Z.leb_spec (kShift F) (i + kShift G)), (Z.ltb_spec (i + kShift G) (kShift F + kSize F)); try done.
  destruct Hd; lia.
Qed.

Lemma decode_update F u v w :
  bitfield_ok F -> 0 <= u < 2 ^ kWidth F -> 0 <= v < 2 ^ kSize F -> update F u v = Ok w -> decode F w = v.
Proof.
  intros HF Hu Hv Hw. pose proof HF as [? ? _ _]. apply Z.bits_inj'. intros i Hi.
  rewrite decode_testbit, (update_testbit F HF u v w) by (done || lia).
  destruct (Z.ltb_spec i (kSize F)); cbn [andb].
  - destruct (Z.leb_spec (kShift F) (i + kShift F)), (Z.ltb_spec (i + kShift F) (kShift F + kSize F)); try lia.
    cbn [andb]. f_equal. lia.
  - by rewrite (low_bits_high v (kSize F)) by lia.
Qed.

Lemma update_range F u v :
  bitfield_ok F -> 0 <= u < 2 ^ kWidth F -> 0 <= v < 2 ^ kSize F ->
  exists w, update F u v = Ok w /\ 0 <= w < 2 ^ kWidth F.
Proof.
  intros HF Hu Hv. pose proof HF as [? ? ? ?].
  destruct (update F u v) as [w|] eqn:E; [|by unfold update in E; rewrite encode_spec in E by done].
  exists w. split; [done|].
  assert (0 <= w) as Hw.
  { unfold update in E. rewrite encode_spec in E by done. injection E as <-. apply Z.lor_nonneg. split.
    - apply Z.land_nonneg. lia.
    - pose proof (Z.pow_nonneg 2 (kShift F)). nia. }
  split; [done|]. destruct (Z.eq_dec w 0) as [-> | Hw0]; [apply Z.pow_pos_nonneg; lia|].
  apply Z.log2_lt_pow2; [lia|]. destruct (Z.lt_ge_cases (Z.log2 w) (kWidth F)) as [|Hl]; [done|].
  pose proof (Z.bit_log2 w ltac:(lia)) as Hb.
  rewrite (update_testbit F HF u v w) in Hb by (done || lia).
  destruct (Z.ltb_spec (Z.log2 w) (kShift F + kSize F)); [lia|]. rewrite andb_false_r in Hb.
  by rewrite (low_bits_high u (kWidth F)) in Hb by lia.
Qed.

(** ** Items in an array of words *)

(** The template [BitSetComputer<T, kBitsPerItem, kBitsPerWord, U>].  Words are unsigned and
    the masks are [int]s: the definitions are for words of at most 31 used bits, where no
    shift of an [int] overflows and the conversion of a mask to [U] keeps its bits. *)
Record BitSetComputer : Type := mkBitSetComputer {
  kBitsPerItem : Z;
  kBitsPerWord : Z;
}.

Section bit_set.
Context (S : BitSetComputer).

Definition kItemsPerWord : Z := kBitsPerWord S / kBitsPerItem S.
Definition kItemMask : Z := Z.shiftl 1 (kBitsPerItem S) - 1.
Definition word_count (items : Z) : Z :=
  if items =? 0 then 0 else Z.quot (items - 1) kItemsPerWord + 1.
Definition item_index (base_index item : Z) : Z := base_index + Z.quot item kItemsPerWord.
Definition item_shift (item : Z) : Z := Z.rem item kItemsPerWord * kBitsPerItem S.
Definition item_decode (data item : Z) : Z := Z.land (Z.shiftr data (item_shift item)) kItemMask.
Definition item_encode (previous item value : Z) : Z :=
  let shift_value := item_shift item in
  let set_bits := Z.shiftl value shift_value in
  Z.lor (Z.land previous (Z.lnot (Z.shiftl kItemMask shift_value))) set_bits.

Context (HS : 0 < kBitsPerItem S <= kBitsPerWord S).

Lemma kItemsPerWord_pos : 0 < kItemsPerWord.
Proof. apply Z.div_str_pos. lia. Qed.

Lemma item_mask_testbit i : 0 <= i -> Z.testbit kItemMask i = (i <? kBitsPerItem S).
Proof.
  intros Hi. unfold kItemMask. rewrite Z.shiftl_1_l.
  replace (2 ^ kBitsPerItem S - 1) with (Z.ones (kBitsPerItem S)) by (rewrite Z.ones_equiv; lia).
  destruct (Z.ltb_spec i (kBitsPerItem S)); [apply Z.ones_spec_low | apply Z.ones_spec_high]; lia.
Qed.

Lemma item_shift_nonneg item : 0 <= item -> 0 <= item_shift item.
Proof.
  intros Hi. unfold item_shift. pose proof kItemsPerWord_pos. pose proof (Z.rem_bound_pos item kItemsPerWord). nia.
Qed.

Lemma item_decode_testbit data item i :
  0 <= item -> 0 <= i -> Z.testbit (item_decode data item) i =
    (i <? kBitsPerItem S) && Z.testbit data (i + item_shift item).
Proof.
  intros Hitem Hi. pose proof (item_shift_nonneg item Hitem). unfold item_decode.
  rewrite Z.land_spec, Z.shiftr_spec, item_mask_testbit by lia. apply andb_comm.
Qed.

Lemma item_encode_testbit previous item value i :
  0 <= item -> 0 <= value < 2 ^ kBitsPerItem S -> 0 <= i ->
  Z.testbit (item_encode previous item value) i =
    if (item_shift item <=? i) && (i <? item_shift item + kBitsPerItem S)
    then Z.testbit value (i - item_shift item) else Z.testbit previous i.
Proof.
  intros Hitem Hv Hi. pose proof (item_shift_nonneg item Hitem). unfold item_encode. set (s := item_shift item) in *.
  rewrite Z.lor_spec, Z.land_spec, Z.lnot_spec, !Z.shiftl_spec by lia.
  destruct (Z.leb_spec s i); cbn [andb].
  - rewrite item_mask_testbit by lia.
    destruct (Z.ltb_spec (i - s) (kBitsPerItem S)), (Z.ltb_spec i (s + kBitsPerItem S)); try lia; cbn [negb].
    + by rewrite andb_false_r.
    + rewrite (low_bits_high value (kBitsPerItem S)) by lia. by rewrite andb_true_r, orb_false_r.
  - rewrite !(Z.testbit_neg_r _ (i - s)) by lia. by rewrite andb_true_r, orb_false_r.
Qed.

Lemma item_decode_encode previous item value :
  0 <= item -> 0 <= value < 2 ^ kBitsPerItem S ->
  item_decode (item_encode previous item value) item = value.
Proof.
  intros Hitem Hv. pose proof (item_shift_nonneg item Hitem). apply Z.bits_inj'. intros i Hi.
  rewrite item_decode_testbit, item_encode_testbit by lia.
  destruct (Z.ltb_spec i (kBitsPerItem S)); cbn [andb].
  - destruct (Z.leb_spec (item_shift item) (i + item_shift item)),
      (Z.ltb_spec (i + item_shift item) (item_shift item + kBitsPerItem S)); try lia.
    cbn [andb]. f_equal. lia.
  - by rewrite (low_bits_high value (kBitsPerItem S)) by lia.
Qed.

(** Items at different positions of a word do not interfere. *)
Lemma item_decode_encode_other previous item other value :
  0 <= item -> 0 <= other -> 0 <= value < 2 ^ kBitsPerItem S ->
  Z.rem item kItemsPerWord <> Z.rem other kItemsPerWord ->
  item_decode (item_encode previous item value) other = item_decode previous other.
Proof.
  intros Hitem Hother Hv Hne. pose proof (item_shift_nonneg item Hitem). pose proof (item_shift_nonneg other Hother).
  apply Z.bits_inj'. intros i Hi. rewrite !item_decode_testbit by lia.
  destruct (Z.ltb_spec i (kBitsPerItem S)); [|done]. cbn [andb]. rewrite item_encode_testbit by lia.
  destruct (Z.leb_spec (item_shift item) (i + item_shift other)),
    (Z.ltb_spec (i + item_shift other) (item_shift item + kBitsPerItem S)); try done.
  exfalso. unfold item_shift in *. set (a := Z.rem item kItemsPerWord) in *. set (b := Z.rem other kItemsPerWord) in *.
  set (k := kBitsPerItem S) in *. clearbody a b k. assert (a < b \/ b < a) as [?|?] by lia; nia.
Qed.
End bit_set.

(** ** Correctness *)

(** C38: updating a field of a word stores the value in that field, changes no field that does
    not overlap with it (the next field of a declaration never does), and stays within the
    word; a value that does not fit is caught by the [DCHECK]. *)
Theorem BitField_update_decode F G u v :
  bitfield_ok F -> bitfield_ok G -> disjoint F G -> 0 <= u < 2 ^ kWidth F -> 0 <= v < 2 ^ kWidth F ->
  (v < 2 ^ kSize F -> exists w, update F u v = Ok w /\ 0 <= w < 2 ^ kWidth F /\
     decode F w = v /\ decode G w = decode G u) /\
  (2 ^ kSize F <= v -> update F u v = Err DCheckFailed) /\ disjoint F (Next F (kSize G)).
Proof.
  intros HF HG Hd Hu Hv. split_and!; [| |apply disjoint_Next].
  - intros Hs. destruct (update_range F u v HF Hu ltac:(lia)) as (w & E & Hw). exists w.
    split_and!; [done | lia | lia | apply (decode_update F u); (done || lia) | ].
    apply (decode_update_other F G u v); (done || lia).
  - intros Hs. unfold update. by rewrite (encode_invalid F HF) by lia.
Qed.

Lemma BitField_update_decode_witness :
  let F := mkBitField 0 1 32 in let G := Next F 30 in
  (1 < 2 ^ kSize F -> exists w, update F 12 1 = Ok w /\ 0 <= w < 2 ^ kWidth F /\
     decode F w = 1 /\ decode G w = decode G 12) /\
  (2 ^ kSize F <= 1 -> update F 12 1 = Err DCheckFailed) /\ disjoint F (Next F (kSize G)).
Proof.
  apply BitField_update_decode; [split; cbn; lia | split; cbn; lia | left; cbn; lia | cbn; lia | cbn; lia].
Defined.

Lemma same_index_other_shift S item other :
  0 < kItemsPerWord S -> item_index S 0 item = item_index S 0 other -> item <> other ->
  Z.rem item (kItemsPerWord S) <> Z.rem other (kItemsPerWord S).
Proof.
  intros Hp Hi Hne E. apply Hne. unfold item_index in Hi.
  rewrite (Z.quot_rem item (kItemsPerWord S)), (Z.quot_rem other (kItemsPerWord S)) by lia. lia.
Qed.

(** A bit set: storing an item changes this item only, and the items of a set of [n]
    items are stored in the [word_count n] words from the base index on. *)
Theorem BitSet_items_independent S previous item other value items base :
  0 < kBitsPerItem S <= kBitsPerWord S -> kBitsPerWord S <= 31 ->
  0 <= item < items -> 0 <= other -> 0 <= value < 2 ^ kBitsPerItem S ->
  item_decode S (item_encode S previous item value) item = value /\
  (item <> other -> item_index S base item = item_index S base other ->
     item_decode S (item_encode S previous item value) other = item_decode S previous other) /\
  base <= item_index S base item < base + word_count S items.
Proof.
  intros HS _ Hi Ho Hv. pose proof (kItemsPerWord_pos S HS) as Hp. split_and!.
  - apply item_decode_encode; (done || lia).
  - intros Hne E. apply item_decode_encode_other; try (done || lia).
    apply same_index_other_shift; [done | unfold item_index in *; lia | done].
  - unfold item_index. pose proof (Z.quot_pos item (kItemsPerWord S)). lia.
  - unfold item_index, word_count. destruct (Z.eqb_spec items 0); [lia|].
    pose proof (Z.quot_le_mono item (items - 1) (kItemsPerWord S)). lia.
Qed.

