(* ===== verification/Double.v ===== *)
(** Doubles: the class [Double] of [src/base/numbers/double.h], which takes the bits of an
    IEEE 754 binary64 number apart, and the meaning of those bits.  A double is its bit
    pattern, an integer below [2 ^ 64]. *)

From Stdlib Require Import ZArith Lia.
From stdpp Require Import base tactics numbers list option.
From S2P Require Import Prelude.

#[local] Open Scope Z_scope.

(** Arithmetic on [uint64_t] wraps. *)
Definition uint64 (v : Z) : Z := v mod 2 ^ 64.

(** ** IEEE 754 binary64 *)

Definition is_double (d : Z) : Prop := 0 <= d < 2 ^ 64.

(** The three fields of the format. *)
Definition fraction (d : Z) : Z := d mod 2 ^ 52.
Definition biased_exponent (d : Z) : Z := d / 2 ^ 52 mod 2 ^ 11.
Definition negative (d : Z) : bool := 2 ^ 63 <=? d.

Definition isnan (d : Z) : bool := (biased_exponent d =? 2047) && negb (fraction d =? 0).
Definition isfinite (d : Z) : bool := negb (biased_exponent d =? 2047).

(** Every finite double is a multiple of [2 ^ -1074]; [scaled d] is the factor, so that
    the real number [d] denotes is [scaled d / unit_scale]. *)
Definition unit_scale : Z := 2 ^ 1074.
Definition magnitude (d : Z) : Z :=
  if biased_exponent d =? 0 then fraction d else (fraction d + 2 ^ 52) * 2 ^ (biased_exponent d - 1).
Definition scaled (d : Z) : Z := if negative d then - magnitude d else magnitude d.

(** The C++ comparisons [d == 0] and [d < 0], and [d == std::floor(d)]. *)
Definition eq_zero (d : Z) : bool := isfinite d && (scaled d =? 0).
Definition lt_zero (d : Z) : bool := negb (isnan d) && negative d && negb (eq_zero d).
Definition eq_floor (d : Z) : bool :=
  if isfinite d then scaled d mod unit_scale =? 0 else negb (isnan d).

(** ** double.h *)

Definition kSignMask : Z := 0x8000000000000000.
Definition kExponentMask : Z := 0x7FF0000000000000.
Definition kSignificandMask : Z := 0x000FFFFFFFFFFFFF.
Definition kHiddenBit : Z := 0x0010000000000000.
Definition kPhysicalSignificandSize : Z := 52.
Definition kSignificandSize : Z := 53.
Definition kExponentBias : Z := 0x3FF + kPhysicalSignificandSize.
Definition kDenormalExponent : Z := - kExponentBias + 1.
Definition kInfinity : Z := 0x7FF0000000000000.

Definition IsDenormal (d64 : Z) : bool := Z.land d64 kExponentMask =? 0.
Definition IsSpecial (d64 : Z) : bool := Z.land d64 kExponentMask =? kExponentMask.
Definition IsInfinite (d64 : Z) : bool :=
  (Z.land d64 kExponentMask =? kExponentMask) && (Z.land d64 kSignificandMask =? 0).

Definition Sign (d64 : Z) : Z := if Z.land d64 kSignMask =? 0 then 1 else -1.

Definition Exponent (d64 : Z) : Z :=
  if IsDenormal d64 then kDenormalExponent
  else
    let biased_e := Z.shiftr (Z.land d64 kExponentMask) kPhysicalSignificandSize in
    biased_e - kExponentBias.

Definition Significand (d64 : Z) : Z :=
  let significand := Z.land d64 kSignificandMask in
  if negb (IsDenormal d64) then significand + kHiddenBit else significand.

Definition NextDouble (d64_ : Z) : Z :=
  if d64_ =? kInfinity then kInfinity
  else if (Sign d64_ <? 0) && (Significand d64_ =? 0) then 0
  else if Sign d64_ <? 0 then uint64 (d64_ - 1)
  else uint64 (d64_ + 1).

(** ** Fields and bits *)

Lemma land_fraction d : Z.land d kSignificandMask = fraction d.
Proof. unfold kSignificandMask, fraction. change 0xFFFFFFFFFFFFF with (Z.ones 52). by rewrite Z.land_ones. Qed.

Lemma shiftr_exponent d : Z.land (Z.shiftr d kPhysicalSignificandSize) 0x7FF = biased_exponent d.
Proof.
  unfold kPhysicalSignificandSize, biased_exponent. change 0x7FF with (Z.ones 11).
  by rewrite Z.land_ones, Z.shiftr_div_pow2.
Qed.

Lemma land_exponent d : Z.land d kExponentMask = biased_exponent d * 2 ^ 52.
Proof.
  rewrite <- shiftr_exponent, <- Z.shiftl_mul_pow2 by lia. unfold kPhysicalSignificandSize.
  apply Z.bits_inj'. intros n Hn. rewrite Z.land_spec, Z.shiftl_spec by lia.
  change kExponentMask with (Z.shiftl 0x7FF 52). rewrite Z.shiftl_spec by lia.
  destruct (Z.lt_ge_cases n 52).
  - by rewrite !(Z.testbit_neg_r _ (n - 52)), andb_false_r by lia.
  - rewrite Z.land_spec, Z.shiftr_spec by lia. do 2 f_equal. lia.
Qed.

Lemma fraction_bounds d : 0 <= fraction d < 2 ^ 52.
Proof. unfold fraction. apply Z.mod_pos_bound. lia. Qed.

Lemma exponent_bounds d : 0 <= biased_exponent d < 2 ^ 11.
Proof. unfold biased_exponent. apply Z.mod_pos_bound. lia. Qed.

Lemma lor_hidden d : Z.lor (Z.land d kSignificandMask) kHiddenBit = fraction d + 2 ^ 52.
Proof.
  rewrite land_fraction, Z.lor_comm, Z.add_comm. pose proof (fraction_bounds d).
  change kHiddenBit with (1 * 2 ^ 52). rewrite lor_shiftl_add by lia. lia.
Qed.

(** The bits are determined by the fields. *)
Lemma double_fields d :
  is_double d -> d = (if negative d then 2 ^ 63 else 0) + biased_exponent d * 2 ^ 52 + fraction d.
Proof.
  unfold is_double, negative, biased_exponent, fraction. intros Hd.
  pose proof (Z.div_mod d (2 ^ 52) ltac:(lia)) as E. pose proof (Z.div_mod (d / 2 ^ 52) (2 ^ 11) ltac:(lia)) as E'.
  pose proof (Z.mod_pos_bound d (2 ^ 52) ltac:(lia)). pose proof (Z.mod_pos_bound (d / 2 ^ 52) (2 ^ 11) ltac:(lia)).
  destruct (Z.leb_spec (2 ^ 63) d); lia.
Qed.

(** A double with given fields. *)
Lemma compose_fields (s : bool) e f :
  0 <= e < 2 ^ 11 -> 0 <= f < 2 ^ 52 ->
  let d := (if s then 2 ^ 63 else 0) + e * 2 ^ 52 + f in
  is_double d /\ negative d = s /\ biased_exponent d = e /\ fraction d = f.
Proof.
  intros He Hf d. unfold is_double, negative, biased_exponent, fraction.
  destruct (div_mod_unique d (2 ^ 52) ((if s then 2 ^ 11 else 0) + e) f) as [E1 E2]; [lia | unfold d; destruct s; lia|].
  destruct (div_mod_unique ((if s then 2 ^ 11 else 0) + e) (2 ^ 11) (if s then 1 else 0) e) as [E3 E4]; [lia | destruct s; lia|].
  rewrite E2, E1, E4. split_and!; [unfold d; destruct s; lia | unfold d; destruct s; lia | unfold d; destruct s .. | done | done];
    destruct (Z.leb_spec (2 ^ 63) (2 ^ 63 + e * 2 ^ 52 + f)); destruct (Z.leb_spec (2 ^ 63) (0 + e * 2 ^ 52 + f)); (done || lia).
Qed.

Lemma magnitude_nonneg d : 0 <= magnitude d.
Proof.
  unfold magnitude. pose proof (fraction_bounds d). destruct (Z.eqb_spec (biased_exponent d) 0); [lia|].
  pose proof (exponent_bounds d). pose proof (Z.pow_pos_nonneg 2 (biased_exponent d - 1)). nia.
Qed.

Lemma scaled_abs d : Z.abs (scaled d) = magnitude d.
Proof. unfold scaled. pose proof (magnitude_nonneg d). destruct (negative d); lia. Qed.

(** The value in terms of the accessors of the class. *)
Lemma scaled_accessors d : is_double d -> scaled d = Sign d * Significand d * 2 ^ (Exponent d + 1074).
Proof.
  intros Hd. unfold Sign, Significand, Exponent, IsDenormal. rewrite land_exponent, land_fraction.
  assert ((Z.land d kSignMask =? 0) = negb (negative d)) as ->.
  { unfold negative, kSignMask. change 0x8000000000000000 with (Z.shiftl 1 63).
    replace (Z.land d (Z.shiftl 1 63)) with (Z.shiftl (d / 2 ^ 63) 63).
    2: { apply Z.bits_inj'. intros n Hn. rewrite Z.land_spec, !Z.shiftl_spec, <- Z.shiftr_div_pow2 by lia.
      destruct (Z.lt_trichotomy n 63) as [Hl | [-> | Hl]].
      - by rewrite !(Z.testbit_neg_r _ (n - 63)), andb_false_r by lia.
      - rewrite Z.shiftr_spec, Z.sub_diag, Z.add_0_l by lia. by rewrite andb_true_r.
      - rewrite Z.shiftr_spec by lia. replace (n - 63 + 63) with n by lia.
        rewrite (Z.bits_above_log2 d n); [done | unfold is_double in Hd; lia|].
        destruct (Z.eq_dec d 0) as [-> | ]; [cbn; lia|]. unfold is_double in Hd.
        assert (Z.log2 d < 64) by (apply Z.log2_lt_pow2; lia). lia. }
    rewrite Z.shiftl_mul_pow2 by lia. unfold is_double in Hd.
    pose proof (Z.div_mod d (2 ^ 63) ltac:(lia)). pose proof (Z.mod_pos_bound d (2 ^ 63) ltac:(lia)).
    destruct (Z.leb_spec (2 ^ 63) d); destruct (Z.eqb_spec (d / 2 ^ 63 * 2 ^ 63) 0); (done || lia). }
  unfold scaled, magnitude, kHiddenBit, kDenormalExponent, kExponentBias, kPhysicalSignificandSize.
  pose proof (exponent_bounds d).
  destruct (Z.eqb_spec (biased_exponent d) 0) as [E | E]; destruct (Z.eqb_spec (biased_exponent d * 2 ^ 52) 0); try lia; cbn [negb].
  - change (- (1023 + 52) + 1 + 1074) with 0. destruct (negative d); cbn [negb]; lia.
  - rewrite Z.shiftr_div_pow2, Z.div_mul by lia. change 0x10000000000000 with (2 ^ 52).
    replace (biased_exponent d - (1023 + 52) + 1074) with (biased_exponent d - 1) by lia.
    destruct (negative d); cbn [negb]; ring.
Qed.

(** ** Order *)

(** The exponent and the fraction of a double, as one number. *)
Definition rank (d : Z) : Z := biased_exponent d * 2 ^ 52 + fraction d.

Lemma magnitude_lt d d' : rank d < rank d' -> magnitude d < magnitude d'.
Proof.
  unfold rank, magnitude. pose proof (fraction_bounds d). pose proof (fraction_bounds d').
  pose proof (exponent_bounds d). pose proof (exponent_bounds d').
  set (e := biased_exponent d) in *. set (e' := biased_exponent d') in *. intros Hr.
  assert (e <= e') as He by lia. destruct (Z.eqb_spec e 0), (Z.eqb_spec e' 0); try lia.
  destruct (Z.eq_dec e e') as [<- | Hne].
  - assert (0 < 2 ^ (e - 1)) by (apply Z.pow_pos_nonneg; lia). nia.
  - assert (2 * 2 ^ (e - 1) <= 2 ^ (e' - 1)) by (rewrite <- Z.pow_succ_r by lia; apply Z.pow_le_mono_r; lia).
    assert (0 < 2 ^ (e - 1)) by (apply Z.pow_pos_nonneg; lia). nia.
Qed.

Lemma magnitude_inj d d' : magnitude d = magnitude d' -> rank d = rank d'.
Proof.
  intros E. destruct (Z.lt_trichotomy (rank d) (rank d')) as [Hl | [? | Hl]]; [|done|];
    apply magnitude_lt in Hl; lia.
Qed.

Lemma double_of_rank d : is_double d -> d = (if negative d then 2 ^ 63 else 0) + rank d.
Proof. intros Hd. rewrite (double_fields d Hd) at 1. unfold rank. lia. Qed.

(** Different finite doubles denote different numbers, apart from the two zeros. *)
Lemma scaled_inj d d' :
  is_double d -> is_double d' -> scaled d = scaled d' -> scaled d <> 0 -> d = d'.
Proof.
  intros Hd Hd' E H0. pose proof (scaled_abs d) as Ha. pose proof (scaled_abs d') as Ha'.
  rewrite (double_of_rank d Hd), (double_of_rank d' Hd'), (magnitude_inj d d') by congruence. f_equal.
  unfold scaled in *. pose proof (magnitude_nonneg d). destruct (negative d), (negative d'); (done || lia).
Qed.

(** The largest finite double is [2 ^ 1024 - 2 ^ 971]. *)
Lemma magnitude_max d : isfinite d = true -> magnitude d <= (2 ^ 1024 - 2 ^ 971) * unit_scale.
Proof.
  intros Hf. pose proof (fraction_bounds d). pose proof (exponent_bounds d). unfold isfinite in Hf.
  apply negb_true_iff, Z.eqb_neq in Hf. set (top := 0x7FEFFFFFFFFFFFFF).
  assert (magnitude top = (2 ^ 1024 - 2 ^ 971) * unit_scale) as <- by (vm_compute; reflexivity).
  destruct (Z.lt_trichotomy (rank d) (rank top)) as [Hl | [E | Hl]].
  - apply magnitude_lt in Hl. lia.
  - unfold magnitude. assert (biased_exponent d = biased_exponent top /\ fraction d = fraction top) as [-> ->]; [|lia].
    unfold rank in E. pose proof (fraction_bounds top). lia.
  - exfalso. unfold rank in Hl. change (biased_exponent top) with 2046 in Hl. change (fraction top) with (2 ^ 52 - 1) in Hl. lia.
Qed.
