(* ===== verification/Digit.v ===== *)
(** Machine digits: [digit_t], the build configuration, [src/bigint/util.h] and
    [src/bigint/digit-arithmetic.h]. *)

From Stdlib Require Import ZArith Lia.
From stdpp Require Import base tactics numbers list option.
From S2P Require Import Prelude.

#[local] Open Scope Z_scope.

(** ** Build configuration

    The preprocessor symbols the library is compiled under.  Every definition
    and theorem below is generic in them, so it covers the 32-bit and the
    64-bit platforms, with and without a double-width integer type, with and
    without the inline assembly of [digit_div]. *)
Class Config := {
  kLog2DigitBits : Z;
  kLog2DigitBits_cases : kLog2DigitBits = 5 \/ kLog2DigitBits = 6;
  HAVE_TWODIGIT_T : bool;
  HAVE_ASM_DIV : bool;
  V8_ADVANCED_BIGINT_ALGORITHMS : bool;
}.

Section digit.
Context `{Config}.

Definition kDigitBits : Z := Z.shiftl 1 kLog2DigitBits.

(** Number of values of a [digit_t]; arithmetic on [digit_t] wraps modulo it. *)
Definition digit_base : Z := 2 ^ kDigitBits.
Definition wrap (z : Z) : Z := z mod digit_base.
(** Arithmetic on [twodigit_t] wraps modulo the square. *)
Definition wrap2 (z : Z) : Z := z mod (digit_base * digit_base).

(** [z] is a [digit_t] value. *)
Definition is_digit (z : Z) : Prop := 0 <= z < digit_base.

Definition kHalfDigitBits : Z := kDigitBits / 2.
Definition kHalfDigitBase : Z := wrap (Z.shiftl 1 kHalfDigitBits).
Definition kHalfDigitMask : Z := kHalfDigitBase - 1.

(** *** util.h *)

(** [DIV_CEIL(x, y)], used with [x >= 1]. *)
Definition DIV_CEIL (x y : Z) : Z := (x - 1) / y + 1.

Definition RoundUp (x y : Z) : Z := Z.land (x + y - 1) (- y).

(** [__builtin_clzll]/[__builtin_clz] at the width of a digit. *)
Definition CountLeadingZeros (value : Z) : Z :=
  if value =? 0 then kDigitBits else kDigitBits - 1 - Z.log2 value.

(** The [uint32_t] instances of [CountLeadingZeros] and [CountTrailingZeros]. *)
Definition CountLeadingZeros32 (value : Z) : Z :=
  if value =? 0 then 32 else 31 - Z.log2 value.

Fixpoint pos_trailing_zeros (p : positive) : Z :=
  match p with
  | xO q => 1 + pos_trailing_zeros q
  | _ => 0
  end.

Definition CountTrailingZeros (value : Z) : Z :=
  match value with
  | Zpos p => pos_trailing_zeros p
  | _ => 32
  end.

(** [BitLength(int)]. *)
Definition BitLength_int (n : Z) : Z := 32 - CountLeadingZeros32 (n mod 2 ^ 32).

Definition IsPowerOfTwo (value : Z) : bool :=
  (0 <? value) && (Z.land value (value - 1) =? 0).

(** *** digit-arithmetic.h *)

(** Functions with an out-parameter return the pair of the result and the
    value stored through the pointer. *)

Definition digit_ismax (x : Z) : bool := wrap (Z.lnot x) =? 0.

Definition digit_add2 (a b : Z) : Z * Z :=
  if HAVE_TWODIGIT_T then
    let result := wrap2 (a + b) in
    (wrap result, wrap (Z.shiftr result kDigitBits))
  else
    let result := wrap (a + b) in
    (result, if result <? a then 1 else 0).

Definition digit_add3 (a b c : Z) : Z * Z :=
  if HAVE_TWODIGIT_T then
    let result := wrap2 (a + b + c) in
    (wrap result, wrap (Z.shiftr result kDigitBits))
  else
    let result := wrap (a + b) in
    let carry := if result <? a then 1 else 0 in
    let result := wrap (result + c) in
    let carry := if result <? c then wrap (carry + 1) else carry in
    (result, carry).

Definition digit_sub (a b : Z) : Z * Z :=
  if HAVE_TWODIGIT_T then
    let result := wrap2 (a - b) in
    (wrap result, wrap (Z.land (Z.shiftr result kDigitBits) 1))
  else
    let result := wrap (a - b) in
    (result, if a <? result then 1 else 0).

Definition digit_sub2 (a b borrow_in : Z) : Z * Z :=
  if HAVE_TWODIGIT_T then
    let subtrahend := wrap2 (b + borrow_in) in
    let result := wrap2 (a - subtrahend) in
    (wrap result, wrap (Z.land (Z.shiftr result kDigitBits) 1))
  else
    let result := wrap (a - b) in
    let borrow_out := if a <? result then 1 else 0 in
    let borrow_out :=
      if result <? borrow_in then wrap (borrow_out + 1) else borrow_out in
    (wrap (result - borrow_in), borrow_out).

(** Low half and high half of the product. *)
Definition digit_mul (a b : Z) : Z * Z :=
  if HAVE_TWODIGIT_T then
    let result := wrap2 (a * b) in
    (wrap result, wrap (Z.shiftr result kDigitBits))
  else
    let a_low := Z.land a kHalfDigitMask in
    let a_high := Z.shiftr a kHalfDigitBits in
    let b_low := Z.land b kHalfDigitMask in
    let b_high := Z.shiftr b kHalfDigitBits in
    let r_low := wrap (a_low * b_low) in
    let r_mid1 := wrap (a_low * b_high) in
    let r_mid2 := wrap (a_high * b_low) in
    let r_high := wrap (a_high * b_high) in
    let '(low, carry) :=
      digit_add3 r_low (wrap (Z.shiftl r_mid1 kHalfDigitBits))
        (wrap (Z.shiftl r_mid2 kHalfDigitBits)) in
    (low,
     wrap (Z.shiftr r_mid1 kHalfDigitBits + Z.shiftr r_mid2 kHalfDigitBits
           + r_high + carry)).

(** The correction loop of [digit_div]:
    [while (q >= kHalfDigitBase || q * vn0 > rhat * kHalfDigitBase + un)
     { q--; rhat += vn1; if (rhat >= kHalfDigitBase) break; }].
    Each round adds [vn1 >= kHalfDigitBase / 2] to [rhat], so the loop runs at
    most twice. *)
Fixpoint digit_div_correct (fuel : nat) (vn1 vn0 un q rhat : Z) : res (Z * Z) :=
  match fuel with
  | O => Err OutOfFuel
  | S fuel =>
      if (kHalfDigitBase <=? q)
         || (wrap (rhat * kHalfDigitBase + un) <? wrap (q * vn0)) then
        let q := wrap (q - 1) in
        let rhat := wrap (rhat + vn1) in
        if kHalfDigitBase <=? rhat then mret (q, rhat)
        else digit_div_correct fuel vn1 vn0 un q rhat
      else mret (q, rhat)
  end.

(** The portable branch, after Warren, Hacker's Delight, p. 152. *)
Definition digit_div_portable (high low divisor : Z) : res (Z * Z) :=
  let s := CountLeadingZeros divisor in
  dcheck (negb (s =? kDigitBits));;
  let divisor := wrap (Z.shiftl divisor s) in
  let vn1 := Z.shiftr divisor kHalfDigitBits in
  let vn0 := Z.land divisor kHalfDigitMask in
  let kShiftMask := kDigitBits - 1 in
  let s_zero_mask := wrap (Z.shiftr (- s) (kDigitBits - 1)) in
  let un32 :=
    Z.lor (wrap (Z.shiftl high s))
      (Z.land (Z.shiftr low (Z.land (kDigitBits - s) kShiftMask)) s_zero_mask) in
  let un10 := wrap (Z.shiftl low s) in
  let un1 := Z.shiftr un10 kHalfDigitBits in
  let un0 := Z.land un10 kHalfDigitMask in
  let q1 := un32 / vn1 in
  let rhat := wrap (un32 - q1 * vn1) in
  '(q1, _) ← digit_div_correct 3 vn1 vn0 un1 q1 rhat;
  let un21 := wrap (un32 * kHalfDigitBase + un1 - q1 * divisor) in
  let q0 := un21 / vn1 in
  let rhat := wrap (un21 - q0 * vn1) in
  '(q0, _) ← digit_div_correct 3 vn1 vn0 un0 q0 rhat;
  mret (wrap (q1 * kHalfDigitBase + q0),
        Z.shiftr (wrap (un21 * kHalfDigitBase + un0 - q0 * divisor)) s).

(** Quotient and remainder of [high * 2^kDigitBits + low] by [divisor]; the
    assembly branch is the [divq]/[divl] instruction. *)
Definition digit_div (high low divisor : Z) : res (Z * Z) :=
  dcheck (high <? divisor);;
  dcheck (negb (divisor =? 0));;
  if HAVE_ASM_DIV then
    mret ((high * digit_base + low) / divisor, (high * digit_base + low) mod divisor)
  else digit_div_portable high low divisor.

(** ** Facts about the digit width *)

Lemma kDigitBits_cases : kDigitBits = 32 \/ kDigitBits = 64.
Proof. unfold kDigitBits. destruct kLog2DigitBits_cases as [-> | ->]; auto. Qed.

Lemma digit_base_ge : 2 ^ 32 <= digit_base.
Proof.
  unfold digit_base. apply Z.pow_le_mono_r; [lia|].
  destruct kDigitBits_cases; lia.
Qed.

Lemma digit_base_half : digit_base = 2 ^ kHalfDigitBits * 2 ^ kHalfDigitBits.
Proof.
  unfold digit_base, kHalfDigitBits. rewrite <- Z.pow_add_r.
  - f_equal. by destruct kDigitBits_cases as [-> | ->].
  - by destruct kDigitBits_cases as [-> | ->].
  - by destruct kDigitBits_cases as [-> | ->].
Qed.

Lemma half_base_ge : 2 ^ 16 <= 2 ^ kHalfDigitBits.
Proof.
  unfold kHalfDigitBits.
  destruct kDigitBits_cases as [-> | ->]; by apply Z.pow_le_mono_r.
Qed.

Lemma kHalfDigitBits_pos : 0 < kHalfDigitBits.
Proof. unfold kHalfDigitBits. by destruct kDigitBits_cases as [-> | ->]. Qed.

Lemma kHalfDigitBase_eq : kHalfDigitBase = 2 ^ kHalfDigitBits.
Proof.
  unfold kHalfDigitBase, wrap.
  pose proof kHalfDigitBits_pos. rewrite Z.shiftl_1_l.
  apply Z.mod_small. pose proof half_base_ge. pose proof digit_base_half. nia.
Qed.

Lemma land_half_mask z : Z.land z kHalfDigitMask = z mod 2 ^ kHalfDigitBits.
Proof.
  unfold kHalfDigitMask. rewrite kHalfDigitBase_eq.
  pose proof kHalfDigitBits_pos.
  rewrite <- Z.land_ones by lia. f_equal. rewrite Z.ones_equiv. lia.
Qed.

Lemma shiftr_half z : Z.shiftr z kHalfDigitBits = z / 2 ^ kHalfDigitBits.
Proof. apply Z.shiftr_div_pow2. pose proof kHalfDigitBits_pos. lia. Qed.

Lemma shiftr_digit z : Z.shiftr z kDigitBits = z / digit_base.
Proof. apply Z.shiftr_div_pow2. destruct kDigitBits_cases; lia. Qed.

Lemma wrap_digit z : is_digit (wrap z).
Proof. pose proof digit_base_ge. apply Z.mod_pos_bound. lia. Qed.

Lemma wrap_small z : is_digit z -> wrap z = z.
Proof. apply Z.mod_small. Qed.

Lemma is_digit_0 : is_digit 0.
Proof. pose proof digit_base_ge. unfold is_digit. lia. Qed.

Lemma is_digit_1 : is_digit 1.
Proof. pose proof digit_base_ge. unfold is_digit. lia. Qed.

Lemma digit_base_even : digit_base = 2 * 2 ^ (kDigitBits - 1).
Proof.
  unfold digit_base. rewrite <- Z.pow_succ_r by (destruct kDigitBits_cases; lia).
  f_equal. lia.
Qed.

Lemma half_pair_digit x u :
  0 <= x < 2 ^ kHalfDigitBits -> 0 <= u < 2 ^ kHalfDigitBits ->
  is_digit (x * 2 ^ kHalfDigitBits + u).
Proof. unfold is_digit. rewrite digit_base_half. nia. Qed.

Lemma half_mul_digit x y :
  0 <= x < 2 ^ kHalfDigitBits -> 0 <= y < 2 ^ kHalfDigitBits -> is_digit (x * y).
Proof. unfold is_digit. rewrite digit_base_half. nia. Qed.

(** A double-width value splits into its low and its high digit. *)
Lemma twodigit_split z :
  0 <= z < digit_base * digit_base ->
  wrap (wrap2 z) = z mod digit_base /\
  wrap (Z.shiftr (wrap2 z) kDigitBits) = z / digit_base.
Proof.
  intros Hz. pose proof digit_base_ge. unfold wrap2.
  rewrite (Z.mod_small z) by done. rewrite shiftr_digit. split; [done|].
  apply wrap_small. split; [apply Z.div_pos; lia|].
  apply Z.div_lt_upper_bound; lia.
Qed.

(** A double-width difference: the low digit and the borrow. *)
Lemma twodigit_sub_split z :
  - digit_base <= z < digit_base ->
  wrap (wrap2 z) = z mod digit_base /\
  wrap (Z.land (Z.shiftr (wrap2 z) kDigitBits) 1) = (if z <? 0 then 1 else 0).
Proof.
  intros Hz. pose proof digit_base_ge. unfold wrap2, wrap.
  rewrite shiftr_digit. change 1 with (Z.ones 1) at 1. rewrite Z.land_ones by lia.
  rewrite Z.pow_1_r. split.
  - apply Z.mod_mod_divide. by exists digit_base.
  - destruct (Z.ltb_spec z 0).
    + destruct (div_mod_unique (z + digit_base * digit_base) digit_base
          (digit_base - 1) (z + digit_base)) as [Hd _]; [lia | lia |].
      rewrite (mod_eq_of_bounds z (z + digit_base * digit_base)), Hd;
        [| nia | exists (-1); lia].
      rewrite (mod_eq_of_bounds (digit_base - 1) 1 2); [apply Z.mod_small; lia | lia |].
      pose proof digit_base_even. exists (2 ^ (kDigitBits - 1) - 1). lia.
    + rewrite (Z.mod_small z), (Z.div_small z) by nia. done.
Qed.

(** ** Correctness of the digit operations *)

Ltac digit_arith :=
  pose proof digit_base_ge; unfold is_digit, wrap in *;
  Z.div_mod_to_equations; nia.

Lemma digit_add2_spec a b :
  is_digit a -> is_digit b ->
  exists r c, digit_add2 a b = (r, c) /\ r + c * digit_base = a + b /\
    is_digit r /\ 0 <= c <= 1.
Proof.
  intros Ha Hb. pose proof digit_base_ge. unfold digit_add2, is_digit in *.
  destruct HAVE_TWODIGIT_T.
  - destruct (twodigit_split (a + b)) as [-> ->]; [nia|].
    eexists _, _; split; [done|]. digit_arith.
  - eexists _, _; split; [done|]. unfold wrap.
    destruct (Z.lt_ge_cases (a + b) digit_base).
    + rewrite (Z.mod_small (a + b)) by lia.
      destruct (Z.ltb_spec (a + b) a); lia.
    + rewrite (mod_eq_of_bounds (a + b) (a + b - digit_base));
        [| lia | exists 1; lia].
      destruct (Z.ltb_spec (a + b - digit_base) a); lia.
Qed.

Lemma digit_add3_spec a b c :
  is_digit a -> is_digit b -> is_digit c ->
  exists r k, digit_add3 a b c = (r, k) /\ r + k * digit_base = a + b + c /\
    is_digit r /\ 0 <= k <= 2.
Proof.
  intros Ha Hb Hc. pose proof digit_base_ge. unfold digit_add3, is_digit in *.
  destruct HAVE_TWODIGIT_T.
  - destruct (twodigit_split (a + b + c)) as [-> ->]; [nia|].
    eexists _, _; split; [done|]. digit_arith.
  - eexists _, _; split; [done|].
    assert (exists r k, wrap (a + b) = r /\ (if r <? a then 1 else 0) = k /\
      r + k * digit_base = a + b /\ 0 <= r < digit_base /\ 0 <= k <= 1)
      as (r & k & -> & -> & Hrk & Hr & Hk).
    { unfold wrap. destruct (Z.lt_ge_cases (a + b) digit_base).
      - exists (a + b), 0. rewrite Z.mod_small by lia.
        destruct (Z.ltb_spec (a + b) a); lia.
      - exists (a + b - digit_base), 1.
        rewrite (mod_eq_of_bounds (a + b) (a + b - digit_base));
          [| lia | exists 1; lia].
        destruct (Z.ltb_spec (a + b - digit_base) a); lia. }
    destruct (Z.lt_ge_cases (r + c) digit_base).
    + rewrite (wrap_small (r + c)) by (unfold is_digit; lia).
      destruct (Z.ltb_spec (r + c) c); lia.
    + assert (wrap (r + c) = r + c - digit_base) as ->.
      { apply mod_eq_of_bounds; [lia | exists 1; lia]. }
      rewrite (wrap_small (k + 1)) by (unfold is_digit; lia).
      destruct (Z.ltb_spec (r + c - digit_base) c); lia.
Qed.

Lemma digit_sub_spec a b :
  is_digit a -> is_digit b ->
  exists r c, digit_sub a b = (r, c) /\ r - c * digit_base = a - b /\
    is_digit r /\ 0 <= c <= 1.
Proof.
  intros Ha Hb. pose proof digit_base_ge. unfold digit_sub, is_digit in *.
  assert (wrap (a - b) = if a <? b then a - b + digit_base else a - b) as Hw.
  { destruct (Z.ltb_spec a b); apply mod_eq_of_bounds;
      [lia | exists (-1); lia | lia | exists 0; lia]. }
  destruct HAVE_TWODIGIT_T.
  - destruct (twodigit_sub_split (a - b)) as [-> ->]; [lia|].
    unfold wrap in Hw. rewrite Hw. eexists _, _; split; [done|].
    destruct (Z.ltb_spec a b), (Z.ltb_spec (a - b) 0); lia.
  - rewrite Hw. eexists _, _; split; [done|].
    destruct (Z.ltb_spec a b).
    + destruct (Z.ltb_spec a (a - b + digit_base)); lia.
    + destruct (Z.ltb_spec a (a - b)); lia.
Qed.

Lemma digit_sub2_spec a b bin :
  is_digit a -> is_digit b -> 0 <= bin <= 1 ->
  exists r c, digit_sub2 a b bin = (r, c) /\ r - c * digit_base = a - b - bin /\
    is_digit r /\ 0 <= c <= 1.
Proof.
  intros Ha Hb Hbin. pose proof digit_base_ge. unfold digit_sub2, is_digit in *.
  destruct HAVE_TWODIGIT_T.
  - assert (wrap2 (b + bin) = b + bin) as -> by (apply Z.mod_small; nia).
    destruct (twodigit_sub_split (a - (b + bin))) as [-> ->]; [lia|].
    eexists _, _; split; [done|].
    destruct (Z.ltb_spec (a - (b + bin)) 0).
    + rewrite (mod_eq_of_bounds _ (a - (b + bin) + digit_base));
        [lia | lia | exists (-1); lia].
    + rewrite Z.mod_small; lia.
  - eexists _, _; split; [done|].
    assert (exists r k, wrap (a - b) = r /\ (if a <? r then 1 else 0) = k /\
      r - k * digit_base = a - b /\ 0 <= r < digit_base /\ 0 <= k <= 1)
      as (r & k & -> & -> & Hrk & Hr & Hk).
    { unfold wrap. destruct (Z.lt_ge_cases a b).
      - exists (a - b + digit_base), 1.
        rewrite (mod_eq_of_bounds (a - b) (a - b + digit_base));
          [| lia | exists (-1); lia].
        destruct (Z.ltb_spec a (a - b + digit_base)); lia.
      - exists (a - b), 0. rewrite Z.mod_small by lia.
        destruct (Z.ltb_spec a (a - b)); lia. }
    destruct (Z.ltb_spec r bin).
    + rewrite (wrap_small (k + 1)) by (unfold is_digit; lia).
      assert (wrap (r - bin) = r - bin + digit_base) as ->.
      { apply mod_eq_of_bounds; [lia | exists (-1); lia]. }
      assert (k = 0 \/ k = 1) as [-> | ->] by lia; lia.
    + rewrite (wrap_small (r - bin)) by (unfold is_digit; lia). lia.
Qed.

Lemma digit_mul_spec a b :
  is_digit a -> is_digit b ->
  exists low high, digit_mul a b = (low, high) /\ low + high * digit_base = a * b /\
    is_digit low /\ is_digit high.
Proof.
  intros Ha Hb. pose proof digit_base_ge as HB. unfold digit_mul.
  assert (0 <= a * b < digit_base * digit_base) as Hab by (unfold is_digit in *; nia).
  destruct HAVE_TWODIGIT_T.
  - unfold is_digit in *. destruct (twodigit_split (a * b)) as [-> ->]; [nia|].
    eexists _, _; split; [done|]. digit_arith.
  - rewrite !land_half_mask, !shiftr_half.
    rewrite !Z.shiftl_mul_pow2 by (pose proof kHalfDigitBits_pos; lia).
    pose proof digit_base_half as HH. pose proof half_base_ge as Hh.
    set (h := 2 ^ kHalfDigitBits) in *.
    assert (Hsplit : forall z, is_digit z -> z = z / h * h + z mod h /\
      0 <= z / h < h /\ 0 <= z mod h < h).
    { intros z Hz. unfold is_digit in Hz. rewrite HH in Hz.
      pose proof (Z.div_mod z h). pose proof (Z.mod_pos_bound z h).
      split_and!; try lia; [apply Z.div_pos | apply Z.div_lt_upper_bound]; lia. }
    destruct (Hsplit a Ha) as (Ea & Hah & Hal).
    destruct (Hsplit b Hb) as (Eb & Hbh & Hbl).
    set (ah := a / h) in *. set (al := a mod h) in *.
    set (bh := b / h) in *. set (bl := b mod h) in *.
    assert (Hprod : forall x y, 0 <= x < h -> 0 <= y < h -> wrap (x * y) = x * y).
    { intros. apply wrap_small. by apply half_mul_digit. }
    rewrite (Hprod al bl), (Hprod al bh), (Hprod ah bl), (Hprod ah bh) by done.
    assert (Hmid : forall x y, 0 <= x < h -> 0 <= y < h ->
      wrap (x * y * h) = (x * y) mod h * h).
    { intros. unfold wrap. rewrite HH. apply Z.mul_mod_distr_r; lia. }
    rewrite (Hmid al bh), (Hmid ah bl) by done.
    assert (Hm : forall x y, 0 <= x < h -> 0 <= y < h ->
      x * y = x * y / h * h + (x * y) mod h /\ 0 <= x * y / h < h /\ 0 <= (x * y) mod h < h).
    { intros. apply Hsplit. by apply half_mul_digit. }
    destruct (Hm al bh) as (E1 & Q1 & R1); [done..|].
    destruct (Hm ah bl) as (E2 & Q2 & R2); [done..|].
    destruct (digit_add3_spec (al * bl) ((al * bh) mod h * h) ((ah * bl) mod h * h))
      as (low & k & -> & Hlow & Hld & Hk); 
      [by apply half_mul_digit
      | rewrite <- (Z.add_0_r (_ * h)); apply half_pair_digit; subst h; lia
      | rewrite <- (Z.add_0_r (_ * h)); apply half_pair_digit; subst h; lia |].
    assert (low + (al * bh / h + ah * bl / h + ah * bh + k) * digit_base = a * b) as Htot.
    { rewrite Ea, Eb.
      transitivity (al * bl + (al * bh) * h + (ah * bl) * h + ah * bh * h * h); [|ring].
      apply (f_equal (fun z => z * h)) in E1, E2. rewrite HH in *. lia. }
    assert (is_digit (al * bh / h + ah * bl / h + ah * bh + k)) as Hhd.
    { unfold is_digit in *. split; [|apply (Z.mul_lt_mono_pos_r digit_base); lia].
      pose proof (Z.mul_nonneg_nonneg ah bh). lia. }
    rewrite (wrap_small (_ + k)) by done. eauto 10.
Qed.

Lemma digit_div_correct_spec fuel vn1 vn0 un u2 q rhat :
  let h := 2 ^ kHalfDigitBits in
  h <= 2 * vn1 -> vn1 < h -> 0 <= vn0 < h -> 0 <= un < h ->
  0 <= u2 < vn1 * h + vn0 ->
  u2 = q * vn1 + rhat -> 0 <= q <= h + 1 ->
  (3 - Z.of_nat fuel) * vn1 <= rhat < h -> 0 <= rhat -> Z.of_nat fuel <= 3 ->
  (u2 * h + un) / (vn1 * h + vn0) <= q ->
  wp (digit_div_correct fuel vn1 vn0 un q rhat)
    (fun '(q', _) => q' = (u2 * h + un) / (vn1 * h + vn0)).
Proof.
  intros h Hv1 Hv1' Hv0 Hun Hu2 Eu Hq Hr Hr0 Hf Hle.
  assert (Hpos : 0 < vn1 * h + vn0) by (subst h; pose proof half_base_ge; nia).
  revert q rhat Eu Hq Hr Hr0 Hf Hle.
  pose proof digit_base_half as HH. pose proof half_base_ge as Hh. fold h in HH, Hh.
  set (Q := (u2 * h + un) / (vn1 * h + vn0)) in *.
  assert (HQ : Q * (vn1 * h + vn0) <= u2 * h + un < (Q + 1) * (vn1 * h + vn0)).
  { unfold Q. pose proof (Z.div_mod (u2 * h + un) (vn1 * h + vn0)).
    pose proof (Z.mod_pos_bound (u2 * h + un) (vn1 * h + vn0)). nia. }
  assert (HQh : Q < h) by nia.
  assert (HQ0 : 0 <= Q) by nia.
  (* once the two tests fail, the estimate is the quotient *)
  assert (Hexact : forall q rhat, u2 = q * vn1 + rhat -> Q <= q ->
    q * vn0 <= rhat * h + un -> q = Q).
  { intros q rhat Eu Hle Ht. assert (q * (vn1 * h + vn0) <= u2 * h + un) by nia. nia. }
  induction fuel as [|fuel IH]; intros q rhat Eu Hq Hr Hr0 Hf Hle; [lia|].
  cbn [digit_div_correct]. rewrite kHalfDigitBase_eq. fold h.
  assert (is_digit (rhat * h + un)) as Hd1 by (apply half_pair_digit; fold h; lia).
  assert (q < h -> is_digit (q * vn0)) as Hd2 by (intros; apply half_mul_digit; fold h; lia).
  rewrite (wrap_small _ Hd1).
  destruct (Z.leb_spec h q) as [Hbig | Hsmall]; cbn [orb];
    [| rewrite (wrap_small _ (Hd2 Hsmall));
       destruct (Z.ltb_spec (rhat * h + un) (q * vn0)) as [Ht | Ht]].
  3: { apply wp_ret. by apply (Hexact q rhat). }
  all: assert (Q <= q - 1) as Hle'
    by first [lia | enough (Q < q) by lia;
      apply (mul_lt_cancel _ _ (vn1 * h + vn0)); [done|]; rewrite Eu in HQ; lia].
  all: assert (0 <= q - 1) by (clear - Hle' HQ0; lia).
  all: rewrite (wrap_small (q - 1)) by (unfold is_digit; clear - H0 Hh HH Hq; nia);
       rewrite (wrap_small (rhat + vn1)) by (unfold is_digit; clear - HH Hh Hr Hr0 Hv1 Hv1'; nia).
  all: destruct (Z.leb_spec h (rhat + vn1)) as [Hbr | Hbr];
    [ apply wp_ret; apply (Hexact _ (rhat + vn1)); [lia | lia |];
      clear - Hbr Hq Hv0 Hun; nia
    | apply IH; lia ].
Qed.

Lemma CountLeadingZeros_spec d :
  is_digit d -> d <> 0 ->
  0 <= CountLeadingZeros d < kDigitBits /\
  digit_base <= 2 * (d * 2 ^ CountLeadingZeros d) /\
  d * 2 ^ CountLeadingZeros d < digit_base.
Proof.
  intros Hd Hd0. unfold CountLeadingZeros, is_digit, digit_base in *.
  rewrite (proj2 (Z.eqb_neq d 0)) by done.
  assert (Z.log2 d < kDigitBits) by (apply Z.log2_lt_pow2; lia).
  pose proof (Z.log2_nonneg d). pose proof (Z.log2_spec d).
  split; [lia|].
  assert (2 ^ kDigitBits = 2 ^ (Z.log2 d + 1) * 2 ^ (kDigitBits - 1 - Z.log2 d)) as ->
    by (rewrite <- Z.pow_add_r by lia; f_equal; lia).
  assert (0 < 2 ^ (kDigitBits - 1 - Z.log2 d)) by (apply Z.pow_pos_nonneg; lia).
  rewrite Z.pow_succ_r, Z.pow_add_r, Z.pow_1_r in * by lia. nia.
Qed.

(** The shifted-out high part of [low << s], which is nothing when [s = 0]. *)
Lemma digit_div_shift_in low s :
  is_digit low -> 0 <= s < kDigitBits ->
  Z.land (Z.shiftr low (Z.land (kDigitBits - s) (kDigitBits - 1)))
    (wrap (Z.shiftr (- s) (kDigitBits - 1))) = low * 2 ^ s / digit_base.
Proof.
  intros Hl Hs. pose proof digit_base_ge.
  assert (kDigitBits - 1 = Z.ones kLog2DigitBits /\ 2 ^ kLog2DigitBits = kDigitBits
    /\ 0 < kLog2DigitBits) as (E1 & E2 & E3).
  { unfold kDigitBits. by destruct kLog2DigitBits_cases as [-> | ->]. }
  rewrite E1 at 1. rewrite Z.land_ones, E2 by lia.
  destruct (Z.eq_dec s 0) as [-> | Hs0].
  - rewrite Z.opp_0, Z.shiftr_0_l, Z.pow_0_r, Z.mul_1_r.
    unfold wrap. rewrite Z.mod_0_l, Z.land_0_r by lia.
    symmetry. apply Z.div_small. done.
  - rewrite (Z.mod_small (kDigitBits - s)) by lia.
    assert (Z.shiftr (- s) (kDigitBits - 1) = -1) as ->.
    { rewrite Z.shiftr_div_pow2 by lia. symmetry.
      assert (kDigitBits < 2 ^ (kDigitBits - 1))
        by (destruct kDigitBits_cases as [-> | ->]; lia).
      apply (Z.div_unique_pos _ _ _ (2 ^ (kDigitBits - 1) - s)); lia. }
    assert (wrap (-1) = Z.ones kDigitBits) as ->.
    { rewrite Z.ones_equiv. apply mod_eq_of_bounds; [fold digit_base; lia|].
      exists (-1). fold digit_base. lia. }
    rewrite Z.shiftr_div_pow2, Z.land_ones by lia. fold digit_base.
    assert (0 < 2 ^ s) by (apply Z.pow_pos_nonneg; lia).
    assert (digit_base = 2 ^ (kDigitBits - s) * 2 ^ s) as Hsp.
    { unfold digit_base. rewrite <- Z.pow_add_r by lia. f_equal. lia. }
    assert (0 < 2 ^ (kDigitBits - s)) by (apply Z.pow_pos_nonneg; lia).
    rewrite Hsp at 2. rewrite Z.div_mul_cancel_r by lia.
    apply Z.mod_small. unfold is_digit in Hl. split; [apply Z.div_pos; lia|].
    apply Z.div_lt_upper_bound; nia.
Qed.

(** One half-digit of the quotient: [u2 * h + un] divided by the bit-normalized
    [vn1 * h + vn0]. *)
Lemma digit_div_half_spec v un u2 :
  let h := 2 ^ kHalfDigitBits in
  is_digit v -> digit_base <= 2 * v -> 0 <= un < h -> 0 <= u2 < v ->
  wp (digit_div_correct 3 (v / h) (v mod h) un (u2 / (v / h))
        (wrap (u2 - u2 / (v / h) * (v / h))))
    (fun '(q, _) => q = (u2 * h + un) / v).
Proof.
  intros h Hv Hn Hun Hu2. unfold is_digit in *.
  pose proof digit_base_half as HH. pose proof half_base_ge as Hh. fold h in HH, Hh.
  pose proof (Z.div_mod v h ltac:(lia)) as Ev.
  pose proof (Z.mod_pos_bound v h ltac:(lia)) as Hv0.
  set (vn1 := v / h) in *. set (vn0 := v mod h) in *.
  assert (h <= 2 * vn1 /\ vn1 < h) as [Hv1 Hv1'].
  { assert (2 ^ kHalfDigitBits = 2 * 2 ^ (kHalfDigitBits - 1)) as He.
    { rewrite <- Z.pow_succ_r by (pose proof kHalfDigitBits_pos; lia). f_equal; lia. }
    fold h in He. split; [|nia].
    enough (2 ^ (kHalfDigitBits - 1) <= vn1) by lia.
    apply Z.div_le_lower_bound; [lia|]. nia. }
  pose proof (Z.div_mod u2 vn1 ltac:(lia)) as Eu.
  pose proof (Z.mod_pos_bound u2 vn1 ltac:(lia)) as Hr.
  assert (u2 - u2 / vn1 * vn1 = u2 mod vn1) as -> by lia.
  rewrite wrap_small by (unfold is_digit; nia).
  assert (v = vn1 * h + vn0) as Ev' by lia.
  replace ((u2 * h + un) / v) with ((u2 * h + un) / (vn1 * h + vn0)) by (by rewrite <- Ev').
  apply (digit_div_correct_spec 3 vn1 vn0 un u2); fold h; try lia.
  - split; [apply Z.div_pos; lia|].
    enough (u2 / vn1 < h + 2) by lia. apply Z.div_lt_upper_bound; [lia|]. nia.
  - rewrite <- Ev'. apply Z.lt_succ_r, Z.div_lt_upper_bound; [lia|].
    assert (u2 + 1 <= (u2 / vn1 + 1) * vn1) by lia.
    assert (0 <= u2 / vn1) by (apply Z.div_pos; lia).
    apply Z.lt_le_trans with ((u2 + 1) * h); [lia|].
    apply Z.le_trans with ((u2 / vn1 + 1) * vn1 * h); nia.
Qed.

Lemma digit_div_portable_spec high low d :
  is_digit high -> is_digit low -> is_digit d -> high < d ->
  wp (digit_div_portable high low d)
    (fun '(q, r) => high * digit_base + low = q * d + r /\ 0 <= r < d /\ is_digit q).
Proof.
  intros Hh Hl Hd Hlt. unfold digit_div_portable.
  destruct (CountLeadingZeros_spec d Hd) as (Hs & Hn & Hn'); [unfold is_digit in *; lia|].
  set (s := CountLeadingZeros d) in *.
  apply wp_bind, wp_dcheck; [apply negb_true_iff, Z.eqb_neq; lia|].
  rewrite digit_div_shift_in, !Z.shiftl_mul_pow2 by (done || lia).
  rewrite !land_half_mask, !shiftr_half, kHalfDigitBase_eq.
  assert (Hp : 0 < 2 ^ s) by (apply Z.pow_pos_nonneg; lia).
  pose proof digit_base_half as HH. pose proof half_base_ge as Hhb.
  set (v := d * 2 ^ s) in *. set (h := 2 ^ kHalfDigitBits) in *.
  assert (Hv : is_digit v) by (unfold is_digit in *; lia).
  rewrite (wrap_small v Hv).
  (* the shifted dividend *)
  assert (Hhs : is_digit (high * 2 ^ s)) by (unfold is_digit in *; nia).
  rewrite (wrap_small _ Hhs).
  pose proof (Z.div_mod (low * 2 ^ s) digit_base) as El.
  pose proof (Z.mod_pos_bound (low * 2 ^ s) digit_base) as Hm.
  assert (Hlo : 0 <= low * 2 ^ s / digit_base < 2 ^ s).
  { unfold is_digit in *. split; [apply Z.div_pos; lia | apply Z.div_lt_upper_bound; nia]. }
  rewrite lor_shiftl_add by lia.
  set (un32 := high * 2 ^ s + low * 2 ^ s / digit_base).
  change ((low * 2 ^ s) mod digit_base) with (wrap (low * 2 ^ s)) in *.
  set (un10 := wrap (low * 2 ^ s)) in *.
  specialize (El ltac:(lia)). specialize (Hm ltac:(lia)).
  assert (Etot : un32 * digit_base + un10 = (high * digit_base + low) * 2 ^ s) by lia.
  assert (Hun : 0 <= un32 < v).
  { unfold is_digit in *. split; [subst un32; nia|].
    apply (mul_lt_cancel _ _ digit_base); [lia|].
    apply Z.le_lt_trans with ((high * digit_base + low) * 2 ^ s); [lia|].
    replace (v * digit_base) with (d * digit_base * 2 ^ s) by (subst v; ring).
    apply Z.mul_lt_mono_pos_r; [done|]. clear - Hh Hl Hlt. nia. }
  pose proof (Z.div_mod un10 h ltac:(lia)) as E10.
  pose proof (Z.mod_pos_bound un10 h ltac:(lia)) as H0.
  assert (H1 : 0 <= un10 / h < h)
    by (split; [apply Z.div_pos; lia | apply Z.div_lt_upper_bound; lia]).
  set (un1 := un10 / h) in *. set (un0 := un10 mod h) in *.
  (* upper half of the quotient *)
  wp_apply (digit_div_half_spec v un1 un32); [done..|]. intros [q1 x1] Eq1; simpl in *.
  fold h in Eq1.
  pose proof (Z.div_mod (un32 * h + un1) v ltac:(lia)) as D1.
  pose proof (Z.mod_pos_bound (un32 * h + un1) v ltac:(lia)) as M1.
  rewrite <- Eq1 in D1.
  assert (un32 * h + un1 - q1 * v = (un32 * h + un1) mod v) as -> by lia.
  set (un21 := (un32 * h + un1) mod v) in *.
  rewrite (wrap_small un21) by (unfold is_digit; lia).
  (* lower half *)
  wp_apply (digit_div_half_spec v un0 un21); [done..|]. intros [q0 x0] Eq0; simpl in *.
  fold h in Eq0.
  pose proof (Z.div_mod (un21 * h + un0) v ltac:(lia)) as D0.
  pose proof (Z.mod_pos_bound (un21 * h + un0) v ltac:(lia)) as M0.
  rewrite <- Eq0 in D0.
  assert (un21 * h + un0 - q0 * v = (un21 * h + un0) mod v) as -> by lia.
  set (r0 := (un21 * h + un0) mod v) in *.
  rewrite (wrap_small r0) by (unfold is_digit; lia).
  assert (0 <= q1 < h) as Hq1 by (rewrite Eq1; by apply quotient_digit_bounds).
  assert (0 <= q0 < h) as Hq0 by (rewrite Eq0; by apply quotient_digit_bounds).
  assert (is_digit (q1 * h + q0)) as Hq by (by apply half_pair_digit).
  rewrite (wrap_small _ Hq).
  assert ((high * digit_base + low) * 2 ^ s = (q1 * h + q0) * v + r0) as Efin.
  { rewrite <- Etot, HH, E10. clear - D1 D0. nia. }
  rewrite Z.shiftr_div_pow2 by lia. subst v.
  assert (r0 = (high * digit_base + low - (q1 * h + q0) * d) * 2 ^ s) as Er by lia.
  rewrite Er, Z.div_mul by lia. split_and!; [lia | | | done].
  - apply (Z.mul_nonneg_cancel_r _ (2 ^ s)); lia.
  - apply (mul_lt_cancel _ _ (2 ^ s)); lia.
Qed.

(** [digit_div] divides a two-digit number by a digit, on every platform. *)
Lemma digit_div_spec high low d :
  is_digit high -> is_digit low -> is_digit d -> high < d ->
  wp (digit_div high low d)
    (fun '(q, r) => high * digit_base + low = q * d + r /\ 0 <= r < d /\ is_digit q).
Proof.
  intros Hh Hl Hd Hlt. unfold digit_div.
  apply wp_bind, wp_dcheck; [by apply Z.ltb_lt|].
  apply wp_bind, wp_dcheck;
    [apply negb_true_iff, Z.eqb_neq; unfold is_digit in *; lia|].
  destruct HAVE_ASM_DIV; [|by apply digit_div_portable_spec].
  unfold is_digit in *.
  pose proof (Z.div_mod (high * digit_base + low) d ltac:(lia)).
  pose proof (Z.mod_pos_bound (high * digit_base + low) d ltac:(lia)).
  apply wp_ret. split_and!; [lia | lia | lia | apply Z.div_pos; nia |].
  apply Z.div_lt_upper_bound; nia.
Qed.
End digit.
