(* ===== verification/Digits.v ===== *)
(** Digit vectors: the [Digits] and [RWDigits] views of [src/bigint/bigint.h],
    their numeric value, and the loops that fill a vector from its low end. *)

From Stdlib Require Import ZArith Lia.
From stdpp Require Import base tactics numbers list option.
From S2P Require Import Prelude Digit.

#[local] Open Scope Z_scope.

(** A [Digits] object is a pointer and a length; it is modelled by the digits of
    the view, least significant digit first, so [len()] is the length of the
    list.  Writing through an [RWDigits] returns the new contents of the view. *)
Abbreviation digits := (list Z) (only parsing).

Section digits.
Context `{Config}.
Implicit Types X Y P R : digits.

(** ** Operations of the views *)

(** [X[i]] as a value, with its bounds check. *)
Definition rd (X : digits) (i : nat) : res Z :=
  match X !! i with Some d => Ok d | None => Err OutOfBounds end.

(** [X[i] = d], with its bounds check. *)
Definition wr (X : digits) (i : nat) (d : Z) : res digits :=
  if decide (i < length X)%nat then Ok (<[i := d]> X) else Err OutOfBounds.

(** [Digits(src, offset, len)]: the length is clamped to what is there. *)
Definition Digits_slice (src : digits) (offset len : nat) : digits :=
  slice src offset len.

(** [X + i]. *)
Definition Digits_plus (X : digits) (i : nat) : res digits :=
  dcheck (bool_decide (i <= length X)%nat);; mret (drop i X).

Definition msd (X : digits) : res Z :=
  dcheck (bool_decide (0 < length X)%nat);; rd X (length X - 1).

(** [Normalize]: [while (len_ > 0 && msd() == 0) len_--]. *)
Fixpoint normalized_len (len : nat) (X : digits) : nat :=
  match len with
  | O => O
  | S len' =>
      match X !! len' with
      | Some 0 => normalized_len len' X
      | _ => len
      end
  end.

Definition Normalize (X : digits) : digits :=
  take (normalized_len (length X) X) X.

(** [TrimOne]. *)
Definition TrimOne (X : digits) : res digits :=
  d ← msd X; dcheck (d =? 0);; mret (take (length X - 1) X).

(** [Clear]: [memset] with zero. *)
Definition Clear (X : digits) : digits := replicate (length X) 0.

(** [while (i >= 0 && A[i] == B[i]) i--], then the comparison of the digits
    the loop stopped at. *)
Fixpoint compare_from (n : nat) (A B : digits) : res Z :=
  match n with
  | O => mret 0
  | S i =>
      a ← rd A i;
      b ← rd B i;
      if a =? b then compare_from i A B
      else mret (if b <? a then 1 else -1)
  end.

Definition Compare (A B : digits) : res Z :=
  let A := Normalize A in
  let B := Normalize B in
  let diff := Z.of_nat (length A) - Z.of_nat (length B) in
  if negb (diff =? 0) then mret diff else compare_from (length A) A B.

(** A loop [for (; i < i + n; i++) Z[i] = ...] that threads local variables:
    [body i Z c] computes the digit to store and the new locals from the index,
    the current contents of the written vector and the current locals. *)
Fixpoint write_loop {C} (n i : nat) (body : nat -> digits -> C -> res (Z * C))
    (Zd : digits) (c : C) : res (digits * C) :=
  match n with
  | O => mret (Zd, c)
  | S n' =>
      '(d, c') ← body i Zd c;
      Zd' ← wr Zd i d;
      write_loop n' (S i) body Zd' c'
  end.

(** [for (; i < Z.len(); i++) Z[i] = 0]. *)
Definition zero_from (i : nat) (Zd : digits) : res digits :=
  '(Zd', _) ← write_loop (length Zd - i) i (fun _ _ _ => mret (0, tt)) Zd tt;
  mret Zd'.

(** ** Numeric value *)

Fixpoint val (X : digits) : Z :=
  match X with
  | [] => 0
  | d :: X' => d + digit_base * val X'
  end.

Definition bpow (n : nat) : Z := digit_base ^ Z.of_nat n.

Definition digits_ok (X : digits) : Prop := Forall is_digit X.

(** [len_] is an [int]. *)
Definition int_len (X : digits) : Prop := Z.of_nat (length X) < 2 ^ 31.

Lemma bpow_0 : bpow 0 = 1.
Proof. done. Qed.

Lemma bpow_S n : bpow (S n) = digit_base * bpow n.
Proof. unfold bpow. rewrite Nat2Z.inj_succ, Z.pow_succ_r by lia. done. Qed.

Lemma bpow_add m n : bpow (m + n) = bpow m * bpow n.
Proof. unfold bpow. rewrite Nat2Z.inj_add, Z.pow_add_r by lia. done. Qed.

Lemma bpow_pos n : 0 < bpow n.
Proof. pose proof digit_base_ge. apply Z.pow_pos_nonneg; lia. Qed.

Lemma bpow_bits n : bpow n = 2 ^ (kDigitBits * Z.of_nat n).
Proof. unfold bpow, digit_base. rewrite <- Z.pow_mul_r; [done | destruct kDigitBits_cases; lia | lia]. Qed.

Lemma bpow_1 : bpow 1 = digit_base.
Proof. rewrite bpow_S, bpow_0. lia. Qed.

Lemma bpow_le m n : (m <= n)%nat -> bpow m <= bpow n.
Proof. intros. pose proof digit_base_ge. apply Z.pow_le_mono_r; lia. Qed.

Lemma bpow_lt m n : (m < n)%nat -> digit_base * bpow m <= bpow n.
Proof. intros. rewrite <- bpow_S. by apply bpow_le. Qed.

Lemma val_app X Y : val (X ++ Y) = val X + bpow (length X) * val Y.
Proof.
  induction X as [|d X IH]; cbn [val app length]; [rewrite bpow_0; lia|].
  rewrite IH, bpow_S. lia.
Qed.

Lemma val_snoc X d : val (X ++ [d]) = val X + bpow (length X) * d.
Proof. rewrite val_app. cbn [val]. lia. Qed.

Lemma val_replicate_0 n : val (replicate n 0) = 0.
Proof. induction n as [|n IH]; cbn [val replicate]; [done | rewrite IH; lia]. Qed.

Lemma val_app_zeros X n : val (X ++ replicate n 0) = val X.
Proof. rewrite val_app, val_replicate_0. lia. Qed.

Lemma val_bounds X : digits_ok X -> 0 <= val X < bpow (length X).
Proof.
  induction 1 as [|d X Hd HX IH]; cbn [val length]; [rewrite bpow_0; lia|].
  rewrite bpow_S. unfold is_digit in Hd. nia.
Qed.

Lemma val_nonneg X : digits_ok X -> 0 <= val X.
Proof. intros ?%val_bounds. lia. Qed.

Lemma val_split X n : val X = val (take n X) + bpow (length (take n X)) * val (drop n X).
Proof. by rewrite <- val_app, take_drop. Qed.

Lemma val_take_S X i d :
  X !! i = Some d -> val (take (S i) X) = val (take i X) + bpow i * d.
Proof.
  intros Hi. rewrite (take_S_r _ _ _ Hi), val_snoc, length_take.
  apply lookup_lt_Some in Hi. by rewrite Nat.min_l by lia.
Qed.

Lemma val_drop_S X i d :
  X !! i = Some d -> val (drop i X) = d + digit_base * val (drop (S i) X).
Proof. intros Hi. by rewrite (drop_S _ _ _ Hi). Qed.

Lemma val_inj X Y :
  digits_ok X -> digits_ok Y -> length X = length Y -> val X = val Y -> X = Y.
Proof.
  intros HX. revert Y. induction HX as [|d X Hd HX IH]; intros [|e Y] HY Hl Hv; try done.
  inversion_clear HY as [|? ? He HY']. cbn [val length] in *.
  unfold is_digit in *.
  pose proof (val_nonneg _ HX). pose proof (val_nonneg _ HY').
  assert (val X = val Y) by nia. f_equal; [lia|]. apply IH; [done | lia | done].
Qed.

Lemma digits_ok_take n X : digits_ok X -> digits_ok (take n X).
Proof. apply Forall_take. Qed.
Lemma digits_ok_drop n X : digits_ok X -> digits_ok (drop n X).
Proof. apply Forall_drop. Qed.
Lemma digits_ok_app X Y : digits_ok X -> digits_ok Y -> digits_ok (X ++ Y).
Proof. apply Forall_app_2. Qed.
Lemma digits_ok_zeros n : digits_ok (replicate n 0).
Proof. apply Forall_replicate, is_digit_0. Qed.
Lemma digits_ok_snoc X d : digits_ok X -> is_digit d -> digits_ok (X ++ [d]).
Proof. intros. apply digits_ok_app; [done | by constructor]. Qed.
Lemma digits_ok_slice X o n : digits_ok X -> digits_ok (slice X o n).
Proof. intros. by apply digits_ok_take, digits_ok_drop. Qed.
Lemma digits_ok_nil : digits_ok [].
Proof. constructor. Qed.

Lemma digits_ok_lookup X i d : digits_ok X -> X !! i = Some d -> is_digit d.
Proof. intros HX Hi. by apply (Forall_lookup_1 is_digit X i). Qed.

(** ** Reads, writes and fill loops *)

Lemma wp_rd X i (Q : Z -> Prop) :
  (i < length X)%nat -> digits_ok X ->
  (forall d, X !! i = Some d -> is_digit d -> Q d) -> wp (rd X i) Q.
Proof.
  intros Hi HX HQ. unfold rd.
  destruct (X !! i) as [d|] eqn:E.
  - apply HQ; [done|]. by eapply Forall_lookup_1.
  - apply lookup_ge_None in E. lia.
Qed.

Lemma wp_wr X i d (Q : digits -> Prop) :
  (i < length X)%nat -> Q (<[i := d]> X) -> wp (wr X i d) Q.
Proof. intros Hi HQ. unfold wr. by rewrite decide_True. Qed.

Lemma insert_snoc P R r (d : Z) i :
  length P = i -> <[i := d]> (P ++ r :: R) = (P ++ [d]) ++ R.
Proof.
  intros Hi. rewrite insert_app_r_alt by lia. rewrite Hi, Nat.sub_diag.
  by rewrite <- app_assoc.
Qed.

(** Writing the next digit of a vector that is being filled. *)
Lemma wp_wr_snoc P R i d (Q : digits -> Prop) :
  length P = i -> (0 < length R)%nat -> Q ((P ++ [d]) ++ drop 1 R) ->
  wp (wr (P ++ R) i d) Q.
Proof.
  intros Hi HR HQ. destruct R as [|r R]; cbn [length] in HR; [lia|].
  apply wp_wr; [rewrite length_app; cbn [length]; lia|]. by rewrite insert_snoc.
Qed.

(** The invariant rule for [write_loop]: [J k P c] speaks about the digits [P]
    below index [k], the ones already stored. *)
Lemma wp_write_loop {C} (J : nat -> digits -> C -> Prop) n a body P0 R (c : C)
    (Q : digits * C -> Prop) :
  length P0 = a -> (n <= length R)%nat -> digits_ok P0 -> J a P0 c ->
  (forall k P c', (a <= k < a + n)%nat -> length P = k -> digits_ok P -> J k P c' ->
     wp (body k (P ++ drop (k - a) R) c')
       (fun '(d, c'') => is_digit d /\ J (S k) (P ++ [d]) c'')) ->
  (forall P c', length P = (a + n)%nat -> digits_ok P -> J (a + n)%nat P c' ->
     Q (P ++ drop n R, c')) ->
  wp (write_loop n a body (P0 ++ R) c) Q.
Proof.
  intros Ha Hn HP HJ Hstep HQ. revert a P0 R c Ha Hn HP HJ Hstep HQ.
  induction n as [|n IH]; intros a P0 R c Ha Hn HP HJ Hstep HQ; cbn [write_loop].
  - apply wp_ret. rewrite <- (drop_0 R). apply HQ; by rewrite ?Nat.add_0_r.
  - apply wp_bind. eapply wp_mono.
    { specialize (Hstep a P0 c). rewrite Nat.sub_diag, drop_0 in Hstep.
      apply Hstep; [lia | done..]. }
    intros [d c'] [Hd HJ']. destruct R as [|r R]; cbn [length] in *; [lia|].
    apply wp_bind, wp_wr; [rewrite length_app; cbn [length]; lia|].
    rewrite (insert_snoc P0 R r d a Ha).
    apply IH; [rewrite length_app; simpl; lia | lia | by apply digits_ok_snoc | done | |].
    + intros k P c'' Hk HlP HPd HJk. specialize (Hstep k P c'').
      replace (k - a)%nat with (S (k - S a))%nat in Hstep by lia.
      apply Hstep; [lia | done..].
    + intros P c'' HlP HPd HJk. replace (S a + n)%nat with (a + S n)%nat in * by lia.
      by apply (HQ P).
Qed.

Lemma wp_zero_from P R i (Q : digits -> Prop) :
  length P = i -> Q (P ++ replicate (length R) 0) -> wp (zero_from i (P ++ R)) Q.
Proof.
  intros Hi HQ. unfold zero_from. apply wp_bind.
  rewrite length_app, Hi. replace (i + length R - i)%nat with (length R) by lia.
  assert (HQ' : Q (P ++ replicate (length R) 0)) by done. clear HQ. revert i P Hi HQ'.
  induction R as [|r R IH]; intros i P Hi HQ; cbn [write_loop length].
  - by apply wp_ret.
  - apply wp_bind. simpl. apply wp_bind, wp_wr; [rewrite length_app; cbn [length]; lia|].
    rewrite (insert_snoc P R r 0 i Hi).
    apply IH; [rewrite length_app; simpl; lia|]. by rewrite <- app_assoc.
Qed.

(** ** Normalization *)

(** No leading zero digit ([IsDigitNormalized]). *)
Definition normalized (X : digits) : Prop := list.last X <> Some 0.

Lemma normalized_len_spec n X :
  (n <= length X)%nat ->
  exists k, take n X = take (normalized_len n X) X ++ replicate k 0 /\
    (normalized_len n X + k = n)%nat /\ normalized (take (normalized_len n X) X).
Proof.
  induction n as [|n IH]; intros Hn; cbn [normalized_len].
  - exists 0%nat. by rewrite take_0.
  - destruct (lookup_lt_is_Some_2 X n) as [d Hd]; [lia|]. rewrite Hd.
    assert (take (S n) X = take n X ++ [d]) as E by (by apply take_S_r).
    destruct (Z.eq_dec d 0) as [-> | Hd0].
    + destruct IH as (k & Ek & Hk & Hnorm); [lia|]. exists (S k).
      rewrite E, Ek. split_and!; [|lia | done].
      by rewrite <- app_assoc, <- replicate_S_end.
    + exists 0%nat. destruct d; [done | |];
        (split_and!; [by rewrite app_nil_r | lia |];
         unfold normalized; rewrite E, last_snoc; congruence).
Qed.

Lemma Normalize_spec X :
  exists k, X = Normalize X ++ replicate k 0 /\ normalized (Normalize X) /\
    (length (Normalize X) + k = length X)%nat.
Proof.
  destruct (normalized_len_spec (length X) X) as (k & E & Hk & Hn); [done|].
  rewrite take_ge in E by done. exists k. unfold Normalize. split_and!; try done.
  rewrite length_take. lia.
Qed.

Lemma val_Normalize X : val (Normalize X) = val X.
Proof.
  destruct (Normalize_spec X) as (k & E & _). rewrite E at 2. by rewrite val_app_zeros.
Qed.

Lemma length_Normalize X : (length (Normalize X) <= length X)%nat.
Proof. destruct (Normalize_spec X) as (k & _ & _ & ?). lia. Qed.

Lemma normalized_Normalize X : normalized (Normalize X).
Proof. by destruct (Normalize_spec X) as (k & _ & ? & _). Qed.

Lemma digits_ok_Normalize X : digits_ok X -> digits_ok (Normalize X).
Proof. apply digits_ok_take. Qed.

Lemma normalized_id X : normalized X -> Normalize X = X.
Proof.
  intros Hn. destruct (Normalize_spec X) as (k & E & _ & _).
  destruct k as [|k]; [by rewrite app_nil_r in E|].
  rewrite E in Hn. unfold normalized in Hn.
  rewrite replicate_S_end, app_assoc, last_snoc in Hn. done.
Qed.

Lemma normalized_lower X :
  digits_ok X -> normalized X -> X <> [] -> bpow (length X - 1) <= val X.
Proof.
  intros HX Hn Hne. destruct (exists_last Hne) as (X' & d & ->).
  apply Forall_app in HX as [HX' Hd%Forall_inv].
  unfold normalized in Hn. rewrite last_snoc in Hn.
  rewrite val_snoc, length_app. simpl.
  replace (length X' + 1 - 1)%nat with (length X') by lia.
  pose proof (val_nonneg _ HX'). pose proof (bpow_pos (length X')).
  unfold is_digit in Hd. assert (1 <= d) by (destruct (Z.eq_dec d 0); [congruence | lia]). nia.
Qed.

Lemma val_pos_of_normalized X :
  digits_ok X -> normalized X -> X <> [] -> 0 < val X.
Proof.
  intros HX Hn Hne. pose proof (bpow_pos (length X - 1)).
  pose proof (normalized_lower X HX Hn Hne). lia.
Qed.

Lemma val_zero_normalized X : digits_ok X -> normalized X -> val X = 0 -> X = [].
Proof.
  intros HX Hn H0. destruct (decide (X = [])) as [|Hne]; [done|].
  pose proof (val_pos_of_normalized X HX Hn Hne). lia.
Qed.

(** The length of a normalized vector is monotone in its value. *)
Lemma normalized_length_lt X Y :
  digits_ok X -> digits_ok Y -> normalized Y ->
  (length X < length Y)%nat -> val X < val Y.
Proof.
  intros HX HY HnY Hl. pose proof (val_bounds X HX).
  assert (Y <> []) as HneY by (by intros ->; simpl in Hl; lia).
  pose proof (normalized_lower Y HY HnY HneY).
  pose proof (bpow_le (length X) (length Y - 1)). lia.
Qed.

Lemma normalized_length_le X Y :
  digits_ok X -> digits_ok Y -> normalized X -> val X <= val Y ->
  (length X <= length Y)%nat.
Proof.
  intros HX HY HnX Hv. destruct (decide (length X <= length Y)%nat) as [|Hgt]; [done|].
  pose proof (normalized_length_lt Y X HY HX HnX). lia.
Qed.

(** ** Comparison *)

(** [r] is the sign convention of [Compare]. *)
Definition compare_result (r a b : Z) : Prop :=
  (r < 0 <-> a < b) /\ (r = 0 <-> a = b) /\ (0 < r <-> b < a).

Lemma compare_from_spec n A B :
  digits_ok A -> digits_ok B -> (n <= length A)%nat -> (n <= length B)%nat ->
  wp (compare_from n A B) (fun r => compare_result r (val (take n A)) (val (take n B))).
Proof.
  intros HA HB. induction n as [|n IH]; intros HlA HlB; cbn [compare_from].
  { apply wp_ret. unfold compare_result. rewrite !take_0. simpl. lia. }
  apply wp_bind, wp_rd; [lia | done|]. intros a Ha Hda.
  apply wp_bind, wp_rd; [lia | done|]. intros b Hb Hdb.
  rewrite (val_take_S _ _ _ Ha), (val_take_S _ _ _ Hb).
  destruct (Z.eqb_spec a b) as [-> | Hab].
  - eapply wp_mono; [apply IH; lia|]. unfold compare_result. intros r Hr. lia.
  - apply wp_ret. unfold compare_result.
    pose proof (val_bounds _ (digits_ok_take n A HA)) as HvA.
    pose proof (val_bounds _ (digits_ok_take n B HB)) as HvB.
    rewrite length_take, Nat.min_l in HvA, HvB by lia.
    destruct (Z.ltb_spec b a).
    + assert (val (take n B) + bpow n * b < val (take n A) + bpow n * a) by nia. lia.
    + assert (val (take n A) + bpow n * a < val (take n B) + bpow n * b) by nia. lia.
Qed.

Lemma Compare_spec A B :
  digits_ok A -> digits_ok B ->
  wp (Compare A B) (fun r => compare_result r (val A) (val B)).
Proof.
  intros HA HB. unfold Compare. rewrite <- (val_Normalize A), <- (val_Normalize B).
  apply digits_ok_Normalize in HA, HB.
  pose proof (normalized_Normalize A) as NA. pose proof (normalized_Normalize B) as NB.
  set (A' := Normalize A) in *. set (B' := Normalize B) in *.
  destruct (Z.eqb_spec (Z.of_nat (length A') - Z.of_nat (length B')) 0) as [E | E]; simpl.
  - assert (length A' = length B') as El by lia.
    eapply wp_mono; [apply compare_from_spec; [done | done | lia | lia]|].
    intros r. by rewrite El, (take_ge B'), <- El, (take_ge A') by lia.
  - apply wp_ret. unfold compare_result.
    destruct (Nat.lt_ge_cases (length A') (length B')).
    + pose proof (normalized_length_lt A' B' HA HB NB). lia.
    + pose proof (normalized_length_lt B' A' HB HA NA). lia.
Qed.
End digits.

Create HintDb digits.
#[export] Hint Resolve digits_ok_take digits_ok_drop digits_ok_app digits_ok_zeros
  digits_ok_snoc digits_ok_slice digits_ok_nil digits_ok_Normalize
  normalized_Normalize is_digit_0 is_digit_1 wrap_digit : digits.

(** Multiply an equation between digits by the weight of index [k], so that the
    step of a loop over digits becomes linear in the weighted digits. *)
Ltac scale_by_weight E k := apply (f_equal (fun z => bpow k * z)) in E.
