(* ===== verification/VectorArithmetic.v ===== *)
(** Linear-time operations on digit vectors:
    [src/bigint/vector-arithmetic.h] and [src/bigint/vector-arithmetic.cc]. *)

From Stdlib Require Import ZArith Lia.
From stdpp Require Import base tactics numbers list option.
From S2P Require Import Prelude Digit Digits.

#[local] Open Scope Z_scope.

Section vector_arithmetic.
Context `{Config}.
Implicit Types X Y P R : digits.

(** ** Loops that stop when the carry is used up *)

(** [for (; i < i + n && cond; i++) Z[i] = ...]; returns the index it stopped
    at as well. *)
Fixpoint write_while {C} (n i : nat) (cond : C -> bool)
    (body : nat -> digits -> C -> res (Z * C)) (Zd : digits) (c : C)
    : res (digits * nat * C) :=
  match n with
  | O => mret (Zd, i, c)
  | S n' =>
      if cond c then
        '(d, c') ← body i Zd c;
        Zd' ← wr Zd i d;
        write_while n' (S i) cond body Zd' c'
      else mret (Zd, i, c)
  end.

(** [do { X[i] = step(X[i], c, &c); i++; } while (c != 0)].  Nothing but the
    carry stops the loop, so an index past the end is a fault. *)
Fixpoint do_while_carry (fuel i : nat) (step : Z -> Z -> Z * Z) (X : digits) (c : Z)
    : res digits :=
  match fuel with
  | O => Err OutOfFuel
  | S fuel =>
      x ← rd X i;
      let '(d, c') := step x c in
      X' ← wr X i d;
      if c' =? 0 then mret X' else do_while_carry fuel (S i) step X' c'
  end.

(** ** vector-arithmetic.h *)

(** [Add(RWDigits X, digit_t y)]. *)
Definition Add_digit (X : digits) (y : Z) : res digits :=
  do_while_carry (S (length X)) 0 digit_add2 X y.

(** [Subtract(RWDigits X, digit_t y)]. *)
Definition Subtract_digit (X : digits) (y : Z) : res digits :=
  do_while_carry (S (length X)) 0 digit_sub X y.

Definition IsDigitNormalized (X : digits) : res bool :=
  if bool_decide (length X = 0)%nat then mret true
  else d ← msd X; mret (negb (d =? 0)).

Definition IsBitNormalized (X : digits) : res bool :=
  d ← msd X; mret (Z.shiftr d (kDigitBits - 1) =? 1).

Definition GreaterThanOrEqual (A B : digits) : res bool :=
  r ← Compare A B; mret (0 <=? r).

Definition BitLength (X : digits) : res Z :=
  d ← msd X; mret (Z.of_nat (length X) * kDigitBits - CountLeadingZeros d).

(** ** vector-arithmetic.cc *)

Definition AddAndReturnOverflow (Zd X : digits) : res (digits * Z) :=
  let X := Normalize X in
  if bool_decide (length X = 0)%nat then mret (Zd, 0)
  else
    '(Zd, carry) ← write_loop (length X) 0
      (fun i Zc carry => z ← rd Zc i; x ← rd X i; mret (digit_add3 z x carry)) Zd 0;
    '(Zd, _, carry) ← write_while (length Zd - length X) (length X)
      (fun carry => negb (carry =? 0))
      (fun i Zc carry => z ← rd Zc i; mret (digit_add2 z carry)) Zd carry;
    mret (Zd, carry).

Definition SubAndReturnBorrow (Zd X : digits) : res (digits * Z) :=
  let X := Normalize X in
  if bool_decide (length X = 0)%nat then mret (Zd, 0)
  else
    '(Zd, borrow) ← write_loop (length X) 0
      (fun i Zc borrow => z ← rd Zc i; x ← rd X i; mret (digit_sub2 z x borrow)) Zd 0;
    '(Zd, _, borrow) ← write_while (length Zd - length X) (length X)
      (fun borrow => negb (borrow =? 0))
      (fun i Zc borrow => z ← rd Zc i; mret (digit_sub z borrow)) Zd borrow;
    mret (Zd, borrow).

(** [Add(Z, X, Y)] when [X.len() >= Y.len()]. *)
Definition Add_ordered (Zd X Y : digits) : res digits :=
  '(Zd, carry) ← write_loop (length Y) 0
    (fun i _ carry => x ← rd X i; y ← rd Y i; mret (digit_add3 x y carry)) Zd 0;
  '(Zd, carry) ← write_loop (length X - length Y) (length Y)
    (fun i _ carry => x ← rd X i; mret (digit_add2 x carry)) Zd carry;
  '(Zd, _) ← write_loop (length Zd - length X) (length X)
    (fun _ _ carry => mret (carry, 0)) Zd carry;
  mret Zd.

Definition Add (Zd X Y : digits) : res digits :=
  if bool_decide (length X < length Y)%nat then Add_ordered Zd Y X
  else Add_ordered Zd X Y.

Definition Subtract (Zd X Y : digits) : res digits :=
  let X := Normalize X in
  let Y := Normalize Y in
  dcheck (bool_decide (length Y <= length X)%nat);;
  '(Zd, borrow) ← write_loop (length Y) 0
    (fun i _ borrow => x ← rd X i; y ← rd Y i; mret (digit_sub2 x y borrow)) Zd 0;
  '(Zd, borrow) ← write_loop (length X - length Y) (length Y)
    (fun i _ borrow => x ← rd X i; mret (digit_sub x borrow)) Zd borrow;
  dcheck (borrow =? 0);;
  zero_from (length X) Zd.

Definition AddAndReturnCarry (Zd X Y : digits) : res (digits * Z) :=
  dcheck (bool_decide (length Y <= length Zd /\ length Y <= length X)%nat);;
  write_loop (length Y) 0
    (fun i _ carry => x ← rd X i; y ← rd Y i; mret (digit_add3 x y carry)) Zd 0.

Definition SubtractAndReturnBorrow (Zd X Y : digits) : res (digits * Z) :=
  dcheck (bool_decide (length Y <= length Zd /\ length Y <= length X)%nat);;
  write_loop (length Y) 0
    (fun i _ borrow => x ← rd X i; y ← rd Y i; mret (digit_sub2 x y borrow)) Zd 0.

(** Signed operations return the magnitude and the sign of the result. *)
Definition AddSigned (Zd X : digits) (x_negative : bool) (Y : digits)
    (y_negative : bool) : res (digits * bool) :=
  if Bool.eqb x_negative y_negative then
    Zd ← Add Zd X Y; mret (Zd, x_negative)
  else
    ge ← GreaterThanOrEqual X Y;
    if (ge : bool) then Zd ← Subtract Zd X Y; mret (Zd, x_negative)
    else Zd ← Subtract Zd Y X; mret (Zd, negb x_negative).

Definition SubtractSigned (Zd X : digits) (x_negative : bool) (Y : digits)
    (y_negative : bool) : res (digits * bool) :=
  if negb (Bool.eqb x_negative y_negative) then
    Zd ← Add Zd X Y; mret (Zd, x_negative)
  else
    ge ← GreaterThanOrEqual X Y;
    if (ge : bool) then Zd ← Subtract Zd X Y; mret (Zd, x_negative)
    else Zd ← Subtract Zd Y X; mret (Zd, negb x_negative).

Definition AddOne (Zd X : digits) : res digits :=
  '(Zd, i, carry) ← write_while (length X) 0 (fun carry => 0 <? carry)
    (fun i _ carry => x ← rd X i; mret (digit_add2 x carry)) Zd 1;
  '(Zd, i) ← (if 0 <? carry then Zd ← wr Zd i carry; mret (Zd, S i) else mret (Zd, i));
  '(Zd, _) ← write_loop (length X - i) i
    (fun i _ _ => x ← rd X i; mret (x, tt)) Zd tt;
  zero_from (i `max` length X) Zd.

(** The first loop of [SubtractOne] is stopped by the borrow alone. *)
Definition SubtractOne (Zd X : digits) : res digits :=
  '(Zd, i, borrow) ← write_while (S (length X)) 0 (fun borrow => 0 <? borrow)
    (fun i _ borrow => x ← rd X i; mret (digit_sub x borrow)) Zd 1;
  '(Zd, _) ← write_loop (length X - i) i
    (fun i _ _ => x ← rd X i; mret (x, tt)) Zd tt;
  zero_from (i `max` length X) Zd.

(** ** Loop rules *)

Lemma wp_write_while {C} (J : nat -> digits -> C -> Prop) n a cond body P0 R (c : C)
    (Q : digits * nat * C -> Prop) :
  length P0 = a -> digits_ok P0 -> J a P0 c ->
  (forall k P c', (a <= k < a + n)%nat -> length P = k -> digits_ok P -> J k P c' ->
     cond c' = true -> (k - a < length R)%nat /\
     wp (body k (P ++ drop (k - a) R) c')
       (fun '(d, c'') => is_digit d /\ J (S k) (P ++ [d]) c'')) ->
  (forall m P c', (a <= m <= a + n)%nat -> length P = m -> digits_ok P -> J m P c' ->
     (m = (a + n)%nat \/ cond c' = false) -> Q (P ++ drop (m - a) R, m, c')) ->
  wp (write_while n a cond body (P0 ++ R) c) Q.
Proof.
  intros Ha HP HJ Hstep HQ. revert a P0 R c Ha HP HJ Hstep HQ.
  induction n as [|n IH]; intros a P0 R c Ha HP HJ Hstep HQ; cbn [write_while].
  - apply wp_ret. specialize (HQ a P0 c). rewrite Nat.sub_diag, drop_0 in HQ.
    apply HQ; [lia | done | done | done | lia].
  - destruct (cond c) eqn:Ec.
    2: { apply wp_ret. specialize (HQ a P0 c). rewrite Nat.sub_diag, drop_0 in HQ.
         apply HQ; [lia | done | done | done | by right]. }
    pose proof (Hstep a P0 c) as Hs. rewrite Nat.sub_diag, drop_0 in Hs.
    destruct Hs as [Hlen Hs]; [lia | done..|].
    apply wp_bind. eapply wp_mono; [exact Hs|].
    intros [d c'] [Hd HJ']. destruct R as [|r R]; cbn [length] in *; [lia|].
    apply wp_bind, wp_wr; [rewrite length_app; cbn [length]; lia|].
    rewrite (insert_snoc P0 R r d a Ha).
    apply IH; [rewrite length_app; simpl; lia | by apply digits_ok_snoc | done | |].
    + intros k P c'' Hk HlP HPd HJk Hc. specialize (Hstep k P c'').
      replace (k - a)%nat with (S (k - S a))%nat in Hstep by lia.
      destruct Hstep; [lia | done..|]. split; [lia | done].
    + intros m P c'' Hm HlP HPd HJk Hend. specialize (HQ m P c'').
      replace (m - a)%nat with (S (m - S a))%nat in HQ by lia.
      apply HQ; [lia | done | done | done | destruct Hend; [left; lia | by right]].
Qed.

(** In-place loops: a loop that reads its own output vector at the index it is
    about to write reads the original digit there, so it may as well read a
    snapshot.  This is why the calls whose result aliases an operand, such as
    [AddAndReturnCarry(R, R, B)], are modelled by passing the old contents. *)
Lemma write_loop_alias {C} n a P0 R S (h : nat -> Z -> C -> res (Z * C)) c :
  length P0 = a -> (forall k, (a <= k)%nat -> S !! k = R !! (k - a)%nat) ->
  write_loop n a (fun i Zc c => z ← rd Zc i; h i z c) (P0 ++ R) c =
  write_loop n a (fun i _ c => z ← rd S i; h i z c) (P0 ++ R) c.
Proof.
  revert a P0 R c. induction n as [|n IH]; intros a P0 R c Ha HS; cbn [write_loop]; [done|].
  assert (rd (P0 ++ R) a = rd S a) as ->.
  { unfold rd. rewrite lookup_app_r, (HS a) by lia. by rewrite Ha. }
  destruct (rd S a) as [z|]; [|done]. cbn.
  destruct (h a z c) as [[d c']|]; [|done]. cbn.
  unfold wr. destruct (decide (a < length (P0 ++ R))%nat) as [Hlt|]; [|done]. cbn.
  rewrite length_app in Hlt. destruct R as [|r R]; cbn [length] in Hlt; [lia|].
  rewrite (insert_snoc P0 R r d a Ha).
  apply IH; [rewrite length_app; simpl; lia|].
  intros k Hk. rewrite HS by lia. by replace (k - a)%nat with (Datatypes.S (k - Datatypes.S a)) by lia.
Qed.

(** ** Digit steps with a carry ([s = 1]) or a borrow ([s = -1]) *)

Definition step3_ok (s : Z) (f : Z -> Z -> Z -> Z * Z) : Prop :=
  forall x y c, is_digit x -> is_digit y -> 0 <= c <= 1 ->
  exists d c', f x y c = (d, c') /\ d + s * (c' * digit_base) = x + s * (y + c) /\
    is_digit d /\ 0 <= c' <= 1.

Definition step2_ok (s : Z) (f : Z -> Z -> Z * Z) : Prop :=
  forall x c, is_digit x -> is_digit c ->
  exists d c', f x c = (d, c') /\ d + s * (c' * digit_base) = x + s * c /\
    is_digit d /\ 0 <= c' <= 1.

Lemma carry_is_digit c : 0 <= c <= 1 -> is_digit c.
Proof. pose proof digit_base_ge. unfold is_digit. lia. Qed.

Lemma digit_add3_step : step3_ok 1 digit_add3.
Proof.
  intros x y c Hx Hy Hc. pose proof digit_base_ge.
  destruct (digit_add3_spec x y c) as (d & k & E & Ed & Hd & Hk);
    [done | done | by apply carry_is_digit |].
  exists d, k. unfold is_digit in *. split_and!; [done | lia | lia | lia | lia | nia].
Qed.

Lemma digit_sub2_step : step3_ok (-1) digit_sub2.
Proof.
  intros x y c Hx Hy Hc. destruct (digit_sub2_spec x y c) as (d & k & E & Ed & Hd & Hk);
    [done.. |]. exists d, k. split_and!; [done | lia | done | lia | lia].
Qed.

Lemma digit_add2_step : step2_ok 1 digit_add2.
Proof.
  intros x c Hx Hc. destruct (digit_add2_spec x c) as (d & k & E & Ed & Hd & Hk);
    [done.. |]. exists d, k. split_and!; [done | lia | done | lia | lia].
Qed.

Lemma digit_sub_step : step2_ok (-1) digit_sub.
Proof.
  intros x c Hx Hc. destruct (digit_sub_spec x c) as (d & k & E & Ed & Hd & Hk);
    [done.. |]. exists d, k. split_and!; [done | lia | done | lia | lia].
Qed.

(** The loop over the common digits of [X] and [Y]. *)
Lemma wp_loop3 s f X Y Zd (Q : digits * Z -> Prop) :
  step3_ok s f -> digits_ok X -> digits_ok Y ->
  (length Y <= length X)%nat -> (length Y <= length Zd)%nat ->
  (forall P c, length P = length Y -> digits_ok P -> 0 <= c <= 1 ->
     val P + s * (c * bpow (length Y)) = val (take (length Y) X) + s * val Y ->
     Q (P ++ drop (length Y) Zd, c)) ->
  wp (write_loop (length Y) 0
       (fun i _ c => x ← rd X i; y ← rd Y i; mret (f x y c)) Zd 0) Q.
Proof.
  intros Hf HX HY HlX HlZ HQ. rewrite <- (app_nil_l Zd).
  apply (wp_write_loop (fun k P c => 0 <= c <= 1 /\
    val P + s * (c * bpow k) = val (take k X) + s * val (take k Y))); [done | done | constructor | | |].
  - rewrite !take_0. simpl. lia.
  - intros k P c Hk HlP HP [Hc HJ].
    apply wp_bind, wp_rd; [lia | done|]. intros x Hx Hdx.
    apply wp_bind, wp_rd; [lia | done|]. intros y Hy Hdy.
    destruct (Hf x y c) as (d & c' & -> & Ed & Hd & Hc'); [done..|].
    apply wp_ret. split; [done|]. split; [done|].
    rewrite val_snoc, HlP, bpow_S, (val_take_S _ _ _ Hx), (val_take_S _ _ _ Hy).
    scale_by_weight Ed k. lia.
  - intros P c HlP HP [Hc HJ]. rewrite Nat.add_0_l in *. apply HQ; [done..|].
    by rewrite (take_ge Y) in HJ by lia.
Qed.

(** The loop over the remaining digits of [X]; [W] is what the previous loops
    added or subtracted. *)
Lemma wp_loop2 s f X a b P0 R c0 W (Q : digits * Z -> Prop) :
  step2_ok s f -> digits_ok X -> (a <= b)%nat -> (b <= length X)%nat ->
  (b - a <= length R)%nat -> length P0 = a -> digits_ok P0 -> 0 <= c0 <= 1 ->
  val P0 + s * (c0 * bpow a) = val (take a X) + W ->
  (forall P c, length P = b -> digits_ok P -> 0 <= c <= 1 ->
     val P + s * (c * bpow b) = val (take b X) + W ->
     Q (P ++ drop (b - a) R, c)) ->
  wp (write_loop (b - a) a (fun i _ c => x ← rd X i; mret (f x c)) (P0 ++ R) c0) Q.
Proof.
  intros Hf HX Hab Hb HlR HlP0 HP0 Hc0 HW HQ.
  apply (wp_write_loop (fun k P c => 0 <= c <= 1 /\
    val P + s * (c * bpow k) = val (take k X) + W)); [done..| |].
  - intros k P c Hk HlP HP [Hc HJ].
    apply wp_bind, wp_rd; [lia | done|]. intros x Hx Hdx.
    destruct (Hf x c) as (d & c' & -> & Ed & Hd & Hc'); [done | by apply carry_is_digit|].
    apply wp_ret. split; [done|]. split; [done|].
    rewrite val_snoc, HlP, bpow_S, (val_take_S _ _ _ Hx).
    scale_by_weight Ed k. lia.
  - intros P c HlP HP [Hc HJ]. replace (a + (b - a))%nat with b in * by lia.
    by apply HQ.
Qed.

(** The carry-propagation loop of [Add_digit] and [Subtract_digit]. *)
Lemma wp_do_while_carry s f fuel i P R c (Q : digits -> Prop) :
  step2_ok s f -> s = 1 \/ s = -1 ->
  length P = i -> (length R < fuel)%nat -> digits_ok R -> R <> [] -> is_digit c ->
  0 <= val R + s * c < bpow (length R) ->
  (forall R', length R' = length R -> digits_ok R' -> val R' = val R + s * c ->
     Q (P ++ R')) ->
  wp (do_while_carry fuel i f (P ++ R) c) Q.
Proof.
  intros Hf Hs. revert i P R c Q.
  induction fuel as [|fuel IH]; intros i P R c Q HlP Hfuel HR Hne Hc Hv HQ; [lia|].
  cbn [do_while_carry]. destruct R as [|r R]; [done|].
  inversion_clear HR as [|? ? Hr HR'].
  apply wp_bind. unfold rd. rewrite lookup_app_r, HlP, Nat.sub_diag by lia. simpl.
  destruct (Hf r c Hr Hc) as (d & c' & -> & Ed & Hd & Hc').
  apply wp_bind, wp_wr; [rewrite length_app; simpl; lia|].
  rewrite (insert_snoc P R r d i HlP).
  cbn [val length] in *. rewrite bpow_S in Hv.
  destruct (Z.eqb_spec c' 0) as [-> | Hc0].
  - apply wp_ret. rewrite <- app_assoc.
    apply HQ; [done | by constructor | cbn [val app]; lia].
  - assert (c' = 1) as -> by lia. pose proof digit_base_ge.
    assert (0 <= val R + s * 1 < bpow (length R)) as Hv'.
    { unfold is_digit in Hd. split.
      - enough (- 1 < val R + s * 1) by lia.
        apply (mul_lt_cancel _ _ digit_base); lia.
      - apply (mul_lt_cancel _ _ digit_base); lia. }
    apply IH; [rewrite length_app; simpl; lia | lia | done | | apply is_digit_1 | done |].
    + intros ->. cbn [val length] in Hv'; change (bpow 0) with 1 in Hv'. destruct Hs as [-> | ->]; lia.
    + intros R' HlR' HR'' Hv''. rewrite <- app_assoc.
      apply HQ; [simpl; lia | by constructor | cbn [val app]; rewrite Hv''; lia].
Qed.

(** [X += y] with a digit [y], when the sum fits. *)
Lemma Add_digit_spec X y :
  digits_ok X -> X <> [] -> is_digit y -> val X + y < bpow (length X) ->
  wp (Add_digit X y) (fun X' =>
    length X' = length X /\ digits_ok X' /\ val X' = val X + y).
Proof.
  intros HX Hne Hy Hv. unfold Add_digit. rewrite <- (app_nil_l X).
  eapply (wp_do_while_carry 1); [apply digit_add2_step | by left | done | simpl; lia
    | done | done | done | |].
  - pose proof (val_nonneg _ HX). unfold is_digit in Hy. lia.
  - intros R' ? ? ?. simpl. split_and!; [done | done | lia].
Qed.

(** [X -= y] with a digit [y], when [y <= X]. *)
Lemma Subtract_digit_spec X y :
  digits_ok X -> X <> [] -> is_digit y -> y <= val X ->
  wp (Subtract_digit X y) (fun X' =>
    length X' = length X /\ digits_ok X' /\ val X' = val X - y).
Proof.
  intros HX Hne Hy Hv. unfold Subtract_digit. rewrite <- (app_nil_l X).
  eapply (wp_do_while_carry (-1)); [apply digit_sub_step | by right | done | simpl; lia
    | done | done | done | |].
  - pose proof (val_bounds _ HX). unfold is_digit in Hy. lia.
  - intros R' ? ? ?. simpl. split_and!; [done | done | lia].
Qed.

Lemma wp_msd X (Q : Z -> Prop) :
  digits_ok X -> X <> [] ->
  (forall X' d, X = X' ++ [d] -> is_digit d -> Q d) -> wp (msd X) Q.
Proof.
  intros HX Hne HQ. destruct (exists_last Hne) as (X' & d & ->). unfold msd.
  rewrite length_app. simpl.
  apply wp_bind, wp_dcheck; [apply bool_decide_eq_true; lia|].
  unfold rd. replace (length X' + 1 - 1)%nat with (length X' + 0)%nat by lia.
  rewrite lookup_app_r by lia. replace (length X' + 0 - length X')%nat with 0%nat by lia.
  apply (HQ X'); [done|]. apply Forall_app in HX as [_ HX]. by apply Forall_inv in HX.
Qed.

Lemma IsDigitNormalized_spec X :
  digits_ok X -> wp (IsDigitNormalized X) (fun b => b = true <-> normalized X).
Proof.
  intros HX. unfold IsDigitNormalized. case_bool_decide as Hl.
  - destruct X; [|done]. by apply wp_ret.
  - apply wp_bind, wp_msd; [done | by intros -> |]. intros X' d -> Hd.
    apply wp_ret. unfold normalized. rewrite last_snoc, negb_true_iff, Z.eqb_neq.
    split; congruence.
Qed.

Lemma wp_dcheck_normalized X (Q : unit -> Prop) :
  digits_ok X -> normalized X -> Q tt ->
  wp (b ← IsDigitNormalized X; dcheck b) Q.
Proof.
  intros HX HN HQ. wp_apply (IsDigitNormalized_spec X); [done|].
  intros b Hb. apply wp_dcheck; [by apply Hb | done].
Qed.

Lemma GreaterThanOrEqual_spec A B :
  digits_ok A -> digits_ok B ->
  wp (GreaterThanOrEqual A B) (fun b => b = (val B <=? val A)).
Proof.
  intros HA HB. unfold GreaterThanOrEqual. wp_apply (Compare_spec A B); [done..|].
  intros r Hr. apply wp_ret. unfold compare_result in Hr.
  destruct (Z.leb_spec 0 r), (Z.leb_spec (val B) (val A)); lia || done.
Qed.

(** Both in-place operations: [Z += s * X] over the whole of [Z]. *)
Lemma wp_inplace s f3 f2 Zd X (Q : digits * Z -> Prop) :
  step3_ok s f3 -> step2_ok s f2 -> digits_ok Zd -> digits_ok X -> X <> [] ->
  (length X <= length Zd)%nat ->
  (forall Z' c, length Z' = length Zd -> digits_ok Z' -> 0 <= c <= 1 ->
     val Z' + s * (c * bpow (length Zd)) = val Zd + s * val X -> Q (Z', c)) ->
  wp ('(Zd, carry) ← write_loop (length X) 0
        (fun i Zc carry => z ← rd Zc i; x ← rd X i; mret (f3 z x carry)) Zd 0;
      '(Zd, _, carry) ← write_while (length Zd - length X) (length X)
        (fun carry => negb (carry =? 0))
        (fun i Zc carry => z ← rd Zc i; mret (f2 z carry)) Zd carry;
      mret (Zd, carry)) Q.
Proof.
  intros Hf3 Hf2 HZ HX Hne Hl HQ.
  pose proof (write_loop_alias (length X) 0 [] Zd Zd
    (fun i z carry => x ← rd X i; mret (f3 z x carry)) 0) as Hal.
  cbn [app] in Hal. rewrite Hal; [|done| intros k ?; by rewrite Nat.sub_0_r]. clear Hal.
  apply wp_bind, (wp_loop3 s); [done | done | done | lia | lia |].
  intros P c HlP HP Hc HV.
  rewrite length_app, length_drop, HlP.
  replace (length X + (length Zd - length X) - length X)%nat
    with (length Zd - length X)%nat by lia.
  apply wp_bind. set (R := drop (length X) Zd).
  assert (HlR : length R = (length Zd - length X)%nat) by (unfold R; by rewrite length_drop).
  apply (wp_write_while (fun k P c => 0 <= c <= 1 /\
    val P + s * (c * bpow k) = val (take k Zd) + s * val X)); [done | done | done | |].
  - intros k P' c' Hk HlP' HP' [Hc' HJ] _. split; [lia|].
    apply wp_bind. unfold rd. rewrite lookup_app_r, HlP', Nat.sub_diag by lia.
    unfold R. rewrite drop_drop. replace (length X + (k - length X))%nat with k by lia.
    rewrite lookup_drop, Nat.add_0_r.
    destruct (lookup_lt_is_Some_2 Zd k) as [z Hz]; [lia|]. rewrite Hz. simpl.
    assert (is_digit z) as Hdz by (by apply (digits_ok_lookup Zd k)).

    destruct (Hf2 z c') as (d & c'' & -> & Ed & Hd & Hc''); [done | by apply carry_is_digit|].
    split; [done|]. split; [done|].
    rewrite val_snoc, HlP', bpow_S, (val_take_S _ _ _ Hz). scale_by_weight Ed k. lia.
  - intros m P' c' Hm HlP' HP' [Hc' HJ] Hend. simpl. unfold R. rewrite drop_drop.
    replace (length X + (m - length X))%nat with m by lia.
    apply HQ; [rewrite length_app, length_drop; lia | by auto with digits | done |].
    rewrite val_app, HlP', (val_split Zd m), length_take, Nat.min_l by lia.
    destruct Hend as [-> | Hc0].
    + replace (length X + (length Zd - length X))%nat with (length Zd) in * by lia.
      rewrite drop_ge by lia. simpl. lia.
    + apply negb_false_iff, Z.eqb_eq in Hc0. subst c'. lia.
Qed.

Lemma AddAndReturnOverflow_spec Zd X :
  digits_ok Zd -> digits_ok X -> (length (Normalize X) <= length Zd)%nat ->
  wp (AddAndReturnOverflow Zd X) (fun '(Z', carry) =>
    length Z' = length Zd /\ digits_ok Z' /\ 0 <= carry <= 1 /\
    val Z' + carry * bpow (length Zd) = val Zd + val X).
Proof.
  intros HZ HX Hl. unfold AddAndReturnOverflow. rewrite <- (val_Normalize X).
  apply digits_ok_Normalize in HX. set (X' := Normalize X) in *.
  case_bool_decide as Hz.
  - apply wp_ret. destruct X'; [|done]. simpl. split_and!; (done || lia).
  - apply (wp_inplace 1); [apply digit_add3_step | apply digit_add2_step | done | done
      | by intros -> | done |].
    intros Z' c ? ? ? ?. split_and!; (done || lia).
Qed.

Lemma SubAndReturnBorrow_spec Zd X :
  digits_ok Zd -> digits_ok X -> (length (Normalize X) <= length Zd)%nat ->
  wp (SubAndReturnBorrow Zd X) (fun '(Z', borrow) =>
    length Z' = length Zd /\ digits_ok Z' /\ 0 <= borrow <= 1 /\
    val Z' - borrow * bpow (length Zd) = val Zd - val X).
Proof.
  intros HZ HX Hl. unfold SubAndReturnBorrow. rewrite <- (val_Normalize X).
  apply digits_ok_Normalize in HX. set (X' := Normalize X) in *.
  case_bool_decide as Hz.
  - apply wp_ret. destruct X'; [|done]. simpl. split_and!; (done || lia).
  - apply (wp_inplace (-1)); [apply digit_sub2_step | apply digit_sub_step | done | done
      | by intros -> | done |].
    intros Z' c ? ? ? ?. split_and!; (done || lia).
Qed.

Lemma AddAndReturnCarry_spec Zd X Y :
  digits_ok X -> digits_ok Y -> (length Y <= length X)%nat -> (length Y <= length Zd)%nat ->
  wp (AddAndReturnCarry Zd X Y) (fun '(Z', carry) => exists P,
    Z' = P ++ drop (length Y) Zd /\ length P = length Y /\ digits_ok P /\ 0 <= carry <= 1 /\
    val P + carry * bpow (length Y) = val (take (length Y) X) + val Y).
Proof.
  intros HX HY HlX HlZ. unfold AddAndReturnCarry.
  apply wp_bind, wp_dcheck; [by apply bool_decide_eq_true|].
  apply (wp_loop3 1); [apply digit_add3_step | done..|].
  intros P c ? ? ? ?. exists P. split_and!; (done || lia).
Qed.

Lemma SubtractAndReturnBorrow_spec Zd X Y :
  digits_ok X -> digits_ok Y -> (length Y <= length X)%nat -> (length Y <= length Zd)%nat ->
  wp (SubtractAndReturnBorrow Zd X Y) (fun '(Z', borrow) => exists P,
    Z' = P ++ drop (length Y) Zd /\ length P = length Y /\ digits_ok P /\ 0 <= borrow <= 1 /\
    val P - borrow * bpow (length Y) = val (take (length Y) X) - val Y).
Proof.
  intros HX HY HlX HlZ. unfold SubtractAndReturnBorrow.
  apply wp_bind, wp_dcheck; [by apply bool_decide_eq_true|].
  apply (wp_loop3 (-1)); [apply digit_sub2_step | done..|].
  intros P c ? ? ? ?. exists P. split_and!; (done || lia).
Qed.

Lemma Add_ordered_spec Zd X Y :
  digits_ok X -> digits_ok Y -> (length Y <= length X)%nat -> (length X <= length Zd)%nat ->
  wp (Add_ordered Zd X Y) (fun Z' => length Z' = length Zd /\ digits_ok Z' /\
    val Z' = (val X + val Y) mod bpow (length Zd)).
Proof.
  intros HX HY Hl HlZ. unfold Add_ordered.
  apply wp_bind, (wp_loop3 1); [apply digit_add3_step | done | done | done | lia |].
  intros P c HlP HP Hc HV.
  apply wp_bind, (wp_loop2 1 _ X (length Y) (length X) P _ c (val Y));
    [apply digit_add2_step | done | done | done | rewrite length_drop; lia | done | done | done | lia |].
  intros P' c' HlP' HP' Hc' HV'. rewrite drop_drop.
  replace (length Y + (length X - length Y))%nat with (length X) by lia.
  rewrite take_ge in HV' by done.
  rewrite length_app, HlP', length_drop. apply wp_bind.
  replace (length X + (length Zd - length X) - length X)%nat
    with (length Zd - length X)%nat by lia.
  (* the carry goes into the next digit, if there is one, and then zeros follow *)
  apply (wp_write_loop (fun k P c => 0 <= c <= 1 /\
    val P + c * bpow k = val X + val Y)); [done | rewrite length_drop; lia | done | lia | |].
  - intros k P2 c2 Hk HlP2 HP2 [Hc2 HJ]. apply wp_ret.
    split; [by apply carry_is_digit|]. rewrite val_snoc, HlP2. split; lia.
  - intros P2 c2 HlP2 HP2 [Hc2 HJ]. simpl. rewrite drop_ge, app_nil_r by (rewrite length_drop; lia).
    replace (length X + (length Zd - length X))%nat with (length Zd) in * by lia.
    split_and!; [done | done |]. symmetry. apply mod_eq_of_bounds.
    + rewrite <- HlP2. by apply val_bounds.
    + exists c2. lia.
Qed.

(** [Z := X + Y], modulo the size of [Z]. *)
Lemma Add_spec Zd X Y :
  digits_ok X -> digits_ok Y -> (length X <= length Zd)%nat -> (length Y <= length Zd)%nat ->
  wp (Add Zd X Y) (fun Z' => length Z' = length Zd /\ digits_ok Z' /\
    val Z' = (val X + val Y) mod bpow (length Zd)).
Proof.
  intros HX HY HlX HlY. unfold Add. case_bool_decide.
  - rewrite (Z.add_comm (val X)). apply Add_ordered_spec; (done || lia).
  - apply Add_ordered_spec; (done || lia).
Qed.

Lemma Add_exact Zd X Y :
  digits_ok X -> digits_ok Y -> (length X <= length Zd)%nat -> (length Y <= length Zd)%nat ->
  val X + val Y < bpow (length Zd) ->
  wp (Add Zd X Y) (fun Z' => length Z' = length Zd /\ digits_ok Z' /\
    val Z' = val X + val Y).
Proof.
  intros HX HY ? ? Hv. eapply wp_mono; [by apply Add_spec|].
  intros Z' (? & ? & E). split_and!; [done | done |]. rewrite E. apply Z.mod_small.
  pose proof (val_nonneg _ HX). pose proof (val_nonneg _ HY). lia.
Qed.

(** The two loops of a subtraction and the check that nothing is left to borrow. *)
Lemma wp_subtract_loops {T} Zd X Y (k : digits -> res T) (Q : T -> Prop) :
  digits_ok X -> digits_ok Y -> (length Y <= length X)%nat -> (length X <= length Zd)%nat ->
  val Y <= val X ->
  (forall P, length P = length X -> digits_ok P -> val P = val X - val Y ->
     wp (k (P ++ drop (length X) Zd)) Q) ->
  wp ('(Zd, borrow) ← write_loop (length Y) 0
        (fun i _ borrow => x ← rd X i; y ← rd Y i; mret (digit_sub2 x y borrow)) Zd 0;
      '(Zd, borrow) ← write_loop (length X - length Y) (length Y)
        (fun i _ borrow => x ← rd X i; mret (digit_sub x borrow)) Zd borrow;
      dcheck (borrow =? 0);;
      k Zd) Q.
Proof.
  intros HX HY HlYX Hl Hv HQ.
  apply wp_bind, (wp_loop3 (-1)); [apply digit_sub2_step | done | done | done | lia |].
  intros P c HlP HP Hc HV.
  apply wp_bind, (wp_loop2 (-1) _ X (length Y) (length X) P _ c (- val Y));
    [apply digit_sub_step | done | done | done | rewrite length_drop; lia | done | done | done | lia |].
  intros P' c' HlP' HP' Hc' HV'. rewrite drop_drop.
  replace (length Y + (length X - length Y))%nat with (length X) by lia.
  rewrite take_ge in HV' by done.
  assert (c' = 0) as ->.
  { pose proof (val_bounds _ HP') as Hb. rewrite HlP' in Hb.
    assert (c' = 0 \/ c' = 1) as [-> | ->] by lia; lia. }
  apply wp_bind, wp_dcheck; [done|]. apply HQ; [done | done | lia].
Qed.

(** [Z := X - Y]. *)
Lemma Subtract_spec Zd X Y :
  digits_ok X -> digits_ok Y -> (length (Normalize X) <= length Zd)%nat -> val Y <= val X ->
  wp (Subtract Zd X Y) (fun Z' => length Z' = length Zd /\ digits_ok Z' /\
    val Z' = val X - val Y).
Proof.
  intros HX HY Hl Hv. unfold Subtract.
  rewrite <- (val_Normalize X), <- (val_Normalize Y) in *.
  pose proof (normalized_Normalize Y) as NY.
  apply digits_ok_Normalize in HX, HY.
  set (X' := Normalize X) in *. set (Y' := Normalize Y) in *.
  pose proof (normalized_length_le Y' X' HY HX NY Hv) as HlYX.
  apply wp_bind, wp_dcheck; [by apply bool_decide_eq_true|].
  apply wp_subtract_loops; [done..|]. intros P HlP HP HvP.
  apply wp_zero_from; [done|]. rewrite length_app, length_replicate, length_drop, val_app_zeros.
  split_and!; [lia | by auto with digits | done].
Qed.

(** Signed value of a magnitude. *)
Definition signed_val (negative : bool) (v : Z) : Z := if negative then - v else v.

Lemma AddSigned_spec Zd X xn Y yn :
  digits_ok X -> digits_ok Y -> (length X <= length Zd)%nat -> (length Y <= length Zd)%nat ->
  val X + val Y < bpow (length Zd) ->
  wp (AddSigned Zd X xn Y yn) (fun '(Z', zn) => length Z' = length Zd /\ digits_ok Z' /\
    signed_val zn (val Z') = signed_val xn (val X) + signed_val yn (val Y)).
Proof.
  intros HX HY HlX HlY Hv. unfold AddSigned.
  pose proof (length_Normalize X). pose proof (length_Normalize Y).
  destruct (Bool.eqb_spec xn yn) as [-> | Hne].
  - wp_apply (Add_exact Zd X Y); [done..|]. intros Z' (? & ? & E). apply wp_ret.
    split_and!; [done..|]. rewrite E. destruct yn; simpl; lia.
  - wp_apply (GreaterThanOrEqual_spec X Y); [done..|]. intros b ->.
    destruct (Z.leb_spec (val Y) (val X)).
    + wp_apply (Subtract_spec Zd X Y); [done | done | lia | done |].
      intros Z' (? & ? & E). apply wp_ret. split_and!; [done..|]. rewrite E.
      destruct xn, yn; simpl; (lia || done).
    + wp_apply (Subtract_spec Zd Y X); [done | done | lia | lia |].
      intros Z' (? & ? & E). apply wp_ret. split_and!; [done..|]. rewrite E.
      destruct xn, yn; simpl; (lia || done).
Qed.

Lemma SubtractSigned_spec Zd X xn Y yn :
  digits_ok X -> digits_ok Y -> (length X <= length Zd)%nat -> (length Y <= length Zd)%nat ->
  val X + val Y < bpow (length Zd) ->
  wp (SubtractSigned Zd X xn Y yn) (fun '(Z', zn) => length Z' = length Zd /\ digits_ok Z' /\
    signed_val zn (val Z') = signed_val xn (val X) - signed_val yn (val Y)).
Proof.
  intros HX HY HlX HlY Hv.
  assert (SubtractSigned Zd X xn Y yn = AddSigned Zd X xn Y (negb yn)) as ->.
  { unfold SubtractSigned, AddSigned. by destruct xn, yn. }
  eapply wp_mono; [by apply AddSigned_spec|].
  intros [Z' zn] (? & ? & E). split_and!; [done..|]. rewrite E.
  destruct yn; simpl; lia.
Qed.

(** [for (; i < X.len(); i++) Z[i] = X[i]]. *)
Lemma wp_copy_loop X i P R (Q : digits * unit -> Prop) :
  digits_ok X -> length P = i -> digits_ok P -> (i <= length X)%nat ->
  (length X - i <= length R)%nat ->
  Q (P ++ drop i X ++ drop (length X - i) R, tt) ->
  wp (write_loop (length X - i) i (fun i _ _ => x ← rd X i; mret (x, tt)) (P ++ R) tt) Q.
Proof.
  intros HX HlP HP Hi HlR HQ.
  apply (wp_write_loop (fun k P' _ => P' = P ++ slice X i (k - i))); [done..| | |].
  - unfold slice. by rewrite Nat.sub_diag, take_0, app_nil_r.
  - intros k P' [] Hk HlP' HP' ->. apply wp_bind, wp_rd; [lia | done|].
    intros x Hx Hdx. apply wp_ret. split; [done|]. rewrite <- app_assoc. f_equal.
    unfold slice. replace (S k - i)%nat with (S (k - i)) by lia.
    symmetry. apply take_S_r. rewrite lookup_drop. by replace (i + (k - i))%nat with k by lia.
  - intros P' [] HlP' HP' ->. rewrite <- app_assoc. unfold slice.
    rewrite (take_ge (drop i X)); [done | rewrite length_drop; lia].
Qed.

(** [Z := X + 1]. *)
Lemma AddOne_spec Zd X :
  digits_ok X -> (length X <= length Zd)%nat -> val X + 1 < bpow (length Zd) ->
  wp (AddOne Zd X) (fun Z' => length Z' = length Zd /\ digits_ok Z' /\ val Z' = val X + 1).
Proof.
  intros HX HlX Hv. unfold AddOne. apply wp_bind. rewrite <- (app_nil_l Zd) at 1.
  apply (wp_write_while (fun k P c => 0 <= c <= 1 /\
    val P + c * bpow k = val (take k X) + 1)); [done | constructor | | |].
  { rewrite take_0. simpl. change (bpow 0) with 1. lia. }
  { intros k P c Hk HlP HP [Hc HJ] _. split; [lia|].
    apply wp_bind, wp_rd; [lia | done|]. intros x Hx Hdx.
    destruct (digit_add2_step x c) as (d & c' & -> & Ed & Hd & Hc'); [done | by apply carry_is_digit|].
    apply wp_ret. split; [done|]. split; [done|].
    rewrite val_snoc, HlP, bpow_S, (val_take_S _ _ _ Hx). scale_by_weight Ed k. lia. }
  intros m P c Hm HlP HP [Hc HJ] Hend. cbn [app] in *. rewrite Nat.sub_0_r.
  assert (val (take m X) + bpow m * val (drop m X) = val X) as Hsplit.
  { rewrite (val_split X m), length_take. by rewrite Nat.min_l by lia. }
  destruct (Z.ltb_spec 0 c) as [Hc1 | Hc0].
  - assert (c = 1) as -> by lia. destruct Hend as [-> | ?]; [|done]. simpl in *.
    rewrite take_ge in HJ by lia.
    assert (length X < length Zd)%nat as HlZ.
    { destruct (Nat.lt_ge_cases (length X) (length Zd)) as [|Hge]; [done|].
      assert (length Zd = length X) as E by lia. rewrite E in Hv.
      pose proof (val_nonneg _ HP). lia. }
    destruct (drop (length X) Zd) as [|r R] eqn:ER.
    { apply (f_equal length) in ER. rewrite length_drop in ER. simpl in ER. lia. }
    apply wp_bind, wp_bind, wp_wr; [rewrite length_app; simpl; lia|].
    rewrite insert_app_r_alt, HlP, Nat.sub_diag by lia. simpl.
    replace (length X - S (length X))%nat with 0%nat by lia. apply wp_bind, wp_ret.
    replace (S (length X) `max` length X)%nat with (S (length X)) by lia.
    replace (P ++ 1 :: R) with ((P ++ [1]) ++ R) by (by rewrite <- app_assoc).
    apply wp_zero_from; [rewrite length_app; simpl; lia|].
    apply (f_equal length) in ER. rewrite length_drop in ER. simpl in ER.
    rewrite !length_app, length_replicate, val_app_zeros, val_snoc, HlP. simpl.
    split_and!; [lia | by auto 6 with digits | lia].
  - assert (c = 0) as -> by lia. apply wp_bind, wp_ret, wp_bind.
    apply wp_copy_loop; [done | done | done | lia | rewrite length_drop; lia |].
    rewrite drop_drop. replace (m + (length X - m))%nat with (length X) by lia.
    replace (m `max` length X)%nat with (length X) by lia. rewrite app_assoc.
    apply wp_zero_from; [rewrite length_app, length_drop; lia|].
    rewrite !length_app, length_replicate, !length_drop, val_app_zeros, val_app, HlP.
    split_and!; [lia | by auto 6 with digits | lia].
Qed.

(** [Z := X - 1]. *)
Lemma SubtractOne_spec Zd X :
  digits_ok X -> (length X <= length Zd)%nat -> 0 < val X ->
  wp (SubtractOne Zd X) (fun Z' => length Z' = length Zd /\ digits_ok Z' /\ val Z' = val X - 1).
Proof.
  intros HX HlX Hv. unfold SubtractOne. apply wp_bind. rewrite <- (app_nil_l Zd) at 1.
  assert (Hstop : forall k P c, length P = k -> digits_ok P -> 0 <= c <= 1 ->
    val P - c * bpow k = val (take k X) - 1 -> 0 < c -> (k < length X)%nat).
  { intros k P c HlP HP Hc HJ Hc1. destruct (Nat.lt_ge_cases k (length X)); [done|].
    rewrite take_ge in HJ by lia. pose proof (val_bounds _ HP) as Hb. rewrite HlP in Hb.
    assert (c = 1) as -> by lia. lia. }
  apply (wp_write_while (fun k P c => (k <= length X)%nat /\ 0 <= c <= 1 /\
    val P - c * bpow k = val (take k X) - 1)); [done | constructor | | |].
  { rewrite take_0. simpl. change (bpow 0) with 1. lia. }
  { intros k P c Hk HlP HP (Hk' & Hc & HJ) Hcond%Z.ltb_lt.
    pose proof (Hstop k P c HlP HP Hc HJ Hcond). split; [lia|].
    apply wp_bind, wp_rd; [lia | done|]. intros x Hx Hdx.
    destruct (digit_sub_step x c) as (d & c' & -> & Ed & Hd & Hc'); [done | by apply carry_is_digit|].
    apply wp_ret. split; [done|]. split; [lia|]. split; [done|].
    rewrite val_snoc, HlP, bpow_S, (val_take_S _ _ _ Hx). scale_by_weight Ed k. lia. }
  intros m P c Hm HlP HP (Hm' & Hc & HJ) Hend. cbn [app] in *. rewrite Nat.sub_0_r.
  assert (c = 0) as ->.
  { destruct (Z.eq_dec c 0); [done|]. pose proof (Hstop m P c HlP HP Hc HJ).
    destruct Hend as [-> | Hf%Z.ltb_ge]; lia. }
  assert (val (take m X) + bpow m * val (drop m X) = val X) as Hsplit.
  { rewrite (val_split X m), length_take. by rewrite Nat.min_l by lia. }
  apply wp_bind. apply wp_copy_loop; [done | done | done | lia | rewrite length_drop; lia |].
  rewrite drop_drop. replace (m + (length X - m))%nat with (length X) by lia.
  replace (m `max` length X)%nat with (length X) by lia. rewrite app_assoc.
  apply wp_zero_from; [rewrite length_app, length_drop; lia|].
  rewrite !length_app, length_replicate, !length_drop, val_app_zeros, val_app, HlP.
  split_and!; [lia | by auto 6 with digits | lia].
Qed.

(** The number of bits of a normalized vector. *)
Lemma BitLength_spec X : digits_ok X -> normalized X -> X <> [] ->
  wp (BitLength X) (fun b => 0 < b <= Z.of_nat (length X) * kDigitBits /\ 2 ^ (b - 1) <= val X < 2 ^ b).
Proof.
  intros HX Hn Hne. unfold BitLength. apply wp_bind, wp_msd; [done | done|]. intros X' d -> Hd. apply wp_ret.
  assert (d <> 0) as Hd0 by (intros ->; apply Hn; by rewrite last_snoc).
  pose proof (CountLeadingZeros_spec d Hd Hd0) as (Hc & Hge & Hlt). set (c := CountLeadingZeros d) in *.
  apply Forall_app in HX as [HX _]. pose proof (val_bounds X' HX) as Hb. rewrite bpow_bits in Hb.
  rewrite length_app, val_snoc, bpow_bits. cbn [length]. rewrite Nat2Z.inj_add. change (Z.of_nat 1) with 1.
  set (n := Z.of_nat (length X')) in *. assert (0 < kDigitBits) by (destruct kDigitBits_cases; lia).
  assert (0 <= kDigitBits * n) by (apply Z.mul_nonneg_nonneg; lia).
  replace ((n + 1) * kDigitBits - c) with (kDigitBits * n + (kDigitBits - c)) by lia. split; [lia|].
  assert (2 ^ (kDigitBits - c) * 2 ^ c = digit_base) as E by (unfold digit_base; rewrite <- Z.pow_add_r by lia; f_equal; lia).
  assert (2 * 2 ^ (kDigitBits - c - 1) = 2 ^ (kDigitBits - c)) as E' by (rewrite <- Z.pow_succ_r by lia; f_equal; lia).
  assert (0 < 2 ^ c) by (apply Z.pow_pos_nonneg; lia).
  replace (kDigitBits * n + (kDigitBits - c) - 1) with (kDigitBits * n + (kDigitBits - c - 1)) by lia.
  rewrite !Z.pow_add_r by lia. assert (0 < 2 ^ (kDigitBits * n)) by (apply Z.pow_pos_nonneg; lia).
  assert (2 ^ (kDigitBits - c - 1) <= d < 2 ^ (kDigitBits - c)) as Hdb by nia. nia.
Qed.
End vector_arithmetic.
