(* ===== verification/Processor.v ===== *)
(** The state of a [ProcessorImpl] ([src/bigint/bigint-internal.h] and
    [bigint-internal.cc]) and the monad of the computations that run on it:
    work accounting, interrupt polling and the status a caller sees. *)

From Stdlib Require Import ZArith Lia.
From stdpp Require Import base tactics numbers list option.
From S2P Require Import Prelude Digit Digits.

#[local] Open Scope Z_scope.

(** [Status]. *)
Inductive Status : Type :=
  | kOk
  | kInterrupted.

#[export] Instance Status_eq_dec : EqDecision Status.
Proof. solve_decision. Defined.

(** The embedder's [Platform]: the answer of its [n]-th [InterruptRequested] call. *)
Class Platform := { InterruptRequested : nat -> bool }.

(** The fields of [ProcessorImpl]; [polls] counts the calls of
    [platform_->InterruptRequested()] made so far. *)
Record ProcessorImpl : Type := mkProcessor {
  work_estimate_ : Z;
  status_ : Status;
  polls : nat;
}.

(** [ProcessorImpl(platform)]. *)
Definition ProcessorImpl_new : ProcessorImpl := mkProcessor 0 kOk 0.

(** The contents of memory obtained from [new digit_t[count]] are not
    initialized: the model is generic in them. *)
Class Allocator `{Config} := {
  uninitialized : nat -> list Z;
  length_uninitialized : forall count, length (uninitialized count) = count;
  uninitialized_ok : forall count, digits_ok (uninitialized count);
}.

(** ** The processor monad *)

Definition PM (A : Type) : Type := ProcessorImpl -> res (A * ProcessorImpl).

#[export] Instance PM_ret : MRet PM := fun A a p => Ok (a, p).
#[export] Instance PM_bind : MBind PM := fun A B f m p =>
  match m p with Ok (a, p') => f a p' | Err e => Err e end.

(** Computations that do not touch the processor. *)
Definition lift {A} (m : res A) : PM A := fun p =>
  match m with Ok a => Ok (a, p) | Err e => Err e end.

Fixpoint for_loopP {St} (n i : nat) (body : nat -> St -> PM St) (s : St) : PM St :=
  match n with
  | O => mret s
  | S n' => s' ← body i s; for_loopP n' (S i) body s'
  end.

Section processor.
Context `{Config, Platform}.

Definition kWorkEstimateThreshold : Z := 5000000.

Definition AddWorkEstimate (estimate : Z) : PM unit := fun p =>
  let work_estimate := wrap (work_estimate_ p + estimate) in
  if kWorkEstimateThreshold <=? work_estimate then
    let status :=
      if InterruptRequested (polls p) then kInterrupted else status_ p in
    Ok (tt, mkProcessor 0 status (S (polls p)))
  else Ok (tt, mkProcessor work_estimate (status_ p) (polls p)).

Definition should_terminate : PM bool := fun p =>
  Ok (bool_decide (status_ p = kInterrupted), p).

Definition get_and_clear_status : PM Status := fun p =>
  Ok (status_ p, mkProcessor (work_estimate_ p) kOk (polls p)).
End processor.

(** ** Reasoning about processor computations *)

Definition wpP {A} (m : PM A) (p : ProcessorImpl) (Q : A -> ProcessorImpl -> Prop) : Prop :=
  wp (m p) (fun '(a, p') => Q a p').

(** How an operation may change the status: it is [kInterrupted] afterwards exactly
    when it was before or one of the polls made in between asked for it. *)
Definition status_le `{Platform} (p p' : ProcessorImpl) : Prop :=
  (polls p <= polls p')%nat /\
  (status_ p' = kInterrupted <->
   status_ p = kInterrupted \/
   exists n, (polls p <= n < polls p')%nat /\ InterruptRequested n = true).

Section status.
Context `{Platform}.

Lemma status_le_refl p : status_le p p.
Proof. split; [lia|]. split; [by left|]. intros [? | (n & ? & _)]; [done | lia]. Qed.

Lemma status_le_trans p1 p2 p3 : status_le p1 p2 -> status_le p2 p3 -> status_le p1 p3.
Proof.
  intros [Hl1 H1] [Hl2 H2]. split; [lia|]. rewrite H2, H1. split.
  - intros [[? | (n & ? & ?)] | (n & ? & ?)]; [by left | |]; right; exists n; (split; [lia | done]).
  - intros [? | (n & ? & ?)]; [by left; left|].
    destruct (Nat.lt_ge_cases n (polls p2)); [left; right | right];
      exists n; (split; [lia | done]).
Qed.

(** A processor that will not be stopped: nothing asks for an interrupt. *)
Definition uninterrupted (p : ProcessorImpl) : Prop :=
  status_ p = kOk /\ forall n, InterruptRequested n = false.

Lemma uninterrupted_le p p' : status_le p p' -> uninterrupted p -> uninterrupted p'.
Proof.
  intros [_ Hle] [Hok Hno]. split; [|done]. destruct (status_ p') eqn:E; [done|].
  destruct Hle as [[? | (n & _ & Hn)] _]; [done | congruence |]. by rewrite Hno in Hn.
Qed.
End status.

#[export] Hint Resolve status_le_refl status_le_trans : digits.

Lemma wpP_ret {A} (a : A) p (Q : A -> ProcessorImpl -> Prop) : Q a p -> wpP (mret a) p Q.
Proof. done. Qed.

Lemma wpP_bind {A B} (m : PM A) (f : A -> PM B) p (Q : B -> ProcessorImpl -> Prop) :
  wpP m p (fun a p' => wpP (f a) p' Q) -> wpP (m ≫= f) p Q.
Proof. unfold wpP, mbind, PM_bind. by destruct (m p) as [[]|]. Qed.

Lemma wpP_mono {A} (m : PM A) p (Q Q' : A -> ProcessorImpl -> Prop) :
  wpP m p Q -> (forall a p', Q a p' -> Q' a p') -> wpP m p Q'.
Proof. unfold wpP. intros Hm HQ. eapply wp_mono; [exact Hm|]. intros []. apply HQ. Qed.

Lemma wpP_lift {A} (m : res A) p (Q : A -> ProcessorImpl -> Prop) :
  wp m (fun a => Q a p) -> wpP (lift m) p Q.
Proof. unfold wpP, lift. by destruct m. Qed.

Lemma wpP_elim {A} (m : PM A) p (Q : A -> ProcessorImpl -> Prop) :
  wpP m p Q -> exists a p', m p = Ok (a, p') /\ Q a p'.
Proof. unfold wpP. destruct (m p) as [[]|]; simpl; [eauto | done]. Qed.

Lemma wpP_for_loop {St} (I : nat -> St -> ProcessorImpl -> Prop) n i body (s : St) p :
  I i s p ->
  (forall k s' p', (i <= k < i + n)%nat -> I k s' p' -> wpP (body k s') p' (I (S k))) ->
  wpP (for_loopP n i body s) p (I (i + n)%nat).
Proof.
  revert i s p. induction n as [|n IH]; intros i s p Hi Hstep; simpl.
  - by rewrite Nat.add_0_r.
  - apply wpP_bind. eapply wpP_mono; [apply Hstep; [lia | done]|].
    intros s' p' Hs'. replace (i + S n)%nat with (S i + n)%nat by lia.
    apply IH; [done|]. intros; apply Hstep; [lia | done].
Qed.

Lemma wpP_AddWorkEstimate `{Config, Platform} e p (Q : unit -> ProcessorImpl -> Prop) :
  (forall p', status_le p p' -> Q tt p') -> wpP (AddWorkEstimate e) p Q.
Proof.
  intros HQ. unfold wpP, AddWorkEstimate.
  destruct (_ <=? _); apply wp_Ok, HQ; [|by apply (status_le_refl (mkProcessor _ _ _))].
  split; simpl; [lia|]. destruct (InterruptRequested (polls p)) eqn:E.
  - split; [|done]. intros _. right. exists (polls p). split; [lia | done].
  - split; [by left|]. intros [? | (n & ? & Hn)]; [done|].
    assert (n = polls p) as -> by lia. congruence.
Qed.

Lemma wpP_should_terminate p (Q : bool -> ProcessorImpl -> Prop) :
  Q (bool_decide (status_ p = kInterrupted)) p -> wpP should_terminate p Q.
Proof. done. Qed.

Tactic Notation "wpP_apply" uconstr(lem) :=
  lazymatch goal with |- wpP (mbind _ _) _ _ => apply wpP_bind | _ => idtac end;
  eapply wpP_mono; [eapply lem | cbv beta].

(** The same for a computation that does not touch the processor. *)
Tactic Notation "wpP_lift_apply" uconstr(lem) :=
  lazymatch goal with |- wpP (mbind _ _) _ _ => apply wpP_bind | _ => idtac end;
  apply wpP_lift; eapply wp_mono; [eapply lem | cbv beta].
