(* ===== verification/MulSchoolbook.v ===== *)
(** Quadratic multiplication: [src/bigint/mul-schoolbook.cc]. *)

From Stdlib Require Import ZArith Lia.
From stdpp Require Import base tactics numbers list option.
From S2P Require Import Prelude Digit Digits VectorArithmetic Processor.

#[local] Open Scope Z_scope.

Section mul_schoolbook.
Context `{Config, Platform}.
Implicit Types X Y P R : digits.

(** [Z := X * y] for a digit [y]; the locals of the loop are [(carry, high)]. *)
Definition MultiplySingle (Zd X : digits) (y : Z) : PM digits :=
  lift (dcheck (negb (y =? 0)));;
  '(Zd, (carry, high)) ← lift (write_loop (length X) 0
    (fun i _ '(carry, high) =>
       x ← rd X i;
       let '(low, new_high) := digit_mul x y in
       let '(z, carry) := digit_add3 low high carry in
       mret (z, (carry, new_high))) Zd (0, 0));
  AddWorkEstimate (Z.of_nat (length X));;
  Zd ← lift (wr Zd (length X) (wrap (carry + high)));
  lift (zero_from (length X + 1) Zd).

(** The locals of [MultiplySchoolbook]. *)
Record column := mkColumn {
  c_zi : Z;
  c_next : Z;
  c_carry : Z;
  c_next_carry : Z;
}.

(** One iteration of the loop of the [BODY] macro. *)
Definition BODY_step (X Y : digits) (i j : nat) (s : column) : res column :=
  x ← rd X j;
  y ← rd Y (i - j);
  let '(low, high) := digit_mul x y in
  let '(zi, carrybit) := digit_add2 (c_zi s) low in
  let carry := wrap (c_carry s + carrybit) in
  let '(next, carrybit) := digit_add2 (c_next s) high in
  let next_carry := wrap (c_next_carry s + carrybit) in
  mret (mkColumn zi next carry next_carry).

(** [BODY(min, max)]: accumulate the products of column [i], then [Z[i] = zi]. *)
Definition BODY (Zd X Y : digits) (i min max : nat) (s : column)
    : res (digits * column) :=
  s ← for_loop (S max - min) min (BODY_step X Y i) s;
  Zd ← wr Zd i (c_zi s);
  mret (Zd, s).

(** The start of a column: fold the carries of the previous one. *)
Definition next_column (s : column) : column :=
  let '(zi, carry) := digit_add2 (c_next s) (c_carry s) in
  mkColumn zi (wrap (c_next_carry s + carry)) 0 0.

Definition MultiplySchoolbook (Zd X Y : digits) : PM digits :=
  lift (b ← IsDigitNormalized X; dcheck b);;
  lift (b ← IsDigitNormalized Y; dcheck b);;
  lift (dcheck (bool_decide (length Y <= length X)%nat));;
  lift (dcheck (bool_decide (length X + length Y <= length Zd)%nat));;
  if bool_decide (length X = 0 \/ length Y = 0)%nat then mret (Clear Zd)
  else
    (* Unrolled first iteration. *)
    x0 ← lift (rd X 0);
    y0 ← lift (rd Y 0);
    let '(z0, next) := digit_mul x0 y0 in
    Zd ← lift (wr Zd 0 z0);
    (* Unrolled second iteration. *)
    '(Zd, s, i) ←
      (if bool_decide (1 < length Y)%nat then
         '(Zd, s) ← lift (BODY Zd X Y 1 0 1 (mkColumn next 0 0 0));
         mret (Zd, s, 2%nat)
       else mret (Zd, mkColumn 0 next 0 0, 1%nat));
    (* Main part. *)
    '(Zd, s) ← for_loopP (length Y - i) i
      (fun i '(Zd, s) =>
         '(Zd, s) ← lift (BODY Zd X Y i 0 i (next_column s));
         AddWorkEstimate (Z.of_nat i);;
         mret (Zd, s)) (Zd, s);
    let i := (i `max` length Y)%nat in
    (* Last part. *)
    let loop_end := (length X + length Y - 2)%nat in
    '(Zd, s) ← for_loopP (S loop_end - i) i
      (fun i '(Zd, s) =>
         let max_x_index := (i `min` (length X - 1))%nat in
         let max_y_index := (length Y - 1)%nat in
         let min_x_index := (i - max_y_index)%nat in
         '(Zd, s) ← lift (BODY Zd X Y i min_x_index max_x_index (next_column s));
         AddWorkEstimate (Z.of_nat (max_x_index - min_x_index));;
         mret (Zd, s)) (Zd, s);
    let i := (i `max` S loop_end)%nat in
    let '(zi, carry) := digit_add2 (c_next s) (c_carry s) in
    Zd ← lift (wr Zd i zi);
    lift (dcheck (carry =? 0));;
    lift (zero_from (i + 1) Zd).

(** ** Multiplication by a digit *)

Lemma MultiplySingle_loop X y Zd :
  digits_ok X -> is_digit y -> (length X <= length Zd)%nat ->
  wp (write_loop (length X) 0
    (fun i _ '(carry, high) =>
       x ← rd X i;
       let '(low, new_high) := digit_mul x y in
       let '(z, carry) := digit_add3 low high carry in
       mret (z, (carry, new_high))) Zd (0, 0))
    (fun '(Z', (carry, high)) => exists P, Z' = P ++ drop (length X) Zd /\
       length P = length X /\ digits_ok P /\ is_digit (carry + high) /\
       val P + bpow (length X) * (carry + high) = val X * y).
Proof.
  intros HX Hy Hl. rewrite <- (app_nil_l Zd).
  apply (wp_write_loop (fun k P '(carry, high) => 0 <= carry <= 1 /\ is_digit high /\
    val P + bpow k * (carry + high) = val (take k X) * y)); [done | done | constructor | | |].
  - rewrite take_0. simpl. split_and!; [lia | lia | apply is_digit_0 | lia].
  - intros k P [carry high] Hk HlP HP (Hc & Hh & HJ).
    apply wp_bind, wp_rd; [lia | done|]. intros x Hx Hdx.
    destruct (digit_mul_spec x y) as (low & high' & -> & Em & Hlow & Hhigh'); [done..|].
    destruct (digit_add3_spec low high carry) as (z & c' & -> & Ez & Hz & Hc');
      [done | done | by apply carry_is_digit |].
    apply wp_ret. split; [done|]. pose proof digit_base_ge.
    split_and!; [lia | unfold is_digit in *; nia | done |].
    rewrite val_snoc, HlP, bpow_S, (val_take_S _ _ _ Hx).
    scale_by_weight Em k. scale_by_weight Ez k. lia.
  - intros P [carry high] HlP HP (Hc & Hh & HJ). rewrite Nat.add_0_l, take_ge in * by lia.
    exists P. split_and!; [done..| | done].
    pose proof (val_bounds _ HX). pose proof (val_nonneg _ HP). pose proof (bpow_pos (length X)).
    unfold is_digit in *. split; [lia|].
    apply (mul_lt_cancel _ _ (bpow (length X))); nia.
Qed.

Lemma MultiplySingle_spec Zd X y p :
  digits_ok X -> is_digit y -> y <> 0 -> (length X < length Zd)%nat ->
  wpP (MultiplySingle Zd X y) p (fun Z' p' => status_le p p' /\
    length Z' = length Zd /\ digits_ok Z' /\ val Z' = val X * y).
Proof.
  intros HX Hy Hy0 Hl. unfold MultiplySingle.
  apply wpP_bind, wpP_lift, wp_dcheck; [by apply negb_true_iff, Z.eqb_neq|].
  apply wpP_bind, wpP_lift. eapply wp_mono; [apply MultiplySingle_loop; [done | done | lia]|].
  intros [Z1 [carry high]] (P & -> & HlP & HP & Hd & HV).
  apply wpP_bind, wpP_AddWorkEstimate. intros p' Hle.
  rewrite (wrap_small _ Hd).
  apply wpP_bind, wpP_lift, wp_wr_snoc; [done | rewrite length_drop; lia |].
  apply wpP_lift. rewrite drop_drop.
  apply wp_zero_from; [rewrite length_app; simpl; lia|].
  rewrite !length_app, length_replicate, length_drop, val_app_zeros, val_snoc, HlP. simpl.
  split_and!; [done | lia | by auto 6 with digits | lia].
Qed.

(** ** Columns of the product *)

(** Digit [i], or zero past the end. *)
Definition dig (X : digits) (i : nat) : Z := default 0 (X !! i).

(** [Σ_(min <= j < min + n) X[j] * Y[i - j]], with zero for absent digits. *)
Fixpoint column_sum (X Y : digits) (i min n : nat) : Z :=
  match n with
  | O => 0
  | S n' => column_sum X Y i min n' + dig X (min + n') * dig Y (i - (min + n'))
  end.

(** The full column [i] of the product. *)
Definition conv (X Y : digits) (i : nat) : Z := column_sum X Y i 0 (S i).

Fixpoint columns (X Y : digits) (n : nat) : Z :=
  match n with
  | O => 0
  | S n' => columns X Y n' + bpow n' * conv X Y n'
  end.

Lemma column_sum_split X Y i min m n :
  column_sum X Y i min (m + n) = column_sum X Y i min m + column_sum X Y i (min + m) n.
Proof.
  induction n as [|n IH]; [rewrite Nat.add_0_r; simpl; lia|].
  rewrite Nat.add_succ_r. cbn [column_sum]. rewrite IH, Nat.add_assoc. lia.
Qed.

Lemma column_sum_zero X Y i min n :
  (forall j, (min <= j < min + n)%nat -> dig X j * dig Y (i - j) = 0) ->
  column_sum X Y i min n = 0.
Proof.
  induction n as [|n IH]; intros Hz; cbn [column_sum]; [done|].
  rewrite IH, Hz by (intros; try apply Hz; lia). done.
Qed.

Lemma dig_ge X i : (length X <= i)%nat -> dig X i = 0.
Proof. intros ?. unfold dig. by rewrite lookup_ge_None_2. Qed.

Lemma dig_lookup X i d : X !! i = Some d -> dig X i = d.
Proof. unfold dig. by intros ->. Qed.

(** Shifting the first factor by one digit. *)
Lemma column_sum_cons x X Y i n :
  column_sum (x :: X) Y (S i) 1 n = column_sum X Y i 0 n.
Proof.
  induction n as [|n IH]; cbn [column_sum]; [done|]. rewrite IH. done.
Qed.

Lemma conv_cons_0 x X Y : conv (x :: X) Y 0 = x * dig Y 0.
Proof. unfold conv. cbn. lia. Qed.

Lemma conv_cons_S x X Y i : conv (x :: X) Y (S i) = x * dig Y (S i) + conv X Y i.
Proof.
  unfold conv. pose proof (column_sum_split (x :: X) Y (S i) 0 1 (S i)) as E.
  change (1 + S i)%nat with (S (S i)) in E. change (0 + 1)%nat with 1%nat in E.
  rewrite E, column_sum_cons. cbn [column_sum Nat.add]. unfold dig at 1. simpl. lia.
Qed.

Fixpoint weighted (Y : digits) (n : nat) : Z :=
  match n with
  | O => 0
  | S n' => weighted Y n' + bpow n' * dig Y n'
  end.

Lemma weighted_val Y n : weighted Y n = val (take n Y).
Proof.
  induction n as [|n IH]; cbn [weighted]; [by rewrite take_0|].
  rewrite IH. destruct (Y !! n) as [d|] eqn:E.
  - by rewrite (val_take_S _ _ _ E), (dig_lookup _ _ _ E).
  - apply lookup_ge_None in E. rewrite dig_ge, !take_ge by lia. lia.
Qed.

Lemma columns_cons x X Y n :
  columns (x :: X) Y (S n) = x * weighted Y (S n) + digit_base * columns X Y n.
Proof.
  induction n as [|n IH].
  - cbn [columns weighted]. rewrite conv_cons_0. change (bpow 0) with 1. lia.
  - cbn [columns weighted] in *. rewrite IH, conv_cons_S, bpow_S. lia.
Qed.

(** Summing all columns gives the product. *)
Lemma columns_total X Y n :
  (length X + length Y - 1 <= n)%nat -> columns X Y n = val X * val Y.
Proof.
  revert n. induction X as [|x X IH]; intros n Hn.
  - simpl. rewrite Z.mul_0_l. clear Hn. induction n as [|n IH]; cbn [columns]; [done|].
    rewrite IH. unfold conv. rewrite column_sum_zero; [lia|].
    intros j _. unfold dig. by rewrite lookup_nil.
  - cbn [length val] in *. destruct n as [|n].
    + assert (Y = []) as -> by (destruct Y; [done | simpl in *; lia]). simpl. lia.
    + rewrite columns_cons, weighted_val, IH, take_ge by lia. lia.
Qed.

(** A column restricted to the indices that exist on both sides. *)
Lemma conv_restrict X Y i :
  (0 < length X)%nat -> (0 < length Y)%nat -> (i <= length X + length Y - 2)%nat ->
  column_sum X Y i (i - (length Y - 1))
    (S (i `min` (length X - 1)) - (i - (length Y - 1))) = conv X Y i.
Proof.
  intros HX HY Hi. unfold conv.
  set (lo := (i - (length Y - 1))%nat). set (hi := S (i `min` (length X - 1))).
  replace (S i) with (lo + ((hi - lo) + (S i - hi)))%nat by lia.
  rewrite !column_sum_split, (column_sum_zero X Y i 0 lo),
    (column_sum_zero X Y i (0 + lo + (hi - lo))); [simpl; lia | |].
  - intros j Hj. rewrite (dig_ge X) by lia. lia.
  - intros j Hj. rewrite (dig_ge Y) by lia. lia.
Qed.

(** What the locals of a column stand for. *)
Definition col_total (s : column) : Z :=
  c_zi s + digit_base * (c_next s + c_carry s) + digit_base * digit_base * c_next_carry s.

(** The carry counters stay below the number [n] of products added. *)
Definition col_ok (s : column) (n : Z) : Prop :=
  is_digit (c_zi s) /\ is_digit (c_next s) /\ 0 <= c_carry s <= n /\ 0 <= c_next_carry s <= n.

Lemma BODY_step_spec X Y i j s n :
  digits_ok X -> digits_ok Y -> (j < length X)%nat -> (i - j < length Y)%nat ->
  col_ok s n -> n + 1 < digit_base ->
  wp (BODY_step X Y i j s) (fun s' => col_ok s' (n + 1) /\
    col_total s' = col_total s + dig X j * dig Y (i - j)).
Proof.
  intros HX HY Hj Hij (Hz & Hn & Hc & Hnc) Hlt. unfold BODY_step.
  apply wp_bind, wp_rd; [done | done |]. intros x Hx Hdx.
  apply wp_bind, wp_rd; [done | done |]. intros y Hy Hdy.
  destruct (digit_mul_spec x y) as (low & high & -> & Em & Hlow & Hhigh); [done..|].
  destruct (digit_add2_spec (c_zi s) low) as (zi & c1 & -> & E1 & Hzi & Hc1); [done..|].
  destruct (digit_add2_spec (c_next s) high) as (nx & c2 & -> & E2 & Hnx & Hc2); [done..|].
  rewrite !wrap_small by (unfold is_digit; lia).
  apply wp_ret. rewrite (dig_lookup _ _ _ Hx), (dig_lookup _ _ _ Hy).
  unfold col_ok, col_total; simpl. split; [split_and!; (done || lia)|].
  apply (f_equal (fun z => digit_base * z)) in E2. lia.
Qed.

Lemma BODY_spec X Y i min max s P R :
  digits_ok X -> digits_ok Y -> digits_ok P -> length P = i -> (0 < length R)%nat ->
  (min <= max)%nat -> (max <= i)%nat -> (max < length X)%nat -> (i - min < length Y)%nat ->
  col_ok s 0 -> Z.of_nat (S max - min) < digit_base ->
  wp (BODY (P ++ R) X Y i min max s) (fun '(Z', s') =>
    Z' = (P ++ [c_zi s']) ++ drop 1 R /\ col_ok s' (Z.of_nat (S max - min)) /\
    col_total s' = col_total s + column_sum X Y i min (S max - min)).
Proof.
  intros HX HY HP HlP HlR Hmm Hmi Hmax Hmin Hs Hlt. unfold BODY.
  apply wp_bind. eapply wp_mono.
  { apply (wp_for_loop (fun j s' => col_ok s' (Z.of_nat (j - min)) /\
      col_total s' = col_total s + column_sum X Y i min (j - min))).
    - rewrite Nat.sub_diag. simpl. split; [done | lia].
    - intros j s' Hj [Hok Ht]. eapply wp_mono.
      { apply (BODY_step_spec X Y i j s' (Z.of_nat (j - min))); [done | done | lia | lia | done | lia]. }
      intros s'' [Hok' Ht']. rewrite Nat.sub_succ_l by lia.
      rewrite Nat2Z.inj_succ. split; [by rewrite <- Z.add_1_r|].
      cbn [column_sum]. replace (min + (j - min))%nat with j by lia. lia. }
  intros s' [Hok Ht]. replace (min + (S max - min) - min)%nat with (S max - min)%nat in * by lia.
  apply wp_bind, wp_wr_snoc; [done | done|]. by apply wp_ret.
Qed.

(** Progress of the product after [i] columns. *)
Definition product_inv (X Y Z0 : digits) (i : nat) (Zd : digits) (s : column) : Prop :=
  exists P, Zd = P ++ drop i Z0 /\ length P = i /\ digits_ok P /\ is_digit (c_next s) /\
    0 <= c_carry s <= Z.of_nat (length X) /\ 0 <= c_next_carry s <= Z.of_nat (length X) /\
    columns X Y i = val P + bpow i * (c_next s + c_carry s) + bpow (S i) * c_next_carry s.

Lemma next_column_spec s L :
  is_digit (c_next s) -> 0 <= c_carry s <= L -> 0 <= c_next_carry s <= L ->
  L + 1 < digit_base ->
  col_ok (next_column s) 0 /\
  col_total (next_column s) = c_next s + c_carry s + digit_base * c_next_carry s.
Proof.
  intros Hn Hc Hnc HL. unfold next_column.
  destruct (digit_add2_spec (c_next s) (c_carry s)) as (zi & c & -> & E & Hz & Hcb);
    [done | unfold is_digit; lia |].
  rewrite wrap_small by (unfold is_digit; lia).
  unfold col_ok, col_total; simpl. split; [|lia].
  split_and!; [done | unfold is_digit; lia | lia | lia | lia | lia].
Qed.

(** One iteration of the main part or of the last part. *)
Lemma product_inv_step X Y Z0 i min max Zd s :
  digits_ok X -> digits_ok Y -> int_len X ->
  (length Y <= length X)%nat -> (length X + length Y <= length Z0)%nat ->
  (min <= max)%nat -> (max <= i)%nat -> (max < length X)%nat -> (i - min < length Y)%nat ->
  (i < length Z0)%nat -> column_sum X Y i min (S max - min) = conv X Y i ->
  product_inv X Y Z0 i Zd s ->
  wp (BODY Zd X Y i min max (next_column s)) (fun '(Z', s') => product_inv X Y Z0 (S i) Z' s').
Proof.
  intros HX HY Hint Hl HlZ Hmm Hmi Hmax Hmin Hi Hcol (P & -> & HlP & HP & Hn & Hc & Hnc & HV).
  pose proof digit_base_ge. unfold int_len in Hint.
  destruct (next_column_spec s (Z.of_nat (length X))) as [Hok Ht]; [done | done | done | lia|].
  eapply wp_mono.
  { apply BODY_spec; [done | done | done | done | rewrite length_drop; lia | done | done
      | done | done | done | lia]. }
  intros [Z' s'] (-> & (Hz' & Hn' & Hc' & Hnc') & Ht').
  exists (P ++ [c_zi s']). rewrite drop_drop, length_app, HlP. simpl.
  split_and!; [by rewrite Nat.add_1_r | lia | by apply digits_ok_snoc | done
    | lia | lia | lia | lia |].
  rewrite val_snoc, HlP, HV. rewrite Ht, Hcol in Ht'. unfold col_total in Ht'.
  rewrite !bpow_S in *. scale_by_weight Ht' i. lia.
Qed.

(** The first column and the unrolled second one. *)
Lemma product_inv_first X Y Z0 x0 y0 :
  X !! 0%nat = Some x0 -> Y !! 0%nat = Some y0 -> is_digit x0 -> is_digit y0 ->
  (0 < length Z0)%nat ->
  let '(z0, next) := digit_mul x0 y0 in
  wp (wr Z0 0 z0) (fun Z' => product_inv X Y Z0 1 Z' (mkColumn 0 next 0 0)) /\
  wp (wr Z0 0 z0) (fun Z' => exists P, Z' = P ++ drop 1 Z0 /\ length P = 1%nat /\ digits_ok P /\
    is_digit next /\ columns X Y 1 = val P + digit_base * next).
Proof.
  intros Hx Hy Hdx Hdy Hl.
  destruct (digit_mul_spec x0 y0) as (low & high & -> & Em & Hlow & Hhigh); [done..|].
  assert (columns X Y 1 = low + digit_base * high) as Ecol.
  { cbn. rewrite (dig_lookup _ _ _ Hx), (dig_lookup _ _ _ Hy).
    change (bpow 0) with 1. lia. }
  split; rewrite <- (app_nil_l Z0) at 1; (apply wp_wr_snoc; [done | done|]); exists [low].
  - cbn [c_next c_carry c_next_carry].
    split_and!; [done | done | by constructor | done | lia | lia | lia | lia |].
    rewrite Ecol, bpow_1. simpl. lia.
  - split_and!; [done | done | by constructor | done |]. rewrite Ecol. simpl. lia.
Qed.

Lemma product_inv_second X Y Z0 P next :
  digits_ok X -> digits_ok Y -> (1 < length Y)%nat -> (length Y <= length X)%nat ->
  (length X + length Y <= length Z0)%nat ->
  length P = 1%nat -> digits_ok P -> is_digit next ->
  columns X Y 1 = val P + digit_base * next ->
  wp (BODY (P ++ drop 1 Z0) X Y 1 0 1 (mkColumn next 0 0 0))
    (fun '(Z', s') => product_inv X Y Z0 2 Z' s').
Proof.
  intros HX HY HlY Hl HlZ HlP HP Hn HV. pose proof digit_base_ge.
  eapply wp_mono.
  { apply BODY_spec; [done | done | done | done | rewrite length_drop; lia
      | lia | lia | lia | lia | | simpl; lia].
    split_and!; simpl; [done | apply is_digit_0 | lia | lia | lia | lia]. }
  intros [Z' s'] (-> & (Hz' & Hn' & Hc' & Hnc') & Ht').
  exists (P ++ [c_zi s']). rewrite drop_drop, length_app, HlP. cbn [length Nat.add Nat.sub] in *.
  split_and!; [done | done | by apply digits_ok_snoc | done | lia | lia | lia | lia |].
  change (columns X Y 2) with (columns X Y 1 + bpow 1 * conv X Y 1).
  change (column_sum X Y 1 0 2) with (conv X Y 1) in Ht'.
  rewrite val_snoc, HlP, HV. unfold col_total in Ht'.
  cbn [c_zi c_next c_carry c_next_carry] in Ht'.
  rewrite !bpow_S, bpow_0 in *.
  apply (f_equal (fun z => digit_base * z)) in Ht'. lia.
Qed.

(** The last digit is the rest of the product. *)
Lemma product_inv_last X Y Z0 i Zd s (Q : digits -> Prop) p :
  digits_ok X -> digits_ok Y -> i = (length X + length Y - 1)%nat -> (0 < i)%nat ->
  (0 < length X)%nat -> (length X + length Y <= length Z0)%nat ->
  product_inv X Y Z0 i Zd s ->
  (forall Z', length Z' = length Z0 -> digits_ok Z' -> val Z' = val X * val Y -> Q Z') ->
  wpP (let '(zi, carry) := digit_add2 (c_next s) (c_carry s) in
       Zd ← lift (wr Zd i zi);
       lift (dcheck (carry =? 0));;
       lift (zero_from (i + 1) Zd)) p (fun Z' p' => p' = p /\ Q Z').
Proof.
  intros HX HY Hi Hi0 HlX HlZ (P & -> & HlP & HP & Hn & Hc & Hnc & HV) HQ.
  rewrite columns_total in HV by lia.
  pose proof (val_bounds _ HX) as BX. pose proof (val_bounds _ HY) as BY.
  pose proof (val_nonneg _ HP). pose proof (bpow_pos i). pose proof digit_base_ge.
  assert (val X * val Y < bpow i * digit_base) as Hprod.
  { replace (bpow i * digit_base) with (bpow (S i)) by (rewrite bpow_S; lia).
    replace (S i) with (length X + length Y)%nat by lia.
    rewrite bpow_add. nia. }
  rewrite bpow_S in HV.
  assert (c_next s + c_carry s + digit_base * c_next_carry s < digit_base) as Hsmall.
  { apply (mul_lt_cancel _ _ (bpow i)); [done|]. lia. }
  unfold is_digit in Hn.
  assert (c_next_carry s = 0) as Hnc0 by nia. rewrite Hnc0 in *.
  destruct (digit_add2_spec (c_next s) (c_carry s)) as (zi & c & -> & E & Hz & Hcb);
    [done | unfold is_digit; lia |].
  assert (c = 0) as -> by (unfold is_digit in Hz; assert (c = 0 \/ c = 1) as [-> | ->] by lia; lia).
  apply wpP_bind, wpP_lift, wp_wr_snoc; [done | rewrite length_drop; lia |].
  apply wpP_bind, wpP_lift, wp_dcheck; [done|].
  apply wpP_lift, wp_zero_from; [rewrite length_app; simpl; lia|]. split; [done|].
  apply HQ.
  - rewrite !length_app, length_replicate, !length_drop. simpl. lia.
  - by auto 6 with digits.
  - rewrite val_app_zeros, val_snoc, HlP. assert (zi = c_next s + c_carry s) as -> by lia. lia.
Qed.

Lemma Clear_spec (Zd : digits) :
  length (Clear Zd) = length Zd /\ digits_ok (Clear Zd) /\ val (Clear Zd) = 0.
Proof.
  unfold Clear. rewrite length_replicate, val_replicate_0. by auto with digits.
Qed.

Lemma MultiplySchoolbook_spec Zd X Y p :
  digits_ok X -> digits_ok Y -> normalized X -> normalized Y -> int_len X ->
  (length Y <= length X)%nat -> (length X + length Y <= length Zd)%nat ->
  wpP (MultiplySchoolbook Zd X Y) p (fun Z' p' => status_le p p' /\
    length Z' = length Zd /\ digits_ok Z' /\ val Z' = val X * val Y).
Proof.
  intros HX HY NX NY Hint Hl HlZ. unfold MultiplySchoolbook.
  apply wpP_bind, wpP_lift, wp_dcheck_normalized; [done | done |].
  apply wpP_bind, wpP_lift, wp_dcheck_normalized; [done | done |].
  apply wpP_bind, wpP_lift, wp_dcheck; [by apply bool_decide_eq_true|].
  apply wpP_bind, wpP_lift, wp_dcheck; [by apply bool_decide_eq_true|].
  case_bool_decide as Hz.
  { apply wpP_ret. destruct (Clear_spec Zd) as (? & ? & E). rewrite E.
    split_and!; [by auto with digits | done | done |].
    assert (length Y = 0%nat) as HY0 by lia. destruct Y; [simpl; lia | done]. }
  apply wpP_bind, wpP_lift, wp_rd; [lia | done|]. intros x0 Hx0 Hdx0.
  apply wpP_bind, wpP_lift, wp_rd; [lia | done|]. intros y0 Hy0 Hdy0.
  pose proof (product_inv_first X Y Zd x0 y0 Hx0 Hy0 Hdx0 Hdy0 ltac:(lia)) as Hfirst.
  destruct (digit_mul x0 y0) as [z0 next]. destruct Hfirst as [Hf1 Hf2].
  apply wpP_bind, wpP_lift. eapply wp_mono; [exact (wp_and _ _ _ Hf1 Hf2)|].
  intros Z1 [Hinv1 (P & -> & HlP & HP & Hnext & Hcol)]. clear Hf1 Hf2.
  apply wpP_bind.
  (* columns before the main part *)
  eapply (wpP_mono _ _ (fun '(Z', s, i) p' => p' = p /\ (0 < i)%nat /\ (i <= length Y `max` 1)%nat /\
    product_inv X Y Zd i Z' s)).
  { case_bool_decide as HlY.
    - apply wpP_bind, wpP_lift. eapply wp_mono; [by apply product_inv_second|].
      intros [Z' s'] Hinv. apply wpP_ret. split_and!; [done | lia | lia | done].
    - apply wpP_ret. split_and!; [done | lia | lia | done]. }
  intros [[Z2 s2] i] p0 (-> & Hi0 & Hi & Hinv2).
  (* main part *)
  apply wpP_bind. eapply wpP_mono.
  { apply (wpP_for_loop (fun i '(Z', s) p' => status_le p p' /\ product_inv X Y Zd i Z' s));
      [by auto with digits|].
    intros k [Z' s] p' Hk [Hle Hinv]. apply wpP_bind, wpP_lift. eapply wp_mono.
    { apply (product_inv_step X Y Zd k 0 k); try (done || lia). }
    intros [Z'' s''] Hinv'. apply wpP_bind, wpP_AddWorkEstimate. intros p'' Hle'.
    apply wpP_ret. split; [by eapply status_le_trans | done]. }
  intros [Z3 s3] p3 [Hle3 Hinv3].
  replace (i + (length Y - i))%nat with (i `max` length Y)%nat in Hinv3 by lia.
  set (i' := (i `max` length Y)%nat) in *.
  (* last part *)
  apply wpP_bind. eapply wpP_mono.
  { apply (wpP_for_loop (fun i '(Z', s) p' => status_le p p' /\ product_inv X Y Zd i Z' s)); [done|].
    intros k [Z' s] p' Hk [Hle Hinv]. apply wpP_bind, wpP_lift. eapply wp_mono.
    { apply (product_inv_step X Y Zd k); try (done || lia). apply conv_restrict; lia. }
    intros [Z'' s''] Hinv'. apply wpP_bind, wpP_AddWorkEstimate. intros p'' Hle'.
    apply wpP_ret. split; [by eapply status_le_trans | done]. }
  intros [Z4 s4] p4 [Hle4 Hinv4].
  replace (i' + (S (length X + length Y - 2) - i'))%nat
    with (i' `max` S (length X + length Y - 2))%nat in Hinv4 by lia.
  eapply wpP_mono.
  { eapply (product_inv_last X Y Zd _ _ _ (fun Z' => length Z' = length Zd /\ digits_ok Z' /\
      val Z' = val X * val Y)); [done | done | lia | lia | lia | done | done |]. by auto. }
  intros Z' p' [-> HQ]. by split.
Qed.
End mul_schoolbook.
