(* ===== verification/MulKaratsuba.v ===== *)
(** Karatsuba multiplication: [src/bigint/mul-karatsuba.cc]. *)

From Stdlib Require Import ZArith Lia.
From stdpp Require Import base tactics numbers list option.
From S2P Require Import Prelude Digit Digits VectorArithmetic Processor MulSchoolbook.

#[local] Open Scope Z_scope.

Section mul_karatsuba.
Context `{Config, Platform}.
Context {alloc : Allocator}.
Implicit Types X Y P R : digits.

Definition kKaratsubaThreshold : Z := 34.

(** [MAYBE_TERMINATE]: without the advanced algorithms, [return] (that is, give
    back the buffers [r] as they are) when an interrupt was requested. *)
Definition MAYBE_TERMINATE {A} (r : A) (rest : PM A) : PM A :=
  if V8_ADVANCED_BIGINT_ALGORITHMS then rest
  else
    t ← should_terminate;
    if (t : bool) then mret r else rest.

(** ** Lengths *)

Definition RoundUpLen (len : Z) : Z :=
  if len <=? 36 then RoundUp len 2
  else
    let shift := BitLength_int len - 5 in
    let shift := if 0x18 <=? Z.shiftr len shift then shift + 1 else shift in
    let additive := Z.shiftl 1 shift - 1 in
    if (2 <=? shift) && (Z.land len additive <? Z.shiftl 1 (shift - 2)) then len
    else Z.shiftl (Z.shiftr (len + additive) shift) shift.

(** [while (n > kKaratsubaThreshold) { n >>= 1; i++; }  return n << i]. *)
Fixpoint KaratsubaLength_loop (fuel : nat) (n i : Z) : Z :=
  match fuel with
  | O => Z.shiftl n i
  | S fuel =>
      if kKaratsubaThreshold <? n then KaratsubaLength_loop fuel (Z.shiftr n 1) (i + 1)
      else Z.shiftl n i
  end.

(** [n] is at most [2^31 - 1], so 32 rounds are enough. *)
Definition KaratsubaLength (n : Z) : Z :=
  KaratsubaLength_loop 32 (RoundUpLen n) 0.

(** The same on vector lengths. *)
Definition karatsuba_len (n : nat) : nat := Z.to_nat (KaratsubaLength (Z.of_nat n)).

(** ** The algorithm *)

(** [result := |X - Y|]; flips the sign when [X < Y]. *)
Definition KaratsubaSubtractionHelper (result X Y : digits) (sign : Z) : res (digits * Z) :=
  let X := Normalize X in
  let Y := Normalize Y in
  ge ← GreaterThanOrEqual X Y;
  let '(X, Y, sign) := if (ge : bool) then (X, Y, sign) else (Y, X, - sign) in
  '(result, borrow) ← write_loop (length Y) 0
    (fun i _ borrow => x ← rd X i; y ← rd Y i; mret (digit_sub2 x y borrow)) result 0;
  '(result, borrow) ← write_loop (length X - length Y) (length Y)
    (fun i _ borrow => x ← rd X i; mret (digit_sub x borrow)) result borrow;
  dcheck (borrow =? 0);;
  result ← zero_from (length X) result;
  mret (result, sign).

(** [AddAndReturnOverflow(Z + off, X)] and [SubAndReturnBorrow(Z + off, X)]: the
    operation on the part of [Z] from [off] on. *)
Definition on_tail (Zd : digits) (off : nat) (op : digits -> res (digits * Z))
    : res (digits * Z) :=
  tail ← Digits_plus Zd off;
  '(tail, c) ← op tail;
  mret (take off Zd ++ tail, c).

(** [for (int i = end; i < n; i++) DCHECK(P2[i] == 0)]. *)
Definition dcheck_zero_from (P2 : digits) (e n : nat) : res unit :=
  for_loop (n - e) e (fun i _ => d ← rd P2 i; dcheck (d =? 0)) tt.

(** The second half of [KaratsubaMain], from the additions of [P0] and [P2] on: the
    middle product, by [rec] (the function itself, at length [n2]), is combined into
    [Z].  [P0] is overwritten by X_diff and Y_diff, [P2] by P1. *)
Definition KaratsubaMiddle (rec : digits -> digits -> digits -> digits -> PM (digits * digits))
    (n2 : nat) (Zd X0 X1 Y0 Y1 P0 P2 Rc : digits) : PM (digits * digits * digits * digits) :=
  '(Zd, overflow) ← lift (on_tail Zd n2 (fun V => AddAndReturnOverflow V P0));
  '(Zd, c) ← lift (on_tail Zd n2 (fun V => AddAndReturnOverflow V P2));
  let overflow := wrap (overflow + c) in
  let X_diff := Digits_slice P0 0 n2 in
  let Y_diff := Digits_slice P0 n2 n2 in
  let sign := 1 in
  '(X_diff, sign) ← lift (KaratsubaSubtractionHelper X_diff X1 X0 sign);
  '(Y_diff, sign) ← lift (KaratsubaSubtractionHelper Y_diff Y0 Y1 sign);
  '(P1, Rc) ← rec P2 X_diff Y_diff Rc;
  '(Zd, overflow) ←
    (if 0 <? sign then
       '(Zd, c) ← lift (on_tail Zd n2 (fun V => AddAndReturnOverflow V P1));
       mret (Zd, wrap (overflow + c))
     else
       '(Zd, c) ← lift (on_tail Zd n2 (fun V => SubAndReturnBorrow V P1));
       mret (Zd, wrap (overflow - c)));
  lift (dcheck (overflow =? 0));;
  mret (Zd, X_diff ++ Y_diff, P1, Rc).

(** The recursion halves [n] until it is below the threshold.  The scratch space
    is used as the four consecutive parts [A] (P0, later X_diff and Y_diff), [Bp]
    (P2, later P1), [Rc] (for the recursive calls) and the unused rest. *)
Fixpoint KaratsubaMain (fuel : nat) (Zd X Y scratch : digits) (n : nat)
    : PM (digits * digits) :=
  match fuel with
  | O => lift (Err OutOfFuel)
  | S fuel =>
      if Z.of_nat n <? kKaratsubaThreshold then
        let X := Normalize X in
        let Y := Normalize Y in
        V ← (if bool_decide (length Y <= length X)%nat
             then MultiplySchoolbook (slice Zd 0 (2 * n)) X Y
             else MultiplySchoolbook (slice Zd 0 (2 * n)) Y X);
        mret (V ++ drop (2 * n) Zd, scratch)
      else
        lift (dcheck (bool_decide (4 * n <= length scratch)%nat));;
        lift (dcheck (Nat.even n));;
        let n2 := Nat.div2 n in
        let X0 := Digits_slice X 0 n2 in
        let X1 := Digits_slice X n2 n2 in
        let Y0 := Digits_slice Y 0 n2 in
        let Y1 := Digits_slice Y n2 n2 in
        let A := Digits_slice scratch 0 n in
        let Bp := Digits_slice scratch n n in
        let Rc := Digits_slice scratch (2 * n) (2 * n) in
        let rest := drop (4 * n) scratch in
        '(P0, Rc) ← KaratsubaMain fuel A X0 Y0 Rc n2;
        MAYBE_TERMINATE (Zd, P0 ++ Bp ++ Rc ++ rest) (
        '(Zd, _) ← lift (write_loop n 0 (fun i _ _ => d ← rd P0 i; mret (d, tt)) Zd tt);
        '(P2, Rc) ← KaratsubaMain fuel Bp X1 Y1 Rc n2;
        MAYBE_TERMINATE (Zd, P0 ++ P2 ++ Rc ++ rest) (
        Z2 ← lift (Digits_plus Zd n);
        let e := (length Z2 `min` length P2)%nat in
        '(Z2, _) ← lift (write_loop e 0 (fun i _ _ => d ← rd P2 i; mret (d, tt)) Z2 tt);
        let Zd := take n Zd ++ Z2 in
        lift (dcheck_zero_from P2 e n);;
        '(Zd, diffs, P1, Rc) ←
          KaratsubaMiddle (fun Z X Y s => KaratsubaMain fuel Z X Y s n2) n2 Zd X0 X1 Y0 Y1 P0 P2 Rc;
        mret (Zd, diffs ++ P1 ++ Rc ++ rest)))
  end.

(** [KaratsubaChunk], given [KaratsubaStart] for the recursive call. *)
Definition KaratsubaChunk_with
    (start : digits -> digits -> digits -> digits -> nat -> PM (digits * digits))
    (Zd X Y scratch : digits) : PM (digits * digits) :=
  let X := Normalize X in
  let Y := Normalize Y in
  if bool_decide (length X = 0 \/ length Y = 0)%nat then mret (Clear Zd, scratch)
  else
    let '(X, Y) := if bool_decide (length X < length Y)%nat then (Y, X) else (X, Y) in
    if bool_decide (length Y = 1)%nat then
      y ← lift (rd Y 0); V ← MultiplySingle Zd X y; mret (V, scratch)
    else if Z.of_nat (length Y) <? kKaratsubaThreshold then
      V ← MultiplySchoolbook Zd X Y; mret (V, scratch)
    else
      let k := karatsuba_len (length Y) in
      lift (dcheck (bool_decide (4 * k <= length scratch)%nat));;
      start Zd X Y scratch k.

(** [for (int i = k; i < X.len(); i += k) ...] of [KaratsubaStart]; [m] is the
    number of rounds left and [T] the temporary product. *)
Fixpoint KaratsubaStart_loop
    (chunk : digits -> digits -> digits -> digits -> PM (digits * digits))
    (m i k : nat) (X Y0 Y1 Zd T scratch : digits) : PM (digits * digits) :=
  match m with
  | O => mret (Zd, scratch)
  | S m =>
      if bool_decide (i < length X)%nat then
        let Xi := Digits_slice X i k in
        '(T, scratch) ← chunk T Xi Y0 scratch;
        MAYBE_TERMINATE (Zd, scratch) (
        '(Zd, _) ← lift (on_tail Zd i (fun V => AddAndReturnOverflow V T));
        if bool_decide (0 < length Y1)%nat then
          '(T, scratch) ← chunk T Xi Y1 scratch;
          MAYBE_TERMINATE (Zd, scratch) (
          '(Zd, _) ← lift (on_tail Zd (i + k) (fun V => AddAndReturnOverflow V T));
          KaratsubaStart_loop chunk m (i + k) k X Y0 Y1 Zd T scratch)
        else KaratsubaStart_loop chunk m (i + k) k X Y0 Y1 Zd T scratch)
      else mret (Zd, scratch)
  end.

Fixpoint KaratsubaStart (fuel : nat) (Zd X Y scratch : digits) (k : nat)
    : PM (digits * digits) :=
  match fuel with
  | O => lift (Err OutOfFuel)
  | S fuel =>
      '(Zd, scratch) ← KaratsubaMain (S k) Zd X Y scratch k;
      MAYBE_TERMINATE (Zd, scratch) (
      Zd ← lift (zero_from (2 * k) Zd);
      if bool_decide (k < length Y \/ length X <> length Y)%nat then
        let chunk := KaratsubaChunk_with (KaratsubaStart fuel) in
        let T := uninitialized (2 * k) in
        let X0 := Digits_slice X 0 k in
        Y1 ← lift (Digits_plus Y (k `min` length Y));
        let Y0 := Digits_slice Y 0 k in
        if bool_decide (0 < length Y1)%nat then
          '(T, scratch) ← chunk T X0 Y1 scratch;
          MAYBE_TERMINATE (Zd, scratch) (
          '(Zd, _) ← lift (on_tail Zd k (fun V => AddAndReturnOverflow V T));
          KaratsubaStart_loop chunk (length X) k k X Y0 Y1 Zd T scratch)
        else KaratsubaStart_loop chunk (length X) k k X Y0 Y1 Zd T scratch
      else mret (Zd, scratch))
  end.

(** [KaratsubaStart] calls itself, through [KaratsubaChunk], on operands whose
    shorter one is shorter or whose longer one fits a single chunk. *)
Definition karatsuba_fuel (Y : digits) : nat := (2 * length Y + 2)%nat.

Definition KaratsubaChunk (Zd X Y scratch : digits) : PM (digits * digits) :=
  KaratsubaChunk_with (KaratsubaStart (karatsuba_fuel X + karatsuba_fuel Y)) Zd X Y scratch.

Definition MultiplyKaratsuba (Zd X Y : digits) : PM digits :=
  lift (dcheck (bool_decide (length Y <= length X)%nat));;
  lift (dcheck (kKaratsubaThreshold <=? Z.of_nat (length Y)));;
  lift (dcheck (bool_decide (length X + length Y <= length Zd)%nat));;
  let k := karatsuba_len (length Y) in
  let scratch := uninitialized (4 * k) in
  '(Zd, _) ← KaratsubaStart (karatsuba_fuel Y) Zd X Y scratch k;
  mret Zd.

(** ** The padded length *)

Lemma BitLength_int_spec n :
  0 < n < 2 ^ 31 -> 2 ^ (BitLength_int n - 1) <= n < 2 ^ BitLength_int n.
Proof.
  intros Hn. unfold BitLength_int, CountLeadingZeros32. rewrite Z.mod_small by lia.
  destruct (Z.eqb_spec n 0); [lia|].
  replace (32 - (31 - Z.log2 n)) with (Z.succ (Z.log2 n)) by lia.
  replace (Z.succ (Z.log2 n) - 1) with (Z.log2 n) by lia. apply Z.log2_spec. lia.
Qed.

Lemma mod_divide_small a m m' :
  0 < m' -> (m' | m) -> 0 < m -> a mod m < m' -> a mod m' = a mod m.
Proof.
  intros Hm' Hd Hm Hlt. rewrite <- (Z.mod_mod_divide a m m' Hd).
  apply Z.mod_small. pose proof (Z.mod_pos_bound a m). lia.
Qed.

Lemma land_pred_pow2 n s : 0 <= s -> Z.land n (2 ^ s - 1) = n mod 2 ^ s.
Proof. intros. rewrite <- Z.land_ones by done. by rewrite Z.ones_equiv, Z.sub_1_r. Qed.

(** What the loop of [KaratsubaLength] computes. *)
Lemma KaratsubaLength_loop_spec fuel n i :
  0 <= i -> 0 <= n -> n / 2 ^ Z.of_nat fuel <= 34 ->
  exists j, 0 <= j /\ KaratsubaLength_loop fuel n i = n / 2 ^ j * 2 ^ (i + j) /\
    n / 2 ^ j <= 34 /\ (j = 0 \/ 34 < n / 2 ^ (j - 1)).
Proof.
  revert n i. induction fuel as [|fuel IH]; intros n i Hi Hn Hf; cbn [KaratsubaLength_loop].
  - change (2 ^ Z.of_nat 0) with 1 in Hf. rewrite Z.div_1_r in Hf. exists 0.
    rewrite Z.shiftl_mul_pow2, Z.add_0_r by lia. change (2 ^ 0) with 1.
    rewrite Z.div_1_r. auto with lia.
  - unfold kKaratsubaThreshold. destruct (Z.ltb_spec 34 n) as [Hlt | Hge].
    + rewrite Z.shiftr_div_pow2 by lia. change (2 ^ 1) with 2.
      destruct (IH (n / 2) (i + 1)) as (j & Hj & -> & Hle & Hor); [lia | apply Z.div_pos; lia | |].
      { rewrite Z.div_div by lia. rewrite Nat2Z.inj_succ, Z.pow_succ_r in Hf by lia. done. }
      exists (j + 1). rewrite Z.div_div in Hle |- * by lia.
      replace (2 ^ (j + 1)) with (2 * 2 ^ j) by (rewrite Z.pow_add_r by lia; lia).
      split_and!; [lia | do 2 f_equal; lia | done | right].
      replace (j + 1 - 1) with j by lia. destruct Hor as [-> | Hor].
      * change (2 ^ 0) with 1. by rewrite Z.div_1_r.
      * destruct (Z.eq_dec j 0) as [-> | ?]; [by rewrite Z.div_1_r|].
        rewrite Z.div_div in Hor by lia. replace j with (Z.succ (j - 1)) by lia.
        rewrite Z.pow_succ_r by lia. done.
    + exists 0. rewrite Z.shiftl_mul_pow2, Z.add_0_r by lia. change (2 ^ 0) with 1.
      rewrite Z.div_1_r. auto with lia.
Qed.

Lemma RoundUpLen_spec n :
  34 <= n < 2 ^ 31 ->
  exists s, 1 <= s /\ 12 * 2 ^ s <= n < 24 * 2 ^ s /\
    ((2 <= s /\ n mod 2 ^ s < 2 ^ (s - 2) /\ RoundUpLen n = n) \/
     RoundUpLen n = (n + (2 ^ s - 1)) / 2 ^ s * 2 ^ s).
Proof.
  intros Hn. unfold RoundUpLen. destruct (Z.leb_spec n 36) as [H36 | H36].
  { exists 1. split; [lia|]. assert (n = 34 \/ n = 35 \/ n = 36) as [-> | [-> | ->]] by lia;
      (split; [lia | by right]). }
  pose proof (BitLength_int_spec n) as [Hb1 Hb2]; [lia|].
  set (b := BitLength_int n) in *.
  assert (6 <= b) as Hb.
  { destruct (Z.lt_ge_cases b 6) as [Hlt |]; [|done].
    pose proof (Z.pow_le_mono_r 2 b 5). lia. }
  assert (exists s, 1 <= s /\ 12 * 2 ^ s <= n < 24 * 2 ^ s /\
    (if 24 <=? Z.shiftr n (b - 5) then b - 5 + 1 else b - 5) = s) as (s & Hs & Hns & ->).
  { rewrite Z.shiftr_div_pow2 by lia.
    assert (2 ^ (b - 1) = 16 * 2 ^ (b - 5)) as E1
      by (replace (b - 1) with (4 + (b - 5)) by lia; rewrite Z.pow_add_r by lia; lia).
    assert (2 ^ b = 32 * 2 ^ (b - 5)) as E2
      by (replace b with (5 + (b - 5)) at 1 by lia; rewrite Z.pow_add_r by lia; lia).
    rewrite E1, E2 in *. pose proof (Z.pow_pos_nonneg 2 (b - 5)).
    destruct (Z.leb_spec 24 (n / 2 ^ (b - 5))) as [Hge | Hlt].
    - exists (b - 5 + 1). rewrite Z.pow_add_r by lia.
      assert (24 * 2 ^ (b - 5) <= n).
      { rewrite Z.mul_comm. etransitivity; [apply Z.mul_le_mono_nonneg_l, Hge; lia|].
        apply Z.mul_div_le. lia. }
      split_and!; lia.
    - exists (b - 5). pose proof (Z.mul_succ_div_gt n (2 ^ (b - 5))). split_and!; nia. }
  exists s. split; [done|]. split; [lia|].
  rewrite (Z.shiftl_mul_pow2 1 s), (Z.shiftl_mul_pow2 _ s), Z.mul_1_l by lia.
  rewrite (land_pred_pow2 n s) by lia.
  destruct (Z.leb_spec 2 s); cbn [andb].
  - rewrite Z.shiftl_mul_pow2, Z.mul_1_l by lia.
    destruct (Z.ltb_spec (n mod 2 ^ s) (2 ^ (s - 2))); [by left | right].
    by rewrite Z.shiftr_div_pow2 by lia.
  - right. by rewrite Z.shiftr_div_pow2 by lia.
Qed.

(** The padded length is a multiple [c * 2^s] of a power of two, next to [n], with a
    small factor [c]. *)
Lemma KaratsubaLength_spec n :
  34 <= n < 2 ^ 31 ->
  exists s c, 1 <= s /\ 12 * 2 ^ s <= n < 24 * 2 ^ s /\ KaratsubaLength n = c * 2 ^ s /\
    n - 2 ^ s < c * 2 ^ s < n + 2 ^ s /\ 34 <= c * 2 ^ s.
Proof.
  intros Hn. destruct (RoundUpLen_spec n Hn) as (s & Hs & Hns & HR).
  pose proof (Z.pow_pos_nonneg 2 s) as Hp. unfold KaratsubaLength.
  assert (forall R : Z, n <= R <= 24 * 2 ^ s -> exists j, 0 <= j <= s /\
    KaratsubaLength_loop 32 R 0 = R / 2 ^ j * 2 ^ j /\ (s - 1 <= j \/ R / 2 ^ j <= 34)) as Hloop.
  { intros R HRb. assert (2 ^ s <= 2 ^ 31).
    { pose proof (Z.pow_lt_mono_r_iff 2 s 31). lia. }
    destruct (KaratsubaLength_loop_spec 32 R 0) as (j & Hj & E & Hle & Hor); [lia | lia | |].
    { change (Z.of_nat 32) with 32. apply Z.div_le_upper_bound; lia. }
    exists j. rewrite E, Z.add_0_l. split_and!; [lia | | done | by right].
    destruct (Z.lt_ge_cases s j) as [Hlt |]; [|done].
    destruct Hor as [-> | Hor]; [lia|]. exfalso.
    assert (R / 2 ^ (j - 1) <= 24); [|lia].
    apply Z.div_le_upper_bound; [lia|].
    pose proof (Z.pow_le_mono_r 2 s (j - 1)). lia. }
  destruct HR as [(Hs2 & Hmod & ->) | ->].
  - destruct (Hloop n) as (j & Hj & E & Hor); [lia|].
    exists s, (n / 2 ^ s). rewrite E.
    assert (2 ^ s = 4 * 2 ^ (s - 2)) as E4
      by (replace s with (2 + (s - 2)) at 1 by lia; rewrite Z.pow_add_r by lia; lia).
    assert (s - 2 <= j) as Hj2.
    { destruct (Z.lt_ge_cases j (s - 2)) as [Hlt |]; [|done]. destruct Hor as [|Hor]; [lia|].
      pose proof (Z.pow_lt_mono_r 2 j (s - 2)). pose proof (Z.pow_pos_nonneg 2 j).
      pose proof (Z.div_mod n (2 ^ j)). pose proof (Z.mod_pos_bound n (2 ^ j)). nia. }
    assert (n mod 2 ^ j = n mod 2 ^ s) as Emod.
    { apply mod_divide_small; [lia | | lia |].
      - exists (2 ^ (s - j)). rewrite <- Z.pow_add_r by lia. f_equal. lia.
      - pose proof (Z.pow_le_mono_r 2 (s - 2) j). lia. }
    pose proof (Z.div_mod n (2 ^ s)). pose proof (Z.div_mod n (2 ^ j)).
    pose proof (Z.pow_pos_nonneg 2 j). pose proof (Z.mod_pos_bound n (2 ^ s)).
    pose proof (Z.pow_le_mono_r 2 2 s). split_and!; lia.
  - set (c := (n + (2 ^ s - 1)) / 2 ^ s).
    pose proof (Z.div_mod (n + (2 ^ s - 1)) (2 ^ s)) as Ediv. fold c in Ediv.
    pose proof (Z.mod_pos_bound (n + (2 ^ s - 1)) (2 ^ s)).
    assert (c < 25) by (apply Z.div_lt_upper_bound; lia).
    destruct (Hloop (c * 2 ^ s)) as (j & Hj & E & _); [nia|].
    exists s, c. rewrite E. split_and!; try lia.
    rewrite Z.mul_comm. symmetry. apply Z_div_exact_2.
    + pose proof (Z.pow_pos_nonneg 2 j). lia.
    + apply Z.mod_divide; [pose proof (Z.pow_pos_nonneg 2 j); lia|].
      apply Z.divide_mul_r. exists (2 ^ (s - j)). rewrite <- Z.pow_add_r by lia. f_equal. lia.
Qed.

(** ** Steps of the main recursion *)

(** Without the advanced algorithms an interrupt makes the code return early, so
    the result is only specified for a processor nobody interrupts. *)
Definition steady (p : ProcessorImpl) : Prop :=
  V8_ADVANCED_BIGINT_ALGORITHMS = true \/ uninterrupted p.

Lemma steady_le p p' : status_le p p' -> steady p -> steady p'.
Proof. intros Hle [? | Hu]; [by left | right]. by eapply uninterrupted_le. Qed.

Lemma wpP_MAYBE_TERMINATE {A} (r : A) rest p (Q : A -> ProcessorImpl -> Prop) :
  steady p -> wpP rest p Q -> wpP (MAYBE_TERMINATE r rest) p Q.
Proof.
  intros [Hadv | [Hok _]] Hrest; unfold MAYBE_TERMINATE.
  - by rewrite Hadv.
  - destruct V8_ADVANCED_BIGINT_ALGORITHMS; [done|].
    apply wpP_bind, wpP_should_terminate. by rewrite Hok.
Qed.

Lemma wp_dcheck_decide (Pr : Prop) `{Decision Pr} (Q : unit -> Prop) :
  Pr -> Q tt -> wp (dcheck (bool_decide Pr)) Q.
Proof. intros. apply wp_dcheck; [by apply bool_decide_eq_true | done]. Qed.

Lemma wp_Digits_plus X i (Q : digits -> Prop) :
  (i <= length X)%nat -> Q (drop i X) -> wp (Digits_plus X i) Q.
Proof. intros. unfold Digits_plus. by apply wp_bind, wp_dcheck_decide. Qed.

Lemma KaratsubaSubtractionHelper_spec result X Y sign :
  digits_ok X -> digits_ok Y -> (length X <= length result)%nat ->
  (length Y <= length result)%nat -> sign = 1 \/ sign = -1 ->
  wp (KaratsubaSubtractionHelper result X Y sign) (fun '(r, sign') =>
    length r = length result /\ digits_ok r /\ (sign' = 1 \/ sign' = -1) /\
    sign' * val r = sign * (val X - val Y)).
Proof.
  intros HX HY HlX HlY Hsign. unfold KaratsubaSubtractionHelper.
  rewrite <- (val_Normalize X), <- (val_Normalize Y).
  pose proof (length_Normalize X). pose proof (length_Normalize Y).
  pose proof (normalized_Normalize X) as NX. pose proof (normalized_Normalize Y) as NY.
  apply digits_ok_Normalize in HX, HY.
  set (X' := Normalize X) in *. set (Y' := Normalize Y) in *.
  apply wp_bind. eapply wp_mono; [by apply GreaterThanOrEqual_spec|]. intros ge ->.
  (* after the swap *)
  assert (forall A B sgn, digits_ok A -> digits_ok B -> normalized B -> val B <= val A ->
    (length A <= length result)%nat -> (sgn = 1 \/ sgn = -1) ->
    wp ('(result, borrow) ← write_loop (length B) 0
          (fun i _ borrow => x ← rd A i; y ← rd B i; mret (digit_sub2 x y borrow)) result 0;
        '(result, borrow) ← write_loop (length A - length B) (length B)
          (fun i _ borrow => x ← rd A i; mret (digit_sub x borrow)) result borrow;
        dcheck (borrow =? 0);;
        result ← zero_from (length A) result;
        mret (result, sgn)) (fun '(r, sign') =>
      length r = length result /\ digits_ok r /\ (sign' = 1 \/ sign' = -1) /\
      sign' * val r = sgn * (val A - val B))) as Hcore.
  { intros A B sgn HA HB NB Hv HlA Hsgn.
    pose proof (normalized_length_le B A HB HA NB Hv).
    apply (wp_subtract_loops result A B (fun r => result ← zero_from (length A) r; mret (result, sgn)));
      [done..|]. intros P HlP HP HvP.
    apply wp_bind, wp_zero_from; [done|]. apply wp_ret.
    rewrite !length_app, length_replicate, !length_drop, val_app_zeros, HvP.
    split_and!; [lia | by auto with digits | done | lia]. }
  destruct (Z.leb_spec (val Y') (val X')) as [Hle | Hlt].
  - apply Hcore; (done || lia).
  - eapply wp_mono; [apply Hcore; [done | done | done | lia | lia | lia]|].
    intros [r sign'] (? & ? & ? & ?). split_and!; [done | done | done | lia].
Qed.

Lemma wp_on_tail Zd off op (Q : digits * Z -> Prop) :
  (off <= length Zd)%nat ->
  wp (op (drop off Zd)) (fun '(t, c) => Q (take off Zd ++ t, c)) ->
  wp (on_tail Zd off op) Q.
Proof.
  intros Hoff Hop. unfold on_tail. apply wp_bind, wp_Digits_plus; [done|].
  apply wp_bind. eapply wp_mono; [exact Hop|]. intros [t c] HQ. by apply wp_ret.
Qed.

(** Replacing the part from [off] on by one of the same length and value [v]. *)
Lemma val_on_tail Zd off t :
  (off <= length Zd)%nat -> length t = length (drop off Zd) ->
  val (take off Zd ++ t) = val Zd + bpow off * (val t - val (drop off Zd)) /\
  length (take off Zd ++ t) = length Zd.
Proof.
  intros Hoff Hl. rewrite (val_split Zd off).
  rewrite val_app, length_app, length_take, Hl, length_drop, Nat.min_l by done. split; lia.
Qed.

Lemma on_tail_add Zd off P :
  digits_ok Zd -> digits_ok P -> (off + length (Normalize P) <= length Zd)%nat ->
  wp (on_tail Zd off (fun V => AddAndReturnOverflow V P)) (fun '(Z', c) =>
    length Z' = length Zd /\ digits_ok Z' /\ 0 <= c <= 1 /\
    val Z' + c * bpow (length Zd) = val Zd + bpow off * val P).
Proof.
  intros HZ HP Hl. apply wp_on_tail; [lia|].
  eapply wp_mono; [apply AddAndReturnOverflow_spec; [by auto with digits | done |]|].
  { rewrite length_drop. lia. }
  intros [t c] (Hlt & Ht & Hc & HV).
  destruct (val_on_tail Zd off t) as [-> ->]; [lia | done|].
  split_and!; [done | by auto with digits | lia | lia |].
  rewrite length_drop in HV. replace (length Zd) with (off + (length Zd - off))%nat by lia.
  rewrite bpow_add. scale_by_weight HV off. lia.
Qed.

Lemma on_tail_sub Zd off P :
  digits_ok Zd -> digits_ok P -> (off + length (Normalize P) <= length Zd)%nat ->
  wp (on_tail Zd off (fun V => SubAndReturnBorrow V P)) (fun '(Z', c) =>
    length Z' = length Zd /\ digits_ok Z' /\ 0 <= c <= 1 /\
    val Z' - c * bpow (length Zd) = val Zd - bpow off * val P).
Proof.
  intros HZ HP Hl. apply wp_on_tail; [lia|].
  eapply wp_mono; [apply SubAndReturnBorrow_spec; [by auto with digits | done |]|].
  { rewrite length_drop. lia. }
  intros [t c] (Hlt & Ht & Hc & HV).
  destruct (val_on_tail Zd off t) as [-> ->]; [lia | done|].
  split_and!; [done | by auto with digits | lia | lia |].
  rewrite length_drop in HV. replace (length Zd) with (off + (length Zd - off))%nat by lia.
  rewrite bpow_add. scale_by_weight HV off. lia.
Qed.

(** A number below [bpow e] has only zeros from index [e] on. *)
Lemma val_small_drop P e :
  digits_ok P -> val P < bpow e ->
  drop e P = replicate (length P - e) 0 /\ val (take e P) = val P.
Proof.
  intros HP Hv. rewrite (val_split P e) in Hv |- *. rewrite length_take in *.
  assert (val (drop e P) = 0) as E0.
  { destruct (Nat.le_gt_cases (length P) e) as [|Hlt]; [by rewrite drop_ge|].
    rewrite Nat.min_l in Hv by lia.
    pose proof (val_nonneg _ (digits_ok_take e P HP)).
    pose proof (val_nonneg _ (digits_ok_drop e P HP)). pose proof (bpow_pos e). nia. }
  rewrite E0. split; [|lia]. apply val_inj; [by auto with digits..| |].
  - by rewrite length_drop, length_replicate.
  - by rewrite val_replicate_0.
Qed.

Lemma wp_dcheck_zero_from P2 e n (Q : unit -> Prop) :
  digits_ok P2 -> val P2 < bpow e -> length P2 = n -> Q tt -> wp (dcheck_zero_from P2 e n) Q.
Proof.
  intros HP Hv Hl HQ. unfold dcheck_zero_from.
  eapply wp_mono; [apply (wp_for_loop (fun _ _ => True)); [done|] | by intros []].
  intros k _ Hk _. apply wp_bind, wp_rd; [lia | done|]. intros d Hd _.
  destruct (val_small_drop P2 e HP Hv) as [E _].
  assert (drop e P2 !! (k - e)%nat = Some d) as Hd'
    by (rewrite lookup_drop; by replace (e + (k - e))%nat with k by lia).
  rewrite E in Hd'. apply lookup_replicate in Hd' as [-> _]. by apply wp_dcheck.
Qed.

Lemma val_take_add a b X :
  val (take (a + b) X) = val (take a X) + bpow a * val (slice X a b).
Proof.
  unfold slice. destruct (Nat.le_gt_cases (length X) a) as [Hle | Hgt].
  - rewrite drop_ge, !take_ge by (simpl; lia). simpl. lia.
  - rewrite (val_split (take (a + b) X) a), take_take, Nat.min_l, length_take by lia.
    rewrite Nat.min_l by lia. by rewrite <- take_drop_commute.
Qed.

(** ** The main recursion *)

(** The lengths the recursion is called with: small enough for one schoolbook
    multiplication, or a result vector that holds the three partial products. *)
Definition main_pre (n : nat) (Zd X Y : digits) : Prop :=
  digits_ok Zd /\ digits_ok X /\ digits_ok Y /\
  if Z.of_nat n <? kKaratsubaThreshold
  then (length X <= n)%nat /\ (length Y <= n)%nat /\ (2 * n <= length Zd)%nat
  else (n + Nat.div2 n <= length Zd)%nat /\
       val (take n X) * val (take n Y) < bpow (length Zd).

Definition main_post (n : nat) (Zd X Y scratch : digits) (p : ProcessorImpl)
    (r : digits * digits) (p' : ProcessorImpl) : Prop :=
  status_le p p' /\ length (r.1) = length Zd /\ digits_ok (r.1) /\
  length (r.2) = length scratch /\ digits_ok (r.2) /\
  val (r.1) = val (take n X) * val (take n Y) + bpow (2 * n) * val (drop (2 * n) Zd).

Definition main_spec (n : nat) (f : digits -> digits -> digits -> digits -> PM (digits * digits))
    : Prop :=
  forall Zd X Y scratch p, steady p -> main_pre n Zd X Y -> digits_ok scratch ->
    (4 * n <= length scratch)%nat ->
    wpP (f Zd X Y scratch) p (main_post n Zd X Y scratch p).

Lemma main_pre_half n Zd X Y :
  digits_ok Zd -> digits_ok X -> digits_ok Y ->
  (length X <= n)%nat -> (length Y <= n)%nat -> length Zd = (2 * n)%nat -> main_pre n Zd X Y.
Proof.
  intros HZ HX HY HlX HlY HlZ. split_and!; [done..|].
  destruct (Z.of_nat n <? kKaratsubaThreshold); [lia|].
  rewrite !take_ge by lia. split.
  - rewrite HlZ. pose proof (Nat.div2_decr n n). lia.
  - rewrite HlZ. replace (2 * n)%nat with (n + n)%nat by lia. rewrite bpow_add.
    pose proof (val_bounds X HX). pose proof (val_bounds Y HY).
    pose proof (bpow_le (length X) n HlX). pose proof (bpow_le (length Y) n HlY). nia.
Qed.

Lemma KaratsubaMain_base n Zd X Y scratch p :
  (Z.of_nat n <? kKaratsubaThreshold) = true -> main_pre n Zd X Y -> digits_ok scratch ->
  wpP (V ← (if bool_decide (length (Normalize Y) <= length (Normalize X))%nat
            then MultiplySchoolbook (slice Zd 0 (2 * n)) (Normalize X) (Normalize Y)
            else MultiplySchoolbook (slice Zd 0 (2 * n)) (Normalize Y) (Normalize X));
       mret (V ++ drop (2 * n) Zd, scratch)) p (main_post n Zd X Y scratch p).
Proof.
  intros Hn (HZ & HX & HY & Hpre) Hs. rewrite Hn in Hpre. destruct Hpre as (HlX & HlY & HlZ).
  apply Z.ltb_lt in Hn. unfold kKaratsubaThreshold in Hn.
  pose proof (length_Normalize X). pose proof (length_Normalize Y).
  assert (length (slice Zd 0 (2 * n)) = (2 * n)%nat) as El by (rewrite length_slice; lia).
  apply wpP_bind. eapply (wpP_mono _ _ (fun Z' p' => status_le p p' /\
    length Z' = (2 * n)%nat /\ digits_ok Z' /\ val Z' = val X * val Y)).
  { case_bool_decide;
      (eapply wpP_mono; [apply MultiplySchoolbook_spec; unfold int_len;
         [by auto with digits | by auto with digits | by auto with digits | by auto with digits
         | lia | lia | rewrite El; lia]|]);
      intros Z' p' (? & ? & ? & E); rewrite !val_Normalize in E; split_and!; (done || lia). }
  intros V p' (Hle & HlV & HV & EV). apply wpP_ret. unfold main_post; cbn [fst snd].
  rewrite length_app, length_drop, val_app, HlV, EV, !(take_ge X), !(take_ge Y) by lia.
  split_and!; [done | lia | by auto with digits | done | done | lia].
Qed.

(** [Z] after [P0] and [P2] have been copied into it. *)
Lemma val_copied n Zd P0 P2 :
  digits_ok P2 -> length P0 = n -> length P2 = n -> (n <= length Zd)%nat ->
  val P2 < bpow (length Zd - n) ->
  let e := ((length Zd - n) `min` n)%nat in
  val (P0 ++ take e P2 ++ drop e (drop n Zd)) =
    val P0 + bpow n * val P2 + bpow (2 * n) * val (drop (2 * n) Zd) /\
  length (P0 ++ take e P2 ++ drop e (drop n Zd)) = length Zd.
Proof.
  intros HP2 Hl0 Hl2 HlZ Hv e. rewrite !val_app, !length_app, length_take, Hl0, Hl2, !drop_drop.
  rewrite length_drop. split; [|lia].
  destruct (val_small_drop P2 e HP2) as [_ ->].
  { pose proof (val_bounds _ HP2) as [_ Hb]. rewrite Hl2 in Hb. unfold e.
    by destruct (Nat.min_spec (length Zd - n) n) as [[_ ->] | [_ ->]]. }
  destruct (Nat.le_gt_cases (2 * n) (length Zd)).
  - replace e with n by lia. rewrite Nat.min_l by lia.
    replace (n + n)%nat with (2 * n)%nat by lia. replace (2 * n)%nat with (n + n)%nat by lia.
    rewrite bpow_add. lia.
  - rewrite !drop_ge by lia. simpl. lia.
Qed.

(** The algebra of the recursion, with the carries out of [L] digits. *)
Lemma karatsuba_combine (X0 X1 Y0 Y1 b m G c s P1 z L : Z) :
  s * P1 = (X1 - X0) * (Y0 - Y1) -> 0 <= z < L ->
  0 <= (X0 + b * X1) * (Y0 + b * Y1) + m * G < L ->
  z + c * L = X0 * Y0 + b * b * (X1 * Y1) + m * G + b * (X0 * Y0) + b * (X1 * Y1) + b * (s * P1) ->
  c = 0 /\ z = (X0 + b * X1) * (Y0 + b * Y1) + m * G.
Proof.
  intros Hs Hz HT HV. rewrite Hs in HV.
  assert (z + c * L = (X0 + b * X1) * (Y0 + b * Y1) + m * G) as E by lia.
  assert (c = 0) as -> by nia. lia.
Qed.

Lemma div2_even n : Nat.even n = true -> n = (2 * Nat.div2 n)%nat.
Proof. intros He. rewrite (Nat.div2_odd n) at 1. unfold Nat.odd. rewrite He. simpl. lia. Qed.

Lemma main_product_bound n Zd X Y :
  digits_ok Zd -> digits_ok X -> digits_ok Y ->
  val (take n X) * val (take n Y) < bpow (length Zd) ->
  0 <= val (take n X) * val (take n Y) + bpow (2 * n) * val (drop (2 * n) Zd)
    < bpow (length Zd).
Proof.
  intros HZ HX HY Hprod.
  pose proof (val_bounds _ (digits_ok_take n X HX)) as BX.
  pose proof (val_bounds _ (digits_ok_take n Y HY)) as BY.
  pose proof (val_bounds _ (digits_ok_drop (2 * n) Zd HZ)) as BZ.
  rewrite length_take in BX, BY. rewrite length_drop in BZ.
  pose proof (bpow_pos (2 * n)).
  destruct (Nat.le_gt_cases (length Zd) (2 * n)) as [Hle | Hgt].
  - rewrite (drop_ge Zd) in * by lia. cbn [val] in *. nia.
  - replace (length Zd) with (2 * n + (length Zd - 2 * n))%nat at 1 by lia. rewrite bpow_add.
    assert (val (take n X) * val (take n Y) < bpow (2 * n)); [|nia].
    pose proof (bpow_le (n `min` length X) n). pose proof (bpow_le (n `min` length Y) n).
    replace (2 * n)%nat with (n + n)%nat by lia. rewrite bpow_add. nia.
Qed.

(** A recursive call: operands of [n] digits, a result of [2n]. *)
Lemma main_spec_half n f Zd X Y scratch p :
  main_spec n f -> steady p -> digits_ok Zd -> digits_ok X -> digits_ok Y -> digits_ok scratch ->
  (length X <= n)%nat -> (length Y <= n)%nat -> length Zd = (2 * n)%nat ->
  length scratch = (4 * n)%nat ->
  wpP (f Zd X Y scratch) p (fun '(Z', s') p' => status_le p p' /\ steady p' /\
    length Z' = (2 * n)%nat /\ digits_ok Z' /\ length s' = (4 * n)%nat /\ digits_ok s' /\
    val Z' = val X * val Y).
Proof.
  intros Hf Hst HZ HX HY Hs HlX HlY HlZ Hls.
  eapply wpP_mono; [apply Hf; [done | by apply main_pre_half | done | lia]|].
  intros [Z' s'] p' (Hle & ? & ? & ? & ? & E). cbn [fst snd] in *.
  rewrite !take_ge, drop_ge in E by lia. cbn [val] in E.
  split_and!; [done | by eapply steady_le | lia | done | lia | done | lia].
Qed.

Lemma KaratsubaMiddle_spec rec n2 Zd X0 X1 Y0 Y1 P0 P2 Rc G p :
  main_spec n2 rec -> steady p ->
  digits_ok Zd -> digits_ok X0 -> digits_ok X1 -> digits_ok Y0 -> digits_ok Y1 ->
  digits_ok P0 -> digits_ok P2 -> digits_ok Rc ->
  (length X0 <= n2)%nat -> (length X1 <= n2)%nat -> (length Y0 <= n2)%nat ->
  (length Y1 <= n2)%nat -> length P0 = (2 * n2)%nat -> length P2 = (2 * n2)%nat ->
  length Rc = (4 * n2)%nat -> (3 * n2 <= length Zd)%nat ->
  val P0 = val X0 * val Y0 -> val P2 = val X1 * val Y1 ->
  val Zd = val P0 + bpow (2 * n2) * val P2 + bpow (4 * n2) * G ->
  0 <= (val X0 + bpow n2 * val X1) * (val Y0 + bpow n2 * val Y1) + bpow (4 * n2) * G
    < bpow (length Zd) ->
  wpP (KaratsubaMiddle rec n2 Zd X0 X1 Y0 Y1 P0 P2 Rc) p (fun '(Z', D, P1, Rc') p' =>
    status_le p p' /\ length Z' = length Zd /\ digits_ok Z' /\ length D = (2 * n2)%nat /\
    digits_ok D /\ length P1 = (2 * n2)%nat /\ digits_ok P1 /\ length Rc' = (4 * n2)%nat /\
    digits_ok Rc' /\
    val Z' = (val X0 + bpow n2 * val X1) * (val Y0 + bpow n2 * val Y1) + bpow (4 * n2) * G).
Proof.
  intros Hrec Hst HZ HX0 HX1 HY0 HY1 HP0 HP2 HR HlX0 HlX1 HlY0 HlY1 Hl0 Hl2 HlR HlZ E0 E2 EZ HT.
  unfold KaratsubaMiddle, Digits_slice.
  pose proof (length_Normalize P0). pose proof (length_Normalize P2).
  apply wpP_bind, wpP_lift. eapply wp_mono; [apply on_tail_add; [done | done | lia]|].
  intros [Za ca] (Hla & HZa & Hca & EZa).
  apply wpP_bind, wpP_lift. eapply wp_mono; [apply on_tail_add; [done | done | lia]|].
  intros [Zb cb] (Hlb & HZb & Hcb & EZb). rewrite Hla in Hlb, EZb.
  apply wpP_bind, wpP_lift. eapply wp_mono.
  { apply KaratsubaSubtractionHelper_spec; [done | done | rewrite length_slice; lia..| by left]. }
  intros [Xd s1] (HlXd & HXd & Hs1 & EXd).
  apply wpP_bind, wpP_lift. eapply wp_mono.
  { apply KaratsubaSubtractionHelper_spec; [done | done | rewrite length_slice; lia..| done]. }
  intros [Yd s2] (HlYd & HYd & Hs2 & EYd). rewrite length_slice in HlXd, HlYd.
  apply wpP_bind. eapply wpP_mono.
  { apply (main_spec_half _ _ _ _ _ _ _ Hrec); (done || lia). }
  intros [P1 R1] p1 (Hle1 & Hst1 & Hl1 & HP1 & HlR1 & HR1 & EP1).
  assert (s2 * val P1 = (val X1 - val X0) * (val Y0 - val Y1)) as EP.
  { rewrite EP1. replace (s2 * (val Xd * val Yd)) with (val Xd * (s2 * val Yd)) by lia.
    rewrite EYd. lia. }
  assert (bpow (2 * n2) = bpow n2 * bpow n2) as Eb2
    by (replace (2 * n2)%nat with (n2 + n2)%nat by lia; apply bpow_add).
  pose proof (length_Normalize P1).
  apply wpP_bind. eapply (wpP_mono _ _ (fun '(Zf, o) p' => p' = p1 /\ length Zf = length Zd /\
    digits_ok Zf /\ o = 0 /\ val Zf =
      (val X0 + bpow n2 * val X1) * (val Y0 + bpow n2 * val Y1) + bpow (4 * n2) * G)).
  { assert (forall Zf cc o, length Zf = length Zd -> digits_ok Zf -> o = wrap cc ->
      val Zf + cc * bpow (length Zd) = val Zb + (ca + cb) * bpow (length Zd) + bpow n2 * (s2 * val P1) ->
      p1 = p1 /\ length Zf = length Zd /\ digits_ok Zf /\ o = 0 /\ val Zf =
      (val X0 + bpow n2 * val X1) * (val Y0 + bpow n2 * val Y1) + bpow (4 * n2) * G) as Hfin.
    { intros Zf cc o HlZf HZf -> EZf. pose proof (val_bounds _ HZf) as Bf. rewrite HlZf in Bf.
      destruct (karatsuba_combine (val X0) (val X1) (val Y0) (val Y1) (bpow n2) (bpow (4 * n2)) G
        cc s2 (val P1) (val Zf) (bpow (length Zd))) as [-> ->]; [done | done | done | |].
      - rewrite EZf, <- E0, <- E2. rewrite Eb2 in EZ. lia.
      - split_and!; (done || by apply wrap_small). }
    destruct (Z.ltb_spec 0 s2).
    - apply wpP_bind, wpP_lift. eapply wp_mono; [apply on_tail_add; [done | done | lia]|].
      intros [Zf cf] (Hlf & HZf & Hcf & EZf). rewrite Hlb in Hlf, EZf. apply wpP_ret.
      apply (Hfin Zf (ca + cb + cf)); [lia | done | |].
      + unfold wrap. by rewrite Zplus_mod_idemp_l.
      + assert (s2 = 1) as -> by lia. lia.
    - apply wpP_bind, wpP_lift. eapply wp_mono; [apply on_tail_sub; [done | done | lia]|].
      intros [Zf cf] (Hlf & HZf & Hcf & EZf). rewrite Hlb in Hlf, EZf. apply wpP_ret.
      apply (Hfin Zf (ca + cb - cf)); [lia | done | |].
      + unfold wrap. by rewrite Zminus_mod_idemp_l.
      + assert (s2 = -1) as -> by lia. lia. }
  intros [Zf o] ? (-> & Hlf & HZf & -> & EZf).
  apply wpP_bind, wpP_lift, wp_dcheck; [done|]. apply wpP_ret.
  rewrite length_app. split_and!; (done || by auto with digits || lia).
Qed.

Lemma KaratsubaMain_step fuel n :
  (Z.of_nat n <? kKaratsubaThreshold) = false -> Nat.even n = true ->
  main_spec (Nat.div2 n) (fun Zd X Y scratch => KaratsubaMain fuel Zd X Y scratch (Nat.div2 n)) ->
  main_spec n (fun Zd X Y scratch => KaratsubaMain (S fuel) Zd X Y scratch n).
Proof.
  intros Hn Hev IH Zd X Y scratch p Hst (HZ & HX & HY & Hpre) Hs Hls.
  rewrite Hn in Hpre. destruct Hpre as [HlZ Hprod].
  cbn [KaratsubaMain]. rewrite Hn.
  apply wpP_bind, wpP_lift, wp_dcheck_decide; [done|].
  apply wpP_bind, wpP_lift, wp_dcheck; [done|].
  apply div2_even in Hev. set (n2 := Nat.div2 n) in *. unfold Digits_slice.
  assert (Hhalf : forall V : digits, (length (slice V 0 n2) <= n2)%nat /\ (length (slice V n2 n2) <= n2)%nat)
    by (intros V; rewrite !length_slice; lia).
  pose proof (main_product_bound n Zd X Y HZ HX HY Hprod) as HT.
  assert (forall V : digits, val (take n V) = val (slice V 0 n2) + bpow n2 * val (slice V n2 n2)) as Hsplit.
  { intros V. rewrite Hev. replace (2 * n2)%nat with (n2 + n2)%nat by lia. apply val_take_add. }
  rewrite !Hsplit in HT, Hprod.
  pose proof (digits_ok_slice X 0 n2 HX) as HX0. pose proof (digits_ok_slice X n2 n2 HX) as HX1.
  pose proof (digits_ok_slice Y 0 n2 HY) as HY0. pose proof (digits_ok_slice Y n2 n2 HY) as HY1.
  set (X0 := slice X 0 n2) in *. set (X1 := slice X n2 n2) in *.
  set (Y0 := slice Y 0 n2) in *. set (Y1 := slice Y n2 n2) in *.
  destruct (Hhalf X) as [HlX0 HlX1], (Hhalf Y) as [HlY0 HlY1]. fold X0 X1 Y0 Y1 in HlX0, HlX1, HlY0, HlY1.
  (* P0 *)
  apply wpP_bind. eapply wpP_mono.
  { apply (main_spec_half _ _ _ _ _ _ _ IH); (by auto with digits) || (rewrite ?length_slice; lia). }
  intros [P0 R0] p0 (Hle0 & Hst0 & Hl0 & HP0 & HlR0 & HR0 & HV0).
  apply wpP_MAYBE_TERMINATE; [done|].
  apply wpP_bind, wpP_lift. rewrite <- (app_nil_l Zd) at 1.
  rewrite <- Hev in Hl0. rewrite <- Hl0 at 1. replace (length P0) with (length P0 - 0)%nat by lia.
  apply wp_copy_loop; [done | done | constructor | lia | lia |].
  rewrite drop_0, Nat.sub_0_r, Hl0. cbn [app].
  (* P2 *)
  apply wpP_bind. eapply wpP_mono.
  { apply (main_spec_half _ _ _ _ _ _ _ IH); (by auto with digits) || (rewrite ?length_slice; lia). }
  intros [P2 R2] p2 (Hle2 & Hst2 & Hl2 & HP2 & HlR2 & HR2 & HV2).
  apply wpP_MAYBE_TERMINATE; [done|].
  rewrite <- Hev in Hl2.
  assert (Hsmall : val P2 < bpow (length Zd - n)).
  { apply (mul_lt_cancel _ _ (bpow n)); [apply bpow_pos|].
    rewrite <- bpow_add. replace (length Zd - n + n)%nat with (length Zd) by lia.
    eapply Z.le_lt_trans; [|exact Hprod]. rewrite Hev.
    replace (2 * n2)%nat with (n2 + n2)%nat by lia. rewrite bpow_add, HV2.
    pose proof (val_nonneg _ HX0). pose proof (val_nonneg _ HX1). pose proof (val_nonneg _ HY0).
    pose proof (val_nonneg _ HY1). pose proof (bpow_pos n2). nia. }
  apply wpP_bind, wpP_lift, wp_Digits_plus; [rewrite length_app; lia|].
  rewrite (drop_app_length' P0) by done. cbv zeta. rewrite length_drop, Hl2.
  apply wpP_bind, wpP_lift.
  destruct (val_copied n Zd P0 P2 HP2 Hl0 Hl2 ltac:(lia) Hsmall) as [HVc Hlc].
  set (e := ((length Zd - n) `min` n)%nat) in *.
  rewrite <- (app_nil_l (drop n Zd)).
  eapply wp_write_loop with (J := fun k Z' _ => Z' = take k P2);
    [done | rewrite length_drop; lia | constructor | done | |].
  { intros k Z' [] Hk HlZ' HZ' ->. apply wp_bind, wp_rd; [lia | done |]. intros d Hd Hdd.
    apply wp_ret. split; [done|]. symmetry. by apply take_S_r. }
  intros Z' [] _ HZ' ->. rewrite Nat.add_0_l in *.
  rewrite (take_app_length' P0) by done. cbn [app].
  set (Zc := P0 ++ take e P2 ++ drop e (drop n Zd)) in *.
  assert (HZc : digits_ok Zc) by (unfold Zc; auto 7 with digits).
  apply wpP_bind, wpP_lift, wp_dcheck_zero_from; [done | | done |].
  { pose proof (val_bounds _ HP2) as [_ Hb]. rewrite Hl2 in Hb. unfold e.
    by destruct (Nat.min_spec (length Zd - n) n) as [[_ ->] | [_ ->]]. }
  apply wpP_bind. eapply wpP_mono.
  { apply (KaratsubaMiddle_spec _ _ _ _ _ _ _ _ _ _ (val (drop (2 * n) Zd)) _ IH);
      try (done || lia);
      rewrite <- ?Hev; replace (4 * n2)%nat with (2 * n)%nat by lia; (done || by rewrite Hlc). }
  intros [[[Zf D] P1] Rf] p' (Hlef & Hlf & HZf & HlD & HD & Hl1 & HP1 & HlRf & HRf & EZf).
  apply wpP_ret. unfold main_post; cbn [fst snd]. rewrite Hlf, Hlc, !length_app, length_drop.
  rewrite EZf, !Hsplit. replace (4 * n2)%nat with (2 * n)%nat by lia.
  split_and!; [by eauto using status_le_trans | done | done | lia | by auto 6 with digits | done].
Qed.

(** Lengths that can be halved until they are below the threshold. *)
Definition halvable (n : nat) : Prop := exists s c, n = (c * 2 ^ s)%nat /\ (c < 34)%nat.

Lemma halvable_half n :
  halvable n -> (34 <= n)%nat -> Nat.even n = true /\ halvable (Nat.div2 n).
Proof.
  intros (s & c & -> & Hc) Hn. destruct s as [|s]; [simpl in Hn; lia|].
  replace (c * 2 ^ S s)%nat with (2 * (c * 2 ^ s))%nat by (simpl; lia).
  split; [by rewrite Nat.even_mul|]. rewrite Nat.div2_double. by exists s, c.
Qed.

Lemma KaratsubaMain_spec fuel n :
  (n < fuel)%nat -> halvable n ->
  main_spec n (fun Zd X Y scratch => KaratsubaMain fuel Zd X Y scratch n).
Proof.
  revert n. induction fuel as [|fuel IH]; intros n Hf Hh; [lia|].
  destruct (Z.of_nat n <? kKaratsubaThreshold) eqn:Hn.
  - intros Zd X Y scratch p Hst Hpre Hs Hls. cbn [KaratsubaMain]. rewrite Hn.
    by apply KaratsubaMain_base.
  - pose proof Hn as Hn'%Z.ltb_ge. unfold kKaratsubaThreshold in Hn'.
    destruct (halvable_half n Hh) as [Hev Hh2]; [lia|].
    apply KaratsubaMain_step; [done | done |]. apply IH; [|done].
    apply div2_even in Hev. lia.
Qed.

Lemma karatsuba_len_spec n :
  (34 <= n)%nat -> Z.of_nat n < 2 ^ 31 ->
  (34 <= karatsuba_len n)%nat /\ (3 * karatsuba_len n <= 4 * n)%nat /\
  (n <= 2 * karatsuba_len n)%nat /\ halvable (karatsuba_len n).
Proof.
  intros H34 Hint. destruct (KaratsubaLength_spec (Z.of_nat n)) as (s & c & Hs & Hn & E & Hc & Hge); [lia|].
  unfold karatsuba_len. rewrite E. pose proof (Z.pow_pos_nonneg 2 s).
  split_and!; [lia..|].
  exists (Z.to_nat s), (Z.to_nat c). assert (0 < c < 26) by nia. split; [|lia].
  apply Nat2Z.inj. rewrite Nat2Z.inj_mul, Z2Nat.inj_pow, !Z2Nat.id by lia. done.
Qed.

(** The padding is stable: a length within a padded length does not pad beyond it. *)
Lemma karatsuba_len_within m n :
  (34 <= n)%nat -> Z.of_nat n < 2 ^ 31 -> (34 <= m)%nat -> (m <= karatsuba_len n)%nat ->
  Z.of_nat m < 2 ^ 31 -> (karatsuba_len m <= karatsuba_len n)%nat.
Proof.
  intros H34 Hint Hm34 Hm Hmint.
  destruct (KaratsubaLength_spec (Z.of_nat n)) as (s & c & Hs & Hn & E & Hc & Hge); [lia|].
  destruct (KaratsubaLength_spec (Z.of_nat m)) as (s' & c' & Hs' & Hn' & E' & Hc' & Hge'); [lia|].
  unfold karatsuba_len in *. rewrite E, E' in *.
  pose proof (Z.pow_pos_nonneg 2 s). pose proof (Z.pow_pos_nonneg 2 s').
  enough (c' * 2 ^ s' <= c * 2 ^ s) by lia.
  destruct (Z.le_gt_cases s' s) as [Hle | Hgt].
  - assert (2 ^ s = 2 ^ (s - s') * 2 ^ s') as E2 by (rewrite <- Z.pow_add_r by lia; f_equal; lia).
    rewrite E2 in *. rewrite Z.mul_assoc in *.
    assert (c' < c * 2 ^ (s - s') + 1); [|nia].
    apply (mul_lt_cancel _ _ (2 ^ s')); lia.
  - assert (2 ^ s' = 2 ^ (s' - s) * 2 ^ s) as E2 by (rewrite <- Z.pow_add_r by lia; f_equal; lia).
    pose proof (Z.pow_le_mono_r 2 1 (s' - s)).
    assert (c <= 24) by nia. assert (12 * 2 ^ s' <= 24 * 2 ^ s) by nia.
    assert (c' < 13); [apply (mul_lt_cancel _ _ (2 ^ s')); nia|]. nia.
Qed.

(** ** Chunks *)

Lemma length_Normalize_bound T n :
  digits_ok T -> val T < bpow n -> (length (Normalize T) <= n)%nat.
Proof.
  intros HT Hv. destruct (decide (Normalize T = [])) as [-> | Hne]; [simpl; lia|].
  pose proof (normalized_lower _ (digits_ok_Normalize _ HT) (normalized_Normalize T) Hne) as Hl.
  rewrite val_Normalize in Hl.
  destruct (Nat.le_gt_cases (length (Normalize T)) n); [done|].
  pose proof (bpow_le n (length (Normalize T) - 1)). lia.
Qed.

(** [AddAndReturnOverflow(Z + off, T)] where the sum fits. *)
Lemma add_chunk Zd off T :
  digits_ok Zd -> digits_ok T -> (off <= length Zd)%nat ->
  val Zd + bpow off * val T < bpow (length Zd) ->
  wp (on_tail Zd off (fun V => AddAndReturnOverflow V T)) (fun '(Z', _) =>
    length Z' = length Zd /\ digits_ok Z' /\ val Z' = val Zd + bpow off * val T).
Proof.
  intros HZ HT Hoff Hv. pose proof (val_nonneg _ HZ).
  assert (length (Normalize T) <= length Zd - off)%nat.
  { apply length_Normalize_bound; [done|]. apply (mul_lt_cancel _ _ (bpow off)); [apply bpow_pos|].
    rewrite <- bpow_add. replace (length Zd - off + off)%nat with (length Zd) by lia. lia. }
  eapply wp_mono; [apply on_tail_add; [done | done | lia]|].
  intros [Z' c] (Hl & HZ' & Hc & E). split_and!; [done..|].
  pose proof (val_nonneg _ HZ').
  assert (c = 0 \/ c = 1) as [-> | ->] by lia; lia.
Qed.

(** [KaratsubaChunk] on operands of at most [k] digits. *)
Definition chunk_spec (k : nat) (f : digits -> digits -> digits -> digits -> PM (digits * digits))
    : Prop :=
  forall T X Y scratch p, steady p -> digits_ok T -> digits_ok X -> digits_ok Y ->
    digits_ok scratch -> (length X <= k)%nat -> (length Y <= k)%nat ->
    length T = (2 * k)%nat -> (4 * k <= length scratch)%nat ->
    wpP (f T X Y scratch) p (fun '(T', s') p' => status_le p p' /\ length T' = length T /\
      digits_ok T' /\ length s' = length scratch /\ digits_ok s' /\ val T' = val X * val Y).

(** [KaratsubaStart] on normalized operands, the shorter one of Karatsuba length. *)
Definition start_spec (k : nat) (f : digits -> digits -> digits -> digits -> nat -> PM (digits * digits))
    (Zd X Y scratch : digits) : Prop :=
  forall p, steady p ->
    wpP (f Zd X Y scratch k) p (fun '(Z', s') p' => status_le p p' /\ length Z' = length Zd /\
      digits_ok Z' /\ length s' = length scratch /\ digits_ok s' /\ val Z' = val X * val Y).

Definition start_pre (k : nat) (Zd X Y scratch : digits) : Prop :=
  digits_ok Zd /\ digits_ok X /\ digits_ok Y /\ digits_ok scratch /\ int_len X /\
  (34 <= length Y)%nat /\ (length Y <= length X)%nat /\
  (length X + length Y <= length Zd)%nat /\ k = karatsuba_len (length Y) /\
  (4 * k <= length scratch)%nat.

Lemma KaratsubaChunk_with_spec k n start :
  k = karatsuba_len n -> (34 <= n)%nat -> Z.of_nat n < 2 ^ 31 -> Z.of_nat k < 2 ^ 29 ->
  (forall k' Zd X Y scratch, start_pre k' Zd X Y scratch -> (length X <= k)%nat -> (k' <= k)%nat ->
     start_spec k' start Zd X Y scratch) ->
  chunk_spec k (KaratsubaChunk_with start).
Proof.
  intros Hk Hn Hint Hkint Hstart T X Y scratch p Hst HT HX HY Hs HlX HlY HlT Hls.
  destruct (karatsuba_len_spec n Hn) as (HK34 & HK & _ & _); [lia|]. rewrite <- Hk in HK34, HK.
  unfold KaratsubaChunk_with. rewrite <- (val_Normalize X), <- (val_Normalize Y).
  pose proof (length_Normalize X). pose proof (length_Normalize Y).
  pose proof (normalized_Normalize X) as NX. pose proof (normalized_Normalize Y) as NY.
  apply digits_ok_Normalize in HX, HY.
  set (X' := Normalize X) in *. set (Y' := Normalize Y) in *.
  case_bool_decide as Hz.
  { destruct (Clear_spec T) as (? & ? & E). apply wpP_ret. rewrite E.
    split_and!; [by auto with digits | done | done | done | done|].
    destruct Hz as [Hz | Hz]; [destruct X' | destruct Y']; try done; cbn [val]; lia. }
  assert (forall A B, digits_ok A -> digits_ok B -> normalized A -> normalized B ->
    (length B <= length A <= k)%nat -> (0 < length B)%nat ->
    wpP (if bool_decide (length B = 1)%nat then
           y ← lift (rd B 0); V ← MultiplySingle T A y; mret (V, scratch)
         else if Z.of_nat (length B) <? kKaratsubaThreshold then
           V ← MultiplySchoolbook T A B; mret (V, scratch)
         else
           lift (dcheck (bool_decide (4 * karatsuba_len (length B) <= length scratch)%nat));;
           start T A B scratch (karatsuba_len (length B))) p
      (fun '(T', s') p' => status_le p p' /\ length T' = length T /\
      digits_ok T' /\ length s' = length scratch /\ digits_ok s' /\ val T' = val A * val B)) as Hcore.
  { intros A B HA HB NA NB Hl HB0. case_bool_decide as Hone.
    { destruct B as [|b []]; cbn [length] in Hone; try lia.
      unfold rd. cbn [lookup list_lookup]. apply wpP_bind, wpP_lift, wp_Ok. cbn [val] in *.
      apply wpP_bind. eapply wpP_mono; [apply MultiplySingle_spec; [done | by apply (Forall_inv HB) | | lia]|].
      { by intros ->. }
      intros V p' (? & ? & ? & E). apply wpP_ret. rewrite E. split_and!; (done || lia). }
    destruct (Z.ltb_spec (Z.of_nat (length B)) kKaratsubaThreshold) as [Hlt | Hge].
    { apply wpP_bind. eapply wpP_mono;
        [apply MultiplySchoolbook_spec; unfold int_len; (done || lia)|].
      intros V p' (? & ? & ? & ?). by apply wpP_ret. }
    unfold kKaratsubaThreshold in Hge.
    assert (karatsuba_len (length B) <= k)%nat as Hk'.
    { rewrite Hk. apply karatsuba_len_within; lia. }
    apply wpP_bind, wpP_lift, wp_dcheck_decide; [lia|].
    apply (Hstart _ T A B scratch); [| lia | done | done].
    unfold start_pre, int_len. split_and!; (done || lia). }
  case_bool_decide.
  - rewrite (Z.mul_comm (val X')). apply Hcore; (done || lia).
  - apply Hcore; (done || lia).
Qed.

(** A product of prefixes fits wherever the whole product fits. *)
Lemma partial_product_fits (X Y Zd : digits) a b :
  digits_ok X -> digits_ok Y -> (length X + length Y <= length Zd)%nat ->
  0 <= a <= val X -> 0 <= b <= val Y -> a * b < bpow (length Zd).
Proof.
  intros HX HY Hl Ha Hb. pose proof (val_bounds X HX). pose proof (val_bounds Y HY).
  pose proof (bpow_le _ _ Hl) as Hle. rewrite bpow_add in Hle. nia.
Qed.

Lemma val_take_le n X : digits_ok X -> 0 <= val (take n X) <= val X.
Proof.
  intros HX. pose proof (val_nonneg _ (digits_ok_take n X HX)). split; [done|].
  rewrite (val_split X n). pose proof (bpow_pos (length (take n X))).
  pose proof (val_nonneg _ (digits_ok_drop n X HX)). nia.
Qed.

Lemma KaratsubaStart_loop_spec chunk k m i X Y Zd T scratch p :
  chunk_spec k chunk -> (0 < k)%nat -> steady p ->
  digits_ok X -> digits_ok Y -> digits_ok Zd -> digits_ok T -> digits_ok scratch ->
  (length Y <= 2 * k)%nat -> (length X + length Y <= length Zd)%nat ->
  length T = (2 * k)%nat -> (4 * k <= length scratch)%nat -> (length X <= m + i)%nat ->
  val Zd = val (take i X) * val Y -> (k <= i)%nat ->
  wpP (KaratsubaStart_loop chunk m i k X (Digits_slice Y 0 k) (drop (k `min` length Y) Y) Zd T scratch) p
    (fun '(Z', s') p' => status_le p p' /\ length Z' = length Zd /\
      digits_ok Z' /\ length s' = length scratch /\ digits_ok s' /\ val Z' = val X * val Y).
Proof.
  intros Hchunk Hk. revert i Zd T scratch p.
  induction m as [|m IH]; intros i Zd T scratch p Hst HX HY HZ HT Hs HlY HlZ HlT Hls Hm HV Hki;
    cbn [KaratsubaStart_loop].
  { apply wpP_ret. rewrite (take_ge X) in HV by lia. split_and!; by auto with digits. }
  case_bool_decide as Hi; [|apply wpP_ret; rewrite (take_ge X) in HV by lia; split_and!; by auto with digits].
  unfold Digits_slice in *.
  assert (val Y = val (slice Y 0 k) + bpow k * val (drop (k `min` length Y) Y)) as EY.
  { unfold slice. rewrite drop_0, (val_split Y k), length_take.
    destruct (Nat.le_gt_cases k (length Y)); [by rewrite Nat.min_l by lia|].
    rewrite !(drop_ge Y) by lia. cbn [val]. lia. }
  pose proof (val_take_add i k X) as EX.
  pose proof (val_take_le (i + k) X HX) as Hle. rewrite EX in Hle.
  pose proof (val_take_le i X HX) as Hle'. pose proof (val_nonneg Y HY).
  assert (0 <= val (slice X i k)) as HXi by (apply val_nonneg; auto with digits).
  assert (0 <= val (slice Y 0 k)) as HY0 by (apply val_nonneg; auto with digits).
  assert (0 <= val (drop (k `min` length Y) Y)) as HY1 by (apply val_nonneg; auto with digits).
  pose proof (partial_product_fits X Y Zd _ (val Y) HX HY HlZ Hle (conj (val_nonneg Y HY) (Z.le_refl _))) as Hfit.
  assert ((val (take i X) + bpow i * val (slice X i k)) * val Y =
    val (take i X) * val Y + bpow i * (val (slice X i k) * val (slice Y 0 k)) +
    bpow (i + k) * (val (slice X i k) * val (drop (k `min` length Y) Y))) as Esum.
  { rewrite EY at 1. rewrite bpow_add, EY. ring. }
  assert (0 <= bpow (i + k) * (val (slice X i k) * val (drop (k `min` length Y) Y))) as Hpos
    by (pose proof (bpow_pos (i + k)); apply Z.mul_nonneg_nonneg; [lia | by apply Z.mul_nonneg_nonneg]).
  apply wpP_bind. eapply wpP_mono; [apply Hchunk; try (done || by auto with digits);
    rewrite length_slice; lia|].
  intros [T1 s1] p1 (Hle1 & HlT1 & HT1 & Hls1 & Hs1 & ET1).
  apply wpP_MAYBE_TERMINATE; [by eapply steady_le|].
  apply wpP_bind, wpP_lift. eapply wp_mono; [apply add_chunk; [done | done | lia | rewrite ET1, HV; lia]|].
  intros [Z1 c1] (HlZ1 & HZ1 & EZ1). rewrite ET1, HV in EZ1.
  pose proof (steady_le _ _ Hle1 Hst) as Hst1.
  case_bool_decide as HY1l.
  - apply wpP_bind. rewrite length_drop in HY1l.
    eapply wpP_mono; [apply Hchunk; try (done || by auto with digits);
      rewrite ?length_slice, ?length_drop; lia|].
    intros [T2 s2] p2 (Hle2 & HlT2 & HT2 & Hls2 & Hs2 & ET2).
    apply wpP_MAYBE_TERMINATE; [by eapply steady_le|].
    apply wpP_bind, wpP_lift.
    eapply wp_mono; [apply add_chunk; [done | done | lia | rewrite ET2, EZ1, HlZ1; lia]|].
    intros [Z2 c2] (HlZ2 & HZ2 & EZ2). rewrite ET2, EZ1 in EZ2.
    eapply wpP_mono; [apply IH; (done || lia || (by eapply steady_le) || (rewrite EX; lia))|].
    intros [Z' s'] p' (? & ? & ? & ? & ? & ?). split_and!; (done || lia || eauto using status_le_trans).
  - rewrite length_drop in HY1l. 
    assert (val (drop (k `min` length Y) Y) = 0) as E0 by (by rewrite drop_ge by lia).
    rewrite E0, Z.mul_0_r, Z.mul_0_r in Esum.
    eapply wpP_mono; [apply IH; (done || lia || (rewrite EX; lia))|].
    intros [Z' s'] p' (? & ? & ? & ? & ? & ?). split_and!; (done || lia || eauto using status_le_trans).
Qed.

Lemma wp_zero_from_take i Zd (Q : digits -> Prop) :
  Q (take i Zd ++ replicate (length Zd - i) 0) -> wp (zero_from i Zd) Q.
Proof.
  intros HQ. destruct (Nat.le_gt_cases i (length Zd)) as [Hle | Hgt].
  - rewrite <- (take_drop i Zd) at 1. apply wp_zero_from; [rewrite length_take; lia|].
    by rewrite length_drop.
  - unfold zero_from. replace (length Zd - i)%nat with 0%nat in * by lia.
    rewrite take_ge, app_nil_r in HQ by lia. done.
Qed.

(** After [KaratsubaMain] and the clearing of the digits from [2k] on, [Z] holds the
    product of the low parts. *)
Lemma KaratsubaStart_first k Zd X Y scratch p (Q : digits * digits -> ProcessorImpl -> Prop) rest :
  steady p -> start_pre k Zd X Y scratch ->
  (forall Z1 s1 p1, status_le p p1 -> steady p1 -> length Z1 = length Zd -> digits_ok Z1 ->
     length s1 = length scratch -> digits_ok s1 -> val Z1 = val (take k X) * val (take k Y) ->
     wpP (rest Z1 s1) p1 Q) ->
  wpP ('(Zd, scratch) ← KaratsubaMain (S k) Zd X Y scratch k;
       MAYBE_TERMINATE (Zd, scratch) (
       Zd ← lift (zero_from (2 * k) Zd); rest Zd scratch)) p Q.
Proof.
  intros Hst (HZ & HX & HY & Hs & Hint & H34 & HlYX & HlZ & Hk & Hls) Hrest.
  unfold int_len in Hint.
  destruct (karatsuba_len_spec (length Y) H34) as (HK34 & HK & _ & Hhalf); [lia|].
  rewrite <- Hk in HK34, HK, Hhalf.
  pose proof (halvable_half k Hhalf HK34) as [Hev%div2_even _].
  pose proof (partial_product_fits X Y Zd _ _ HX HY HlZ (val_take_le k X HX) (val_take_le k Y HY)) as Hfit.
  apply wpP_bind. eapply wpP_mono.
  { apply (KaratsubaMain_spec (S k) k); [lia | done | done | | done | done].
    split_and!; [done..|]. destruct (Z.ltb_spec (Z.of_nat k) kKaratsubaThreshold) as [Hlt|_];
      [unfold kKaratsubaThreshold in Hlt; lia|]. split; [lia | done]. }
  intros [Z1 s1] p1 (Hle & Hl1 & HZ1 & Hls1 & Hs1 & EZ1). cbn [fst snd] in *.
  apply wpP_MAYBE_TERMINATE; [by eapply steady_le|].
  apply wpP_bind, wpP_lift, wp_zero_from_take.
  apply Hrest; [done | by eapply steady_le | | by auto with digits | done | done |].
  { rewrite length_app, length_take, length_replicate. lia. }
  rewrite val_app_zeros.
  destruct (Nat.le_gt_cases (length Zd) (2 * k)) as [Hge | Hlt].
  - rewrite (drop_ge Zd) in EZ1 by lia. rewrite take_ge by lia. cbn [val] in EZ1. lia.
  - rewrite (val_split Z1 (2 * k)), length_take, Nat.min_l in EZ1 by lia.
    pose proof (val_bounds _ (digits_ok_take (2 * k) Z1 HZ1)) as Hb.
    rewrite length_take, Nat.min_l in Hb by lia.
    pose proof (val_bounds _ (digits_ok_take k X HX)) as BX.
    pose proof (val_bounds _ (digits_ok_take k Y HY)) as BY. rewrite length_take in BX, BY.
    pose proof (bpow_le (k `min` length X) k). pose proof (bpow_le (k `min` length Y) k).
    assert (bpow (2 * k) = bpow k * bpow k) as E2
      by (replace (2 * k)%nat with (k + k)%nat by lia; apply bpow_add).
    assert (0 <= val (take k X) * val (take k Y) < bpow (2 * k)) by nia.
    destruct (div_mod_unique (val (take (2 * k) Z1) + bpow (2 * k) * val (drop (2 * k) Z1))
      (bpow (2 * k)) (val (drop (2 * k) Z1)) (val (take (2 * k) Z1))) as [_ Em1]; [done | lia |].
    destruct (div_mod_unique (val (take k X) * val (take k Y) + bpow (2 * k) * val (drop (2 * k) Zd))
      (bpow (2 * k)) (val (drop (2 * k) Zd)) (val (take k X) * val (take k Y))) as [_ Em2]; [done | lia |].
    congruence.
Qed.

Lemma KaratsubaStart_spec fuel k Zd X Y scratch :
  start_pre k Zd X Y scratch -> Z.of_nat k < 2 ^ 29 -> (0 < fuel)%nat ->
  (length X <= k \/ k < fuel)%nat ->
  start_spec k (KaratsubaStart fuel) Zd X Y scratch.
Proof.
  revert k Zd X Y scratch. induction fuel as [|fuel IH]; intros k Zd X Y scratch Hpre Hkint Hf Hfk; [lia|].
  intros p Hst. cbn [KaratsubaStart]. apply KaratsubaStart_first; [done | done |].
  intros Z1 s1 p1 Hle1 Hst1 Hl1 HZ1 Hls1 Hs1 E1.
  destruct Hpre as (HZ & HX & HY & Hs & Hint & H34 & HlYX & HlZ & Hk & Hls). unfold int_len in *.
  destruct (karatsuba_len_spec (length Y) H34) as (HK34 & HK & HK2 & _); [lia|].
  rewrite <- Hk in HK34, HK, HK2.
  case_bool_decide as Hbr.
  2: { apply wpP_ret. rewrite !take_ge in E1 by lia. split_and!; done. }
  apply wpP_bind, wpP_lift, wp_Digits_plus; [lia|].
  destruct (Nat.le_gt_cases (length X) k) as [HXk | HXk].
  { (* no chunk is left *)
    rewrite length_drop. rewrite bool_decide_false by lia.
    rewrite !take_ge in E1 by lia.
    destruct (length X) as [|m] eqn:El; [lia|]. cbn [KaratsubaStart_loop].
    rewrite bool_decide_false by lia. apply wpP_ret. split_and!; done. }
  assert (chunk_spec k (KaratsubaChunk_with (KaratsubaStart fuel))) as Hchunk.
  { eapply KaratsubaChunk_with_spec; [exact Hk | done | lia | done |].
    intros k' Z' X' Y' s' Hpre' HlX' Hk'. apply IH; [done | lia | lia | lia]. }
  assert (length (uninitialized (2 * k)) = (2 * k)%nat) as HlT by apply length_uninitialized.
  assert (digits_ok (uninitialized (2 * k))) as HT by apply uninitialized_ok.
  set (T := uninitialized (2 * k)) in *.
  assert (forall Z2 T2 s2 p2, status_le p p2 -> steady p2 -> length Z2 = length Zd -> digits_ok Z2 ->
    length T2 = (2 * k)%nat -> digits_ok T2 -> length s2 = length scratch -> digits_ok s2 ->
    val Z2 = val (take k X) * val Y ->
    wpP (KaratsubaStart_loop (KaratsubaChunk_with (KaratsubaStart fuel)) (length X) k k X
           (Digits_slice Y 0 k) (drop (k `min` length Y) Y) Z2 T2 s2) p2
      (fun '(Z', s') p' => status_le p p' /\ length Z' = length Zd /\ digits_ok Z' /\
         length s' = length scratch /\ digits_ok s' /\ val Z' = val X * val Y)) as Hloop.
  { intros Z2 T2 s2 p2 Hle2 Hst2 HlZ2 HZ2 HlT2 HT2 Hls2 Hs2 EZ2.
    eapply wpP_mono; [apply KaratsubaStart_loop_spec; (done || lia)|].
    intros [Z' s'] p' (? & ? & ? & ? & ? & ?). split_and!; (done || lia || eauto using status_le_trans). }
  rewrite length_drop. case_bool_decide as HY1.
  - apply wpP_bind. unfold Digits_slice.
    eapply wpP_mono; [apply Hchunk; try (done || by auto with digits);
      rewrite ?length_slice, ?length_drop; lia|].
    intros [T1 s2] p2 (Hle2 & HlT1 & HT1 & Hls2 & Hs2 & ET1).
    apply wpP_MAYBE_TERMINATE; [by eapply steady_le|].
    pose proof (val_split Y k) as EY. rewrite length_take, Nat.min_l in EY by lia.
    rewrite Nat.min_l in ET1 by lia. unfold slice in ET1. rewrite drop_0 in ET1.
    assert (val Z1 + bpow k * val T1 = val (take k X) * val Y) as Esum by (rewrite E1, ET1, EY; ring).
    apply wpP_bind, wpP_lift. eapply wp_mono; [apply add_chunk; [done | done | lia |]|].
    { rewrite Esum, Hl1. apply (partial_product_fits X Y); [done | done | lia | by apply val_take_le |].
      split; [by apply val_nonneg | done]. }
    intros [Z2 c2] (HlZ2 & HZ2 & EZ2).
    apply Hloop; (done || lia || eauto using status_le_trans, steady_le).
  - apply Hloop; try (done || lia). rewrite E1, (take_ge Y) by lia. done.
Qed.

Lemma MultiplyKaratsuba_spec Zd X Y p :
  steady p -> digits_ok Zd -> digits_ok X -> digits_ok Y -> int_len X ->
  (34 <= length Y)%nat -> Z.of_nat (length Y) < 2 ^ 28 -> (length Y <= length X)%nat ->
  (length X + length Y <= length Zd)%nat ->
  wpP (MultiplyKaratsuba Zd X Y) p (fun Z' p' => status_le p p' /\
    length Z' = length Zd /\ digits_ok Z' /\ val Z' = val X * val Y).
Proof.
  intros Hst HZ HX HY Hint H34 HYint Hl HlZ. unfold MultiplyKaratsuba.
  apply wpP_bind, wpP_lift, wp_dcheck_decide; [done|].
  apply wpP_bind, wpP_lift, wp_dcheck; [apply Z.leb_le; unfold kKaratsubaThreshold; lia|].
  apply wpP_bind, wpP_lift, wp_dcheck_decide; [done|].
  destruct (karatsuba_len_spec (length Y) H34) as (HK34 & HK & HK2 & _); [lia|].
  apply wpP_bind. eapply wpP_mono.
  { apply KaratsubaStart_spec; [| lia | unfold karatsuba_fuel; lia | unfold karatsuba_fuel; lia | done].
    unfold start_pre. rewrite length_uninitialized.
    split_and!; try (done || lia). apply uninitialized_ok. }
  intros [Z' s'] p' (? & ? & ? & ? & ? & ?). apply wpP_ret. split_and!; done.
Qed.
End mul_karatsuba.
