(* ===== verification/DivHelpers.v ===== *)
(** Shifting by less than a digit and copying, for the division algorithms:
    [src/bigint/div-helpers.cc] and [src/bigint/div-helpers.h]. *)

From Stdlib Require Import ZArith Lia.
From stdpp Require Import base tactics numbers list option.
From S2P Require Import Prelude Digit Digits VectorArithmetic Processor MulKaratsuba.

#[local] Open Scope Z_scope.

Section div_helpers.
Context `{Config}.
Context {alloc : Allocator}.
Implicit Types X Y P R A : digits.

(** [Copy]; its shortcut for [Z == X] (the same view) leaves [Z] as it is, which is
    what the loops do there ([Copy_same]). *)
Definition Copy (Zd X : digits) : res digits :=
  '(Zd, _) ← write_loop (length X) 0 (fun i _ _ => x ← rd X i; mret (x, tt)) Zd tt;
  zero_from (length X) Zd.

Definition LeftShift (Zd X : digits) (shift : Z) : res digits :=
  dcheck (0 <=? shift);;
  dcheck (shift <? kDigitBits);;
  dcheck (bool_decide (length X <= length Zd)%nat);;
  if shift =? 0 then Copy Zd X
  else
    '(Zd, carry) ← write_loop (length X) 0 (fun i _ carry =>
        d ← rd X i;
        mret (Z.lor (wrap (Z.shiftl d shift)) carry, Z.shiftr d (kDigitBits - shift))) Zd 0;
    '(Zd, i) ←
      (if bool_decide (length X < length Zd)%nat
       then Zd ← wr Zd (length X) carry; mret (Zd, S (length X))
       else dcheck (carry =? 0);; mret (Zd, length X));
    zero_from i Zd.

Definition RightShift (Zd X : digits) (shift : Z) : res digits :=
  dcheck (0 <=? shift);;
  dcheck (shift <? kDigitBits);;
  let X := Normalize X in
  dcheck (bool_decide (length X <= length Zd)%nat);;
  if shift =? 0 then Copy Zd X
  else
    '(Zd, i) ←
      (if bool_decide (0 < length X)%nat then
         x0 ← rd X 0;
         '(Zd, carry) ← write_loop (length X - 1) 0 (fun i _ carry =>
             d ← rd X (i + 1);
             mret (Z.lor (wrap (Z.shiftl d (kDigitBits - shift))) carry, Z.shiftr d shift))
           Zd (Z.shiftr x0 shift);
         Zd ← wr Zd (length X - 1) carry;
         mret (Zd, length X)
       else mret (Zd, 0%nat));
    zero_from i Zd.

(** [PutAt]: the low [count] digits of [Z] are set to [A]. *)
Definition PutAt (Zd A : digits) (count : nat) : res digits :=
  let len := (length A `min` count)%nat in
  '(Zd, _) ← write_loop len 0 (fun i _ _ => a ← rd A i; mret (a, tt)) Zd tt;
  '(Zd, _) ← write_loop (count - len) len (fun _ _ _ => mret (0, tt)) Zd tt;
  mret Zd.

(** [ShiftedDigits]: [sd_digits] is the (shifted) view; when [inplace_] it shares the
    storage of the original. *)
Record ShiftedDigits : Type := mkShiftedDigits {
  sd_digits : digits;
  shift_ : Z;
  inplace_ : bool;
}.

Definition ShiftedDigits_new (original : digits) (shift : Z) (allow_inplace : bool)
    : res ShiftedDigits :=
  top ← msd original;
  let leading_zeros := CountLeadingZeros top in
  let '(shift, allow_inplace, len) :=
    if shift <? 0 then (leading_zeros, allow_inplace, length original)
    else if leading_zeros <? shift then (shift, false, S (length original))
    else (shift, allow_inplace, length original) in
  if shift =? 0 then mret (mkShiftedDigits original shift true)
  else
    let storage := if allow_inplace then original else uninitialized len in
    storage ← LeftShift storage original shift;
    mret (mkShiftedDigits storage shift allow_inplace).

(** [Reset]: undoes an in-place shift. *)
Definition ShiftedDigits_Reset (s : ShiftedDigits) : res ShiftedDigits :=
  if inplace_ s then
    rw_view ← RightShift (sd_digits s) (sd_digits s) (shift_ s);
    mret (mkShiftedDigits rw_view (shift_ s) (inplace_ s))
  else mret s.

(** ** Shifted digits *)

(** The two halves of a digit moved up by [s] bits. *)
Lemma shl_lor d s c :
  is_digit d -> 0 < s < kDigitBits -> 0 <= c < 2 ^ s ->
  Z.lor (wrap (Z.shiftl d s)) c = d mod 2 ^ (kDigitBits - s) * 2 ^ s + c /\
  is_digit (d mod 2 ^ (kDigitBits - s) * 2 ^ s + c).
Proof.
  intros Hd Hs Hc. rewrite Z.shiftl_mul_pow2 by lia. unfold wrap, digit_base.
  assert (2 ^ kDigitBits = 2 ^ (kDigitBits - s) * 2 ^ s) as E
    by (rewrite <- Z.pow_add_r by lia; f_equal; lia).
  pose proof (Z.pow_pos_nonneg 2 s). pose proof (Z.pow_pos_nonneg 2 (kDigitBits - s)).
  rewrite E, Z.mul_mod_distr_r by lia. rewrite lor_shiftl_add by lia. split; [done|].
  pose proof (Z.mod_pos_bound d (2 ^ (kDigitBits - s))).
  unfold is_digit, digit_base. rewrite E. nia.
Qed.

(** The part shifted out at the top. *)
Lemma shr_rest d s :
  is_digit d -> 0 < s < kDigitBits ->
  0 <= Z.shiftr d (kDigitBits - s) < 2 ^ s /\
  d * 2 ^ s = d mod 2 ^ (kDigitBits - s) * 2 ^ s + digit_base * Z.shiftr d (kDigitBits - s).
Proof.
  intros Hd Hs. rewrite Z.shiftr_div_pow2 by lia. unfold is_digit, digit_base in *.
  assert (2 ^ kDigitBits = 2 ^ (kDigitBits - s) * 2 ^ s) as E
    by (rewrite <- Z.pow_add_r by lia; f_equal; lia).
  pose proof (Z.pow_pos_nonneg 2 (kDigitBits - s)). rewrite E in *.
  split.
  - split; [apply Z.div_pos; lia | apply Z.div_lt_upper_bound; lia].
  - pose proof (Z.div_mod d (2 ^ (kDigitBits - s))). nia.
Qed.

Lemma Copy_spec Zd X :
  digits_ok X -> (length X <= length Zd)%nat ->
  wp (Copy Zd X) (fun Z' => length Z' = length Zd /\ digits_ok Z' /\ val Z' = val X).
Proof.
  intros HX Hl. unfold Copy. apply wp_bind. rewrite <- (app_nil_l Zd).
  replace (write_loop (length X) 0) with (write_loop (C := unit) (length X - 0) 0)
    by (by rewrite Nat.sub_0_r).
  apply wp_copy_loop; [done | done | constructor | lia | lia |].
  rewrite drop_0, Nat.sub_0_r. cbn [app].
  apply wp_zero_from; [done|].
  rewrite length_app, length_replicate, length_drop, val_app_zeros.
  split_and!; [lia | by auto with digits | done].
Qed.

Lemma Copy_same X : digits_ok X -> Copy X X = Ok X.
Proof.
  intros HX. destruct (wp_elim _ _ (Copy_spec X X HX (le_n _))) as (Z' & -> & Hl & HZ & E).
  f_equal. by apply val_inj.
Qed.

Lemma LeftShift_spec Zd X shift :
  digits_ok X -> 0 <= shift < kDigitBits -> (length X <= length Zd)%nat ->
  val X * 2 ^ shift < bpow (length Zd) ->
  wp (LeftShift Zd X shift) (fun Z' => length Z' = length Zd /\ digits_ok Z' /\
    val Z' = val X * 2 ^ shift).
Proof.
  intros HX Hs Hl Hv. unfold LeftShift.
  apply wp_bind, wp_dcheck; [apply Z.leb_le; lia|].
  apply wp_bind, wp_dcheck; [apply Z.ltb_lt; lia|].
  apply wp_bind, wp_dcheck_decide; [done|].
  destruct (Z.eqb_spec shift 0) as [-> | Hs0].
  { eapply wp_mono; [by apply Copy_spec|]. intros Z' (? & ? & E).
    change (2 ^ 0) with 1. split_and!; (done || lia). }
  apply wp_bind. rewrite <- (app_nil_l Zd) at 1.
  apply (wp_write_loop (fun k P c => 0 <= c < 2 ^ shift /\
    val P + bpow k * c = val (take k X) * 2 ^ shift)); [done | done | constructor | | |].
  { rewrite take_0. cbn [val]. change (bpow 0) with 1. pose proof (Z.pow_pos_nonneg 2 shift). lia. }
  { intros k P c Hk HlP HP [Hc HJ]. apply wp_bind, wp_rd; [lia | done|]. intros d Hd Hdd.
    apply wp_ret. destruct (shl_lor d shift c) as [-> Hdig]; [done | lia | done|].
    destruct (shr_rest d shift) as [Hc' Ed]; [done | lia|].
    split; [done|]. split; [done|].
    rewrite val_snoc, HlP, bpow_S, (val_take_S _ _ _ Hd). scale_by_weight Ed k. lia. }
  intros P c HlP HP [Hc HJ]. rewrite Nat.add_0_l in *. rewrite take_ge in HJ by done.
  case_bool_decide as HlZ; rewrite length_app, length_drop in HlZ.
  - apply wp_bind, wp_bind, wp_wr_snoc; [done | rewrite length_drop; lia |].
    apply wp_ret, wp_zero_from; [rewrite length_app; simpl; lia|].
    rewrite !length_app, length_replicate, !length_drop, val_app_zeros, val_snoc, HlP.
    split_and!; [simpl; lia | | done].
    assert (is_digit c) by (unfold is_digit, digit_base; pose proof (Z.pow_lt_mono_r 2 shift kDigitBits); lia).
    by auto with digits.
  - assert (length Zd = length X) as El by lia. rewrite drop_ge, app_nil_r by lia.
    assert (c = 0) as ->.
    { pose proof (val_nonneg _ HP). rewrite El in Hv. pose proof (bpow_pos (length X)). nia. }
    apply wp_bind, wp_bind, wp_dcheck; [done|]. apply wp_ret, wp_zero_from_take.
    rewrite take_ge, HlP, Nat.sub_diag, app_nil_r by lia. split_and!; (done || lia).
Qed.

Lemma RightShift_spec Zd X shift :
  digits_ok X -> 0 <= shift < kDigitBits -> (length (Normalize X) <= length Zd)%nat ->
  wp (RightShift Zd X shift) (fun Z' => length Z' = length Zd /\ digits_ok Z' /\
    val Z' = val X / 2 ^ shift).
Proof.
  intros HX Hs Hl. unfold RightShift.
  apply wp_bind, wp_dcheck; [apply Z.leb_le; lia|].
  apply wp_bind, wp_dcheck; [apply Z.ltb_lt; lia|].
  rewrite <- (val_Normalize X). apply digits_ok_Normalize in HX.
  set (X' := Normalize X) in *. clearbody X'. clear X.
  apply wp_bind, wp_dcheck_decide; [done|].
  destruct (Z.eqb_spec shift 0) as [-> | Hs0].
  { eapply wp_mono; [by apply Copy_spec|]. intros Z' (? & ? & E).
    change (2 ^ 0) with 1. rewrite Z.div_1_r. split_and!; done. }
  pose proof (Z.pow_pos_nonneg 2 shift) as Hp.
  case_bool_decide as HX0.
  2: { apply wp_bind, wp_ret, wp_zero_from_take. destruct X'; [|simpl in HX0; lia].
    rewrite take_0. cbn [app val]. rewrite length_replicate, val_replicate_0.
    split_and!; [lia | by auto with digits | done]. }
  apply wp_bind, wp_bind, wp_rd; [lia | done|]. intros x0 Hx0 Hd0.
  apply wp_bind. rewrite <- (app_nil_l Zd) at 1.
  apply (wp_write_loop (fun k P c => exists x, X' !! k = Some x /\ c = x / 2 ^ shift /\
    (val P + bpow k * c) * 2 ^ shift + x0 mod 2 ^ shift = val (take (S k) X')));
    [done | lia | constructor | | |].
  { exists x0. rewrite (val_take_S _ _ _ Hx0), take_0. cbn [val]. change (bpow 0) with 1.
    rewrite Z.shiftr_div_pow2 by lia. split_and!; [done | done |].
    pose proof (Z.div_mod x0 (2 ^ shift)). lia. }
  { intros k P c Hk HlP HP (x & Hx & -> & HJ).
    apply wp_bind, wp_rd; [lia | done|]. intros d Hd Hdd. apply wp_ret.
    pose proof (digits_ok_lookup X' k x HX Hx) as Hxd.
    assert (0 <= x / 2 ^ shift < 2 ^ (kDigitBits - shift)) as Hc.
    { destruct (shr_rest x (kDigitBits - shift)) as [Hr _]; [done | lia |].
      rewrite Z.shiftr_div_pow2 in Hr by lia.
      by replace (kDigitBits - (kDigitBits - shift)) with shift in Hr by lia. }
    destruct (shl_lor d (kDigitBits - shift) (x / 2 ^ shift)) as [-> Hdig]; [done | lia | done|].
    destruct (shr_rest d (kDigitBits - shift)) as [_ Ed]; [done | lia |].
    replace (kDigitBits - (kDigitBits - shift)) with shift in * by lia.
    split; [done|]. exists d. rewrite Nat.add_1_r in Hd. rewrite Z.shiftr_div_pow2 in * by lia.
    split_and!; [done | done |].
    rewrite (val_take_S _ _ _ Hd), val_snoc, HlP, <- HJ, bpow_S.
    assert (digit_base = 2 ^ (kDigitBits - shift) * 2 ^ shift) as EB
      by (unfold digit_base; rewrite <- Z.pow_add_r by lia; f_equal; lia).
    pose proof (Z.div_mod d (2 ^ shift)). rewrite EB. nia. }
  intros P c HlP HP (x & Hx & -> & HJ). rewrite Nat.add_0_l in *.
  apply wp_bind, wp_wr_snoc; [done | rewrite length_drop; lia |].
  apply wp_ret, wp_zero_from; [rewrite length_app; simpl; lia|].
  rewrite take_ge in HJ by lia.
  rewrite !length_app, length_replicate, !length_drop, val_app_zeros, val_snoc, HlP.
  pose proof (digits_ok_lookup _ _ _ HX Hx) as Hxd. unfold is_digit in Hxd.
  split_and!; [simpl; lia | |].
  - assert (is_digit (x / 2 ^ shift)); [|by auto with digits].
    unfold is_digit. split; [apply Z.div_pos; lia|]. apply Z.div_lt_upper_bound; nia.
  - apply Z.div_unique with (x0 mod 2 ^ shift); [left; apply Z.mod_pos_bound; lia | lia].
Qed.

Lemma PutAt_spec Zd A count :
  digits_ok A -> (count <= length Zd)%nat ->
  wp (PutAt Zd A count) (fun Z' => exists P, Z' = P ++ drop count Zd /\ length P = count /\
    digits_ok P /\ val P = val (take count A)).
Proof.
  intros HA Hc. unfold PutAt. set (len := (length A `min` count)%nat).
  apply wp_bind. rewrite <- (app_nil_l Zd) at 1.
  apply (wp_write_loop (fun k P _ => P = take k A)); [done | lia | constructor | done | |].
  { intros k P [] Hk HlP HP ->. apply wp_bind, wp_rd; [lia | done|]. intros d Hd Hdd.
    apply wp_ret. split; [done|]. symmetry. by apply take_S_r. }
  intros P [] HlP HP ->. rewrite Nat.add_0_l in *.
  apply wp_bind, (wp_write_loop (fun k P _ => P = take len A ++ replicate (k - len) 0));
    [done | rewrite length_drop; lia | done | by rewrite Nat.sub_diag, app_nil_r | |].
  { intros k P [] Hk HlP' HP' ->. apply wp_ret. split; [by auto with digits|].
    replace (S k - len)%nat with (S (k - len)) by lia.
    by rewrite replicate_S_end, app_assoc. }
  intros P [] HlP' HP' ->. apply wp_ret. rewrite drop_drop.
  replace (len + (count - len))%nat with count in * by lia.
  exists (take len A ++ replicate (count - len) 0). split_and!; [done | lia | done |].
  rewrite val_app_zeros. f_equal. unfold len.
  destruct (Nat.le_gt_cases (length A) count).
  - by rewrite Nat.min_l, !take_ge by lia.
  - by rewrite Nat.min_r by lia.
Qed.

Lemma val_snoc_bounds X' d :
  digits_ok X' -> bpow (length X') * d <= val (X' ++ [d]) < bpow (length X') * (d + 1).
Proof. intros HX. rewrite val_snoc. pose proof (val_bounds _ HX). lia. Qed.

(** Shifting out the leading zeros of the top digit sets the top bit, without overflow. *)
Lemma leading_zeros_shift X X' d :
  digits_ok X -> X = X' ++ [d] -> d <> 0 ->
  0 <= CountLeadingZeros d < kDigitBits /\
  bpow (length X) <= 2 * (val X * 2 ^ CountLeadingZeros d) /\
  val X * 2 ^ CountLeadingZeros d < bpow (length X).
Proof.
  intros HX E Hd0. rewrite E in HX. apply Forall_app in HX as [HX' Hd%Forall_inv].
  destruct (CountLeadingZeros_spec d Hd Hd0) as (Hlz & Htop & Hfit). split; [done|].
  pose proof (val_snoc_bounds X' d HX') as Hv. rewrite <- E in Hv.
  replace (length X) with (S (length X')) by (rewrite E, length_app; simpl; lia). rewrite bpow_S. pose proof (bpow_pos (length X')).
  set (lz := CountLeadingZeros d) in *. pose proof (Z.pow_pos_nonneg 2 lz ltac:(lia) ltac:(lia)) as Hplz.
  split; [nia|].
  assert ((d + 1) * 2 ^ lz <= digit_base); [|nia].
  unfold digit_base in *.
  assert (2 ^ kDigitBits = 2 ^ (kDigitBits - lz) * 2 ^ lz) as EB
    by (rewrite <- Z.pow_add_r by lia; f_equal; lia).
  rewrite EB in *. apply mul_lt_cancel in Hfit; [|lia]. nia.
Qed.

(** A copy shifted by [shift] bits, or so far that the top bit is set when [shift] is
    negative. *)
Lemma ShiftedDigits_new_spec original shift :
  digits_ok original -> normalized original -> original <> [] -> shift < kDigitBits ->
  wp (ShiftedDigits_new original shift false) (fun s =>
    digits_ok (sd_digits s) /\ 0 <= shift_ s < kDigitBits /\
    (length original <= length (sd_digits s) <= S (length original))%nat /\
    val (sd_digits s) = val original * 2 ^ shift_ s /\
    (0 <= shift -> shift_ s = shift) /\
    (shift < 0 -> length (sd_digits s) = length original /\
       bpow (length original) <= 2 * val (sd_digits s))).
Proof.
  intros HX NX Hne Hsh. unfold ShiftedDigits_new.
  apply wp_bind, wp_msd; [done | done |]. intros X' d E Hd.
  pose proof NX as NX'. unfold normalized in NX. rewrite E, last_snoc in NX.
  destruct (leading_zeros_shift original X' d HX E) as (Hlz & Htop & Hfit'); [congruence|].
  set (lz := CountLeadingZeros d) in *.
  assert (forall sh len, 0 <= sh < kDigitBits -> (length original <= len <= S (length original))%nat ->
    val original * 2 ^ sh < bpow len ->
    (0 <= shift -> sh = shift) -> (shift < 0 -> sh = lz /\ len = length original) ->
    (sh = 0 -> len = length original) ->
    wp (if sh =? 0 then mret (mkShiftedDigits original sh true)
        else storage ← LeftShift (uninitialized len) original sh;
             mret (mkShiftedDigits storage sh false)) (fun s =>
    digits_ok (sd_digits s) /\ 0 <= shift_ s < kDigitBits /\
    (length original <= length (sd_digits s) <= S (length original))%nat /\
    val (sd_digits s) = val original * 2 ^ shift_ s /\
    (0 <= shift -> shift_ s = shift) /\
    (shift < 0 -> length (sd_digits s) = length original /\
       bpow (length original) <= 2 * val (sd_digits s)))) as Hcore.
  { intros sh len Hs Hlen Hfit2 Hgiven Hauto Hzero.
    assert (shift < 0 -> bpow (length original) <= 2 * (val original * 2 ^ sh)) as Hbig.
    { intros Hneg. by destruct (Hauto Hneg) as [-> _]. }
    destruct (Z.eqb_spec sh 0) as [-> | Hs0].
    - apply wp_ret. cbn [sd_digits shift_]. change (2 ^ 0) with 1 in *.
      rewrite Z.mul_1_r in *. rewrite Hzero in * by done. split_and!; (done || lia || auto).
    - apply wp_bind. eapply wp_mono; [apply LeftShift_spec;
        [done | done | rewrite length_uninitialized; lia | by rewrite length_uninitialized]|].
      intros Z' (Hl & HZ & EZ). rewrite length_uninitialized in Hl.
      apply wp_ret. cbn [sd_digits shift_]. rewrite Hl, EZ.
      split_and!; (done || lia). }
  destruct (Z.ltb_spec shift 0).
  - apply Hcore; (done || lia).
  - destruct (Z.ltb_spec lz shift).
    + apply Hcore; try (done || lia).
      rewrite bpow_S. pose proof (val_bounds _ HX).
      assert (0 < 2 ^ shift < digit_base); [|nia].
      unfold digit_base. split; [apply Z.pow_pos_nonneg; lia | apply Z.pow_lt_mono_r; lia].
    + apply Hcore; try (done || lia).
      assert (2 ^ shift <= 2 ^ lz) by (apply Z.pow_le_mono_r; lia).
      pose proof (val_nonneg _ HX). nia.
Qed.
End div_helpers.
