(* ===== verification/MulToom.v ===== *)
(** Toom-Cook multiplication with three parts: [src/bigint/mul-toom.cc]. *)

From Stdlib Require Import ZArith Lia.
From stdpp Require Import base tactics numbers list option.
From S2P Require Import Prelude Digit Digits VectorArithmetic Processor MulSchoolbook MulKaratsuba DivHelpers.

#[local] Open Scope Z_scope.

Section mul_toom.
Context `{Config, Platform}.
Context {alloc : Allocator}.
Implicit Types X Y V : digits.

(** [X <<= 1] in place, dropping the bit shifted out. *)
Definition TimesTwo (X : digits) : res digits :=
  '(X, _) ← write_loop (length X) 0 (fun i X carry =>
      d ← rd X i;
      mret (Z.lor (wrap (Z.shiftl d 1)) carry, Z.shiftr d (kDigitBits - 1))) X 0;
  mret X.

(** [X >>= 1] in place, from the top digit down. *)
Definition DivideByTwo (X : digits) : res digits :=
  '(X, _) ← for_down (length X) (fun i '(X, carry) =>
      d ← rd X i;
      X ← wr X i (Z.lor (Z.shiftr d 1) carry);
      mret (X, wrap (Z.shiftl d (kDigitBits - 1)))) (X, 0);
  mret X.

(** [X /= 3] in place, half a digit at a time. *)
Definition DivideByThree (X : digits) : res digits :=
  '(X, _) ← for_down (length X) (fun i '(X, remainder) =>
      d ← rd X i;
      let upper := Z.lor (wrap (Z.shiftl remainder kHalfDigitBits)) (Z.shiftr d kHalfDigitBits) in
      let u_result := upper / 3 in
      let remainder := wrap (upper - wrap (3 * u_result)) in
      let lower := Z.lor (wrap (Z.shiftl remainder kHalfDigitBits)) (Z.land d kHalfDigitMask) in
      let l_result := lower / 3 in
      let remainder := wrap (lower - wrap (3 * l_result)) in
      X ← wr X i (Z.lor (wrap (Z.shiftl u_result kHalfDigitBits)) l_result);
      mret (X, remainder)) (X, 0);
  mret X.

(** The [DCHECK]s after the interpolation: a coefficient is not negative. *)
Definition dcheck_nonneg (sign : bool) (X : digits) : res unit :=
  dcheck (bool_decide (sign = false \/ length (Normalize X) = 0%nat)).

(** Phase 2a for one operand: the values [p_1] at 1 and [p_m1] at -1; [p_m1] takes the
    place of [po]. *)
Definition Toom3_evaluate (po p_1 X0 X1 X2 : digits) : res (digits * digits * bool) :=
  po ← Add po X0 X2;
  p_1 ← Add p_1 po X1;
  '(p_m1, p_m1_sign) ← SubtractSigned po po false X1 false;
  mret (p_1, p_m1, p_m1_sign).

(** Phase 2b for one operand: [p_m2 = (p_m1 + X2) * 2 - X0], in the place of [p_1]. *)
Definition Toom3_evaluate_m2 (p_1 p_m1 : digits) (p_m1_sign : bool) (X0 X2 : digits)
    : res (digits * bool) :=
  '(p_m2, p_m2_sign) ← AddSigned p_1 p_m1 p_m1_sign X2 false;
  p_m2 ← TimesTwo p_m2;
  SubtractSigned p_m2 p_m2 p_m2_sign X0 false.

(** Phase 4: the coefficients [R1], [R2] and [R3], with the checks that they are not
    negative. *)
Definition Toom3_interpolate (r_0 r_1 r_m1 : digits) (r_m1_sign : bool) (r_m2 : digits)
    (r_m2_sign : bool) (r_inf : digits) : res (digits * digits * digits) :=
  '(R3, R3_sign) ← SubtractSigned r_m2 r_m2 r_m2_sign r_1 false;
  R3 ← DivideByThree R3;
  '(R1, R1_sign) ← SubtractSigned r_1 r_1 false r_m1 r_m1_sign;
  R1 ← DivideByTwo R1;
  '(R2, R2_sign) ← SubtractSigned r_m1 r_m1 r_m1_sign r_0 false;
  '(R3, R3_sign) ← SubtractSigned R3 R2 R2_sign R3 R3_sign;
  R3 ← DivideByTwo R3;
  '(R3, R3_sign) ← AddSigned R3 R3 R3_sign r_inf false;
  '(R3, R3_sign) ← AddSigned R3 R3 R3_sign r_inf false;
  '(R2, R2_sign) ← AddSigned R2 R2 R2_sign R1 R1_sign;
  '(R2, R2_sign) ← SubtractSigned R2 R2 R2_sign r_inf false;
  '(R1, R1_sign) ← SubtractSigned R1 R1 R1_sign R3 R3_sign;
  dcheck_nonneg R1_sign R1;;
  dcheck_nonneg R2_sign R2;;
  dcheck_nonneg R3_sign R3;;
  mret (R1, R2, R3).

(** Phase 5: [r_0] is already in place. *)
Definition Toom3_recompose (Zd r_0 R1 R2 R3 R4 : digits) (i : nat) : res digits :=
  Zd ← zero_from (length r_0) (r_0 ++ drop (length r_0) Zd);
  '(Zd, _) ← on_tail Zd i (fun V => AddAndReturnOverflow V R1);
  '(Zd, _) ← on_tail Zd (2 * i) (fun V => AddAndReturnOverflow V R2);
  '(Zd, _) ← on_tail Zd (3 * i) (fun V => AddAndReturnOverflow V R3);
  '(Zd, _) ← on_tail Zd (4 * i) (fun V => AddAndReturnOverflow V R4);
  mret Zd.

(** [Toom3Main], given [Multiply] for the pointwise products.  [t] is the temporary
    storage; its chunks are reused as in the source ([p_m1] for [po], [r_m2] for
    [p_m1] and [q_m1], and so on). *)
Definition Toom3Main (Multiply : digits -> digits -> digits -> PM digits) (Zd X Y : digits)
    : PM digits :=
  lift (dcheck (bool_decide (length X + length Y <= length Zd)%nat));;
  let i := Z.to_nat (DIV_CEIL (Z.of_nat (length X `max` length Y)) 3) in
  let X0 := Digits_slice X 0 i in
  let X1 := Digits_slice X i i in
  let X2 := Digits_slice X (2 * i) i in
  let Y0 := Digits_slice Y 0 i in
  let Y1 := Digits_slice Y i i in
  let Y2 := Digits_slice Y (2 * i) i in
  let p_len := (i + 1)%nat in
  let r_len := (2 * p_len)%nat in
  let t := uninitialized (4 * r_len) in
  let po := slice t 0 p_len in
  let qo := slice t p_len p_len in
  let p_1 := slice t r_len p_len in
  let q_1 := slice t (r_len + p_len) p_len in
  let r_1 := slice t (2 * r_len) r_len in
  let r_m1 := slice t (3 * r_len) r_len in
  lift (dcheck (bool_decide (r_len <= length Zd)%nat));;
  let r_0 := Digits_slice Zd 0 r_len in
  '(p_1, p_m1, p_m1_sign) ← lift (Toom3_evaluate po p_1 X0 X1 X2);
  '(q_1, q_m1, q_m1_sign) ← lift (Toom3_evaluate qo q_1 Y0 Y1 Y2);
  r_0 ← Multiply r_0 X0 Y0;
  r_1 ← Multiply r_1 p_1 q_1;
  r_m1 ← Multiply r_m1 p_m1 q_m1;
  let r_m1_sign := xorb p_m1_sign q_m1_sign in
  '(p_m2, p_m2_sign) ← lift (Toom3_evaluate_m2 p_1 p_m1 p_m1_sign X0 X2);
  '(q_m2, q_m2_sign) ← lift (Toom3_evaluate_m2 q_1 q_m1 q_m1_sign Y0 Y2);
  r_m2 ← Multiply (p_m1 ++ q_m1) p_m2 q_m2;
  let r_m2_sign := xorb p_m2_sign q_m2_sign in
  r_inf ← Multiply (p_m2 ++ q_m2) X2 Y2;
  '(R1, R2, R3) ← lift (Toom3_interpolate r_0 r_1 r_m1 r_m1_sign r_m2 r_m2_sign r_inf);
  lift (Toom3_recompose Zd r_0 R1 R2 R3 r_inf i).

(** [for (int i = k; i < X.len(); i += k)], at most [m] rounds. *)
Fixpoint MultiplyToomCook_loop (Multiply : digits -> digits -> digits -> PM digits)
    (m i k : nat) (X Y Zd T : digits) : PM digits :=
  match m with
  | O => mret Zd
  | S m =>
      if bool_decide (i < length X)%nat then
        T ← Toom3Main Multiply T (Digits_slice X i k) Y;
        '(Zd, _) ← lift (on_tail Zd i (fun V => AddAndReturnOverflow V T));
        MultiplyToomCook_loop Multiply m (i + k) k X Y Zd T
      else mret Zd
  end.

Definition MultiplyToomCook (Multiply : digits -> digits -> digits -> PM digits)
    (Zd X Y : digits) : PM digits :=
  lift (dcheck (bool_decide (length Y <= length X)%nat));;
  let k := length Y in
  Zd ← Toom3Main Multiply Zd (Digits_slice X 0 k) Y;
  if bool_decide (length Y < length X)%nat then
    MultiplyToomCook_loop Multiply (length X) k k X Y Zd (uninitialized (2 * k))
  else mret Zd.

(** ** In-place doubling and exact division *)

Lemma TimesTwo_spec X :
  digits_ok X -> 2 * val X < bpow (length X) ->
  wp (TimesTwo X) (fun X' => length X' = length X /\ digits_ok X' /\ val X' = 2 * val X).
Proof.
  intros HX Hv. unfold TimesTwo. apply wp_bind. rewrite <- (app_nil_l X) at 2.
  rewrite (write_loop_alias _ 0 [] X X) by (done || by intros; rewrite Nat.sub_0_r).
  apply (wp_write_loop (fun k P c => 0 <= c < 2 /\ val P + bpow k * c = 2 * val (take k X)));
    [done | done | constructor | | |].
  { rewrite take_0. cbn [val]. change (bpow 0) with 1. lia. }
  { intros k P c Hk HlP HP [Hc HJ]. apply wp_bind, wp_rd; [lia | done|]. intros d Hd Hdd.
    apply wp_ret. assert (0 < 1 < kDigitBits) by (destruct kDigitBits_cases; lia).
    destruct (shl_lor d 1 c) as [-> Hdig]; [done | done | done|].
    destruct (shr_rest d 1) as [Hc' Ed]; [done | done|].
    split; [done|]. split; [done|]. change (2 ^ 1) with 2 in *.
    rewrite val_snoc, HlP, bpow_S, (val_take_S _ _ _ Hd). scale_by_weight Ed k. lia. }
  intros P c HlP HP [Hc HJ]. rewrite Nat.add_0_l in *. rewrite take_ge in HJ by done.
  rewrite drop_ge, app_nil_r by done. apply wp_ret.
  assert (c = 0) as ->.
  { pose proof (val_nonneg _ HP). pose proof (bpow_pos (length X)). nia. }
  split_and!; (done || lia).
Qed.

(** A loop that divides by [k] from the top digit down; [C r c] relates the remainder
    to the local variable that carries it. *)
Lemma wp_divide_down k (C : Z -> Z -> Prop) body X c0 (Q : digits * Z -> Prop) :
  0 < k -> C 0 c0 -> digits_ok X ->
  (forall i X' c r d, X' !! i = Some d -> is_digit d -> 0 <= r < k -> C r c ->
     wp (body i (X', c)) (fun '(X'', c') => exists d' r', X'' = <[i := d']> X' /\ is_digit d' /\
       0 <= r' < k /\ C r' c' /\ r * digit_base + d = k * d' + r')) ->
  (forall X' c', length X' = length X -> digits_ok X' -> val X' = val X / k -> Q (X', c')) ->
  wp (for_down (length X) body (X, c0)) Q.
Proof.
  intros Hk HC HX Hbody HQ.
  eapply wp_mono; [apply (wp_for_down (fun i '(X', c) => length X' = length X /\ digits_ok X' /\
    take i X' = take i X /\ exists r, 0 <= r < k /\ C r c /\ val (drop i X) = k * val (drop i X') + r))|].
  - split_and!; [done..|]. exists 0. rewrite drop_ge by done. cbn [val]. split_and!; (done || lia).
  - intros i [X' c] Hi (Hl & HX' & Htk & r & Hr & HCr & HV).
    destruct (lookup_lt_is_Some_2 X i Hi) as [d Hd].
    assert (X' !! i = Some d) as Hd'.
    { rewrite <- (lookup_take_lt X' (S i) i), Htk, lookup_take_lt by lia. done. }
    pose proof (digits_ok_lookup _ _ _ HX Hd) as Hdd.
    eapply wp_mono; [by eapply Hbody|].
    intros [X'' c'] (d' & r' & -> & Hd'' & Hr' & HC' & E).
    rewrite length_insert, take_insert_ge by lia.
    split_and!; [done | by apply Forall_insert | |].
    { apply (f_equal (take i)) in Htk. rewrite !take_take in Htk.
      by replace (i `min` S i)%nat with i in Htk by lia. }
    exists r'. rewrite (val_drop_S X i d Hd).
    rewrite (val_drop_S (<[i := d']> X') i d') by (apply list_lookup_insert_eq; lia).
    rewrite drop_insert_lt by lia. split_and!; [lia | lia | done |].
    rewrite HV. lia.
  - intros [X' c] (Hl & HX' & _ & r & Hr & _ & HV). rewrite !drop_0 in HV.
    apply HQ; [done | done |]. apply Z.div_unique with r; [by left | lia].
Qed.

Lemma DivideByTwo_spec X :
  digits_ok X ->
  wp (DivideByTwo X) (fun X' => length X' = length X /\ digits_ok X' /\ val X' = val X / 2).
Proof.
  intros HX. unfold DivideByTwo. apply wp_bind.
  assert (1 < kDigitBits) as Hw by (destruct kDigitBits_cases; lia).
  pose proof digit_base_even as EB. set (h := 2 ^ (kDigitBits - 1)) in *.
  assert (0 < h) as Hh by (apply Z.pow_pos_nonneg; lia).
  apply (wp_divide_down 2 (fun r c => c = r * h)); [lia | lia | done | |].
  - intros i X' c r d Hd Hdd Hr ->. unfold rd. rewrite Hd. apply wp_bind, wp_Ok.
    apply wp_bind, wp_wr; [by eapply lookup_lt_Some|]. apply wp_ret.
    rewrite Z.shiftr_div_pow2, Z.shiftl_mul_pow2 by lia. change (2 ^ 1) with 2. fold h.
    unfold is_digit in Hdd. pose proof (Z.div_mod d 2). pose proof (Z.mod_pos_bound d 2).
    assert (0 <= d / 2 < h) by lia.
    exists (r * h + d / 2), (d mod 2). rewrite Z.lor_comm.
    unfold h at 1. rewrite lor_shiftl_add by (fold h; lia). fold h.
    split_and!; [done | | lia | lia | | lia].
    + unfold is_digit. nia.
    + unfold wrap. rewrite EB. rewrite Z.mul_mod_distr_r by lia. done.
  - intros X' c' ? ? ?. by apply wp_ret.
Qed.

Lemma DivideByThree_spec X :
  digits_ok X ->
  wp (DivideByThree X) (fun X' => length X' = length X /\ digits_ok X' /\ val X' = val X / 3).
Proof.
  intros HX. unfold DivideByThree. apply wp_bind.
  pose proof kHalfDigitBits_pos as Hw. pose proof digit_base_half as EB. pose proof half_base_ge.
  assert (forall a b, 0 <= a < 3 -> 0 <= b < 2 ^ kHalfDigitBits ->
    Z.lor (wrap (Z.shiftl a kHalfDigitBits)) b = a * 2 ^ kHalfDigitBits + b /\
    wrap (a * 2 ^ kHalfDigitBits + b - wrap (3 * ((a * 2 ^ kHalfDigitBits + b) / 3))) =
      (a * 2 ^ kHalfDigitBits + b) mod 3 /\
    0 <= (a * 2 ^ kHalfDigitBits + b) / 3 < 2 ^ kHalfDigitBits) as Hhalf.
  { intros a b Ha Hb. rewrite Z.shiftl_mul_pow2 by lia.
    rewrite (wrap_small (a * _)) by (unfold is_digit; nia).
    split; [apply lor_shiftl_add; lia|].
    set (u := a * 2 ^ kHalfDigitBits + b) in *.
    assert (0 <= u < 3 * 2 ^ kHalfDigitBits) as Hu by (unfold u; nia).
    pose proof (Z.div_mod u 3). pose proof (Z.mod_pos_bound u 3).
    assert (u < digit_base) by nia.
    rewrite (wrap_small (3 * _)) by (unfold is_digit; lia).
    rewrite wrap_small by (unfold is_digit; lia). lia. }
  apply (wp_divide_down 3 (fun r c => c = r)); [lia | lia | done | |].
  - intros i X' ? r d Hd Hdd Hr ->. unfold rd. rewrite Hd. apply wp_bind, wp_Ok.
    rewrite shiftr_half, land_half_mask. unfold is_digit in Hdd.
    pose proof (Z.div_mod d (2 ^ kHalfDigitBits)). pose proof (Z.mod_pos_bound d (2 ^ kHalfDigitBits)).
    assert (0 <= d / 2 ^ kHalfDigitBits < 2 ^ kHalfDigitBits).
    { split; [apply Z.div_pos; lia | apply Z.div_lt_upper_bound; lia]. }
    destruct (Hhalf r (d / 2 ^ kHalfDigitBits)) as (-> & -> & Hu); [done | done |].
    set (upper := r * 2 ^ kHalfDigitBits + d / 2 ^ kHalfDigitBits) in *.
    pose proof (Z.div_mod upper 3). pose proof (Z.mod_pos_bound upper 3).
    destruct (Hhalf (upper mod 3) (d mod 2 ^ kHalfDigitBits)) as (-> & -> & Hl); [lia | lia |].
    set (lower := upper mod 3 * 2 ^ kHalfDigitBits + d mod 2 ^ kHalfDigitBits) in *.
    pose proof (Z.div_mod lower 3). pose proof (Z.mod_pos_bound lower 3).
    apply wp_bind, wp_wr; [by eapply lookup_lt_Some|]. apply wp_ret.
    rewrite Z.shiftl_mul_pow2 by lia.
    rewrite (wrap_small (upper / 3 * _)) by (unfold is_digit; nia).
    rewrite lor_shiftl_add by lia.
    exists (upper / 3 * 2 ^ kHalfDigitBits + lower / 3), (lower mod 3).
    split_and!; [done | | lia | lia | done |].
    + unfold is_digit. nia.
    + rewrite EB. assert (upper = 3 * (upper / 3) + upper mod 3) as Eu by (apply Z.div_mod; lia).
      apply (f_equal (Z.mul (2 ^ kHalfDigitBits))) in Eu. unfold upper at 1 in Eu. unfold lower in *. lia.
  - intros X' c' ? ? ?. by apply wp_ret.
Qed.

(** ** Signed vectors *)

(** [V] with sign [s] holds the number [x] in [len] digits. *)
Definition sv (len : nat) (V : digits) (s : bool) (x : Z) : Prop :=
  length V = len /\ digits_ok V /\ signed_val s (val V) = x.

Lemma sv_abs len V s x : sv len V s x -> val V = Z.abs x.
Proof.
  intros (_ & HV & <-). pose proof (val_nonneg _ HV). destruct s; simpl; lia.
Qed.

Lemma sv_unsigned len V : digits_ok V -> length V = len -> sv len V false (val V).
Proof. intros. unfold sv. by split_and!. Qed.

Lemma AddSigned_sv len l1 l2 Zd X xs x Y ys y :
  sv l1 X xs x -> sv l2 Y ys y -> (l1 <= len)%nat -> (l2 <= len)%nat -> length Zd = len ->
  Z.abs x + Z.abs y < bpow len ->
  wp (AddSigned Zd X xs Y ys) (fun '(V, s) => sv len V s (x + y)).
Proof.
  intros HX HY H1' H2' Hl Hb. pose proof (sv_abs _ _ _ _ HX) as EX. pose proof (sv_abs _ _ _ _ HY) as EY.
  destruct HX as (HlX & HXo & <-), HY as (HlY & HYo & <-).
  eapply wp_mono; [apply AddSigned_spec; try done; rewrite ?Hl; lia|].
  intros [V s] (HlV & HV & E). rewrite <- E. unfold sv. split_and!; (done || lia).
Qed.

Lemma SubtractSigned_sv len l1 l2 Zd X xs x Y ys y :
  sv l1 X xs x -> sv l2 Y ys y -> (l1 <= len)%nat -> (l2 <= len)%nat -> length Zd = len ->
  Z.abs x + Z.abs y < bpow len ->
  wp (SubtractSigned Zd X xs Y ys) (fun '(V, s) => sv len V s (x - y)).
Proof.
  intros HX HY H1' H2' Hl Hb. pose proof (sv_abs _ _ _ _ HX) as EX. pose proof (sv_abs _ _ _ _ HY) as EY.
  destruct HX as (HlX & HXo & <-), HY as (HlY & HYo & <-).
  eapply wp_mono; [apply SubtractSigned_spec; try done; rewrite ?Hl; lia|].
  intros [V s] (HlV & HV & E). rewrite <- E. unfold sv. split_and!; (done || lia).
Qed.

Lemma TimesTwo_sv len V s x :
  sv len V s x -> 2 * Z.abs x < bpow len -> wp (TimesTwo V) (fun V' => sv len V' s (2 * x)).
Proof.
  intros HV Hb. pose proof (sv_abs _ _ _ _ HV) as E. destruct HV as (Hl & HV & <-).
  eapply wp_mono; [apply TimesTwo_spec; [done | rewrite Hl; lia]|].
  intros V' (? & ? & E'). unfold sv. split_and!; [lia | done |]. rewrite E'. destruct s; simpl; lia.
Qed.

Lemma DivideByTwo_sv len V s x :
  sv len V s (2 * x) -> wp (DivideByTwo V) (fun V' => sv len V' s x).
Proof.
  intros HV. pose proof (sv_abs _ _ _ _ HV) as E. destruct HV as (Hl & HV & Es).
  eapply wp_mono; [by apply DivideByTwo_spec|].
  intros V' (? & ? & E'). unfold sv. split_and!; [lia | done |]. rewrite E', E.
  replace (Z.abs (2 * x)) with (Z.abs x * 2) by lia. rewrite Z.div_mul by lia.
  rewrite E in Es. destruct s; simpl in *; lia.
Qed.

Lemma DivideByThree_sv len V s x :
  sv len V s (3 * x) -> wp (DivideByThree V) (fun V' => sv len V' s x).
Proof.
  intros HV. pose proof (sv_abs _ _ _ _ HV) as E. destruct HV as (Hl & HV & Es).
  eapply wp_mono; [by apply DivideByThree_spec|].
  intros V' (? & ? & E'). unfold sv. split_and!; [lia | done |]. rewrite E', E.
  replace (Z.abs (3 * x)) with (Z.abs x * 3) by lia. rewrite Z.div_mul by lia.
  rewrite E in Es. destruct s; simpl in *; lia.
Qed.

Lemma wp_dcheck_nonneg len V s x (Q : unit -> Prop) :
  sv len V s x -> 0 <= x -> Q tt -> wp (dcheck_nonneg s V) Q.
Proof.
  intros HV Hx HQ. pose proof (sv_abs _ _ _ _ HV) as E. destruct HV as (Hl & HV & Es).
  unfold dcheck_nonneg. apply wp_dcheck_decide; [|done].
  destruct s; [right | by left]. simpl in Es.
  rewrite (val_zero_normalized (Normalize V)); [done | by auto with digits | by auto with digits |].
  rewrite val_Normalize. lia.
Qed.

(** ** The phases *)

Lemma Toom3_evaluate_spec i po p_1 X0 X1 X2 :
  digits_ok X0 -> digits_ok X1 -> digits_ok X2 -> (length X0 <= i)%nat -> (length X1 <= i)%nat ->
  (length X2 <= i)%nat -> length po = (i + 1)%nat -> length p_1 = (i + 1)%nat ->
  wp (Toom3_evaluate po p_1 X0 X1 X2) (fun '(p1, pm1, s) =>
    sv (i + 1) p1 false (val X0 + val X1 + val X2) /\ sv (i + 1) pm1 s (val X0 - val X1 + val X2)).
Proof.
  intros HX0 HX1 HX2 Hl0 Hl1 Hl2 Hlo Hl_1. unfold Toom3_evaluate.
  pose proof (val_bounds _ HX0). pose proof (val_bounds _ HX1). pose proof (val_bounds _ HX2).
  pose proof (bpow_le _ _ Hl0). pose proof (bpow_le _ _ Hl1). pose proof (bpow_le _ _ Hl2).
  assert (4 * bpow i < bpow (i + 1)) as Hroom.
  { rewrite Nat.add_1_r, bpow_S. pose proof digit_base_ge. pose proof (bpow_pos i). nia. }
  wp_apply (Add_exact po X0 X2); [done | done | lia | lia | rewrite Hlo; lia |].
  intros po' (Hlpo & Hpo & Epo).
  wp_apply (Add_exact p_1 po' X1); [done | done | lia | lia | rewrite Hl_1; lia |].
  intros p1 (Hlp1 & Hp1 & Ep1).
  wp_apply (SubtractSigned_sv (i + 1) (i + 1) (length X1) po' po' false (val po') X1 false (val X1));
    [by apply sv_unsigned; [|lia] | by apply sv_unsigned | lia | lia | lia | lia |].
  intros [pm1 s] Hpm1. apply wp_ret. split.
  - unfold sv. split_and!; [lia | done |]. simpl. lia.
  - by replace (val X0 - val X1 + val X2) with (val po' - val X1) by lia.
Qed.

Lemma Toom3_evaluate_m2_spec i p_1 pm1 s X0 X2 x0 x1 x2 :
  length p_1 = (i + 1)%nat -> sv (i + 1) pm1 s (x0 - x1 + x2) ->
  sv (length X0) X0 false x0 -> sv (length X2) X2 false x2 ->
  (length X0 <= i)%nat -> (length X2 <= i)%nat -> 0 <= x1 < bpow i ->
  wp (Toom3_evaluate_m2 p_1 pm1 s X0 X2) (fun '(V, s') => sv (i + 1) V s' (x0 - 2 * x1 + 4 * x2)).
Proof.
  intros Hl1 Hpm1 HX0 HX2 Hl0 Hl2 Hx1. unfold Toom3_evaluate_m2.
  assert (0 <= x0 < bpow i /\ 0 <= x2 < bpow i) as [Hx0 Hx2].
  { destruct HX0 as (_ & HX0 & <-), HX2 as (_ & HX2 & <-). simpl.
    pose proof (val_bounds _ HX0). pose proof (val_bounds _ HX2).
    pose proof (bpow_le _ _ Hl0). pose proof (bpow_le _ _ Hl2). lia. }
  assert (16 * bpow i < bpow (i + 1)) as Hroom.
  { rewrite Nat.add_1_r, bpow_S. pose proof digit_base_ge. pose proof (bpow_pos i). nia. }
  wp_apply (AddSigned_sv (i + 1) _ _ p_1 _ _ _ _ _ _ Hpm1 HX2); [lia.. |]. intros [V s1] HV.
  wp_apply (TimesTwo_sv _ _ _ _ HV); [lia|]. intros V' HV'.
  eapply wp_mono; [apply (SubtractSigned_sv (i + 1) _ _ _ _ _ _ _ _ _ HV' HX0); try lia|].
  { by destruct HV'. }
  intros [V2 s2] H2'. by replace (x0 - 2 * x1 + 4 * x2) with (2 * (x0 - x1 + x2 + x2) - x0) by lia.
Qed.

(** The five values of a product of degree four determine its coefficients. *)
Lemma Toom3_interpolate_spec n M a0 a1 a2 a3 a4 r_0 r_1 r_m1 s1 r_m2 s2 r_inf :
  0 <= a0 <= M -> 0 <= a1 <= M -> 0 <= a2 <= M -> 0 <= a3 <= M -> 0 <= a4 <= M ->
  100 * M < bpow n ->
  sv n r_0 false a0 -> sv n r_1 false (a0 + a1 + a2 + a3 + a4) ->
  sv n r_m1 s1 (a0 - a1 + a2 - a3 + a4) ->
  sv n r_m2 s2 (a0 - 2 * a1 + 4 * a2 - 8 * a3 + 16 * a4) -> sv n r_inf false a4 ->
  wp (Toom3_interpolate r_0 r_1 r_m1 s1 r_m2 s2 r_inf) (fun '(R1, R2, R3) =>
    digits_ok R1 /\ digits_ok R2 /\ digits_ok R3 /\ val R1 = a1 /\ val R2 = a2 /\ val R3 = a3).
Proof.
  intros Ha0 Ha1 Ha2 Ha3 Ha4 Hroom H0' H1' Hm1 Hm2 Hinf. unfold Toom3_interpolate.
  assert (forall V s x, sv n V s x -> length V = n) as Hlen by (by intros V s x (? & _)).
  wp_apply (SubtractSigned_sv n _ _ _ _ _ _ _ _ _ Hm2 H1'); [done | done | eapply Hlen; eassumption | lia |].
  intros [V3 t3] HV3.
  replace (_ - _) with (3 * (- a1 + a2 - 3 * a3 + 5 * a4)) in HV3 by lia.
  wp_apply (DivideByThree_sv _ _ _ _ HV3). intros V3' HV3'.
  wp_apply (SubtractSigned_sv n _ _ _ _ _ _ _ _ _ H1' Hm1); [done | done | eapply Hlen; eassumption | lia |].
  intros [V1 t1] HV1. replace (_ - _) with (2 * (a1 + a3)) in HV1 by lia.
  wp_apply (DivideByTwo_sv _ _ _ _ HV1). intros V1' HV1'.
  wp_apply (SubtractSigned_sv n _ _ _ _ _ _ _ _ _ Hm1 H0'); [done | done | eapply Hlen; eassumption | lia |].
  intros [V2 t2] HV2. replace (_ - _) with (- a1 + a2 - a3 + a4) in HV2 by lia.
  wp_apply (SubtractSigned_sv n _ _ _ _ _ _ _ _ _ HV2 HV3'); [done | done | eapply Hlen; eassumption | lia |].
  intros [W3 u3] HW3. replace (_ - _) with (2 * (a3 - 2 * a4)) in HW3 by lia.
  wp_apply (DivideByTwo_sv _ _ _ _ HW3). intros W3' HW3'.
  wp_apply (AddSigned_sv n _ _ _ _ _ _ _ _ _ HW3' Hinf); [done | done | eapply Hlen; eassumption | lia |].
  intros [W4 u4] HW4.
  wp_apply (AddSigned_sv n _ _ _ _ _ _ _ _ _ HW4 Hinf); [done | done | eapply Hlen; eassumption | lia |].
  intros [R3 q3] HR3. replace (_ + _) with a3 in HR3 by lia.
  wp_apply (AddSigned_sv n _ _ _ _ _ _ _ _ _ HV2 HV1'); [done | done | eapply Hlen; eassumption | lia |].
  intros [W2 u2] HW2.
  wp_apply (SubtractSigned_sv n _ _ _ _ _ _ _ _ _ HW2 Hinf); [done | done | eapply Hlen; eassumption | lia |].
  intros [R2 q2] HR2. replace (_ - _) with a2 in HR2 by lia.
  wp_apply (SubtractSigned_sv n _ _ _ _ _ _ _ _ _ HV1' HR3); [done | done | eapply Hlen; eassumption | lia |].
  intros [R1 q1] HR1. replace (_ - _) with a1 in HR1 by lia.
  apply wp_bind, (wp_dcheck_nonneg _ _ _ _ _ HR1); [lia|].
  apply wp_bind, (wp_dcheck_nonneg _ _ _ _ _ HR2); [lia|].
  apply wp_bind, (wp_dcheck_nonneg _ _ _ _ _ HR3); [lia|]. apply wp_ret.
  rewrite (sv_abs _ _ _ _ HR1), (sv_abs _ _ _ _ HR2), (sv_abs _ _ _ _ HR3).
  destruct HR1 as (_ & ? & _), HR2 as (_ & ? & _), HR3 as (_ & ? & _). split_and!; (done || lia).
Qed.

Lemma Toom3_recompose_spec Zd r_0 R1 R2 R3 R4 i T :
  digits_ok Zd -> digits_ok r_0 -> digits_ok R1 -> digits_ok R2 -> digits_ok R3 -> digits_ok R4 ->
  (length r_0 <= length Zd)%nat -> (4 * i <= length Zd)%nat ->
  T = val r_0 + bpow i * val R1 + bpow (2 * i) * val R2 + bpow (3 * i) * val R3 + bpow (4 * i) * val R4 ->
  T < bpow (length Zd) ->
  wp (Toom3_recompose Zd r_0 R1 R2 R3 R4 i) (fun Z' =>
    length Z' = length Zd /\ digits_ok Z' /\ val Z' = T).
Proof.
  intros HZ H0' H1' H2' H3' H4' Hl0 Hl4 ET HT. unfold Toom3_recompose.
  assert (forall R j, digits_ok R -> 0 <= bpow j * val R) as Hpos.
  { intros R j HR. pose proof (val_nonneg _ HR). pose proof (bpow_pos j).
    apply Z.mul_nonneg_nonneg; lia. }
  pose proof (Hpos R1 i H1'). pose proof (Hpos R2 (2 * i)%nat H2').
  pose proof (Hpos R3 (3 * i)%nat H3'). pose proof (Hpos R4 (4 * i)%nat H4').
  apply wp_bind, wp_zero_from; [done|].
  set (Z0 := r_0 ++ replicate (length (drop (length r_0) Zd)) 0).
  assert (length Z0 = length Zd) as El
    by (unfold Z0; rewrite length_app, length_replicate, length_drop; lia).
  assert (val Z0 = val r_0) as Ev by (unfold Z0; by rewrite val_app_zeros).
  assert (digits_ok Z0) as Ho by (unfold Z0; auto with digits).
  wp_apply (add_chunk Z0 i R1); [done | done | lia | rewrite El; lia |].
  intros [Z1 c1] (Hl1 & HZ1 & E1).
  wp_apply (add_chunk Z1 (2 * i) R2); [done | done | lia | rewrite Hl1, El; lia |].
  intros [Z2 c2] (Hl2 & HZ2 & E2).
  wp_apply (add_chunk Z2 (3 * i) R3); [done | done | lia | rewrite Hl2, Hl1, El; lia |].
  intros [Z3 c3] (Hl3 & HZ3 & E3).
  wp_apply (add_chunk Z3 (4 * i) R4); [done | done | lia | rewrite Hl3, Hl2, Hl1, El; lia |].
  intros [Z4 c4] (Hl5 & HZ4 & E4). apply wp_ret. split_and!; (done || lia).
Qed.

(** What [Toom3Main] needs of [Multiply]: exact products of operands of at most [L]
    digits. *)
Definition exact_mul (L : nat) (mul : digits -> digits -> digits -> PM digits) : Prop :=
  forall Zd X Y p, digits_ok Zd -> digits_ok X -> digits_ok Y ->
    (length X <= L)%nat -> (length Y <= L)%nat -> (length X + length Y <= length Zd)%nat ->
    wpP (mul Zd X Y) p (fun Z' p' => status_le p p' /\ length Z' = length Zd /\ digits_ok Z' /\
      val Z' = val X * val Y).

Lemma mul_sv L mul n l Zd X xs x Y ys y p :
  exact_mul L mul -> digits_ok Zd -> length Zd = n -> sv l X xs x -> sv l Y ys y ->
  (l <= L)%nat -> (2 * l <= n)%nat ->
  wpP (mul Zd X Y) p (fun Z' p' => status_le p p' /\ sv n Z' (xorb xs ys) (x * y)).
Proof.
  intros Hmul HZ Hl (HlX & HX & <-) (HlY & HY & <-) HL Hn.
  eapply wpP_mono; [apply Hmul; (done || lia)|].
  intros Z' p' (? & ? & ? & E). split; [done|]. unfold sv. split_and!; [lia | done |].
  rewrite E. destruct xs, ys; simpl; lia.
Qed.

Lemma val_three_parts X i :
  (length X <= 3 * i)%nat ->
  val X = val (slice X 0 i) + bpow i * val (slice X i i) + bpow (2 * i) * val (slice X (2 * i) i).
Proof.
  intros Hl. rewrite <- (take_ge X (2 * i + i)) at 1 by lia.
  rewrite (val_take_add (2 * i) i). replace (2 * i)%nat with (i + i)%nat at 1 by lia.
  rewrite (val_take_add i i). assert (slice X 0 i = take i X) as -> by (unfold slice; by rewrite drop_0). lia.
Qed.

(** The length of the parts. *)
Definition third (n : nat) : nat := Z.to_nat (DIV_CEIL (Z.of_nat n) 3).

Lemma third_spec n : (0 < n)%nat -> (n <= 3 * third n)%nat /\ (3 * third n <= n + 2)%nat.
Proof.
  intros Hn. unfold third, DIV_CEIL.
  pose proof (Z.div_mod (Z.of_nat n - 1) 3). pose proof (Z.mod_pos_bound (Z.of_nat n - 1) 3).
  split; lia.
Qed.

Lemma Toom3Main_spec mul Zd X Y p :
  let i := third (length X `max` length Y) in
  exact_mul (i + 1) mul -> digits_ok Zd -> digits_ok X -> digits_ok Y ->
  (0 < length X `max` length Y)%nat -> (length X + length Y <= length Zd)%nat ->
  (2 * (i + 1) <= length Zd)%nat -> (4 * i <= length Zd)%nat ->
  wpP (Toom3Main mul Zd X Y) p (fun Z' p' => status_le p p' /\ length Z' = length Zd /\
    digits_ok Z' /\ val Z' = val X * val Y).
Proof.
  intros i Hmul HZ HX HY H0' HlZ Hr H4i. unfold Toom3Main. fold (third (length X `max` length Y)). fold i.
  destruct (third_spec _ H0') as [Hi3 _]. fold i in Hi3.
  apply wpP_bind, wpP_lift, wp_dcheck_decide; [done|].
  apply wpP_bind, wpP_lift, wp_dcheck_decide; [done|]. unfold Digits_slice.
  pose proof (val_three_parts X i ltac:(lia)) as EX. pose proof (val_three_parts Y i ltac:(lia)) as EY.
  assert (forall V j, digits_ok V -> digits_ok (slice V j i) /\ (length (slice V j i) <= i)%nat /\
    0 <= val (slice V j i) < bpow i) as Hpart.
  { intros V j HV. assert (length (slice V j i) <= i)%nat by (rewrite length_slice; lia).
    assert (digits_ok (slice V j i)) as Ho by auto with digits. pose proof (val_bounds _ Ho).
    pose proof (bpow_le (length (slice V j i)) i). split_and!; (done || lia). }
  destruct (Hpart X 0%nat HX) as (HX0 & HlX0 & BX0), (Hpart X i HX) as (HX1 & HlX1 & BX1),
    (Hpart X (2 * i)%nat HX) as (HX2 & HlX2 & BX2), (Hpart Y 0%nat HY) as (HY0 & HlY0 & BY0),
    (Hpart Y i HY) as (HY1 & HlY1 & BY1), (Hpart Y (2 * i)%nat HY) as (HY2 & HlY2 & BY2).
  set (X0 := slice X 0 i) in *. set (X1 := slice X i i) in *. set (X2 := slice X (2 * i) i) in *.
  set (Y0 := slice Y 0 i) in *. set (Y1 := slice Y i i) in *. set (Y2 := slice Y (2 * i) i) in *.
  clearbody X0 X1 X2 Y0 Y1 Y2. clear Hpart.
  set (t := uninitialized (4 * (2 * (i + 1)))).
  assert (digits_ok t) as Ht by apply uninitialized_ok.
  assert (length t = (4 * (2 * (i + 1)))%nat) as Hlt by apply length_uninitialized.
  wpP_lift_apply (Toom3_evaluate_spec i); [done..| | |]; [rewrite length_slice; lia..|].
  intros [[p1 pm1] ps] [Hp1 Hpm1].
  wpP_lift_apply (Toom3_evaluate_spec i); [done..| | |]; [rewrite length_slice; lia..|].
  intros [[q1 qm1] qs] [Hq1 Hqm1].
  (* pointwise products *)
  wpP_apply Hmul; [by auto with digits | done | done | lia | lia | rewrite length_slice; lia |].
  intros r0 pr0 (Hle0 & Hl0 & Hr0 & E0). rewrite length_slice in Hl0.
  wpP_apply (mul_sv _ _ (2 * (i + 1)) _ _ _ _ _ _ _ _ _ Hmul);
    [by auto with digits | rewrite length_slice; lia | exact Hp1 | exact Hq1 | lia | lia |].
  intros r1 pr1 (Hle1 & Hr1).
  wpP_apply (mul_sv _ _ (2 * (i + 1)) _ _ _ _ _ _ _ _ _ Hmul);
    [by auto with digits | rewrite length_slice; lia | exact Hpm1 | exact Hqm1 | lia | lia |].
  intros rm1 prm1 (Hlem1 & Hrm1).
  wpP_lift_apply (Toom3_evaluate_m2_spec i); [by destruct Hp1 | exact Hpm1 | by apply sv_unsigned
    | by apply sv_unsigned | done | done | done |].
  intros [pm2 ps2] Hpm2.
  wpP_lift_apply (Toom3_evaluate_m2_spec i); [by destruct Hq1 | exact Hqm1 | by apply sv_unsigned
    | by apply sv_unsigned | done | done | done |].
  intros [qm2 qs2] Hqm2.
  assert (forall V W s1 s2 x y, sv (i + 1) V s1 x -> sv (i + 1) W s2 y ->
    digits_ok (V ++ W) /\ length (V ++ W) = (2 * (i + 1))%nat) as Happ.
  { intros V W s1 s2 x y (? & ? & _) (? & ? & _). split; [by auto with digits | rewrite length_app; lia]. }
  destruct (Happ _ _ _ _ _ _ Hpm1 Hqm1) as [Ho1 Hlo1]. destruct (Happ _ _ _ _ _ _ Hpm2 Hqm2) as [Ho2 Hlo2].
  wpP_apply (mul_sv _ _ (2 * (i + 1)) _ _ _ _ _ _ _ _ _ Hmul);
    [done | done | exact Hpm2 | exact Hqm2 | lia | lia |].
  intros rm2 prm2 (Hlem2 & Hrm2).
  wpP_apply Hmul; [done | done | done | lia | lia | lia |].
  intros rinf prinf (Hleinf & Hlinf & Hrinf & Einf).
  (* interpolation *)
  set (x0 := val X0) in *. set (x1 := val X1) in *. set (x2 := val X2) in *.
  set (y0 := val Y0) in *. set (y1 := val Y1) in *. set (y2 := val Y2) in *. set (b := bpow i) in *.
  assert (bpow (2 * (i + 1)) = b * b * (digit_base * digit_base)) as Eroom.
  { replace (2 * (i + 1))%nat with (S (S (i + i))) by lia. rewrite !bpow_S, bpow_add. unfold b. lia. }
  assert (0 < b) as Hb by lia.
  assert (forall u v, 0 <= u < b -> 0 <= v < b -> 0 <= u * v <= b * b) as Hmm.
  { intros. split; [apply Z.mul_nonneg_nonneg; lia | apply Z.mul_le_mono_nonneg; lia]. }
  assert (0 <= x0 * y0 <= 3 * (b * b) /\ 0 <= x0 * y1 + x1 * y0 <= 3 * (b * b) /\
    0 <= x0 * y2 + x1 * y1 + x2 * y0 <= 3 * (b * b) /\ 0 <= x1 * y2 + x2 * y1 <= 3 * (b * b) /\
    0 <= x2 * y2 <= 3 * (b * b)) as (Ba0 & Ba1 & Ba2 & Ba3 & Ba4).
  { pose proof (Hmm x0 y0 BX0 BY0). pose proof (Hmm x0 y1 BX0 BY1). pose proof (Hmm x0 y2 BX0 BY2).
    pose proof (Hmm x1 y0 BX1 BY0). pose proof (Hmm x1 y1 BX1 BY1). pose proof (Hmm x1 y2 BX1 BY2).
    pose proof (Hmm x2 y0 BX2 BY0). pose proof (Hmm x2 y1 BX2 BY1). pose proof (Hmm x2 y2 BX2 BY2).
    clear - H1 H2 H3 H4 H5 H6 H7 H8 H9. split_and!; lia. }
  wpP_lift_apply (Toom3_interpolate_spec (2 * (i + 1)) (3 * (b * b)) (x0 * y0) (x0 * y1 + x1 * y0)
    (x0 * y2 + x1 * y1 + x2 * y0) (x1 * y2 + x2 * y1) (x2 * y2));
    [exact Ba0 | exact Ba1 | exact Ba2 | exact Ba3 | exact Ba4 | | | | | | |].
  { rewrite Eroom. pose proof digit_base_ge as HD.
    assert (2 ^ 32 * 2 ^ 32 <= digit_base * digit_base) by (apply Z.mul_le_mono_nonneg; lia).
    assert (0 < b * b) by (by apply Z.mul_pos_pos). nia. }
  { unfold sv. split_and!; [lia | done | exact E0]. }
  { by replace (_ + _ + _) with ((x0 + x1 + x2) * (y0 + y1 + y2)) by ring. }
  { by replace (_ - _ + _ - _ + _) with ((x0 - x1 + x2) * (y0 - y1 + y2)) by ring. }
  { by replace (_ - _ + _ - _ + _) with ((x0 - 2 * x1 + 4 * x2) * (y0 - 2 * y1 + 4 * y2)) by ring. }
  { unfold sv. split_and!; [lia | done | exact Einf]. }
  intros [[R1 R2] R3] (HR1 & HR2 & HR3 & ER1 & ER2 & ER3).
  apply wpP_lift. eapply wp_mono.
  { apply (Toom3_recompose_spec _ _ _ _ _ _ i (val X * val Y)); try done.
    - lia.
    - assert (bpow (2 * i) = b * b) as E2 by (replace (2 * i)%nat with (i + i)%nat by lia; apply bpow_add).
      assert (bpow (3 * i) = b * b * b) as E3.
      { replace (3 * i)%nat with (i + i + i)%nat by lia. by rewrite !bpow_add. }
      assert (bpow (4 * i) = b * b * b * b) as E4.
      { replace (4 * i)%nat with (i + i + i + i)%nat by lia. by rewrite !bpow_add. }
      rewrite E0, ER1, ER2, ER3, Einf, E3, E4, EX, EY, E2. fold b. ring.
    - pose proof (val_nonneg _ HX). pose proof (val_nonneg _ HY).
      apply (partial_product_fits X Y); (done || lia). }
  intros Z' (? & ? & ?). split_and!; [by eauto 8 using status_le_trans | done..].
Qed.

Lemma MultiplyToomCook_loop_spec mul m i k X Y Zd T p :
  exact_mul (third k + 1) mul -> k = length Y -> (4 <= k)%nat ->
  digits_ok X -> digits_ok Y -> digits_ok Zd -> digits_ok T -> length T = (2 * k)%nat ->
  (length X + length Y <= length Zd)%nat -> (length X <= m + i)%nat ->
  val Zd = val (take i X) * val Y ->
  wpP (MultiplyToomCook_loop mul m i k X Y Zd T) p (fun Z' p' => status_le p p' /\
    length Z' = length Zd /\ digits_ok Z' /\ val Z' = val X * val Y).
Proof.
  intros Hmul Hk Hk4 HX HY. revert i Zd T p.
  induction m as [|m IH]; intros i Zd T p HZ HT HlT HlZ Hm HV; cbn [MultiplyToomCook_loop].
  { apply wpP_ret. rewrite (take_ge X) in HV by lia. split_and!; by auto with digits. }
  case_bool_decide as Hi; [|apply wpP_ret; rewrite (take_ge X) in HV by lia; split_and!; by auto with digits].
  unfold Digits_slice. destruct (third_spec k ltac:(lia)) as [Hk3 Hk3'].
  assert ((length (slice X i k) `max` length Y)%nat = k) as Emax by (rewrite length_slice; lia).
  assert (length (slice X i k) <= k)%nat as Hls by (rewrite length_slice; lia).
  wpP_apply Toom3Main_spec; rewrite ?Emax; [done | done | by auto with digits | done | lia | lia | lia | lia |].
  intros T1 p1 (Hle1 & HlT1 & HT1 & ET1).
  pose proof (val_take_add i k X) as EX. pose proof (val_nonneg _ HY) as HY0.
  pose proof (val_take_le (i + k) X HX) as Hle.
  assert (val Zd + bpow i * val T1 = val (take (i + k) X) * val Y) as Esum by (rewrite HV, ET1, EX; ring).
  wpP_lift_apply (add_chunk Zd i T1); [done | done | lia | |].
  { rewrite Esum. apply (partial_product_fits X Y); (done || lia). }
  intros [Z1 c1] (HlZ1 & HZ1 & EZ1).
  wpP_apply IH; [done | done | lia | lia | lia | by rewrite EZ1 |].
  intros Z' p' (? & ? & ? & ?). split_and!; (done || lia || eauto using status_le_trans).
Qed.

Lemma MultiplyToomCook_spec mul Zd X Y p :
  exact_mul (third (length Y) + 1) mul -> digits_ok Zd -> digits_ok X -> digits_ok Y ->
  (4 <= length Y)%nat -> (length Y <= length X)%nat -> (length X + length Y <= length Zd)%nat ->
  wpP (MultiplyToomCook mul Zd X Y) p (fun Z' p' => status_le p p' /\
    length Z' = length Zd /\ digits_ok Z' /\ val Z' = val X * val Y).
Proof.
  intros Hmul HZ HX HY Hk4 Hl HlZ. unfold MultiplyToomCook, Digits_slice.
  apply wpP_bind, wpP_lift, wp_dcheck_decide; [done|].
  destruct (third_spec (length Y) ltac:(lia)) as [Hk3 Hk3'].
  assert (length (slice X 0 (length Y)) = length Y) as El by (rewrite length_slice; lia).
  wpP_apply Toom3Main_spec; rewrite ?El, ?Nat.max_id; [done | done | by auto with digits | done | lia | lia | lia | lia |].
  intros Z1 p1 (Hle1 & HlZ1 & HZ1 & EZ1). unfold slice in EZ1. rewrite drop_0 in EZ1.
  case_bool_decide as Hlt.
  - wpP_apply MultiplyToomCook_loop_spec; [done | done | done | done | done | done |
      apply uninitialized_ok | apply length_uninitialized | lia | lia | done |].
    intros Z' p' (? & ? & ? & ?). split_and!; (done || lia || eauto using status_le_trans).
  - apply wpP_ret. rewrite take_ge in EZ1 by lia. split_and!; done.
Qed.
End mul_toom.
