(* ===== verification/MulFft.v ===== *)
(** FFT multiplication, after Schönhage and Strassen: [src/bigint/mul-fft.cc].  The model
    follows the four parts of the file: arithmetic modulo [F_n = 2^K + 1], the choice of
    the parameters, the transformation of an [FFTContainer], and the multiplication. *)

From Stdlib Require Import ZArith Lia.
From stdpp Require Import base tactics numbers list option.
From S2P Require Import Prelude Digit Digits VectorArithmetic Processor.

#[local] Open Scope Z_scope.

(** [X == Y] on [Digits] compares pointers, which the lists of digits do not show; equal
    pointers point to equal digits. *)
Class PointerEquality := {
  same_digits : digits -> digits -> bool;
  same_digits_eq X Y : same_digits X Y = true -> X = Y;
}.

(** [struct Parameters]. *)
Record Parameters : Type := mkParameters {
  param_m : Z;
  param_K : Z;
  param_n : Z;
  param_s : Z;
  param_r : Z;
}.

(** [class FFTContainer]; [length_] is [K_ + 1], and [processor_] is the state of [PM]. *)
Record FFTContainer : Type := mkContainer {
  n_ : nat;
  K_ : nat;
  part_ : list digits;
  temp_ : digits;
}.

Section mul_fft.
Context `{Config, Platform}.
Context {alloc : Allocator}.
Implicit Types x X Y Zd : digits.

Definition kFftInnerThreshold : Z := 200.

(** ** Part 1: arithmetic modulo F_n *)

(** A digit as a [signed_digit_t]. *)
Definition signed_digit (d : Z) : Z := if d <? digit_base / 2 then d else d - digit_base.

(** [for (int i = 0; i < n; i++) { x[i] = step(x[i], c, &c); if (c == 0) break; }]. *)
Definition ripple (step : Z -> Z -> Z * Z) (n : nat) (x : digits) (c : Z) : res (digits * Z) :=
  '(x, _, c) ← write_while n 0 (fun c => negb (c =? 0))
    (fun i x c => d ← rd x i; mret (step d c)) x c;
  mret (x, c).

Definition ModFn_Helper (x : digits) (high : Z) : res digits :=
  if 0 <? high then
    x ← wr x (length x - 1) 0;
    '(x, _) ← ripple digit_sub (length x) x high;
    mret x
  else
    x ← wr x (length x - 1) 0;
    '(x, _) ← ripple digit_add2 (length x) x (wrap (- high));
    mret x.

Definition ModFn (x : digits) : res digits :=
  let K := (length x - 1)%nat in
  high ← rd x K;
  let high := signed_digit high in
  if high =? 0 then mret x
  else
    x ← ModFn_Helper x high;
    high ← rd x K;
    let high := signed_digit high in
    if high =? 0 then mret x
    else
      dcheck ((high =? 1) || (high =? -1));;
      x ← ModFn_Helper x high;
      high ← rd x K;
      let high := signed_digit high in
      if high =? -1 then ModFn_Helper x high else mret x.

Definition ModFnDoubleWidth (dest src : digits) : res digits :=
  let K := (length dest - 1)%nat in
  '(dest, borrow) ← write_loop K 0
    (fun i _ borrow => a ← rd src i; b ← rd src (i + K); mret (digit_sub2 a b borrow)) dest 0;
  top ← rd src (2 * K);
  dest ← wr dest K (fst (digit_sub2 0 top borrow));
  ModFn dest.

(** [a] and [b] are read before [sum] and [diff] are written, so the operands may be the
    old contents of the results. *)
Definition SumDiff (sum diff a b : digits) : res (digits * digits) :=
  '(sum, diff, _, _) ← for_loop (length a) 0
    (fun i '(sum, diff, carry, borrow) =>
       ai ← rd a i;
       bi ← rd b i;
       let '(s, carry) := digit_add3 ai bi carry in
       let '(d, borrow) := digit_sub2 ai bi borrow in
       sum ← wr sum i s;
       diff ← wr diff i d;
       mret (sum, diff, carry, borrow)) (sum, diff, 0, 0);
  sum ← ModFn sum;
  diff ← ModFn diff;
  mret (sum, diff).

(** [(d << bits_shift) | carry] and [d >> (kDigitBits - bits_shift)]. *)
Definition shl_digit (d bits_shift carry : Z) : Z := Z.lor (wrap (Z.shiftl d bits_shift)) carry.
Definition shl_carry (d bits_shift : Z) : Z := Z.shiftr d (kDigitBits - bits_shift).

(** The two branches of [ShiftModFn_Large] after [digit_shift -= K]. *)
Definition shift_large_digits (result input : digits) (digit_shift K : nat) : res (digits * Z) :=
  '(result, carry) ← write_loop digit_shift 0
    (fun i _ carry => d ← rd input (i + K - digit_shift); mret (digit_add2 d carry)) result 1;
  iK ← rd input K;
  i0 ← rd input 0;
  let '(d, borrow) := digit_sub (wrap (iK + carry)) i0 in
  result ← wr result digit_shift d;
  write_loop (K - (digit_shift + 1)) (digit_shift + 1)
    (fun i _ borrow => d ← rd input (i - digit_shift); mret (digit_sub2 0 d borrow)) result borrow.

Definition shift_large_bits (result input : digits) (digit_shift : nat) (bits_shift : Z) (K : nat)
    : res (digits * Z) :=
  d ← rd input (K - digit_shift - 1);
  '(result, (add_carry, input_carry)) ← write_loop digit_shift 0
    (fun i _ '(add_carry, input_carry) =>
       d ← rd input (i + K - digit_shift);
       let summand := shl_digit d bits_shift input_carry in
       let '(r, add_carry) := digit_add2 summand add_carry in
       mret (r, (add_carry, shl_carry d bits_shift)))
    result (1, shl_carry d bits_shift);
  d ← rd input K;
  let iK_part := shl_digit d bits_shift input_carry in
  let iK_carry := shl_carry d bits_shift in
  let '(sum, add_carry) := digit_add2 add_carry iK_part in
  let iK_carry := wrap (iK_carry + add_carry) in
  d ← rd input 0;
  let i0_part := wrap (Z.shiftl d bits_shift) in
  let '(r, borrow) := digit_sub sum i0_part in
  result ← wr result digit_shift r;
  let input_carry := shl_carry d bits_shift in
  '(result, borrow, input_carry) ←
    (if bool_decide (digit_shift + 1 < K)%nat then
       d ← rd input 1;
       let subtrahend := shl_digit d bits_shift input_carry in
       let '(r, borrow) := digit_sub2 iK_carry subtrahend borrow in
       result ← wr result (digit_shift + 1) r;
       mret (result, borrow, shl_carry d bits_shift)
     else mret (result, borrow, input_carry));
  '(result, (borrow, _)) ← write_loop (K - (digit_shift + 2)) (digit_shift + 2)
    (fun i _ '(borrow, input_carry) =>
       d ← rd input (i - digit_shift);
       let subtrahend := shl_digit d bits_shift input_carry in
       let '(r, borrow) := digit_sub2 0 subtrahend borrow in
       mret (r, (borrow, shl_carry d bits_shift)))
    result (borrow, input_carry);
  mret (result, borrow).

Definition ShiftModFn_Large (result input : digits) (digit_shift : nat) (bits_shift : Z) (K : nat)
    : res digits :=
  dcheck (bool_decide (K <= digit_shift)%nat);;
  let digit_shift := (digit_shift - K)%nat in
  '(result, borrow) ←
    (if bits_shift =? 0 then shift_large_digits result input digit_shift K
     else shift_large_bits result input digit_shift bits_shift K);
  result ← wr result K 0;
  if negb (borrow =? 1) then
    '(result, borrow) ← ripple digit_sub K result 1;
    if negb (borrow =? 0) then
      '(result, _) ← write_loop K 0 (fun _ _ _ => mret (0, tt)) result tt;
      wr result K 1
    else mret result
  else mret result.

(** [std::min(n, zero_above)]; [None] is the default [zero_above], which is larger than
    every length. *)
Definition capped (n : nat) (zero_above : option nat) : nat :=
  match zero_above with Some z => (n `min` z)%nat | None => n end.

(** Two loops in a row: [n1] rounds that read the input, and [n2] rounds that know that its
    digits are zero. *)
Definition capped_loop {C} (n1 n2 a : nat) (body1 body2 : nat -> C -> res (Z * C)) (Zd : digits) (c : C)
    : res (digits * C) :=
  '(Zd, c) ← write_loop n1 a (fun i _ c => body1 i c) Zd c;
  write_loop n2 (a + n1) (fun i _ c => body2 i c) Zd c.

(** The two branches of [ShiftModFn]: the shifted digits, and the borrow into the digit
    above [digit_shift]. *)
Definition shift_digits (result input : digits) (digit_shift K : nat) (zero_above : option nat)
    : res (digits * Z) :=
  let rest := (K - digit_shift)%nat in
  let cap := (1 `max` capped rest zero_above)%nat in
  '(result, _) ← capped_loop (cap - 1) (rest - cap) (digit_shift + 1)
    (fun j _ => d ← rd input (j - digit_shift); mret (d, tt))
    (fun j _ => d ← rd input (j - digit_shift); dcheck (d =? 0);; mret (0, tt)) result tt;
  let cap := (rest `max` capped K zero_above)%nat in
  '(result, borrow) ← capped_loop (cap - rest) (K - cap) 0
    (fun j borrow => d ← rd input (j + rest); mret (digit_sub2 0 d borrow))
    (fun j borrow => d ← rd input (j + rest); dcheck (d =? 0);; mret (digit_sub 0 borrow)) result 0;
  i0 ← rd input 0;
  iK ← rd input K;
  let '(d, borrow) := digit_sub2 i0 iK borrow in
  result ← wr result digit_shift d;
  mret (result, borrow).

Definition shift_bits (result input : digits) (digit_shift : nat) (bits_shift : Z) (K : nat)
    (zero_above : option nat) : res (digits * Z) :=
  let rest := (K - digit_shift)%nat in
  let cap := capped rest zero_above in
  '(result, carry) ← capped_loop cap (rest - cap) digit_shift
    (fun j carry =>
       d ← rd input (j - digit_shift);
       mret (shl_digit d bits_shift carry, shl_carry d bits_shift))
    (fun j carry => d ← rd input (j - digit_shift); dcheck (d =? 0);; mret (carry, 0)) result 0;
  let cap := (rest `max` capped K zero_above)%nat in
  '(result, (borrow, carry)) ← write_loop (cap - rest) 0
    (fun j _ '(borrow, carry) =>
       d ← rd input (j + rest);
       let '(r, borrow) := digit_sub2 0 (shl_digit d bits_shift carry) borrow in
       mret (r, (borrow, shl_carry d bits_shift))) result (0, carry);
  '(result, borrow, carry, i) ←
    (if bool_decide (cap < K)%nat then
       d ← rd input cap;
       dcheck (d =? 0);;
       let '(r, borrow) := digit_sub2 0 carry borrow in
       result ← wr result (cap - rest) r;
       mret (result, borrow, 0, S cap)
     else mret (result, borrow, carry, cap));
  '(result, borrow) ← write_loop (K - i) (i - rest)
    (fun j _ borrow => d ← rd input (j + rest); dcheck (d =? 0);; mret (digit_sub 0 borrow))
    result borrow;
  d ← rd input K;
  r ← rd result digit_shift;
  let '(r, borrow) := digit_sub2 r (shl_digit d bits_shift carry) borrow in
  result ← wr result digit_shift r;
  dcheck (shl_carry d bits_shift =? 0);;
  mret (result, borrow).

(** [while (digit_shift >= 2 * K) digit_shift -= 2 * K]. *)
Fixpoint reduce_shift (fuel digit_shift K : nat) : res nat :=
  if bool_decide (2 * K <= digit_shift)%nat then
    match fuel with
    | O => Err OutOfFuel
    | S fuel => reduce_shift fuel (digit_shift - 2 * K) K
    end
  else mret digit_shift.

Definition ShiftModFn (result input : digits) (power_of_two : Z) (K : nat) (zero_above : option nat)
    : res digits :=
  let digit_shift := Z.to_nat (power_of_two / kDigitBits) in
  let bits_shift := power_of_two mod kDigitBits in
  digit_shift ← reduce_shift digit_shift digit_shift K;
  if bool_decide (K <= digit_shift)%nat then ShiftModFn_Large result input digit_shift bits_shift K
  else
    '(result, borrow) ←
      (if bits_shift =? 0 then shift_digits result input digit_shift K zero_above
       else shift_bits result input digit_shift bits_shift K zero_above);
    result ← wr result K 0;
    '(result, _, borrow) ← write_while (K - digit_shift) (digit_shift + 1) (fun borrow => 0 <? borrow)
      (fun i result borrow => d ← rd result i; mret (digit_sub d borrow)) result borrow;
    if 0 <? borrow then
      '(result, _) ← ripple digit_add2 (K + 1) result 1;
      d ← rd result K;
      wr result K (fst (digit_add2 d 1))
    else mret result.

(** ** Part 2: parameters *)

(** [while (K_tz < threshold) { K += (1 << K_tz); ... }]: every round sets at least one more
    bit of the low zero bits. *)
Fixpoint round_K (fuel : nat) (K threshold : Z) : res Z :=
  let K_tz := CountTrailingZeros K in
  if K_tz <? threshold then
    match fuel with
    | O => Err OutOfFuel
    | S fuel => round_K fuel (K + Z.shiftl 1 K_tz) threshold
    end
  else mret K.

Definition ComputeParameters (N m : Z) : res Parameters :=
  let N := N * kDigitBits in
  let n := Z.shiftl 1 m in
  let nhalf := Z.shiftr n 1 in
  let s := Z.shiftr (N + n - 1) m in
  let s := RoundUp s kDigitBits in
  let K := m + 2 * s + 1 in
  let K := RoundUp K nhalf in
  let threshold :=
    if kFftInnerThreshold * kDigitBits <=? K + 1 then 3 + kLog2DigitBits else kLog2DigitBits in
  K ← round_K 10 K threshold;
  let r := Z.shiftr K (m - 1) in
  dcheck (K mod kDigitBits =? 0);;
  dcheck (s mod kDigitBits =? 0);;
  mret (mkParameters 0 (K / kDigitBits) n (s / kDigitBits) r).

Definition ComputeParameters_Inner (N : Z) : res Parameters :=
  let max_m := CountTrailingZeros N in
  let N_bits := BitLength_int N in
  let m := N_bits - 4 in
  let m := max_m `min` m in
  let N := N * kDigitBits in
  let n := Z.shiftl 1 m in
  let s := Z.shiftr N m in
  dcheck (N =? s * n);;
  let K := m + 2 * s + 1 in
  let K := RoundUp K n in
  let K := RoundUp K kDigitBits in
  let r := Z.shiftr K m in
  dcheck (K mod kDigitBits =? 0);;
  dcheck (s mod kDigitBits =? 0);;
  mret (mkParameters m (K / kDigitBits) n (s / kDigitBits) r).

Definition PredictInnerK (N : Z) : res Z := params ← ComputeParameters_Inner N; mret (param_K params).

(** The double [a / b] for positive integers, as a significand of 53 bits and the power of
    two it is divided by. *)
Definition div_double (a b : Z) : Z * Z :=
  let e := 52 - (Z.log2 a - Z.log2 b) in
  let e := if a * 2 ^ e <? 2 ^ 52 * b then e + 1 else e in
  let q := a * 2 ^ e / b in
  let rem := a * 2 ^ e mod b in
  let up := (b <? 2 * rem) || ((2 * rem =? b) && Z.odd q) in
  (if up then q + 1 else q, e).

(** [factor < c] for a constant [c] between 2 and 4, given by its significand. *)
Definition factor_lt (factor : Z * Z) (c : Z) : bool := fst factor * 2 ^ 51 <? c * 2 ^ snd factor.

(** The significands of the doubles 3.85, 3.73, 3.55, 3.50 and 3.4. *)
Definition k3_85 : Z := 8669429282688205.
Definition k3_73 : Z := 8399213305045975.
Definition k3_55 : Z := 7993889338582630.
Definition k3_50 : Z := 7881299347898368.
Definition k3_4 : Z := 7656119366529843.

Definition ShouldDecrementM (current next after_next : Parameters) : res bool :=
  if (param_K current =? 64) && (112 <=? param_K next) then mret false
  else if param_s current <? 6 then mret true
  else
    let factor := div_double (param_K after_next) (param_K current) in
    if ((param_s current =? 6) && factor_lt factor k3_85) ||
       ((param_s current =? 7) && factor_lt factor k3_73) ||
       ((param_s current =? 8) && factor_lt factor k3_55) ||
       ((param_s current =? 9) && factor_lt factor k3_50) ||
       factor_lt factor k3_4
    then mret true
    else if (160 <=? param_K current) && (param_K current <? 250) then
      inner_K ← PredictInnerK (param_K next); mret (inner_K <? 28)
    else mret false.

(** The loop of [GetParameters]; [m] decreases in every round. *)
Fixpoint choose_m (fuel : nat) (N m : Z) (current next : Parameters) : res (Z * Parameters) :=
  if 2 <? m then
    match fuel with
    | O => Err OutOfFuel
    | S fuel =>
        after_next ← ComputeParameters N (m - 2);
        decrement ← ShouldDecrementM current next after_next;
        if (decrement : bool) then choose_m fuel N (m - 1) next after_next else mret (m, current)
    end
  else mret (m, current).

Definition GetParameters (N : Z) : res (Z * Parameters) :=
  let N_bits := BitLength_int N in
  let max_m := N_bits - 3 in
  let max_m := kLog2DigitBits `max` max_m in
  let m := max_m in
  current ← ComputeParameters N m;
  next ← ComputeParameters N (m - 1);
  choose_m (Z.to_nat m) N m current next.

(** ** Part 3: the transformation *)

Definition length_ (c : FFTContainer) : nat := (K_ c + 1)%nat.

Definition FFTContainer_new (n K : nat) : FFTContainer :=
  let storage := uninitialized ((K + 1) * n) in
  mkContainer n K (map (fun i => slice storage (i * (K + 1)) (K + 1)) (seq 0 n)) (uninitialized (2 * (K + 1))).

(** [part_[i]], and the part of [temp_] that has the length of a part. *)
Definition get_part (c : FFTContainer) (i : nat) : res digits :=
  match part_ c !! i with Some p => Ok p | None => Err OutOfBounds end.
Definition set_part (c : FFTContainer) (i : nat) (p : digits) : FFTContainer :=
  mkContainer (n_ c) (K_ c) (<[i := p]> (part_ c)) (temp_ c).
Definition get_temp (c : FFTContainer) : digits := take (length_ c) (temp_ c).
Definition set_temp (c : FFTContainer) (t : digits) : FFTContainer :=
  mkContainer (n_ c) (K_ c) (part_ c) (t ++ drop (length t) (temp_ c)).

(** [total_bytes] is the length of [dst]. *)
Definition CopyAndZeroExtend (dst src : digits) (digits_to_copy : nat) : res digits :=
  if bool_decide (digits_to_copy <= length src /\ digits_to_copy <= length dst)%nat then
    mret (take digits_to_copy src ++ replicate (length dst - digits_to_copy) 0)
  else Err OutOfBounds.

(** [SumDiff(part_[i], part_[j], part_[i], part_[j], length_)]. *)
Definition sum_diff_parts (c : FFTContainer) (i j : nat) : res FFTContainer :=
  a ← get_part c i;
  b ← get_part c j;
  '(s, d) ← SumDiff a b a b;
  mret (set_part (set_part c i s) j d).

(** One round of the loop of [FFT_ReturnShuffledThreadsafe]. *)
Definition forward_butterfly (start half : nat) (omega : Z) (k : nat) (c : FFTContainer) : res FFTContainer :=
  a ← get_part c (start + k);
  b ← get_part c (start + half + k);
  '(s, t) ← SumDiff a (get_temp c) a b;
  let c := set_temp (set_part c (start + k) s) t in
  let w := omega * Z.of_nat k in
  b ← get_part c (start + half + k);
  r ← ShiftModFn b (get_temp c) w (K_ c) None;
  mret (set_part c (start + half + k) r).

(** [FFT_Recurse], given the transformation. *)
Definition FFT_Recurse (transform : nat -> nat -> Z -> FFTContainer -> res FFTContainer)
    (start half : nat) (omega : Z) (c : FFTContainer) : res FFTContainer :=
  if bool_decide (1 < half)%nat then
    c ← transform start half (2 * omega) c;
    transform (start + half)%nat half (2 * omega) c
  else mret c.

(** The recursion halves [len]. *)
Fixpoint FFT_ReturnShuffledThreadsafe (fuel start len : nat) (omega : Z) (c : FFTContainer)
    : res FFTContainer :=
  match fuel with
  | O => Err OutOfFuel
  | S fuel =>
      dcheck (Nat.even len);;
      let half := Nat.div2 len in
      c ← sum_diff_parts c start (start + half);
      c ← for_loop (half - 1) 1 (forward_butterfly start half omega) c;
      FFT_Recurse (FFT_ReturnShuffledThreadsafe fuel) start half omega c
  end.

(** One round of the loop of [BackwardFFT_Threadsafe]. *)
Definition backward_butterfly (start len : nat) (omega : Z) (k : nat) (c : FFTContainer) : res FFTContainer :=
  let half := Nat.div2 len in
  let w := omega * Z.of_nat (len - k) in
  b ← get_part c (start + half + k);
  t ← ShiftModFn (get_temp c) b w (K_ c) None;
  let c := set_temp c t in
  a ← get_part c (start + k);
  b ← get_part c (start + half + k);
  '(s, d) ← SumDiff a b a (get_temp c);
  mret (set_part (set_part c (start + k) s) (start + half + k) d).

Fixpoint BackwardFFT_Threadsafe (fuel start len : nat) (omega : Z) (c : FFTContainer)
    : res FFTContainer :=
  match fuel with
  | O => Err OutOfFuel
  | S fuel =>
      dcheck (Nat.even len);;
      let half := Nat.div2 len in
      c ← (if bool_decide (2 < half)%nat then
             c ← BackwardFFT_Threadsafe fuel start half (2 * omega) c;
             BackwardFFT_Threadsafe fuel (start + half) half (2 * omega) c
           else mret c);
      c ← sum_diff_parts c start (start + half);
      for_loop (half - 1) 1 (backward_butterfly start len omega) c
  end.

Definition BackwardFFT (start len : nat) (omega : Z) (c : FFTContainer) : res FFTContainer :=
  BackwardFFT_Threadsafe (S len) start len omega c.

(** The first loop of [Start_Default], from part [i] on: [pointer] is the rest of [X]. *)
Fixpoint start_chunks (rounds i : nat) (X : digits) (chunk_size : nat) (theta current_theta : Z)
    (pointer : digits) (c : FFTContainer) : res (nat * digits * FFTContainer) :=
  match rounds with
  | O => mret (i, pointer, c)
  | S rounds =>
      if bool_decide (0 < length pointer)%nat then
        let chunk_size := (chunk_size `min` length pointer)%nat in
        chunk_size ←
          (if bool_decide (i = n_ c - 1 /\ length pointer = chunk_size + 1)%nat then
             top ← rd X (n_ c * chunk_size);
             dcheck (top <=? 1);;
             dcheck (bool_decide (chunk_size + 1 <= length_ c)%nat);;
             mret (chunk_size + 1)%nat
           else mret chunk_size);
        part ← get_part c i;
        c ←
          (if negb (current_theta =? 0) then
             t ← CopyAndZeroExtend (get_temp c) pointer chunk_size;
             let c := set_temp c t in
             part ← ShiftModFn part (get_temp c) current_theta (K_ c) (Some chunk_size);
             mret (set_part c i part)
           else
             part ← CopyAndZeroExtend part pointer chunk_size;
             mret (set_part c i part));
        start_chunks rounds (S i) X chunk_size theta (current_theta + theta) (drop chunk_size pointer) c
      else mret (i, pointer, c)
  end.

(** [memset(part_[i], 0, part_length_in_bytes)]. *)
Definition clear_part (c : FFTContainer) (i : nat) : res FFTContainer :=
  p ← get_part c i; mret (set_part c i (Clear p)).

Definition Start_Default (X : digits) (chunk_size : nat) (theta omega : Z) (c : FFTContainer)
    : res FFTContainer :=
  '(i, pointer, c) ← start_chunks (n_ c) 0 X chunk_size theta 0 X c;
  dcheck (bool_decide (length pointer = 0)%nat);;
  c ← for_loop (n_ c - i) i (fun i c => clear_part c i) c;
  FFT_ReturnShuffledThreadsafe (S (n_ c)) 0 (n_ c) omega c.

(** The loop of [Start] from part [i] on. *)
Fixpoint start_half_chunks (rounds i nhalf chunk_size : nat) (omega : Z) (pointer : digits) (c : FFTContainer)
    : res (nat * FFTContainer) :=
  match rounds with
  | O => mret (i, c)
  | S rounds =>
      if bool_decide (0 < length pointer)%nat then
        let chunk_size := (chunk_size `min` length pointer)%nat in
        part ← get_part c i;
        part ← CopyAndZeroExtend part pointer chunk_size;
        let c := set_part c i part in
        let w := omega * Z.of_nat i in
        other ← get_part c (i + nhalf);
        part ← get_part c i;
        other ← ShiftModFn other part w (K_ c) (Some chunk_size);
        let c := set_part c (i + nhalf) other in
        start_half_chunks rounds (S i) nhalf chunk_size omega (drop chunk_size pointer) c
      else mret (i, c)
  end.

Definition Start (X : digits) (chunk_size : nat) (theta omega : Z) (c : FFTContainer) : res FFTContainer :=
  if bool_decide (Nat.div2 (n_ c * chunk_size) < length X)%nat then Start_Default X chunk_size theta omega c
  else
    dcheck (theta =? 0);;
    let nhalf := Nat.div2 (n_ c) in
    part ← get_part c 0;
    part ← CopyAndZeroExtend part X chunk_size;
    let c := set_part c 0 part in
    part ← get_part c nhalf;
    part ← CopyAndZeroExtend part X chunk_size;
    let c := set_part c nhalf part in
    '(i, c) ← start_half_chunks (nhalf - 1) 1 nhalf chunk_size omega (drop chunk_size X) c;
    c ← for_loop (nhalf - i) i (fun i c => c ← clear_part c i; clear_part c (i + nhalf)) c;
    FFT_Recurse (FFT_ReturnShuffledThreadsafe (S (n_ c))) 0 nhalf omega c.

(** The body of the loop of [NormalizeAndRecombine]. *)
Definition recombine_part (shift : Z) (chunk_size i : nat) (s : digits * FFTContainer)
    : res (digits * FFTContainer) :=
  let '(Zd, c) := s in
  let z_index := (i * chunk_size)%nat in
  part ← get_part c i;
  t ← ShiftModFn (get_temp c) part shift (K_ c) None;
  let c := set_temp c t in
  let count := (length_ c `min` (length Zd - z_index))%nat in
  '(Zd, carry) ← write_loop count z_index
    (fun zi Zd carry => z ← rd Zd zi; t ← rd (temp_ c) (zi - z_index); mret (digit_add3 z t carry)) Zd 0;
  for_loop (length_ c - count) count (fun j _ => t ← rd (temp_ c) j; dcheck (t =? 0)) tt;;
  if negb (carry =? 0) then
    dcheck (bool_decide (z_index + count < length Zd)%nat);;
    Zd ← wr Zd (z_index + count) carry;
    mret (Zd, c)
  else mret (Zd, c).

Definition NormalizeAndRecombine (omega m : Z) (Zd : digits) (chunk_size : nat) (c : FFTContainer)
    : res digits :=
  let shift := Z.of_nat (n_ c) * omega - m in
  '(Zd, _) ← for_loop (n_ c) 0 (recombine_part shift chunk_size) (Clear Zd, c);
  mret Zd.

Fixpoint any_positive (n i : nat) (x : digits) : res bool :=
  match n with
  | O => mret false
  | S n => d ← rd x i; if 0 <? d then mret true else any_positive n (S i) x
  end.

Definition ShouldBeNegative (x : digits) (threshold : Z) (s : nat) : res bool :=
  d ← rd x (2 * s);
  if threshold <=? d then mret true else any_positive (length x - (2 * s + 1)) (2 * s + 1) x.

(** [Z -= F_n - X] from [z_index] on, where [X] is [t]. *)
Definition subtract_complement (Zd t : digits) (z_index K : nat) : res digits :=
  let remaining_z := (length Zd - z_index)%nat in
  t0 ← rd t 0;
  let '(d, borrow_Fn) := digit_sub 1 t0 in
  z ← rd Zd z_index;
  let '(z, borrow_z) := digit_sub z d in
  Zd ← wr Zd z_index z;
  let count := (K `min` remaining_z)%nat in
  '(Zd, (borrow_z, borrow_Fn)) ← write_loop (count - 1) (z_index + 1)
    (fun zi Zd '(borrow_z, borrow_Fn) =>
       ti ← rd t (zi - z_index);
       let '(d, borrow_Fn) := digit_sub2 0 ti borrow_Fn in
       z ← rd Zd zi;
       let '(z, borrow_z) := digit_sub2 z d borrow_z in
       mret (z, (borrow_z, borrow_Fn))) Zd (borrow_z, borrow_Fn);
  let i := (1 `max` count)%nat in
  dcheck (bool_decide (i = K));;
  let count := ((K + 1) `min` remaining_z)%nat in
  '(Zd, (borrow_z, borrow_Fn)) ← write_loop (count - i) (z_index + i)
    (fun zi Zd '(borrow_z, borrow_Fn) =>
       ti ← rd t (zi - z_index);
       let '(d, borrow_Fn) := digit_sub2 1 ti borrow_Fn in
       z ← rd Zd zi;
       let '(z, borrow_z) := digit_sub2 z d borrow_z in
       mret (z, (borrow_z, borrow_Fn))) Zd (borrow_z, borrow_Fn);
  dcheck (borrow_Fn =? 0);;
  let i := (i `max` count)%nat in
  '(Zd, _, _) ← write_while (remaining_z - i) (z_index + i) (fun borrow_z => 0 <? borrow_z)
    (fun zi Zd borrow_z => z ← rd Zd zi; mret (digit_sub z borrow_z)) Zd borrow_z;
  mret Zd.

(** [Z += X] from [z_index] on. *)
Definition add_part (Zd t : digits) (z_index K : nat) : res digits :=
  let remaining_z := (length Zd - z_index)%nat in
  let count := ((K + 1) `min` remaining_z)%nat in
  '(Zd, carry) ← write_loop count z_index
    (fun zi Zd carry => z ← rd Zd zi; ti ← rd t (zi - z_index); mret (digit_add3 z ti carry)) Zd 0;
  for_loop (K + 1 - count) count (fun i _ => ti ← rd t i; dcheck (ti =? 0)) tt;;
  let i := (K + 1)%nat in
  '(Zd, _, _) ← write_while (remaining_z - i) (z_index + i) (fun carry => 0 <? carry)
    (fun zi Zd carry => z ← rd Zd zi; mret (digit_add2 z carry)) Zd carry;
  mret Zd.

(** The body of the loop of [CounterWeightAndRecombine]. *)
Definition counter_weight_part (theta m : Z) (s k : nat) (st : digits * FFTContainer)
    : res (digits * FFTContainer) :=
  let '(Zd, c) := st in
  let z_index := (k * s)%nat in
  let shift := - theta * Z.of_nat k - m in
  let shift := if shift <? 0 then shift + 2 * Z.of_nat (n_ c) * theta else shift in
  dcheck (0 <=? shift);;
  part ← get_part c k;
  t ← ShiftModFn (get_temp c) part shift (K_ c) None;
  let c := set_temp c t in
  negative ← ShouldBeNegative (get_temp c) (Z.of_nat k + 1) s;
  Zd ← (if (negative : bool) then subtract_complement Zd (get_temp c) z_index (K_ c)
        else add_part Zd (get_temp c) z_index (K_ c));
  mret (Zd, c).

Definition CounterWeightAndRecombine (theta m : Z) (Zd : digits) (s : nat) (c : FFTContainer) : res digits :=
  '(Zd, _) ← for_loop (n_ c) 0 (counter_weight_part theta m s) (Clear Zd, c);
  mret Zd.

(** ** Part 4: multiplication *)

(** The loop of [DoPointwiseMultiplication] from part [i] on, given the multiplication of
    two parts; [other] is [None] when it is the container itself.  The result is in
    [temp_], and the first level of the backward transformation is done here. *)
Fixpoint pointwise_loop (multiply : digits -> digits -> digits -> PM digits) (rounds i : nat)
    (other : option (list digits)) (c : FFTContainer) : PM FFTContainer :=
  match rounds with
  | O => mret c
  | S rounds =>
      A ← lift (get_part c i);
      B ← lift (match default (part_ c) other !! i with Some p => Ok p | None => Err OutOfBounds end);
      result ← multiply (temp_ c) A B;
      let c := mkContainer (n_ c) (K_ c) (part_ c) result in
      t ← should_terminate;
      if (t : bool) then mret c
      else
        part ← lift (ModFnDoubleWidth A result);
        let c := set_part c i part in
        c ← lift (if Nat.odd i then sum_diff_parts c (i - 1) i else mret c);
        pointwise_loop multiply rounds (S i) other c
  end.

Definition DoPointwiseMultiplication
    (inner : Parameters -> digits -> digits -> digits -> PM digits)
    (Multiply : digits -> digits -> digits -> PM digits)
    (other : option (list digits)) (start end_ : nat) (c : FFTContainer) : PM FFTContainer :=
  let use_fft := (kFftInnerThreshold <=? Z.of_nat (length_ c)) && (Z.land (Z.of_nat (K_ c)) 3 =? 0) in
  if use_fft then
    params ← lift (ComputeParameters_Inner (Z.of_nat (K_ c)));
    pointwise_loop (inner params) (end_ - start) start other c
  else pointwise_loop Multiply (end_ - start) start other c.

Definition PointwiseMultiply
    (inner : Parameters -> digits -> digits -> digits -> PM digits)
    (Multiply : digits -> digits -> digits -> PM digits)
    (other : option (list digits)) (c : FFTContainer) : PM FFTContainer :=
  lift (dcheck (bool_decide (n_ c = length (default (part_ c) other))));;
  DoPointwiseMultiplication inner Multiply other 0 (n_ c) c.

(** [MultiplyFFT_Inner] and [DoPointwiseMultiplication] call each other with shorter and
    shorter parts. *)
Fixpoint MultiplyFFT_Inner (fuel : nat) (Multiply : digits -> digits -> digits -> PM digits)
    (params : Parameters) (Zd X Y : digits) : PM digits :=
  match fuel with
  | O => lift (Err OutOfFuel)
  | S fuel =>
      let omega := 2 * param_r params in
      let theta := param_r params in
      let n := Z.to_nat (param_n params) in
      let K := Z.to_nat (param_K params) in
      let s := Z.to_nat (param_s params) in
      a ← lift (Start_Default X s theta omega (FFTContainer_new n K));
      b ← lift (Start_Default Y s theta omega (FFTContainer_new n K));
      a ← PointwiseMultiply (MultiplyFFT_Inner fuel Multiply) Multiply (Some (part_ b)) a;
      t ← should_terminate;
      if (t : bool) then mret Zd
      else
        c ← lift (BackwardFFT 0 n omega a);
        lift (CounterWeightAndRecombine theta (param_m params) Zd s c)
  end.

(** Each level of the inner layer at least halves [K], which is an [int]. *)
Definition inner_fuel : nat := 32.

Context {pointers : PointerEquality}.

Definition MultiplyFFT (Multiply : digits -> digits -> digits -> PM digits) (Zd X Y : digits) : PM digits :=
  '(m, params) ← lift (GetParameters (Z.of_nat (length X) + Z.of_nat (length Y)));
  let omega := param_r params in
  let n := Z.to_nat (param_n params) in
  let K := Z.to_nat (param_K params) in
  let s := Z.to_nat (param_s params) in
  let inner := MultiplyFFT_Inner inner_fuel Multiply in
  a ← lift (Start X s 0 omega (FFTContainer_new n K));
  a ← (if same_digits X Y then PointwiseMultiply inner Multiply None a
       else
         b ← lift (Start Y s 0 omega (FFTContainer_new n K));
         PointwiseMultiply inner Multiply (Some (part_ b)) a);
  t ← should_terminate;
  if (t : bool) then mret Zd
  else
    a ← lift (BackwardFFT 0 n omega a);
    lift (NormalizeAndRecombine omega m Zd s a).
End mul_fft.
