(* ===== verification/FftMod.v ===== *)
(** Arithmetic modulo [F_n = 2^K + 1], the first part of [src/bigint/mul-fft.cc]: every
    function returns the canonical representative of the residue it computes. *)

From Stdlib Require Import ZArith Lia.
From stdpp Require Import base tactics numbers list option.
From S2P Require Import Prelude Digit Digits VectorArithmetic Processor MulKaratsuba DivHelpers MulFft.

#[local] Open Scope Z_scope.

(** ** Congruence *)

Definition eqm (F a b : Z) : Prop := exists k, a = b + k * F.

Section congruence.
Context (F : Z).

#[export] Instance eqm_equiv : Equivalence (eqm F).
Proof.
  split.
  - intros a. exists 0. lia.
  - intros a b [k ->]. exists (- k). lia.
  - intros a b c [k ->] [l ->]. exists (k + l). lia.
Qed.
#[export] Instance eqm_add : Proper (eqm F ==> eqm F ==> eqm F) Z.add.
Proof. intros a a' [k ->] b b' [l ->]. exists (k + l). lia. Qed.
#[export] Instance eqm_sub : Proper (eqm F ==> eqm F ==> eqm F) Z.sub.
Proof. intros a a' [k ->] b b' [l ->]. exists (k - l). lia. Qed.
#[export] Instance eqm_mul : Proper (eqm F ==> eqm F ==> eqm F) Z.mul.
Proof. intros a a' [k ->] b b' [l ->]. exists (k * b' + a' * l + k * l * F). lia. Qed.
#[export] Instance eqm_opp : Proper (eqm F ==> eqm F) Z.opp.
Proof. intros a a' [k ->]. exists (- k). lia. Qed.

Lemma eqm_eq a b : a = b -> eqm F a b.
Proof. by intros ->. Qed.

(** Congruent numbers in the same range are equal. *)
Lemma eqm_unique a b lo : eqm F a b -> lo <= a < lo + F -> lo <= b < lo + F -> a = b.
Proof. intros [k ->] Ha Hb. assert (k = 0) as -> by nia. lia. Qed.
End congruence.

Section fft_mod.
Context `{Config}.
Implicit Types x L P : digits.

Definition Fn (K : nat) : Z := bpow K + 1.

(** The canonical representative: a number of [K + 1] digits that is at most [2^K]. *)
Definition canon (K : nat) (x : digits) : Prop := length x = S K /\ digits_ok x /\ val x <= bpow K.

(** [x] represents [v] modulo [F_n]. *)
Definition residue (K : nat) (x : digits) (v : Z) : Prop := canon K x /\ eqm (Fn K) (val x) v.

Lemma residue_mono K x v v' : residue K x v -> eqm (Fn K) v v' -> residue K x v'.
Proof. intros [Hx E] E'. split; [done|]. by rewrite E. Qed.

Lemma split_top K x : length x = S K -> digits_ok x -> exists L t, x = L ++ [t] /\ length L = K /\ digits_ok L /\ is_digit t.
Proof.
  intros Hl Hx. destruct x as [|t L _] using rev_ind; [done|]. rewrite length_app in Hl. cbn in Hl.
  apply Forall_app in Hx as [? Ht]. exists L, t. split_and!; [done | lia | done | by apply Forall_inv in Ht].
Qed.

(** ** Carry propagation *)

Lemma ripple_spec s f n x c :
  step2_ok s f -> digits_ok x -> (n <= length x)%nat -> is_digit c ->
  wp (ripple f n x c) (fun '(x', c') => exists P, x' = P ++ drop n x /\ length P = n /\ digits_ok P /\
    val P + s * (c' * bpow n) = val (take n x) + s * c /\ is_digit c' /\ ((0 < n)%nat -> 0 <= c' <= 1)).
Proof.
  intros Hf Hx Hn Hc. unfold ripple. apply wp_bind. rewrite <- (app_nil_l x) at 1.
  apply (wp_write_while (fun k P c' => is_digit c' /\ ((0 < k)%nat -> 0 <= c' <= 1) /\
    val P + s * (c' * bpow k) = val (take k x) + s * c)); [done | constructor | | |].
  - split_and!; [done | lia|]. rewrite take_0, bpow_0. cbn. lia.
  - intros k P c' Hk HlP HP (Hc' & _ & HJ) _. rewrite Nat.sub_0_r. split; [lia|].
    apply wp_bind. unfold rd. rewrite lookup_app_r, HlP, Nat.sub_diag, lookup_drop, Nat.add_0_r by lia.
    destruct (lookup_lt_is_Some_2 x k) as [d Hd]; [lia|]. rewrite Hd. apply wp_Ok.
    destruct (Hf d c' (digits_ok_lookup _ _ _ Hx Hd) Hc') as (e & c'' & -> & Ed & He & Hc'').
    apply wp_ret. split_and!; [done | by apply carry_is_digit | lia|].
    rewrite val_snoc, HlP, bpow_S, (val_take_S _ _ _ Hd). scale_by_weight Ed k. lia.
  - intros m P c' Hm HlP HP (Hc' & Hc1 & HJ) Hend. rewrite Nat.sub_0_r. apply wp_ret.
    destruct (decide (m = n)) as [-> | Hne].
    { exists P. by split_and!. }
    destruct Hend as [? | Hz%negb_false_iff%Z.eqb_eq]; [lia|]. subst c'.
    exists (P ++ slice x m (n - m)). rewrite length_app, length_slice.
    replace (slice x m (n - m)) with (take (n - m) (drop m x)) by done.
    split_and!; [|lia | by auto using digits_ok_app, digits_ok_take, digits_ok_drop | | done | lia].
    + rewrite <- app_assoc. f_equal. rewrite <- (take_drop (n - m) (drop m x)) at 1. by rewrite drop_drop, Nat.add_comm, Nat.sub_add by lia.
    + rewrite val_app, HlP. replace n with (m + (n - m))%nat at 3 by lia. rewrite val_take_add. unfold slice. lia.
Qed.

(** ** Signed tops *)

Lemma half_base : digit_base = 2 * (digit_base / 2) /\ 2 ^ 31 <= digit_base / 2.
Proof.
  unfold digit_base. destruct kDigitBits_cases as [-> | ->]; split; vm_compute; congruence.
Qed.

Lemma signed_digit_spec t : is_digit t ->
  - (digit_base / 2) <= signed_digit t < digit_base / 2 /\ exists e, signed_digit t = t - e * digit_base.
Proof.
  intros Ht. destruct half_base as [E _]. unfold is_digit, signed_digit in *. destruct (Z.ltb_spec t (digit_base / 2)).
  - split; [lia|]. exists 0. lia.
  - split; [lia|]. exists 1. lia.
Qed.

(** A number in two's complement, given modulo [2^(K+1)]. *)
Lemma signed_top L t S j :
  digits_ok L -> is_digit t -> val (L ++ [t]) = S + j * bpow (Datatypes.S (length L)) ->
  - (digit_base / 2) * bpow (length L) <= S < digit_base / 2 * bpow (length L) ->
  val L + bpow (length L) * signed_digit t = S.
Proof.
  intros HL Ht Hv HS. destruct (signed_digit_spec t Ht) as [Hs [e Es]]. destruct half_base as [E _].
  rewrite val_snoc, bpow_S in Hv. pose proof (val_bounds L HL) as Hb. set (b := bpow (length L)) in *.
  assert (j = e) as -> by nia. rewrite Es. nia.
Qed.

Lemma ModFn_Helper_spec L t :
  digits_ok L -> is_digit t -> L <> [] ->
  wp (ModFn_Helper (L ++ [t]) (signed_digit t)) (fun x' => length x' = S (length L) /\ digits_ok x' /\
    exists j, val x' = val L - signed_digit t + j * bpow (S (length L))).
Proof.
  intros HL Ht Hne. destruct (signed_digit_spec t Ht) as [Hs _]. destruct half_base as [Eb Hb]. set (h := signed_digit t) in *.
  assert (wr (L ++ [t]) (length (L ++ [t]) - 1) 0 = Ok (L ++ [0])) as Ewr.
  { unfold wr. rewrite length_app. cbn [length]. rewrite decide_True by lia. f_equal.
    replace (length L + 1 - 1)%nat with (length L) by lia. rewrite (insert_snoc L [] t 0) by done. by rewrite app_nil_r. }
  assert (digits_ok (L ++ [0])) as H0 by (apply digits_ok_snoc; [done | apply is_digit_0]). assert (length (L ++ [0]) = S (length L)) as Hl0 by (rewrite length_app; cbn; lia).
  unfold ModFn_Helper. destruct (Z.ltb_spec 0 h) as [Hp | Hn]; apply wp_bind; rewrite Ewr; apply wp_Ok; apply wp_bind.
  - eapply wp_mono; [apply (ripple_spec (-1)); [apply digit_sub_step | done | done | unfold is_digit; lia]|].
    intros [x' c] (P & -> & HlP & HP & Hv & _ & _). apply wp_ret. rewrite drop_ge, app_nil_r by done.
    rewrite take_ge, val_snoc in Hv by done. split_and!; [lia | done|]. exists c. rewrite <- Hl0. lia.
  - assert (wrap (- h) = - h) as Ew by (apply wrap_small; unfold is_digit; lia).
    eapply wp_mono; [apply (ripple_spec 1); [apply digit_add2_step | done | done | rewrite Ew; unfold is_digit; lia]|].
    intros [x' c] (P & -> & HlP & HP & Hv & _ & _). apply wp_ret. rewrite drop_ge, app_nil_r by done.
    rewrite take_ge, val_snoc, Ew in Hv by done. split_and!; [lia | done|]. exists (- c). rewrite <- Hl0. lia.
Qed.

(** One application of the helper to a number whose high digit is small. *)
Lemma ModFn_step L t :
  digits_ok L -> is_digit t -> L <> [] ->
  wp (ModFn_Helper (L ++ [t]) (signed_digit t)) (fun x' => exists L' t', x' = L' ++ [t'] /\ length L' = length L /\
    digits_ok L' /\ is_digit t' /\ val L' + bpow (length L) * signed_digit t' = val L - signed_digit t).
Proof.
  intros HL Ht Hne. eapply wp_mono; [by apply ModFn_Helper_spec|]. intros x' (Hl & Hx & j & Hv).
  destruct (split_top _ _ Hl Hx) as (L' & t' & -> & Hl' & HL' & Ht'). exists L', t'. split_and!; try done.
  rewrite <- Hl'. apply (signed_top L' t' _ j); try done; [by rewrite Hl'|].
  destruct (signed_digit_spec t Ht) as [Hs _]. destruct half_base as [Eb Hb]. pose proof (val_bounds L HL). rewrite Hl'.
  assert (digit_base <= bpow (length L)).
  { rewrite <- bpow_1. apply bpow_le. destruct L; [done | cbn; lia]. }
  nia.
Qed.

Lemma rd_top L t : rd (L ++ [t]) (length (L ++ [t]) - 1) = Ok t.
Proof.
  unfold rd. rewrite length_app. cbn. replace (length L + 1 - 1)%nat with (length L) by lia.
  by rewrite lookup_app_r, Nat.sub_diag by lia.
Qed.

Lemma signed_digit_zero t : is_digit t -> signed_digit t = 0 -> t = 0.
Proof. intros Ht E. destruct half_base. unfold is_digit, signed_digit in *. destruct (Z.ltb_spec t (digit_base / 2)); lia. Qed.

Lemma signed_digit_small t : 0 <= t <= 1 -> signed_digit t = t.
Proof. intros Ht. destruct half_base. unfold signed_digit. destruct (Z.ltb_spec t (digit_base / 2)); lia. Qed.

Lemma canon_snoc L t : digits_ok L -> is_digit t -> val L + bpow (length L) * signed_digit t <= bpow (length L) -> 0 <= signed_digit t ->
  canon (length L) (L ++ [t]) /\ val (L ++ [t]) = val L + bpow (length L) * signed_digit t.
Proof.
  intros HL Ht Hv Hs. assert (signed_digit t = t) as E.
  { unfold is_digit, signed_digit in *. destruct half_base. destruct (Z.ltb_spec t (digit_base / 2)); lia. }
  rewrite E in *. split; [|apply val_snoc]. split_and!; [rewrite length_app; cbn; lia | by apply digits_ok_snoc | by rewrite val_snoc].
Qed.

Lemma ModFn_spec L t :
  digits_ok L -> is_digit t -> L <> [] ->
  wp (ModFn (L ++ [t])) (fun x' => residue (length L) x' (val L - signed_digit t)).
Proof.
  intros HL Ht Hne. unfold ModFn. rewrite rd_top. cbn [mbind res_bind]. set (K := length L).
  assert (0 < bpow K) as Hb0 by apply bpow_pos. pose proof (val_bounds L HL) as HvL. fold K in HvL.
  destruct (Z.eqb_spec (signed_digit t) 0) as [Hz | Hz].
  { apply wp_ret. rewrite Hz. destruct (canon_snoc L t HL Ht) as [Hc Ev]; [fold K; lia | lia|]. split; [done|]. apply eqm_eq. rewrite Ev. lia. }
  apply wp_bind. eapply wp_mono; [by apply ModFn_step|]. intros x1 (L1 & t1 & -> & Hl1 & HL1 & Ht1 & Hv1). fold K in Hl1, Hv1.
  replace (length (L ++ [t]) - 1)%nat with (length (L1 ++ [t1]) - 1)%nat by (rewrite !length_app, Hl1; done). rewrite rd_top. cbn [mbind res_bind].
  pose proof (val_bounds L1 HL1) as HvL1. rewrite Hl1 in HvL1. destruct (signed_digit_spec t Ht) as [Hst _]. destruct half_base as [Eb _].
  assert (digit_base <= bpow K) as HbK by (rewrite <- bpow_1; apply bpow_le; unfold K; destruct L; [done | cbn; lia]).
  destruct (Z.eqb_spec (signed_digit t1) 0) as [Hz1 | Hz1].
  { apply wp_ret. rewrite <- Hv1, <- Hl1. destruct (canon_snoc L1 t1 HL1 Ht1) as [Hc Ev]; [rewrite Hl1; lia | lia|]. split; [done|]. by apply eqm_eq. }
  assert (signed_digit t1 = 1 \/ signed_digit t1 = -1) as H1 by nia.
  apply wp_bind, wp_dcheck; [destruct H1 as [-> | ->]; done|].
  apply wp_bind. eapply wp_mono; [apply ModFn_step; [done | done | by intros ->; unfold K in Hl1; destruct L]|].
  intros x2 (L2 & t2 & -> & Hl2 & HL2 & Ht2 & Hv2). rewrite Hl1 in Hl2, Hv2.
  replace (length (L1 ++ [t1]) - 1)%nat with (length (L2 ++ [t2]) - 1)%nat by (rewrite !length_app, Hl1, Hl2; done). rewrite rd_top. cbn [mbind res_bind].
  pose proof (val_bounds L2 HL2) as HvL2. rewrite Hl2 in HvL2.
  assert (eqm (Fn K) (val L1 - signed_digit t1) (val L - signed_digit t)) as Heq.
  { rewrite <- Hv1. exists (- signed_digit t1). unfold Fn. lia. }
  destruct (Z.eqb_spec (signed_digit t2) (-1)) as [Hm | Hm].
  - eapply wp_mono; [apply ModFn_step; [done | done | by intros ->; unfold K in Hl2; destruct L]|].
    intros x3 (L3 & t3 & -> & Hl3 & HL3 & Ht3 & Hv3). rewrite Hl2 in Hl3, Hv3. pose proof (val_bounds L3 HL3) as HvL3. rewrite Hl3 in HvL3.
    assert (0 <= signed_digit t3) as Hs3 by nia.
    destruct (canon_snoc L3 t3 HL3 Ht3) as [Hc Ev]; [rewrite Hl3; lia | done|]. rewrite Hl3 in Hc, Ev. split; [done|].
    rewrite Ev, Hv3, <- Heq, <- Hv2. exists 1. unfold Fn. rewrite Hm. lia.
  - apply wp_ret. assert (0 <= signed_digit t2) as Hs2 by nia.
    destruct (canon_snoc L2 t2 HL2 Ht2) as [Hc Ev]; [rewrite Hl2; lia | done|]. rewrite Hl2 in Hc, Ev. split; [done|].
    by rewrite Ev, Hv2.
Qed.

(** [ModFn] on a number in two's complement. *)
Lemma ModFn_signed K x S j :
  (0 < K)%nat -> length x = Datatypes.S K -> digits_ok x -> val x = S + j * bpow (Datatypes.S K) ->
  - (digit_base / 2) * bpow K <= S < digit_base / 2 * bpow K ->
  wp (ModFn x) (fun x' => residue K x' S).
Proof.
  intros HK Hl Hx Hv HS. destruct (split_top _ _ Hl Hx) as (L & t & -> & HlL & HL & Ht). subst K.
  pose proof (signed_top L t S j HL Ht Hv HS) as Hs. eapply wp_mono; [apply ModFn_spec; [done | done | intros ->; cbn in HK; lia]|].
  intros x' Hr. eapply residue_mono; [exact Hr|]. rewrite <- Hs. exists (- signed_digit t). unfold Fn. lia.
Qed.

(** The double-width product: [V] may be slightly negative, modulo the length of [src]. *)
Lemma ModFnDoubleWidth_spec K dest src V j :
  (0 < K)%nat -> length dest = S K -> digits_ok dest -> length src = (2 * K + 2)%nat -> digits_ok src ->
  val src = V + j * bpow (2 * K + 2) -> - bpow K <= V <= bpow (2 * K) ->
  wp (ModFnDoubleWidth dest src) (fun x' => residue K x' V).
Proof.
  intros HK Hld Hd Hls Hs Hv HV. unfold ModFnDoubleWidth. rewrite Hld. replace (S K - 1)%nat with K by lia. apply wp_bind.
  rewrite <- (app_nil_l dest) at 1.
  apply (wp_write_loop (fun k P c => 0 <= c <= 1 /\ val P - c * bpow k = val (take k src) - val (take k (drop K src))));
    [done | lia | constructor | | |].
  { rewrite !take_0. cbn. lia. }
  { intros k P c Hk HlP HP [Hc HJ]. apply wp_bind, wp_rd; [lia | done|]. intros a Ha Hda.
    apply wp_bind, wp_rd; [lia | done|]. intros b Hb Hdb. destruct (digit_sub2_step a b c Hda Hdb Hc) as (d & c' & -> & Ed & Hdd & Hc').
    apply wp_ret. split_and!; [done | lia | lia|]. assert (drop K src !! k = Some b) as Hb' by (by rewrite lookup_drop, Nat.add_comm).
    rewrite val_snoc, HlP, bpow_S, (val_take_S _ _ _ Ha), (val_take_S _ _ _ Hb'). scale_by_weight Ed k. lia. }
  intros P c HlP HP [Hc HJ]. cbn [Nat.add] in *. apply wp_bind, wp_rd; [lia | done|]. intros top Htop Hdt.
  destruct (digit_sub2_step 0 top c is_digit_0 Hdt Hc) as (t & c' & -> & Et & Hdt' & Hc'). cbn [fst].
  apply wp_bind, wp_wr; [rewrite length_app, length_drop; lia|].
  destruct (drop K dest) as [|y []] eqn:Edrop; apply (f_equal length) in Edrop; rewrite length_drop in Edrop; cbn in Edrop; try lia.
  rewrite (insert_snoc P [] y t K HlP), app_nil_r.
  assert (val src = val (take K src) + bpow K * val (take K (drop K src)) + bpow (2 * K) * val (drop (2 * K) src)) as Hsplit.
  { rewrite <- (take_drop (2 * K) src) at 1. rewrite val_app, length_take, Nat.min_l by lia. replace (2 * K)%nat with (K + K)%nat by lia.
    rewrite val_take_add. unfold slice. lia. }
  rewrite (val_drop_S _ _ _ Htop) in Hsplit.
  pose proof (val_bounds _ (digits_ok_take K src Hs)) as Hb1. pose proof (val_bounds _ (digits_ok_take K _ (digits_ok_drop K src Hs))) as Hb2.
  rewrite length_take, Nat.min_l in Hb1 by lia. rewrite length_take, length_drop, Nat.min_l in Hb2 by lia.
  set (lo := val (take K src)) in *. set (mid := val (take K (drop K src))) in *. set (e := val (drop (S (2 * K)) src)) in *.
  assert (bpow (2 * K) = bpow K * bpow K) as E2 by (rewrite <- bpow_add; f_equal; lia).
  assert (bpow (2 * K + 2) = digit_base * digit_base * (bpow K * bpow K)) as E22.
  { replace (2 * K + 2)%nat with (K + K + 1 + 1)%nat by lia. rewrite !bpow_add, bpow_1. lia. }
  rewrite E22, E2 in *. assert (digit_base <= bpow K) as HbK by (rewrite <- bpow_1; apply bpow_le; lia).
  set (b := bpow K) in *. set (h := top + digit_base * e - j * digit_base * digit_base).
  assert (V = lo + b * mid + b * b * h) as EV by (unfold h; lia).
  assert (-1 <= h <= 1) as Hh by nia. destruct half_base as [Eb Hb31].
  eapply wp_mono; [apply (ModFn_signed K (P ++ [t]) (lo - mid - h * b) (c' + e - j * digit_base)); [done | rewrite length_app; cbn; lia | by apply digits_ok_snoc | |]|].
  - rewrite val_snoc, HlP, bpow_S. fold b. unfold h. scale_by_weight Et K. fold b in Et. lia.
  - fold b. nia.
  - intros x' Hr. eapply residue_mono; [exact Hr|]. rewrite EV. exists (- mid - h * b). unfold Fn. fold b. lia.
Qed.

Lemma SumDiff_spec K sum diff a b :
  (0 < K)%nat -> length sum = S K -> length diff = S K -> canon K a -> canon K b ->
  wp (SumDiff sum diff a b) (fun '(s, d) => residue K s (val a + val b) /\ residue K d (val a - val b)).
Proof.
  intros HK Hls Hld (Hla & Ha & Hva) (Hlb & Hb & Hvb). unfold SumDiff. rewrite Hla. apply wp_bind.
  eapply wp_mono.
  { apply (wp_for_loop (fun k '(s, d, carry, borrow) => exists P Q, s = P ++ drop k sum /\ d = Q ++ drop k diff /\
      length P = k /\ length Q = k /\ digits_ok P /\ digits_ok Q /\ 0 <= carry <= 1 /\ 0 <= borrow <= 1 /\
      val P + carry * bpow k = val (take k a) + val (take k b) /\ val Q - borrow * bpow k = val (take k a) - val (take k b)) (S K) 0).
    - exists [], []. rewrite !take_0. split_and!; (done || constructor || (cbn; lia)).
    - intros k [[[s d] carry] borrow] Hk (P & Q & -> & -> & HlP & HlQ & HP & HQ & Hc & Hbo & E1 & E2).
      apply wp_bind, wp_rd; [lia | done|]. intros x Hx Hdx. apply wp_bind, wp_rd; [lia | done|]. intros y Hy Hdy.
      destruct (digit_add3_step x y carry Hdx Hdy Hc) as (u & c' & -> & Eu & Hu & Hc').
      destruct (digit_sub2_step x y borrow Hdx Hdy Hbo) as (v & b' & -> & Ev & Hv & Hb').
      apply wp_bind, wp_wr_snoc; [done | rewrite length_drop; lia|]. apply wp_bind, wp_wr_snoc; [done | rewrite length_drop; lia|].
      apply wp_ret. exists (P ++ [u]), (Q ++ [v]). rewrite !drop_drop, !Nat.add_1_r, !length_app.
      rewrite !val_snoc, HlP, HlQ, !bpow_S, (val_take_S _ _ _ Hx), (val_take_S _ _ _ Hy). scale_by_weight Eu k. scale_by_weight Ev k.
      split_and!; try done; try (cbn; lia); by apply digits_ok_snoc. }
  cbn [Nat.add]. intros [[[s d] carry] borrow] (P & Q & -> & -> & HlP & HlQ & HP & HQ & Hc & Hbo & E1 & E2).
  rewrite !drop_ge, !app_nil_r by lia. rewrite !take_ge in E1, E2 by lia.
  pose proof (val_bounds a Ha). pose proof (val_bounds b Hb). destruct half_base as [Eb Hb31]. pose proof (bpow_pos K).
  apply wp_bind. eapply wp_mono; [apply (ModFn_signed K P (val a + val b) (- carry)); try done; [lia | nia]|]. intros s Hs.
  apply wp_bind. eapply wp_mono; [apply (ModFn_signed K Q (val a - val b) borrow); try done; [lia | nia]|]. intros d Hd.
  by apply wp_ret.
Qed.

(** ** Shifts *)

(** A loop that fills a range of the result without reading it. *)
Lemma wp_fill {C} (J : nat -> digits -> C -> Prop) n a body Zd (c : C) (Q : digits * C -> Prop) :
  (a + n <= length Zd)%nat -> digits_ok Zd -> J 0%nat [] c ->
  (forall k V c', (k < n)%nat -> length V = k -> digits_ok V -> J k V c' ->
     wp (body (a + k)%nat c') (fun '(d, c'') => is_digit d /\ J (S k) (V ++ [d]) c'')) ->
  (forall V c', length V = n -> digits_ok V -> J n V c' -> Q (take a Zd ++ V ++ drop (a + n) Zd, c')) ->
  wp (write_loop n a (fun i _ c => body i c) Zd c) Q.
Proof.
  intros Hn HZ HJ Hstep HQ. rewrite <- (take_drop a Zd) at 1.
  apply (wp_write_loop (fun k P c => exists V, P = take a Zd ++ V /\ length V = (k - a)%nat /\ digits_ok V /\ J (k - a)%nat V c)).
  - rewrite length_take. lia.
  - rewrite length_drop. lia.
  - by apply digits_ok_take.
  - exists []. rewrite app_nil_r, Nat.sub_diag. split_and!; (done || constructor).
  - intros k P c' Hk HlP HP (V & -> & HlV & HV & HJ'). specialize (Hstep (k - a)%nat V c' ltac:(lia) HlV HV HJ').
    replace (a + (k - a))%nat with k in Hstep by lia. eapply wp_mono; [exact Hstep|]. intros [d c''] [Hd HJ'']. split; [done|].
    exists (V ++ [d]). replace (S k - a)%nat with (S (k - a)) by lia. rewrite app_assoc, length_app. split_and!; try done; [cbn; lia|].
    by apply digits_ok_snoc.
  - intros P c' HlP HP (V & -> & HlV & HV & HJ'). rewrite drop_drop, <- app_assoc. replace (a + n - a)%nat with n in * by lia. by apply HQ.
Qed.

Lemma wp_capped {C} (J : nat -> digits -> C -> Prop) n1 n2 a body1 body2 Zd (c : C) (Q : digits * C -> Prop) :
  (a + n1 + n2 <= length Zd)%nat -> digits_ok Zd -> J 0%nat [] c ->
  (forall k V c', (k < n1)%nat -> length V = k -> digits_ok V -> J k V c' ->
     wp (body1 (a + k)%nat c') (fun '(d, c'') => is_digit d /\ J (S k) (V ++ [d]) c'')) ->
  (forall k V c', (n1 <= k < n1 + n2)%nat -> length V = k -> digits_ok V -> J k V c' ->
     wp (body2 (a + k)%nat c') (fun '(d, c'') => is_digit d /\ J (S k) (V ++ [d]) c'')) ->
  (forall V c', length V = (n1 + n2)%nat -> digits_ok V -> J (n1 + n2)%nat V c' ->
     Q (take a Zd ++ V ++ drop (a + (n1 + n2)) Zd, c')) ->
  wp (capped_loop n1 n2 a body1 body2 Zd c) Q.
Proof.
  intros Hn HZ HJ H1 H2 HQ. unfold capped_loop. apply wp_bind, (wp_fill J); [lia | done | done | done|].
  intros V1 c1 HlV1 HV1 HJ1.
  assert (length (take a Zd ++ V1) = a + n1)%nat as Hl1 by (rewrite length_app, length_take; lia).
  apply (wp_fill (fun k V c => J (n1 + k)%nat (V1 ++ V) c)).
  - rewrite !length_app, length_take, length_drop. lia.
  - auto using digits_ok_app, digits_ok_take, digits_ok_drop.
  - by rewrite Nat.add_0_r, app_nil_r.
  - intros k V c' Hk HlV HV HJ'. specialize (H2 (n1 + k)%nat (V1 ++ V) c' ltac:(lia)). rewrite length_app in H2.
    rewrite <- Nat.add_assoc. eapply wp_mono; [apply H2; [lia | by apply digits_ok_app | done]|].
    intros [d c''] [Hd HJ'']. split; [done|]. by rewrite app_assoc, Nat.add_succ_r.
  - intros V c' HlV HV HJ'. rewrite (app_assoc (take a Zd) V1), take_app_length' by lia.
    rewrite <- drop_drop, drop_app_length' by lia. rewrite drop_drop, <- !app_assoc, (app_assoc V1). rewrite <- Nat.add_assoc.
    apply HQ; [rewrite length_app; lia | by apply digits_ok_app | done].
Qed.

(** The digits of a vector shifted left by less than a digit. *)
Fixpoint shl_digits (bits_shift carry : Z) (x : digits) : digits :=
  match x with
  | [] => []
  | d :: x => shl_digit d bits_shift carry :: shl_digits bits_shift (shl_carry d bits_shift) x
  end.

Definition carry_at (bits_shift : Z) (x : digits) (i : nat) : Z :=
  match i with
  | O => 0
  | S i => match x !! i with Some d => shl_carry d bits_shift | None => 0 end
  end.

Lemma shl_step d bits_shift c :
  is_digit d -> 0 <= bits_shift < kDigitBits -> 0 <= c < 2 ^ bits_shift ->
  is_digit (shl_digit d bits_shift c) /\ 0 <= shl_carry d bits_shift < 2 ^ bits_shift /\
  shl_digit d bits_shift c + digit_base * shl_carry d bits_shift = d * 2 ^ bits_shift + c.
Proof.
  intros Hd Hs Hc. unfold shl_digit, shl_carry. destruct (decide (bits_shift = 0)) as [-> | Hs0].
  { assert (c = 0) as -> by lia. rewrite Z.lor_0_r, Z.shiftl_0_r, Z.sub_0_r, shiftr_digit, wrap_small by done.
    rewrite Z.div_small by done. split_and!; (done || lia). }
  destruct (shl_lor d bits_shift c) as [-> Hdig]; [done | lia | done|].
  destruct (shr_rest d bits_shift) as [Hc' Ed]; [done | lia|]. split_and!; try done; try lia.
Qed.

Lemma shl_digits_spec x bits_shift c :
  digits_ok x -> 0 <= bits_shift < kDigitBits -> 0 <= c < 2 ^ bits_shift ->
  length (shl_digits bits_shift c x) = length x /\ digits_ok (shl_digits bits_shift c x) /\
  val (shl_digits bits_shift c x) +
    bpow (length x) * (match x with [] => c | _ => carry_at bits_shift x (length x) end) = val x * 2 ^ bits_shift + c.
Proof.
  intros Hx Hs. revert c. induction Hx as [|d x Hd Hx IH]; intros c Hc; cbn [shl_digits].
  { split_and!; [done | constructor|]. cbn [val length]. rewrite bpow_0. lia. }
  destruct (shl_step d bits_shift c Hd Hs Hc) as (Hdig & Hc' & E). destruct (IH _ Hc') as (Hl & Hok & Ev).
  split_and!; [cbn; lia | by constructor|]. cbn [val length]. rewrite bpow_S.
  assert (carry_at bits_shift (d :: x) (S (length x)) =
    match x with [] => shl_carry d bits_shift | _ => carry_at bits_shift x (length x) end) as -> by (by destruct x).
  nia.
Qed.

Lemma shl_digits_lookup x bits_shift c i d :
  x !! i = Some d ->
  shl_digits bits_shift c x !! i = Some (shl_digit d bits_shift (match i with O => c | _ => carry_at bits_shift x i end)).
Proof.
  revert c i. induction x as [|e x IH]; intros c [|i] E; cbn in E; try done; [by injection E as ->|].
  cbn [shl_digits lookup list_lookup]. change (shl_digits bits_shift (shl_carry e bits_shift) x !! i = Some (shl_digit d bits_shift (carry_at bits_shift (e :: x) (S i)))).
  rewrite (IH _ _ E). do 2 f_equal. by destruct i.
Qed.

Lemma shl_zero x : digits_ok x -> shl_digits 0 0 x = x.
Proof.
  intros Hx. pose proof kDigitBits_cases. destruct (shl_digits_spec x 0 0 Hx) as (Hl & Hok & Ev); [lia | lia|].
  apply val_inj; try done. rewrite Z.pow_0_r in Ev.
  assert (match x with [] => 0 | _ => carry_at 0 x (length x) end = 0) as E0; [|rewrite E0 in Ev; lia].
  destruct x as [|d x]; [done|]. cbn [length carry_at]. destruct ((d :: x) !! length x) as [e|] eqn:E; [|done].
  unfold shl_carry. rewrite Z.sub_0_r, shiftr_digit. apply Z.div_small. exact (digits_ok_lookup _ _ _ Hx E).
Qed.

(** A canonical number shifted by less than a digit fits. *)
Lemma shl_canon K x bits_shift :
  canon K x -> 0 <= bits_shift < kDigitBits ->
  length (shl_digits bits_shift 0 x) = S K /\ digits_ok (shl_digits bits_shift 0 x) /\
  val (shl_digits bits_shift 0 x) = val x * 2 ^ bits_shift /\ exists d, x !! K = Some d /\ shl_carry d bits_shift = 0.
Proof.
  intros (Hl & Hx & Hv) Hs. pose proof (Z.pow_pos_nonneg 2 bits_shift ltac:(lia) ltac:(lia)).
  destruct (shl_digits_spec x bits_shift 0 Hx Hs) as (Hly & Hok & Ev); [lia|]. rewrite Hl in Hly, Ev.
  destruct (split_top _ _ Hl Hx) as (L & t & -> & HlL & HL & Ht). rewrite val_snoc, HlL in Hv. pose proof (val_bounds L HL). pose proof (bpow_pos K).
  assert (0 <= t <= 1) as Ht1 by (unfold is_digit in Ht; nia).
  assert (shl_carry t bits_shift = 0) as Hc.
  { unfold shl_carry. rewrite Z.shiftr_div_pow2 by lia. apply Z.div_small. split; [lia|].
    assert (2 ^ 1 <= 2 ^ (kDigitBits - bits_shift)) by (apply Z.pow_le_mono_r; lia). lia. }
  assert ((L ++ [t]) !! K = Some t) as Hlook by (by rewrite lookup_app_r, HlL, Nat.sub_diag by lia).
  assert (match L ++ [t] with [] => 0 | _ => carry_at bits_shift (L ++ [t]) (S K) end = 0) as E0.
  { transitivity (carry_at bits_shift (L ++ [t]) (S K)); [by destruct (L ++ [t])|]. cbn [carry_at]. by rewrite Hlook. }
  rewrite E0 in Ev. split_and!; try done; [lia|]. by exists t.
Qed.

(** The digits from [zero_above] on are zero, except possibly the last. *)
Definition zero_from_cap (x : digits) (K : nat) (zero_above : option nat) : Prop :=
  match zero_above with Some z => forall i, (z <= i < K)%nat -> x !! i = Some 0 | None => True end.

Lemma zero_from_cap_at x K zero_above n i :
  zero_from_cap x K zero_above -> (capped n zero_above <= i < n)%nat -> (i < K)%nat -> x !! i = Some 0.
Proof. destruct zero_above as [z|]; cbn [capped zero_from_cap]; [|lia]. intros Hz Hi HiK. apply Hz. lia. Qed.

(** The state after the branches of [ShiftModFn]: [Y] are the shifted digits, the low part of
    which is in place and from which the high part has been subtracted. *)
Definition shifted (Y R : digits) (ds K : nat) (r : digits) (borrow : Z) : Prop :=
  exists D e y0, Y !! 0%nat = Some y0 /\ r = D ++ e :: drop 1 (take (K - ds) Y) ++ drop K R /\ length D = ds /\
    digits_ok D /\ is_digit e /\ 0 <= borrow <= 1 /\
    val D + bpow ds * e - borrow * bpow (S ds) = bpow ds * y0 - val (drop (K - ds) Y).

Lemma val_drop_last (Y : digits) K ds yK : length Y = S K -> (ds <= K)%nat -> Y !! K = Some yK ->
  val (drop (K - ds) Y) = val (slice Y (K - ds) ds) + bpow ds * yK.
Proof.
  intros Hl Hds HK. unfold slice. rewrite <- (take_drop ds (drop (K - ds) Y)) at 1. rewrite val_app, length_take, length_drop, Nat.min_l by lia.
  rewrite drop_drop. replace (K - ds + ds)%nat with K by lia. rewrite (drop_S _ _ _ HK), (drop_ge Y (S K)) by lia. cbn [val]. lia.
Qed.

(** The subtraction of one more digit of the high part. *)
Lemma high_step (Y V : digits) rest k y borrow :
  digits_ok V -> length V = k -> 0 <= borrow <= 1 -> val V - borrow * bpow k = - val (slice Y rest k) ->
  Y !! (rest + k)%nat = Some y -> is_digit y ->
  exists d b', digit_sub2 0 y borrow = (d, b') /\ is_digit d /\ 0 <= b' <= 1 /\
    val (V ++ [d]) - b' * bpow (S k) = - val (slice Y rest (S k)).
Proof.
  intros HV Hl Hb HJ Hy Hdy. destruct (digit_sub2_step 0 y borrow is_digit_0 Hdy Hb) as (d & b' & E & Ed & Hd & Hb').
  exists d, b'. split_and!; try done; try lia. rewrite val_snoc, Hl, bpow_S.
  unfold slice in *. assert (drop rest Y !! k = Some y) as Hy' by (by rewrite lookup_drop). rewrite (val_take_S _ _ _ Hy'). scale_by_weight Ed k. lia.
Qed.

Lemma digit_sub_zero borrow : 0 <= borrow <= 1 -> digit_sub 0 borrow = digit_sub2 0 0 borrow.
Proof.
  intros Hb. pose proof digit_base_ge. destruct (digit_sub_step 0 borrow is_digit_0 (carry_is_digit _ Hb)) as (d & c & -> & E & Hd & Hc).
  destruct (digit_sub2_step 0 0 borrow is_digit_0 is_digit_0 Hb) as (d' & c' & -> & E' & Hd' & Hc').
  unfold is_digit in *. assert (c = c') by nia. subst c'. f_equal. lia.
Qed.

Lemma capped_le n zero_above : (capped n zero_above <= n)%nat.
Proof. destruct zero_above; cbn; lia. Qed.

Lemma shift_digits_spec K R x ds zero_above :
  canon K x -> length R = S K -> digits_ok R -> (ds < K)%nat -> zero_from_cap x K zero_above ->
  wp (shift_digits R x ds K zero_above) (fun '(r, borrow) => shifted (shl_digits 0 0 x) R ds K r borrow).
Proof.
  intros (Hl & Hx & Hv) HlR HR Hds Hz. rewrite shl_zero by done. unfold shift_digits.
  assert (forall i, (i <= K)%nat -> exists d, x !! i = Some d /\ is_digit d) as Hlook.
  { intros i Hi. destruct (lookup_lt_is_Some_2 x i) as [d Hd]; [lia|]. exists d. split; [done|]. exact (digits_ok_lookup _ _ _ Hx Hd). }
  set (rest := (K - ds)%nat). assert (0 < rest)%nat as Hrest by (unfold rest; lia).
  pose proof (capped_le rest zero_above). pose proof (capped_le K zero_above).
  apply wp_bind, (wp_capped (fun k V _ => V = take k (drop 1 x))); [lia | done | done | | |].
  { intros k V [] Hk HlV HV ->. replace (ds + 1 + k - ds)%nat with (1 + k)%nat by lia.
    destruct (Hlook (1 + k)%nat) as (d & Hd & Hdd); [lia|]. apply wp_bind. unfold rd. rewrite Hd. apply wp_Ok, wp_ret. split; [done|].
    symmetry. apply take_S_r. by rewrite lookup_drop. }
  { intros k V [] Hk HlV HV ->. replace (ds + 1 + k - ds)%nat with (1 + k)%nat by lia.
    assert (x !! (1 + k)%nat = Some 0) as Hd by (apply (zero_from_cap_at x K zero_above rest); (done || lia)).
    apply wp_bind. unfold rd. rewrite Hd. apply wp_Ok. apply wp_bind, wp_dcheck; [done|]. apply wp_ret. split; [apply is_digit_0|].
    symmetry. apply take_S_r. by rewrite lookup_drop. }
  intros V [] HlV HV EV. set (cap := (1 `max` capped rest zero_above)%nat) in *.
  replace (cap - 1 + (rest - cap))%nat with (rest - 1)%nat in * by lia.
  replace (ds + 1 + (rest - 1))%nat with K by (unfold rest; lia). clear cap.
  set (R1 := take (ds + 1) R ++ V ++ drop K R).
  assert (length R1 = S K) as HlR1 by (unfold R1; rewrite !length_app, length_take, length_drop; lia).
  assert (digits_ok R1) as HR1 by (unfold R1; auto using digits_ok_app, digits_ok_take, digits_ok_drop).
  set (cap := (rest `max` capped K zero_above)%nat). assert (rest <= cap <= K)%nat as Hcap by lia.
  apply wp_bind, (wp_capped (fun k V b => 0 <= b <= 1 /\ val V - b * bpow k = - val (slice x rest k))); [lia | done | | | |].
  { unfold slice. rewrite take_0. cbn. lia. }
  { intros k W b Hk HlW HW [Hb HJ]. cbn [Nat.add]. destruct (Hlook (rest + k)%nat) as (d & Hd & Hdd); [lia|].
    apply wp_bind. unfold rd. rewrite (Nat.add_comm k), Hd. apply wp_Ok.
    destruct (high_step x W rest k d b HW HlW Hb HJ Hd Hdd) as (e & b' & -> & He & Hb' & HJ'). by apply wp_ret. }
  { intros k W b Hk HlW HW [Hb HJ]. cbn [Nat.add].
    assert (x !! (rest + k)%nat = Some 0) as Hd by (apply (zero_from_cap_at x K zero_above K); (done || lia)).
    apply wp_bind. unfold rd. rewrite (Nat.add_comm k), Hd. apply wp_Ok. apply wp_bind, wp_dcheck; [done|].
    rewrite (digit_sub_zero b Hb). destruct (high_step x W rest k 0 b HW HlW Hb HJ Hd is_digit_0) as (e & b' & -> & He & Hb' & HJ'). by apply wp_ret. }
  intros D b HlD HD [Hb HJ]. replace (cap - rest + (K - cap))%nat with ds in * by (unfold rest in *; lia). rewrite take_0, app_nil_l, Nat.add_0_l.
  destruct (Hlook 0%nat) as (x0 & Hx0 & Hd0); [lia|]. destruct (Hlook K) as (xK & HxK & HdK); [lia|].
  apply wp_bind. unfold rd at 1. rewrite Hx0. apply wp_Ok. apply wp_bind. unfold rd at 1. rewrite HxK. apply wp_Ok.
  destruct (digit_sub2_step x0 xK b Hd0 HdK Hb) as (e & b' & -> & Ee & He & Hb').
  apply wp_bind, wp_wr; [rewrite length_app, length_drop; lia|]. apply wp_ret.
  assert (exists q, drop ds R1 = q :: V ++ drop K R) as [q Eq].
  { unfold R1. rewrite drop_app_le by (rewrite length_take; lia).
    destruct (drop ds (take (ds + 1) R)) as [|q [|]] eqn:E; apply (f_equal length) in E; rewrite length_drop, length_take in E; cbn in E; try lia.
    by exists q. }
  rewrite Eq, (insert_snoc D _ q e ds HlD). exists D, e, x0. split_and!; try done.
  - rewrite <- app_assoc. cbn [app]. do 2 f_equal. rewrite EV. unfold rest. by rewrite skipn_firstn_comm.
  - lia.
  - lia.
  - rewrite (val_drop_last x K ds xK) by (done || lia). rewrite bpow_S. unfold rest in HJ. scale_by_weight Ee ds. lia.
Qed.

Lemma carry_at_S bits_shift x i d : x !! i = Some d -> carry_at bits_shift x (S i) = shl_carry d bits_shift.
Proof. intros E. cbn [carry_at]. by rewrite E. Qed.

Lemma shl_digits_at bits_shift x i d :
  x !! i = Some d -> shl_digits bits_shift 0 x !! i = Some (shl_digit d bits_shift (carry_at bits_shift x i)).
Proof. intros E. rewrite (shl_digits_lookup _ _ _ _ _ E). by destruct i. Qed.

Lemma shl_digit_0 bits_shift carry : shl_digit 0 bits_shift carry = carry.
Proof. unfold shl_digit. rewrite Z.shiftl_0_l. unfold wrap. by rewrite Z.mod_0_l by (pose proof digit_base_ge; lia). Qed.

Lemma shl_carry_0 bits_shift : shl_carry 0 bits_shift = 0.
Proof. unfold shl_carry. apply Z.shiftr_0_l. Qed.

(** The second phase of [shift_bits]: the high digits are subtracted from zero. *)
Lemma shift_bits_high K x bits_shift R1 rest cap (Q : digits * Z * Z -> Prop) :
  canon K x -> 0 <= bits_shift < kDigitBits -> length R1 = S K -> digits_ok R1 -> (0 < rest <= cap)%nat -> (cap <= K)%nat ->
  (forall i, (cap <= i < K)%nat -> x !! i = Some 0) ->
  (forall D b, length D = (K - rest)%nat -> digits_ok D -> 0 <= b <= 1 ->
     val D - b * bpow (K - rest) = - val (slice (shl_digits bits_shift 0 x) rest (K - rest)) ->
     Q (D ++ drop (K - rest) R1, b, carry_at bits_shift x K)) ->
  wp ('(result, (borrow, carry)) ← write_loop (cap - rest) 0
        (fun j _ '(borrow, carry) =>
           d ← rd x (j + rest);
           let '(r, borrow) := digit_sub2 0 (shl_digit d bits_shift carry) borrow in
           mret (r, (borrow, shl_carry d bits_shift))) R1 (0, carry_at bits_shift x rest);
      '(result, borrow, carry, i) ←
        (if bool_decide (cap < K)%nat then
           d ← rd x cap;
           dcheck (d =? 0);;
           let '(r, borrow) := digit_sub2 0 carry borrow in
           result ← wr result (cap - rest) r;
           mret (result, borrow, 0, S cap)
         else mret (result, borrow, carry, cap));
      '(result, borrow) ← write_loop (K - i) (i - rest)
        (fun j _ borrow => d ← rd x (j + rest); dcheck (d =? 0);; mret (digit_sub 0 borrow)) result borrow;
      mret (result, borrow, carry)) Q.
Proof.
  intros Hcx Hs HlR HR Hrest Hcap Hz HQ. pose proof Hcx as (Hl & Hx & _). set (Y := shl_digits bits_shift 0 x).
  destruct (shl_canon K x bits_shift Hcx Hs) as (HlY & HY & _ & _). fold Y in HlY, HY.
  assert (forall i d, x !! i = Some d -> Y !! i = Some (shl_digit d bits_shift (carry_at bits_shift x i)) /\ is_digit (shl_digit d bits_shift (carry_at bits_shift x i))) as HYat.
  { intros i d Hd. pose proof (shl_digits_at bits_shift x i d Hd) as E. split; [done|]. exact (digits_ok_lookup _ _ _ HY E). }
  apply wp_bind, (wp_fill (fun k V '(b, c) => 0 <= b <= 1 /\ c = carry_at bits_shift x (rest + k) /\ val V - b * bpow k = - val (slice Y rest k))); [lia | done | | |].
  { rewrite Nat.add_0_r. unfold slice. rewrite take_0. split_and!; (done || (cbn; lia)). }
  { intros k V [b c] Hk HlV HV (Hb & -> & HJ). cbn [Nat.add]. rewrite (Nat.add_comm k). destruct (lookup_lt_is_Some_2 x (rest + k)) as [d Hd]; [lia|].
    apply wp_bind. unfold rd. rewrite Hd. apply wp_Ok. destruct (HYat _ _ Hd) as [Hy Hdy].
    destruct (high_step Y V rest k _ b HV HlV Hb HJ Hy Hdy) as (e & b' & -> & He & Hb' & HJ'). apply wp_ret. split; [done|].
    rewrite Nat.add_succ_r. split_and!; try lia. by rewrite (carry_at_S _ _ _ _ Hd). }
  intros V1 [b c] HlV HV (Hb & -> & HJ). rewrite take_0, app_nil_l, Nat.add_0_l.
  replace (rest + (cap - rest))%nat with cap by lia.
  (* the first known zero *)
  apply wp_bind. apply (wp_mono _ (fun '(result, b, c, i) => exists V, result = V ++ drop (i - rest) R1 /\ (cap <= i <= K)%nat /\ (rest <= i)%nat /\
    length V = (i - rest)%nat /\ digits_ok V /\ 0 <= b <= 1 /\ c = carry_at bits_shift x K /\ ((i < K)%nat -> (cap < i)%nat) /\
    val V - b * bpow (i - rest) = - val (slice Y rest (i - rest)))).
  { case_bool_decide as Hlt.
    - pose proof (Hz cap ltac:(lia)) as Hd. apply wp_bind. unfold rd. rewrite Hd. apply wp_Ok, wp_bind, wp_dcheck; [done|].
      destruct (HYat _ _ Hd) as [Hy Hdy]. rewrite shl_digit_0 in Hy, Hdy. replace cap with (rest + (cap - rest))%nat in Hy at 1 by lia.
      destruct (high_step Y V1 rest (cap - rest) _ b HV HlV Hb HJ Hy Hdy) as (e & b' & -> & He & Hb' & HJ').
      apply wp_bind, wp_wr_snoc; [done | rewrite length_drop; lia|]. apply wp_ret. exists (V1 ++ [e]).
      replace (S cap - rest)%nat with (S (cap - rest)) by lia. rewrite drop_drop, Nat.add_1_r, length_app.
      split_and!; try done; try lia; [cbn; lia | by apply digits_ok_snoc|].
      destruct K as [|K']; [lia|]. destruct (decide (K' = cap)) as [-> | Hne]; [by rewrite (carry_at_S _ _ _ _ Hd), shl_carry_0|].
      rewrite (carry_at_S _ _ _ 0), shl_carry_0; [done|]. apply Hz. lia.
    - apply wp_ret. exists V1. assert (cap = K) as -> by lia. split_and!; try done; try lia. }
  intros [[[r b1] c1] i] (V & -> & Hi & Hri & HlV1 & HV1 & Hb1 & -> & Hgt & HJ1).
  apply wp_bind, (wp_fill (fun k W b => 0 <= b <= 1 /\ val (V ++ W) - b * bpow (i - rest + k) = - val (slice Y rest (i - rest + k)))).
  - rewrite length_app, length_drop. lia.
  - auto using digits_ok_app, digits_ok_drop.
  - by rewrite app_nil_r, Nat.add_0_r.
  - intros k W b2 Hk HlW HW [Hb2 HJ2]. replace (i - rest + k + rest)%nat with (i + k)%nat by lia.
    pose proof (Hz (i + k)%nat ltac:(lia)) as Hd. apply wp_bind. unfold rd. rewrite Hd. apply wp_Ok, wp_bind, wp_dcheck; [done|].
    rewrite (digit_sub_zero b2 Hb2). destruct (HYat _ _ Hd) as [Hy _].
    assert (carry_at bits_shift x (i + k) = 0) as Hc0.
    { destruct (i + k)%nat as [|ik] eqn:Eik; [done|]. rewrite (carry_at_S _ _ _ 0), shl_carry_0; [done|]. apply Hz. lia. }
    rewrite Hc0, shl_digit_0 in Hy. replace (i + k)%nat with (rest + (i - rest + k))%nat in Hy by lia.
    destruct (high_step Y (V ++ W) rest (i - rest + k) 0 b2) as (e & b' & -> & He & Hb' & HJ'); try done; [by apply digits_ok_app | rewrite length_app; lia | apply is_digit_0|].
    apply wp_ret. split; [done|]. split; [done|]. by rewrite app_assoc, Nat.add_succ_r.
  - intros W b2 HlW HW [Hb2 HJ2]. apply wp_ret. rewrite take_app_length' by lia. rewrite <- drop_drop, drop_app_length', drop_drop by lia.
    replace (i - rest + (K - i))%nat with (K - rest)%nat in * by lia. rewrite app_assoc.
    apply HQ; try done; [rewrite length_app; lia | by apply digits_ok_app].
Qed.

Lemma wp_phases {T} (m1 : res (digits * (Z * Z))) (f2 : digits -> Z -> Z -> res (digits * Z * Z * nat))
    (f3 : digits -> Z -> nat -> res (digits * Z)) (f4 : digits -> Z -> Z -> res T) (Q : T -> Prop) :
  wp ('(r, (b, c)) ← m1; '(r, b, c, i) ← f2 r b c; '(r, b) ← f3 r b i; mret (r, b, c)) (fun '(r, b, c) => wp (f4 r b c) Q) ->
  wp ('(r, (b, c)) ← m1; '(r, b, c, i) ← f2 r b c; '(r, b) ← f3 r b i; f4 r b c) Q.
Proof.
  destruct m1 as [[r [b c]]|]; cbn [mbind res_bind]; [|done]. destruct (f2 r b c) as [[[[r' b'] c'] i]|]; cbn [mbind res_bind]; [|done].
  by destruct (f3 r' b' i) as [[r'' b'']|].
Qed.

Lemma shift_bits_spec K R x ds bits_shift zero_above :
  canon K x -> length R = S K -> digits_ok R -> (ds < K)%nat -> 0 <= bits_shift < kDigitBits -> zero_from_cap x K zero_above ->
  wp (shift_bits R x ds bits_shift K zero_above) (fun '(r, borrow) => shifted (shl_digits bits_shift 0 x) R ds K r borrow).
Proof.
  intros Hcx HlR HR Hds Hs Hz. pose proof Hcx as (Hl & Hx & _). unfold shift_bits. set (Y := shl_digits bits_shift 0 x).
  destruct (shl_canon K x bits_shift Hcx Hs) as (HlY & HY & _ & xK & HxK & HcK). fold Y in HlY, HY.
  assert (forall i d, x !! i = Some d -> Y !! i = Some (shl_digit d bits_shift (carry_at bits_shift x i)) /\ is_digit (shl_digit d bits_shift (carry_at bits_shift x i))) as HYat.
  { intros i d Hd. pose proof (shl_digits_at bits_shift x i d Hd) as E. split; [done|]. exact (digits_ok_lookup _ _ _ HY E). }
  set (rest := (K - ds)%nat). assert (0 < rest)%nat as Hrest by (unfold rest; lia).
  pose proof (capped_le rest zero_above). pose proof (capped_le K zero_above).
  apply wp_bind, (wp_capped (fun k V c => V = take k Y /\ c = carry_at bits_shift x k)); [lia | done | done | | |].
  { intros k V c Hk HlV HV [-> ->]. replace (ds + k - ds)%nat with k by lia. destruct (lookup_lt_is_Some_2 x k) as [d Hd]; [lia|].
    apply wp_bind. unfold rd. rewrite Hd. apply wp_Ok, wp_ret. destruct (HYat _ _ Hd) as [Hy Hdy]. split; [done|].
    rewrite (carry_at_S _ _ _ _ Hd). split; [|done]. symmetry. by apply take_S_r. }
  { intros k V c Hk HlV HV [-> ->]. replace (ds + k - ds)%nat with k by lia.
    assert (x !! k = Some 0) as Hd by (apply (zero_from_cap_at x K zero_above rest); (done || lia)).
    apply wp_bind. unfold rd. rewrite Hd. apply wp_Ok, wp_bind, wp_dcheck; [done|]. apply wp_ret. destruct (HYat _ _ Hd) as [Hy Hdy].
    rewrite shl_digit_0 in Hy, Hdy. split; [done|]. rewrite (carry_at_S _ _ _ _ Hd), shl_carry_0. split; [|done]. symmetry. by apply take_S_r. }
  intros V c HlV HV [EV ->]. set (cap := capped rest zero_above) in *.
  replace (cap + (rest - cap))%nat with rest in * by lia. replace (ds + rest)%nat with K by (unfold rest; lia).
  set (R1 := take ds R ++ V ++ drop K R).
  assert (length R1 = S K) as HlR1 by (unfold R1; rewrite !length_app, length_take, length_drop; lia).
  assert (digits_ok R1) as HR1 by (unfold R1; auto using digits_ok_app, digits_ok_take, digits_ok_drop).
  apply wp_phases. apply (shift_bits_high K x bits_shift R1 rest); try done; try lia.
  { intros i Hi. apply (zero_from_cap_at x K zero_above K); (done || lia). }
  intros D b HlD HD Hb HJ. replace (K - rest)%nat with ds in * by (unfold rest; lia).
  apply wp_bind. unfold rd at 1. rewrite HxK. apply wp_Ok.
  destruct (lookup_lt_is_Some_2 Y 0) as [y0 Hy0]; [lia|]. pose proof (digits_ok_lookup _ _ _ HY Hy0) as Hdy0.
  assert (drop ds R1 = y0 :: drop 1 V ++ drop K R) as Eq.
  { unfold R1. rewrite drop_app_length' by (rewrite length_take; lia). destruct V as [|v V]; [cbn in HlV; lia|].
    apply (f_equal (lookup 0%nat)) in EV. rewrite lookup_take_lt, Hy0 in EV by lia. by injection EV as ->. }
  rewrite Eq. apply wp_bind. unfold rd. rewrite lookup_app_r, HlD, Nat.sub_diag by lia. apply wp_Ok.
  destruct (HYat _ _ HxK) as [HyK HdyK].
  destruct (digit_sub2_step y0 _ b Hdy0 HdyK Hb) as (e & b' & -> & Ee & He & Hb').
  apply wp_bind, wp_wr; [rewrite length_app; cbn; lia|]. rewrite (insert_snoc D _ y0 e ds HlD).
  apply wp_bind, wp_dcheck; [by rewrite HcK|]. apply wp_ret. exists D, e, y0. split_and!; try done; try lia.
  - rewrite <- app_assoc. cbn [app]. by rewrite EV.
  - rewrite (val_drop_last Y K ds _ HlY ltac:(lia) HyK). rewrite bpow_S. fold Y in HJ. unfold rest in HJ. scale_by_weight Ee ds. lia.
Qed.

(** A carry that is propagated into the upper part of a vector until it is zero. *)
Lemma wp_ripple_tail s f n a P0 R c (Q : digits * nat * Z -> Prop) :
  step2_ok s f -> length P0 = a -> length R = n -> digits_ok P0 -> digits_ok R -> 0 <= c <= 1 ->
  (forall V m c', length V = n -> digits_ok V -> 0 <= c' <= 1 -> val V + s * (c' * bpow n) = val R + s * c -> Q (P0 ++ V, m, c')) ->
  wp (write_while n a (fun c => 0 <? c) (fun i x c => d ← rd x i; mret (f d c)) (P0 ++ R) c) Q.
Proof.
  intros Hf Ha Hn HP0 HR Hc HQ.
  apply (wp_write_while (fun k P c' => 0 <= c' <= 1 /\ exists V, P = P0 ++ V /\ length V = (k - a)%nat /\ digits_ok V /\
    val V + s * (c' * bpow (k - a)) = val (take (k - a) R) + s * c)); [done | done | | |].
  - split; [done|]. exists []. rewrite app_nil_r, Nat.sub_diag, take_0, bpow_0. split_and!; (done || constructor || (cbn; lia)).
  - intros k P c' Hk HlP HP (Hc' & V & -> & HlV & HV & HJ) _. split; [lia|].
    apply wp_bind. unfold rd. rewrite lookup_app_r, HlP, Nat.sub_diag, lookup_drop, Nat.add_0_r by lia.
    destruct (lookup_lt_is_Some_2 R (k - a)) as [d Hd]; [lia|]. rewrite Hd. apply wp_Ok.
    destruct (Hf d c' (digits_ok_lookup _ _ _ HR Hd) (carry_is_digit _ Hc')) as (e & c'' & -> & Ed & He & Hc'').
    apply wp_ret. split_and!; try done; try lia. exists (V ++ [e]). replace (S k - a)%nat with (S (k - a)) by lia.
    rewrite app_assoc, length_app, val_snoc, HlV, bpow_S, (val_take_S _ _ _ Hd). scale_by_weight Ed (k - a)%nat.
    split_and!; [done | cbn; lia | by apply digits_ok_snoc | lia].
  - intros m P c' Hm HlP HP (Hc' & V & -> & HlV & HV & HJ) Hend. rewrite <- app_assoc.
    apply HQ; [rewrite length_app, length_drop; lia | auto using digits_ok_app, digits_ok_drop | done|].
    rewrite val_app, HlV. rewrite <- (take_drop (m - a) R) at 2. rewrite val_app, length_take, Nat.min_l by lia.
    destruct Hend as [-> | Hz%Z.ltb_ge].
    + replace (a + n - a)%nat with n in * by lia. lia.
    + assert (c' = 0) as -> by lia. lia.
Qed.

(** The end of [ShiftModFn]: the borrow is propagated, and [F_n] is added to a negative
    result. *)
Lemma shift_finish K Y R ds r borrow :
  (0 < K)%nat -> length Y = S K -> digits_ok Y -> length R = S K -> digits_ok R -> (ds < K)%nat -> shifted Y R ds K r borrow ->
  wp (result ← wr r K 0;
      '(result, _, borrow) ← write_while (K - ds) (ds + 1) (fun borrow => 0 <? borrow)
        (fun i result borrow => d ← rd result i; mret (digit_sub d borrow)) result borrow;
      if 0 <? borrow then
        '(result, _) ← ripple digit_add2 (K + 1) result 1;
        d ← rd result K;
        wr result K (fst (digit_add2 d 1))
      else mret result)
    (fun r' => residue K r' (bpow ds * val Y)).
Proof.
  intros HK HlY HY HlR HR Hds (D & e & y0 & Hy0 & -> & HlD & HD & He & Hb & HJ).
  set (M := drop 1 (take (K - ds) Y)). assert (length M = (K - ds - 1)%nat) as HlM by (unfold M; rewrite length_drop, length_take; lia).
  assert (digits_ok M) as HM by (unfold M; auto using digits_ok_drop, digits_ok_take).
  destruct (drop K R) as [|q [|]] eqn:Eq; apply (f_equal length) in Eq; rewrite length_drop in Eq; cbn in Eq; try lia.
  apply wp_bind, wp_wr; [rewrite length_app; cbn; rewrite length_app; cbn; lia|].
  replace (D ++ e :: M ++ [q]) with ((D ++ e :: M) ++ [q]) by (by rewrite <- app_assoc).
  rewrite (insert_snoc _ [] q 0 K), app_nil_r by (rewrite length_app; cbn; lia).
  replace ((D ++ e :: M) ++ [0]) with ((D ++ [e]) ++ (M ++ [0])) by (by rewrite <- !app_assoc).
  set (W := bpow ds * val (take (K - ds) Y) - val (drop (K - ds) Y)).
  assert (val (take (K - ds) Y) = y0 + digit_base * val M) as Elo.
  { unfold M. destruct Y as [|y Y]; [done|]. injection Hy0 as ->. destruct (K - ds)%nat eqn:E; [lia|]. cbn [take drop val]. done. }
  assert (eqm (Fn K) W (bpow ds * val Y)) as HW.
  { exists (- val (drop (K - ds) Y)). rewrite <- (take_drop (K - ds) Y) at 1. rewrite val_app, length_take, Nat.min_l by lia.
    unfold W, Fn. replace (bpow K) with (bpow ds * bpow (K - ds)) by (rewrite <- bpow_add; f_equal; lia). lia. }
  pose proof (val_bounds _ (digits_ok_take (K - ds) Y HY)) as Hblo. pose proof (val_bounds _ (digits_ok_drop (K - ds) Y HY)) as Hbhi.
  rewrite length_take, Nat.min_l in Hblo by lia. rewrite length_drop, HlY in Hbhi. replace (S K - (K - ds))%nat with (S ds) in Hbhi by lia.
  assert (bpow (S ds) <= bpow K) as HbK by (apply bpow_le; lia). pose proof (bpow_pos ds) as Hpd.
  assert (bpow K = bpow ds * bpow (K - ds)) as EK by (rewrite <- bpow_add; f_equal; lia).
  assert (- bpow K < W < bpow K) as HbW by (unfold W; nia).
  apply wp_bind, (wp_ripple_tail (-1) digit_sub); [apply digit_sub_step | rewrite length_app; cbn; lia | rewrite length_app; cbn; lia | by apply digits_ok_snoc | apply digits_ok_snoc; [done | apply is_digit_0] | done |].
  intros V m b' HlV HV Hb' Ev. rewrite val_snoc in Ev.
  assert (val ((D ++ [e]) ++ V) = W + b' * bpow (S K)) as Er.
  { rewrite val_app, val_snoc, length_app, HlD. cbn [length]. rewrite Nat.add_1_r. scale_by_weight Ev (S ds).
    replace (bpow (S K)) with (bpow (S ds) * bpow (K - ds)) by (rewrite <- bpow_add; f_equal; lia).
    rewrite bpow_S in *. unfold W. rewrite Elo. lia. }
  assert (length ((D ++ [e]) ++ V) = S K) as Hlr by (rewrite !length_app; cbn; lia).
  assert (digits_ok ((D ++ [e]) ++ V)) as Hr by (apply digits_ok_app; [by apply digits_ok_snoc | done]).
  set (r := (D ++ [e]) ++ V) in *. pose proof (val_bounds r Hr) as Hbr. rewrite Hlr, bpow_S in Hbr. rewrite bpow_S in Er. pose proof digit_base_ge.
  destruct (Z.ltb_spec 0 b') as [Hb1 | Hb0].
  - assert (b' = 1) as -> by lia. apply wp_bind.
    eapply wp_mono; [apply (ripple_spec 1); [apply digit_add2_step | done | lia | unfold is_digit; lia]|].
    intros [r1 c] (P & -> & HlP & HP & EP & _ & Hc). specialize (Hc ltac:(lia)). rewrite drop_ge, app_nil_r by lia. rewrite take_ge in EP by lia.
    destruct (split_top K P) as (L & t & -> & HlL & HL & Ht); [lia | done|]. rewrite Nat.add_1_r, bpow_S in EP.
    apply wp_bind. unfold rd. rewrite lookup_app_r, HlL, Nat.sub_diag by lia. apply wp_Ok.
    destruct (digit_add2_step t 1) as (t' & c2 & -> & Et & Ht' & Hc2); [done | unfold is_digit; lia|]. cbn [fst].
    apply wp_wr; [rewrite length_app; cbn; lia|]. rewrite (insert_snoc L [] t t' K HlL), app_nil_r.
    rewrite val_snoc, HlL in EP. assert (val (L ++ [t']) = W + Fn K) as Efin.
    { pose proof (val_bounds _ (digits_ok_snoc _ _ HL Ht')) as Hbt. rewrite length_app, HlL, Nat.add_1_r, bpow_S in Hbt. rewrite val_snoc, HlL in *.
      scale_by_weight Et K. assert (2 * bpow K <= digit_base * bpow K) by nia. unfold Fn. set (u := bpow K) in *.
      assert (c = 0 \/ c = 1) as [-> | ->] by lia; assert (c2 = 0 \/ c2 = 1) as [-> | ->] by lia; lia. }
    split; [split_and!; [rewrite length_app; cbn; lia | by apply digits_ok_snoc | unfold Fn in Efin; lia]|].
    rewrite Efin, <- HW. exists 1. lia.
  - apply wp_ret. assert (b' = 0) as -> by lia. split; [split_and!; [done | done | lia]|]. by rewrite Er, Z.mul_0_l, Z.add_0_r.
Qed.

(** ** Shifts by [K] digits and more *)

(** The state after the branches of [ShiftModFn_Large], which compute one more than the
    result: [lo] and [hi] are the parts of the shifted digits. *)
Definition shifted_large (Y R : digits) (ds K : nat) (r : digits) (borrow : Z) : Prop :=
  exists V, r = V ++ drop K R /\ length V = K /\ digits_ok V /\ 0 <= borrow <= 1 /\
    val V - borrow * bpow K = 1 + val (drop (K - ds) Y) - bpow ds * val (take (K - ds) Y).

(** One more digit of the high part is added. *)
Lemma large_add_step (Y V : digits) a k y carry :
  digits_ok V -> length V = k -> 0 <= carry <= 1 -> val V + carry * bpow k = 1 + val (slice Y a k) ->
  Y !! (a + k)%nat = Some y -> is_digit y ->
  exists d c', digit_add2 y carry = (d, c') /\ is_digit d /\ 0 <= c' <= 1 /\ val (V ++ [d]) + c' * bpow (S k) = 1 + val (slice Y a (S k)).
Proof.
  intros HV Hl Hb HJ Hy Hdy. destruct (digit_add2_step y carry Hdy (carry_is_digit _ Hb)) as (d & c' & E & Ed & Hd & Hc').
  exists d, c'. split_and!; try done; try lia. rewrite val_snoc, Hl, bpow_S.
  unfold slice in *. assert (drop a Y !! k = Some y) as Hy' by (by rewrite lookup_drop). rewrite (val_take_S _ _ _ Hy'). scale_by_weight Ed k. lia.
Qed.

(** One more digit of the low part is subtracted. *)
Lemma large_sub_step (Y V : digits) (h : Z) ds k y borrow :
  digits_ok V -> length V = (ds + k)%nat -> 0 <= borrow <= 1 -> val V - borrow * bpow (ds + k) = h - bpow ds * val (take k Y) ->
  Y !! k = Some y -> is_digit y ->
  exists d b', digit_sub2 0 y borrow = (d, b') /\ is_digit d /\ 0 <= b' <= 1 /\
    val (V ++ [d]) - b' * bpow (ds + S k) = h - bpow ds * val (take (S k) Y).
Proof.
  intros HV Hl Hb HJ Hy Hdy. destruct (digit_sub2_step 0 y borrow is_digit_0 Hdy Hb) as (d & b' & E & Ed & Hd & Hb').
  exists d, b'. split_and!; try done; try lia. rewrite val_snoc, Hl, Nat.add_succ_r, bpow_S, (val_take_S _ _ _ Hy).
  rewrite bpow_add in *. scale_by_weight Ed k. scale_by_weight Ed ds. lia.
Qed.

(** The digit where both parts meet. *)
Lemma large_middle (Y V : digits) K ds yK y0 carry sum :
  length Y = S K -> (ds < K)%nat -> digits_ok V -> length V = ds -> val V + carry * bpow ds = 1 + val (slice Y (K - ds) ds) ->
  Y !! K = Some yK -> Y !! 0%nat = Some y0 -> is_digit y0 -> sum = yK + carry -> is_digit sum ->
  exists d b, digit_sub sum y0 = (d, b) /\ is_digit d /\ 0 <= b <= 1 /\
    val (V ++ [d]) - b * bpow (ds + 1) = 1 + val (drop (K - ds) Y) - bpow ds * val (take 1 Y).
Proof.
  intros HlY Hds HV Hl HJ HyK Hy0 Hd0 -> Hsum. destruct (digit_sub_step _ y0 Hsum Hd0) as (d & b & E & Ed & Hd & Hb).
  exists d, b. split_and!; try done; try lia. assert (val (take 1 Y) = y0) as -> by (destruct Y as [|? Y]; [done|]; injection Hy0 as ->; destruct Y; cbn [take val]; lia). rewrite val_snoc, Hl, Nat.add_1_r, bpow_S.
  rewrite (val_drop_last Y K ds yK) by (done || lia). scale_by_weight Ed ds. lia.
Qed.

Lemma shift_large_digits_spec K R x ds :
  canon K x -> length R = S K -> digits_ok R -> (ds < K)%nat ->
  wp (shift_large_digits R x ds K) (fun '(r, borrow) => shifted_large (shl_digits 0 0 x) R ds K r borrow).
Proof.
  intros Hcx HlR HR Hds. pose proof Hcx as (Hl & Hx & Hv). rewrite shl_zero by done. unfold shift_large_digits.
  destruct (lookup_lt_is_Some_2 x 0) as [x0 Hx0]; [lia|]. destruct (lookup_lt_is_Some_2 x K) as [xK HxK]; [lia|].
  assert (0 <= xK <= 1) as HxK1.
  { destruct (split_top K x Hl Hx) as (L & t & -> & HlL & HL & Ht). rewrite lookup_app_r, HlL, Nat.sub_diag in HxK by lia. injection HxK as ->.
    rewrite val_snoc, HlL in Hv. pose proof (val_bounds L HL). pose proof (bpow_pos K). unfold is_digit in Ht. nia. }
  apply wp_bind, (wp_fill (fun k V c => 0 <= c <= 1 /\ val V + c * bpow k = 1 + val (slice x (K - ds) k))); [lia | done | | |].
  { unfold slice. rewrite take_0. cbn [val]. pose proof bpow_0. lia. }
  { intros k V c Hk HlV HV [Hc HJ]. cbn [Nat.add]. replace (k + K - ds)%nat with (K - ds + k)%nat by lia.
    apply wp_bind, wp_rd; [lia | done|]. intros y Hy Hdy.
    destruct (large_add_step x V (K - ds) k y c) as (d & c' & -> & Hd & Hc' & HJ'); [done.. | by apply wp_ret]. }
  intros V c HlV HV [Hc HJ]. rewrite take_0, app_nil_l, Nat.add_0_l.
  apply wp_bind. unfold rd at 1. rewrite HxK. apply wp_Ok. apply wp_bind. unfold rd at 1. rewrite Hx0. apply wp_Ok. pose proof digit_base_ge.
  destruct (large_middle x V K ds xK x0 c (wrap (xK + c))) as (e & b & -> & He & Hb & HJe); try done.
  { exact (digits_ok_lookup _ _ _ Hx Hx0). } { apply wrap_small. unfold is_digit. lia. } { apply wrap_digit. }
  apply wp_bind, wp_wr_snoc; [done | rewrite length_drop; lia|]. rewrite drop_drop. set (P0 := V ++ [e]) in *.
  assert (length P0 = ds + 1)%nat as HlP by (unfold P0; rewrite length_app; cbn; lia). assert (digits_ok P0) as HP0 by (by apply digits_ok_snoc).
  apply (wp_fill (fun k W b => 0 <= b <= 1 /\ val (P0 ++ W) - b * bpow (ds + (1 + k)) = 1 + val (drop (K - ds) x) - bpow ds * val (take (1 + k) x))).
  - rewrite length_app, length_drop. lia.
  - auto using digits_ok_app, digits_ok_drop.
  - rewrite app_nil_r. done.
  - intros k W b' Hk HlW HW [Hb' HJ']. replace (ds + 1 + k - ds)%nat with (1 + k)%nat by lia.
    apply wp_bind, wp_rd; [lia | done|]. intros y Hy Hdy.
    destruct (large_sub_step x (P0 ++ W) (1 + val (drop (K - ds) x)) ds (1 + k) y b') as (d & b'' & -> & Hd & Hb'' & HJ''); try done;
      [by apply digits_ok_app | rewrite length_app; lia|].
    apply wp_ret. split; [done|]. split; [done|]. by rewrite app_assoc.
  - intros W b' HlW HW [Hb' HJ']. rewrite take_app_length' by lia. rewrite <- drop_drop, drop_app_length', drop_drop by lia.
    exists (P0 ++ W). rewrite app_assoc, length_app. replace (ds + 1 + (K - (ds + 1)))%nat with K by lia.
    replace (ds + (1 + (K - (ds + 1))))%nat with K in HJ' by lia. replace (1 + (K - (ds + 1)))%nat with (K - ds)%nat in HJ' by lia.
    split_and!; try done; try lia. by apply digits_ok_app.
Qed.

Lemma shift_large_bits_spec K R x ds bits_shift :
  canon K x -> length R = S K -> digits_ok R -> (ds < K)%nat -> 0 < bits_shift < kDigitBits ->
  wp (shift_large_bits R x ds bits_shift K) (fun '(r, borrow) => shifted_large (shl_digits bits_shift 0 x) R ds K r borrow).
Proof.
  intros Hcx HlR HR Hds Hs. pose proof Hcx as (Hl & Hx & Hv). set (Y := shl_digits bits_shift 0 x).
  destruct (shl_canon K x bits_shift Hcx ltac:(lia)) as (HlY & HY & HvY & xK & HxK & HcK). fold Y in HlY, HY, HvY.
  assert (forall i d, x !! i = Some d -> Y !! i = Some (shl_digit d bits_shift (carry_at bits_shift x i)) /\ is_digit (shl_digit d bits_shift (carry_at bits_shift x i))) as HYat.
  { intros i d Hd. pose proof (shl_digits_at bits_shift x i d Hd) as E. split; [done|]. exact (digits_ok_lookup _ _ _ HY E). }
  unfold shift_large_bits. destruct (lookup_lt_is_Some_2 x (K - ds - 1)) as [z Hz]; [lia|].
  apply wp_bind. unfold rd at 1. rewrite Hz. apply wp_Ok. rewrite <- (carry_at_S _ _ _ _ Hz). replace (S (K - ds - 1)) with (K - ds)%nat by lia.
  apply wp_bind, (wp_fill (fun k V '(c, i) => 0 <= c <= 1 /\ i = carry_at bits_shift x (K - ds + k) /\ val V + c * bpow k = 1 + val (slice Y (K - ds) k))); [lia | done | | |].
  { rewrite Nat.add_0_r. unfold slice. rewrite take_0. cbn [val]. pose proof bpow_0. split_and!; (done || lia). }
  { intros k V [c i] Hk HlV HV (Hc & -> & HJ). cbn [Nat.add]. replace (k + K - ds)%nat with (K - ds + k)%nat by lia.
    destruct (lookup_lt_is_Some_2 x (K - ds + k)) as [d Hd]; [lia|]. apply wp_bind. unfold rd. rewrite Hd. apply wp_Ok. destruct (HYat _ _ Hd) as [Hy Hdy].
    destruct (large_add_step Y V (K - ds) k _ c HV HlV Hc HJ Hy Hdy) as (e & c' & -> & He & Hc' & HJ'). apply wp_ret.
    split; [done|]. rewrite Nat.add_succ_r, (carry_at_S _ _ _ _ Hd). split_and!; (done || lia). }
  intros V [c i] HlV HV (Hc & -> & HJ). rewrite take_0, app_nil_l, Nat.add_0_l. replace (K - ds + ds)%nat with K by lia.
  apply wp_bind. unfold rd at 1. rewrite HxK. apply wp_Ok. rewrite HcK. destruct (HYat _ _ HxK) as [HyK HdyK]. set (yK := shl_digit xK bits_shift (carry_at bits_shift x K)) in *.
  assert (yK < digit_base - 1) as HyK1.
  { rewrite <- (take_drop K Y), val_app, length_take, Nat.min_l, (drop_S _ _ _ HyK) in HvY by lia. cbn [val] in HvY.
    pose proof (val_bounds _ (digits_ok_take K Y HY)). pose proof (val_bounds _ (digits_ok_drop (S K) Y HY)). pose proof (bpow_pos K). pose proof digit_base_ge.
    assert (2 * 2 ^ bits_shift <= digit_base) as Hd2 by (unfold digit_base; rewrite <- Z.pow_succ_r by lia; apply Z.pow_le_mono_r; lia).
    pose proof (Z.pow_pos_nonneg 2 bits_shift ltac:(lia) ltac:(lia)). assert (bpow K * yK <= bpow K * 2 ^ bits_shift) by nia. nia. }
  destruct (digit_add2_step c yK (carry_is_digit _ Hc) HdyK) as (sum & c' & -> & Es & Hsum & Hc').
  assert (c' = 0) as -> by (unfold is_digit in *; nia).
  destruct (lookup_lt_is_Some_2 x 0) as [x0 Hx0]; [lia|]. apply wp_bind. unfold rd at 1. rewrite Hx0. apply wp_Ok.
  destruct (HYat _ _ Hx0) as [Hy0 Hdy0]. rewrite <- (carry_at_S _ _ _ _ Hx0). unfold shl_digit in Hy0, Hdy0. cbn [carry_at] in Hy0, Hdy0. rewrite Z.lor_0_r in Hy0, Hdy0.
  destruct (large_middle Y V K ds yK _ c sum HlY Hds HV HlV HJ HyK Hy0 Hdy0 ltac:(lia) Hsum) as (e & b & -> & He & Hb & HJe).
  apply wp_bind, wp_wr_snoc; [done | rewrite length_drop; lia|]. rewrite drop_drop. set (P0 := V ++ [e]) in *.
  assert (length P0 = ds + 1)%nat as HlP by (unfold P0; rewrite length_app; cbn; lia). assert (digits_ok P0) as HP0 by (by apply digits_ok_snoc).
  set (h := 1 + val (drop (K - ds) Y)) in *.
  apply wp_bind. apply (wp_mono _ (fun '(r, b, i) => exists k P, r = P ++ drop (ds + k) R /\ length P = (ds + k)%nat /\ digits_ok P /\
    0 <= b <= 1 /\ i = carry_at bits_shift x k /\ val P - b * bpow (ds + k) = h - bpow ds * val (take k Y) /\ k = (2 `min` (K - ds))%nat)).
  { case_bool_decide as Hlt.
    - destruct (lookup_lt_is_Some_2 x 1) as [d Hd]; [lia|]. apply wp_bind. unfold rd. rewrite Hd. apply wp_Ok. destruct (HYat _ _ Hd) as [Hy Hdy].
      replace (wrap (0 + 0)) with 0 by (symmetry; apply wrap_small, is_digit_0). destruct (large_sub_step Y P0 h ds 1 _ b HP0 HlP Hb HJe Hy Hdy) as (d' & b' & -> & Hd' & Hb' & HJ').
      apply wp_bind, wp_wr_snoc; [done | rewrite length_drop; lia|]. apply wp_ret. exists 2%nat, (P0 ++ [d']). rewrite drop_drop, length_app.
      replace (ds + 1 + 1)%nat with (ds + 2)%nat by lia. rewrite <- (carry_at_S _ _ _ _ Hd). split_and!; try done; try (cbn; lia); [by apply digits_ok_snoc | lia].
    - apply wp_ret. exists 1%nat, P0. split_and!; (done || lia). }
  intros [[r1 b1] i1] (k1 & P1 & -> & HlP1 & HP1 & Hb1 & -> & HJ1 & Ek).
  destruct (decide (ds + 1 < K)%nat) as [Hlt | Hge].
  - assert (k1 = 2)%nat as -> by lia.
    apply wp_bind, (wp_fill (fun k W '(b, i) => 0 <= b <= 1 /\ i = carry_at bits_shift x (2 + k) /\ val (P1 ++ W) - b * bpow (ds + (2 + k)) = h - bpow ds * val (take (2 + k) Y))).
    + rewrite length_app, length_drop. lia.
    + auto using digits_ok_app, digits_ok_drop.
    + by rewrite app_nil_r.
    + intros k W [b' i] Hk HlW HW (Hb' & -> & HJ'). replace (ds + 2 + k - ds)%nat with (2 + k)%nat by lia.
      destruct (lookup_lt_is_Some_2 x (2 + k)) as [d Hd]; [lia|]. apply wp_bind. unfold rd. rewrite Hd. apply wp_Ok. destruct (HYat _ _ Hd) as [Hy Hdy].
      destruct (large_sub_step Y (P1 ++ W) h ds (2 + k) _ b' (digits_ok_app _ _ HP1 HW) ltac:(rewrite length_app; lia) Hb' HJ' Hy Hdy) as (d' & b'' & -> & Hd' & Hb'' & HJ'').
      apply wp_ret. split; [done|]. rewrite app_assoc. replace (2 + S k)%nat with (S (2 + k)) by lia. rewrite (carry_at_S _ _ _ _ Hd). split_and!; (done || lia).
    + intros W [b' i] HlW HW (Hb' & _ & HJ'). apply wp_ret. rewrite take_app_length' by lia. rewrite <- drop_drop, drop_app_length', drop_drop by lia.
      exists (P1 ++ W). rewrite app_assoc, length_app. replace (ds + 2 + (K - (ds + 2)))%nat with K by lia.
      replace (ds + (2 + (K - (ds + 2))))%nat with K in HJ' by lia. replace (2 + (K - (ds + 2)))%nat with (K - ds)%nat in HJ' by lia.
      split_and!; try done; try lia. by apply digits_ok_app.
  - assert (k1 = K - ds)%nat as -> by lia. replace (K - (ds + 2))%nat with 0%nat by lia. cbn [write_loop]. apply wp_bind, wp_ret, wp_ret.
    exists P1. replace (ds + (K - ds))%nat with K in * by lia. split_and!; (done || lia).
Qed.

Lemma ShiftModFn_Large_spec K R x ds bits_shift :
  canon K x -> length R = S K -> digits_ok R -> (K <= ds < 2 * K)%nat -> 0 <= bits_shift < kDigitBits ->
  wp (ShiftModFn_Large R x ds bits_shift K) (fun r => residue K r (bpow ds * val (shl_digits bits_shift 0 x))).
Proof.
  intros Hcx HlR HR Hds Hs. destruct (shl_canon K x bits_shift Hcx Hs) as (HlY & HY & HvY & _). set (Y := shl_digits bits_shift 0 x) in *.
  unfold ShiftModFn_Large. apply wp_bind, wp_dcheck; [by rewrite bool_decide_true by lia|]. set (e := (ds - K)%nat).
  apply wp_bind, (wp_mono _ (fun '(r, b) => shifted_large Y R e K r b)).
  { destruct (Z.eqb_spec bits_shift 0) as [E | E].
    - unfold Y. rewrite E. apply shift_large_digits_spec; (done || (unfold e; lia)).
    - apply shift_large_bits_spec; (done || (unfold e; lia)). }
  intros [r b] (V & -> & HlV & HV & Hb & EV).
  pose proof (val_bounds _ (digits_ok_take (K - e) Y HY)) as Hblo. pose proof (val_bounds _ (digits_ok_drop (K - e) Y HY)) as Hbhi.
  rewrite length_take, Nat.min_l in Hblo by lia.
  set (W := val (drop (K - e) Y) - bpow e * val (take (K - e) Y)).
  assert (eqm (Fn K) W (bpow ds * val Y)) as HW.
  { exists (val (drop (K - e) Y) - bpow e * val Y). replace ds with (e + K)%nat by (unfold e; lia). rewrite bpow_add.
    assert (val Y = val (take (K - e) Y) + bpow (K - e) * val (drop (K - e) Y)) as -> by (rewrite <- (take_drop (K - e) Y) at 1; rewrite val_app, length_take, Nat.min_l by lia; done).
    unfold W, Fn. replace (bpow K) with (bpow e * bpow (K - e)) by (rewrite <- bpow_add; f_equal; unfold e; lia). lia. }
  assert (bpow K = bpow e * bpow (K - e)) as EK by (rewrite <- bpow_add; f_equal; unfold e; lia). pose proof (bpow_pos e).
  assert (- bpow K < W) as HbW by (unfold W; nia). replace (1 + val (drop (K - e) Y) - bpow e * val (take (K - e) Y)) with (1 + W) in EV by (unfold W; lia).
  pose proof (val_bounds V HV) as HbV. rewrite HlV in HbV.
  destruct (drop K R) as [|q [|]] eqn:Eq; apply (f_equal length) in Eq; rewrite length_drop in Eq; cbn in Eq; try lia.
  apply wp_bind, wp_wr; [rewrite length_app; cbn; lia|]. rewrite (insert_snoc _ [] q 0 K), app_nil_r by done.
  destruct (Z.eqb_spec b 1) as [-> | Hb1]; cbn [negb].
  - apply wp_ret. split; [split_and!; [rewrite length_app; cbn; lia | apply digits_ok_snoc; [done | apply is_digit_0] | rewrite val_snoc; lia]|].
    rewrite <- HW. exists 1. rewrite val_snoc. unfold Fn. lia.
  - assert (b = 0) as -> by lia. apply wp_bind.
    eapply wp_mono; [apply (ripple_spec (-1)); [apply digit_sub_step | apply digits_ok_snoc; [done | apply is_digit_0] | rewrite length_app; cbn; lia | unfold is_digit; pose proof digit_base_ge; lia]|].
    intros [r c] (P & -> & HlP & HP & EP & Hc). rewrite take_app_length' in EP by done. rewrite drop_app_length' by done.
    pose proof (val_bounds P HP) as HbP. rewrite HlP in HbP. destruct (Z.eqb_spec c 0) as [-> | Hc0]; cbn [negb].
    + apply wp_ret. split; [split_and!; [rewrite length_app; cbn; lia | apply digits_ok_snoc; [done | apply is_digit_0] | rewrite val_snoc; lia]|].
      rewrite <- HW. apply eqm_eq. rewrite val_snoc. lia.
    + assert (W = -1) as EW by (unfold is_digit in Hc; nia).
      apply wp_bind, (wp_fill (fun k U _ => U = replicate k 0)); [rewrite length_app; cbn; lia | apply digits_ok_snoc; [done | apply is_digit_0] | done | |].
      { intros k U [] Hk HlU HU ->. apply wp_ret. split; [apply is_digit_0|]. change [0] with (replicate 1 0). by rewrite <- replicate_add, Nat.add_1_r. }
      intros U [] HlU HU ->. rewrite take_0, app_nil_l, Nat.add_0_l, drop_app_length' by done.
      apply wp_wr; [rewrite length_app; cbn; lia|]. rewrite (insert_snoc _ [] 0 1 K), app_nil_r by done.
      assert (val (replicate K 0 ++ [1]) = bpow K) as E1 by (rewrite val_snoc, val_replicate_0, HlU; lia).
      split; [split_and!; [rewrite length_app; cbn; lia | apply digits_ok_snoc; [done | unfold is_digit; pose proof digit_base_ge; lia] | lia]|].
      rewrite <- HW, E1, EW. exists 1. unfold Fn. lia.
Qed.

Lemma reduce_shift_spec fuel ds K :
  (0 < K)%nat -> (ds <= fuel)%nat -> wp (reduce_shift fuel ds K) (fun ds' => (ds' < 2 * K)%nat /\ exists q, ds = (ds' + q * (2 * K))%nat).
Proof.
  intros HK. revert ds. induction fuel as [|fuel IH]; intros ds Hf; cbn [reduce_shift]; case_bool_decide as Hge; try lia.
  1, 3: apply wp_ret; split; [lia | exists 0%nat; lia].
  eapply wp_mono; [apply IH; lia|]. intros ds' (Hlt & q & E). split; [done|]. exists (S q). lia.
Qed.

(** [2^(2K)] is congruent to one. *)
Lemma bpow_double_K K : eqm (Fn K) (bpow (2 * K)) 1.
Proof. exists (bpow K - 1). replace (2 * K)%nat with (K + K)%nat by lia. rewrite bpow_add. unfold Fn. lia. Qed.

Lemma bpow_reduce K ds q : eqm (Fn K) (bpow (ds + q * (2 * K))) (bpow ds).
Proof.
  induction q as [|q IH]; [by rewrite Nat.mul_0_l, Nat.add_0_r|].
  replace (ds + S q * (2 * K))%nat with (ds + q * (2 * K) + 2 * K)%nat by lia. rewrite bpow_add, IH, bpow_double_K. apply eqm_eq. lia.
Qed.

Lemma pow_split p : 0 <= p -> 2 ^ p = bpow (Z.to_nat (p / kDigitBits)) * 2 ^ (p mod kDigitBits).
Proof.
  intros Hp. assert (0 < kDigitBits) by (destruct kDigitBits_cases; lia). rewrite bpow_bits. assert (0 <= p / kDigitBits) by (apply Z.div_pos; lia).
  pose proof (Z.mod_pos_bound p kDigitBits). rewrite Z2Nat.id by lia. rewrite <- Z.pow_add_r by nia. f_equal. apply Z.div_mod. lia.
Qed.

Lemma ShiftModFn_spec K R x p zero_above :
  (0 < K)%nat -> canon K x -> length R = S K -> digits_ok R -> 0 <= p -> zero_from_cap x K zero_above ->
  wp (ShiftModFn R x p K zero_above) (fun r => residue K r (val x * 2 ^ p)).
Proof.
  intros HK Hcx HlR HR Hp Hz. pose proof kDigitBits_cases. assert (0 <= p mod kDigitBits < kDigitBits) as Hs by (apply Z.mod_pos_bound; lia).
  unfold ShiftModFn. rewrite (pow_split p Hp). set (ds := Z.to_nat (p / kDigitBits)). set (bs := p mod kDigitBits) in *.
  apply wp_bind. eapply wp_mono; [by apply reduce_shift_spec|]. intros ds' (Hlt & q & Eq).
  destruct (shl_canon K x bs Hcx ltac:(lia)) as (HlY & HY & HvY & _).
  assert (eqm (Fn K) (bpow ds' * val (shl_digits bs 0 x)) (val x * (bpow ds * 2 ^ bs))) as E.
  { rewrite HvY, Eq, bpow_reduce. apply eqm_eq. lia. }
  apply (wp_mono _ (fun r => residue K r (bpow ds' * val (shl_digits bs 0 x)))); [|intros r Hr; by eapply residue_mono].
  case_bool_decide as Hge; [apply ShiftModFn_Large_spec; (done || lia)|].
  apply wp_bind, (wp_mono _ (fun '(r, b) => shifted (shl_digits bs 0 x) R ds' K r b)).
  - destruct (Z.eqb_spec bs 0) as [-> | Hbs]; [apply shift_digits_spec; (done || lia) | apply shift_bits_spec; (done || lia)].
  - intros [r b] Hr. apply (shift_finish K _ R); (done || lia).
Qed.
End fft_mod.
