(* ===== verification/FftAlgebra.v ===== *)
(** The algebra behind [src/bigint/mul-fft.cc]: convolutions, and the shuffled discrete
    Fourier transform modulo a number for which a power of two is a root of minus one. *)

From Stdlib Require Import ZArith Lia.
From stdpp Require Import base tactics numbers list option.
From S2P Require Import Prelude FftMod.

#[local] Open Scope Z_scope.

(** ** Finite sums *)

Fixpoint sum (n : nat) (f : nat -> Z) : Z :=
  match n with O => 0 | S n => sum n f + f n end.

Lemma sum_ext n f g : (forall i, (i < n)%nat -> f i = g i) -> sum n f = sum n g.
Proof. induction n as [|n IH]; intros E; [done|]. cbn [sum]. rewrite IH, (E n) by (intros; try apply E; lia). done. Qed.

Lemma sum_zero n f : (forall i, (i < n)%nat -> f i = 0) -> sum n f = 0.
Proof. intros E. rewrite (sum_ext n f (fun _ => 0)) by done. clear. induction n as [|n IH]; cbn [sum]; lia. Qed.

Lemma sum_plus n f g : sum n (fun i => f i + g i) = sum n f + sum n g.
Proof. induction n as [|n IH]; cbn [sum]; lia. Qed.

Lemma sum_scale n c f : sum n (fun i => c * f i) = c * sum n f.
Proof. induction n as [|n IH]; cbn [sum]; lia. Qed.

Lemma sum_append n m f : sum (n + m) f = sum n f + sum m (fun i => f (n + i)%nat).
Proof. induction m as [|m IH]; [rewrite Nat.add_0_r; cbn; lia|]. rewrite Nat.add_succ_r. cbn [sum]. lia. Qed.

Lemma sum_swap n m (f : nat -> nat -> Z) : sum n (fun i => sum m (fun j => f i j)) = sum m (fun j => sum n (fun i => f i j)).
Proof.
  induction n as [|n IH]; cbn [sum]; [symmetry; by apply sum_zero|]. by rewrite IH, <- sum_plus.
Qed.

Lemma sum_nonneg n f : (forall i, (i < n)%nat -> 0 <= f i) -> 0 <= sum n f.
Proof. induction n as [|n IH]; intros E; [done|]. cbn [sum]. pose proof (E n). assert (0 <= sum n f) by (apply IH; intros; apply E; lia). lia. Qed.

Lemma sum_le n f c : (forall i, (i < n)%nat -> f i <= c) -> sum n f <= Z.of_nat n * c.
Proof. induction n as [|n IH]; intros E; [done|]. cbn [sum]. pose proof (E n). assert (sum n f <= Z.of_nat n * c) by (apply IH; intros; apply E; lia). lia. Qed.

Lemma sum_mono n f g : (forall i, (i < n)%nat -> f i <= g i) -> sum n f <= sum n g.
Proof. induction n as [|n IH]; intros E; [done|]. cbn [sum]. pose proof (E n). assert (sum n f <= sum n g) by (apply IH; intros; apply E; lia). lia. Qed.

Lemma sum_prefix n m f : (n <= m)%nat -> (forall i, (i < m)%nat -> 0 <= f i) -> sum n f <= sum m f.
Proof.
  intros Hle E. replace m with (n + (m - n))%nat by lia. rewrite sum_append.
  assert (0 <= sum (m - n) (fun i => f (n + i)%nat)) by (apply sum_nonneg; intros; apply E; lia). lia.
Qed.

(** ** Polynomials *)

(** [a(x)] for the polynomial with the coefficients [a 0 .. a (n-1)]. *)
Definition eval (n : nat) (a : nat -> Z) (x : Z) : Z := sum n (fun i => a i * x ^ Z.of_nat i).

(** The coefficients of the product of two polynomials, and its remainder modulo
    [x^n - s]. *)
Definition product_coeff (n : nat) (a b : nat -> Z) (k : nat) : Z :=
  sum n (fun i => a i * (if bool_decide (i <= k < i + n)%nat then b (k - i)%nat else 0)).
Definition convolution (s : Z) (n : nat) (a b : nat -> Z) (k : nat) : Z :=
  product_coeff n a b k + s * product_coeff n a b (n + k).

Lemma pow_nat_add x n m : x ^ Z.of_nat (n + m) = x ^ Z.of_nat n * x ^ Z.of_nat m.
Proof. rewrite Nat2Z.inj_add, Z.pow_add_r by lia. done. Qed.

(** A polynomial times a power of [x]. *)
Lemma eval_shift n i b x : (i < n)%nat ->
  sum (n + n) (fun k => (if bool_decide (i <= k < i + n)%nat then b (k - i)%nat else 0) * x ^ Z.of_nat k) = x ^ Z.of_nat i * eval n b x.
Proof.
  intros Hi. replace (n + n)%nat with (i + (n + (n - i)))%nat by lia. rewrite sum_append, sum_append.
  rewrite (sum_zero i), (sum_zero (n - i)) by (intros; rewrite bool_decide_false by lia; lia).
  unfold eval. rewrite <- sum_scale, Z.add_0_l, Z.add_0_r. apply sum_ext. intros j Hj. rewrite bool_decide_true by lia.
  replace (i + j - i)%nat with j by lia. rewrite pow_nat_add. lia.
Qed.

Lemma eval_product n a b x : eval (n + n) (product_coeff n a b) x = eval n a x * eval n b x.
Proof.
  unfold eval at 1, product_coeff.
  transitivity (sum (n + n) (fun k => sum n (fun i => a i * ((if bool_decide (i <= k < i + n)%nat then b (k - i)%nat else 0) * x ^ Z.of_nat k)))).
  { apply sum_ext. intros k Hk. rewrite Z.mul_comm, <- sum_scale. apply sum_ext. intros. lia. }
  rewrite sum_swap. rewrite Z.mul_comm. unfold eval at 2. rewrite <- sum_scale. apply sum_ext. intros i Hi.
  rewrite sum_scale, eval_shift by done. lia.
Qed.

(** The coefficients of the remainder, at any [x]. *)
Lemma eval_convolution s n a b x :
  eval n (convolution s n a b) x = eval n a x * eval n b x - (x ^ Z.of_nat n - s) * sum n (fun k => product_coeff n a b (n + k) * x ^ Z.of_nat k).
Proof.
  rewrite <- eval_product. unfold eval. rewrite sum_append, Z.mul_sub_distr_r, <- !sum_scale.
  assert (sum n (fun i => convolution s n a b i * x ^ Z.of_nat i) =
    sum n (fun i => product_coeff n a b i * x ^ Z.of_nat i) + sum n (fun i => s * (product_coeff n a b (n + i) * x ^ Z.of_nat i))) as ->.
  { rewrite <- sum_plus. apply sum_ext. intros i Hi. unfold convolution. lia. }
  assert (sum n (fun i => product_coeff n a b (n + i) * x ^ Z.of_nat (n + i)) = sum n (fun i => x ^ Z.of_nat n * (product_coeff n a b (n + i) * x ^ Z.of_nat i))) as ->.
  { apply sum_ext. intros i Hi. rewrite pow_nat_add. lia. }
  lia.
Qed.

Lemma product_coeff_nonneg n a b k :
  (forall i, (i < n)%nat -> 0 <= a i) -> (forall i, (i < n)%nat -> 0 <= b i) -> 0 <= product_coeff n a b k.
Proof.
  intros Ha Hb. apply sum_nonneg. intros i Hi. case_bool_decide; [|lia]. pose proof (Ha i Hi). assert (0 <= b (k - i)%nat) by (apply Hb; lia). nia.
Qed.

(** ** The transform *)

Lemma double_pow l : (2 ^ S l = 2 ^ l + 2 ^ l)%nat.
Proof. cbn. lia. Qed.

Lemma div2_pow l : Nat.div2 (2 ^ S l) = (2 ^ l)%nat.
Proof. rewrite <- (Nat.div2_double (2 ^ l)). f_equal. Qed.

Lemma even_pow l : Nat.even (2 ^ S l) = true.
Proof. rewrite Nat.pow_succ_r'. by rewrite Nat.even_mul. Qed.

Lemma pow_pos_nat l : (0 < 2 ^ l)%nat.
Proof. induction l; cbn; lia. Qed.

Section transform.
Context (F : Z).
Local Notation "a ≡ₘ b" := (eqm F a b) (at level 70).

Lemma sum_eqm n f g : (forall i, (i < n)%nat -> f i ≡ₘ g i) -> sum n f ≡ₘ sum n g.
Proof. induction n as [|n IH]; intros E; [done|]. cbn [sum]. rewrite IH, (E n) by (intros; try apply E; lia). done. Qed.

Lemma pow_eqm x y (n : nat) : x ≡ₘ y -> x ^ Z.of_nat n ≡ₘ y ^ Z.of_nat n.
Proof. intros E. induction n as [|n IH]; [done|]. rewrite Nat2Z.inj_succ, !Z.pow_succ_r by lia. by rewrite IH, E. Qed.

(** [2^w] is a primitive root of unity of order [2^l]. *)
Definition root (l : nat) (w : Z) : Prop :=
  0 <= w /\ match l with O => True | S l => 2 ^ (w * Z.of_nat (2 ^ l)) ≡ₘ -1 end.

Lemma root_half l w : root (S l) w -> root l (2 * w).
Proof.
  intros [Hw E]. split; [lia|]. destruct l as [|l]; [done|]. rewrite <- E. apply eqm_eq. f_equal. cbn [Nat.pow]. lia.
Qed.

(** The transform the code computes: the results are not in their natural order. *)
Fixpoint transform (l : nat) (w : Z) (a : nat -> Z) (i : nat) : Z :=
  match l with
  | O => a i
  | S l =>
      let h := (2 ^ l)%nat in
      if bool_decide (i < h)%nat then transform l (2 * w) (fun k => a k + a (h + k)%nat) i
      else transform l (2 * w) (fun k => (a k - a (h + k)%nat) * 2 ^ (w * Z.of_nat k)) (i - h)
  end.

(** The power of two at which the [i]-th result is the value of the polynomial. *)
Fixpoint exponent (l : nat) (w : Z) (i : nat) : Z :=
  match l with
  | O => 0
  | S l => let h := (2 ^ l)%nat in if bool_decide (i < h)%nat then exponent l (2 * w) i else w + exponent l (2 * w) (i - h)
  end.

Lemma exponent_nonneg l w i : 0 <= w -> 0 <= exponent l w i.
Proof.
  revert w i. induction l as [|l IH]; intros w i Hw; cbn [exponent]; [lia|]. case_bool_decide; [apply IH; lia|].
  assert (0 <= exponent l (2 * w) (i - 2 ^ l)) by (apply IH; lia). lia.
Qed.

Lemma exponent_root l w i : root l w -> 2 ^ (exponent l w i * Z.of_nat (2 ^ l)) ≡ₘ 1.
Proof.
  revert w i. induction l as [|l IH]; intros w i Hr; [done|]. pose proof (root_half _ _ Hr) as Hr'. destruct Hr as [Hw Hr].
  rewrite double_pow, Nat2Z.inj_add. cbn [exponent]. assert (0 <= 2 * w) as Hw2 by lia. case_bool_decide.
  - pose proof (exponent_nonneg l (2 * w) i Hw2). rewrite Z.mul_add_distr_l, Z.pow_add_r, IH by (done || lia). done.
  - pose proof (exponent_nonneg l (2 * w) (i - 2 ^ l) Hw2).
    replace ((w + exponent l (2 * w) (i - 2 ^ l)) * (Z.of_nat (2 ^ l) + Z.of_nat (2 ^ l))) with
      (w * Z.of_nat (2 ^ l) + w * Z.of_nat (2 ^ l) + (exponent l (2 * w) (i - 2 ^ l) * Z.of_nat (2 ^ l) + exponent l (2 * w) (i - 2 ^ l) * Z.of_nat (2 ^ l))) by lia.
    rewrite !Z.pow_add_r, IH, Hr by (done || lia). done.
Qed.

Lemma eval_eqm n a b x : (forall i, (i < n)%nat -> a i ≡ₘ b i) -> eval n a x ≡ₘ eval n b x.
Proof. intros E. apply sum_eqm. intros i Hi. by rewrite (E i Hi). Qed.

(** A polynomial of length [h + h] at a point whose [h]-th power is [s]. *)
Lemma eval_halves h a s x : x ^ Z.of_nat h ≡ₘ s -> eval (h + h) a x ≡ₘ eval h (fun k => a k + s * a (h + k)%nat) x.
Proof.
  intros E. unfold eval. rewrite sum_append.
  transitivity (sum h (fun i => a i * x ^ Z.of_nat i) + sum h (fun i => s * a (h + i)%nat * x ^ Z.of_nat i)).
  - f_equiv. apply sum_eqm. intros i Hi. rewrite pow_nat_add, E. apply eqm_eq. lia.
  - rewrite <- sum_plus. apply eqm_eq, sum_ext. intros. lia.
Qed.

(** Coefficients weighted with the powers of [y]. *)
Lemma eval_weighted n a y x : eval n (fun k => a k * y ^ Z.of_nat k) x = eval n a (y * x).
Proof. apply sum_ext. intros i Hi. rewrite Z.pow_mul_l. lia. Qed.

Lemma pow_mul_nat w (k : nat) : 0 <= w -> 2 ^ (w * Z.of_nat k) = (2 ^ w) ^ Z.of_nat k.
Proof. intros Hw. by rewrite Z.pow_mul_r by lia. Qed.

Lemma transform_eval l w a i : root l w -> (i < 2 ^ l)%nat -> transform l w a i ≡ₘ eval (2 ^ l) a (2 ^ exponent l w i).
Proof.
  revert w a i. induction l as [|l IH]; intros w a i Hr Hi.
  { assert (i = 0)%nat as -> by (cbn in Hi; lia). apply eqm_eq. cbn. lia. }
  pose proof (root_half _ _ Hr) as Hr'. destruct Hr as [Hw Hr]. assert (0 <= 2 * w) as Hw2 by lia.
  rewrite double_pow in *. cbn [transform exponent]. set (h := (2 ^ l)%nat) in *. case_bool_decide as Hlt.
  - pose proof (exponent_nonneg l (2 * w) i Hw2). pose proof (exponent_root l (2 * w) i Hr') as E. fold h in E.
    rewrite (IH _ _ _ Hr' Hlt), (eval_halves h a 1) by (by rewrite <- pow_mul_nat). fold h.
    apply eval_eqm. intros. apply eqm_eq. lia.
  - pose proof (exponent_nonneg l (2 * w) (i - h) Hw2). pose proof (exponent_root l (2 * w) (i - h) Hr') as E. fold h in E.
    rewrite (IH _ _ _ Hr') by (fold h; lia). fold h. set (e := exponent l (2 * w) (i - h)) in *.
    rewrite (eval_halves h a (-1)) by (rewrite <- pow_mul_nat, Z.mul_add_distr_r, Z.pow_add_r, E, Hr by lia; done).
    rewrite Z.pow_add_r by lia. rewrite <- eval_weighted. apply eval_eqm. intros k Hk. rewrite pow_mul_nat by lia. apply eqm_eq. lia.
Qed.

Lemma transform_eqm l w a b i : root l w -> (i < 2 ^ l)%nat -> (forall k, (k < 2 ^ l)%nat -> a k ≡ₘ b k) -> transform l w a i ≡ₘ transform l w b i.
Proof. intros Hr Hi E. rewrite !transform_eval by done. by apply eval_eqm. Qed.

Lemma transform_ext l w a b i : (forall k, (k < 2 ^ l)%nat -> a k = b k) -> (i < 2 ^ l)%nat -> transform l w a i = transform l w b i.
Proof.
  revert w a b i. induction l as [|l IH]; intros w a b i E Hi; [by apply E|]. rewrite double_pow in *. cbn [transform].
  case_bool_decide; apply IH; try lia; intros k Hk; by rewrite !E by lia.
Qed.

(** The transform turns convolutions into products.  With [theta], the sequences are
    weighted so that the convolution wraps around with the factor [s]. *)
Definition weighted (theta : Z) (a : nat -> Z) (k : nat) : Z := a k * 2 ^ (theta * Z.of_nat k).

Lemma transform_convolution l w theta s a b i :
  root l w -> (i < 2 ^ l)%nat -> 0 <= theta -> 2 ^ (theta * Z.of_nat (2 ^ l)) ≡ₘ s ->
  transform l w (weighted theta (convolution s (2 ^ l) a b)) i ≡ₘ transform l w (weighted theta a) i * transform l w (weighted theta b) i.
Proof.
  intros Hr Hi Ht Hs. rewrite !transform_eval by done. set (n := (2 ^ l)%nat) in *. set (x := 2 ^ exponent l w i).
  assert (forall c, eval n (weighted theta c) x = eval n c (2 ^ theta * x)) as Ew.
  { intros c. rewrite <- eval_weighted. apply sum_ext. intros k Hk. unfold weighted. by rewrite pow_mul_nat. }
  rewrite !Ew, eval_convolution. assert ((2 ^ theta * x) ^ Z.of_nat n ≡ₘ s) as E.
  { rewrite Z.pow_mul_l, <- pow_mul_nat, Hs by done. unfold x. pose proof (exponent_nonneg l w i (proj1 Hr)).
    rewrite <- pow_mul_nat by done. unfold n. rewrite (exponent_root l w i Hr). apply eqm_eq. lia. }
  rewrite E. apply eqm_eq. lia.
Qed.

(** ** The inverse transform *)

Definition back_factor (w : Z) (n k : nat) : Z := if bool_decide (k = 0)%nat then 1 else 2 ^ (w * Z.of_nat (n - k)).

Fixpoint inverse (l : nat) (w : Z) (v : nat -> Z) (i : nat) : Z :=
  match l with
  | O => v i
  | S l =>
      let h := (2 ^ l)%nat in
      let lo := inverse l (2 * w) v in
      let hi := inverse l (2 * w) (fun k => v (h + k)%nat) in
      if bool_decide (i < h)%nat then lo i + hi i * back_factor w (2 ^ S l) i
      else lo (i - h)%nat - hi (i - h)%nat * back_factor w (2 ^ S l) (i - h)
  end.

Lemma inverse_eqm l w u v i : (i < 2 ^ l)%nat -> (forall k, (k < 2 ^ l)%nat -> u k ≡ₘ v k) -> inverse l w u i ≡ₘ inverse l w v i.
Proof.
  revert w u v i. induction l as [|l IH]; intros w u v i Hi E; [by apply E|].
  rewrite double_pow in *. cbn [inverse]. case_bool_decide; rewrite (IH _ u v), (IH _ (fun k => u _) (fun k => v (2 ^ l + k)%nat)); try done; intros; try apply E; lia.
Qed.

Lemma back_factor_root l w k : root (S l) w -> (k < 2 ^ l)%nat -> 2 ^ (w * Z.of_nat k) * back_factor w (2 ^ S l) k ≡ₘ 1.
Proof.
  intros [Hw Hr] Hk. unfold back_factor. case_bool_decide as H0; [subst k; by rewrite Z.mul_0_r|].
  rewrite <- Z.pow_add_r by (apply Z.mul_nonneg_nonneg; lia). replace (w * Z.of_nat k + w * Z.of_nat (2 ^ S l - k)) with (w * Z.of_nat (2 ^ l) + w * Z.of_nat (2 ^ l)) by (rewrite double_pow; lia).
  rewrite Z.pow_add_r, Hr by (apply Z.mul_nonneg_nonneg; lia). done.
Qed.

Lemma inverse_transform l w a i : root l w -> (i < 2 ^ l)%nat -> inverse l w (transform l w a) i ≡ₘ Z.of_nat (2 ^ l) * a i.
Proof.
  revert w a i. induction l as [|l IH]; intros w a i Hr Hi; [cbn [inverse transform]; apply eqm_eq; cbn; lia|].
  pose proof (root_half _ _ Hr) as Hr'. cbn [inverse]. set (h := (2 ^ l)%nat) in *.
  assert (forall k, (k < h)%nat -> inverse l (2 * w) (transform (S l) w a) k ≡ₘ Z.of_nat h * (a k + a (h + k)%nat)) as Elo.
  { intros k Hk. rewrite <- (IH (2 * w) (fun k => a k + a (h + k)%nat) k Hr' Hk). apply inverse_eqm; [done|]. intros j Hj. cbn [transform].
    fold h. by rewrite bool_decide_true by done. }
  assert (forall k, (k < h)%nat -> inverse l (2 * w) (fun k => transform (S l) w a (h + k)%nat) k ≡ₘ Z.of_nat h * ((a k - a (h + k)%nat) * 2 ^ (w * Z.of_nat k))) as Ehi.
  { intros k Hk. rewrite <- (IH (2 * w) (fun k => (a k - a (h + k)%nat) * 2 ^ (w * Z.of_nat k)) k Hr' Hk). apply inverse_eqm; [done|]. intros j Hj.
    cbn [transform]. fold h. rewrite bool_decide_false by lia. by replace (h + j - h)%nat with j by lia. }
  assert (forall k, (k < h)%nat -> Z.of_nat h * ((a k - a (h + k)%nat) * 2 ^ (w * Z.of_nat k)) * back_factor w (2 ^ S l) k ≡ₘ Z.of_nat h * (a k - a (h + k)%nat)) as Eback.
  { intros k Hk. rewrite <- !Z.mul_assoc. rewrite (back_factor_root l w k Hr Hk). apply eqm_eq. lia. }
  rewrite double_pow in *. fold h in Hi |- *. case_bool_decide as Hlt; rewrite Elo, Ehi by lia; change (2 ^ l)%nat with h in Eback; rewrite Eback by lia; apply eqm_eq.
  - lia.
  - replace (h + (i - h))%nat with i by lia. lia.
Qed.
End transform.
