(* ===== verification/FftTransform.v ===== *)
(** The transformations of an [FFTContainer] ([src/bigint/mul-fft.cc]): what the parts
    represent before and after each of them. *)

From Stdlib Require Import ZArith Lia.
From stdpp Require Import base tactics numbers list option.
From S2P Require Import Prelude Digit Digits VectorArithmetic Processor MulKaratsuba MulFft FftMod FftAlgebra.

#[local] Open Scope Z_scope.

Section fft_transform.
Context `{Config, Platform}.
Context {alloc : Allocator}.
Implicit Types c : FFTContainer.

(** ** Containers *)

Definition part_ok (K : nat) (p : digits) : Prop := length p = S K /\ digits_ok p.

Record container_ok (n K : nat) (c : FFTContainer) : Prop := {
  container_n : n_ c = n;
  container_K : K_ c = K;
  container_length : length (part_ c) = n;
  container_parts : Forall (part_ok K) (part_ c);
  container_temp : length (temp_ c) = (2 * (K + 1))%nat;
  container_temp_ok : digits_ok (temp_ c);
}.

(** Part [i] represents [v] modulo [F_n]. *)
Definition holds (K : nat) (c : FFTContainer) (i : nat) (v : Z) : Prop :=
  exists p, part_ c !! i = Some p /\ residue K p v.

(** [c'] differs from [c] at most in the parts for which [P] holds, and in [temp_]. *)
Definition changed (P : nat -> Prop) (c c' : FFTContainer) : Prop :=
  forall i, ~ P i -> part_ c' !! i = part_ c !! i.

Lemma changed_refl P c : changed P c c.
Proof. by intros i Hi. Qed.

Lemma changed_trans P c1 c2 c3 : changed P c1 c2 -> changed P c2 c3 -> changed P c1 c3.
Proof. intros H12 H23 i Hi. by rewrite H23, H12. Qed.

Lemma changed_mono (P P' : nat -> Prop) c c' : (forall i, P i -> P' i) -> changed P c c' -> changed P' c c'.
Proof. intros HP Hc i Hi. apply Hc. naive_solver. Qed.

Lemma holds_changed P K c c' i v : changed P c c' -> ~ P i -> holds K c i v -> holds K c' i v.
Proof. intros Hc Hi (p & Hp & Hr). exists p. by rewrite Hc. Qed.

Lemma holds_mono K c i v v' : holds K c i v -> eqm (Fn K) v v' -> holds K c i v'.
Proof. intros (p & Hp & Hr) E. exists p. split; [done|]. by eapply residue_mono. Qed.

Lemma holds_eq K c i v v' : holds K c i v -> v = v' -> holds K c i v'.
Proof. by intros ? <-. Qed.

Lemma canon_part_ok K p : canon K p -> part_ok K p.
Proof. by intros (? & ? & ?). Qed.

Lemma residue_part_ok K p v : residue K p v -> part_ok K p.
Proof. by intros [(? & ? & ?) _]. Qed.

Lemma wp_bind_assoc {A B T} (m : res A) (f : A -> res B) (g : B -> res T) (Q : T -> Prop) :
  wp ((m ≫= f) ≫= g) Q -> wp (m ≫= fun a => f a ≫= g) Q.
Proof. by destruct m. Qed.

(** The first level of the backward transformation, on pairs of parts. *)
Definition pairs (v : nat -> Z) (k : nat) : Z := if Nat.even k then v k + v (S k) else v (k - 1)%nat - v k.

Lemma pairs_shift v h k : Nat.even h = true -> pairs v (h + k) = pairs (fun j => v (h + j)%nat) k.
Proof.
  intros Hh. unfold pairs. rewrite Nat.even_add, Hh. destruct (Nat.even k) eqn:Ek; cbn [Bool.eqb].
  - by rewrite Nat.add_succ_r.
  - destruct k as [|k]; [done|]. by replace (h + S k - 1)%nat with (h + (S k - 1))%nat by lia.
Qed.

Lemma inverse_pairs w v k : (k < 2)%nat -> inverse 1 w v k = pairs v k.
Proof.
  intros Hk. cbn [inverse]. unfold pairs, back_factor. destruct k as [|[|]]; [| |lia].
  - rewrite !bool_decide_true by (done || (cbn; lia)). cbn. lia.
  - rewrite bool_decide_false by (cbn; lia). rewrite !bool_decide_true by (cbn; lia). cbn. lia.
Qed.

(** ** Reading and writing parts *)

Section one_container.
Context (n K : nat).

Lemma wp_get_part c i v (Q : digits -> Prop) :
  holds K c i v -> (forall p, part_ c !! i = Some p -> residue K p v -> Q p) -> wp (get_part c i) Q.
Proof. intros (p & Hp & Hr) HQ. unfold get_part. rewrite Hp. apply wp_Ok. by apply HQ. Qed.

(** Only that the part exists matters when it is overwritten. *)
Lemma wp_get_part_any c i (Q : digits -> Prop) :
  container_ok n K c -> (i < n)%nat -> (forall p, part_ c !! i = Some p -> part_ok K p -> Q p) -> wp (get_part c i) Q.
Proof.
  intros Hc Hi HQ. unfold get_part. destruct (lookup_lt_is_Some_2 (part_ c) i) as [p Hp]; [by rewrite (container_length _ _ _ Hc)|].
  rewrite Hp. apply wp_Ok. apply HQ; [done|]. exact (Forall_lookup_1 _ _ _ _ (container_parts _ _ _ Hc) Hp).
Qed.

Lemma set_part_ok c i p : container_ok n K c -> part_ok K p -> container_ok n K (set_part c i p).
Proof.
  intros [] Hp. split; try done; cbn; [by rewrite length_insert|]. by apply Forall_insert.
Qed.

Lemma set_part_changed c i p : changed (fun k => k = i) c (set_part c i p).
Proof. intros k Hk. cbn. by rewrite list_lookup_insert_ne by naive_solver. Qed.

Lemma set_part_holds c i p v : container_ok n K c -> (i < n)%nat -> residue K p v -> holds K (set_part c i p) i v.
Proof. intros Hc Hi Hr. exists p. split; [|done]. cbn. apply list_lookup_insert_eq. by rewrite (container_length _ _ _ Hc). Qed.

Lemma set_part_other c i j p v : i <> j -> holds K c j v -> holds K (set_part c i p) j v.
Proof. intros Hne Hh. eapply holds_changed; [apply set_part_changed | | done]. naive_solver. Qed.

Lemma get_temp_ok c : container_ok n K c -> part_ok K (get_temp c).
Proof.
  intros Hc. unfold get_temp, length_. rewrite (container_K _ _ _ Hc). pose proof (container_temp _ _ _ Hc).
  split; [rewrite length_take; lia | by apply digits_ok_take, (container_temp_ok _ _ _ Hc)].
Qed.

Lemma set_temp_ok c t : container_ok n K c -> part_ok K t -> container_ok n K (set_temp c t).
Proof.
  intros [] [Hl Ht]. split; try done; cbn.
  - rewrite length_app, length_drop. lia.
  - apply digits_ok_app; [done | by apply digits_ok_drop].
Qed.

Lemma get_set_temp c t : container_ok n K c -> length t = S K -> get_temp (set_temp c t) = t.
Proof. intros Hc Hl. unfold get_temp, length_. cbn. rewrite (container_K _ _ _ Hc). apply take_app_length'. lia. Qed.

(** ** Butterflies *)

Context (HK : (0 < K)%nat).

Lemma sum_diff_parts_spec c i j a b :
  container_ok n K c -> i <> j -> (i < n)%nat -> (j < n)%nat -> holds K c i a -> holds K c j b ->
  wp (sum_diff_parts c i j) (fun c' => container_ok n K c' /\ holds K c' i (a + b) /\ holds K c' j (a - b) /\ changed (fun k => k = i \/ k = j) c c').
Proof.
  intros Hc Hne Hi Hj Ha Hb. unfold sum_diff_parts. apply wp_bind, (wp_get_part c i a); [done|]. intros p Hp [Hcp Ep].
  apply wp_bind, (wp_get_part c j b); [done|]. intros q Hq [Hcq Eq].
  apply wp_bind. eapply wp_mono; [apply (SumDiff_spec K); [done | apply Hcp | apply Hcq | done | done]|]. intros [s d] [Hs Hd].
  apply wp_ret. assert (container_ok n K (set_part c i s)) by (apply set_part_ok; [done | by eapply residue_part_ok]).
  split_and!.
  - apply set_part_ok; [done | by eapply residue_part_ok].
  - apply set_part_other; [done|]. apply set_part_holds; [done | done|]. eapply residue_mono; [done|]. by rewrite Ep, Eq.
  - apply set_part_holds; [done | done|]. eapply residue_mono; [done|]. by rewrite Ep, Eq.
  - eapply changed_trans; (eapply changed_mono; [|apply set_part_changed]); naive_solver.
Qed.

Lemma forward_butterfly_spec c start h w k a b :
  container_ok n K c -> 0 <= w -> (k < h)%nat -> (start + h + k < n)%nat -> holds K c (start + k) a -> holds K c (start + h + k) b ->
  wp (forward_butterfly start h w k c) (fun c' => container_ok n K c' /\ holds K c' (start + k) (a + b) /\
    holds K c' (start + h + k) ((a - b) * 2 ^ (w * Z.of_nat k)) /\ changed (fun i => i = start + k \/ i = start + h + k)%nat c c').
Proof.
  intros Hc Hw Hk Hn Ha Hb. unfold forward_butterfly. apply wp_bind, (wp_get_part c _ a); [done|]. intros p Hp [Hcp Ep].
  apply wp_bind, (wp_get_part c _ b); [done|]. intros q Hq [Hcq Eq]. pose proof (get_temp_ok c Hc) as [Hlt _].
  apply wp_bind. eapply wp_mono; [apply (SumDiff_spec K); [done | apply Hcp | done | done | done]|]. intros [s d] [Hs [Hcd Ed]].
  set (c1 := set_part c (start + k) s). assert (container_ok n K c1) as Hc1 by (apply set_part_ok; [done | by eapply residue_part_ok]).
  assert (container_ok n K (set_temp c1 d)) as Hc2 by (apply set_temp_ok; [done | by apply canon_part_ok]).
  apply wp_bind, (wp_get_part_any _ (start + h + k)); [done | lia|]. intros q' Hq' [Hlq' Hokq'].
  apply wp_bind. rewrite (container_K _ _ _ Hc2), (get_set_temp c1 d) by (done || apply Hcd).
  eapply wp_mono; [apply (ShiftModFn_spec K q' d (w * Z.of_nat k) None); try done; lia|]. intros r Hr. apply wp_ret.
  split_and!.
  - apply set_part_ok; [done | exact (residue_part_ok _ _ _ Hr)].
  - apply set_part_other; [lia|]. assert (holds K c1 (start + k) (a + b)) as Hh; [|exact Hh].
    apply set_part_holds; [done | lia|]. eapply residue_mono; [done|]. by rewrite Ep, Eq.
  - apply set_part_holds; [done | done|]. eapply residue_mono; [exact Hr|]. by rewrite Ed, Ep, Eq.
  - eapply changed_trans; [|eapply changed_mono; [|apply set_part_changed]; naive_solver].
    assert (changed (fun i => i = start + k \/ i = start + h + k)%nat c c1) as Hh; [|exact Hh].
    eapply changed_mono; [|apply set_part_changed]. naive_solver.
Qed.

Lemma backward_butterfly_spec c start h w k a b :
  container_ok n K c -> 0 <= w -> (0 < k < h)%nat -> (start + h + k < n)%nat -> holds K c (start + k) a -> holds K c (start + h + k) b ->
  wp (backward_butterfly start (h + h) w k c) (fun c' => container_ok n K c' /\ holds K c' (start + k) (a + b * back_factor w (h + h) k) /\
    holds K c' (start + h + k) (a - b * back_factor w (h + h) k) /\ changed (fun i => i = start + k \/ i = start + h + k)%nat c c').
Proof.
  intros Hc Hw Hk Hn Ha Hb. unfold backward_butterfly. replace (Nat.div2 (h + h)) with h by (rewrite <- (Nat.div2_double h) at 1; f_equal; lia).
  apply wp_bind, (wp_get_part c _ b); [done|]. intros q Hq [Hcq Eq]. pose proof (get_temp_ok c Hc) as [Hlt Htok].
  unfold back_factor. rewrite bool_decide_false by lia.
  apply wp_bind. rewrite (container_K _ _ _ Hc).
  eapply wp_mono; [apply (ShiftModFn_spec K (get_temp c) q (w * Z.of_nat (h + h - k)) None); try done; apply Z.mul_nonneg_nonneg; lia|].
  intros t [Hct Et]. assert (container_ok n K (set_temp c t)) as Hc1 by (apply set_temp_ok; [done | by apply canon_part_ok]).
  assert (holds K (set_temp c t) (start + k) a) as Ha1 by exact Ha. assert (holds K (set_temp c t) (start + h + k) b) as Hb1 by exact Hb.
  apply wp_bind, (wp_get_part _ _ a); [done|]. intros p Hp [Hcp Ep]. apply wp_bind, (wp_get_part _ _ b); [done|]. intros q1 Hq1 [Hcq1 _].
  rewrite get_set_temp by (done || apply Hct).
  apply wp_bind. eapply wp_mono; [apply (SumDiff_spec K); [done | apply Hcp | apply Hcq1 | done | done]|]. intros [s d] [Hs Hd]. apply wp_ret.
  assert (container_ok n K (set_part (set_temp c t) (start + k) s)) by (apply set_part_ok; [done | by eapply residue_part_ok]).
  split_and!.
  - apply set_part_ok; [done | by eapply residue_part_ok].
  - apply set_part_other; [lia|]. apply set_part_holds; [done | lia|]. eapply residue_mono; [done|]. by rewrite Ep, Et, Eq.
  - apply set_part_holds; [done | done|]. eapply residue_mono; [done|]. by rewrite Ep, Et, Eq.
  - assert (changed (fun i => i = start + k \/ i = start + h + k)%nat (set_temp c t) (set_part (set_part (set_temp c t) (start + k) s) (start + h + k) d)) as Hh; [|exact Hh].
    eapply changed_trans; (eapply changed_mono; [|apply set_part_changed]); cbn; tauto.
Qed.

(** A level of butterflies: the first without a shift, then the others. *)
Lemma butterflies_spec c start h (p q p' q' : nat -> Z) body :
  container_ok n K c -> (0 < h)%nat -> (start + h + h <= n)%nat -> p' 0%nat = p 0%nat + q 0%nat -> q' 0%nat = p 0%nat - q 0%nat ->
  (forall k c, (0 < k < h)%nat -> container_ok n K c -> holds K c (start + k) (p k) -> holds K c (start + h + k) (q k) ->
     wp (body k c) (fun c' => container_ok n K c' /\ holds K c' (start + k) (p' k) /\ holds K c' (start + h + k) (q' k) /\
       changed (fun i => i = start + k \/ i = start + h + k)%nat c c')) ->
  (forall k, (k < h)%nat -> holds K c (start + k) (p k)) -> (forall k, (k < h)%nat -> holds K c (start + h + k) (q k)) ->
  wp (c ← sum_diff_parts c start (start + h); for_loop (h - 1) 1 body c) (fun c' => container_ok n K c' /\
    (forall k, (k < h)%nat -> holds K c' (start + k) (p' k)) /\ (forall k, (k < h)%nat -> holds K c' (start + h + k) (q' k)) /\
    changed (fun i => start <= i < start + h + h)%nat c c').
Proof.
  intros Hc Hh Hn E0 E1 Hbody Hp Hq.
  set (I m c' := container_ok n K c' /\
    (forall k, (k < h)%nat -> holds K c' (start + k) (if bool_decide (k < m)%nat then p' k else p k)) /\
    (forall k, (k < h)%nat -> holds K c' (start + h + k) (if bool_decide (k < m)%nat then q' k else q k)) /\
    changed (fun i => start <= i < start + h + h)%nat c c').
  assert (forall m c1 c2, (m < h)%nat -> I m c1 -> container_ok n K c2 -> holds K c2 (start + m) (p' m) -> holds K c2 (start + h + m) (q' m) ->
    changed (fun i => i = start + m \/ i = start + h + m)%nat c1 c2 -> I (S m) c2) as Hnext.
  { intros m c1 c2 Hm (_ & Hp1 & Hq1 & Hch1) Hc2 Hp2 Hq2 Hch2. split_and!; [done | | |].
    - intros k Hk. destruct (decide (k = m)) as [-> | Hne]; [by rewrite bool_decide_true by lia|].
      rewrite (bool_decide_ext (k < S m)%nat (k < m)%nat) by lia. eapply holds_changed; [exact Hch2 | cbn; lia | by apply Hp1].
    - intros k Hk. destruct (decide (k = m)) as [-> | Hne]; [by rewrite bool_decide_true by lia|].
      rewrite (bool_decide_ext (k < S m)%nat (k < m)%nat) by lia. eapply holds_changed; [exact Hch2 | cbn; lia | by apply Hq1].
    - eapply changed_trans; [done|]. eapply changed_mono; [|exact Hch2]. intros i. cbn. lia. }
  assert (I 0%nat c) as HI0.
  { split_and!; [done | | | apply changed_refl]; intros k Hk; rewrite bool_decide_false by lia; auto. }
  apply wp_bind. pose proof (Hp 0%nat Hh) as Hp0. pose proof (Hq 0%nat Hh) as Hq0. rewrite Nat.add_0_r in Hp0, Hq0.
  eapply wp_mono; [apply (sum_diff_parts_spec c start (start + h) (p 0%nat) (q 0%nat) Hc); try done; lia|].
  intros c1 (Hc1 & Hs & Hd & Hch).
  apply (wp_mono _ (I (1 + (h - 1))%nat)).
  - apply wp_for_loop.
    + apply (Hnext 0%nat c); rewrite ?Nat.add_0_r, ?E0, ?E1; done.
    + intros k c2 Hk HI. pose proof HI as (Hc2 & Hp2 & Hq2 & _). specialize (Hp2 k ltac:(lia)). specialize (Hq2 k ltac:(lia)).
      rewrite bool_decide_false in Hp2, Hq2 by lia. eapply wp_mono; [apply Hbody; (done || lia)|].
      intros c3 (? & ? & ? & ?). apply (Hnext k c2); (done || lia).
  - intros c2 (Hc2 & Hp2 & Hq2 & Hch2). split_and!; [done | | | done]; intros k Hk.
    + specialize (Hp2 k Hk). by rewrite bool_decide_true in Hp2 by lia.
    + specialize (Hq2 k Hk). by rewrite bool_decide_true in Hq2 by lia.
Qed.

(** What a transformation of the parts from [start] on computes. *)
Definition transforms (start len : nat) (a v : nat -> Z) (c : FFTContainer) (run : res FFTContainer) : Prop :=
  container_ok n K c -> (start + len <= n)%nat -> (forall k, (k < len)%nat -> holds K c (start + k) (a k)) ->
  wp run (fun c' => container_ok n K c' /\ (forall k, (k < len)%nat -> holds K c' (start + k) (v k)) /\ changed (fun i => start <= i < start + len)%nat c c').

(** Two transformations in a row, of adjacent ranges. *)
Lemma transforms_both start h a v1 v2 c run1 run2 :
  transforms start h a v1 c run1 -> (forall c', transforms (start + h) h (fun k => a (h + k)%nat) v2 c' (run2 c')) ->
  transforms start (h + h) a (fun k => if bool_decide (k < h)%nat then v1 k else v2 (k - h)%nat) c (c ← run1; run2 c).
Proof.
  intros H1 H2 Hc Hn Ha. apply wp_bind. eapply wp_mono; [apply H1; [done | lia | intros; apply Ha; lia]|]. intros c1 (Hc1 & Hv1 & Hch1).
  eapply wp_mono; [apply H2; [done | lia|]|].
  { intros k Hk. eapply holds_changed; [exact Hch1 | |]; cbn; [lia|]. rewrite <- Nat.add_assoc. apply Ha. lia. }
  intros c2 (Hc2 & Hv2 & Hch2). split_and!; [done | |].
  - intros k Hk. case_bool_decide.
    + eapply holds_changed; [exact Hch2 | | by apply Hv1]. cbn. lia.
    + specialize (Hv2 (k - h)%nat ltac:(lia)). by replace (start + h + (k - h))%nat with (start + k)%nat in Hv2 by lia.
  - eapply changed_trans; (eapply changed_mono; [|done]); cbn; lia.
Qed.

Lemma FFT_Recurse_spec rec l start w a c :
  (forall start a c, (0 < l)%nat -> transforms start (2 ^ l) a (transform l (2 * w) a) c (rec start (2 ^ l)%nat (2 * w) c)) ->
  transforms start (2 ^ S l) a
    (fun k => if bool_decide (k < 2 ^ l)%nat then transform l (2 * w) a k else transform l (2 * w) (fun j => a (2 ^ l + j)%nat) (k - 2 ^ l)) c
    (FFT_Recurse rec start (2 ^ l) w c).
Proof.
  intros Hrec. unfold FFT_Recurse. rewrite double_pow. case_bool_decide as Hlt.
  - assert (0 < l)%nat by (destruct l; [cbn in Hlt; lia | lia]).
    apply (transforms_both start (2 ^ l) a (transform l (2 * w) a) (transform l (2 * w) (fun j => a (2 ^ l + j)%nat)) c); [by apply Hrec | intros c'; by apply Hrec].
  - assert (l = 0)%nat as ->. { destruct l; [done|]. rewrite double_pow in Hlt. pose proof (pow_pos_nat l). lia. }
    intros Hc Hn Ha. apply wp_ret. split_and!; [done | | apply changed_refl]. intros k Hk. cbn [transform]. case_bool_decide as Hk'; [by apply Ha|].
    replace (2 ^ 0 + (k - 2 ^ 0))%nat with k by (cbn in *; lia). by apply Ha.
Qed.

Lemma FFT_ReturnShuffledThreadsafe_spec fuel l start w a c :
  (l < fuel)%nat -> (0 < l)%nat -> 0 <= w ->
  transforms start (2 ^ l) a (transform l w a) c (FFT_ReturnShuffledThreadsafe fuel start (2 ^ l) w c).
Proof.
  revert l start w a c. induction fuel as [|fuel IH]; intros l start w a c Hf Hl Hw; [lia|]. destruct l as [|l]; [lia|].
  intros Hc Hn Ha. cbn [FFT_ReturnShuffledThreadsafe]. rewrite even_pow, div2_pow. apply wp_bind, wp_dcheck; [done|].
  set (h := (2 ^ l)%nat) in *. rewrite double_pow in Hn, Ha. fold h in Hn, Ha. pose proof (pow_pos_nat l) as Hh. fold h in Hh.
  apply wp_bind_assoc, wp_bind.
  eapply wp_mono; [apply (butterflies_spec c start h a (fun k => a (h + k)%nat) (fun k => a k + a (h + k)%nat) (fun k => (a k - a (h + k)%nat) * 2 ^ (w * Z.of_nat k)) (forward_butterfly start h w)); try done|].
  - lia.
  - rewrite Z.mul_0_r. lia.
  - intros k c1 Hk Hc1 Hp Hq. apply forward_butterfly_spec; (done || lia).
  - intros k Hk. apply Ha. lia.
  - intros k Hk. rewrite <- Nat.add_assoc. apply Ha. lia.
  - intros c1 (Hc1 & Hp & Hq & Hch).
    set (b k := if bool_decide (k < h)%nat then a k + a (h + k)%nat else (a (k - h)%nat - a (h + (k - h))%nat) * 2 ^ (w * Z.of_nat (k - h))).
    eapply wp_mono; [apply (FFT_Recurse_spec (FFT_ReturnShuffledThreadsafe fuel) l start w b c1); [|done | by rewrite double_pow; fold h; lia |]|].
    + intros start' a' c' Hl'. apply IH; lia.
    + intros k Hk. rewrite double_pow in Hk. fold h in Hk. unfold b. case_bool_decide; [by apply Hp|].
      specialize (Hq (k - h)%nat ltac:(lia)). by replace (start + h + (k - h))%nat with (start + k)%nat in Hq by lia.
    + intros c2 (Hc2 & Hv & Hch2). split_and!; [done | |].
      * intros k Hk. specialize (Hv k Hk). fold h in Hv. cbn [transform]. fold h. rewrite double_pow in Hk. fold h in Hk.
        eapply holds_eq; [exact Hv|]. case_bool_decide as Hlt.
        -- apply transform_ext; [|done]. fold h. intros j Hj. unfold b. by rewrite bool_decide_true by done.
        -- apply transform_ext; [|fold h; lia]. fold h. intros j Hj. unfold b. rewrite bool_decide_false by lia. by replace (h + j - h)%nat with j by lia.
      * rewrite double_pow in Hch2 |- *. fold h in Hch2 |- *. eapply changed_trans; (eapply changed_mono; [|done]); cbn; lia.
Qed.

Lemma BackwardFFT_Threadsafe_spec fuel l start w v c :
  (l < fuel)%nat -> (2 <= l)%nat -> 0 <= w ->
  transforms start (2 ^ l) (pairs v) (inverse l w v) c (BackwardFFT_Threadsafe fuel start (2 ^ l) w c).
Proof.
  revert l start w v c. induction fuel as [|fuel IH]; intros l start w v c Hf Hl Hw; [lia|]. destruct l as [|l]; [lia|].
  intros Hc Hn Hv. cbn [BackwardFFT_Threadsafe]. rewrite even_pow, div2_pow. apply wp_bind, wp_dcheck; [done|].
  set (h := (2 ^ l)%nat) in *. pose proof (pow_pos_nat l) as Hh. fold h in Hh. rewrite double_pow in *. fold h in Hn, Hv.
  assert (Nat.even h = true) as Heven by (unfold h; destruct l; [lia | apply even_pow]).
  set (lo := inverse l (2 * w) v). set (hi := inverse l (2 * w) (fun k => v (h + k)%nat)).
  apply wp_bind. eapply wp_mono.
  { assert (transforms start (h + h) (pairs v) (fun k => if bool_decide (k < h)%nat then lo k else hi (k - h)%nat) c
      (if bool_decide (2 < h)%nat then
         c ← BackwardFFT_Threadsafe fuel start h (2 * w) c; BackwardFFT_Threadsafe fuel (start + h) h (2 * w) c
       else mret c)) as Hrec; [|by apply Hrec].
    case_bool_decide as Hlt.
    - assert (2 <= l)%nat by (destruct l as [|[|]]; cbn in h; lia).
      apply (transforms_both start h (pairs v) lo hi c); [apply IH; lia|]. intros c' Hc' Hn' Hv'.
      apply IH; try lia; [done|]. intros k Hk. specialize (Hv' k Hk). cbn beta in Hv'. by rewrite pairs_shift in Hv'.
    - assert (l = 1)%nat as El. { destruct l as [|[|l]]; [lia | done|]. unfold h in Hlt. cbn in Hlt. pose proof (pow_pos_nat l). lia. }
      assert (h = 2)%nat as E2 by (unfold h; by rewrite El). intros _ _ _. apply wp_ret. split_and!; [done | | apply changed_refl].
      intros k Hk. eapply holds_eq; [by apply Hv|]. unfold lo, hi. rewrite El. case_bool_decide.
      + symmetry. apply inverse_pairs. lia.
      + rewrite inverse_pairs by lia. rewrite <- pairs_shift by done. f_equal. lia. }
  intros c1 (Hc1 & Hv1 & Hch1).
  eapply wp_mono; [apply (butterflies_spec c1 start h lo hi (fun k => lo k + hi k * back_factor w (h + h) k) (fun k => lo k - hi k * back_factor w (h + h) k) (backward_butterfly start (h + h) w)); try done|].
  - lia.
  - unfold back_factor. rewrite bool_decide_true by done. lia.
  - unfold back_factor. rewrite bool_decide_true by done. lia.
  - intros k c2 Hk Hc2 Hp Hq. apply backward_butterfly_spec; (done || lia).
  - intros k Hk. specialize (Hv1 k ltac:(lia)). by rewrite bool_decide_true in Hv1 by lia.
  - intros k Hk. specialize (Hv1 (h + k)%nat ltac:(lia)). rewrite bool_decide_false, Nat.add_assoc in Hv1 by lia. by replace (h + k - h)%nat with k in Hv1 by lia.
  - intros c2 (Hc2 & Hp & Hq & Hch2). split_and!; [done | |].
    + intros k Hk. cbn [inverse]. fold h. rewrite double_pow. fold h lo hi. case_bool_decide; [by apply Hp|].
      specialize (Hq (k - h)%nat ltac:(lia)). by replace (start + h + (k - h))%nat with (start + k)%nat in Hq by lia.
    + eapply changed_trans; (eapply changed_mono; [|done]); cbn; lia.
Qed.
End one_container.
End fft_transform.
