(* ===== verification/FftPointwise.v ===== *)
(** The pointwise multiplication of two transformed containers, and the first level of the
    backward transformation that is merged into it ([DoPointwiseMultiplication] of
    [src/bigint/mul-fft.cc]). *)

From Stdlib Require Import ZArith Lia.
From stdpp Require Import base tactics numbers list option.
From S2P Require Import Prelude Digit Digits VectorArithmetic Processor MulKaratsuba MulFft FftMod FftAlgebra FftTransform.

#[local] Open Scope Z_scope.

Section fft_pointwise.
Context `{Config, Platform}.
Context {alloc : Allocator}.
Implicit Types c : FFTContainer.

(** What the transformation relies on: [mul] is exact on operands of at most [L] digits,
    unless it is interrupted. *)
Definition mul_ok (L : nat) (mul : digits -> digits -> digits -> PM digits) : Prop :=
  forall Zd X Y p,
    steady p -> digits_ok Zd -> digits_ok X -> digits_ok Y -> (length X <= L)%nat -> (length Y <= L)%nat ->
    (length (Normalize X) + length (Normalize Y) <= length Zd)%nat ->
    wpP (mul Zd X Y) p (fun Z' p' => status_le p p' /\ length Z' = length Zd /\ digits_ok Z' /\ (status_ p' = kOk -> val Z' = val X * val Y)).

(** The product of two canonical numbers modulo [F_n], before its reduction: it may be
    represented by a small negative number in two's complement. *)
Definition mul_mod_ok (K : nat) (mul : digits -> digits -> digits -> PM digits) : Prop :=
  forall Zd A B p,
    steady p -> canon K A -> canon K B -> length Zd = (2 * (K + 1))%nat -> digits_ok Zd ->
    wpP (mul Zd A B) p (fun R p' => status_le p p' /\ length R = (2 * (K + 1))%nat /\ digits_ok R /\
      (status_ p' = kOk -> exists V j, val R = V + j * bpow (2 * K + 2) /\ - bpow K <= V <= bpow (2 * K) /\ eqm (Fn K) V (val A * val B))).

Lemma mul_ok_mod L K mul : (S K <= L)%nat -> mul_ok L mul -> mul_mod_ok K mul.
Proof.
  intros HL Hmul Zd A B p Hst (HlA & HA & HvA) (HlB & HB & HvB) HlZ HZ. pose proof (length_Normalize A). pose proof (length_Normalize B).
  eapply wpP_mono; [apply Hmul; (done || lia)|]. intros R p' (Hle & HlR & HR & Hv). split_and!; [done | lia | done|].
  intros Hok. exists (val A * val B), 0. rewrite (Hv Hok). pose proof (val_bounds A HA). pose proof (val_bounds B HB). pose proof (bpow_pos K).
  assert (bpow (2 * K) = bpow K * bpow K) as -> by (rewrite <- bpow_add; f_equal; lia). split_and!; [lia | nia | nia | done].
Qed.

Section loop.
Context (n K : nat) (HK : (0 < K)%nat) (a b : nat -> Z).

(** The second operand: the parts of another container, or the container itself. *)
Definition operand_ok (other : option (list digits)) : Prop :=
  match other with
  | Some bs => forall k, (k < n)%nat -> exists q, bs !! k = Some q /\ residue K q (b k)
  | None => forall k, (k < n)%nat -> b k = a k
  end.

Definition products (k : nat) : Z := a k * b k.

(** The parts before part [i] is multiplied. *)
Definition multiplied (i : nat) (c : FFTContainer) : Prop :=
  forall k, (k < n)%nat -> holds K c k
    (if bool_decide (i <= k)%nat then a k else if bool_decide (S k = i /\ Nat.even k = true) then products k else pairs products k).

Lemma multiplied_next i c c1 :
  container_ok n K c -> container_ok n K c1 -> (i < n)%nat -> multiplied i c -> holds K c1 i (products i) -> changed (fun k => k = i) c c1 ->
  wp (if Nat.odd i then sum_diff_parts c1 (i - 1) i else mret c1) (fun c' => container_ok n K c' /\ multiplied (S i) c').
Proof.
  intros Hc Hc1 Hi Hm Hhi Hch. destruct (Nat.odd i) eqn:Eodd.
  - assert (0 < i)%nat by (destruct i; [done | lia]). assert (Nat.even (i - 1) = true) as Eev.
    { destruct i as [|i']; [done|]. rewrite Nat.odd_succ in Eodd. by replace (S i' - 1)%nat with i' by lia. }
    assert (holds K c1 (i - 1) (products (i - 1))) as Hprev.
    { eapply holds_changed; [exact Hch | cbn; lia|]. specialize (Hm (i - 1)%nat ltac:(lia)).
      rewrite bool_decide_false, bool_decide_true in Hm by (lia || (split; [lia | done])). done. }
    eapply wp_mono; [apply (sum_diff_parts_spec n K HK c1 (i - 1) i (products (i - 1)) (products i)); (done || lia)|].
    intros c2 (Hc2 & Hs & Hd & Hch2). split; [done|]. intros k Hk.
    destruct (decide (k = i)) as [-> | Hne].
    { rewrite bool_decide_false, bool_decide_false by (lia || (intros [_ E]; by rewrite <- Nat.negb_odd, Eodd in E)).
      unfold pairs. by rewrite <- Nat.negb_odd, Eodd. }
    destruct (decide (k = i - 1)%nat) as [-> | Hne'].
    { rewrite bool_decide_false, bool_decide_false by lia. unfold pairs. rewrite Eev. by replace (S (i - 1)) with i by lia. }
    eapply holds_changed; [exact Hch2 | cbn; lia|]. eapply holds_changed; [exact Hch | cbn; lia|]. eapply holds_eq; [by apply Hm|].
    destruct (decide (i <= k)%nat).
    + by rewrite !(bool_decide_true (_ <= k)%nat) by lia.
    + rewrite !(bool_decide_false (_ <= k)%nat) by lia. by rewrite !bool_decide_false by lia.
  - apply wp_ret. split; [done|]. intros k Hk. destruct (decide (k = i)) as [-> | Hne].
    { rewrite bool_decide_false, bool_decide_true by (lia || (split; [done | by rewrite <- Nat.negb_odd, Eodd])). done. }
    eapply holds_changed; [exact Hch | cbn; lia|]. eapply holds_eq; [by apply Hm|].
    destruct (decide (i <= k)%nat).
    + by rewrite !(bool_decide_true (_ <= k)%nat) by lia.
    + rewrite !(bool_decide_false (_ <= k)%nat) by lia. rewrite !bool_decide_false; [done | lia|].
      intros [E Ev]. subst i. by rewrite Nat.odd_succ, Ev in Eodd.
Qed.

Lemma pointwise_loop_spec mul rounds i other c p :
  mul_mod_ok K mul -> operand_ok other -> steady p -> container_ok n K c -> (i + rounds = n)%nat -> multiplied i c ->
  wpP (pointwise_loop mul rounds i other c) p (fun c' p' => status_le p p' /\ container_ok n K c' /\ (status_ p' = kOk -> multiplied n c')).
Proof.
  intros Hmul Hother. revert i c p. induction rounds as [|rounds IH]; intros i c p Hst Hc Hi Hm; cbn [pointwise_loop].
  { apply wpP_ret. split_and!; [apply status_le_refl | done|]. intros _. by replace n with i by lia. }
  pose proof (Hm i ltac:(lia)) as Ha. rewrite bool_decide_true in Ha by lia.
  apply wpP_bind, wpP_lift, (wp_get_part K c i (a i)); [done|]. intros A HA [HcA EA].
  assert (exists B, default (part_ c) other !! i = Some B /\ residue K B (b i)) as (B & HB & HcB & EB).
  { destruct other as [bs|]; cbn [default operand_ok] in *; [apply Hother; lia|]. exists A. split; [done|].
    split; [done|]. rewrite (Hother i) by lia. done. }
  apply wpP_bind, wpP_lift. rewrite HB. apply wp_Ok.
  apply wpP_bind. eapply wpP_mono; [apply (Hmul (temp_ c) A B p Hst HcA HcB); apply Hc|]. intros R p1 (Hle & HlR & HR & Hv).
  set (c0 := mkContainer (n_ c) (K_ c) (part_ c) R). assert (container_ok n K c0) as Hc0 by (destruct Hc; split; done).
  apply wpP_bind, wpP_should_terminate. case_bool_decide as Hint.
  { apply wpP_ret. split_and!; [done | done|]. by rewrite Hint. }
  assert (status_ p1 = kOk) as Hok by (by destruct (status_ p1)). destruct (Hv Hok) as (V & j & EV & HbV & EqV).
  apply wpP_bind, wpP_lift. eapply wp_mono; [apply (ModFnDoubleWidth_spec K A R V j); try done; [apply HcA | apply HcA | lia]|]. intros part Hpart.
  assert (container_ok n K (set_part c0 i part)) as Hc1 by (apply set_part_ok; [done | exact (residue_part_ok _ _ _ Hpart)]).
  apply wpP_bind, wpP_lift. eapply wp_mono; [apply (multiplied_next i c (set_part c0 i part)); try done; [lia | |]|].
  - apply (set_part_holds n); [done | lia|]. eapply residue_mono; [exact Hpart|]. unfold products. by rewrite EqV, EA, EB.
  - apply (set_part_changed c0).
  - intros c2 (Hc2 & Hm2). eapply wpP_mono; [apply IH; [by eapply steady_le | done | lia | done]|].
    intros c3 p3 (Hle3 & Hc3 & Hm3). split_and!; [by eapply status_le_trans | done | done].
Qed.

(** After the loop: every pair of products is added and subtracted. *)
Lemma multiplied_end c : Nat.even n = true -> multiplied n c -> forall k, (k < n)%nat -> holds K c k (pairs products k).
Proof.
  intros Hn Hm k Hk. eapply holds_eq; [by apply Hm|]. rewrite bool_decide_false by lia. rewrite bool_decide_false; [done|].
  intros [E Ev]. rewrite <- E, Nat.even_succ, <- Nat.negb_even, Ev in Hn. done.
Qed.
End loop.
End fft_pointwise.
