(* ===== verification/FftStart.v ===== *)
(** The forward transformation of an operand: [Start_Default] and [Start] of
    [src/bigint/mul-fft.cc] split it into chunks and transform them. *)

From Stdlib Require Import ZArith Lia.
From stdpp Require Import base tactics numbers list option.
From S2P Require Import Prelude Digit Digits VectorArithmetic Processor MulSchoolbook MulKaratsuba MulFft FftMod FftAlgebra FftTransform.

#[local] Open Scope Z_scope.

Section fft_start.
Context `{Config, Platform}.
Context {alloc : Allocator}.
Implicit Types c : FFTContainer.

(** The value of chunk [k] of [s] digits; the last of the [n] chunks takes what is left. *)
Definition chunk (n s : nat) (X : digits) (k : nat) : Z :=
  if bool_decide (S k = n) then val (drop (k * s) X) else val (slice X (k * s) s).

Lemma bpow_mul k s : bpow (k * s) = bpow s ^ Z.of_nat k.
Proof.
  induction k as [|k IH]; [done|]. rewrite Nat2Z.inj_succ, Z.pow_succ_r by lia. cbn [Nat.mul]. by rewrite bpow_add, IH.
Qed.

Lemma chunks_prefix s X k : digits_ok X -> eval k (fun i => val (slice X (i * s) s)) (bpow s) = val (take (k * s) X).
Proof.
  intros HX. induction k as [|k IH]; [done|]. unfold eval in *. cbn [sum]. rewrite IH, <- bpow_mul.
  replace (S k * s)%nat with (k * s + s)%nat by lia. rewrite val_take_add. lia.
Qed.

Lemma chunks_value n s X : digits_ok X -> (0 < n)%nat -> eval n (chunk n s X) (bpow s) = val X.
Proof.
  intros HX Hn. destruct n as [|n]; [lia|]. unfold eval. cbn [sum]. rewrite (sum_ext n _ (fun i => val (slice X (i * s) s) * bpow s ^ Z.of_nat i)).
  2: { intros i Hi. unfold chunk. by rewrite bool_decide_false by lia. }
  fold (eval n (fun i => val (slice X (i * s) s)) (bpow s)). rewrite chunks_prefix by done. unfold chunk. rewrite bool_decide_true by done.
  rewrite <- bpow_mul. rewrite <- (take_drop (n * s) X) at 3. rewrite val_app, length_take.
  destruct (decide (n * s <= length X)%nat); [rewrite Nat.min_l by lia; lia|]. rewrite (drop_ge X) by lia. cbn [val]. lia.
Qed.

Lemma chunk_nonneg n s X k : digits_ok X -> 0 <= chunk n s X k.
Proof. intros HX. unfold chunk. case_bool_decide; apply val_bounds; by auto using digits_ok_drop, digits_ok_slice. Qed.

Lemma fft_chunk_bound n s X k : digits_ok X -> (length X <= n * s)%nat -> (k < n)%nat -> chunk n s X k < bpow s.
Proof.
  intros HX Hl Hk. unfold chunk. case_bool_decide.
  - pose proof (val_bounds _ (digits_ok_drop (k * s) X HX)) as Hb. rewrite length_drop in Hb.
    assert (bpow (length X - k * s) <= bpow s) by (apply bpow_le; subst n; nia). lia.
  - pose proof (val_bounds _ (digits_ok_slice X (k * s) s HX)) as Hb. rewrite length_slice in Hb.
    assert (bpow (s `min` (length X - k * s)) <= bpow s) by (apply bpow_le; lia). lia.
Qed.

Lemma FFTContainer_new_ok n K : container_ok n K (FFTContainer_new n K).
Proof.
  split; cbn; try done.
  - by rewrite length_map, length_seq.
  - apply Forall_map, Forall_seq. intros i Hi.
    split; [|apply digits_ok_slice, uninitialized_ok]. rewrite length_slice, length_uninitialized. nia.
  - by rewrite length_uninitialized.
  - apply uninitialized_ok.
Qed.

(** A chunk that is copied is canonical. *)
Lemma CopyAndZeroExtend_spec K dst src m :
  length dst = S K -> digits_ok src -> (m <= length src)%nat -> (m <= K)%nat ->
  wp (CopyAndZeroExtend dst src m) (fun t => canon K t /\ val t = val (take m src) /\ zero_from_cap t K (Some m)).
Proof.
  intros Hl Hs Hm HmK. unfold CopyAndZeroExtend. rewrite bool_decide_true by lia. apply wp_ret. rewrite Hl, val_app_zeros.
  pose proof (val_bounds _ (digits_ok_take m src Hs)) as Hb. rewrite length_take, Nat.min_l in Hb by lia.
  assert (bpow m <= bpow K) by (apply bpow_le; lia). split_and!; [split_and! | done |].
  - rewrite length_app, length_take, length_replicate. lia.
  - apply digits_ok_app; [by apply digits_ok_take | apply digits_ok_zeros].
  - rewrite val_app_zeros. lia.
  - intros i Hi. rewrite lookup_app_r by (rewrite length_take; lia). apply lookup_replicate_2. rewrite length_take. lia.
Qed.

Section start.
Context (l K s : nat) (HK : (0 < K)%nat) (Hs : (0 < s < K)%nat).
Context (X : digits) (HX : digits_ok X).
Context (theta omega : Z) (Htheta : 0 <= theta) (Homega : 0 <= omega).
Definition nparts : nat := (2 ^ l)%nat.

(** The operand fits, with an extra digit in the inner layer. *)
Definition fits : Prop := (length X <= nparts * s + 1)%nat /\ ((length X = nparts * s + 1)%nat -> exists d, X !! (nparts * s)%nat = Some d /\ d <= 1).

Context (Hfits : fits).

Definition loaded (c : FFTContainer) (i : nat) : Prop := holds K c i (weighted theta (chunk nparts s X) i).

(** Where the loop over the chunks is: at chunk [i], or past the last one. *)
Definition chunk_pointer (i : nat) (pointer : digits) : Prop := (pointer = drop (i * s) X /\ ((i < nparts)%nat \/ pointer = [])) \/ (pointer = [] /\ i = nparts).

(** The number of digits of chunk [i]. *)
Lemma chunk_size_spec i pointer cs c :
  container_ok nparts K c -> (i < nparts)%nat -> chunk_pointer i pointer -> (0 < length pointer)%nat -> cs = (s `min` length pointer)%nat ->
  wp (if bool_decide (i = n_ c - 1 /\ length pointer = cs + 1)%nat then
        top ← rd X (n_ c * cs);
        dcheck (top <=? 1);;
        dcheck (bool_decide (cs + 1 <= length_ c)%nat);;
        mret (cs + 1)%nat
      else mret cs)
    (fun m => (0 < m <= length pointer)%nat /\ (m <= K)%nat /\ val (take m pointer) = chunk nparts s X i /\ chunk_pointer (S i) (drop m pointer) /\
      ((m < length pointer)%nat -> m = s)).
Proof.
  intros Hc Hi [[Hp _] | [_ ->]] Hl ->; [|lia]. destruct Hfits as [HlX Htop]. unfold length_. rewrite (container_n _ _ _ Hc), (container_K _ _ _ Hc).
  assert (length pointer = length X - i * s)%nat as Hlp by (by rewrite Hp, length_drop).
  case_bool_decide as Hlast.
  - destruct Hlast as [-> Elen]. assert (length X = nparts * s + 1)%nat as EX by nia. destruct (Htop EX) as (d & Hd & Hd1).
    replace (s `min` length pointer)%nat with s in * by lia. apply wp_bind. unfold rd. rewrite Hd. apply wp_Ok.
    apply wp_bind, wp_dcheck; [by apply Z.leb_le|]. apply wp_bind, wp_dcheck; [by rewrite bool_decide_true by lia|]. apply wp_ret.
    split_and!; [lia | lia | lia | | right; split; [apply drop_ge; lia | lia] | lia].
    unfold chunk. rewrite bool_decide_true by lia. by rewrite take_ge, Hp by lia.
  - apply wp_ret. split_and!; [lia | lia | lia | | | lia].
    + unfold chunk. case_bool_decide as HN.
      * rewrite take_ge, Hp; [done|]. assert (length pointer <= s)%nat; [|lia]. destruct (decide (length pointer = s + 1)%nat) as [E|]; [|nia].
        exfalso. apply Hlast. split; [lia|]. lia.
      * unfold slice. rewrite <- Hp. destruct (decide (s <= length pointer)%nat); [by rewrite Nat.min_l by lia|]. by rewrite !take_ge by lia.
    + left. split.
      * rewrite Hp at 2. rewrite drop_drop. destruct (decide (s <= length pointer)%nat); [rewrite Nat.min_l by lia; f_equal; lia|]. by rewrite !drop_ge by lia.
      * destruct (decide (S i < nparts)%nat) as [|Hlast']; [by left | right]. apply drop_ge.
        destruct (decide (length pointer = s + 1)%nat) as [E|]; [|nia]. exfalso. apply Hlast. split; lia.
Qed.

Lemma start_chunks_spec rounds i cs pointer c :
  container_ok nparts K c -> (i + rounds = nparts)%nat -> chunk_pointer i pointer -> ((0 < length pointer)%nat -> cs = s) ->
  (forall k, (k < i)%nat -> loaded c k) ->
  wp (start_chunks rounds i X cs theta (theta * Z.of_nat i) pointer c) (fun '(i', pointer', c') => container_ok nparts K c' /\ pointer' = [] /\ (i' <= nparts)%nat /\
    (forall k, (k < i')%nat -> loaded c' k) /\ (forall k, (i' <= k < nparts)%nat -> chunk nparts s X k = 0)).
Proof.
  revert i cs pointer c. induction rounds as [|rounds IH]; intros i cs pointer c Hc Hi Hp Hcs Hload; cbn [start_chunks].
  { apply wp_ret. split_and!; try done; try lia. destruct Hp as [[_ [? | ?]] | [? _]]; [lia | done | done]. }
  case_bool_decide as Hlen.
  2: { apply wp_ret. assert (pointer = []) as -> by (destruct pointer; [done | cbn in Hlen; lia]). split_and!; try done; try lia.
       intros k Hk. destruct Hp as [[Hp _] | [_ ->]]; [|lia]. apply (f_equal length) in Hp. rewrite length_drop in Hp. cbn in Hp.
       unfold chunk, slice. case_bool_decide; (rewrite drop_ge by nia; by rewrite ?take_nil). }
  rewrite (Hcs Hlen). apply wp_bind. eapply wp_mono; [apply (chunk_size_spec i pointer); try done; lia|].
  intros m (Hm & HmK & Ev & Hp' & Hms). assert (digits_ok pointer) as Hpok.
  { destruct Hp as [[-> _] | [-> _]]; [by apply digits_ok_drop | constructor]. }
  apply wp_bind, (wp_get_part_any nparts K); [done | lia|]. intros part Hpart [Hlpart Hpartok]. apply wp_bind.
  apply (wp_mono _ (fun c' => container_ok nparts K c' /\ loaded c' i /\ changed (fun k => k = i) c c')).
  - destruct (Z.eqb_spec (theta * Z.of_nat i) 0) as [E0 | Hne]; cbn [negb].
    + apply wp_bind. eapply wp_mono; [apply (CopyAndZeroExtend_spec K); (done || lia)|]. intros t (Hct & Evt & _). apply wp_ret.
      split_and!; [apply set_part_ok; [done | by apply canon_part_ok] | | apply set_part_changed].
      apply (set_part_holds nparts); [done | lia|]. split; [done|]. unfold weighted. rewrite E0, Evt, Ev. apply eqm_eq. lia.
    + destruct (get_temp_ok nparts K c Hc) as [Hlt _].
      apply wp_bind. eapply wp_mono; [apply (CopyAndZeroExtend_spec K); (done || lia)|]. intros t (Hct & Evt & Hzt).
      assert (container_ok nparts K (set_temp c t)) as Hc1 by (apply set_temp_ok; [done | by apply canon_part_ok]).
      rewrite (get_set_temp nparts K) by (done || apply Hct). rewrite (container_K _ _ _ Hc1). apply wp_bind.
      eapply wp_mono; [apply (ShiftModFn_spec K part t); (done || lia)|]. intros r Hr. apply wp_ret.
      split_and!; [apply set_part_ok; [done | exact (residue_part_ok _ _ _ Hr)] | | apply (set_part_changed (set_temp c t))].
      apply (set_part_holds nparts); [done | lia|]. eapply residue_mono; [exact Hr|]. unfold weighted. by rewrite Evt, Ev.
  - intros c1 (Hc1 & Hl1 & Hch1). replace (theta * Z.of_nat i + theta) with (theta * Z.of_nat (S i)) by lia.
    apply IH; try done; [lia | rewrite length_drop; lia|]. intros k Hk. destruct (decide (k = i)) as [-> | Hne]; [done|].
    eapply holds_changed; [exact Hch1 | cbn; lia|]. apply Hload. lia.
Qed.

(** Clearing the rest of the parts. *)
Lemma clear_part_spec n c i :
  container_ok n K c -> (i < n)%nat -> wp (clear_part c i) (fun c' => container_ok n K c' /\ holds K c' i 0 /\ changed (fun k => k = i) c c').
Proof.
  intros Hc Hi. unfold clear_part. apply wp_bind, (wp_get_part_any n K); [done | done|]. intros p Hp [Hl Hok]. apply wp_ret.
  destruct (Clear_spec p) as (Hlc & Hokc & Evc). assert (canon K (Clear p)) as Hcan by (split_and!; [lia | done | rewrite Evc; pose proof (bpow_pos K); lia]).
  split_and!; [apply set_part_ok; [done | by apply canon_part_ok] | | apply set_part_changed].
  apply (set_part_holds n); [done | done|]. split; [done|]. by apply eqm_eq.
Qed.

Lemma Start_Default_spec c :
  container_ok nparts K c -> (0 < l)%nat ->
  wp (Start_Default X s theta omega c) (fun c' => container_ok nparts K c' /\
    (forall k, (k < nparts)%nat -> holds K c' k (transform l omega (weighted theta (chunk nparts s X)) k))).
Proof.
  intros Hc Hl. unfold Start_Default. rewrite (container_n _ _ _ Hc). apply wp_bind.
  pose proof (start_chunks_spec nparts 0 s X c Hc eq_refl) as Hchunks. rewrite Z.mul_0_r in Hchunks.
  eapply wp_mono; [apply Hchunks; [left; split; [done | left; apply pow_pos_nat] | done | lia]|].
  intros [[i pointer] c1] (Hc1 & -> & Hi & Hload & Hzero). apply wp_bind, wp_dcheck; [done|]. rewrite (container_n _ _ _ Hc1). apply wp_bind.
  eapply wp_mono.
  { apply (wp_for_loop (fun i c => container_ok nparts K c /\ forall k, (k < i)%nat -> loaded c k) (nparts - i) i); [done|].
    intros k c2 Hk [Hc2 Hl2]. eapply wp_mono; [apply (clear_part_spec nparts); (done || lia)|]. intros c3 (Hc3 & Hh & Hch). split; [done|].
    intros j Hj. destruct (decide (j = k)) as [-> | Hne].
    - eapply holds_eq; [exact Hh|]. unfold weighted. rewrite Hzero by lia. lia.
    - eapply holds_changed; [exact Hch | cbn; lia|]. apply Hl2. lia. }
  replace (i + (nparts - i))%nat with nparts by lia. cbn beta. intros c2 [Hc2 Hl2]. rewrite (container_n _ _ _ Hc2).
  eapply wp_mono; [apply (FFT_ReturnShuffledThreadsafe_spec nparts K HK (S nparts) l 0 omega (weighted theta (chunk nparts s X))); try done|].
  - unfold nparts. pose proof (Nat.pow_gt_lin_r 2 l). lia.
  - intros c3 (? & ? & _). by split.
Qed.

(** ** The half-filled container *)

Definition half_loaded (h : nat) (c : FFTContainer) (k : nat) : Prop :=
  holds K c k (val (slice X (k * s) s)) /\ holds K c (k + h) (val (slice X (k * s) s) * 2 ^ (omega * Z.of_nat k)).

Lemma half_loaded_changed h (P : nat -> Prop) c c' k : changed P c c' -> ~ P k -> ~ P (k + h)%nat -> half_loaded h c k -> half_loaded h c' k.
Proof. intros Hch H1 H2 [Ha Hb]. split; by eapply holds_changed. Qed.

Lemma start_half_chunks_spec h rounds i cs pointer c :
  container_ok (h + h) K c -> (0 < i)%nat -> (i + rounds = h)%nat -> pointer = drop (i * s) X -> ((0 < length pointer)%nat -> cs = s) ->
  (forall k, (k < i)%nat -> half_loaded h c k) ->
  wp (start_half_chunks rounds i h cs omega pointer c) (fun '(i', c') => container_ok (h + h) K c' /\ (0 < i' <= h)%nat /\
    (forall k, (k < i')%nat -> half_loaded h c' k) /\ ((i' < h)%nat -> (length X <= i' * s)%nat)).
Proof.
  revert i cs pointer c. induction rounds as [|rounds IH]; intros i cs pointer c Hc Hi0 Hi Hp Hcs Hload; cbn [start_half_chunks].
  { apply wp_ret. split_and!; (done || lia). }
  assert (length pointer = length X - i * s)%nat as Hlp by (by rewrite Hp, length_drop).
  case_bool_decide as Hlen.
  2: { apply wp_ret. split_and!; (done || lia). }
  rewrite (Hcs Hlen). set (m := (s `min` length pointer)%nat). assert (digits_ok pointer) as Hpok by (rewrite Hp; by apply digits_ok_drop).
  assert (take m pointer = slice X (i * s) s) as Ev.
  { unfold slice. rewrite <- Hp. unfold m. destruct (decide (s <= length pointer)%nat); [by rewrite Nat.min_l by lia|]. by rewrite !take_ge by lia. }
  apply wp_bind, (wp_get_part_any (h + h) K); [done | lia|]. intros part _ [Hlpart _].
  apply wp_bind. eapply wp_mono; [apply (CopyAndZeroExtend_spec K); (done || lia)|]. intros t (Hct & Evt & Hzt).
  assert (container_ok (h + h) K (set_part c i t)) as Hc1 by (apply set_part_ok; [done | by apply canon_part_ok]).
  apply wp_bind, (wp_get_part_any (h + h) K); [done | lia|]. intros other _ [Hlo Hoo].
  assert (holds K (set_part c i t) i (val t)) as Ht by (apply (set_part_holds (h + h)); [done | lia | by split]).
  apply wp_bind. unfold get_part at 1. cbn. rewrite list_lookup_insert_eq by (rewrite (container_length _ _ _ Hc); lia). apply wp_Ok.
  rewrite (container_K _ _ _ Hc). apply wp_bind.
  eapply wp_mono; [apply (ShiftModFn_spec K other t); try done; lia|]. intros r Hr.
  assert (container_ok (h + h) K (set_part (set_part c i t) (i + h) r)) as Hc2 by (apply set_part_ok; [done | exact (residue_part_ok _ _ _ Hr)]).
  apply IH; try done; try lia.
  - rewrite Hp, drop_drop. unfold m. destruct (decide (s <= length pointer)%nat); [rewrite Nat.min_l by lia; f_equal; lia|]. by rewrite !drop_ge by lia.
  - rewrite length_drop. lia.
  - intros k Hk. destruct (decide (k = i)) as [-> | Hne].
    + unfold half_loaded. rewrite <- Ev, <- Evt. split; [apply set_part_other; [lia | done]|]. apply (set_part_holds (h + h)); [done | lia | done].
    + eapply (half_loaded_changed h (fun j => j = i \/ j = i + h)%nat c); [|cbn; lia | cbn; lia | apply Hload; lia].
      eapply changed_trans; (eapply changed_mono; [|apply set_part_changed]); cbn; tauto.
Qed.

(** The first level of the transformation of a half-filled container. *)
Lemma transform_half_filled h a k :
  (2 ^ l = h + h)%nat -> (forall j, (h <= j < h + h)%nat -> a j = 0) -> (k < h + h)%nat -> (0 < l)%nat ->
  transform l omega a k =
  let b j := if bool_decide (j < h)%nat then a j else a (j - h)%nat * 2 ^ (omega * Z.of_nat (j - h)) in
  if bool_decide (k < h)%nat then transform (l - 1) (2 * omega) b k else transform (l - 1) (2 * omega) (fun j => b (h + j)%nat) (k - h).
Proof.
  intros Hl Ha Hk Hl0. destruct l as [|l']; [lia|]. rewrite double_pow in Hl. assert (h = 2 ^ l')%nat as -> by lia. replace (S l' - 1)%nat with l' by lia.
  cbn [transform]. cbv zeta. case_bool_decide as Hlt; (apply transform_ext; [|lia]); intros j Hj.
  - rewrite bool_decide_true, (Ha (2 ^ l' + j)%nat) by lia. lia.
  - rewrite bool_decide_false, (Ha (2 ^ l' + j)%nat) by lia. replace (2 ^ l' + j - 2 ^ l')%nat with j by lia. by rewrite Z.sub_0_r.
Qed.

(** The container that [Start] has filled without the first level of the transformation. *)
Lemma half_filled_spec h c :
  container_ok (h + h) K c -> (0 < h)%nat -> (s <= length X <= h * s)%nat ->
  wp (part ← get_part c 0;
      part ← CopyAndZeroExtend part X s;
      let c := set_part c 0 part in
      part ← get_part c h;
      part ← CopyAndZeroExtend part X s;
      let c := set_part c h part in
      '(i, c) ← start_half_chunks (h - 1) 1 h s omega (drop s X) c;
      for_loop (h - i) i (fun i c => c ← clear_part c i; clear_part c (i + h)) c)
    (fun c' => container_ok (h + h) K c' /\ forall k, (k < h)%nat -> half_loaded h c' k).
Proof.
  intros Hc Hh HlX. apply wp_bind, (wp_get_part_any (h + h) K); [done | lia|]. intros p0 _ [Hl0 _].
  apply wp_bind. eapply wp_mono; [apply (CopyAndZeroExtend_spec K); (done || lia)|]. intros t (Hct & Evt & _).
  assert (container_ok (h + h) K (set_part c 0 t)) as Hc1 by (apply set_part_ok; [done | by apply canon_part_ok]).
  apply wp_bind, (wp_get_part_any (h + h) K); [done | lia|]. intros p1 _ [Hl1 _].
  apply wp_bind. eapply wp_mono; [apply (CopyAndZeroExtend_spec K); (done || lia)|]. intros t' (Hct' & Evt' & _).
  set (c2 := set_part (set_part c 0 t) h t').
  assert (container_ok (h + h) K c2) as Hc2 by (apply set_part_ok; [done | by apply canon_part_ok]).
  apply wp_bind. eapply wp_mono; [apply (start_half_chunks_spec h (h - 1) 1 s (drop s X) c2); try done; try lia|].
  - by rewrite Nat.mul_1_l.
  - intros k Hk. assert (k = 0)%nat as -> by lia. unfold half_loaded, slice. cbn [Nat.mul Nat.add]. rewrite drop_0. split.
    + apply set_part_other; [lia|]. apply (set_part_holds (h + h)); [done | lia | split; [done | by apply eqm_eq]].
    + apply (set_part_holds (h + h)); [done | lia | split; [done |]]. rewrite Evt', Z.mul_0_r. apply eqm_eq. lia.
  - intros [i c3] (Hc3 & Hi & Hload & Hrest).
    apply (wp_mono _ (fun c => container_ok (h + h) K c /\ forall k, (k < i + (h - i))%nat -> half_loaded h c k)).
    2: { intros c4 [Hc4 Hl4]. split; [done|]. intros k Hk. apply Hl4. lia. }
    apply (wp_for_loop (fun i c => container_ok (h + h) K c /\ forall k, (k < i)%nat -> half_loaded h c k)); [done|].
    intros k c4 Hk [Hc4 Hl4]. apply wp_bind. eapply wp_mono; [apply (clear_part_spec (h + h)); (done || lia)|]. intros c5 (Hc5 & Hz5 & Hch5).
    eapply wp_mono; [apply (clear_part_spec (h + h) c5 (k + h)); (done || lia)|]. intros c6 (Hc6 & Hz6 & Hch6). split; [done|].
    intros j Hj. destruct (decide (j = k)) as [-> | Hne].
    + assert (slice X (k * s) s = []) as E. { unfold slice. rewrite drop_ge; [apply take_nil|]. specialize (Hrest ltac:(lia)). nia. }
      unfold half_loaded. rewrite E. cbn [val]. rewrite Z.mul_0_l. split; [|done]. eapply holds_changed; [exact Hch6 | cbn; lia | done].
    + eapply (half_loaded_changed h (fun j => j = k \/ j = k + h)%nat c4); [|cbn; lia | cbn; lia | apply Hl4; lia].
      eapply changed_trans; (eapply changed_mono; [|done]); cbn; tauto.
Qed.

Lemma wp_Start_half h c i0 (Q : FFTContainer -> Prop) :
  container_ok (h + h) K c ->
  wp (c ← (part ← get_part c 0;
           part ← CopyAndZeroExtend part X s;
           let c := set_part c 0 part in
           part ← get_part c h;
           part ← CopyAndZeroExtend part X s;
           let c := set_part c h part in
           '(i, c) ← start_half_chunks (h - 1) i0 h s omega (drop s X) c;
           for_loop (h - i) i (fun i c => c ← clear_part c i; clear_part c (i + h)) c);
      FFT_Recurse (FFT_ReturnShuffledThreadsafe (S (n_ c))) 0 h omega c) Q ->
  wp (part ← get_part c 0;
      part ← CopyAndZeroExtend part X s;
      let c := set_part c 0 part in
      part ← get_part c h;
      part ← CopyAndZeroExtend part X s;
      let c := set_part c h part in
      '(i, c) ← start_half_chunks (h - 1) i0 h s omega (drop s X) c;
      c ← for_loop (h - i) i (fun i c => c ← clear_part c i; clear_part c (i + h)) c;
      FFT_Recurse (FFT_ReturnShuffledThreadsafe (S (n_ c))) 0 h omega c) Q.
Proof.
  intros Hc. destruct (get_part c 0) as [p|]; [|done]. cbn [mbind res_bind]. destruct (CopyAndZeroExtend p X s) as [t|]; [|done]. cbn [mbind res_bind].
  destruct (get_part (set_part c 0 t) h) as [p'|]; [|done]. cbn [mbind res_bind]. destruct (CopyAndZeroExtend p' X s) as [t'|]; [|done]. cbn [mbind res_bind].
  by destruct (start_half_chunks _ _ _ _ _ _ _) as [[i c']|].
Qed.

Lemma FFTContainer_Start_spec c :
  container_ok nparts K c -> (0 < l)%nat -> theta = 0 -> (s <= length X <= nparts * s)%nat ->
  wp (Start X s theta omega c) (fun c' => container_ok nparts K c' /\
    (forall k, (k < nparts)%nat -> holds K c' k (transform l omega (weighted theta (chunk nparts s X)) k))).
Proof.
  intros Hc Hl Et HlX. unfold Start. rewrite (container_n _ _ _ Hc). case_bool_decide as Hhalf; [by apply Start_Default_spec|].
  apply wp_bind, wp_dcheck; [by apply Z.eqb_eq|]. set (h := (2 ^ (l - 1))%nat).
  assert (nparts = h + h)%nat as En by (unfold nparts, h; rewrite <- double_pow; f_equal; lia).
  assert (Nat.div2 nparts = h) as Eh by (rewrite En; replace (h + h)%nat with (2 * h)%nat by lia; apply Nat.div2_double).
  assert (Nat.div2 (nparts * s) = h * s)%nat as Ehs by (rewrite En, <- (Nat.div2_double (h * s)); f_equal; lia).
  rewrite Ehs in Hhalf. rewrite Eh. rewrite En in Hc. pose proof (pow_pos_nat (l - 1)) as Hh. fold h in Hh.
  apply wp_Start_half; [done|]. apply wp_bind. eapply wp_mono; [apply (half_filled_spec h c); (done || lia)|]. intros c1 [Hc1 Hl1].
  rewrite (container_n _ _ _ Hc1).
  set (b j := if bool_decide (j < h)%nat then chunk nparts s X j else chunk nparts s X (j - h)%nat * 2 ^ (omega * Z.of_nat (j - h))).
  assert (forall k, (k < h)%nat -> val (slice X (k * s) s) = chunk nparts s X k) as Echunk.
  { intros k Hk. unfold chunk. by rewrite bool_decide_false by lia. }
  eapply wp_mono; [apply (FFT_Recurse_spec (h + h) K HK (FFT_ReturnShuffledThreadsafe (S (h + h))) (l - 1) 0 omega b c1); [|done | |]|].
  - intros start' a' c' Hl'. apply FFT_ReturnShuffledThreadsafe_spec; try done; try lia. pose proof (Nat.pow_gt_lin_r 2 (l - 1)). fold h in H1. lia.
  - rewrite double_pow. fold h. lia.
  - intros k Hk. rewrite double_pow in Hk. fold h in Hk. cbn [Nat.add]. unfold b. case_bool_decide as Hlt.
    + destruct (Hl1 k Hlt) as [Hlo _]. by rewrite Echunk in Hlo.
    + destruct (Hl1 (k - h)%nat ltac:(lia)) as [_ Hhi]. rewrite Echunk in Hhi by lia. by replace (k - h + h)%nat with k in Hhi by lia.
  - rewrite double_pow. fold h. intros c2 (Hc2 & Hv & _). rewrite En at 1. split; [done|]. intros k Hk. eapply holds_eq; [apply Hv; rewrite <- En; exact Hk|].
    cbn [Nat.add]. rewrite (transform_ext l omega (weighted theta (chunk nparts s X)) (chunk nparts s X)); [| |done].
    2: { intros j Hj. unfold weighted. rewrite Et, Z.mul_0_l. lia. }
    rewrite (transform_half_filled h (chunk nparts s X) k); [done | exact En | | rewrite <- En; exact Hk | done].
    intros j Hj. unfold chunk, slice. case_bool_decide; rewrite drop_ge by nia; by rewrite ?take_nil.
Qed.
End start.
End fft_start.
