(* ===== verification/FftRecombine.v ===== *)
(** The recombination of the parts into the product: [NormalizeAndRecombine] of
    [src/bigint/mul-fft.cc]. *)

From Stdlib Require Import ZArith Lia.
From stdpp Require Import base tactics numbers list option.
From S2P Require Import Prelude Digit Digits VectorArithmetic Processor MulSchoolbook MulKaratsuba MulFft FftMod FftAlgebra FftTransform FftStart.

#[local] Open Scope Z_scope.

Section fft_recombine.
Context `{Config, Platform}.
Context {alloc : Allocator}.
Implicit Types c : FFTContainer.

(** The digits above the length of a number are zero. *)
Lemma high_digit_zero (t : digits) m j d : digits_ok t -> val t < bpow m -> (m <= j)%nat -> t !! j = Some d -> d = 0.
Proof.
  intros Ht Hv Hj Hd. pose proof (digits_ok_lookup _ _ _ Ht Hd) as Hdd. assert (j < length t)%nat by (by eapply lookup_lt_Some).
  rewrite <- (take_drop j t), val_app, length_take, Nat.min_l, (drop_S _ _ _ Hd) in Hv by lia. cbn [val] in Hv.
  pose proof (val_bounds _ (digits_ok_take j t Ht)). pose proof (val_bounds _ (digits_ok_drop (S j) t Ht)). pose proof (bpow_le _ _ Hj).
  unfold is_digit in Hdd. assert (0 <= digit_base * val (drop (S j) t)) by nia.
  assert (d + digit_base * val (drop (S j) t) < 1) by (pose proof (bpow_pos j); nia). lia.
Qed.

(** The value below the length of a number. *)
Lemma fft_val_take_small (t : digits) m : digits_ok t -> val t < bpow m -> val (take m t) = val t.
Proof.
  intros Ht Hv. destruct (decide (length t <= m)%nat); [by rewrite take_ge by lia|].
  rewrite <- (take_drop m t), val_app, length_take, Nat.min_l in Hv by lia. rewrite <- (take_drop m t) at 2. rewrite val_app, length_take, Nat.min_l by lia.
  pose proof (val_bounds _ (digits_ok_take m t Ht)). pose proof (val_bounds _ (digits_ok_drop m t Ht)). pose proof (bpow_pos m).
  assert (val (drop m t) = 0) as -> by nia. lia.
Qed.

(** The loop that adds the digits of [T] to a range of a vector, and the one that checks
    that the rest of [T] is zero. *)
Lemma wp_add_range n a (P0 R T : digits) (Q : digits * Z -> Prop) :
  length P0 = a -> digits_ok P0 -> digits_ok R -> digits_ok T -> (n <= length R)%nat -> (n <= length T)%nat ->
  (forall V carry, length V = n -> digits_ok V -> 0 <= carry <= 1 -> val V + carry * bpow n = val (take n R) + val (take n T) -> Q (P0 ++ V ++ drop n R, carry)) ->
  wp (write_loop n a (fun zi Zd carry => z ← rd Zd zi; t ← rd T (zi - a); mret (digit_add3 z t carry)) (P0 ++ R) 0) Q.
Proof.
  intros Ha HP0 HR HT HnR HnT HQ.
  apply (wp_write_loop (fun k P carry => 0 <= carry <= 1 /\ exists V, P = P0 ++ V /\ length V = (k - a)%nat /\ digits_ok V /\
    val V + carry * bpow (k - a) = val (take (k - a) R) + val (take (k - a) T))); [done | done | done | | |].
  - split; [lia|]. exists []. rewrite app_nil_r, Nat.sub_diag, !take_0. split_and!; (done || constructor).
  - intros k P carry Hk HlP HP (Hc & V & -> & HlV & HV & E). apply wp_bind. unfold rd at 1.
    rewrite lookup_app_r, HlP, Nat.sub_diag, lookup_drop, Nat.add_0_r by lia. destruct (lookup_lt_is_Some_2 R (k - a)) as [z Hz]; [lia|].
    rewrite Hz. apply wp_Ok. apply wp_bind, wp_rd; [lia | done|]. intros t Ht Hdt.
    destruct (digit_add3_step z t carry (digits_ok_lookup _ _ _ HR Hz) Hdt Hc) as (u & c' & -> & Eu & Hu & Hc'). apply wp_ret. split; [done|]. split; [done|].
    exists (V ++ [u]). replace (S k - a)%nat with (S (k - a)) by lia. rewrite app_assoc, length_app, val_snoc, HlV, bpow_S, (val_take_S _ _ _ Hz), (val_take_S _ _ _ Ht).
    scale_by_weight Eu (k - a)%nat. split_and!; [done | cbn; lia | by apply digits_ok_snoc | lia].
  - intros P carry HlP HP (Hc & V & -> & HlV & HV & E). replace (a + n - a)%nat with n in * by lia. rewrite <- app_assoc. by apply HQ.
Qed.

Lemma wp_check_zero (T : digits) n a m (Q : unit -> Prop) :
  digits_ok T -> (a + n <= length T)%nat -> (forall j, (a <= j < a + n)%nat -> T !! j = Some 0) -> Q tt ->
  wp (for_loop n a (fun j _ => t ← rd T j; dcheck (t =? 0)) m) (fun r => r = tt /\ Q tt).
Proof.
  intros HT Hn Hz HQ. eapply wp_mono; [apply (wp_for_loop (fun _ (r : unit) => r = tt)); [by destruct m|]|].
  - intros k u Hk ->. apply wp_bind. unfold rd. rewrite Hz by lia. apply wp_Ok. by apply wp_dcheck.
  - by intros [] _.
Qed.

(** ** [NormalizeAndRecombine] *)

Section normalize.
Context (n K s m : nat) (HK : (0 < K)%nat) (Hs : (0 < s)%nat) (cf : nat -> Z) (shift : Z) (len : nat).
Context (Hcf : forall k, (k < n)%nat -> 0 <= cf k /\ 2 * cf k <= bpow K).
Context (Hshift : 0 <= shift) (Hinv : eqm (Fn K) (2 ^ Z.of_nat m * 2 ^ shift) 1).
Context (Htotal : eval n cf (bpow s) < bpow len).

Lemma partial_bound k : (k < n)%nat -> eval (S k) cf (bpow s) < bpow (k * s + K).
Proof.
  induction k as [|k IH]; intros Hk; unfold eval in *; cbn [sum] in *.
  - destruct (Hcf 0%nat Hk). pose proof (bpow_pos K). cbn. lia.
  - destruct (Hcf (S k) Hk) as [Hc0 Hc2]. specialize (IH ltac:(lia)). rewrite <- !bpow_mul in *. rewrite !bpow_add in *. cbn [Nat.mul]. rewrite bpow_add.
    pose proof (bpow_pos (k * s)) as Hp. pose proof (bpow_pos K). assert (2 <= bpow s) as H2.
    { pose proof digit_base_ge. pose proof (bpow_le 1 s ltac:(lia)) as Hb. rewrite bpow_1 in Hb. lia. }
    set (u := bpow (k * s)) in *. set (t := bpow s) in *. set (b := bpow K) in *. set (S0 := sum k _) in *.
    assert (2 * u <= t * u) by nia. assert (2 * (cf (S k) * (t * u)) <= b * (t * u)) by nia. assert (u * b * 2 <= t * u * b) by nia. lia.
Qed.

Lemma partial_le k : (k <= n)%nat -> eval k cf (bpow s) <= eval n cf (bpow s).
Proof.
  intros Hk. apply sum_prefix; [done|]. intros i Hi. destruct (Hcf i Hi). pose proof (bpow_pos (i * s)) as Hp. rewrite bpow_mul in Hp. nia.
Qed.

(** One coefficient is added. *)
Lemma recombine_part_spec i Zd c :
  (i < n)%nat -> container_ok n K c -> holds K c i (2 ^ Z.of_nat m * cf i) -> length Zd = len -> digits_ok Zd -> val Zd = eval i cf (bpow s) ->
  wp (recombine_part shift s i (Zd, c)) (fun '(Zd', c') => length Zd' = len /\ digits_ok Zd' /\ val Zd' = eval (S i) cf (bpow s) /\
    container_ok n K c' /\ changed (fun _ => False) c c').
Proof.
  intros Hi Hc Hh Hlen HZ Hval. unfold recombine_part. apply wp_bind, (wp_get_part K c i (2 ^ Z.of_nat m * cf i)); [done|]. intros p Hp [Hcp Ep].
  rewrite (container_K _ _ _ Hc). destruct (get_temp_ok n K c Hc) as [Hlt Htok].
  apply wp_bind. eapply wp_mono; [apply (ShiftModFn_spec K (get_temp c) p shift None); done|]. intros t [Hct Et].
  destruct (Hcf i Hi) as [Hc0 Hc2]. pose proof Hct as (Hlt' & Ht & Hvt). pose proof (val_bounds t Ht) as Hbt. pose proof (bpow_pos K) as HbK.
  assert (val t = cf i) as Ev.
  { apply (eqm_unique (Fn K) _ _ 0); [|unfold Fn; lia | unfold Fn; lia]. rewrite Et, Ep.
    transitivity (cf i * (2 ^ Z.of_nat m * 2 ^ shift)); [apply eqm_eq; lia|]. rewrite Hinv. apply eqm_eq. lia. }
  assert (container_ok n K (set_temp c t)) as Hc1 by (apply set_temp_ok; [done | by apply canon_part_ok]).
  unfold length_. cbn [K_ set_temp temp_]. rewrite (container_K _ _ _ Hc). set (T := t ++ drop (length t) (temp_ c)).
  assert (digits_ok T) as HT by apply (container_temp_ok _ _ _ Hc1). assert (length T = 2 * (K + 1))%nat as HlT by apply (container_temp _ _ _ Hc1).
  assert (forall j, (j <= S K)%nat -> take j T = take j t) as Etake by (intros j Hj; unfold T; by rewrite take_app_le by lia).
  rewrite Hlen. set (z := (i * s)%nat). set (count := ((K + 1) `min` (len - z))%nat).
  assert (eval (S i) cf (bpow s) = val Zd + cf i * bpow z) as Enext by (unfold eval in *; cbn [sum]; rewrite Hval; unfold z; by rewrite bpow_mul).
  pose proof (partial_bound i Hi) as Hpb. pose proof (partial_le (S i) ltac:(lia)) as Hpl. fold z in Hpb. pose proof (val_bounds Zd HZ) as HbZ.
  assert (cf i < bpow (len - z)) as Hfit.
  { destruct (decide (z <= len)%nat) as [Hz | Hz].
    - replace (bpow len) with (bpow z * bpow (len - z)) in Htotal by (rewrite <- bpow_add; f_equal; lia). pose proof (bpow_pos z). nia.
    - pose proof (bpow_le len z ltac:(lia)). pose proof (bpow_pos (len - z)). pose proof (bpow_pos z). assert (cf i = 0) by nia. lia. }
  assert (val (take count T) = cf i) as Etk.
  { rewrite Etake by lia. rewrite fft_val_take_small; [done | done|]. rewrite Ev. unfold count. destruct (Nat.min_spec (K + 1) (len - z)) as [[_ ->] | [_ ->]]; [|done].
    rewrite Nat.add_1_r, bpow_S. pose proof digit_base_ge. nia. }
  apply wp_bind. rewrite <- (take_drop z Zd).
  apply (wp_mono _ (fun '(Z', carry) => carry = 0 /\ length Z' = len /\ digits_ok Z' /\ val Z' = val Zd + cf i * bpow z)).
  - destruct (decide (z <= len)%nat) as [Hz | Hz].
    + apply (wp_add_range count z); [rewrite length_take; lia | by apply digits_ok_take | by apply digits_ok_drop | done | rewrite length_drop; lia | lia|].
      intros V carry HlV HV Hcarry E. rewrite Etk in E.
      assert (val Zd = val (take z Zd) + bpow z * (val (take count (drop z Zd)) + bpow count * val (drop count (drop z Zd)))) as EZ.
      { rewrite (val_split Zd z) at 1. rewrite (val_split (drop z Zd) count) at 1. rewrite !length_take, length_drop. rewrite !Nat.min_l by lia. done. }
      assert (val (take z Zd ++ V ++ drop count (drop z Zd)) = val Zd + cf i * bpow z - carry * bpow (z + count)) as Eout.
      { rewrite !val_app, HlV, length_take, Nat.min_l by lia. rewrite bpow_add. scale_by_weight E z. lia. }
      assert (digits_ok (take z Zd ++ V ++ drop count (drop z Zd))) as Hok by auto using digits_ok_app, digits_ok_take, digits_ok_drop.
      assert (carry = 0) as ->.
      { pose proof (val_bounds _ (digits_ok_drop count _ (digits_ok_drop z Zd HZ))) as Hbd.
        assert (val Zd + cf i * bpow z < bpow (z + count)) as Hlt1.
        { unfold count. destruct (Nat.min_spec (K + 1) (len - z)) as [[_ ->] | [_ ->]].
          - pose proof (bpow_le (z + K) (z + (K + 1)) ltac:(lia)). lia.
          - replace (z + (len - z))%nat with len by lia. lia. }
        pose proof (val_bounds _ Hok). pose proof (bpow_pos (z + count)). nia. }
      split_and!; [done | rewrite !length_app, length_take, !length_drop; lia | done | lia].
    + replace count with 0%nat by lia. cbn [write_loop]. apply wp_ret. rewrite take_drop. split_and!; try done.
      assert (cf i < 1) by (replace (len - z)%nat with 0%nat in Hfit by lia; rewrite bpow_0 in Hfit; lia). assert (cf i = 0) as -> by lia. lia.
  - intros [Z' carry] (-> & HlZ & HZok & HvZ). apply wp_bind.
    eapply wp_mono; [apply (wp_check_zero T _ _ tt (fun _ => True)); [done | lia | | done]|].
    + intros j Hj. destruct (lookup_lt_is_Some_2 t j) as [d Hd]; [lia|]. unfold T. rewrite lookup_app_l by lia. rewrite Hd. f_equal.
      apply (high_digit_zero t (len - z) j); [done | by rewrite Ev | lia | done].
    + intros _ _. apply wp_ret. rewrite HvZ, Enext. split_and!; try done.
Qed.

Lemma NormalizeAndRecombine_spec omega Zd c :
  container_ok n K c -> (forall k, (k < n)%nat -> holds K c k (2 ^ Z.of_nat m * cf k)) -> length Zd = len ->
  shift = Z.of_nat n * omega - Z.of_nat m ->
  wp (NormalizeAndRecombine omega (Z.of_nat m) Zd s c) (fun Z' => length Z' = len /\ digits_ok Z' /\ val Z' = eval n cf (bpow s)).
Proof.
  intros Hc Hh Hlen Es. unfold NormalizeAndRecombine. rewrite (container_n _ _ _ Hc), <- Es. apply wp_bind.
  destruct (Clear_spec Zd) as (Hlc & Hokc & Evc). eapply wp_mono.
  - apply (wp_for_loop (fun i '(Zd', c') => length Zd' = len /\ digits_ok Zd' /\ val Zd' = eval i cf (bpow s) /\ container_ok n K c' /\ changed (fun _ => False) c c') n 0).
    + split_and!; try done; lia.
    + intros i [Zd' c'] Hi (Hl' & Hok' & Ev' & Hc' & Hch'). eapply wp_mono; [apply recombine_part_spec; try done; [lia|]|].
      * eapply holds_changed; [exact Hch' | tauto | apply Hh; lia].
      * intros [Zd2 c2] (? & ? & ? & ? & ?). split_and!; try done. by eapply changed_trans.
  - intros [Zd' c'] (Hl' & Hok' & Ev' & _ & _). apply wp_ret. by split_and!.
Qed.
End normalize.
End fft_recombine.
