(* ===== verification/FftCounterWeight.v ===== *)
(** The recombination in the inner layer: [CounterWeightAndRecombine] of
    [src/bigint/mul-fft.cc], where the coefficients may be negative and the result is a
    number in two's complement. *)

From Stdlib Require Import ZArith Lia.
From stdpp Require Import base tactics numbers list option.
From S2P Require Import Prelude Digit Digits VectorArithmetic Processor MulSchoolbook MulKaratsuba MulFft FftMod FftAlgebra FftTransform FftStart FftRecombine.

#[local] Open Scope Z_scope.

Section fft_counter_weight.
Context `{Config, Platform}.
Context {alloc : Allocator}.
Implicit Types c : FFTContainer.

(** ** The sign of a coefficient *)

Lemma any_positive_spec n i x :
  digits_ok x -> (i + n = length x)%nat -> wp (any_positive n i x) (fun b => b = true <-> 0 < val (drop i x)).
Proof.
  intros Hx. revert i. induction n as [|n IH]; intros i Hi; cbn [any_positive].
  { apply wp_ret. rewrite drop_ge by lia. cbn. lia. }
  apply wp_bind, wp_rd; [lia | done|]. intros d Hd Hdd. rewrite (drop_S _ _ _ Hd). cbn [val].
  pose proof (val_bounds _ (digits_ok_drop (S i) x Hx)) as Hb. pose proof digit_base_ge. unfold is_digit in Hdd.
  destruct (Z.ltb_spec 0 d); [apply wp_ret; split; [nia | done]|]. eapply wp_mono; [apply IH; lia|]. intros b ->. nia.
Qed.

(** The coefficient is negative when the number is at least [threshold] times [B^(2s)]. *)
Lemma ShouldBeNegative_spec x threshold s :
  digits_ok x -> (2 * s < length x)%nat -> threshold <= digit_base ->
  wp (ShouldBeNegative x threshold s) (fun b => b = true <-> threshold * bpow (2 * s) <= val x).
Proof.
  intros Hx Hs Ht. unfold ShouldBeNegative. apply wp_bind, wp_rd; [lia | done|]. intros d Hd Hdd.
  assert (val x = val (take (2 * s) x) + bpow (2 * s) * (d + digit_base * val (drop (S (2 * s)) x))) as Ev.
  { rewrite (val_split x (2 * s)) at 1. rewrite length_take, Nat.min_l by lia. by rewrite (drop_S _ _ _ Hd). }
  pose proof (val_bounds _ (digits_ok_take (2 * s) x Hx)) as Hb. rewrite length_take, Nat.min_l in Hb by lia.
  pose proof (val_bounds _ (digits_ok_drop (S (2 * s)) x Hx)) as Hbh. unfold is_digit in Hdd. rewrite Ev. set (u := bpow (2 * s)) in *.
  destruct (Z.leb_spec threshold d) as [Hle | Hgt].
  { apply wp_ret. split; [|done]. intros _. assert (threshold <= d + digit_base * val (drop (S (2 * s)) x)) by nia. nia. }
  rewrite Nat.add_1_r. eapply wp_mono; [apply any_positive_spec; [done | lia]|]. intros b ->. set (h := val (drop _ x)) in *. split; intros Hh.
  - assert (threshold <= d + digit_base * h) by nia. nia.
  - destruct (Z.lt_ge_cases 0 h); [done|]. assert (h = 0) as E0 by lia. rewrite E0 in Hh. exfalso. nia.
Qed.

Section one_part.
Context (K len z : nat) (HK : (0 < K)%nat) (Hz : (z + (K + 1) <= len)%nat).

(** [Z += X]. *)
Lemma add_part_spec Zd t :
  length Zd = len -> digits_ok Zd -> length t = S K -> digits_ok t ->
  wp (add_part Zd t z K) (fun Z' => length Z' = len /\ digits_ok Z' /\ exists j, val Z' = val Zd + val t * bpow z + j * bpow len).
Proof.
  intros Hl HZ Hlt Ht. unfold add_part. rewrite Hl. replace ((K + 1) `min` (len - z))%nat with (K + 1)%nat by lia. apply wp_bind.
  rewrite <- (take_drop z Zd). apply wp_add_range; [rewrite length_take; lia | by apply digits_ok_take | by apply digits_ok_drop | done | rewrite length_drop; lia | lia|].
  intros V carry HlV HV Hc E. rewrite Nat.sub_diag. cbn [for_loop]. apply wp_bind, wp_ret. rewrite app_assoc. apply wp_bind.
  apply (wp_ripple_tail 1 digit_add2); [apply digit_add2_step | rewrite length_app, length_take; lia | rewrite !length_drop; lia
    | apply digits_ok_app; [by apply digits_ok_take | done] | by apply digits_ok_drop, digits_ok_drop | done |].
  intros W i c' HlW HW Hc' EW. apply wp_ret. rewrite !length_app, length_take. split_and!; [lia | auto using digits_ok_app, digits_ok_take|].
  exists (- c'). rewrite !val_app, !length_app, length_take, Nat.min_l, HlV by lia. rewrite (take_ge t) in E by lia.
  rewrite (val_split (drop z Zd) (K + 1)) at 1. rewrite !length_take, length_drop, !Nat.min_l by lia.
  replace (len - z - (K + 1))%nat with (len - (z + (K + 1)))%nat in EW by lia.
  assert (bpow len = bpow z * (bpow (K + 1) * bpow (len - (z + (K + 1))))) as -> by (rewrite <- !bpow_add; f_equal; lia). rewrite (bpow_add z). scale_by_weight E z. scale_by_weight EW (K + 1)%nat. scale_by_weight EW z. lia.
Qed.

(** The digits of [F_n]. *)
Definition Fn_digits : digits := 1 :: replicate (K - 1) 0 ++ [1].

Lemma Fn_digits_spec : length Fn_digits = S K /\ digits_ok Fn_digits /\ val Fn_digits = Fn K.
Proof.
  unfold Fn_digits. assert (is_digit 1) by (unfold is_digit; pose proof digit_base_ge; lia). split_and!.
  - cbn. rewrite length_app, length_replicate. cbn. lia.
  - constructor; [done|]. apply digits_ok_snoc; [apply digits_ok_zeros | done].
  - cbn [val]. rewrite val_snoc, val_replicate_0, length_replicate. unfold Fn. replace K with (S (K - 1)) at 2 by lia. rewrite bpow_S. lia.
Qed.

(** The subtraction after [i] digits: [D] is the difference of [F_n] and [t]. *)
Definition complement_state (R t : digits) (i : nat) (V : digits) (borrow_z borrow_Fn : Z) : Prop :=
  0 <= borrow_z <= 1 /\ 0 <= borrow_Fn <= 1 /\ exists D, 0 <= D < bpow i /\
    D - borrow_Fn * bpow i = val (take i Fn_digits) - val (take i t) /\ val V - borrow_z * bpow i = val (take i R) - D.

Lemma complement_step R t i V borrow_z borrow_Fn f z' ti d b d' b' :
  complement_state R t i V borrow_z borrow_Fn -> length V = i -> Fn_digits !! i = Some f -> R !! i = Some z' -> t !! i = Some ti ->
  is_digit d -> 0 <= b <= 1 -> d - digit_base * b = f - ti - borrow_Fn -> is_digit d' -> 0 <= b' <= 1 -> d' - digit_base * b' = z' - d - borrow_z ->
  complement_state R t (S i) (V ++ [d']) b' b.
Proof.
  intros (Hbz & Hbf & D & HD & E1 & E2) HlV Hf Hz' Hti Hd Hb Ed Hd' Hb' Ed'. split_and!; try lia. exists (D + bpow i * d).
  rewrite (val_take_S _ _ _ Hf), (val_take_S _ _ _ Hz'), (val_take_S _ _ _ Hti), val_snoc, HlV, bpow_S.
  scale_by_weight Ed i. scale_by_weight Ed' i. pose proof (bpow_pos i). unfold is_digit in *. split_and!; try lia; nia.
Qed.

Lemma Fn_digit_inner i : (0 < i < K)%nat -> Fn_digits !! i = Some 0.
Proof.
  intros Hi. unfold Fn_digits. destruct i as [|i]; [lia|]. change ((replicate (K - 1) 0 ++ [1]) !! i = Some 0). rewrite lookup_app_l by (rewrite length_replicate; lia). apply lookup_replicate_2. lia.
Qed.

Lemma Fn_digit_top : Fn_digits !! K = Some 1.
Proof.
  transitivity (Fn_digits !! S (K - 1)); [f_equal; lia|]. unfold Fn_digits. change ((replicate (K - 1) 0 ++ [1]) !! (K - 1)%nat = Some 1).
  rewrite lookup_app_r by (rewrite length_replicate; lia). by rewrite length_replicate, Nat.sub_diag.
Qed.

(** [Z -= F_n - X]. *)
Lemma subtract_complement_spec Zd t :
  length Zd = len -> digits_ok Zd -> canon K t ->
  wp (subtract_complement Zd t z K) (fun Z' => length Z' = len /\ digits_ok Z' /\ exists j, val Z' = val Zd + (val t - Fn K) * bpow z + j * bpow len).
Proof.
  intros Hl HZ (Hlt & Ht & Hvt). destruct Fn_digits_spec as (HlF & HF & EF). unfold subtract_complement. rewrite Hl.
  set (P0 := take z Zd). set (R := drop z Zd). assert (Zd = P0 ++ R) as EZ by (symmetry; apply take_drop).
  assert (length P0 = z) as HlP0 by (unfold P0; rewrite length_take; lia). assert (length R = len - z)%nat as HlR by (unfold R; rewrite length_drop; lia).
  assert (digits_ok P0) as HP0 by (by apply digits_ok_take). assert (digits_ok R) as HR by (by apply digits_ok_drop).
  replace (K `min` (len - z))%nat with K by lia. replace ((K + 1) `min` (len - z))%nat with (K + 1)%nat by lia. replace (1 `max` K)%nat with K by lia.
  apply wp_bind, wp_rd; [lia | done|]. intros t0 Ht0 Hdt0. destruct (digit_sub_step 1 t0) as (d & bf & -> & Ed & Hd & Hbf); [unfold is_digit; pose proof digit_base_ge; lia | done|].
  rewrite EZ. destruct (lookup_lt_is_Some_2 R 0) as [z0 Hz0]; [lia|]. apply wp_bind. unfold rd at 1. rewrite lookup_app_r, HlP0, Nat.sub_diag, Hz0 by lia. apply wp_Ok.
  destruct (digit_sub_step z0 d (digits_ok_lookup _ _ _ HR Hz0) Hd) as (d' & bz & -> & Ed' & Hd' & Hbz).
  apply wp_bind, wp_wr_snoc; [done | lia|].
  assert (complement_state R t 1 [d'] bz bf) as Hst1.
  { apply (complement_step R t 0 [] 0 0 1 z0 t0 d); try done; try lia. split_and!; try lia. exists 0. rewrite !take_0, bpow_0. cbn. lia. }
  set (inv (k : nat) (P : digits) (c : Z * Z) := exists V, P = P0 ++ V /\ length V = (k - z)%nat /\ digits_ok V /\ complement_state R t (k - z) V (fst c) (snd c)).
  assert (forall f k P bz bf, (z < k < len)%nat -> length P = k -> inv k P (bz, bf) -> Fn_digits !! (k - z)%nat = Some f -> is_digit f ->
    wp (ti ← rd t (k - z);
        let '(d, borrow_Fn) := digit_sub2 f ti bf in
        z ← rd (P ++ drop (k - z) R) k;
        let '(z, borrow_z) := digit_sub2 z d bz in
        mret (z, (borrow_z, borrow_Fn))) (fun '(d, c) => is_digit d /\ inv (S k) (P ++ [d]) c)) as Hstep.
  { intros f k P bz1 bf1 Hk HlP (V & -> & HlV & HV & Hst) Hf Hdf. cbn [fst snd] in Hst. pose proof Hst as (Hbz1 & Hbf1 & _).
    destruct (decide (k - z < S K)%nat) as [Hlt' |]; [|apply lookup_lt_Some in Hf; lia].
    apply wp_bind, wp_rd; [lia | done|]. intros ti Hti Hdti. destruct (digit_sub2_step f ti bf1 Hdf Hdti Hbf1) as (e & b & -> & Ee & He & Hb).
    destruct (lookup_lt_is_Some_2 R (k - z)) as [zk Hzk]; [lia|]. apply wp_bind. unfold rd.
    rewrite lookup_app_r, HlP, Nat.sub_diag, lookup_drop, Nat.add_0_r, Hzk by lia. apply wp_Ok.
    destruct (digit_sub2_step zk e bz1 (digits_ok_lookup _ _ _ HR Hzk) He Hbz1) as (e' & b' & -> & Ee' & He' & Hb'). apply wp_ret. split; [done|].
    exists (V ++ [e']). replace (S k - z)%nat with (S (k - z)) by lia. rewrite app_assoc, length_app. split_and!; [done | cbn; lia | by apply digits_ok_snoc|].
    apply (complement_step R t (k - z) V bz1 bf1 f zk ti e b e' b'); (done || lia). }
  assert (length (P0 ++ [d']) = z + 1)%nat as HlP1 by (rewrite length_app; cbn; lia).
  apply wp_bind, (wp_write_loop inv); [done | rewrite length_drop; lia | by apply digits_ok_snoc | | |].
  { exists [d']. replace (z + 1 - z)%nat with 1%nat by lia. split_and!; (done || by constructor). }
  { intros k P [bz1 bf1] Hk HlP HP HJ. rewrite drop_drop. replace (1 + (k - (z + 1)))%nat with (k - z)%nat by lia.
    apply Hstep; [lia | done | done | apply Fn_digit_inner; lia | apply is_digit_0]. }
  intros P2 [bz2 bf2] HlP2 HP2 HJ2. apply wp_bind, wp_dcheck; [by rewrite bool_decide_true|].
  replace (z + 1 + (K - 1))%nat with (z + K)%nat in * by lia. replace (K + 1 - K)%nat with 1%nat by lia. rewrite drop_drop. replace (1 + (K - 1))%nat with K by lia.
  apply wp_bind, (wp_write_loop inv); [lia | rewrite length_drop; lia | done | done | |].
  { intros k P [bz1 bf1] Hk HlP HP HJ. rewrite drop_drop. replace (K + (k - (z + K)))%nat with (k - z)%nat by lia.
    apply Hstep; [lia | done | done | replace (k - z)%nat with K by lia; apply Fn_digit_top | unfold is_digit; pose proof digit_base_ge; lia]. }
  intros P3 [bz3 bf3] HlP3 HP3 (V & -> & HlV & HV & Hbz3 & Hbf3 & D & HD & E1 & E2). cbn [fst snd] in *.
  replace (z + K + 1 - z)%nat with (S K) in * by lia. rewrite (take_ge Fn_digits), (take_ge t), EF in E1 by lia. pose proof (bpow_pos (S K)).
  assert (bf3 = 0) as -> by (unfold Fn in E1; nia). apply wp_bind, wp_dcheck; [done|].
  replace (K `max` (K + 1))%nat with (K + 1)%nat by lia. rewrite drop_drop, Nat.add_1_r. replace (len - z - S K)%nat with (len - (z + S K))%nat by lia. apply wp_bind.
  apply (wp_ripple_tail (-1) digit_sub); [apply digit_sub_step | lia | rewrite length_drop; lia | done | by apply digits_ok_drop | done |].
  intros W i c' HlW HW Hc' EW. apply wp_ret. rewrite !length_app. split_and!; [lia | by apply digits_ok_app |]. exists c'.
  rewrite !val_app, length_app, HlP0, HlV. rewrite (val_split R (S K)), length_take, Nat.min_l by lia.
  assert (bpow len = bpow z * (bpow (S K) * bpow (len - (z + S K)))) as -> by (rewrite <- !bpow_add; f_equal; lia). rewrite (bpow_add z).
  scale_by_weight E2 z. scale_by_weight EW (S K). scale_by_weight EW z. assert (D = Fn K - val t) as -> by lia. lia.
Qed.
End one_part.

(** ** [CounterWeightAndRecombine] *)

Section counter_weight.
Context (n K s m len : nat) (theta : Z) (cf : nat -> Z).
Context (HK : (0 < K)%nat) (Hs : (2 * s <= K)%nat) (Hn : Z.of_nat n <= digit_base) (Hlen : ((n - 1) * s + (K + 1) <= len)%nat).
Context (Htheta : 0 <= theta) (Hm : Z.of_nat m <= theta * Z.of_nat n) (Hroot : eqm (Fn K) (2 ^ (theta * Z.of_nat n)) (-1)).
Context (Hroom : 2 * Z.of_nat n * bpow (2 * s) <= bpow K).
Context (Hcf : forall k, (k < n)%nat -> - (Z.of_nat n - 1 - Z.of_nat k) * bpow (2 * s) <= cf k < (Z.of_nat k + 1) * bpow (2 * s)).

Definition counter_shift (k : nat) : Z :=
  let shift := - theta * Z.of_nat k - Z.of_nat m in if shift <? 0 then shift + 2 * Z.of_nat n * theta else shift.

Lemma counter_shift_spec k : (k < n)%nat ->
  0 <= counter_shift k /\ eqm (Fn K) (2 ^ Z.of_nat m * 2 ^ (theta * Z.of_nat k) * 2 ^ counter_shift k) 1.
Proof.
  intros Hk. unfold counter_shift. assert (0 <= theta * Z.of_nat k <= theta * Z.of_nat n) as Htk by nia.
  destruct (Z.ltb_spec (- theta * Z.of_nat k - Z.of_nat m) 0) as [Hneg | Hpos].
  - split; [lia|]. rewrite <- !Z.pow_add_r by lia.
    replace (Z.of_nat m + theta * Z.of_nat k + (- theta * Z.of_nat k - Z.of_nat m + 2 * Z.of_nat n * theta)) with (theta * Z.of_nat n + theta * Z.of_nat n) by lia.
    rewrite Z.pow_add_r, Hroot by lia. done.
  - split; [lia|]. rewrite <- !Z.pow_add_r by lia. replace (Z.of_nat m + theta * Z.of_nat k + (- theta * Z.of_nat k - Z.of_nat m)) with 0 by lia. done.
Qed.

(** One coefficient is added or subtracted. *)
Lemma counter_weight_part_spec k Zd c :
  (k < n)%nat -> container_ok n K c -> holds K c k (2 ^ Z.of_nat m * weighted theta cf k) -> length Zd = len -> digits_ok Zd ->
  wp (counter_weight_part theta (Z.of_nat m) s k (Zd, c)) (fun '(Zd', c') => length Zd' = len /\ digits_ok Zd' /\
    (exists j, val Zd' = val Zd + cf k * bpow (k * s) + j * bpow len) /\ container_ok n K c' /\ changed (fun _ => False) c c').
Proof.
  intros Hk Hc Hh Hl HZ. unfold counter_weight_part. rewrite (container_n _ _ _ Hc), (container_K _ _ _ Hc). cbv zeta. fold (counter_shift k).
  destruct (counter_shift_spec k Hk) as [Hs0 Hs1]. apply wp_bind, wp_dcheck; [by apply Z.leb_le|].
  apply wp_bind, (wp_get_part K c k (2 ^ Z.of_nat m * weighted theta cf k)); [done|]. intros p Hp [Hcp Ep]. destruct (get_temp_ok n K c Hc) as [Hlt Htok].
  apply wp_bind. eapply wp_mono; [apply (ShiftModFn_spec K (get_temp c) p (counter_shift k) None); done|]. intros t [Hct Et].
  pose proof Hct as (Hlt' & Ht & Hvt). pose proof (val_bounds t Ht) as Hbt. pose proof (Hcf k Hk) as [Hlo Hhi]. pose proof (bpow_pos (2 * s)) as Hb2.
  assert (eqm (Fn K) (val t) (cf k)) as Ev.
  { rewrite Et, Ep. unfold weighted. transitivity (cf k * (2 ^ Z.of_nat m * 2 ^ (theta * Z.of_nat k) * 2 ^ counter_shift k)); [apply eqm_eq; lia|].
    rewrite Hs1. apply eqm_eq. lia. }
  assert (container_ok n K (set_temp c t)) as Hc1 by (apply set_temp_ok; [done | by apply canon_part_ok]).
  rewrite (get_set_temp n K) by done. set (u := bpow (2 * s)) in *. set (nz := Z.of_nat n) in *. set (kz := Z.of_nat k) in *. assert (0 <= kz < nz) as Hkz by (unfold kz, nz; lia).
  assert (- (nz * u) < cf k < nz * u) as Hrange by nia.
  apply wp_bind. eapply wp_mono; [apply (ShouldBeNegative_spec t (kz + 1) s); (done || lia)|]. intros negative Hneg. fold u in Hneg. cbn [K_ set_temp]. rewrite (container_K _ _ _ Hc).
  assert (z_ok : (k * s + (K + 1) <= len)%nat) by nia.
  apply wp_bind. apply (wp_mono _ (fun Z' => length Z' = len /\ digits_ok Z' /\ exists j, val Z' = val Zd + cf k * bpow (k * s) + j * bpow len)).
  - destruct (Z.lt_ge_cases (cf k) 0) as [Hc0 | Hc0].
    + assert (val t = cf k + Fn K) as Evt by (apply (eqm_unique (Fn K) _ _ 0); [rewrite Ev; exists (-1); lia | unfold Fn; lia | unfold Fn; nia]).
      assert (negative = true) as -> by (apply Hneg; unfold Fn in Evt; nia).
      eapply wp_mono; [by apply (subtract_complement_spec K len)|]. intros Z' (? & ? & j & Ej). split_and!; try done. exists j. rewrite Ej, Evt. lia.
    + assert (val t = cf k) as Evt by (apply (eqm_unique (Fn K) _ _ 0); [done | unfold Fn; lia | unfold Fn; nia]).
      assert (negative = false) as -> by (destruct negative; [|done]; exfalso; assert ((kz + 1) * u <= val t) by (by apply Hneg); lia).
      eapply wp_mono; [by apply (add_part_spec K len)|]. intros Z' (? & ? & j & Ej). split_and!; try done. exists j. by rewrite Ej, Evt.
  - intros Z' (? & ? & ?). apply wp_ret. split_and!; done.
Qed.

Lemma CounterWeightAndRecombine_spec Zd c :
  container_ok n K c -> (forall k, (k < n)%nat -> holds K c k (2 ^ Z.of_nat m * weighted theta cf k)) -> length Zd = len ->
  wp (CounterWeightAndRecombine theta (Z.of_nat m) Zd s c) (fun Z' => length Z' = len /\ digits_ok Z' /\ exists j, val Z' = eval n cf (bpow s) + j * bpow len).
Proof.
  intros Hc Hh Hl. unfold CounterWeightAndRecombine. rewrite (container_n _ _ _ Hc). apply wp_bind.
  destruct (Clear_spec Zd) as (Hlc & Hokc & Evc). eapply wp_mono.
  - apply (wp_for_loop (fun i '(Zd', c') => length Zd' = len /\ digits_ok Zd' /\ (exists j, val Zd' = eval i cf (bpow s) + j * bpow len) /\ container_ok n K c' /\ changed (fun _ => False) c c') n 0).
    + split_and!; try done; [lia|]. exists 0. rewrite Evc. cbn. lia.
    + intros i [Zd' c'] Hi (Hl' & Hok' & [j Ej] & Hc' & Hch'). eapply wp_mono; [apply counter_weight_part_spec; try done; [lia|]|].
      * eapply holds_changed; [exact Hch' | tauto | apply Hh; lia].
      * intros [Zd2 c2] (? & ? & [j' Ej'] & ? & ?). split_and!; try done; [|by eapply changed_trans].
        exists (j + j'). rewrite Ej', Ej. unfold eval. cbn [sum]. rewrite bpow_mul. lia.
  - intros [Zd' c'] (Hl' & Hok' & [j Ej] & _ & _). apply wp_ret. split_and!; try done. by exists j.
Qed.
End counter_weight.
End fft_counter_weight.
