(* ===== verification/FftInner.v ===== *)
(** The inner layer of the FFT multiplication ([MultiplyFFT_Inner] of
    [src/bigint/mul-fft.cc]): the product of two numbers modulo [F_n] by a negacyclic
    convolution. *)

From Stdlib Require Import ZArith Lia.
From stdpp Require Import base tactics numbers list option.
From S2P Require Import Prelude Digit Digits VectorArithmetic Processor MulSchoolbook MulKaratsuba MulFft FftMod FftAlgebra FftTransform FftPointwise FftStart FftRecombine FftCounterWeight.

#[local] Open Scope Z_scope.

(** A sum of which only the first [k] terms count, and one of which they do not. *)
Lemma sum_first n k f c : (k <= n)%nat -> 0 <= c -> (forall i, (i < n)%nat -> f i <= if bool_decide (i < k)%nat then c else 0) -> sum n f <= Z.of_nat k * c.
Proof.
  intros Hk Hc Hf. replace n with (k + (n - k))%nat by lia. rewrite sum_append.
  assert (sum k f <= Z.of_nat k * c). { apply sum_le. intros i Hi. specialize (Hf i ltac:(lia)). by rewrite bool_decide_true in Hf by lia. }
  assert (sum (n - k) (fun i => f (k + i)%nat) <= Z.of_nat (n - k) * 0).
  { apply sum_le. intros i Hi. specialize (Hf (k + i)%nat ltac:(lia)). by rewrite bool_decide_false in Hf by lia. }
  lia.
Qed.

Lemma sum_last n k f c : (k <= n)%nat -> 0 <= c -> (forall i, (i < n)%nat -> f i <= if bool_decide (k <= i)%nat then c else 0) -> sum n f <= Z.of_nat (n - k) * c.
Proof.
  intros Hk Hc Hf. replace n with (k + (n - k))%nat at 1 by lia. rewrite sum_append.
  assert (sum (n - k) (fun i => f (k + i)%nat) <= Z.of_nat (n - k) * c). { apply sum_le. intros i Hi. specialize (Hf (k + i)%nat ltac:(lia)). by rewrite bool_decide_true in Hf by lia. }
  assert (sum k f <= Z.of_nat k * 0).
  { apply sum_le. intros i Hi. specialize (Hf i ltac:(lia)). by rewrite bool_decide_false in Hf by lia. }
  lia.
Qed.

(** The coefficients of a negacyclic convolution, for sequences below [t] of which the last
    number may be [t]. *)
Lemma negacyclic_bounds n t a b k :
  (2 <= n)%nat -> (k < n)%nat -> 1 <= t ->
  (forall i, (i < n)%nat -> 0 <= a i <= t /\ ((S i < n)%nat -> a i < t)) -> (forall i, (i < n)%nat -> 0 <= b i <= t /\ ((S i < n)%nat -> b i < t)) ->
  - (Z.of_nat n - 1 - Z.of_nat k) * (t * t) <= convolution (-1) n a b k < (Z.of_nat k + 1) * (t * t).
Proof.
  intros Hn Hk Ht Ha Hb. unfold convolution.
  assert (0 <= product_coeff n a b k) as Hp0 by (apply product_coeff_nonneg; intros i Hi; [apply Ha | apply Hb]; done).
  assert (0 <= product_coeff n a b (n + k)) as Hp1 by (apply product_coeff_nonneg; intros i Hi; [apply Ha | apply Hb]; done).
  assert (product_coeff n a b k <= Z.of_nat (S k) * (t * t - 1)).
  { apply (sum_first n (S k)); [lia | nia|]. intros i Hi. destruct (Ha i Hi) as [Hai Hai']. destruct (decide (i < S k)%nat) as [Hlt | Hge].
    - rewrite !bool_decide_true by lia. destruct (Hb (k - i)%nat ltac:(lia)) as [Hbi Hbi'].
      destruct (decide (S i < n)%nat) as [Hl | Hl]; [specialize (Hai' Hl); nia|]. assert (S (k - i) < n)%nat as Hl' by lia. specialize (Hbi' Hl'). nia.
    - rewrite !bool_decide_false by lia. lia. }
  assert (product_coeff n a b (n + k) <= Z.of_nat (n - S k) * (t * t)).
  { apply (sum_last n (S k)); [lia | nia|]. intros i Hi. destruct (Ha i Hi) as [Hai _]. destruct (decide (S k <= i)%nat) as [Hlt | Hge].
    - rewrite !bool_decide_true by lia. destruct (Hb (n + k - i)%nat ltac:(lia)) as [Hbi _]. nia.
    - rewrite !bool_decide_false by lia. lia. }
  nia.
Qed.

(** The value of the convolution. *)
Lemma negacyclic_value n t a b X Y M :
  (forall i, (i < n)%nat -> 0 <= a i) -> (forall i, (i < n)%nat -> 0 <= b i) -> 0 < t -> eval n a t = X -> eval n b t = Y ->
  0 <= X <= M -> 0 <= Y <= M -> t ^ Z.of_nat n = M -> 0 < M ->
  let V := eval n (convolution (-1) n a b) t in - M <= V <= M * M /\ eqm (M + 1) V (X * Y).
Proof.
  intros Ha Hb Ht EX EY HX HY EM HM V. pose proof (eval_convolution (-1) n a b t) as E1. pose proof (eval_convolution 0 n a b t) as E0. fold V in E1.
  rewrite EX, EY, EM in E1, E0. set (hi := sum n _) in *.
  assert (forall c, (forall k, (k < n)%nat -> 0 <= c k) -> 0 <= sum n (fun k => c k * t ^ Z.of_nat k)) as Hnn.
  { intros c Hc. apply sum_nonneg. intros i Hi. specialize (Hc i Hi). pose proof (Z.pow_pos_nonneg t (Z.of_nat i) Ht ltac:(lia)). nia. }
  assert (0 <= hi) as Hhi by (apply (Hnn (fun k => product_coeff n a b (n + k))); intros; by apply product_coeff_nonneg).
  assert (0 <= eval n (convolution 0 n a b) t) as Hlo.
  { apply Hnn. intros k Hk. unfold convolution. pose proof (product_coeff_nonneg n a b k Ha Hb). lia. }
  assert (M * hi <= M * M) by nia. assert (hi <= M) by nia. split; [nia|]. exists (- hi). lia.
Qed.

Section fft_inner.
Context `{Config, Platform}.
Context {alloc : Allocator}.
Implicit Types c : FFTContainer.

(** The chunks of a canonical number of [n * s + 1] digits. *)
Lemma canon_chunks n s X i : canon (n * s) X -> (i < n)%nat -> 0 <= chunk n s X i <= bpow s /\ ((S i < n)%nat -> chunk n s X i < bpow s).
Proof.
  intros (Hl & HX & Hv) Hi. pose proof (chunk_nonneg n s X i HX) as H1. unfold chunk in *. case_bool_decide as E.
  - split; [|lia]. split; [done|]. rewrite (val_split X (i * s)), length_take, Nat.min_l in Hv by nia.
    subst n. cbn [Nat.mul] in Hv. rewrite Nat.add_comm, bpow_add in Hv. pose proof (val_bounds _ (digits_ok_take (i * s) X HX)). pose proof (bpow_pos (i * s)). nia.
  - pose proof (val_bounds _ (digits_ok_slice X (i * s) s HX)) as Hb. rewrite length_slice in Hb.
    assert (bpow (s `min` (length X - i * s)) <= bpow s) by (apply bpow_le; lia). lia.
Qed.

Lemma canon_fits l s X : canon (2 ^ l * s) X -> fits l s X.
Proof.
  intros (Hl & HX & Hv). unfold fits, nparts. split; [lia|]. intros _. destruct (split_top _ _ Hl HX) as (L & t & -> & HlL & HL & Ht).
  exists t. rewrite lookup_app_r, HlL, Nat.sub_diag by lia. split; [done|]. rewrite val_snoc, HlL in Hv. pose proof (val_bounds L HL). pose proof (bpow_pos (2 ^ l * s)).
  unfold is_digit in Ht. nia.
Qed.

(** What [ComputeParameters_Inner] chooses for the multiplication modulo [F_n] with parts of
    [Ko] digits. *)
Definition inner_params (Ko : nat) (P : Parameters) : Prop :=
  exists (l K s : nat) (theta : Z),
    P = mkParameters (Z.of_nat l) (Z.of_nat K) (Z.of_nat (2 ^ l)) (Z.of_nat s) theta /\
    (2 <= l)%nat /\ Ko = (2 ^ l * s)%nat /\ (0 < s)%nat /\ 0 <= theta /\ theta * Z.of_nat (2 ^ l) = kDigitBits * Z.of_nat K /\
    Z.of_nat l + 2 * (kDigitBits * Z.of_nat s) + 1 <= kDigitBits * Z.of_nat K /\ 5 * Z.of_nat K <= 3 * Z.of_nat Ko /\ 200 <= Z.of_nat Ko < 2 ^ 31.

(** The inner layer is entered for shorter and shorter parts, at most [f] times. *)
Definition inner_depth (f Ko : nat) : Prop := Z.of_nat Ko * 3 ^ Z.of_nat f <= 199 * 5 ^ Z.of_nat f.

Lemma inner_depth_step f Ko K : inner_depth (S f) Ko -> 5 * Z.of_nat K <= 3 * Z.of_nat Ko -> inner_depth f K.
Proof.
  unfold inner_depth. rewrite Nat2Z.inj_succ, !Z.pow_succ_r by lia. intros Hd HK.
  pose proof (Z.pow_pos_nonneg 3 (Z.of_nat f) ltac:(lia) ltac:(lia)). pose proof (Z.pow_pos_nonneg 5 (Z.of_nat f) ltac:(lia) ltac:(lia)). nia.
Qed.

Lemma pow_of_nat l : Z.of_nat (2 ^ l) = 2 ^ Z.of_nat l.
Proof. by rewrite Nat2Z.inj_pow. Qed.

(** [bpow] of the part length and the bits of a chunk product. *)
Lemma room_for_products l K s :
  Z.of_nat l + 2 * (kDigitBits * Z.of_nat s) + 1 <= kDigitBits * Z.of_nat K -> 2 * Z.of_nat (2 ^ l) * bpow (2 * s) <= bpow K.
Proof.
  intros Hle. rewrite pow_of_nat, !bpow_bits, <- Z.pow_succ_r by lia. pose proof kDigitBits_cases.
  rewrite <- Z.pow_add_r by nia. apply Z.pow_le_mono_r; nia.
Qed.

Lemma bpow_minus_one K : eqm (Fn K) (2 ^ (kDigitBits * Z.of_nat K)) (-1).
Proof. rewrite <- bpow_bits. exists 1. unfold Fn. lia. Qed.

(** The pointwise multiplication, however the products of two parts are computed. *)
Section pointwise.
Context (Multiply : digits -> digits -> digits -> PM digits) (inner : Parameters -> digits -> digits -> digits -> PM digits) (L f : nat).
Context (Hmul : mul_ok L Multiply).
Context (Hparams : forall Ko, 200 <= Z.of_nat Ko < 2 ^ 31 -> Z.land (Z.of_nat Ko) 3 = 0 -> wp (ComputeParameters_Inner (Z.of_nat Ko)) (inner_params Ko)).
Context (Hinner : forall Ko P, inner_params Ko P -> (S Ko <= L)%nat -> inner_depth f Ko -> mul_mod_ok Ko (inner P)).

Lemma PointwiseMultiply_spec n K a b other c p :
  (0 < K)%nat -> Z.of_nat K < 2 ^ 31 -> (S K <= L)%nat -> inner_depth f K -> Nat.even n = true -> steady p -> container_ok n K c ->
  (forall k, (k < n)%nat -> holds K c k (a k)) -> operand_ok n K a b other -> match other with Some bs => length bs = n | None => True end ->
  wpP (PointwiseMultiply inner Multiply other c) p (fun c' p' => status_le p p' /\ container_ok n K c' /\
    (status_ p' = kOk -> forall k, (k < n)%nat -> holds K c' k (pairs (products a b) k))).
Proof.
  intros HK HK31 HL Hd Hev Hst Hc Ha Hother Hlen. unfold PointwiseMultiply.
  assert (n_ c = length (default (part_ c) other)) as Elen.
  { rewrite (container_n _ _ _ Hc). destruct other; cbn; [done | symmetry; apply (container_length _ _ _ Hc)]. }
  apply wpP_bind, wpP_lift, wp_dcheck; [by rewrite bool_decide_true|]. unfold DoPointwiseMultiplication, length_.
  rewrite (container_n _ _ _ Hc), (container_K _ _ _ Hc), Nat.sub_0_r.
  assert (forall mul, mul_mod_ok K mul -> wpP (pointwise_loop mul n 0 other c) p (fun c' p' => status_le p p' /\ container_ok n K c' /\
    (status_ p' = kOk -> forall k, (k < n)%nat -> holds K c' k (pairs (products a b) k)))) as Hloop.
  { intros mul Hm. eapply wpP_mono; [apply (pointwise_loop_spec n K HK a b); try done|].
    intros c' p' (? & ? & Hm'). split_and!; try done. intros Hok. by apply (multiplied_end n K HK a b c'), Hm'. }
  destruct (_ && _) eqn:Efft; [|apply Hloop; by apply (mul_ok_mod L)].
  apply andb_true_iff in Efft as [Hge%Z.leb_le H3%Z.eqb_eq]. unfold kFftInnerThreshold in Hge.
  assert (200 <= Z.of_nat K).
  { destruct (decide (Z.of_nat K = 199)) as [E | E]; [by rewrite E in H3 | lia]. }
  apply wpP_bind, wpP_lift. eapply wp_mono; [apply Hparams; (done || lia)|]. intros P HP. apply Hloop. by apply Hinner.
Qed.
End pointwise.

(** ** The inner multiplication *)

Section inner.
Context (Multiply : digits -> digits -> digits -> PM digits) (L : nat) (Hmul : mul_ok L Multiply).
Context (Hparams : forall Ko, 200 <= Z.of_nat Ko < 2 ^ 31 -> Z.land (Z.of_nat Ko) 3 = 0 -> wp (ComputeParameters_Inner (Z.of_nat Ko)) (inner_params Ko)).

Lemma MultiplyFFT_Inner_spec f Ko P :
  inner_params Ko P -> (S Ko <= L)%nat -> inner_depth f Ko -> mul_mod_ok Ko (MultiplyFFT_Inner f Multiply P).
Proof.
  revert Ko P. induction f as [|f IH]; intros Ko P (l & K & s & theta & -> & Hl & EKo & Hs & Htheta & Eroot & Hbits & H53 & HKo) HL Hd.
  { unfold inner_depth in Hd. cbn in Hd. lia. }
  intros Zd A B p Hst HA HB HlZ HZ. cbn [MultiplyFFT_Inner param_m param_K param_n param_s param_r]. rewrite !Nat2Z.id.
  set (n := (2 ^ l)%nat) in *. pose proof kDigitBits_cases as Hkb. assert (0 < K)%nat as HK by nia. assert (0 < s < K)%nat as HsK by nia.
  assert (root (Fn K) l (2 * theta)) as Hroot.
  { split; [lia|]. destruct l as [|l']; [done|]. unfold n in Eroot. rewrite double_pow in Eroot. rewrite <- (bpow_minus_one K), <- Eroot. apply eqm_eq. f_equal. lia. }
  assert (eqm (Fn K) (2 ^ (theta * Z.of_nat n)) (-1)) as Hneg by (rewrite Eroot; apply bpow_minus_one).
  assert (2 <= n)%nat as Hn2 by (unfold n; destruct l as [|l']; [lia|]; rewrite double_pow; pose proof (pow_pos_nat l'); lia).
  rewrite EKo in HA, HB. pose proof HA as (HlA & HokA & HvA). pose proof HB as (HlB & HokB & HvB).
  apply wpP_bind, wpP_lift. eapply wp_mono; [apply (Start_Default_spec l K s HK HsK A HokA theta (2 * theta)); try done; [lia | by apply canon_fits | apply FFTContainer_new_ok | lia]|].
  intros ca [Hca Hta]. fold n in Hca, Hta.
  apply wpP_bind, wpP_lift. eapply wp_mono; [apply (Start_Default_spec l K s HK HsK B HokB theta (2 * theta)); try done; [lia | by apply canon_fits | apply FFTContainer_new_ok | lia]|].
  intros cb [Hcb Htb]. fold n in Hcb, Htb. unfold nparts in Hca, Hta, Hcb, Htb. fold n in Hca, Hta, Hcb, Htb.
  set (ta := transform l (2 * theta) (weighted theta (chunk n s A))) in *. set (tb := transform l (2 * theta) (weighted theta (chunk n s B))) in *.
  apply wpP_bind. eapply wpP_mono; [apply (PointwiseMultiply_spec Multiply (MultiplyFFT_Inner f Multiply) L f Hmul Hparams IH n K ta tb (Some (part_ cb)) ca); try done|].
  - lia.
  - lia.
  - by apply (inner_depth_step f Ko).
  - unfold n. destruct l; [lia | apply even_pow].
  - apply (container_length _ _ _ Hcb).
  - intros c1 p1 (Hle & Hc1 & Hpairs). apply wpP_bind, wpP_should_terminate. case_bool_decide as Hint.
    { apply wpP_ret. split_and!; try done. by rewrite Hint. }
    assert (status_ p1 = kOk) as Hok by (by destruct (status_ p1)). specialize (Hpairs Hok).
    apply wpP_bind, wpP_lift. unfold BackwardFFT.
    eapply wp_mono; [apply (BackwardFFT_Threadsafe_spec n K HK (S n) l 0 (2 * theta) (products ta tb) c1); [| done | lia | done | done | done]|].
    { unfold n. pose proof (Nat.pow_gt_lin_r 2 l). lia. }
    intros c2 (Hc2 & Hinv & _). cbn [Nat.add] in Hinv. fold n in Hinv.
    set (cf := convolution (-1) n (chunk n s A) (chunk n s B)).
    assert (forall k, (k < n)%nat -> holds K c2 k (2 ^ Z.of_nat l * weighted theta cf k)) as Hcoef.
    { intros k Hk. eapply holds_mono; [by apply Hinv|]. rewrite <- pow_of_nat, <- (inverse_transform (Fn K) l (2 * theta) (weighted theta cf) k Hroot Hk).
      apply inverse_eqm; [done|]. intros j Hj. symmetry. by apply (transform_convolution (Fn K) l (2 * theta) theta (-1)). }
    assert (forall k, (k < n)%nat -> - (Z.of_nat n - 1 - Z.of_nat k) * bpow (2 * s) <= cf k < (Z.of_nat k + 1) * bpow (2 * s)) as Hcf.
    { intros k Hk. replace (2 * s)%nat with (s + s)%nat by lia. rewrite bpow_add. pose proof (bpow_pos s).
      apply negacyclic_bounds; try done; try lia; intros i Hi; by apply canon_chunks. }
    apply wpP_lift. eapply wp_mono; [apply (CounterWeightAndRecombine_spec n K s l (2 * (Ko + 1)) theta cf); try done|].
    + nia.
    + pose proof digit_base_ge. assert (Z.of_nat n <= Z.of_nat Ko) by (rewrite EKo; fold n; nia). lia.
    + assert ((n - 1) * s <= Ko)%nat by (rewrite EKo; fold n; nia). lia.
    + rewrite Eroot. assert (0 <= kDigitBits * Z.of_nat s) by nia. lia.
    + unfold n. by apply room_for_products.
    + intros R (HlR & HR & j & Ej). assert (0 < n)%nat as Hn0 by lia.
      destruct (negacyclic_value n (bpow s) (chunk n s A) (chunk n s B) (val A) (val B) (bpow Ko)) as [HV EqV]; try done.
      * intros i Hi. by apply chunk_nonneg.
      * intros i Hi. by apply chunk_nonneg.
      * apply bpow_pos.
      * by apply chunks_value.
      * by apply chunks_value.
      * rewrite EKo. pose proof (val_bounds A HokA). lia.
      * rewrite EKo. pose proof (val_bounds B HokB). lia.
      * rewrite EKo. fold n. by rewrite <- bpow_mul.
      * apply bpow_pos.
      * cbv zeta in HV, EqV. fold cf in HV, EqV. split_and!; try done. intros _. exists (eval n cf (bpow s)), j.
        replace (2 * Ko + 2)%nat with (2 * (Ko + 1))%nat by lia. replace (2 * Ko)%nat with (Ko + Ko)%nat by lia. by rewrite bpow_add.
Qed.
End inner.
End fft_inner.
