(* ===== verification/FftOuter.v ===== *)
(** The outer layer of the FFT multiplication ([ProcessorImpl::MultiplyFFT] of
    [src/bigint/mul-fft.cc]): the product of two numbers by a cyclic convolution that is
    long enough not to wrap around. *)

From Stdlib Require Import ZArith Lia.
From stdpp Require Import base tactics numbers list option.
From S2P Require Import Prelude Digit Digits VectorArithmetic Processor MulSchoolbook MulKaratsuba MulFft FftMod FftAlgebra FftTransform FftPointwise FftStart FftRecombine FftInner.

#[local] Open Scope Z_scope.

(** The coefficients of a cyclic convolution of sequences below [t]. *)
Lemma cyclic_bounds n t a b k :
  (k < n)%nat -> (forall i, (i < n)%nat -> 0 <= a i < t) -> (forall i, (i < n)%nat -> 0 <= b i < t) ->
  0 <= convolution 1 n a b k <= Z.of_nat n * (t * t).
Proof.
  intros Hk Ha Hb. unfold convolution.
  assert (0 <= product_coeff n a b k) as Hp0 by (apply product_coeff_nonneg; intros i Hi; [apply Ha | apply Hb]; done).
  assert (0 <= product_coeff n a b (n + k)) as Hp1 by (apply product_coeff_nonneg; intros i Hi; [apply Ha | apply Hb]; done).
  assert (product_coeff n a b k <= Z.of_nat (S k) * (t * t)).
  { apply (sum_first n (S k)); [lia | nia|]. intros i Hi. pose proof (Ha i Hi). destruct (decide (i < S k)%nat).
    - rewrite !bool_decide_true by lia. pose proof (Hb (k - i)%nat ltac:(lia)). nia.
    - rewrite !bool_decide_false by lia. lia. }
  assert (product_coeff n a b (n + k) <= Z.of_nat (n - S k) * (t * t)).
  { apply (sum_last n (S k)); [lia | nia|]. intros i Hi. pose proof (Ha i Hi). destruct (decide (S k <= i)%nat).
    - rewrite !bool_decide_true by lia. pose proof (Hb (n + k - i)%nat ltac:(lia)). nia.
    - rewrite !bool_decide_false by lia. lia. }
  nia.
Qed.

(** A product below [t^n] is the value of the convolution. *)
Lemma cyclic_value n t a b :
  (forall i, (i < n)%nat -> 0 <= a i) -> (forall i, (i < n)%nat -> 0 <= b i) -> 0 < t -> eval n a t * eval n b t < t ^ Z.of_nat n ->
  eval n (convolution 1 n a b) t = eval n a t * eval n b t.
Proof.
  intros Ha Hb Ht Hlt. pose proof (eval_convolution 1 n a b t) as E1. pose proof (eval_convolution 0 n a b t) as E0. set (hi := sum n _) in *.
  assert (forall c, (forall k, (k < n)%nat -> 0 <= c k) -> 0 <= sum n (fun k => c k * t ^ Z.of_nat k)) as Hnn.
  { intros c Hc. apply sum_nonneg. intros i Hi. specialize (Hc i Hi). pose proof (Z.pow_pos_nonneg t (Z.of_nat i) Ht ltac:(lia)). nia. }
  assert (0 <= hi) as Hhi by (apply (Hnn (fun k => product_coeff n a b (n + k))); intros; by apply product_coeff_nonneg).
  assert (0 <= eval n (convolution 0 n a b) t) as Hlo.
  { apply Hnn. intros k Hk. unfold convolution. pose proof (product_coeff_nonneg n a b k Ha Hb). lia. }
  assert (hi = 0) as -> by nia. lia.
Qed.

Section fft_outer.
Context `{Config, Platform}.
Context {alloc : Allocator} {pointers : PointerEquality}.

(** What [GetParameters] chooses for a product of [N] digits. *)
Definition outer_params (N : nat) (m : Z) (P : Parameters) : Prop :=
  exists (l K s : nat) (omega pm : Z),
    P = mkParameters pm (Z.of_nat K) (Z.of_nat (2 ^ l)) (Z.of_nat s) omega /\ m = Z.of_nat l /\
    (2 <= l)%nat /\ (N <= 2 ^ l * s)%nat /\ (0 < s)%nat /\ 0 <= omega /\ omega * Z.of_nat (2 ^ (l - 1)) = kDigitBits * Z.of_nat K /\
    Z.of_nat l + 2 * (kDigitBits * Z.of_nat s) + 1 <= kDigitBits * Z.of_nat K /\ Z.of_nat K < 2 ^ 31.

Lemma inner_depth_int K : Z.of_nat K < 2 ^ 31 -> inner_depth inner_fuel K.
Proof. intros HK. unfold inner_depth, inner_fuel. change (Z.of_nat K * 3 ^ 32 <= 199 * 5 ^ 32). lia. Qed.

Section multiply_fft.
Context (Multiply : digits -> digits -> digits -> PM digits) (L : nat) (Hmul : mul_ok L Multiply).
Context (Hparams : forall Ko, 200 <= Z.of_nat Ko < 2 ^ 31 -> Z.land (Z.of_nat Ko) 3 = 0 -> wp (ComputeParameters_Inner (Z.of_nat Ko)) (inner_params Ko)).

(** [MultiplyFFT] after the choice of the parameters. *)
Lemma MultiplyFFT_spec Zd X Y p m P :
  steady p -> digits_ok Zd -> digits_ok X -> digits_ok Y -> (length X + length Y <= length Zd)%nat ->
  GetParameters (Z.of_nat (length X) + Z.of_nat (length Y)) = Ok (m, P) -> outer_params (length X + length Y) m P ->
  (S (Z.to_nat (param_K P)) <= L)%nat -> (Z.to_nat (param_s P) <= length X)%nat -> (Z.to_nat (param_s P) <= length Y)%nat ->
  wpP (MultiplyFFT Multiply Zd X Y) p (fun Z' p' => status_le p p' /\ length Z' = length Zd /\ digits_ok Z' /\ (status_ p' = kOk -> val Z' = val X * val Y)).
Proof.
  intros Hst HZ HX HY HlZ Eget (l & K & s & omega & pm & -> & -> & Hl & HN & Hs & Homega & Eroot & Hbits & HK31) HL HsX HsY.
  cbn [param_K param_s] in *. rewrite Nat2Z.id in *. unfold MultiplyFFT. rewrite Eget. apply wpP_bind, wpP_lift, wp_Ok.
  cbn [param_m param_K param_n param_s param_r]. rewrite !Nat2Z.id. set (n := (2 ^ l)%nat) in *.
  pose proof kDigitBits_cases as Hkb. assert (0 < K)%nat as HK by nia. assert (0 < s < K)%nat as HsK by nia.
  assert (n = 2 ^ (l - 1) + 2 ^ (l - 1))%nat as En by (unfold n; rewrite <- double_pow; f_equal; lia).
  assert (root (Fn K) l omega) as Hroot.
  { split; [done|]. destruct l as [|l']; [done|]. replace (S l' - 1)%nat with l' in Eroot by lia. rewrite Eroot. apply bpow_minus_one. }
  assert (0 < n)%nat as Hn0 by (unfold n; apply pow_pos_nat).
  set (ta := transform l omega (weighted 0 (chunk n s X))). set (tb := transform l omega (weighted 0 (chunk n s Y))).
  assert (forall V, digits_ok V -> (s <= length V)%nat -> (length V <= n * s)%nat ->
    wp (Start V s 0 omega (FFTContainer_new n K)) (fun c => container_ok n K c /\ forall k, (k < n)%nat -> holds K c k (transform l omega (weighted 0 (chunk n s V)) k))) as Hstart.
  { intros V HV HsV HlV. apply (FFTContainer_Start_spec l K s HK HsK V HV 0 omega); try done; unfold fits, nparts; fold n; [lia | apply FFTContainer_new_ok | lia]. }
  apply wpP_bind, wpP_lift. eapply wp_mono; [apply Hstart; (done || lia)|]. intros ca [Hca Hta]. fold ta in Hta.
  assert (Nat.even n = true) as Hev by (unfold n; destruct l; [lia | apply even_pow]).
  apply wpP_bind. apply (wpP_mono _ _ (fun c p' => status_le p p' /\ container_ok n K c /\ (status_ p' = kOk -> forall k, (k < n)%nat -> holds K c k (pairs (products ta tb) k)))).
  { pose proof (MultiplyFFT_Inner_spec Multiply L Hmul Hparams inner_fuel) as Hinner. destruct (same_digits X Y) eqn:Esame.
    - apply same_digits_eq in Esame. unfold tb. rewrite <- Esame. fold ta.
      apply (PointwiseMultiply_spec Multiply (MultiplyFFT_Inner inner_fuel Multiply) L inner_fuel Hmul Hparams Hinner n K ta ta None); try done. by apply inner_depth_int.
    - apply wpP_bind, wpP_lift. eapply wp_mono; [apply (Hstart Y); (done || lia)|]. intros cb [Hcb Htb]. fold tb in Htb.
      apply (PointwiseMultiply_spec Multiply (MultiplyFFT_Inner inner_fuel Multiply) L inner_fuel Hmul Hparams Hinner n K ta tb (Some (part_ cb))); try done;
        [by apply inner_depth_int | apply (container_length _ _ _ Hcb)]. }
  intros c1 p1 (Hle & Hc1 & Hpairs). apply wpP_bind, wpP_should_terminate. case_bool_decide as Hint.
  { apply wpP_ret. split_and!; try done. by rewrite Hint. }
  assert (status_ p1 = kOk) as Hok by (by destruct (status_ p1)). specialize (Hpairs Hok).
  apply wpP_bind, wpP_lift. unfold BackwardFFT.
  eapply wp_mono; [apply (BackwardFFT_Threadsafe_spec n K HK (S n) l 0 omega (products ta tb) c1); [| done | lia | done | done | done]|].
  { unfold n. pose proof (Nat.pow_gt_lin_r 2 l). lia. }
  intros c2 (Hc2 & Hinv & _). cbn [Nat.add] in Hinv. fold n in Hinv.
  set (cf := convolution 1 n (chunk n s X) (chunk n s Y)).
  assert (forall k, (k < n)%nat -> holds K c2 k (2 ^ Z.of_nat l * cf k)) as Hcoef.
  { intros k Hk. eapply holds_mono; [by apply Hinv|]. transitivity (2 ^ Z.of_nat l * weighted 0 cf k); [|unfold weighted; rewrite Z.mul_0_l; apply eqm_eq; lia].
    rewrite <- pow_of_nat, <- (inverse_transform (Fn K) l omega (weighted 0 cf) k Hroot Hk).
    apply inverse_eqm; [done|]. intros j Hj. symmetry. by apply (transform_convolution (Fn K) l omega 0 1). }
  assert (forall k, (k < n)%nat -> 0 <= cf k /\ 2 * cf k <= bpow K) as Hcf.
  { intros k Hk. pose proof (room_for_products l K s Hbits) as Hroom. fold n in Hroom. replace (2 * s)%nat with (s + s)%nat in Hroom by lia. rewrite bpow_add in Hroom.
    destruct (cyclic_bounds n (bpow s) (chunk n s X) (chunk n s Y) k Hk) as [? ?]; [| |unfold cf; lia]; intros i Hi; (split; [by apply chunk_nonneg | apply fft_chunk_bound; (done || lia)]). }
  assert (eval n cf (bpow s) = val X * val Y) as Eval.
  { unfold cf. rewrite cyclic_value; rewrite ?chunks_value; try done; try (intros; by apply chunk_nonneg); [apply bpow_pos|]. rewrite <- bpow_mul.
    pose proof (val_bounds X HX). pose proof (val_bounds Y HY). pose proof (bpow_le _ _ HN) as Hb. rewrite bpow_add in Hb. nia. }
  apply wpP_lift. eapply wp_mono; [apply (NormalizeAndRecombine_spec n K s l HK ltac:(lia) cf (Z.of_nat n * omega - Z.of_nat l) (length Zd) Hcf); try done|].
  - rewrite En. assert (0 <= kDigitBits * Z.of_nat s) by nia. lia.
  - rewrite <- Z.pow_add_r; [|lia|rewrite En; assert (0 <= kDigitBits * Z.of_nat s) by nia; lia].
    replace (Z.of_nat l + (Z.of_nat n * omega - Z.of_nat l)) with (kDigitBits * Z.of_nat K + kDigitBits * Z.of_nat K) by (rewrite En; lia).
    rewrite Z.pow_add_r, bpow_minus_one by nia. done.
  - rewrite Eval. pose proof (val_bounds X HX). pose proof (val_bounds Y HY). pose proof (bpow_le _ _ HlZ) as Hb. rewrite bpow_add in Hb. nia.
  - intros Z' (HlZ' & HZ' & Ev). split_and!; try done. by rewrite Ev.
Qed.
End multiply_fft.
End fft_outer.
