(* ===== verification/FftParameters.v ===== *)
(** The parameters of the FFT multiplication, the second part of [src/bigint/mul-fft.cc]:
    what the transformation relies on, and bounds for the lengths of the chunks and of the
    parts. *)

From Stdlib Require Import ZArith Lia.
From stdpp Require Import base tactics numbers list option.
From S2P Require Import Prelude Digit Digits VectorArithmetic Processor MulKaratsuba MulFft FftMod FftAlgebra FftInner FftOuter.

#[local] Open Scope Z_scope.

(** ** Rounding *)

Lemma RoundUp_pow2 x k : 0 <= k -> RoundUp x (2 ^ k) = 2 ^ k * ((x + 2 ^ k - 1) / 2 ^ k).
Proof.
  intros Hk. unfold RoundUp. replace (- 2 ^ k) with (Z.lnot (Z.ones k)) by (rewrite Z.ones_equiv; unfold Z.lnot; lia).
  rewrite <- Z.ldiff_land, Z.ldiff_ones_r, Z.shiftl_mul_pow2, Z.shiftr_div_pow2 by done. lia.
Qed.

Lemma ceil_bounds x y : 0 < y -> x <= y * ((x + y - 1) / y) < x + y.
Proof. intros Hy. pose proof (Z.div_mod (x + y - 1) y). pose proof (Z.mod_pos_bound (x + y - 1) y). lia. Qed.

Lemma RoundUp_bounds x k : 0 <= k -> x <= RoundUp x (2 ^ k) < x + 2 ^ k /\ (2 ^ k | RoundUp x (2 ^ k)).
Proof.
  intros Hk. rewrite RoundUp_pow2 by done. pose proof (Z.pow_pos_nonneg 2 k ltac:(lia) Hk) as Hp.
  split; [by apply ceil_bounds|]. apply Z.divide_factor_l.
Qed.

(** ** Trailing zeros *)

Lemma pos_trailing_zeros_spec p : exists q, 0 <= pos_trailing_zeros p /\ Z.pos p = 2 ^ pos_trailing_zeros p * (2 * q + 1).
Proof.
  induction p as [p IH | p IH |]; cbn [pos_trailing_zeros].
  - exists (Z.pos p). split; [lia|]. rewrite Z.pow_0_r. lia.
  - destruct IH as (q & H0 & E). exists q. split; [lia|]. rewrite Z.pow_add_r by lia. lia.
  - exists 0. split; lia.
Qed.

Lemma CountTrailingZeros_spec x : 0 < x -> 0 <= CountTrailingZeros x /\ exists q, x = 2 ^ CountTrailingZeros x * (2 * q + 1).
Proof. destruct x as [|p|]; [lia | | lia]. intros _. destruct (pos_trailing_zeros_spec p) as (q & ? & ?). split; [done|]. by exists q. Qed.

(** A power of two that divides [x] has at most that exponent. *)
Lemma trailing_zeros_max x j : 0 < x -> 0 <= j -> (2 ^ j | x) <-> j <= CountTrailingZeros x.
Proof.
  intros Hx Hj. destruct (CountTrailingZeros_spec x Hx) as [H0 [q E]]. set (c := CountTrailingZeros x) in *. split.
  - intros [z Ez]. destruct (Z.le_gt_cases j c); [done|]. exfalso.
    assert (2 * q + 1 = 2 * (z * 2 ^ (j - c - 1))) as Eodd; [|lia].
    assert (2 ^ c * (2 * q + 1) = 2 ^ c * (2 * (z * 2 ^ (j - c - 1)))) as Em.
    { rewrite <- E, Ez. replace j with (c + 1 + (j - c - 1)) at 1 by lia. rewrite !Z.pow_add_r by lia. lia. }
    apply Z.mul_reg_l in Em; [done|]. pose proof (Z.pow_pos_nonneg 2 c ltac:(lia) H0). lia.
  - intros Hle. exists (2 ^ (c - j) * (2 * q + 1)). rewrite E at 1. replace c with (j + (c - j)) at 1 by lia. rewrite Z.pow_add_r by lia. lia.
Qed.

Lemma round_K_spec fuel K t :
  0 < K -> 0 <= t -> t - CountTrailingZeros K <= Z.of_nat fuel ->
  wp (round_K fuel K t) (fun K' => K <= K' < K + 2 ^ t /\ (2 ^ t | K') /\ CountTrailingZeros K <= CountTrailingZeros K').
Proof.
  intros HK Ht Hf. pose proof (Z.pow_pos_nonneg 2 t ltac:(lia) Ht) as Hp.
  apply (wp_mono _ (fun K' => K <= K' /\ (CountTrailingZeros K < t -> K' <= K + 2 ^ t - 2 ^ CountTrailingZeros K) /\ (t <= CountTrailingZeros K -> K' = K) /\
    t <= CountTrailingZeros K' /\ CountTrailingZeros K <= CountTrailingZeros K')).
  2: { intros K' (Hge & H1 & H2 & H3 & H4). destruct (CountTrailingZeros_spec K HK) as [Hc0 _].
       pose proof (Z.pow_pos_nonneg 2 (CountTrailingZeros K) ltac:(lia) Hc0). split_and!; try done; [|by apply trailing_zeros_max; lia].
       destruct (Z.lt_ge_cases (CountTrailingZeros K) t) as [Hlt | Hge']; [specialize (H1 Hlt); lia | specialize (H2 Hge'); lia]. }
  revert K HK Hf. induction fuel as [|fuel IH]; intros K HK Hf; cbn [round_K];
    destruct (CountTrailingZeros_spec K HK) as [Hc0 [q Eq]]; destruct (Z.ltb_spec (CountTrailingZeros K) t) as [Hlt | Hge]; try lia.
  1, 3: apply wp_ret; split_and!; (done || lia).
  rewrite Z.shiftl_1_l. set (c := CountTrailingZeros K) in *. pose proof (Z.pow_pos_nonneg 2 c ltac:(lia) Hc0) as Hpc.
  assert (c + 1 <= CountTrailingZeros (K + 2 ^ c)) as Hc'.
  { apply trailing_zeros_max; [lia | lia|]. exists (q + 1). rewrite Eq at 1. rewrite Z.pow_add_r by lia. lia. }
  eapply wp_mono; [apply IH; lia|]. intros K' (Hge & H1 & H2 & H3 & H4). split_and!; try lia. intros _.
  assert (2 ^ (c + 1) <= 2 ^ t) as Hct by (apply Z.pow_le_mono_r; lia). rewrite Z.pow_add_r in Hct by lia.
  destruct (Z.lt_ge_cases (CountTrailingZeros (K + 2 ^ c)) t) as [Hlt' | Hge']; [|specialize (H2 Hge'); lia].
  specialize (H1 Hlt'). assert (2 ^ (c + 1) <= 2 ^ CountTrailingZeros (K + 2 ^ c)) as Hcc by (apply Z.pow_le_mono_r; lia). rewrite Z.pow_add_r in Hcc by lia. lia.
Qed.

Section fft_parameters.
Context `{Config}.

Lemma kDigitBits_pow2 : kDigitBits = 2 ^ kLog2DigitBits /\ 5 <= kLog2DigitBits <= 6.
Proof. unfold kDigitBits. rewrite Z.shiftl_1_l. split; [done|]. destruct kLog2DigitBits_cases; lia. Qed.

(** ** [ComputeParameters] *)

Record parameters_ok (N m : Z) (P : Parameters) : Prop := {
  parameters_n : param_n P = 2 ^ m;
  parameters_s : 0 < param_s P;
  parameters_fit : N <= 2 ^ m * param_s P;
  parameters_least : 2 ^ m * (param_s P - 1) < N;
  parameters_r : 0 <= param_r P /\ param_r P * 2 ^ (m - 1) = kDigitBits * param_K P;
  parameters_room : m + 2 * (kDigitBits * param_s P) + 1 <= kDigitBits * param_K P;
  parameters_K : kDigitBits * param_K P < m + 2 * (kDigitBits * param_s P) + 2 ^ (m - 1) + 8 * kDigitBits;
}.

(** The chunks have [N / 2^m] digits, rounded up. *)
Lemma chunk_digits N m :
  0 < N -> 0 <= m ->
  let s := RoundUp (Z.shiftr (N * kDigitBits + 2 ^ m - 1) m) kDigitBits in
  s mod kDigitBits = 0 /\ 0 < s / kDigitBits /\ s = kDigitBits * (s / kDigitBits) /\ N <= 2 ^ m * (s / kDigitBits) /\ 2 ^ m * (s / kDigitBits - 1) < N.
Proof.
  intros HN Hm s. destruct kDigitBits_pow2 as [Ekb Hlog]. pose proof (Z.pow_pos_nonneg 2 m ltac:(lia) Hm) as Hn.
  unfold s. rewrite Z.shiftr_div_pow2 by done. set (c := (N * kDigitBits + 2 ^ m - 1) / 2 ^ m).
  pose proof (ceil_bounds (N * kDigitBits) (2 ^ m) Hn) as Hc. fold c in Hc.
  destruct (RoundUp_bounds c kLog2DigitBits) as [Hr [d Hd]]; [lia|]. rewrite <- Ekb in Hr, Hd. assert (0 < kDigitBits) as Hkb by (destruct kDigitBits_cases; lia).
  rewrite Hd in *. rewrite Z.mod_mul, Z.div_mul by lia. assert (0 < c) as Hc0 by nia. split_and!; try nia.
Qed.

Lemma ComputeParameters_spec N m : 0 < N -> 1 <= m -> wp (ComputeParameters N m) (parameters_ok N m).
Proof.
  intros HN Hm. destruct kDigitBits_pow2 as [Ekb Hlog]. pose proof kDigitBits_cases as Hkb. unfold ComputeParameters. rewrite !Z.shiftl_1_l.
  destruct (chunk_digits N m HN ltac:(lia)) as (Hsm & Hs0 & Es & Hfit & Hleast).
  set (s := RoundUp (Z.shiftr (N * kDigitBits + 2 ^ m - 1) m) kDigitBits) in *.
  assert (Z.shiftr (2 ^ m) 1 = 2 ^ (m - 1)) as ->.
  { rewrite Z.shiftr_div_pow2 by lia. replace m with (m - 1 + 1) at 1 by lia. rewrite Z.pow_add_r by lia. by apply Z.div_mul. }
  pose proof (Z.pow_pos_nonneg 2 (m - 1) ltac:(lia) ltac:(lia)) as Hh.
  destruct (RoundUp_bounds (m + 2 * s + 1) (m - 1)) as [HK1 Hd1]; [lia|]. set (K1 := RoundUp (m + 2 * s + 1) (2 ^ (m - 1))) in *.
  set (t := if kFftInnerThreshold * kDigitBits <=? K1 + 1 then 3 + kLog2DigitBits else kLog2DigitBits).
  assert (kLog2DigitBits <= t <= 3 + kLog2DigitBits) as Ht by (unfold t; destruct (_ <=? _); lia).
  assert (0 < s) as Hspos by nia. assert (0 < K1) as HK1pos by lia.
  apply wp_bind. eapply wp_mono; [apply round_K_spec; [done | lia|]|].
  { destruct (CountTrailingZeros_spec K1 HK1pos) as [? _]. lia. }
  intros K2 (HK2 & Hdt & Hctz). assert (2 ^ t <= 8 * kDigitBits) as Ht8.
  { replace (8 * kDigitBits) with (2 ^ (3 + kLog2DigitBits)) by (rewrite Z.pow_add_r by lia; lia). apply Z.pow_le_mono_r; lia. }
  assert (0 < K2) as HK2pos by lia.
  assert (kDigitBits | K2) as [Kd HKd].
  { rewrite Ekb. apply trailing_zeros_max; [done | lia|]. apply trailing_zeros_max in Hdt; lia. }
  assert (2 ^ (m - 1) | K2) as [r Hr].
  { apply trailing_zeros_max; [done | lia|]. apply trailing_zeros_max in Hd1; lia. }
  assert (K2 mod kDigitBits = 0) as HKmod by (rewrite HKd; apply Z.mod_mul; lia).
  apply wp_bind, wp_dcheck; [by rewrite HKmod|]. apply wp_bind, wp_dcheck; [by rewrite Hsm|]. apply wp_ret.
  assert (K2 / kDigitBits = Kd) as EKd by (rewrite HKd; apply Z.div_mul; lia).
  assert (Z.shiftr K2 (m - 1) = r) as Er by (rewrite Z.shiftr_div_pow2, Hr by lia; apply Z.div_mul; lia).
  split; cbn [param_n param_s param_r param_K]; rewrite ?EKd, ?Er; try done; try lia.
Qed.

(** ** [ComputeParameters_Inner] *)

Lemma ComputeParameters_Inner_core N :
  8 <= N < 2 ^ 31 ->
  wp (ComputeParameters_Inner N) (fun P => exists m s K r, P = mkParameters m K (2 ^ m) s r /\
    m = CountTrailingZeros N `min` (BitLength_int N - 4) /\ 0 <= m /\ N = s * 2 ^ m /\ 0 < s /\ K * kDigitBits = r * 2 ^ m /\
    m + 2 * (s * kDigitBits) + 1 <= K * kDigitBits < m + 2 * (s * kDigitBits) + 1 + 2 ^ m + kDigitBits).
Proof.
  intros HN. destruct kDigitBits_pow2 as [Ekb Hlog]. pose proof kDigitBits_cases as Hkb. unfold ComputeParameters_Inner.
  destruct (BitLength_int_spec N) as [Hlo Hhi]; [lia|]. set (bits := BitLength_int N) in *.
  assert (4 <= bits) as Hbits. { destruct (Z.le_gt_cases 4 bits); [done|]. assert (2 ^ bits <= 2 ^ 3) by (apply Z.pow_le_mono_r; lia). lia. }
  destruct (CountTrailingZeros_spec N ltac:(lia)) as [Hctz _]. set (m := CountTrailingZeros N `min` (bits - 4)). assert (0 <= m <= bits - 4) as Hm by (unfold m; lia).
  assert (2 ^ m | N) as [s Es]. { apply trailing_zeros_max; [lia | lia|]. unfold m. lia. }
  rewrite !Z.shiftl_1_l. pose proof (Z.pow_pos_nonneg 2 m ltac:(lia) ltac:(lia)) as Hn.
  assert (Z.shiftr (N * kDigitBits) m = s * kDigitBits) as Esb.
  { rewrite Z.shiftr_div_pow2, Es by lia. replace (s * 2 ^ m * kDigitBits) with (s * kDigitBits * 2 ^ m) by lia. apply Z.div_mul. lia. }
  rewrite Esb. apply wp_bind, wp_dcheck; [apply Z.eqb_eq; lia|]. assert (0 < s) as Hs by nia.
  destruct (RoundUp_bounds (m + 2 * (s * kDigitBits) + 1) m) as [HK1 Hd1]; [lia|]. set (K1 := RoundUp (m + 2 * (s * kDigitBits) + 1) (2 ^ m)) in *.
  destruct (RoundUp_bounds K1 kLog2DigitBits) as [HK2 Hd2]; [lia|]. rewrite <- Ekb in HK2, Hd2. set (K2 := RoundUp K1 kDigitBits) in *.
  destruct Hd2 as [K EK].
  assert (2 ^ m | K2) as [r Er].
  { destruct (Z.le_gt_cases m kLog2DigitBits) as [Hle | Hgt].
    - apply (Z.divide_trans _ kDigitBits); [|by exists K]. rewrite Ekb. exists (2 ^ (kLog2DigitBits - m)). rewrite <- Z.pow_add_r by lia. f_equal. lia.
    - assert (kDigitBits | K1) as [d Ed].
      { apply (Z.divide_trans _ (2 ^ m)); [|done]. rewrite Ekb. exists (2 ^ (m - kLog2DigitBits)). rewrite <- Z.pow_add_r by lia. f_equal. lia. }
      assert (K2 = K1) as -> by nia. done. }
  assert (K2 mod kDigitBits = 0) as HKmod by (rewrite EK; apply Z.mod_mul; lia).
  apply wp_bind, wp_dcheck; [by rewrite HKmod|]. apply wp_bind, wp_dcheck; [rewrite Z.mod_mul by lia; done|]. apply wp_ret.
  assert (K2 / kDigitBits = K) as -> by (rewrite EK; apply Z.div_mul; lia). rewrite Z.div_mul by lia.
  assert (Z.shiftr K2 m = r) as -> by (rewrite Z.shiftr_div_pow2, Er by lia; apply Z.div_mul; lia).
  exists m, s, K, r. split_and!; try done; lia.
Qed.

(** For the lengths the inner layer is used for. *)
Lemma ComputeParameters_Inner_spec Ko :
  200 <= Z.of_nat Ko < 2 ^ 31 -> Z.land (Z.of_nat Ko) 3 = 0 -> wp (ComputeParameters_Inner (Z.of_nat Ko)) (inner_params Ko).
Proof.
  intros HKo H3. pose proof kDigitBits_cases as Hkb. eapply wp_mono; [apply ComputeParameters_Inner_core; lia|].
  intros P (m & s & K & r & -> & Em & Hm0 & Es & Hs & Er & HK). destruct (BitLength_int_spec (Z.of_nat Ko)) as [Hlo Hhi]; [lia|]. set (bits := BitLength_int (Z.of_nat Ko)) in *.
  assert (8 <= bits) as Hbits. { destruct (Z.le_gt_cases 8 bits); [done|]. assert (2 ^ bits <= 2 ^ 7) by (apply Z.pow_le_mono_r; lia). lia. }
  assert (2 <= CountTrailingZeros (Z.of_nat Ko)) as Hctz.
  { apply trailing_zeros_max; [lia | lia|]. apply Z.mod_divide; [lia|]. change 3 with (Z.ones 2) in H3. by rewrite Z.land_ones in H3 by lia. }
  assert (2 <= m <= bits - 4) as Hm by lia. pose proof (Z.pow_pos_nonneg 2 m ltac:(lia) Hm0) as Hn.
  assert (0 < K) by nia. assert (0 <= r) by nia. exists (Z.to_nat m), (Z.to_nat K), (Z.to_nat s), r. rewrite pow_of_nat, !Z2Nat.id by lia.
  assert (8 * 2 ^ m <= Z.of_nat Ko) as Hnsmall.
  { replace (8 * 2 ^ m) with (2 ^ (m + 3)) by (rewrite Z.pow_add_r by lia; lia). assert (2 ^ (m + 3) <= 2 ^ (bits - 1)) by (apply Z.pow_le_mono_r; lia). lia. }
  assert (4 <= 2 ^ m) as Hn4 by (change 4 with (2 ^ 2); apply Z.pow_le_mono_r; lia). assert (m < 2 ^ m) by (apply Z.pow_gt_lin_r; lia).
  assert (4 * s <= Z.of_nat Ko) as Hs4 by nia.
  split_and!; try done; try lia.
  apply Nat2Z.inj. rewrite Nat2Z.inj_mul, pow_of_nat, !Z2Nat.id by lia. lia.
Qed.

(** ** [GetParameters] *)

(** The rounded quotient is less than the constant: so is the quotient, nearly. *)
Lemma factor_lt_spec a b c : 0 < a < 2 ^ 31 -> 0 < b < 2 ^ 31 -> factor_lt (div_double a b) c = true -> a * 2 ^ 51 < (c + 2 ^ 30) * b.
Proof.
  intros Ha Hb. unfold factor_lt, div_double. set (e0 := 52 - (Z.log2 a - Z.log2 b)). set (e := if _ <? _ then e0 + 1 else e0).
  assert (0 <= Z.log2 b) by apply Z.log2_nonneg. assert (Z.log2 a < 31) by (apply Z.log2_lt_pow2; lia).
  assert (22 <= e) as He by (unfold e; destruct (_ <? _); lia). cbn [fst snd]. set (q := a * 2 ^ e / b). intros Hlt%Z.ltb_lt.
  assert (q * 2 ^ 51 < c * 2 ^ e) as Hq by (destruct (_ || _) in Hlt; lia). clear Hlt.
  assert (a * 2 ^ e < (q + 1) * b) as Hdiv. { pose proof (Z.mul_succ_div_gt (a * 2 ^ e) b ltac:(lia)) as Hd. fold q in Hd. lia. }
  assert (2 ^ 51 <= 2 ^ 30 * 2 ^ e) as H51. { rewrite <- Z.pow_add_r by lia. apply Z.pow_le_mono_r; lia. }
  pose proof (Z.pow_pos_nonneg 2 e ltac:(lia) ltac:(lia)) as Hpe. set (E := 2 ^ e) in *.
  assert (a * 2 ^ 51 * E < (c + 2 ^ 30) * b * E) as Hfin; [|nia].
  assert ((q + 1) * b * 2 ^ 51 <= (c * E + 2 ^ 51) * b) by nia. assert (a * E * 2 ^ 51 < (q + 1) * b * 2 ^ 51) by nia.
  assert ((c * E + 2 ^ 51) * b <= (c * E + 2 ^ 30 * E) * b) by nia. lia.
Qed.

(** Why the next smaller [m] is preferred. *)
Definition decrement_reason (current after_next : Parameters) : Prop :=
  param_s current < 10 \/ param_K current < 250 \/ 1000 * param_K after_next < 3401 * param_K current.

Lemma ShouldDecrementM_spec current next after_next :
  0 < param_K current < 2 ^ 31 -> (6 <= param_s current -> 8 <= param_K next < 2 ^ 31) -> 0 < param_K after_next < 2 ^ 31 ->
  wp (ShouldDecrementM current next after_next) (fun b => b = true -> decrement_reason current after_next).
Proof.
  intros H1 H2 H3. unfold ShouldDecrementM, decrement_reason. destruct (_ && _); [by apply wp_ret|].
  destruct (Z.ltb_spec (param_s current) 6); [apply wp_ret; intros _; lia|].
  destruct (_ || _) eqn:E.
  - apply wp_ret. intros _. rewrite !orb_true_iff, !andb_true_iff, !Z.eqb_eq in E.
    destruct E as [[[[[? _] | [? _]] | [? _]] | [? _]] | E]; [lia | lia | lia | lia|]. right; right.
    apply factor_lt_spec in E; [|done | done]. unfold k3_4 in E. lia.
  - clear E. destruct (_ && _) eqn:E2; [|by apply wp_ret]. apply andb_true_iff in E2 as [_ Hk%Z.ltb_lt].
    unfold PredictInnerK. apply wp_bind, wp_bind. eapply wp_mono; [apply ComputeParameters_Inner_core; by apply H2|].
    intros P _. apply wp_ret, wp_ret. intros _. lia.
Qed.

Definition max_m (N : Z) : Z := kLog2DigitBits `max` (BitLength_int N - 3).

(** A bound for the chunks: they are short, or twice as long as chunks for which the parts
    of the next but one [m] would have been less than 3.4 times as long. *)
Definition short_chunks (N mx m : Z) (P : Parameters) : Prop :=
  param_s P <= 248 \/
  (m + 1 <= mx /\ exists s, param_s P <= 2 * s /\ 2 ^ (m + 1) * (s - 1) < N /\
     1198 * (kDigitBits * s) < 33208 * kDigitBits + 3401 * (m + 1 + 2 ^ m)).

Lemma parameters_int N m P : 0 < N <= 2 ^ 26 -> 1 <= m <= 24 -> parameters_ok N m P -> 2 * param_s P < param_K P < 2 ^ 31.
Proof.
  intros HN Hm []. pose proof kDigitBits_cases. assert (2 ^ (m - 1) <= 2 ^ 23) by (apply Z.pow_le_mono_r; lia).
  assert (2 ^ 1 <= 2 ^ m) by (apply Z.pow_le_mono_r; lia). assert (param_s P <= 2 ^ 26) by nia. nia.
Qed.

(** The chunks of the next [m], and of the one after it. *)
Lemma chunks_next N m P P' : 1 <= m -> parameters_ok N m P -> parameters_ok N (m - 1) P' -> param_s P' <= 2 * param_s P /\ 2 * param_s P - 1 <= param_s P'.
Proof.
  intros Hm [_ Hs Hfit Hleast _ _ _] [_ Hs' Hfit' Hleast' _ _ _]. replace m with (m - 1 + 1) in Hfit, Hleast by lia. rewrite Z.pow_add_r in Hfit, Hleast by lia.
  pose proof (Z.pow_pos_nonneg 2 (m - 1) ltac:(lia) ltac:(lia)). nia.
Qed.

Lemma short_chunks_next N mx m P P' P'' :
  0 < N -> 3 <= m <= mx -> parameters_ok N m P -> parameters_ok N (m - 1) P' -> parameters_ok N (m - 2) P'' -> decrement_reason P P'' ->
  short_chunks N mx (m - 1) P'.
Proof.
  intros HN Hm HP HP' HP'' Hreason. destruct (chunks_next N m P P') as [H1 H2]; [lia | done | done|].
  destruct (chunks_next N (m - 1) P' P'') as [H3 H4]; [lia | done | by replace (m - 1 - 1) with (m - 2) by lia|].
  pose proof (parameters_room _ _ _ HP) as Hroom. pose proof (parameters_room _ _ _ HP'') as Hroom''. pose proof (parameters_K _ _ _ HP) as HK.
  pose proof kDigitBits_cases as Hkb. destruct Hreason as [? | [? | ?]]; [left; lia | left; nia | right].
  split; [lia|]. exists (param_s P). replace (m - 1 + 1) with m by lia. split_and!; [done | apply (parameters_least _ _ _ HP) | nia].
Qed.

Lemma choose_m_spec fuel N mx m current next :
  0 < N <= 2 ^ 26 -> 2 <= m <= mx -> mx <= 24 -> m <= Z.of_nat fuel -> parameters_ok N m current -> parameters_ok N (m - 1) next -> short_chunks N mx m current ->
  wp (choose_m fuel N m current next) (fun '(m', P) => 2 <= m' <= mx /\ parameters_ok N m' P /\ short_chunks N mx m' P).
Proof.
  intros HN Hm Hmx Hf Hc Hn Hs. revert m current next Hm Hf Hc Hn Hs. induction fuel as [|fuel IH]; intros m current next Hm Hf Hc Hn Hs; [lia|].
  cbn [choose_m]. destruct (Z.ltb_spec 2 m) as [Hgt | Hle]; [|by apply wp_ret].
  apply wp_bind. eapply wp_mono; [apply (ComputeParameters_spec N (m - 2)); lia|]. intros after_next Ha.
  pose proof (parameters_int N m current HN ltac:(lia) Hc). pose proof (parameters_int N (m - 1) next HN ltac:(lia) Hn).
  pose proof (parameters_int N (m - 2) after_next HN ltac:(lia) Ha). pose proof (parameters_s _ _ _ Hc). pose proof (parameters_s _ _ _ Ha).
  destruct (chunks_next N m current next ltac:(lia) Hc Hn) as [_ Hgrow].
  apply wp_bind. eapply wp_mono; [apply ShouldDecrementM_spec; lia|]. intros [] Hreason; [|by apply wp_ret].
  apply IH; try done; try lia; [by replace (m - 1 - 1) with (m - 2) by lia|].
  eapply short_chunks_next; [lia | | exact Hc | done | exact Ha | by apply Hreason]. lia.
Qed.

Lemma max_m_spec N : 0 < N <= 2 ^ 26 -> 5 <= max_m N <= 24 /\ N < 8 * 2 ^ max_m N /\ 2 ^ max_m N <= kDigitBits `max` (N / 4).
Proof.
  intros HN. unfold max_m. destruct kDigitBits_pow2 as [Ekb Hlog]. destruct (BitLength_int_spec N) as [Hlo Hhi]; [lia|]. set (bits := BitLength_int N) in *.
  assert (bits <= 27). { destruct (Z.le_gt_cases bits 27); [done|]. assert (2 ^ 27 <= 2 ^ (bits - 1)) by (apply Z.pow_le_mono_r; lia). lia. }
  split; [lia|]. split.
  - replace (8 * 2 ^ (kLog2DigitBits `max` (bits - 3))) with (2 ^ (kLog2DigitBits `max` (bits - 3) + 3)) by (rewrite Z.pow_add_r by lia; lia).
    assert (2 ^ bits <= 2 ^ (kLog2DigitBits `max` (bits - 3) + 3)) by (apply Z.pow_le_mono_r; lia). lia.
  - destruct (Z.max_spec kLog2DigitBits (bits - 3)) as [[? ->] | [? ->]]; [|lia].
    replace (bits - 1) with (bits - 3 + 2) in Hlo by lia. rewrite Z.pow_add_r in Hlo by lia. pose proof (Z.div_le_lower_bound N 4 (2 ^ (bits - 3))). lia.
Qed.

Lemma GetParameters_spec N :
  0 < N <= 2 ^ 26 ->
  wp (GetParameters N) (fun '(m, P) => 2 <= m <= max_m N /\ parameters_ok N m P /\ short_chunks N (max_m N) m P).
Proof.
  intros HN. destruct (max_m_spec N HN) as (Hmx & HN8 & _). unfold GetParameters. fold (max_m N).
  apply wp_bind. eapply wp_mono; [apply (ComputeParameters_spec N (max_m N)); lia|]. intros current Hc.
  apply wp_bind. eapply wp_mono; [apply (ComputeParameters_spec N (max_m N - 1)); lia|]. intros next Hn.
  apply choose_m_spec; try done; try lia. left. pose proof (parameters_least _ _ _ Hc). pose proof (Z.pow_pos_nonneg 2 (max_m N) ltac:(lia) ltac:(lia)). nia.
Qed.
End fft_parameters.
