(* ===== verification/Multiply.v ===== *)
(** [ProcessorImpl::Multiply] of [src/bigint/bigint-internal.cc]: the choice between the
    multiplication algorithms, and the interface the division and conversion algorithms
    use it through. *)

From Stdlib Require Import ZArith Lia.
From stdpp Require Import base tactics numbers list option.
From S2P Require Import Prelude Digit Digits VectorArithmetic Processor MulSchoolbook MulKaratsuba MulToom.

#[local] Open Scope Z_scope.

(** [ProcessorImpl::MultiplyFFT] calls [Multiply] for the products of its parts, and
    [Multiply] calls it for long operands: the dispatch is generic in it, and the instances
    are the nested calls ([fft_levels] of [FftMultiply.v]). *)
Class FftMultiplier := multiply_fft : digits -> digits -> digits -> PM digits.

Section multiply.
Context `{Config, Platform}.
Context {alloc : Allocator} {fft : FftMultiplier}.
Implicit Types X Y : digits.

Definition kToomThreshold : Z := 193.
Definition kFftThreshold : Z := 1500.

(** [Multiply] and [MultiplyToomCook] call each other; Toom-Cook is only used below
    the FFT threshold and divides the length by three, so it is entered at most twice
    and [fuel = 3] is enough ([Multiply_spec]). *)
Fixpoint Multiply_rec (fuel : nat) (Zd X Y : digits) : PM digits :=
  match fuel with
  | O => lift (Err OutOfFuel)
  | S fuel =>
      let X := Normalize X in
      let Y := Normalize Y in
      if bool_decide (length X = 0 \/ length Y = 0)%nat then mret (Clear Zd)
      else
        let '(X, Y) := if bool_decide (length X < length Y)%nat then (Y, X) else (X, Y) in
        let ylen := Z.of_nat (length Y) in
        if ylen =? 1 then y ← lift (rd Y 0); MultiplySingle Zd X y
        else if ylen <? kKaratsubaThreshold then MultiplySchoolbook Zd X Y
        else if negb V8_ADVANCED_BIGINT_ALGORITHMS then MultiplyKaratsuba Zd X Y
        else if ylen <? kToomThreshold then MultiplyKaratsuba Zd X Y
        else if ylen <? kFftThreshold then MultiplyToomCook (Multiply_rec fuel) Zd X Y
        else multiply_fft Zd X Y
  end.

Definition Multiply (Zd X Y : digits) : PM digits := Multiply_rec 3 Zd X Y.

(** ** Correctness *)

(** Length of the shorter operand, as the dispatch sees it. *)
Definition min_len X Y : nat := (length (Normalize X) `min` length (Normalize Y))%nat.

(** The lengths must be [int]s, with room for the scratch space of the algorithms. *)
Definition mul_lengths X Y : Prop :=
  int_len X /\ int_len Y /\ Z.of_nat (min_len X Y) < 2 ^ 28.

Lemma exact_mul_le L L' mul : (L' <= L)%nat -> exact_mul L mul -> exact_mul L' mul.
Proof. intros Hle Hmul Zd X Y p ? ? ? ? ? ?. apply Hmul; (done || lia). Qed.

Lemma third_le m n : (m <= n)%nat -> (third m <= third n)%nat.
Proof.
  intros Hmn. unfold third, DIV_CEIL.
  pose proof (Z.div_le_mono (Z.of_nat m - 1) (Z.of_nat n - 1) 3). lia.
Qed.

Definition product_post (Zd X Y : digits) (p : ProcessorImpl) (Z' : digits) (p' : ProcessorImpl) : Prop :=
  status_le p p' /\ length Z' = length Zd /\ digits_ok Z' /\ val Z' = val X * val Y.

(** One level of the dispatch, below the FFT threshold. *)
Lemma Multiply_rec_step fuel Zd X Y p :
  steady p -> digits_ok Zd -> digits_ok X -> digits_ok Y -> mul_lengths X Y ->
  (length (Normalize X) + length (Normalize Y) <= length Zd)%nat ->
  (V8_ADVANCED_BIGINT_ALGORITHMS = true -> Z.of_nat (min_len X Y) < kFftThreshold) ->
  (V8_ADVANCED_BIGINT_ALGORITHMS = true -> kToomThreshold <= Z.of_nat (min_len X Y) ->
     exact_mul (third (min_len X Y) + 1) (Multiply_rec fuel)) ->
  wpP (Multiply_rec (S fuel) Zd X Y) p (product_post Zd X Y p).
Proof.
  intros Hst HZ HX HY (HiX & HiY & Hmin) HlZ Hfft Htoom. unfold min_len, int_len in *.
  cbn [Multiply_rec]. unfold product_post. rewrite <- (val_Normalize X), <- (val_Normalize Y).
  pose proof (length_Normalize X). pose proof (length_Normalize Y).
  pose proof (normalized_Normalize X) as NX. pose proof (normalized_Normalize Y) as NY.
  apply digits_ok_Normalize in HX, HY.
  set (X' := Normalize X) in *. set (Y' := Normalize Y) in *.
  case_bool_decide as Hz.
  { destruct (Clear_spec Zd) as (? & ? & E). apply wpP_ret. rewrite E.
    split_and!; [by auto with digits | done | done|].
    destruct Hz as [Hz | Hz]; [destruct X' | destruct Y']; try done; cbn [val]; lia. }
  assert (forall A B, digits_ok A -> digits_ok B -> normalized A -> normalized B ->
    (length B <= length A)%nat -> (0 < length B)%nat -> Z.of_nat (length A) < 2 ^ 31 ->
    length B = (length X' `min` length Y')%nat -> (length A + length B <= length Zd)%nat ->
    wpP (if Z.of_nat (length B) =? 1 then y ← lift (rd B 0); MultiplySingle Zd A y
         else if Z.of_nat (length B) <? kKaratsubaThreshold then MultiplySchoolbook Zd A B
         else if negb V8_ADVANCED_BIGINT_ALGORITHMS then MultiplyKaratsuba Zd A B
         else if Z.of_nat (length B) <? kToomThreshold then MultiplyKaratsuba Zd A B
         else if Z.of_nat (length B) <? kFftThreshold then MultiplyToomCook (Multiply_rec fuel) Zd A B
         else multiply_fft Zd A B) p (product_post Zd A B p)) as Hcore.
  { intros A B HA HB NA NB Hl HB0 HiA EB HlAB. rewrite <- EB in *.
    destruct (Z.eqb_spec (Z.of_nat (length B)) 1) as [H1' | H1'].
    { destruct B as [|b []]; cbn [length] in H1'; try lia.
      unfold rd. cbn [lookup list_lookup]. apply wpP_bind, wpP_lift, wp_Ok.
      wpP_apply MultiplySingle_spec; [done | by apply (Forall_inv HB) | by intros -> | simpl in *; lia |].
      intros V p' (? & ? & ? & E). unfold product_post. cbn [val]. rewrite E. split_and!; (done || lia). }
    destruct (Z.ltb_spec (Z.of_nat (length B)) kKaratsubaThreshold) as [Hk | Hk].
    { apply MultiplySchoolbook_spec; unfold int_len; (done || lia). }
    unfold kKaratsubaThreshold in Hk.
    destruct V8_ADVANCED_BIGINT_ALGORITHMS eqn:Eadv; cbn [negb].
    2: { apply MultiplyKaratsuba_spec; unfold int_len; (done || lia). }
    specialize (Hfft eq_refl). specialize (Htoom eq_refl).
    destruct (Z.ltb_spec (Z.of_nat (length B)) kToomThreshold) as [Ht | Ht].
    { apply MultiplyKaratsuba_spec; unfold int_len; (done || lia). }
    destruct (Z.ltb_spec (Z.of_nat (length B)) kFftThreshold); [|lia].
    apply MultiplyToomCook_spec; try (done || lia). by apply Htoom. }
  case_bool_decide.
  - rewrite (Z.mul_comm (val X')). apply Hcore; (done || lia).
  - apply Hcore; (done || lia).
Qed.

Lemma min_len_le X Y L : (length X <= L)%nat -> (min_len X Y <= L)%nat.
Proof. unfold min_len. pose proof (length_Normalize X). lia. Qed.

(** With the advanced algorithms: exact products while Toom-Cook needs at most [fuel - 1]
    levels. *)
Lemma Multiply_rec_exact fuel L :
  V8_ADVANCED_BIGINT_ALGORITHMS = true -> Z.of_nat L < kFftThreshold ->
  (Z.of_nat L < kToomThreshold \/ exact_mul (third L + 1) (Multiply_rec fuel)) ->
  exact_mul L (Multiply_rec (S fuel)).
Proof.
  intros Hadv HL Hrec Zd X Y p HZ HX HY HlX HlY HlZ.
  pose proof (min_len_le X Y L HlX) as Hmin. unfold kFftThreshold, kToomThreshold in *.
  pose proof (length_Normalize X). pose proof (length_Normalize Y).
  apply Multiply_rec_step; try done.
  - by left.
  - unfold mul_lengths, int_len. lia.
  - lia.
  - unfold kFftThreshold. lia.
  - intros _ Ht. unfold kToomThreshold in Ht. destruct Hrec as [? | Hrec]; [lia|].
    eapply exact_mul_le; [|exact Hrec]. pose proof (third_le _ _ Hmin). lia.
Qed.

Lemma Multiply_exact_small L :
  V8_ADVANCED_BIGINT_ALGORITHMS = true -> Z.of_nat L < 190 * 3 -> exact_mul L (Multiply_rec 2).
Proof.
  intros Hadv HL. apply Multiply_rec_exact; [done | unfold kFftThreshold; lia |]. right.
  apply Multiply_rec_exact; [done | | left].
  all: unfold kFftThreshold, kToomThreshold, third, DIV_CEIL;
    pose proof (Z.div_lt_upper_bound (Z.of_nat L - 1) 3 190); lia.
Qed.

(** [Multiply] computes the product of any two vectors the shorter of which is below
    the FFT threshold (of any two vectors without the advanced algorithms). *)
Lemma Multiply_spec Zd X Y p :
  steady p -> digits_ok Zd -> digits_ok X -> digits_ok Y -> mul_lengths X Y ->
  (length (Normalize X) + length (Normalize Y) <= length Zd)%nat ->
  (V8_ADVANCED_BIGINT_ALGORITHMS = true -> Z.of_nat (min_len X Y) < kFftThreshold) ->
  wpP (Multiply Zd X Y) p (product_post Zd X Y p).
Proof.
  intros Hst HZ HX HY Hlen HlZ Hfft. apply Multiply_rec_step; try done.
  intros Hadv _. specialize (Hfft Hadv). unfold kFftThreshold in Hfft.
  apply Multiply_exact_small; [done|]. unfold third, DIV_CEIL.
  pose proof (Z.div_lt_upper_bound (Z.of_nat (min_len X Y) - 1) 3 500). lia.
Qed.

(** ** The interface to the other algorithms *)

(** What the division and conversion algorithms rely on: [Multiply] never faults on
    operands of at most [L] digits, and its result is the product unless an interrupt
    was requested. *)
Class Multiplier (L : nat) : Prop :=
  multiply_correct : forall Zd X Y p,
    steady p -> digits_ok Zd -> digits_ok X -> digits_ok Y ->
    (length X <= L)%nat -> (length Y <= L)%nat ->
    (length (Normalize X) + length (Normalize Y) <= length Zd)%nat ->
    wpP (Multiply Zd X Y) p (fun Z' p' => status_le p p' /\ length Z' = length Zd /\
      digits_ok Z' /\ (status_ p' = kOk -> val Z' = val X * val Y)).

Lemma Multiplier_below_fft L :
  Z.of_nat L < 2 ^ 28 -> (V8_ADVANCED_BIGINT_ALGORITHMS = true -> Z.of_nat L < kFftThreshold) ->
  Multiplier L.
Proof.
  intros HL Hfft Zd X Y p Hst HZ HX HY HlX HlY HlZ. pose proof (min_len_le X Y L HlX).
  wpP_apply Multiply_spec; try done.
  - unfold mul_lengths, int_len. lia.
  - intros Hadv. specialize (Hfft Hadv). lia.
  - intros Z' p' (? & ? & ? & ?). split_and!; done.
Qed.
End multiply.
