(* ===== verification/FftMultiply.v ===== *)
(** [Multiply] and [MultiplyFFT] together: the bounds on the parameters close the recursion
    between the dispatch of [src/bigint/bigint-internal.cc] and [src/bigint/mul-fft.cc], so
    that [Multiply] is correct for long operands too. *)

From Stdlib Require Import ZArith Lia.
From stdpp Require Import base tactics numbers list option.
From S2P Require Import Prelude Digit Digits VectorArithmetic Processor MulSchoolbook MulKaratsuba MulToom MulFft FftMod FftAlgebra FftPointwise FftInner FftOuter FftParameters Multiply.

#[local] Open Scope Z_scope.

Section fft_multiply.
Context `{Config, Platform}.
Context {alloc : Allocator} {pointers : PointerEquality}.

(** ** Bounds for the parameters *)

(** What [GetParameters] returns is what the transformation relies on. *)
Lemma parameters_outer N m P :
  Z.of_nat N <= 2 ^ 26 -> 2 <= m <= 24 -> parameters_ok (Z.of_nat N) m P -> (0 < N)%nat -> outer_params N m P.
Proof.
  intros HN Hm HP HN0. pose proof (parameters_int (Z.of_nat N) m P ltac:(lia) ltac:(lia) HP) as HK. destruct HP as [En Hs Hfit _ [Hr Er] Hroom _].
  exists (Z.to_nat m), (Z.to_nat (param_K P)), (Z.to_nat (param_s P)), (param_r P), (param_m P).
  rewrite !pow_of_nat, !Z2Nat.id by lia. rewrite Nat2Z.inj_sub, Z2Nat.id by lia. change (Z.of_nat 1) with 1.
  split_and!; try done; try lia.
  - rewrite <- En. by destruct P.
  - apply Nat2Z.inj_le. rewrite Nat2Z.inj_mul, pow_of_nat, !Z2Nat.id by lia. done.
Qed.

(** Chunks stay below the FFT threshold, so that both operands have a full chunk. *)
Lemma chunks_below_threshold N m P :
  0 < N <= 2 ^ 18 * kDigitBits -> 2 <= m <= max_m N -> short_chunks N (max_m N) m P -> param_s P <= 1026.
Proof.
  intros HN Hm [Hs | (Hmx & s & Hs2 & Hleast & Hs)]; [lia|]. destruct kDigitBits_pow2 as [Ekb Hlog]. pose proof kDigitBits_cases as Hkb.
  destruct (max_m_spec N) as (H24 & _ & _); [lia|].
  destruct (Z.le_gt_cases (m + 1) (8 + kLog2DigitBits)) as [Hle | Hgt].
  - assert (2 ^ m <= 2 ^ (7 + kLog2DigitBits)) as Hp by (apply Z.pow_le_mono_r; lia). rewrite Z.pow_add_r, <- Ekb in Hp by lia. change (2 ^ 7) with 128 in Hp. nia.
  - assert (2 ^ (9 + kLog2DigitBits) <= 2 ^ (m + 1)) as Hp by (apply Z.pow_le_mono_r; lia). rewrite Z.pow_add_r, <- Ekb in Hp by lia. change (2 ^ 9) with 512 in Hp. nia.
Qed.

(** The parts, for products of at most [2^18] words, and for those of the parts. *)
Lemma part_bounds N m P :
  0 < N <= 2 ^ 18 * kDigitBits -> 2 <= m <= max_m N -> parameters_ok N m P -> short_chunks N (max_m N) m P ->
  param_K P < 34900 /\ (N <= 70000 -> param_K P < 2400) /\ (N <= 5000 -> param_K P < 1400).
Proof.
  intros HN Hm HP Hshort. pose proof (chunks_below_threshold N m P HN Hm Hshort) as Hs. pose proof (parameters_K _ _ _ HP) as HK. pose proof kDigitBits_cases as Hkb.
  destruct (max_m_spec N) as (H24 & _ & Hmax); [lia|].
  assert (2 ^ m <= kDigitBits `max` (N / 4)) as Hn. { assert (2 ^ m <= 2 ^ max_m N) by (apply Z.pow_le_mono_r; lia). lia. }
  assert (2 * 2 ^ (m - 1) = 2 ^ m) as Eh by (rewrite <- Z.pow_succ_r by lia; f_equal; lia).
  pose proof (Z.mul_div_le N 4 ltac:(lia)). split_and!; [lia | lia|]. intros HN5.
  assert (param_s P <= 248); [|lia]. destruct Hshort as [? | (Hmx & s & Hs2 & _ & Hs')]; [done|].
  assert (2 ^ (m + 1) <= kDigitBits `max` (N / 4)) as Hn'. { assert (2 ^ (m + 1) <= 2 ^ max_m N) by (apply Z.pow_le_mono_r; lia). lia. }
  rewrite Z.pow_add_r in Hn' by lia. lia.
Qed.

(** ** The dispatch *)

(** Long operands go to [MultiplyFFT], normalized and with the longer one first. *)
Lemma Multiply_long (fft : FftMultiplier) Zd X Y p (Q : digits -> ProcessorImpl -> Prop) :
  V8_ADVANCED_BIGINT_ALGORITHMS = true -> kFftThreshold <= Z.of_nat (min_len X Y) ->
  (forall A B, digits_ok X -> digits_ok Y -> (A = Normalize X /\ B = Normalize Y) \/ (A = Normalize Y /\ B = Normalize X) -> wpP (multiply_fft Zd A B) p Q) ->
  digits_ok X -> digits_ok Y -> wpP (Multiply Zd X Y) p Q.
Proof.
  intros Hadv Hmin HQ HX HY. unfold min_len, kFftThreshold in Hmin. unfold Multiply. cbn [Multiply_rec]. rewrite bool_decide_false by lia.
  assert (forall A B, Z.of_nat (length B) >= 1500 -> wpP (multiply_fft Zd A B) p Q ->
    wpP (if Z.of_nat (length B) =? 1 then y ← lift (rd B 0); MultiplySingle Zd A y
         else if Z.of_nat (length B) <? kKaratsubaThreshold then MultiplySchoolbook Zd A B
         else if negb V8_ADVANCED_BIGINT_ALGORITHMS then MultiplyKaratsuba Zd A B
         else if Z.of_nat (length B) <? kToomThreshold then MultiplyKaratsuba Zd A B
         else if Z.of_nat (length B) <? kFftThreshold then MultiplyToomCook (Multiply_rec 2) Zd A B
         else multiply_fft Zd A B) p Q) as Hgo.
  { intros A B HB Hfft. rewrite Hadv. unfold kKaratsubaThreshold, kToomThreshold, kFftThreshold. cbn [negb].
    rewrite (proj2 (Z.eqb_neq _ 1)), !(proj2 (Z.ltb_ge _ _)) by lia. done. }
  case_bool_decide; apply Hgo; try lia; apply HQ; auto.
Qed.

(** One level: if the products of the parts are right, so are those of long operands. *)
Section level.
Context (mul : digits -> digits -> digits -> PM digits) (L : nat) (Hmul : mul_ok L mul).

(** The parts of a product of at most [N] digits are short enough for [mul]. *)
Definition parts_below (N : Z) : Prop :=
  forall N' m P, 3000 <= N' <= N -> 2 <= m <= max_m N' -> parameters_ok N' m P -> short_chunks N' (max_m N') m P -> param_K P < Z.of_nat L.

Lemma MultiplyFFT_level Zd X Y p :
  parts_below (Z.of_nat (length X) + Z.of_nat (length Y)) -> Z.of_nat (length X) + Z.of_nat (length Y) <= 2 ^ 18 * kDigitBits ->
  kFftThreshold <= Z.of_nat (length X) -> kFftThreshold <= Z.of_nat (length Y) ->
  steady p -> digits_ok Zd -> digits_ok X -> digits_ok Y -> (length X + length Y <= length Zd)%nat ->
  wpP (MultiplyFFT mul Zd X Y) p (fun Z' p' => status_le p p' /\ length Z' = length Zd /\ digits_ok Z' /\ (status_ p' = kOk -> val Z' = val X * val Y)).
Proof.
  unfold kFftThreshold. intros HK HN HlX HlY Hst HZ HX HY HlZ. pose proof kDigitBits_cases as Hkb. set (N := Z.of_nat (length X) + Z.of_nat (length Y)) in *.
  pose proof (GetParameters_spec N ltac:(lia)) as Hget. destruct (GetParameters N) as [[m P]|] eqn:Eget; [|done]. cbn in Hget. destruct Hget as (Hm & HP & Hshort).
  pose proof (chunks_below_threshold N m P ltac:(lia) Hm Hshort) as Hs. destruct (max_m_spec N) as (H24 & _ & _); [lia|].
  pose proof (HK N m P ltac:(lia) Hm HP Hshort) as HKL. pose proof (parameters_s _ _ _ HP) as Hs0.
  pose proof (parameters_int N m P ltac:(lia) ltac:(lia) HP) as HKint.
  apply (MultiplyFFT_spec mul L Hmul ComputeParameters_Inner_spec Zd X Y p m P); try done; try lia.
  apply parameters_outer; [lia | lia | by rewrite Nat2Z.inj_add | lia].
Qed.

Lemma Multiply_level (fft : FftMultiplier) Zd X Y p :
  (fft : digits -> digits -> digits -> PM digits) = MultiplyFFT mul ->
  parts_below (Z.of_nat (length X) + Z.of_nat (length Y)) -> Z.of_nat (length X) + Z.of_nat (length Y) <= 2 ^ 18 * kDigitBits ->
  steady p -> digits_ok Zd -> digits_ok X -> digits_ok Y -> (length (Normalize X) + length (Normalize Y) <= length Zd)%nat ->
  wpP (Multiply Zd X Y) p (fun Z' p' => status_le p p' /\ length Z' = length Zd /\ digits_ok Z' /\ (status_ p' = kOk -> val Z' = val X * val Y)).
Proof.
  intros Efft HK HN Hst HZ HX HY HlZ. pose proof kDigitBits_cases as Hkb. pose proof (length_Normalize X). pose proof (length_Normalize Y).
  assert ((V8_ADVANCED_BIGINT_ALGORITHMS = true -> Z.of_nat (min_len X Y) < kFftThreshold) \/
          (V8_ADVANCED_BIGINT_ALGORITHMS = true /\ kFftThreshold <= Z.of_nat (min_len X Y))) as [Hshort | [Hadv Hlong]].
  { destruct V8_ADVANCED_BIGINT_ALGORITHMS; [|by left]. destruct (Z.lt_ge_cases (Z.of_nat (min_len X Y)) kFftThreshold); [by left | by right]. }
  { wpP_apply Multiply_spec; try done.
    - unfold mul_lengths, int_len, min_len. lia.
    - intros Z' p' (? & ? & ? & ?). by split_and!. }
  apply Multiply_long; try done. intros A B _ _ HAB. unfold multiply_fft. rewrite Efft. unfold min_len in Hlong.
  assert (val A * val B = val X * val Y) as <- by (destruct HAB as [[-> ->] | [-> ->]]; rewrite !val_Normalize; lia).
  pose proof (digits_ok_Normalize X HX). pose proof (digits_ok_Normalize Y HY).
  apply MultiplyFFT_level; destruct HAB as [[-> ->] | [-> ->]]; try done; try lia; intros N m P HN'; apply HK; lia.
Qed.
End level.

(** ** The nested calls *)

(** [MultiplyFFT] with at most [depth] nested calls of itself. *)
Fixpoint fft_levels (depth : nat) : FftMultiplier :=
  match depth with
  | O => fun _ _ _ => lift (Err OutOfFuel)
  | S depth => MultiplyFFT (@Multiply _ _ _ (fft_levels depth))
  end.

Lemma Multiplier_level depth L L' :
  @Multiplier _ _ _ (fft_levels depth) L' ->
  parts_below L' (2 * Z.of_nat L) ->
  2 * Z.of_nat L <= 2 ^ 18 * kDigitBits -> @Multiplier _ _ _ (fft_levels (S depth)) L.
Proof.
  intros Hmul HK HL Zd X Y p Hst HZ HX HY HlX HlY HlZ.
  apply (Multiply_level (@Multiply _ _ _ (fft_levels depth)) L' Hmul (fft_levels (S depth))); try done; [|lia].
  intros N m P HN. apply HK. lia.
Qed.

Lemma below_limit N : 0 < N <= 70000 -> N <= 2 ^ 18 * kDigitBits.
Proof. destruct kDigitBits_cases; lia. Qed.

Lemma Multiplier_two_levels : @Multiplier _ _ _ (fft_levels 2) (Z.to_nat 34999).
Proof.
  pose proof kDigitBits_cases as Hkb. apply (Multiplier_level 1 (Z.to_nat 34999) (Z.to_nat 2499)).
  - apply (Multiplier_level 0 (Z.to_nat 2499) (Z.to_nat 1499)).
    + apply Multiplier_below_fft; [lia|]. unfold kFftThreshold. lia.
    + intros N m P HN Hm HP Hs. destruct (part_bounds N m P) as (_ & _ & Hb); try done; [split; [lia | apply below_limit; lia] | lia].
    + lia.
  - intros N m P HN Hm HP Hs. destruct (part_bounds N m P) as (_ & Hb & _); try done; [split; [lia | apply below_limit; lia] | lia].
  - lia.
Qed.

Lemma parts_below_all N : N <= 2 ^ 18 * kDigitBits -> parts_below (Z.to_nat 34999) N.
Proof. intros HN N' m P HN' Hm HP Hs. destruct (part_bounds N' m P) as (Hb & _ & _); (done || lia). Qed.

(** The multiplication of the library: three nested calls are enough for every product of
    at most [2^18] words, a word having [kDigitBits] digits. *)
Definition nested_fft : FftMultiplier := fft_levels 3.

(** Products of at most [2^18] words (16 or 8 million digits): with three nested calls,
    every product of parts is short enough for the next level. *)
Lemma Multiply_all_spec Zd X Y p :
  Z.of_nat (length X) + Z.of_nat (length Y) <= 2 ^ 18 * kDigitBits ->
  steady p -> digits_ok Zd -> digits_ok X -> digits_ok Y -> (length (Normalize X) + length (Normalize Y) <= length Zd)%nat ->
  wpP (@Multiply _ _ _ nested_fft Zd X Y) p (fun Z' p' => status_le p p' /\ length Z' = length Zd /\ digits_ok Z' /\ (status_ p' = kOk -> val Z' = val X * val Y)).
Proof.
  intros HN Hst HZ HX HY HlZ. by apply (Multiply_level (@Multiply _ _ _ (fft_levels 2)) (Z.to_nat 34999) Multiplier_two_levels nested_fft); try done; apply parts_below_all.
Qed.

(** ** The interface to the clients *)

(** Operands that [Multiply] supports whatever the other one is. *)
Definition mul_supported (n : nat) : Prop := V8_ADVANCED_BIGINT_ALGORITHMS = true -> Z.of_nat n <= 2 ^ 17 * kDigitBits.

Lemma Multiplier_supported n : Z.of_nat n < 2 ^ 28 -> mul_supported n -> @Multiplier _ _ _ nested_fft n.
Proof.
  intros Hn Hs. unfold mul_supported in Hs. destruct V8_ADVANCED_BIGINT_ALGORITHMS eqn:Eadv.
  - specialize (Hs eq_refl). intros Zd X Y p Hst HZ HX HY HlX HlY HlZ. apply Multiply_all_spec; (done || lia).
  - apply Multiplier_below_fft; [done|]. by rewrite Eadv.
Qed.
End fft_multiply.
