(* ===== verification/DivSchoolbook.v ===== *)
(** Schoolbook division: [src/bigint/div-schoolbook.cc].  Division by a single digit,
    and Knuth's Algorithm D. *)

From Stdlib Require Import ZArith Lia.
From stdpp Require Import base tactics numbers list option.
From S2P Require Import Prelude Digit Digits VectorArithmetic Processor MulSchoolbook MulKaratsuba DivHelpers.

#[local] Open Scope Z_scope.

Section div_schoolbook.
Context `{Config, Platform}.
Context {alloc : Allocator}.
Implicit Types X Y P R A B Q U : digits.

(** [for (int i = m - 1; i >= 0; i--) Q[i] = digit_div(remainder, A[i], b)]. *)
Definition DivideSingle_loop (m : nat) (Q A : digits) (b remainder : Z) : res (digits * Z) :=
  for_down m (fun i '(Q, remainder) =>
    a ← rd A i;
    '(q, remainder) ← digit_div remainder a b;
    Q ← wr Q i q;
    mret (Q, remainder)) (Q, remainder).

(** [Q] may be the same vector as [A]: digit [i] of [A] is read before digit [i] of
    [Q] is written, so the contents [A] has on entry are what the loop reads. *)
Definition DivideSingle (Q A : digits) (b : Z) : res (digits * Z) :=
  dcheck (negb (b =? 0));;
  dcheck (bool_decide (0 < length A)%nat);;
  let len := length A in
  if bool_decide (length Q <> 0)%nat then
    top ← rd A (len - 1);
    if b <=? top then
      dcheck (bool_decide (length A <= length Q)%nat);;
      '(Q, remainder) ← DivideSingle_loop len Q A b 0;
      Q ← zero_from len Q;
      mret (Q, remainder)
    else
      dcheck (bool_decide (length A - 1 <= length Q)%nat);;
      '(Q, remainder) ← DivideSingle_loop (len - 1) Q A b top;
      Q ← zero_from (len - 1) Q;
      mret (Q, remainder)
  else
    remainder ← for_down len (fun i remainder =>
      a ← rd A i; '(_, remainder) ← digit_div remainder a b; mret remainder) 0;
    mret (Q, remainder).

Definition InplaceAdd (Zd X : digits) : res (digits * Z) := AddAndReturnCarry Zd Zd X.
Definition InplaceSub (Zd X : digits) : res (digits * Z) := SubtractAndReturnBorrow Zd Zd X.

Definition ProductGreaterThan (factor1 factor2 high low : Z) : bool :=
  let '(result_low, result_high) := digit_mul factor1 factor2 in
  (high <? result_high) || ((result_high =? high) && (low <? result_low)).

Definition QLengthOK (Q A B : digits) : res bool :=
  ge ← GreaterThanOrEqual (Digits_slice A (length A - length B) (length B)) B;
  if (ge : bool) then mret (bool_decide (length A - length B + 1 <= length Q)%nat)
  else mret (bool_decide (length A - length B <= length Q)%nat).

(** [while (ProductGreaterThan(qhat, vn2, rhat, ujn2)) ...].  [vn1] has its top bit
    set, so [rhat] overflows in the second round at the latest. *)
Fixpoint adjust_qhat (fuel : nat) (vn1 vn2 ujn2 qhat rhat : Z) : res Z :=
  match fuel with
  | O => Err OutOfFuel
  | S fuel =>
      if ProductGreaterThan qhat vn2 rhat ujn2 then
        let qhat := wrap (qhat - 1) in
        let prev_rhat := rhat in
        let rhat := wrap (rhat + vn1) in
        if rhat <? prev_rhat then mret qhat
        else adjust_qhat fuel vn1 vn2 ujn2 qhat rhat
      else mret qhat
  end.

(** Step D3: the estimate of quotient digit [j]. *)
Definition estimate_qhat (U B : digits) (j : nat) : res Z :=
  let n := length B in
  vn1 ← rd B (n - 1);
  ujn ← rd U (j + n);
  if negb (ujn =? vn1) then
    ujn1 ← rd U (j + n - 1);
    '(qhat, rhat) ← digit_div ujn ujn1 vn1;
    vn2 ← rd B (n - 2);
    ujn2 ← rd U (j + n - 2);
    adjust_qhat 3 vn1 vn2 ujn2 qhat rhat
  else mret (digit_base - 1).

(** Step D4: subtract [qhat * B] at [j], and add [B] back if that was too much. *)
Definition subtract_qhat (U B qhatv : digits) (j : nat) (qhat : Z) : res (digits * Z) :=
  let n := length B in
  '(U, c) ← on_tail U j (fun V => InplaceSub V qhatv);
  if negb (c =? 0) then
    '(U, c) ← on_tail U j (fun V => InplaceAdd V B);
    u ← rd U (j + n);
    U ← wr U (j + n) (wrap (u + c));
    mret (U, wrap (qhat - 1))
  else mret (U, qhat).

(** One round of the main loop; the locals are [Q], [U] and [qhatv]. *)
Definition DivideSchoolbook_round (B : digits) (j : nat) (st : digits * digits * digits)
    : PM (digits * digits * digits) :=
  let '(Q, U, qhatv) := st in
  qhat ← lift (estimate_qhat U B j);
  qhatv ← (if qhat =? 0 then mret (Clear qhatv) else MultiplySingle qhatv B qhat);
  '(U, qhat) ← lift (subtract_qhat U B qhatv j qhat);
  if bool_decide (length Q <> 0)%nat then
    if bool_decide (length Q <= j)%nat then
      lift (dcheck (qhat =? 0));; mret (Q, U, qhatv)
    else
      Q ← lift (wr Q j qhat); mret (Q, U, qhatv)
  else mret (Q, U, qhatv).

(** [for (int j = m; j >= 0; j--)], for [k = m + 1] rounds. *)
Fixpoint DivideSchoolbook_loop (k : nat) (B : digits) (st : digits * digits * digits)
    : PM (digits * digits * digits) :=
  match k with
  | O => mret st
  | S j => st ← DivideSchoolbook_round B j st; DivideSchoolbook_loop j B st
  end.

Definition DivideSchoolbook (Q R A B : digits) : PM (digits * digits) :=
  lift (dcheck (bool_decide (2 <= length B)%nat));;
  lift (dcheck (bool_decide (length B <= length A)%nat));;
  qok ← lift (if bool_decide (length Q = 0)%nat then mret true else QLengthOK Q A B);
  lift (dcheck qok);;
  lift (dcheck (bool_decide (length R = 0 \/ length B <= length R)%nat));;
  let n := length B in
  let m := (length A - n)%nat in
  let qhatv := uninitialized (n + 1) in
  b_normalized ← lift (ShiftedDigits_new B (-1) false);
  let B := sd_digits b_normalized in
  U ← lift (LeftShift (uninitialized (length A + 1)) A (shift_ b_normalized));
  '(Q, U, qhatv) ← DivideSchoolbook_loop (S m) B (Q, U, qhatv);
  R ← (if bool_decide (length R <> 0)%nat
       then lift (RightShift R U (shift_ b_normalized)) else mret R);
  Q ← lift (zero_from (m + 1) Q);
  mret (Q, R).

(** ** Division by a digit *)

Lemma slice_insert_cons (l : list Z) i n x :
  (i < length l)%nat -> slice (<[i := x]> l) i (S n) = x :: slice l (S i) n.
Proof.
  intros Hi. rewrite (slice_cons _ i n x) by (by apply list_lookup_insert_eq).
  unfold slice. by rewrite drop_insert_lt by lia.
Qed.

Lemma digits_ok_insert X i d : digits_ok X -> is_digit d -> digits_ok (<[i := d]> X).
Proof. intros. by apply Forall_insert. Qed.

(** Dividing the digits of [A] below [m], with the remainder [r] of the part above. *)
Lemma DivideSingle_loop_spec m Q A b r :
  digits_ok Q -> digits_ok A -> is_digit b -> 0 <= r < b ->
  (m <= length A)%nat -> (m <= length Q)%nat ->
  wp (DivideSingle_loop m Q A b r) (fun '(Q', r') =>
    length Q' = length Q /\ digits_ok Q' /\ 0 <= r' < b /\
    val (take m A) + bpow m * r = val (take m Q') * b + r').
Proof.
  intros HQ HA Hb Hr HmA HmQ. unfold DivideSingle_loop.
  eapply wp_mono; [apply (wp_for_down (fun i '(Q', r') =>
    length Q' = length Q /\ digits_ok Q' /\ 0 <= r' < b /\
    val (slice A i (m - i)) + bpow (m - i) * r = val (slice Q' i (m - i)) * b + r'))|].
  - rewrite Nat.sub_diag. unfold slice. rewrite !take_0. change (bpow 0) with 1.
    cbn [val]. split_and!; (done || lia).
  - intros i [Q' r'] Hi (Hl & HQ' & Hr' & HV).
    apply wp_bind, wp_rd; [lia | done|]. intros a Ha Hda.
    apply wp_bind. eapply wp_mono; [apply digit_div_spec; [| done | done | lia]|].
    { unfold is_digit in *. lia. }
    intros [q r''] (E & Hr'' & Hq). apply wp_bind, wp_wr; [lia|]. apply wp_ret.
    rewrite length_insert. replace (m - i)%nat with (S (m - S i)) by lia.
    rewrite slice_insert_cons, (slice_cons _ _ _ _ Ha), bpow_S by lia. cbn [val].
    split_and!; [done | by apply digits_ok_insert | lia | lia |].
    apply (f_equal (Z.mul digit_base)) in HV. lia.
  - intros [Q' r'] (Hl & HQ' & Hr' & HV). rewrite Nat.sub_0_r in HV. unfold slice in HV.
    rewrite !drop_0 in HV. split_and!; (done || lia).
Qed.

Lemma wp_DivideSingle_finish m Q' Q A b r (Post : digits * Z -> Prop) :
  length Q' = length Q -> digits_ok Q' -> 0 <= r < b -> val A = val (take m Q') * b + r ->
  (forall Q'', length Q'' = length Q -> digits_ok Q'' -> val Q'' = val A / b -> r = val A mod b ->
     Post (Q'', r)) ->
  wp (Q ← zero_from m Q'; mret (Q, r)) Post.
Proof.
  intros Hl HQ' Hr E HP. apply wp_bind, wp_zero_from_take, wp_ret.
  destruct (div_mod_unique (val A) b (val (take m Q')) r) as [Eq Er]; [done | lia |].
  apply HP; [| by auto with digits | by rewrite val_app_zeros | done].
  rewrite length_app, length_take, length_replicate. lia.
Qed.

Lemma val_last_digit A :
  A <> [] -> exists d, A !! (length A - 1)%nat = Some d /\
    val A = val (take (length A - 1) A) + bpow (length A - 1) * d.
Proof.
  intros Hne. destruct (exists_last Hne) as (A' & d & ->). exists d.
  rewrite length_app. simpl. replace (length A' + 1 - 1)%nat with (length A') by lia.
  rewrite take_app_length, val_snoc. split; [|done].
  by rewrite lookup_app_r, Nat.sub_diag by lia.
Qed.

Lemma DivideSingle_spec Q A b :
  digits_ok Q -> digits_ok A -> A <> [] -> is_digit b -> b <> 0 ->
  Q = [] \/ (length A <= length Q)%nat \/ (length A - 1 <= length Q)%nat /\ val A < b * bpow (length A - 1) ->
  wp (DivideSingle Q A b) (fun '(Q', r) =>
    length Q' = length Q /\ digits_ok Q' /\ (Q <> [] -> val Q' = val A / b) /\ r = val A mod b).
Proof.
  intros HQ HA Hne Hb Hb0 HlQ. unfold DivideSingle.
  apply wp_bind, wp_dcheck; [by apply negb_true_iff, Z.eqb_neq|].
  assert (0 < length A)%nat as HlA by (destruct A; [done | simpl; lia]).
  apply wp_bind, wp_dcheck_decide; [done|].
  assert (0 <= 0 < b) as Hr0 by (unfold is_digit in Hb; lia).
  case_bool_decide as HQ0.
  2: { (* only the remainder *)
    apply wp_bind. eapply wp_mono; [apply (wp_for_down (fun i r =>
      0 <= r < b /\ exists q, val (drop i A) = q * b + r))|].
    - rewrite drop_ge by done. split; [done|]. exists 0. simpl. lia.
    - intros i r Hi (Hr & q & Eq). apply wp_bind, wp_rd; [lia | done|]. intros a Ha Hda.
      apply wp_bind. eapply wp_mono; [apply digit_div_spec; [| done | done | lia]|].
      { unfold is_digit in *. lia. }
      intros [q' r'] (E & Hr' & _). apply wp_ret. split; [done|]. exists (q' + digit_base * q).
      rewrite (val_drop_S _ _ _ Ha). lia.
    - intros r (Hr & q & Eq). rewrite drop_0 in Eq. apply wp_ret.
      destruct (div_mod_unique (val A) b q r) as [_ ->]; [done | lia |].
      split_and!; [done | done | by intros ?; destruct Q | done]. }
  destruct (val_last_digit A Hne) as (top & Htop & EA).
  apply wp_bind, wp_rd; [lia | done|]. intros ? Htop' Hdtop.
  rewrite Htop in Htop'. injection Htop' as <-.
  destruct (Z.leb_spec b top) as [Hge | Hlt].
  - assert (length A <= length Q)%nat.
    { destruct HlQ as [-> | [? | [_ Hv]]]; [done | done |].
      pose proof (val_nonneg _ (digits_ok_take (length A - 1) A HA)).
      pose proof (bpow_pos (length A - 1)). nia. }
    apply wp_bind, wp_dcheck_decide; [done|].
    apply wp_bind. eapply wp_mono; [by apply DivideSingle_loop_spec|].
    intros [Q' r'] (Hl & HQ' & Hr' & HV). rewrite (take_ge A) in HV by done.
    eapply (wp_DivideSingle_finish _ Q' Q A b); [done | done | done | lia |].
    intros. split_and!; done.
  - apply wp_bind, wp_dcheck_decide; [destruct HlQ as [-> | [? | [? _]]]; [done | lia | lia]|].
    apply wp_bind. eapply wp_mono; [apply DivideSingle_loop_spec; try done; unfold is_digit in *; try lia|].
    { destruct HlQ as [-> | [? | [? _]]]; [done | lia | lia]. }
    intros [Q' r'] (Hl & HQ' & Hr' & HV).
    eapply (wp_DivideSingle_finish _ Q' Q A b); [done | done | done | lia |].
    intros. split_and!; done.
Qed.

(** ** Algorithm D: the quotient digit *)

Lemma ProductGreaterThan_spec f1 f2 high low :
  is_digit f1 -> is_digit f2 -> is_digit high -> is_digit low ->
  ProductGreaterThan f1 f2 high low = (high * digit_base + low <? f1 * f2).
Proof.
  intros H1' H2' Hh Hl. unfold ProductGreaterThan.
  destruct (digit_mul_spec f1 f2) as (lo & hi & -> & E & Hlo & Hhi); [done..|].
  unfold is_digit in *. rewrite <- E. apply eq_true_iff_eq.
  rewrite orb_true_iff, andb_true_iff, !Z.ltb_lt, Z.eqb_eq. nia.
Qed.

(** The loop turns an estimate that is not too small into the quotient of the top three
    digits of the dividend by the top two of the divisor. *)
Lemma adjust_qhat_spec fuel vn1 vn2 ujn2 (U2 : Z) qhat rhat :
  is_digit vn1 -> is_digit vn2 -> is_digit ujn2 -> is_digit qhat -> is_digit rhat ->
  0 < vn1 -> (0 < fuel)%nat -> digit_base <= rhat + Z.of_nat fuel * vn1 ->
  qhat * vn1 + rhat = U2 ->
  (U2 * digit_base + ujn2) / (vn1 * digit_base + vn2) <= qhat ->
  wp (adjust_qhat fuel vn1 vn2 ujn2 qhat rhat) (fun q =>
    q = (U2 * digit_base + ujn2) / (vn1 * digit_base + vn2)).
Proof.
  intros Hv1 Hv2 Hu2. revert qhat rhat.
  induction fuel as [|fuel IH]; intros qhat rhat Hq Hr Hv10 Hf Hfuel EU Hge; [lia|].
  cbn [adjust_qhat]. rewrite ProductGreaterThan_spec by done. pose proof digit_base_ge.
  set (V2 := vn1 * digit_base + vn2) in *. set (U3 := U2 * digit_base + ujn2) in *.
  unfold is_digit in *. assert (0 < V2) as HV2 by (unfold V2; nia).
  pose proof (Z.div_mod U3 V2 ltac:(lia)) as Hdm. pose proof (Z.mod_pos_bound U3 V2 HV2) as Hmb.
  destruct (Z.ltb_spec (rhat * digit_base + ujn2) (qhat * vn2)) as [Hgt | Hle].
  - assert (U3 < qhat * V2) as HU by (unfold U3, V2; rewrite <- EU; nia).
    assert (U3 / V2 <= qhat - 1) by (apply Z.lt_le_pred, Z.div_lt_upper_bound; lia).
    assert (0 < qhat) by nia.
    rewrite (wrap_small (qhat - 1)) by (unfold is_digit; lia).
    destruct (Z.lt_ge_cases (rhat + vn1) digit_base) as [Hno | Hov].
    + rewrite (wrap_small (rhat + vn1)) by (unfold is_digit; lia).
      destruct (Z.ltb_spec (rhat + vn1) rhat); [lia|].
      apply IH; (done || lia).
    + assert (wrap (rhat + vn1) = rhat + vn1 - digit_base) as ->.
      { apply mod_eq_of_bounds; [lia|]. exists 1. lia. }
      destruct (Z.ltb_spec (rhat + vn1 - digit_base) rhat); [|lia].
      apply wp_ret. apply Z.le_antisymm; [|lia].
      apply Z.div_le_lower_bound; [done|]. unfold U3, V2. rewrite <- EU. nia.
  - apply wp_ret. apply Z.le_antisymm; [|done].
    apply Z.div_le_lower_bound; [done|]. unfold U3, V2. rewrite <- EU. nia.
Qed.

(** Knuth's bound: the three-by-two quotient is the quotient digit or one more. *)
Lemma three_by_two_error (V2 v0 U3 u0 w b : Z) :
  0 < V2 -> 0 <= v0 < w -> 0 <= u0 < w -> U3 / V2 < b -> b * w <= V2 * w + v0 -> 0 <= U3 ->
  let q := U3 / V2 in
  U3 * w + u0 < (q + 1) * (V2 * w + v0) /\ (q - 1) * (V2 * w + v0) <= U3 * w + u0.
Proof.
  intros HV2 Hv0 Hu0 Hqb HbV HU q.
  pose proof (Z.div_mod U3 V2 ltac:(lia)) as Hdm. pose proof (Z.mod_pos_bound U3 V2 HV2) as Hmb.
  fold q in Hdm, Hqb. assert (0 <= q) by (apply Z.div_pos; lia). clearbody q.
  split; [|nia].
  assert (U3 + 1 <= (q + 1) * V2) by lia. nia.
Qed.

Lemma top_digit_big (w D v0 vn1 vn2 h : Z) :
  D = 2 * h -> 0 < w -> 0 <= v0 < w -> 0 <= vn2 < D -> 0 <= vn1 ->
  w * (D * D) <= 2 * (v0 + w * (vn1 * D + vn2)) -> D <= 2 * vn1.
Proof.
  intros ED Hw Hv0 Hv2 Hv1 HV.
  assert (D * D < 2 * (vn1 + 1) * D) as HD.
  { apply (mul_lt_cancel _ _ w); [done|].
    assert (w * vn2 <= w * (D - 1)) by (apply Z.mul_le_mono_nonneg_l; lia). lia. }
  apply mul_lt_cancel in HD; lia.
Qed.

Lemma top_digit_le (w D v0 vn1 vn2 u0 ujn ujn1 ujn2 : Z) :
  0 < w -> 0 < D -> 0 <= v0 < w -> 0 <= vn2 < D -> 0 <= u0 -> 0 <= ujn1 -> 0 <= ujn2 ->
  u0 + w * ((ujn * D + ujn1) * D + ujn2) < (v0 + w * (vn1 * D + vn2)) * D -> ujn <= vn1.
Proof.
  intros Hw HD Hv0 Hv2 Hu0 Hu1 Hu2 HW.
  assert (w * vn2 <= w * (D - 1)) by (apply Z.mul_le_mono_nonneg_l; lia).
  assert (0 <= w * ujn2) by (apply Z.mul_nonneg_nonneg; lia).
  assert (0 <= w * ujn1 * D) by (repeat apply Z.mul_nonneg_nonneg; lia).
  assert (ujn * D < (vn1 + 1) * D) as Hlt; [|apply mul_lt_cancel in Hlt; lia].
  apply (mul_lt_cancel _ _ (w * D)); [by apply Z.mul_pos_pos|].
  assert ((v0 + w * (vn1 * D + vn2)) * D < (w + w * (vn1 * D + (D - 1))) * D)
    by (apply Z.mul_lt_mono_pos_r; lia). lia.
Qed.

Lemma equal_top_error (vn1 v' u' w b : Z) :
  b <= 2 * vn1 -> 0 < w -> 0 <= v' < w -> 0 <= u' -> 0 < b ->
  (b - 2) * (vn1 * w + v') <= vn1 * (b * w) + u'.
Proof. intros. nia. Qed.

(** [q] is the quotient digit or one more. *)
Definition qhat_ok (q w v : Z) : Prop :=
  is_digit q /\ w < (q + 1) * v /\ (q - 1) * v <= w.

Lemma val_take_two X n d1 d2 :
  X !! n = Some d2 -> X !! S n = Some d1 ->
  val (take (S (S n)) X) = val (take n X) + bpow n * (d1 * digit_base + d2).
Proof.
  intros E2 E1. rewrite (val_take_S _ _ _ E1), (val_take_S _ _ _ E2), bpow_S. lia.
Qed.

Lemma estimate_qhat_spec U B j :
  digits_ok U -> digits_ok B -> (2 <= length B)%nat -> (j + length B < length U)%nat ->
  bpow (length B) <= 2 * val B ->
  val (take (S (length B)) (drop j U)) < val B * digit_base ->
  wp (estimate_qhat U B j) (fun q => qhat_ok q (val (take (S (length B)) (drop j U))) (val B)).
Proof.
  intros HU HB Hn Hj HV HW. unfold estimate_qhat. set (n := length B) in *.
  pose proof digit_base_ge as HD.
  assert (forall i d, (i < length U - j)%nat -> drop j U !! i = Some d <-> U !! (j + i)%nat = Some d) as Hdrop
    by (intros; by rewrite lookup_drop).
  pose proof (digits_ok_drop j U HU) as HT. set (T := drop j U) in *.
  assert (length T = (length U - j)%nat) as HlT by apply length_drop.
  apply wp_bind, wp_rd; [lia | done|]. intros vn1 Hvn1 Hd1.
  apply wp_bind, wp_rd; [lia | done|]. intros ujn Hujn Hdu.
  destruct (lookup_lt_is_Some_2 B (n - 2)%nat) as [vn2 Hvn2]; [lia|].
  pose proof (digits_ok_lookup _ _ _ HB Hvn2) as Hd2.
  destruct (lookup_lt_is_Some_2 T (n - 2)%nat) as [ujn2 Hujn2]; [lia|].
  destruct (lookup_lt_is_Some_2 T (n - 1)%nat) as [ujn1 Hujn1]; [lia|].
  pose proof (digits_ok_lookup _ _ _ HT Hujn2) as Hdu2.
  pose proof (digits_ok_lookup _ _ _ HT Hujn1) as Hdu1.
  apply Hdrop in Hujn; [|lia].
  assert (U !! (j + (n - 1))%nat = Some ujn1) as HU1 by (apply Hdrop; [lia | done]).
  assert (U !! (j + (n - 2))%nat = Some ujn2) as HU2 by (apply Hdrop; [lia | done]).
  (* the divisor and the dividend by their top digits *)
  assert (val B = val (take (n - 2) B) + bpow (n - 2) * (vn1 * digit_base + vn2)) as EB.
  { rewrite <- (val_take_two B (n - 2)) by (done || by replace (S (n - 2)) with (n - 1)%nat by lia).
    by rewrite take_ge by lia. }
  assert (val (take (S n) T) = val (take (n - 2) T) +
    bpow (n - 2) * ((ujn * digit_base + ujn1) * digit_base + ujn2)) as EW.
  { rewrite (val_take_S _ _ _ Hujn). replace (val (take n T)) with (val (take (S (S (n - 2))) T))
      by (do 2 f_equal; lia).
    rewrite (val_take_two T (n - 2) ujn1 ujn2) by (done || by replace (S (n - 2)) with (n - 1)%nat by lia).
    replace (bpow n) with (bpow (S (S (n - 2)))) by (f_equal; lia). rewrite !bpow_S. lia. }
  pose proof (val_bounds _ (digits_ok_take (n - 2) B HB)) as Bv0.
  pose proof (val_bounds _ (digits_ok_take (n - 2) T HT)) as Bu0.
  rewrite length_take, Nat.min_l in Bv0, Bu0 by lia.
  assert (bpow n = bpow (n - 2) * (digit_base * digit_base)) as En
    by (replace n with (S (S (n - 2))) at 1 by lia; rewrite !bpow_S; lia).
  pose proof (bpow_pos (n - 2)) as Hw. unfold is_digit in *.
  rewrite EB, EW, En in *. set (v0 := val (take (n - 2) B)) in *. set (u0 := val (take (n - 2) T)) in *.
  set (w := bpow (n - 2)) in *. clearbody v0 u0 w. clear Hdrop EB EW En.
  assert (digit_base <= 2 * vn1) as Hv1
    by (apply (top_digit_big w digit_base v0 vn1 vn2 (2 ^ (kDigitBits - 1))); try lia; apply digit_base_even).
  assert (ujn <= vn1) as Hle
    by (apply (top_digit_le w digit_base v0 vn1 vn2 u0 ujn ujn1 ujn2); lia).
  destruct (Z.eqb_spec ujn vn1) as [-> | Hne]; cbn [negb].
  { apply wp_ret. unfold qhat_ok, is_digit. split; [lia|].
    pose proof (equal_top_error vn1 (w * vn2 + v0) (w * digit_base * ujn1 + w * ujn2 + u0)
      (w * digit_base) digit_base).
    split; [lia|].
    replace (digit_base - 1 - 1) with (digit_base - 2) by lia. nia. }
  unfold rd. replace (j + n - 1)%nat with (j + (n - 1))%nat by lia. rewrite HU1.
  apply wp_bind, wp_Ok. apply wp_bind. eapply wp_mono; [apply digit_div_spec; unfold is_digit; lia|].
  intros [q0 rhat] (E & Hr & Hq0). rewrite Hvn2. apply wp_bind, wp_Ok.
  replace (j + n - 2)%nat with (j + (n - 2))%nat by lia. rewrite HU2. apply wp_bind, wp_Ok.
  set (U2 := ujn * digit_base + ujn1) in *. unfold is_digit in Hq0.
  eapply wp_mono; [apply (adjust_qhat_spec 3 vn1 vn2 ujn2 U2); unfold is_digit; try lia|].
  { assert (0 < vn1 * digit_base + vn2) by nia.
    apply Z.lt_succ_r, Z.div_lt_upper_bound; [done|]. nia. }
  intros q ->. unfold qhat_ok, is_digit.
  assert (0 < vn1 * digit_base + vn2) as HV2 by nia.
  assert ((U2 * digit_base + ujn2) / (vn1 * digit_base + vn2) <= q0) as Hqq.
  { apply Z.lt_succ_r, Z.div_lt_upper_bound; [done|]. nia. }
  assert (0 <= U2 * digit_base + ujn2) as HU3 by nia.
  assert (0 <= (U2 * digit_base + ujn2) / (vn1 * digit_base + vn2)) by (apply Z.div_pos; lia).
  destruct (three_by_two_error (vn1 * digit_base + vn2) v0 (U2 * digit_base + ujn2) u0 w digit_base)
    as [He1 He2]; [done | lia | lia | lia | nia | done |].
  split; [lia|]. split; lia.
Qed.

(** ** Algorithm D: subtraction, rounds and the whole division *)

Lemma inplace_sub_tail U j X :
  digits_ok U -> digits_ok X -> (j + length X <= length U)%nat ->
  wp (on_tail U j (fun V => InplaceSub V X)) (fun '(U', c) => exists P,
    U' = take j U ++ P ++ drop (length X) (drop j U) /\ length P = length X /\ digits_ok P /\
    0 <= c <= 1 /\ val P - c * bpow (length X) = val (take (length X) (drop j U)) - val X).
Proof.
  intros HU HX Hl. apply wp_on_tail; [lia|]. unfold InplaceSub.
  eapply wp_mono; [apply SubtractAndReturnBorrow_spec; [by auto with digits | done | |];
    rewrite length_drop; lia|].
  intros [t c] (P & -> & HlP & HP & Hc & E). by exists P.
Qed.

Lemma inplace_add_tail U j X :
  digits_ok U -> digits_ok X -> (j + length X <= length U)%nat ->
  wp (on_tail U j (fun V => InplaceAdd V X)) (fun '(U', c) => exists P,
    U' = take j U ++ P ++ drop (length X) (drop j U) /\ length P = length X /\ digits_ok P /\
    0 <= c <= 1 /\ val P + c * bpow (length X) = val (take (length X) (drop j U)) + val X).
Proof.
  intros HU HX Hl. apply wp_on_tail; [lia|]. unfold InplaceAdd.
  eapply wp_mono; [apply AddAndReturnCarry_spec; [by auto with digits | done | |];
    rewrite length_drop; lia|].
  intros [t c] (P & -> & HlP & HP & Hc & E). by exists P.
Qed.

(** A digit above a block absorbs its carry; everything is modulo the weight above. *)
Lemma absorb_carry p c t n d (total : Z) :
  0 <= p < bpow n -> is_digit t -> 0 <= d < bpow (S n) ->
  p + c * bpow n + bpow n * t = d + total * bpow (S n) ->
  p + bpow n * wrap (t + c) = d.
Proof.
  intros Hp Ht Hd E. unfold wrap. pose proof (bpow_pos n). pose proof digit_base_ge.
  rewrite bpow_S in *.
  pose proof (Z.div_mod (t + c) digit_base). pose proof (Z.mod_pos_bound (t + c) digit_base).
  set (k := (t + c) / digit_base) in *. set (r := (t + c) mod digit_base) in *.
  assert (p + bpow n * r = d + (total - k) * (digit_base * bpow n)) as E2 by nia.
  assert (total - k = 0) as E0; [|rewrite E0 in E2; lia].
  assert (0 <= p + bpow n * r < digit_base * bpow n) by nia. nia.
Qed.

Lemma subtract_qhat_spec U B qhatv j q :
  digits_ok U -> digits_ok B -> digits_ok qhatv -> (j + length B < length U)%nat ->
  0 < val B -> length qhatv = S (length B) -> val qhatv = val B * q ->
  let W := val (take (S (length B)) (drop j U)) in
  qhat_ok q W (val B) ->
  wp (subtract_qhat U B qhatv j q) (fun '(U', q') => exists P,
    U' = take j U ++ P ++ drop (j + S (length B)) U /\ length P = S (length B) /\ digits_ok P /\
    val P = W mod val B /\ q' = W / val B).
Proof.
  intros HU HB Hq Hl HB0 Hlq Eq W (Hdq & Hlt & Hle). unfold subtract_qhat.
  apply wp_bind. eapply wp_mono; [apply inplace_sub_tail; [done | done | lia]|].
  intros [U1 c] (P & -> & HlP & HP & Hc & E). rewrite Hlq, drop_drop in *. fold W in E.
  pose proof (val_bounds _ HP) as BP. rewrite HlP in BP.
  set (n := length B) in *. pose proof (val_bounds _ HB) as BB. fold n in BB.
  assert (bpow n <= bpow (S n)) by (apply bpow_le; lia).
  destruct (Z.eqb_spec c 0) as [-> | Hc1]; cbn [negb].
  { apply wp_ret. exists P. split_and!; try done.
    - apply Z.mod_unique with q; [left; nia | lia].
    - apply Z.div_unique with (val P); [left; nia | lia]. }
  assert (c = 1) as -> by lia.
  assert (0 <= W) as HW0 by (apply val_nonneg; auto with digits).
  assert (0 < q) as Hq0 by nia.
  assert (0 <= W - (q - 1) * val B < val B) as HR by lia.
  assert (length (take j U) = j) as Hlt' by (rewrite length_take; lia).
  apply wp_bind. eapply wp_mono; [apply inplace_add_tail; [by auto with digits | done |
    rewrite !length_app, length_drop; lia]|].
  intros [U2 c2] (P2 & -> & HlP2 & HP2 & Hc2 & E2).
  rewrite (drop_app_length' (take j U)) in E2 |- * by done.
  change (length B) with n in HlP2, E2 |- *.
  rewrite take_app_le in E2 by lia. rewrite take_app_length' by done. rewrite (drop_app_le P) by lia.
  destruct (lookup_lt_is_Some_2 P n) as [t Ht]; [lia|].
  pose proof (digits_ok_lookup _ _ _ HP Ht) as Hdt.
  assert (drop n P = [t]) as EdP.
  { rewrite (drop_S _ _ _ Ht). by rewrite drop_ge by lia. }
  assert (val P = val (take n P) + bpow n * t) as EvP.
  { rewrite <- (val_take_S _ _ _ Ht). by rewrite take_ge by lia. }
  rewrite EdP. cbn [app].
  assert (take j U ++ P2 ++ t :: drop (j + S n) U = (take j U ++ P2) ++ t :: drop (j + S n) U) as ->
    by (by rewrite <- app_assoc).
  apply wp_bind. unfold rd. rewrite lookup_app_r, length_app, Hlt', HlP2, Nat.sub_diag
    by (rewrite length_app; lia). cbn [lookup list_lookup].
  apply wp_Ok. apply wp_bind, wp_wr; [rewrite !length_app; cbn [length]; lia|].
  rewrite insert_snoc by (rewrite length_app; lia). apply wp_ret.
  exists (P2 ++ [wrap (t + c2)]). rewrite length_app, val_snoc, HlP2, <- !app_assoc. cbn [length].
  pose proof (val_bounds _ HP2) as BP2. rewrite HlP2 in BP2.
  assert (val P2 + bpow n * wrap (t + c2) = W - (q - 1) * val B) as Efin.
  { apply (absorb_carry _ _ _ _ _ 1); [done | done | lia | lia]. }
  split_and!; [done | lia | by auto with digits | |].
  - rewrite Efin. apply Z.mod_unique with (q - 1); [by left | lia].
  - unfold is_digit in Hdq. rewrite wrap_small by (unfold is_digit; lia).
    apply Z.div_unique with (W - (q - 1) * val B); [by left | lia].
Qed.

(** State before the rounds [k - 1], ..., [0]: the part of [U] from [k] on is reduced
    below the divisor, and what was subtracted so far is the divisor times the
    quotient digits from [k] on. *)
Definition schoolbook_inv (B : digits) (m lQ lU : nat) (N : Z) (k : nat)
    (st : digits * digits * digits) : Prop :=
  let '(Q, U, qhatv) := st in
  length Q = lQ /\ digits_ok Q /\ length U = lU /\ digits_ok U /\
  length qhatv = S (length B) /\ val (drop k U) < val B /\
  exists qacc, 0 <= qacc /\ val U + val B * bpow k * qacc = N /\
    (lQ <> 0%nat -> qacc = val (slice Q k (S m - k))).

Lemma round_numbers U (j n : nat) V :
  digits_ok U -> (j + n < length U)%nat -> V < bpow n -> val (drop (S j) U) < V ->
  val (drop j U) = val (take (S n) (drop j U)) /\
  drop (j + S n) U = replicate (length U - (j + S n)) 0 /\
  val (take (S n) (drop j U)) < V * digit_base.
Proof.
  intros HU Hl HV Hlt. destruct (lookup_lt_is_Some_2 U j) as [u Hu]; [lia|].
  pose proof (digits_ok_lookup _ _ _ HU Hu) as Hdu. unfold is_digit in Hdu.
  rewrite (drop_S _ _ _ Hu). cbn [take val].
  pose proof (digits_ok_drop (S j) U HU) as HD.
  destruct (val_small_drop (drop (S j) U) n HD) as [Ez ->]; [lia|].
  rewrite drop_drop, length_drop in Ez. replace (j + S n)%nat with (S j + n)%nat by lia.
  rewrite Ez. split_and!; [done | f_equal; lia | nia].
Qed.

Lemma DivideSchoolbook_round_spec B m lQ lU N j st p :
  digits_ok B -> (2 <= length B)%nat -> bpow (length B) <= 2 * val B ->
  (j + length B < lU)%nat -> (j <= m)%nat ->
  (lQ <> 0%nat -> N < val B * bpow lQ) ->
  schoolbook_inv B m lQ lU N (S j) st ->
  wpP (DivideSchoolbook_round B j st) p (fun st' p' => status_le p p' /\
    schoolbook_inv B m lQ lU N j st').
Proof.
  intros HB Hn HV Hj Hjm HlQ. destruct st as [[Q U] qhatv].
  intros (EQ & HQ & EU & HU & Elq & Hred & qacc & Hqacc & HN & HQacc).
  unfold DivideSchoolbook_round. set (n := length B) in *.
  pose proof (val_bounds _ HB) as BB. fold n in BB. pose proof (bpow_pos n).
  destruct (round_numbers U j n (val B) HU) as (EW & Ezero & HW); [lia | lia | done|].
  apply wpP_bind, wpP_lift. eapply wp_mono; [apply estimate_qhat_spec; (done || lia)|].
  intros qhat Hqhat. fold n in Hqhat. set (W := val (take (S n) (drop j U))) in *.
  apply wpP_bind. eapply (wpP_mono _ _ (fun qv p' => status_le p p' /\ length qv = S n /\
    digits_ok qv /\ val qv = val B * qhat)).
  { destruct (Z.eqb_spec qhat 0) as [-> | Hne].
    - destruct (Clear_spec qhatv) as (? & ? & E). apply wpP_ret. rewrite E.
      split_and!; [by auto with digits | lia | done | lia].
    - eapply wpP_mono; [apply MultiplySingle_spec; [done | apply Hqhat | done | lia]|].
      intros qv p' (? & ? & ? & ?). split_and!; (done || lia). }
  intros qv p1 (Hle1 & Hlqv & Hqv & Eqv).
  apply wpP_bind, wpP_lift.
  eapply wp_mono; [apply subtract_qhat_spec; (done || lia)|].
  intros [U' q] (P & -> & HlP & HP & EP & Eq). fold n in HlP, EP, Eq |- *. fold W in EP, Eq.
  assert (0 < val B) as HB0 by lia.
  assert (W = val B * (W / val B) + W mod val B) as Hdm by (apply Z.div_mod; lia).
  pose proof (Z.mod_pos_bound W (val B) HB0) as Hmb.
  assert (0 <= W) as HW0 by (apply val_nonneg; auto with digits).
  assert (is_digit q) as Hdq.
  { subst q. split; [apply Z.div_pos; lia | apply Z.div_lt_upper_bound; lia]. }
  pose proof (bpow_pos j). pose proof (digits_ok_take j U HU) as Htake.
  assert (length (take j U) = j) as Elt by (rewrite length_take; lia).
  assert (val (P ++ drop (j + S n) U) = W mod val B) as EvP
    by (by rewrite Ezero, val_app_zeros, EP).
  assert (val (take j U ++ P ++ drop (j + S n) U) + val B * bpow j * (q + digit_base * qacc) = N) as HN'.
  { rewrite val_app, EvP, Elt, <- HN, (val_split U j), Elt, EW, bpow_S, Eq.
    apply (f_equal (Z.mul (bpow j))) in Hdm. lia. }
  assert (forall Q', length Q' = lQ -> digits_ok Q' ->
    (lQ <> 0%nat -> q + digit_base * qacc = val (slice Q' j (S m - j))) ->
    schoolbook_inv B m lQ lU N j (Q', take j U ++ P ++ drop (j + S n) U, qv)) as Hfin.
  { intros Q' ? ? ?. unfold schoolbook_inv. unfold is_digit in Hdq.
    pose proof digit_base_ge.
    split_and!; [done | done | | by auto with digits | done | |].
    - rewrite !length_app, length_drop. lia.
    - rewrite drop_app_length' by done. lia.
    - exists (q + digit_base * qacc). split_and!; [nia | done | done]. }
  rewrite EQ. case_bool_decide as HQ0; [|apply wpP_ret; split; [done|]; by apply Hfin].
  case_bool_decide as HQj.
  - assert (q + digit_base * qacc = 0) as E0.
    { specialize (HlQ HQ0). unfold is_digit in Hdq. pose proof digit_base_ge.
      assert (0 <= val (take j U ++ P ++ drop (j + S n) U)) by (apply val_nonneg; auto with digits).
      pose proof (bpow_le _ _ HQj). assert (0 < val B * bpow j) by nia.
      assert (val B * bpow lQ <= val B * bpow j) by nia.
      assert (0 <= q + digit_base * qacc) by nia. nia. }
    assert (q = 0) as Eq0 by (unfold is_digit in Hdq; pose proof digit_base_ge; nia).
    apply wpP_bind, wpP_lift, wp_dcheck; [by apply Z.eqb_eq|]. apply wpP_ret. split; [done|].
    apply Hfin; [done | done |]. intros _. rewrite E0. unfold slice. by rewrite (drop_ge Q), take_nil by lia.
  - apply wpP_bind, wpP_lift, wp_wr; [lia|]. apply wpP_ret. split; [done|].
    apply Hfin; [by rewrite length_insert | by apply digits_ok_insert |].
    intros _. replace (S m - j)%nat with (S (S m - S j)) by lia.
    rewrite slice_insert_cons by lia. cbn [val]. rewrite HQacc by done. done.
Qed.

Lemma DivideSchoolbook_loop_spec B m lQ lU N k st p :
  digits_ok B -> (2 <= length B)%nat -> bpow (length B) <= 2 * val B ->
  (k + length B <= lU)%nat -> (k <= S m)%nat ->
  (lQ <> 0%nat -> N < val B * bpow lQ) ->
  schoolbook_inv B m lQ lU N k st ->
  wpP (DivideSchoolbook_loop k B st) p (fun st' p' => status_le p p' /\
    schoolbook_inv B m lQ lU N 0 st').
Proof.
  intros HB Hn HV. revert st p. induction k as [|j IH]; intros st p HlU Hk HlQ Hinv;
    cbn [DivideSchoolbook_loop].
  - apply wpP_ret. by auto with digits.
  - apply wpP_bind. eapply wpP_mono.
    { apply (DivideSchoolbook_round_spec B m lQ lU N j); [done | done | done | lia | lia | done | done]. }
    intros st' p' [Hle Hinv']. eapply wpP_mono; [apply IH; (done || lia)|].
    intros st'' p'' [Hle' Hinv'']. split; [by eapply status_le_trans | done].
Qed.

(** Lengths the caller must provide for the quotient. *)
Definition quotient_fits (Q A B : digits) : Prop :=
  Q = [] \/ (length A - length B + 1 <= length Q)%nat \/
  (length A - length B <= length Q)%nat /\ val A < val B * bpow (length A - length B).

Lemma QLengthOK_spec Q A B :
  digits_ok A -> digits_ok B -> (length B <= length A)%nat -> quotient_fits Q A B -> Q <> [] ->
  wp (QLengthOK Q A B) (fun b => b = true).
Proof.
  unfold quotient_fits. intros HA HB Hl Hfit Hne. unfold QLengthOK, Digits_slice. apply wp_bind.
  set (m := (length A - length B)%nat) in *.
  assert (slice A m (length B) = drop m A) as -> by (unfold slice; rewrite take_ge; [done | rewrite length_drop; unfold m; lia]).
  eapply wp_mono; [apply GreaterThanOrEqual_spec; by auto with digits|]. intros ge ->.
  destruct (Z.leb_spec (val B) (val (drop m A))) as [Hge | Hlt]; apply wp_ret;
    apply bool_decide_eq_true; destruct Hfit as [? | [? | [? Hv]]]; try (done || lia).
  exfalso. rewrite (val_split A m), length_take, Nat.min_l in Hv by lia.
  pose proof (val_nonneg _ (digits_ok_take m A HA)). pose proof (bpow_pos m).
  assert (bpow m * val B <= bpow m * val (drop m A)) by (apply Z.mul_le_mono_nonneg_l; lia). lia.
Qed.

Lemma quotient_fits_bound Q A B s V :
  digits_ok A -> digits_ok B -> (length B <= length A)%nat -> V = val B * 2 ^ s ->
  0 <= s < kDigitBits -> bpow (length B) <= 2 * V -> quotient_fits Q A B ->
  val A * 2 ^ s < V * bpow (S (length A - length B)) /\
  (length Q <> 0%nat -> val A * 2 ^ s < V * bpow (length Q)).
Proof.
  unfold quotient_fits. intros HA HB Hl EV Hs Hbig Hfit. pose proof (val_bounds _ HA) as BA.
  set (m := (length A - length B)%nat) in *.
  replace (length A) with (m + length B)%nat in BA by lia. rewrite bpow_add in BA.
  pose proof (bpow_pos m). pose proof (Z.pow_pos_nonneg 2 s ltac:(lia) ltac:(lia)).
  assert (2 * 2 ^ s <= digit_base) as H2s.
  { unfold digit_base. replace (2 * 2 ^ s) with (2 ^ (Z.succ s)) by (rewrite Z.pow_succ_r by lia; lia).
    apply Z.pow_le_mono_r; lia. }
  pose proof (bpow_pos (length B)) as HB0. assert (0 < V) as HV0 by lia.
  assert (val A * 2 ^ s < V * bpow (S m)) as Htop.
  { apply Z.lt_le_trans with (bpow m * bpow (length B) * 2 ^ s);
      [apply Z.mul_lt_mono_pos_r; lia|].
    apply Z.le_trans with (bpow m * (2 * V) * 2 ^ s).
    { apply Z.mul_le_mono_nonneg_r; [lia|]. apply Z.mul_le_mono_nonneg_l; lia. }
    rewrite bpow_S. replace (bpow m * (2 * V) * 2 ^ s) with (V * bpow m * (2 * 2 ^ s)) by lia.
    replace (V * (digit_base * bpow m)) with (V * bpow m * digit_base) by lia.
    apply Z.mul_le_mono_nonneg_l; [apply Z.mul_nonneg_nonneg|]; lia. }
  split; [done|]. intros HQ. destruct Hfit as [-> | [Hl' | [Hl' Hv]]]; [done | |].
  - eapply Z.lt_le_trans; [exact Htop|]. apply Z.mul_le_mono_nonneg_l; [lia|]. apply bpow_le. lia.
  - apply Z.lt_le_trans with (V * bpow m).
    + rewrite EV. replace (val B * 2 ^ s * bpow m) with (val B * bpow m * 2 ^ s) by lia.
      apply Z.mul_lt_mono_pos_r; lia.
    + apply Z.mul_le_mono_nonneg_l; [lia|]. by apply bpow_le.
Qed.

Lemma DivideSchoolbook_spec Q R A B p :
  digits_ok Q -> digits_ok A -> digits_ok B -> normalized B -> (2 <= length B)%nat ->
  (length B <= length A)%nat -> quotient_fits Q A B ->
  R = [] \/ (length B <= length R)%nat ->
  wpP (DivideSchoolbook Q R A B) p (fun '(Q', R') p' => status_le p p' /\
    length Q' = length Q /\ length R' = length R /\ digits_ok Q' /\
    (Q <> [] -> val Q' = val A / val B) /\
    (R <> [] -> digits_ok R' /\ val R' = val A mod val B)).
Proof.
  intros HQ HA HB NB Hn Hl Hfit HR. unfold DivideSchoolbook.
  assert (B <> []) as HneB by (by intros ->; simpl in Hn; lia).
  apply wpP_bind, wpP_lift, wp_dcheck_decide; [done|].
  apply wpP_bind, wpP_lift, wp_dcheck_decide; [done|].
  apply wpP_bind, wpP_lift. eapply (wp_mono _ (fun b => b = true)).
  { case_bool_decide; [done|]. apply QLengthOK_spec; try done. by intros ->. }
  intros ? ->. apply wpP_bind, wpP_lift, wp_dcheck; [done|].
  apply wpP_bind, wpP_lift, wp_dcheck_decide; [destruct HR as [-> | ?]; [by left | by right]|].
  apply wpP_bind, wpP_lift. eapply wp_mono; [apply ShiftedDigits_new_spec; try done|].
  { destruct kDigitBits_cases; lia. }
  intros sB (HsB & Hs & HlsB & EsB & _ & Htop). destruct Htop as [HlB Hbig]; [lia|].
  pose proof (quotient_fits_bound Q A B (shift_ sB) _ HA HB Hl EsB Hs Hbig Hfit) as [HN1 HNQ].
  pose proof (val_pos_of_normalized B HB NB HneB) as HB0.
  pose proof (Z.pow_pos_nonneg 2 (shift_ sB) ltac:(lia) ltac:(lia)) as Hp2.
  apply wpP_bind, wpP_lift. eapply wp_mono; [apply LeftShift_spec; [done | done | |];
    rewrite length_uninitialized; [lia|]|].
  { rewrite Nat.add_1_r, bpow_S. pose proof (val_bounds _ HA).
    assert (2 ^ shift_ sB < digit_base) by (apply Z.pow_lt_mono_r; lia). nia. }
  intros U (HlU & HU & EU). rewrite length_uninitialized in HlU.
  set (V := sd_digits sB) in *. set (s := shift_ sB) in *. set (m := (length A - length B)%nat) in *.
  rewrite <- HlB in Hbig. rewrite <- EU in HN1, HNQ.
  apply wpP_bind. eapply wpP_mono.
  { apply (DivideSchoolbook_loop_spec V m (length Q) (length U) (val U));
      [done | lia | done | lia | lia | done |].
    unfold schoolbook_inv. split_and!; try done.
    - rewrite length_uninitialized. lia.
    - apply (mul_lt_cancel _ _ (bpow (S m))); [apply bpow_pos|].
      rewrite (val_split U (S m)), length_take, Nat.min_l in HN1 by lia.
      pose proof (val_nonneg _ (digits_ok_take (S m) U HU)). lia.
    - exists 0. rewrite Nat.sub_diag. unfold slice. rewrite take_0. cbn [val]. split_and!; lia. }
  intros [[Q' U'] qv] p1 (Hle & EQ' & HQ' & EU' & HU' & _ & Hred & qacc & Hqacc & HN & HQacc).
  rewrite drop_0 in Hred. change (bpow 0) with 1 in HN. rewrite Nat.sub_0_r in HQacc.
  pose proof (val_nonneg _ HU') as HU0. rewrite EU in HN.
  destruct (div_mod_unique (val A * 2 ^ s) (val V) qacc (val U')) as [Eq Er]; [lia | lia |].
  rewrite EsB in Eq, Er. rewrite Z.div_mul_cancel_r in Eq by lia. rewrite Z.mul_mod_distr_r in Er by lia.
  pose proof (val_bounds _ HsB) as BV. fold V in BV.
  apply wpP_bind. eapply (wpP_mono _ _ (fun R' p' => p' = p1 /\ length R' = length R /\
    (R <> [] -> digits_ok R' /\ val R' = val A mod val B))).
  { case_bool_decide as HR0; [|apply wpP_ret; split_and!; try done; by destruct R].
    apply wpP_lift. eapply wp_mono; [apply RightShift_spec; [done | done |]|].
    - destruct HR as [-> | HlR]; [done|].
      assert (length (Normalize U') <= length V)%nat; [|lia].
      apply length_Normalize_bound; [done | lia].
    - intros R' (? & ? & E). split_and!; try done. intros _. split; [done|].
      rewrite E, <- Er, Z.div_mul by lia. done. }
  intros R' ? (-> & HlR' & HR'). apply wpP_bind, wpP_lift, wp_zero_from_take, wpP_ret.
  split_and!; [done | | done | by auto with digits | | done].
  - rewrite length_app, length_take, length_replicate. lia.
  - intros HQ0. rewrite val_app_zeros, Eq, HQacc by (by destruct Q). unfold slice.
    by rewrite drop_0, Nat.add_1_r.
Qed.
End div_schoolbook.
