(* ===== verification/DivBurnikel.v ===== *)
(** Burnikel-Ziegler division: [src/bigint/div-burnikel.cc]. *)

From Stdlib Require Import ZArith Lia.
From stdpp Require Import base tactics numbers list option.
From S2P Require Import Prelude Digit Digits VectorArithmetic Processor MulSchoolbook MulKaratsuba Multiply DivHelpers DivSchoolbook.

#[local] Open Scope Z_scope.

Section div_burnikel.
Context `{Config, Platform}.
Context {alloc : Allocator} {fft : FftMultiplier}.
Implicit Types A B Q R X : digits.

Definition kBurnikelThreshold : Z := 57.

(** Compares [a_high, A] with [B]. *)
Definition SpecialCompare (a_high : Z) (A B : digits) : res Z :=
  let B := Normalize B in
  let A := if a_high =? 0 then Normalize A else A in
  let a_len := if a_high =? 0 then length A else S (length A) in
  let diff := Z.of_nat a_len - Z.of_nat (length B) in
  if negb (diff =? 0) then mret diff
  else if negb (a_high =? 0) then
    b ← rd B (a_len - 1);
    if b <? a_high then mret 1
    else if a_high <? b then mret (-1)
    else compare_from (a_len - 1) A B
  else compare_from a_len A B.

(** [memset(X, 0xFF)]. *)
Definition SetOnes (X : digits) : digits := replicate (length X) (digit_base - 1).

(** Early return with the results as they are, if an interrupt was requested. *)
Definition return_if_terminated {T} (r : T) (rest : PM T) : PM T :=
  t ← should_terminate;
  if (t : bool) then mret r else rest.

(** [BZ::DivideBasecase]; [DivideSingle] stores the remainder in [R[0]]. *)
Definition DivideBasecase (Q R A B : digits) : PM (digits * digits) :=
  let A := Normalize A in
  let B := Normalize B in
  lift (dcheck (bool_decide (0 < length B)%nat));;
  cmp ← lift (Compare A B);
  if cmp <=? 0 then
    let Q := Clear Q in
    if cmp =? 0 then
      Q ← lift (wr Q 0 1); mret (Q, Clear R)
    else
      R ← lift (PutAt R A (length R)); mret (Q, R)
  else if bool_decide (length B = 1)%nat then
    b ← lift (rd B 0);
    '(Q, remainder) ← lift (DivideSingle Q A b);
    R ← lift (wr R 0 remainder);
    mret (Q, R)
  else DivideSchoolbook Q R A B.

(** Step 6 of [BZ::D3n2n]: [while (SpecialCompare(r1_high, R, D) < 0) ...].  The top bit of
    [B] is set, so there are at most two rounds. *)
Fixpoint D3n2n_correct (fuel : nat) (B D Qhat R : digits) (r1_high : Z)
    : res (digits * digits * Z) :=
  match fuel with
  | O => Err OutOfFuel
  | S fuel =>
      c ← SpecialCompare r1_high R D;
      if c <? 0 then
        '(R, carry) ← AddAndReturnCarry R R B;
        let r1_high := wrap (r1_high + carry) in
        Qhat ← Subtract_digit Qhat 1;
        D3n2n_correct fuel B D Qhat R r1_high
      else mret (Qhat, R, r1_high)
  end.

(** [R[off .. off + length V)] is overwritten by [V] (a view into [R] was written). *)
Definition put_view (R : digits) (off : nat) (V : digits) : digits :=
  take off R ++ V ++ drop (off + length V) R.

(** Step 3 of [BZ::D3n2n]: [Qhat], [R] with its part [R1], and [r1_high]; [None] for an
    early return. *)
Definition D3n2n_estimate
    (D2n1n : digits -> digits -> digits -> digits -> digits -> PM (digits * digits * digits))
    (scratch_mem Q R A1A2 B : digits) (n : nat)
    : PM (digits * digits * digits * option Z) :=
  let A1 := Digits_slice A1A2 n n in
  let B1 := Digits_slice B n n in
  let R1 := Digits_slice R n n in
  c ← lift (Compare A1 B1);
  if c <? 0 then
    '(Qhat, R1, scratch_mem) ← D2n1n scratch_mem Q R1 A1A2 B1;
    t ← should_terminate;
    if (t : bool) then mret (Qhat, put_view R n R1, scratch_mem, None)
    else mret (Qhat, put_view R n R1, scratch_mem, Some 0)
  else
    let Qhat := SetOnes Q in
    R1 ← lift (Subtract R1 A1 B1);
    let temp := Normalize R1 in
    lift (dcheck (bool_decide (length temp <= 1)%nat));;
    r1_high ← lift (if bool_decide (0 < length temp)%nat then rd temp 0 else mret 0);
    let A2 := Digits_slice A1A2 0 n in
    '(R1, carry) ← lift (AddAndReturnCarry R1 A2 B1);
    mret (Qhat, put_view R n R1, scratch_mem, Some (wrap (r1_high + carry))).

(** [BZ::D3n2n], given [BZ::D2n1n]; [scratch_mem] is the member [scratch_mem_]. *)
Definition D3n2n
    (D2n1n : digits -> digits -> digits -> digits -> digits -> PM (digits * digits * digits))
    (scratch_mem Q R A1A2 A3 B : digits) : PM (digits * digits * digits) :=
  lift (dcheck (Nat.even (length B)));;
  let n := Nat.div2 (length B) in
  lift (dcheck (bool_decide (length A1A2 = 2 * n)%nat));;
  c ← lift (Compare A1A2 B);
  lift (dcheck (c <? 0));;
  lift (dcheck (bool_decide (length A3 = n)));;
  lift (dcheck (bool_decide (length Q = n)));;
  lift (dcheck (bool_decide (length R = 2 * n)%nat));;
  '(Qhat, R, scratch_mem, st) ← D3n2n_estimate D2n1n scratch_mem Q R A1A2 B n;
  match st with
  | None => mret (Qhat, R, scratch_mem)
  | Some r1_high =>
      let B2 := Digits_slice B 0 n in
      if bool_decide (2 * n <= length scratch_mem)%nat then
        D ← Multiply (slice scratch_mem 0 (2 * n)) Qhat B2;
        let scratch_mem := put_view scratch_mem 0 D in
        return_if_terminated (Qhat, R, scratch_mem) (
        R ← lift (PutAt R A3 n);
        '(Qhat, R, r1_high) ← lift (D3n2n_correct 3 B D Qhat R r1_high);
        '(R, borrow) ← lift (SubtractAndReturnBorrow R R D);
        lift (dcheck (borrow =? r1_high));;
        c ← lift (Compare R B);
        lift (dcheck (c <? 0));;
        mret (Qhat, R, scratch_mem))
      else lift (Err OutOfBounds)
  end.

(** [BZ::D2n1n]; the length of [B] is halved in every recursive call. *)
Fixpoint D2n1n (fuel : nat) (scratch_mem Q R A B : digits) : PM (digits * digits * digits) :=
  match fuel with
  | O => lift (Err OutOfFuel)
  | S fuel =>
      let n := length B in
      lift (dcheck (bool_decide (length A <= 2 * n)%nat));;
      c ← lift (Compare (Digits_slice A n n) B);
      lift (dcheck (c <? 0));;
      lift (dcheck (bool_decide (length Q = n)));;
      lift (dcheck (bool_decide (length R = n)));;
      if Nat.odd n || (Z.of_nat n <? kBurnikelThreshold) then
        '(Q, R) ← DivideBasecase Q R A B; mret (Q, R, scratch_mem)
      else
        let h := Nat.div2 n in
        let A1A2 := Digits_slice A n n in
        let A3 := Digits_slice A h h in
        let A4 := Digits_slice A 0 h in
        let Q1 := Digits_slice Q h h in
        '(Q1, R1, scratch_mem) ← D3n2n (D2n1n fuel) scratch_mem Q1 (uninitialized n) A1A2 A3 B;
        let Q := put_view Q h Q1 in
        return_if_terminated (Q, R, scratch_mem) (
        let Q2 := Digits_slice Q 0 h in
        '(Q2, R, scratch_mem) ← D3n2n (D2n1n fuel) scratch_mem Q2 R R1 A4 B;
        mret (put_view Q 0 Q2, R, scratch_mem))
  end.

(** Steps 1 and 2 of [DivideBurnikelZiegler]: the block length [n] for a divisor of [s]
    digits. *)
Definition bz_block_len (s : nat) : nat :=
  let s := Z.of_nat s in
  let m := Z.shiftl 1 (BitLength_int (s / kBurnikelThreshold)) in
  let j := DIV_CEIL s m in
  Z.to_nat (j * m).

(** [ScratchDigits V(len); LeftShift(V + digit_shift, X, sigma);
    for (int i = 0; i < digit_shift; i++) V[i] = 0]. *)
Definition bz_shifted (len digit_shift : nat) (X : digits) (sigma : Z) : res digits :=
  let V := uninitialized len in
  tail ← Digits_plus V digit_shift;
  tail ← LeftShift tail X sigma;
  let V := take digit_shift V ++ tail in
  '(V, _) ← write_loop digit_shift 0 (fun _ _ _ => mret (0, tt)) V tt;
  mret V.

(** [for (int i = t - 3; i >= 0; i--)], for [i + 1] rounds; the locals are [Q], [Z], [Ri]
    and the scratch space, and [None] is an early return. *)
Fixpoint bz_loop (i n : nat) (A B Q Zd Ri scratch_mem : digits)
    : PM (digits * option digits) :=
  match i with
  | O => mret (Q, Some Ri)
  | S i =>
      tail ← lift (Digits_plus Zd n);
      tail ← lift (PutAt tail Ri n);
      let Zd := take n Zd ++ tail in
      Ai ← lift (Digits_plus A (n * i));
      Zd ← lift (PutAt Zd Ai n);
      let Qi := Digits_slice Q (i * n) n in
      '(Qi, Ri, scratch_mem) ← D2n1n (S n) scratch_mem Qi Ri Zd B;
      let Q := put_view Q (i * n) Qi in
      t ← should_terminate;
      if (t : bool) then mret (Q, None)
      else bz_loop i n A B Q Zd Ri scratch_mem
  end.

(** Steps 7 and 8: all blocks, from the top. *)
Definition bz_blocks (t n : nat) (A B Q : digits) : PM (digits * option digits) :=
  let z_len := (n * 2)%nat in
  top ← lift (Digits_plus A (n * (t - 2)));
  Zd ← lift (PutAt (uninitialized z_len) top z_len);
  let scratch_mem := uninitialized (if kBurnikelThreshold <=? Z.of_nat n then n else 0%nat) in
  '(Qi, Ri, scratch_mem) ← D2n1n (S n) scratch_mem (uninitialized n) (uninitialized n) Zd B;
  t' ← should_terminate;
  if (t' : bool) then mret (Q, None)
  else
    let Qi := Normalize Qi in
    target ← lift (Digits_plus Q (n * (t - 2)));
    lift (dcheck (bool_decide (length Qi <= length target)%nat));;
    target ← lift (PutAt target Qi (length target));
    let Q := take (n * (t - 2)) Q ++ target in
    bz_loop (t - 2) n A B Q Zd Ri scratch_mem.

Definition DivideBurnikelZiegler (Q R A B : digits) : PM (digits * digits) :=
  lift (dcheck (bool_decide (length B <= length A)%nat));;
  lift (dcheck (bool_decide (length R = 0 \/ length B <= length R)%nat));;
  lift (dcheck (bool_decide (length A - length B < length Q)%nat));;
  let r := length A in
  let s := length B in
  let n := bz_block_len s in
  btop ← lift (rd B (s - 1));
  let sigma := CountLeadingZeros btop in
  let digit_shift := (n - s)%nat in
  B ← lift (bz_shifted n digit_shift B sigma);
  atop ← lift (rd A (r - 1));
  let extra_digit := if CountLeadingZeros atop <? sigma + 1 then 1%nat else 0%nat in
  let r := (length A + digit_shift + extra_digit)%nat in
  A ← lift (bz_shifted r digit_shift A sigma);
  let t := Z.to_nat (DIV_CEIL (Z.of_nat r) (Z.of_nat n) `max` 2) in
  '(Q, Ri) ← bz_blocks t n A B Q;
  match Ri with
  | None => mret (Q, R)
  | Some Ri =>
      lift (for_loop digit_shift 0 (fun i _ => d ← rd Ri i; dcheck (d =? 0)) tt);;
      if bool_decide (length R <> 0)%nat then
        let Ri_part := Normalize (Digits_slice Ri digit_shift (length Ri)) in
        lift (dcheck (bool_decide (length Ri_part <= length R)%nat));;
        R ← lift (RightShift R Ri_part sigma);
        mret (Q, R)
      else mret (Q, R)
  end.

(** ** Comparison, early returns and the base case *)

Lemma SpecialCompare_spec a_high A B :
  is_digit a_high -> digits_ok A -> digits_ok B ->
  wp (SpecialCompare a_high A B) (fun r =>
    compare_result r (val A + bpow (length A) * a_high) (val B)).
Proof.
  intros Hh HA HB. unfold SpecialCompare. rewrite <- (val_Normalize B).
  destruct (Z.eqb_spec a_high 0) as [-> | Hh0]; cbn [negb].
  { pose proof (Compare_spec A B HA HB) as HC. unfold Compare in HC.
    rewrite Z.mul_0_r, Z.add_0_r, val_Normalize. exact HC. }
  apply digits_ok_Normalize in HB. pose proof (normalized_Normalize B) as NB.
  set (B' := Normalize B) in *. clearbody B'. clear B. unfold is_digit in Hh.
  assert (digits_ok (A ++ [a_high])) as HA' by (apply digits_ok_snoc; done).
  assert (normalized (A ++ [a_high])) as NA' by (unfold normalized; rewrite last_snoc; congruence).
  rewrite <- val_snoc. assert (length (A ++ [a_high]) = S (length A)) as El by (rewrite length_app; simpl; lia).
  destruct (Z.eqb_spec (Z.of_nat (S (length A)) - Z.of_nat (length B')) 0) as [E | E]; cbn [negb].
  - replace (S (length A) - 1)%nat with (length A) by lia.
    apply wp_bind, wp_rd; [lia | done|]. intros b Hb Hdb.
    assert (val B' = val (take (length A) B') + bpow (length A) * b) as EB.
    { rewrite <- (val_take_S _ _ _ Hb). by rewrite take_ge by lia. }
    rewrite val_snoc, EB. pose proof (val_bounds A HA) as BA.
    pose proof (val_bounds _ (digits_ok_take (length A) B' HB)) as BB.
    rewrite length_take, Nat.min_l in BB by lia. pose proof (bpow_pos (length A)).
    unfold compare_result.
    destruct (Z.ltb_spec b a_high).
    { apply wp_ret. assert (bpow (length A) * (b + 1) <= bpow (length A) * a_high)
        by (apply Z.mul_le_mono_nonneg_l; lia). lia. }
    destruct (Z.ltb_spec a_high b).
    { apply wp_ret. assert (bpow (length A) * (a_high + 1) <= bpow (length A) * b)
        by (apply Z.mul_le_mono_nonneg_l; lia). lia. }
    assert (b = a_high) as -> by lia.
    eapply wp_mono; [apply compare_from_spec; [done | done | lia | lia]|].
    intros r. rewrite (take_ge A) by lia. unfold compare_result. lia.
  - apply wp_ret. unfold compare_result.
    destruct (Nat.lt_ge_cases (S (length A)) (length B')).
    + pose proof (normalized_length_lt _ B' HA' HB NB). lia.
    + pose proof (normalized_length_lt B' _ HB HA' NA'). lia.
Qed.

Lemma wpP_return_if_terminated {T} (r : T) rest p (Post : T -> ProcessorImpl -> Prop) :
  (status_ p = kInterrupted -> Post r p) -> (status_ p = kOk -> wpP rest p Post) ->
  wpP (return_if_terminated r rest) p Post.
Proof.
  intros Hi Ho. unfold return_if_terminated. apply wpP_bind, wpP_should_terminate.
  destruct (status_ p) eqn:E.
  - rewrite bool_decide_false by done. by apply Ho.
  - rewrite bool_decide_true by done. by apply wpP_ret, Hi.
Qed.

Lemma top_bit_normalized B :
  digits_ok B -> (0 < length B)%nat -> bpow (length B) <= 2 * val B -> normalized B.
Proof.
  intros HB Hl Hv Hlast. apply last_Some in Hlast as [B' ->].
  apply Forall_app in HB as [HB' _]. rewrite val_snoc, length_app, Nat.add_1_r, bpow_S in Hv.
  pose proof (val_bounds _ HB'). pose proof digit_base_ge. pose proof (bpow_pos (length B')). nia.
Qed.

Lemma SetOnes_spec X :
  length (SetOnes X) = length X /\ digits_ok (SetOnes X) /\ val (SetOnes X) = bpow (length X) - 1.
Proof.
  unfold SetOnes. pose proof digit_base_ge.
  assert (is_digit (digit_base - 1)) as Hd by (unfold is_digit; lia).
  split_and!; [by rewrite length_replicate | by apply Forall_replicate |].
  induction (length X) as [|k IH]; [done|]. cbn [replicate val]. rewrite IH, bpow_S. lia.
Qed.

Lemma PutAt_full R A :
  digits_ok A -> (length (Normalize A) <= length R)%nat -> normalized A ->
  wp (PutAt R A (length R)) (fun R' => length R' = length R /\ digits_ok R' /\ val R' = val A).
Proof.
  intros HA Hl NA. rewrite normalized_id in Hl by done.
  eapply wp_mono; [by apply PutAt_spec|]. intros R' (P & -> & HlP & HP & E).
  rewrite drop_ge, app_nil_r by done. rewrite take_ge in E by done. done.
Qed.

Definition div_post (n : nat) (A B : Z) (p p' : ProcessorImpl) (Q R : digits) : Prop :=
  status_le p p' /\ length Q = n /\ digits_ok Q /\ digits_ok R /\
  (status_ p' = kOk -> val Q = A / B /\ val R = A mod B).

Lemma DivideBasecase_spec n Q R A B p :
  digits_ok Q -> digits_ok R -> digits_ok A -> digits_ok B -> (0 < n)%nat ->
  length Q = n -> length R = n -> length B = n -> (length A <= 2 * n)%nat ->
  bpow n <= 2 * val B -> val A < val B * bpow n ->
  wpP (DivideBasecase Q R A B) p (fun '(Q', R') p' =>
    div_post n (val A) (val B) p p' Q' R' /\ length R' = n).
Proof.
  intros HQ HR HA HB Hn HlQ HlR HlB HlA Htop Hlt. unfold DivideBasecase.
  assert (normalized B) as NB by (apply top_bit_normalized; rewrite ?HlB; done).
  rewrite (normalized_id B) by done.
  apply wpP_bind, wpP_lift, wp_dcheck_decide; [lia|].
  pose proof (length_Normalize A). pose proof (normalized_Normalize A) as NA.
  rewrite <- (val_Normalize A) in *. apply digits_ok_Normalize in HA.
  set (A' := Normalize A) in *. clearbody A'. pose proof (val_nonneg _ HA).
  pose proof (val_bounds _ HB) as BB. rewrite HlB in BB. pose proof (bpow_pos n).
  assert (0 < val B) as HB0 by lia.
  wpP_lift_apply (Compare_spec A' B); [done | done|]. intros cmp (Clt & Ceq & Cgt).
  destruct (Clear_spec Q) as (HlC & HC & EC).
  destruct (Z.leb_spec cmp 0) as [Hle | Hgt].
  - destruct (Z.eqb_spec cmp 0) as [E0 | E0].
    + apply Ceq in E0. apply wpP_bind, wpP_lift, wp_wr; [lia|]. apply wpP_ret.
      destruct (Clear_spec R) as (HlCR & HCR & ECR). unfold div_post. rewrite length_insert, ECR, E0.
      rewrite Z.div_same, Z.mod_same by lia.
      split_and!; [by auto with digits | lia | by apply digits_ok_insert; auto with digits | done | | lia].
      intros _. split; [|done]. unfold Clear. rewrite HlQ. destruct n; [lia|].
      cbn [replicate insert list_insert val]. rewrite val_replicate_0. lia.
    + assert (val A' < val B) as HAB by lia. wpP_lift_apply PutAt_full; [done | | done |].
      { rewrite normalized_id by done.
        assert (length A' <= length B)%nat; [|lia]. apply normalized_length_le; (done || lia). }
      intros R' (? & ? & E). apply wpP_ret. unfold div_post.
      rewrite EC, E, Z.div_small, Z.mod_small by lia. split_and!; (by auto with digits) || lia.
  - assert (val B < val A') as HBA by lia.
    assert (A' <> []) as HneA by (intros ->; cbn [val] in *; lia).
    assert (length B <= length A')%nat as HlBA by (apply normalized_length_le; (done || lia)).
    case_bool_decide as H1'.
    + destruct B as [|b []]; cbn [length] in *; try lia. unfold rd. cbn [lookup list_lookup].
      apply wpP_bind, wpP_lift, wp_Ok. cbn [val] in *. rewrite Z.mul_0_r, Z.add_0_r in *.
      assert (is_digit b) as Hb by (by apply (Forall_inv HB)).
      assert (n = 1%nat) as -> by lia.
      wpP_lift_apply DivideSingle_spec; [done | done | done | done | lia | |].
      { right. destruct (decide (length A' = 1)%nat) as [-> | Hl2]; [left; lia|right].
        split; [lia|]. by replace (length A' - 1)%nat with 1%nat by lia. }
      intros [Q' r] (HlQ' & HQ' & EQ & Er). apply wpP_bind, wpP_lift, wp_wr; [lia|]. apply wpP_ret.
      destruct R as [|r0 []]; cbn [length] in *; try lia. cbn [insert list_insert].
      unfold div_post. cbn [val length]. rewrite Z.mul_0_r, Z.add_0_r.
      pose proof (Z.mod_pos_bound (val A') b). unfold is_digit in Hb.
      split_and!; [by auto with digits | lia | done | | | done].
      * constructor; [|constructor]. unfold is_digit. lia.
      * intros _. split; [|done]. apply EQ. by intros ->.
    + wpP_apply DivideSchoolbook_spec; try (done || lia).
      { unfold quotient_fits. destruct (decide (length A' = 2 * n)%nat); [|right; left; lia].
        right. right. split; [lia|]. by replace (length A' - length B)%nat with n by lia. }
      intros [Q' R'] p' (? & ? & ? & ? & EQ & ER).
      assert (Q <> []) by (intros ->; simpl in *; lia). assert (R <> []) by (intros ->; simpl in *; lia).
      destruct ER; [done|]. unfold div_post. split_and!; try (done || lia). intros _. auto.
Qed.

(** ** The recursion *)

(** The corrections: [A = Qhat * B + rho] throughout, until [rho] is not negative. *)
Lemma D3n2n_correct_spec fuel B D Qhat R r1 (A : Z) :
  digits_ok B -> digits_ok D -> digits_ok Qhat -> digits_ok R -> length R = length B ->
  0 <= r1 -> r1 + Z.of_nat fuel < digit_base -> (0 < fuel)%nat -> Qhat <> [] -> 0 <= A ->
  let rho := r1 * bpow (length B) + val R - val D in
  A = val Qhat * val B + rho -> - (Z.of_nat fuel - 1) * val B <= rho -> rho < val B ->
  wp (D3n2n_correct fuel B D Qhat R r1) (fun '(Qhat', R', r1') =>
    length Qhat' = length Qhat /\ digits_ok Qhat' /\ length R' = length R /\ digits_ok R' /\ 0 <= r1' /\
    let rho' := r1' * bpow (length B) + val R' - val D in
    A = val Qhat' * val B + rho' /\ 0 <= rho' < val B).
Proof.
  intros HB HD. revert Qhat R r1.
  induction fuel as [|fuel IH]; intros Qhat R r1 HQ HR HlR Hr1 Hr1' Hf HQne HA rho EA Hlow Hhigh; [lia|].
  cbn [D3n2n_correct].
  wp_apply (SpecialCompare_spec r1 R D); [unfold is_digit; lia | done | done|].
  intros c (Clt & Ceq & Cgt). rewrite HlR in Clt, Ceq, Cgt.
  destruct (Z.ltb_spec c 0) as [Hc | Hc].
  - assert (rho < 0) as Hneg by (unfold rho; lia).
    pose proof (val_nonneg _ HB) as HB0. pose proof (val_nonneg _ HQ) as HQ0.
    assert (0 < val Qhat) as HQ1 by nia.
    wp_apply (AddAndReturnCarry_spec R R B); [done | done | lia | lia|].
    intros [R' carry] (P & -> & HlP & HP & Hcarry & EP).
    rewrite drop_ge, app_nil_r by lia. rewrite take_ge in EP by lia.
    wp_apply (Subtract_digit_spec Qhat 1); [done | done | by auto with digits | lia|].
    intros Q' (HlQ' & HQ' & EQ').
    rewrite wrap_small by (unfold is_digit; lia).
    eapply wp_mono; [apply IH; [done | done | lia | lia | lia | | | done | | |]|].
    + destruct fuel; lia.
    + intros ->. apply HQne. by destruct Qhat.
    + rewrite EQ'. unfold rho in EA. lia.
    + unfold rho in Hlow. lia.
    + unfold rho in Hneg. lia.
    + intros [[Q'' R''] r1''] (? & ? & ? & ? & ? & Hrho). cbv zeta in Hrho. split_and!; (done || lia).
  - apply wp_ret. split_and!; try done. unfold rho in *. lia.
Qed.

Definition d2n1n_spec (n : nat)
    (f : digits -> digits -> digits -> digits -> digits -> PM (digits * digits * digits)) : Prop :=
  forall scratch Q R A B p, steady p -> digits_ok scratch -> digits_ok Q -> digits_ok R ->
    digits_ok A -> digits_ok B -> length B = n -> length A = (2 * n)%nat -> length Q = n ->
    length R = n -> bpow n <= 2 * val B -> val (drop n A) < val B ->
    (kBurnikelThreshold <= Z.of_nat n -> (n <= length scratch)%nat) ->
    wpP (f scratch Q R A B) p (fun '(Q', R', s') p' =>
      div_post n (val A) (val B) p p' Q' R' /\ length R' = n /\
      length s' = length scratch /\ digits_ok s').

Lemma val_put_view R off V :
  (off + length V = length R)%nat ->
  val (put_view R off V) = val (take off R) + bpow off * val V /\ length (put_view R off V) = length R.
Proof.
  intros Hl. unfold put_view. rewrite (drop_ge R), app_nil_r by lia.
  rewrite val_app, length_app, length_take, Nat.min_l by lia. split; lia.
Qed.

Lemma digits_ok_put_view R off V : digits_ok R -> digits_ok V -> digits_ok (put_view R off V).
Proof. unfold put_view. auto 7 with digits. Qed.

Lemma length_put_view R off V :
  (off + length V <= length R)%nat -> length (put_view R off V) = length R.
Proof. intros. unfold put_view. rewrite !length_app, length_take, length_drop. lia. Qed.

Lemma bpow_even n : (0 < n)%nat -> exists h, bpow n = 2 * h.
Proof.
  intros Hn. destruct n as [|n]; [lia|]. exists (2 ^ (kDigitBits - 1) * bpow n).
  rewrite bpow_S, digit_base_even. lia.
Qed.

(** The top bit of a vector is the top bit of its upper part. *)
Lemma top_half_bit B n m :
  digits_ok B -> (0 < m)%nat -> length B = (n + m)%nat -> bpow (n + m) <= 2 * val B ->
  bpow m <= 2 * val (drop n B).
Proof.
  intros HB Hm Hl Htop. destruct (bpow_even m Hm) as [h Eh].
  rewrite (val_split B n), length_take, Nat.min_l, bpow_add in Htop by lia.
  pose proof (val_bounds _ (digits_ok_take n B HB)) as Bt. rewrite length_take, Nat.min_l in Bt by lia.
  assert (bpow m < 2 * val (drop n B) + 2); [|lia].
  apply (mul_lt_cancel _ _ (bpow n)); [apply bpow_pos|]. lia.
Qed.

(** Step 3: [[A1, A2] = Qhat * B1 + [r1_high, R1]], and [Qhat] is not too small. *)
Lemma D3n2n_estimate_spec f n scratch Q R A1A2 B p :
  d2n1n_spec n f -> (0 < n)%nat -> steady p -> digits_ok scratch -> digits_ok Q -> digits_ok R ->
  digits_ok A1A2 -> digits_ok B -> length B = (2 * n)%nat -> length A1A2 = (2 * n)%nat ->
  length Q = n -> length R = (2 * n)%nat -> bpow (2 * n) <= 2 * val B -> val A1A2 < val B ->
  (kBurnikelThreshold <= Z.of_nat n -> (n <= length scratch)%nat) ->
  wpP (D3n2n_estimate f scratch Q R A1A2 B n) p (fun '(Qhat, R', s', st) p' =>
    status_le p p' /\ length Qhat = n /\ digits_ok Qhat /\ length R' = (2 * n)%nat /\ digits_ok R' /\
    length s' = length scratch /\ digits_ok s' /\
    (st = None -> status_ p' = kInterrupted) /\
    (forall r1, st = Some r1 -> 0 <= r1 <= 1 /\
       val A1A2 = val Qhat * val (drop n B) + r1 * bpow n + val (drop n R') /\
       (val A1A2 < (val Qhat + 1) * val (drop n B) \/ val Qhat = bpow n - 1))).
Proof.
  intros Hf Hn Hst Hs HQ HR HA HB HlB HlA HlQ HlR Htop Hlt Hsc. unfold D3n2n_estimate, Digits_slice.
  assert (forall V : digits, length V = (2 * n)%nat -> slice V n n = drop n V) as Hsl.
  { intros V Hl. unfold slice. rewrite take_ge; [done | rewrite length_drop; lia]. }
  rewrite !Hsl by done.
  assert (bpow n <= 2 * val (drop n B)) as HtopB1.
  { apply top_half_bit; [done | done | lia |]. by replace (n + n)%nat with (2 * n)%nat by lia. }
  pose proof (digits_ok_drop n A1A2 HA) as HA1. pose proof (digits_ok_drop n B HB) as HB1.
  pose proof (digits_ok_drop n R HR) as HR1.
  assert (length (drop n B) = n /\ length (drop n A1A2) = n /\ length (drop n R) = n) as (HlB1 & HlA1 & HlR1)
    by (rewrite !length_drop; lia).
  wpP_lift_apply (Compare_spec (drop n A1A2) (drop n B)); [done | done|]. intros c (Clt & Ceq & Cgt).
  assert (forall R1, length R1 = n -> val (drop n (put_view R n R1)) = val R1) as Hview.
  { intros R1 Hl. unfold put_view. rewrite drop_app_length' by (rewrite length_take; lia).
    rewrite drop_ge, app_nil_r by lia. done. }
  pose proof (bpow_pos n) as Hb.
  destruct (Z.ltb_spec c 0) as [Hc | Hc].
  - wpP_apply Hf; try (done || lia). intros [[Q' R1'] s'] p' ((Hle & HlQ' & HQ' & HR1' & Hval) & HlR1' & Hls' & Hs').
    assert (length (put_view R n R1') = (2 * n)%nat) as HlV by (rewrite length_put_view; lia).
    assert (digits_ok (put_view R n R1')) as HV by (by apply digits_ok_put_view).
    apply wpP_bind, wpP_should_terminate. destruct (status_ p') eqn:Est.
    + rewrite bool_decide_false by done. apply wpP_ret. split_and!; try done.
      intros r1 [= <-]. rewrite Hview by done. destruct Hval as [-> ->]; [done|].
      pose proof (Z.div_mod (val A1A2) (val (drop n B))).
      pose proof (Z.mod_pos_bound (val A1A2) (val (drop n B))). split_and!; lia.
    + rewrite bool_decide_true by done. by apply wpP_ret.
  - destruct (SetOnes_spec Q) as (HlS & HS & ES). rewrite HlQ in ES.
    rewrite (val_split A1A2 n), (val_split B n), !length_take, !Nat.min_l in Hlt by lia.
    pose proof (val_bounds _ (digits_ok_take n A1A2 HA)) as BA2.
    pose proof (val_bounds _ (digits_ok_take n B HB)) as BB2.
    rewrite length_take, Nat.min_l in BA2, BB2 by lia.
    assert (val (drop n A1A2) = val (drop n B)) as EAB.
    { assert (val (drop n A1A2) < val (drop n B) + 1); [|lia].
      apply (mul_lt_cancel _ _ (bpow n)); [done|]. lia. }
    wpP_lift_apply (Subtract_spec (drop n R) (drop n A1A2) (drop n B)); [done | done | | lia |].
    { pose proof (length_Normalize (drop n A1A2)). lia. }
    intros R1 (HlR1' & HR1' & ER1). rewrite EAB, Z.sub_diag in ER1.
    assert (Normalize R1 = []) as EN.
    { apply val_zero_normalized; [by auto with digits | by auto with digits | by rewrite val_Normalize]. }
    rewrite EN. cbn [length]. apply wpP_bind, wpP_lift, wp_dcheck_decide; [lia|].
    rewrite bool_decide_false by lia. apply wpP_bind, wpP_lift, wp_ret.
    assert (slice A1A2 0 n = take n A1A2) as -> by (unfold slice; by rewrite drop_0).
    wpP_lift_apply (AddAndReturnCarry_spec R1 (take n A1A2) (drop n B)); [by auto with digits | done | | |];
      [rewrite length_take; lia | lia |].
    intros [R1' carry] (P & -> & HlP & HP & Hcarry & EP).
    rewrite HlB1 in *. rewrite drop_ge, app_nil_r by lia. rewrite take_take, Nat.min_id in EP.
    apply wpP_ret. rewrite Z.add_0_l, wrap_small by (unfold is_digit; pose proof digit_base_ge; lia).
    split_and!; try done; [by auto with digits | lia | rewrite length_put_view; lia
      | by apply digits_ok_put_view |].
    intros r1 [= <-]. rewrite Hview by done. split; [done|].
    split; [|by right]. rewrite ES, (val_split A1A2 n), length_take, Nat.min_l, EAB by lia. lia.
Qed.

Lemma D3n2n_spec L f n scratch Q R A1A2 A3 B p `{!Multiplier L} :
  d2n1n_spec n f -> (0 < n)%nat -> (n <= L)%nat -> steady p ->
  digits_ok scratch -> digits_ok Q -> digits_ok R -> digits_ok A1A2 -> digits_ok A3 -> digits_ok B ->
  length B = (2 * n)%nat -> length A1A2 = (2 * n)%nat -> length A3 = n ->
  length Q = n -> length R = (2 * n)%nat -> bpow (2 * n) <= 2 * val B -> val A1A2 < val B ->
  (2 * n <= length scratch)%nat ->
  wpP (D3n2n f scratch Q R A1A2 A3 B) p (fun '(Q', R', s') p' =>
    div_post n (val A3 + bpow n * val A1A2) (val B) p p' Q' R' /\ length R' = (2 * n)%nat /\
    length s' = length scratch /\ digits_ok s').
Proof.
  intros Hf Hn HL Hst Hs HQ HR HA HA3 HB HlB HlA HlA3 HlQ HlR Htop Hlt Hsc. unfold D3n2n.
  rewrite HlB. apply wpP_bind, wpP_lift, wp_dcheck; [by rewrite Nat.even_mul|].
  rewrite Nat.div2_double. apply wpP_bind, wpP_lift, wp_dcheck_decide; [done|].
  wpP_lift_apply (Compare_spec A1A2 B); [done | done|]. intros c (Clt & _ & _).
  apply wpP_bind, wpP_lift, wp_dcheck; [apply Z.ltb_lt; lia|].
  do 3 (apply wpP_bind, wpP_lift, wp_dcheck_decide; [done|]).
  wpP_apply (D3n2n_estimate_spec f n); try (done || lia).
  intros [[[Qhat R1] s1] st] p1 (Hle1 & HlQh & HQh & HlR1 & HR1 & Hls1 & Hs1 & Hnone & Hsome).
  destruct st as [r1|].
  2: { apply wpP_ret. unfold div_post. split_and!; try done. intros Hok. specialize (Hnone eq_refl). congruence. }
  destruct (Hsome r1 eq_refl) as (Hr1 & EA & Hbig). clear Hnone Hsome.
  rewrite bool_decide_true by lia.
  assert (slice B 0 n = take n B) as EB2 by (unfold slice; by rewrite drop_0).
  unfold Digits_slice. rewrite EB2.
  assert (length (take n B) = n) as HlB2 by (rewrite length_take; lia).
  pose proof (length_Normalize Qhat). pose proof (length_Normalize (take n B)).
  wpP_apply (multiply_correct (L := L)); [by eapply steady_le | by auto with digits | done
    | by auto with digits | lia | lia | rewrite length_slice; lia |].
  intros D p2 (Hle2 & HlD & HD & ED). rewrite length_slice in HlD.
  assert (length (put_view s1 0 D) = length scratch) as Hls2 by (rewrite length_put_view; lia).
  assert (digits_ok (put_view s1 0 D)) as Hs2 by (by apply digits_ok_put_view).
  assert (status_le p p2) as Hle by (by eapply status_le_trans).
  apply wpP_return_if_terminated.
  { intros Hint. unfold div_post. split_and!; try done. congruence. }
  intros Hok. specialize (ED Hok).
  wpP_lift_apply (PutAt_spec R1 A3 n); [done | lia|]. intros R2 (P & -> & HlP & HP & EP).
  rewrite take_ge in EP by lia.
  (* the corrections *)
  set (b := bpow n) in *. assert (bpow (2 * n) = b * b) as Ebb
    by (replace (2 * n)%nat with (n + n)%nat by lia; apply bpow_add).
  pose proof (bpow_pos n) as Hb. fold b in Hb.
  assert (length (P ++ drop n R1) = (2 * n)%nat) as HlR2 by (rewrite length_app, length_drop; lia).
  assert (val (P ++ drop n R1) = val A3 + b * val (drop n R1)) as ER2 by (rewrite val_app, HlP, EP; done).
  pose proof (val_split B n) as EB. rewrite HlB2 in EB. fold b in EB.
  pose proof (val_bounds _ (digits_ok_take n B HB)) as BB2. rewrite HlB2 in BB2. fold b in BB2.
  pose proof (val_bounds _ HA3) as BA3. rewrite HlA3 in BA3. fold b in BA3.
  pose proof (val_bounds _ HQh) as BQ. rewrite HlQh in BQ. fold b in BQ.
  pose proof (val_bounds _ (digits_ok_drop n R1 HR1)) as BR. rewrite length_drop in BR.
  replace (length R1 - n)%nat with n in BR by lia. fold b in BR.
  pose proof (val_nonneg _ HA) as HA0. pose proof (val_nonneg _ (digits_ok_drop n B HB)) as HB10.
  set (B1 := val (drop n B)) in *. set (B2 := val (take n B)) in *. set (q := val Qhat) in *.
  wpP_lift_apply (D3n2n_correct_spec 3 B D Qhat (P ++ drop n R1) r1 (val A3 + b * val A1A2)).
  { done. } { done. } { done. } { by auto with digits. } { lia. } { lia. }
  { pose proof digit_base_ge. simpl. lia. } { lia. } { intros ->. simpl in HlQh. lia. } { nia. }
  { rewrite HlB, Ebb, ER2, ED. fold q B2. rewrite EA, EB. ring. }
  { rewrite HlB, Ebb, ER2, ED. fold q B2. rewrite Ebb in Htop. change (Z.of_nat 3 - 1) with 2.
    assert (q * B2 <= b * b) by nia. assert (0 <= r1 * (b * b)) by nia.
    assert (0 <= b * val (drop n R1)) by nia. lia. }
  { rewrite HlB, Ebb, ER2, ED. fold q B2.
    assert (val A3 + b * val A1A2 < (q + 1) * val B) as Hup; [|rewrite EB in Hup |- *; rewrite EA in Hup; lia].
    destruct Hbig as [Hbig | ->].
    - apply Z.lt_le_trans with (b * (val A1A2 + 1)); [lia|].
      apply Z.le_trans with (b * ((q + 1) * B1)); [apply Z.mul_le_mono_nonneg_l; lia|]. rewrite EB. nia.
    - apply Z.lt_le_trans with (b * (val A1A2 + 1)); [lia|].
      replace (b - 1 + 1) with b by lia. apply Z.mul_le_mono_nonneg_l; lia. }
  intros [[Q' R'] r1'] (HlQ' & HQ' & HlR' & HR' & Hr1' & Etot & Hrho).
  rewrite HlB in Etot, Hrho. rewrite HlR2 in HlR'.
  wpP_lift_apply (SubtractAndReturnBorrow_spec R' R' D); [done | done | lia | lia|].
  intros [Rf borrow] (Pf & -> & HlPf & HPf & Hborrow & EPf).
  rewrite HlD in *. replace ((2 * n) `min` (length s1 - 0))%nat with (2 * n)%nat in * by lia.
  rewrite drop_ge, app_nil_r by lia. rewrite take_ge in EPf by lia.
  pose proof (val_bounds _ HPf) as BPf. rewrite HlPf in BPf.
  pose proof (val_bounds _ HB) as BB. rewrite HlB in BB.
  assert (borrow = r1') as ->.
  { assert (val Pf = (borrow - r1') * bpow (2 * n) + (r1' * bpow (2 * n) + val R' - val D)) by lia. nia. }
  apply wpP_bind, wpP_lift, wp_dcheck; [by apply Z.eqb_eq|].
  wpP_lift_apply (Compare_spec Pf B); [done | done|]. intros c' (Clt' & _ & _).
  apply wpP_bind, wpP_lift, wp_dcheck; [apply Z.ltb_lt; lia|]. apply wpP_ret.
  unfold div_post. split_and!; try (done || lia). intros _.
  destruct (div_mod_unique (val A3 + b * val A1A2) (val B) (val Q') (val Pf)) as [-> ->]; [lia | lia |]. done.
Qed.

Lemma D2n1n_spec L fuel n `{!Multiplier L} :
  (0 < n)%nat -> (n < fuel)%nat -> (n <= 2 * L)%nat -> d2n1n_spec n (D2n1n fuel).
Proof.
  revert n. induction fuel as [|fuel IH]; intros n Hn Hf HL; [lia|].
  intros scratch Q R A B p Hst Hs HQ HR HA HB HlB HlA HlQ HlR Htop Hlt Hsc. cbn [D2n1n]. rewrite HlB.
  apply wpP_bind, wpP_lift, wp_dcheck_decide; [lia|]. unfold Digits_slice.
  assert (slice A n n = drop n A) as EA1 by (unfold slice; rewrite take_ge; [done | rewrite length_drop; lia]).
  rewrite EA1. pose proof (digits_ok_drop n A HA) as HA12.
  wpP_lift_apply (Compare_spec (drop n A) B); [done | done|]. intros c (Clt & _ & _).
  apply wpP_bind, wpP_lift, wp_dcheck; [apply Z.ltb_lt; lia|].
  do 2 (apply wpP_bind, wpP_lift, wp_dcheck_decide; [done|]).
  assert (val A = val (take n A) + bpow n * val (drop n A)) as EA
    by (rewrite (val_split A n), length_take, Nat.min_l by lia; done).
  pose proof (val_bounds _ (digits_ok_take n A HA)) as BA. rewrite length_take, Nat.min_l in BA by lia.
  pose proof (bpow_pos n) as Hbn. assert (0 < val B) as HB0 by lia.
  destruct (Nat.odd n || (Z.of_nat n <? kBurnikelThreshold)) eqn:Ebase.
  { wpP_apply (DivideBasecase_spec n); try (done || lia).
    - rewrite EA. assert (bpow n * (val (drop n A) + 1) <= bpow n * val B)
        by (apply Z.mul_le_mono_nonneg_l; lia). lia.
    - intros [Q' R'] p' [? ?]. apply wpP_ret. split_and!; done. }
  apply orb_false_iff in Ebase as [Hodd Hbig%Z.ltb_ge].
  specialize (Hsc Hbig). unfold kBurnikelThreshold in Hbig.
  assert (Nat.even n = true) as Hev by (unfold Nat.odd in Hodd; by apply negb_false_iff in Hodd).
  apply div2_even in Hev. set (h := Nat.div2 n) in *.
  assert (d2n1n_spec h (D2n1n fuel)) as IHh by (apply IH; lia).
  assert (length (drop n A) = n) as HlA12 by (rewrite length_drop; lia).
  assert (length (slice A h h) = h /\ length (slice A 0 h) = h /\ length (slice Q h h) = h) as (HlA3 & HlA4 & HlQ1)
    by (rewrite !length_slice; lia).
  assert (digits_ok (uninitialized n) /\ length (uninitialized n) = n) as [Hu Hlu]
    by (split; [apply uninitialized_ok | apply length_uninitialized]).
  assert (bpow (2 * h) <= 2 * val B) as Htop' by (by rewrite <- Hev).
  wpP_apply (D3n2n_spec L (D2n1n fuel) h); try (by auto with digits); try lia.
  intros [[Q1 R1] s1] p1 ((Hle1 & HlQ1' & HQ1 & HR1 & Hval1) & HlR1 & Hls1 & Hs1).
  assert (length (put_view Q h Q1) = n) as HlQv by (rewrite length_put_view; lia).
  assert (digits_ok (put_view Q h Q1)) as HQv by (by apply digits_ok_put_view).
  apply wpP_return_if_terminated.
  { intros Hint. unfold div_post. split_and!; try done. congruence. }
  intros Hok1. destruct (Hval1 Hok1) as [EQ1 ER1]. clear Hval1.
  set (N1 := val (slice A h h) + bpow h * val (drop n A)) in *.
  pose proof (Z.mod_pos_bound N1 (val B) HB0) as HmodN.
  wpP_apply (D3n2n_spec L (D2n1n fuel) h); try (by auto with digits); try lia.
  { by eapply steady_le. } { rewrite length_slice. lia. }
  intros [[Q2 R2] s2] p2 ((Hle2 & HlQ2 & HQ2 & HR2 & Hval2) & HlR2 & Hls2 & Hs2).
  apply wpP_ret. unfold div_post. rewrite length_put_view by lia.
  split_and!; try (done || lia); [by eapply status_le_trans | by apply digits_ok_put_view |].
  intros Hok2. destruct (Hval2 Hok2) as [EQ2 ER2].
  assert (val (put_view (put_view Q h Q1) 0 Q2) = val Q2 + bpow h * val Q1) as EQv.
  { unfold put_view. rewrite take_0, Nat.add_0_l, HlQ2. cbn [app].
    rewrite drop_app_length' by (rewrite length_take; lia).
    rewrite (drop_ge Q), app_nil_r, val_app, HlQ2 by lia. done. }
  rewrite EQv, ER2.
  assert (val A = val (slice A 0 h) + bpow h * N1) as EA'.
  { assert (val (take n A) = val (slice A 0 h) + bpow h * val (slice A h h)) as Et.
    { replace n with (h + h)%nat by lia. rewrite val_take_add. unfold slice. by rewrite drop_0. }
    unfold N1. rewrite EA, Et. replace (bpow n) with (bpow h * bpow h) by (rewrite <- bpow_add; f_equal; lia).
    ring. }
  rewrite ER1 in EQ2 |- *. set (N2 := val (slice A 0 h) + bpow h * (N1 mod val B)) in *.
  pose proof (Z.div_mod N1 (val B)) as Hdm1. pose proof (Z.div_mod N2 (val B)) as Hdm2.
  destruct (div_mod_unique (val A) (val B) (val Q2 + bpow h * val Q1) (N2 mod val B)) as [-> ->];
    [apply Z.mod_pos_bound; lia | | done].
  rewrite EA', EQ2, EQ1. unfold N2 in Hdm2 at 1. rewrite Hdm1 at 1 by lia. lia.
Qed.

(** ** Division of arbitrary lengths *)

Lemma bz_block_len_spec s :
  (0 < s)%nat -> Z.of_nat s < 2 ^ 30 ->
  (s <= bz_block_len s)%nat /\ (bz_block_len s <= 2 * s)%nat.
Proof.
  intros Hs Hint. unfold bz_block_len, DIV_CEIL, kBurnikelThreshold.
  set (z := Z.of_nat s) in *. set (m := Z.shiftl 1 (BitLength_int (z / 57))).
  assert (0 < m <= z) as Hm.
  { unfold m. pose proof (Z.div_mod z 57). pose proof (Z.mod_pos_bound z 57).
    destruct (Z.eq_dec (z / 57) 0) as [-> | Hne]; [change (Z.shiftl _ _) with 1; lia|].
    assert (0 < z / 57) by (pose proof (Z.div_pos z 57); lia).
    destruct (BitLength_int_spec (z / 57)) as [Hlo _]; [lia|].
    set (k := BitLength_int (z / 57)) in *.
    assert (0 < k) as Hk.
    { destruct (Z.lt_ge_cases 0 k); [done|]. unfold k, BitLength_int, CountLeadingZeros32 in *.
      rewrite Z.mod_small in * by lia. destruct (Z.eqb_spec (z / 57) 0); [lia|].
      pose proof (Z.log2_nonneg (z / 57)). lia. }
    rewrite Z.shiftl_mul_pow2, Z.mul_1_l by lia.
    replace k with (Z.succ (k - 1)) by lia. rewrite Z.pow_succ_r by lia.
    pose proof (Z.pow_pos_nonneg 2 (k - 1)). lia. }
  pose proof (Z.div_mod (z - 1) m). pose proof (Z.mod_pos_bound (z - 1) m).
  assert (z <= ((z - 1) / m + 1) * m <= 2 * z) by nia. lia.
Qed.

Lemma bz_shifted_spec len ds X sigma :
  digits_ok X -> 0 <= sigma < kDigitBits -> (ds + length X <= len)%nat ->
  val X * 2 ^ sigma < bpow (len - ds) ->
  wp (bz_shifted len ds X sigma) (fun V =>
    length V = len /\ digits_ok V /\ val V = bpow ds * (val X * 2 ^ sigma)).
Proof.
  intros HX Hs Hl Hv. unfold bz_shifted.
  pose proof (length_uninitialized len) as Hlu. set (U := uninitialized len) in *.
  apply wp_bind, wp_Digits_plus; [lia|].
  assert (length (drop ds U) = (len - ds)%nat) as Hld by (rewrite length_drop; lia).
  wp_apply (LeftShift_spec (drop ds U) X sigma); [done | done | lia | by rewrite Hld |].
  intros tail (Hlt & Ht & Et). apply wp_bind.
  rewrite <- (app_nil_l (take ds U ++ tail)).
  apply (wp_write_loop (fun k P _ => P = replicate k 0)); [done | rewrite length_app, length_take; lia
    | constructor | done | |].
  { intros k P [] Hk HlP HP ->. apply wp_ret. split; [by auto with digits|]. by rewrite <- replicate_S_end. }
  intros P [] HlP HP ->. rewrite Nat.add_0_l in *. rewrite drop_app_length' by (rewrite length_take; lia).
  apply wp_ret. rewrite length_app, length_replicate, val_app, val_replicate_0, length_replicate, Et.
  split_and!; [lia | by auto with digits | lia].
Qed.

(** After the blocks from [i] on: the quotient digits from [n * i] on are final, and [Ri]
    is the remainder. *)
Definition blocks_done (A Q : digits) (V : Z) (n i : nat) (Ri : digits) : Prop :=
  val (drop (n * i) A) = val (drop (n * i) Q) * V + val Ri /\ val Ri < V.

Definition blocks_post (A B Q : digits) (p : ProcessorImpl) (r : digits * option digits)
    (p' : ProcessorImpl) : Prop :=
  status_le p p' /\ length (r.1) = length Q /\ digits_ok (r.1) /\
  match r.2 with
  | None => status_ p' = kInterrupted
  | Some R => status_ p' = kOk /\ length R = length B /\ digits_ok R /\
      val (r.1) = val A / val B /\ val R = val A mod val B
  end.

Lemma val_drop_block X n i :
  (n * S i <= length X)%nat ->
  val (drop (n * i) X) = val (take n (drop (n * i) X)) + bpow n * val (drop (n * S i) X).
Proof.
  intros Hl. rewrite (val_split (drop (n * i) X) n), length_take, length_drop, drop_drop.
  rewrite Nat.min_l by lia. by replace (n * i + n)%nat with (n * S i)%nat by lia.
Qed.

Lemma bz_loop_spec L i n A B Q Zd Ri scratch p `{!Multiplier L} :
  (0 < n)%nat -> (n <= 2 * L)%nat -> steady p -> status_ p = kOk ->
  digits_ok A -> digits_ok B -> digits_ok Q -> digits_ok Zd -> digits_ok Ri -> digits_ok scratch ->
  length B = n -> length Zd = (2 * n)%nat -> length Ri = n ->
  (n * i <= length A)%nat -> (n * i <= length Q)%nat -> bpow n <= 2 * val B ->
  (kBurnikelThreshold <= Z.of_nat n -> (n <= length scratch)%nat) ->
  blocks_done A Q (val B) n i Ri ->
  wpP (bz_loop i n A B Q Zd Ri scratch) p (blocks_post A B Q p).
Proof.
  intros Hn HL. revert Q Zd Ri scratch p.
  induction i as [|i IH]; intros Q Zd Ri scratch p Hst Hok HA HB HQ HZ HR Hs HlB HlZ HlR HlA HlQ Htop Hsc [HD HRB];
    cbn [bz_loop].
  { rewrite Nat.mul_0_r, !drop_0 in HD. pose proof (val_nonneg _ HR).
    destruct (div_mod_unique (val A) (val B) (val Q) (val Ri)) as [Eq Er]; [lia | lia |].
    apply wpP_ret. unfold blocks_post; cbn [fst snd]. split_and!; (done || lia || by auto with digits). }
  apply wpP_bind, wpP_lift, wp_Digits_plus; [lia|].
  wpP_lift_apply (PutAt_spec (drop n Zd) Ri n); [done | rewrite length_drop; lia|].
  intros T (P1 & -> & HlP1 & HP1 & EP1). rewrite take_ge in EP1 by lia.
  rewrite drop_drop, (drop_ge Zd), app_nil_r by lia.
  apply wpP_bind, wpP_lift, wp_Digits_plus; [lia|].
  wpP_lift_apply (PutAt_spec (take n Zd ++ P1) (drop (n * i) A) n);
    [by auto with digits | rewrite length_app; lia|].
  intros T (P0 & -> & HlP0 & HP0 & EP0).
  rewrite (drop_app_length' (take n Zd)) by (rewrite length_take; lia). unfold Digits_slice.
  assert (length (slice Q (i * n) n) = n) as HlQi by (rewrite length_slice; lia).
  wpP_apply (D2n1n_spec L (S n) n); try (by auto with digits); try lia.
  { rewrite length_app. lia. }
  { rewrite drop_app_length' by done. lia. }
  intros [[Qi Ri'] s'] p' ((Hle & HlQi' & HQi & HRi' & Hval) & HlRi' & Hls' & Hs').
  assert (length (put_view Q (i * n) Qi) = length Q) as HlQv by (rewrite length_put_view; lia).
  assert (digits_ok (put_view Q (i * n) Qi)) as HQv by (by apply digits_ok_put_view).
  apply wpP_bind, wpP_should_terminate. destruct (status_ p') eqn:Est.
  2: { rewrite bool_decide_true by done. apply wpP_ret. unfold blocks_post; cbn [fst snd]. split_and!; done. }
  rewrite bool_decide_false by done. destruct (Hval eq_refl) as [EQi ERi].
  rewrite val_app, HlP0, EP0, EP1 in EQi, ERi.
  assert (0 < val B) as HB0 by (pose proof (bpow_pos n); lia).
  wpP_apply IH; try (by auto with digits); try lia.
  { by eapply steady_le. } { rewrite length_app. lia. }
  { split; [|rewrite ERi; apply Z.mod_pos_bound; lia].
    assert (val (drop (n * i) (put_view Q (i * n) Qi)) = val Qi + bpow n * val (drop (n * S i) Q)) as ->.
    { unfold put_view. rewrite (Nat.mul_comm i n), drop_app_length' by (rewrite length_take; lia).
      rewrite val_app, HlQi'. by replace (n * i + n)%nat with (n * S i)%nat by lia. }
    rewrite (val_drop_block A n i) by lia. rewrite HD, EQi, ERi.
    pose proof (Z.div_mod (val (take n (drop (n * i) A)) + bpow n * val Ri) (val B)). lia. }
  intros [Q' st] p'' (? & ? & ? & ?). unfold blocks_post in *; cbn [fst snd] in *.
  split_and!; [by eapply status_le_trans | lia | done | done].
Qed.

Lemma bz_blocks_spec L t n A B Q p `{!Multiplier L} :
  (0 < n)%nat -> (n <= 2 * L)%nat -> steady p -> digits_ok A -> digits_ok B -> digits_ok Q ->
  length B = n -> (2 <= t)%nat -> (n * (t - 2) <= length A <= n * t)%nat ->
  (n * (t - 2) <= length Q)%nat -> bpow n <= 2 * val B ->
  val (drop (n * (t - 2)) A) < val B * bpow n -> val A / val B < bpow (length Q) ->
  wpP (bz_blocks t n A B Q) p (blocks_post A B Q p).
Proof.
  intros Hn HL Hst HA HB HQ HlB Ht HlA HlQ Htop HtopA Hquot. unfold bz_blocks.
  set (k := (n * (t - 2))%nat) in *.
  apply wpP_bind, wpP_lift, wp_Digits_plus; [lia|].
  assert (length (drop k A) <= n * 2)%nat as Hltop by (rewrite length_drop; unfold k in *; nia).
  wpP_lift_apply (PutAt_spec (uninitialized (n * 2)) (drop k A) (n * 2)); [by auto with digits | by rewrite length_uninitialized|].
  intros Zd (P & -> & HlP & HP & EP). rewrite drop_ge, app_nil_r by (by rewrite length_uninitialized).
  rewrite take_ge in EP by done.
  set (sc := uninitialized _). assert (digits_ok sc) as Hsc by apply uninitialized_ok.
  assert (kBurnikelThreshold <= Z.of_nat n -> (n <= length sc)%nat) as Hlsc.
  { intros Hbig. unfold sc. rewrite length_uninitialized. destruct (Z.leb_spec kBurnikelThreshold (Z.of_nat n)); lia. }
  assert (digits_ok (uninitialized n) /\ length (uninitialized n) = n) as [Hu Hlu]
    by (split; [apply uninitialized_ok | apply length_uninitialized]).
  pose proof (bpow_pos n) as Hbn. assert (0 < val B) as HB0 by lia.
  wpP_apply (D2n1n_spec L (S n) n); try done; try lia.
  { apply (mul_lt_cancel _ _ (bpow n)); [done|]. rewrite (val_split P n), length_take, Nat.min_l in EP by lia.
    pose proof (val_nonneg _ (digits_ok_take n P HP)). lia. }
  intros [[Qi Ri] s'] p1 ((Hle & HlQi & HQi & HRi & Hval) & HlRi & Hls' & Hs').
  apply wpP_bind, wpP_should_terminate. destruct (status_ p1) eqn:Est.
  2: { rewrite bool_decide_true by done. apply wpP_ret. unfold blocks_post; cbn [fst snd]. split_and!; done. }
  rewrite bool_decide_false by done. destruct (Hval eq_refl) as [EQi ERi]. rewrite EP in EQi, ERi.
  apply wpP_bind, wpP_lift, wp_Digits_plus; [lia|].
  pose proof (Z.div_mod (val (drop k A)) (val B)) as Hdm.
  pose proof (Z.mod_pos_bound (val (drop k A)) (val B) HB0) as Hmb.
  assert (val Qi < bpow (length Q - k)) as HQi_fit.
  { apply (mul_lt_cancel _ _ (bpow k)); [apply bpow_pos|]. rewrite <- bpow_add.
    replace (length Q - k + k)%nat with (length Q) by lia. eapply Z.le_lt_trans; [|exact Hquot].
    apply Z.div_le_lower_bound; [done|]. rewrite (val_split A k), length_take, Nat.min_l by lia.
    pose proof (val_nonneg _ (digits_ok_take k A HA)). pose proof (bpow_pos k).
    rewrite EQi. assert (bpow k * (val B * (val (drop k A) / val B)) <= bpow k * val (drop k A))
      by (apply Z.mul_le_mono_nonneg_l; lia). lia. }
  assert (length (Normalize Qi) <= length (drop k Q))%nat as HlNQ.
  { rewrite length_drop. by apply length_Normalize_bound. }
  apply wpP_bind, wpP_lift, wp_dcheck_decide; [done|].
  wpP_lift_apply PutAt_full; [by auto with digits | by rewrite normalized_id by auto with digits | by auto with digits |].
  intros T (HlT & HT & ET). rewrite val_Normalize in ET. rewrite length_drop in HlT.
  wpP_apply bz_loop_spec; try (by auto with digits); try lia.
  { by eapply steady_le. } { rewrite length_app, length_take. lia. }
  { split; [|lia]. fold k. rewrite drop_app_length' by (rewrite length_take; lia). rewrite ET, EQi, ERi. lia. }
  intros [Q' st] p2 (? & Hl & ? & ?). unfold blocks_post in *; cbn [fst snd] in *.
  rewrite length_app, length_take in Hl.
  split_and!; [by eapply status_le_trans | lia | done | done].
Qed.

Lemma CountLeadingZeros_ge d k :
  is_digit d -> 0 <= k <= kDigitBits -> k <= CountLeadingZeros d -> d < 2 ^ (kDigitBits - k).
Proof.
  intros Hd Hk. unfold CountLeadingZeros. destruct (Z.eqb_spec d 0) as [-> | Hd0].
  - intros _. apply Z.pow_pos_nonneg; lia.
  - intros Hc. apply Z.log2_lt_pow2; unfold is_digit in Hd; lia.
Qed.

(** The extra digit leaves the top bit of the shifted dividend clear. *)
Lemma extra_digit_spec A atop sigma :
  digits_ok A -> A !! (length A - 1)%nat = Some atop -> (0 < length A)%nat -> 0 <= sigma < kDigitBits ->
  2 * (val A * 2 ^ sigma) <
    bpow (length A + (if CountLeadingZeros atop <? sigma + 1 then 1 else 0)).
Proof.
  intros HA Htop Hl Hs. pose proof (digits_ok_lookup _ _ _ HA Htop) as Hd.
  pose proof (Z.pow_pos_nonneg 2 sigma) as Hp2.
  assert (2 ^ (sigma + 1) = 2 * 2 ^ sigma) as E1 by (rewrite Z.pow_add_r by lia; lia).
  destruct (Z.ltb_spec (CountLeadingZeros atop) (sigma + 1)) as [Hlt | Hge].
  - rewrite Nat.add_1_r, bpow_S. pose proof (val_bounds _ HA).
    assert (2 * 2 ^ sigma <= digit_base) by (rewrite <- E1; apply Z.pow_le_mono_r; lia). nia.
  - rewrite Nat.add_0_r. apply CountLeadingZeros_ge in Hge; [|done | lia].
    assert (val A < (atop + 1) * bpow (length A - 1)) as HvA.
    { rewrite <- (take_ge A (S (length A - 1))) at 1 by lia. rewrite (val_take_S _ _ _ Htop).
      pose proof (val_bounds _ (digits_ok_take (length A - 1) A HA)) as Bt.
      rewrite length_take, Nat.min_l in Bt by lia. lia. }
    assert (digit_base = 2 ^ (kDigitBits - (sigma + 1)) * 2 ^ (sigma + 1)) as EB
      by (unfold digit_base; rewrite <- Z.pow_add_r by lia; f_equal; lia).
    replace (bpow (length A)) with (digit_base * bpow (length A - 1))
      by (rewrite <- bpow_S; f_equal; lia).
    rewrite EB, E1. pose proof (bpow_pos (length A - 1)) as Hb.
    assert ((atop + 1) * bpow (length A - 1) <= 2 ^ (kDigitBits - (sigma + 1)) * bpow (length A - 1))
      by (apply Z.mul_le_mono_nonneg_r; lia). nia.
Qed.

Lemma low_digits_zero R k x :
  digits_ok R -> (k <= length R)%nat -> val R = bpow k * x ->
  take k R = replicate k 0 /\ val (drop k R) = x.
Proof.
  intros HR Hk E. rewrite (val_split R k), length_take, Nat.min_l in E by lia.
  pose proof (val_bounds _ (digits_ok_take k R HR)) as Bt. rewrite length_take, Nat.min_l in Bt by lia.
  pose proof (bpow_pos k). assert (val (drop k R) = x) as <- by nia. split; [|done].
  apply val_inj; [by auto with digits..| rewrite length_take, length_replicate; lia|].
  rewrite val_replicate_0. lia.
Qed.

(** Number of blocks of [n] digits a vector of [r] digits has, at least two. *)
Lemma bz_block_count r n :
  (0 < n)%nat -> (0 < r)%nat ->
  let t := Z.to_nat (DIV_CEIL (Z.of_nat r) (Z.of_nat n) `max` 2) in
  (2 <= t)%nat /\ (n * (t - 2) <= r)%nat /\ (r <= n * t)%nat /\ (t = 2 \/ n * (t - 1) < r)%nat.
Proof.
  intros Hn Hr t. unfold t, DIV_CEIL.
  pose proof (Z.div_mod (Z.of_nat r - 1) (Z.of_nat n)). pose proof (Z.mod_pos_bound (Z.of_nat r - 1) (Z.of_nat n)).
  set (d := (Z.of_nat r - 1) / Z.of_nat n) in *. assert (0 <= d) by (apply Z.div_pos; lia).
  assert (Z.of_nat n * d < Z.of_nat r <= Z.of_nat n * (d + 1)) as Hd by lia.
  replace d with (Z.of_nat (Z.to_nat d)) in Hd |- * by lia. set (e := Z.to_nat d) in *. clearbody e.
  replace (Z.to_nat ((Z.of_nat e + 1) `max` 2)) with (S e `max` 2)%nat by lia.
  destruct e as [|e]; [simpl; lia|]. replace (S (S e) `max` 2)%nat with (S (S e)) by lia.
  replace (S (S e) - 2)%nat with e by lia. replace (S (S e) - 1)%nat with (S e) by lia. lia.
Qed.

Lemma DivideBurnikelZiegler_spec L Q R A B p `{!Multiplier L} :
  steady p -> digits_ok Q -> digits_ok R -> digits_ok A -> digits_ok B -> normalized B -> B <> [] ->
  (length B <= length A)%nat -> (length A - length B < length Q)%nat ->
  R = [] \/ (length B <= length R)%nat -> Z.of_nat (length B) < 2 ^ 30 -> (length B <= L)%nat ->
  wpP (DivideBurnikelZiegler Q R A B) p (fun '(Q', R') p' => status_le p p' /\
    length Q' = length Q /\ digits_ok Q' /\ length R' = length R /\ digits_ok R' /\
    (status_ p' = kOk -> val Q' = val A / val B /\ (R <> [] -> val R' = val A mod val B))).
Proof.
  intros Hst HQ HR HA HB NB HneB Hl HlQ HlR Hint HL. unfold DivideBurnikelZiegler.
  assert (0 < length B)%nat as HlB0 by (destruct B; [done | simpl; lia]).
  apply wpP_bind, wpP_lift, wp_dcheck_decide; [done|].
  apply wpP_bind, wpP_lift, wp_dcheck_decide; [destruct HlR as [-> | ?]; [by left | by right]|].
  apply wpP_bind, wpP_lift, wp_dcheck_decide; [done|].
  destruct (bz_block_len_spec (length B) HlB0 Hint) as [Hns Hn2]. set (n := bz_block_len (length B)) in *.
  apply wpP_bind, wpP_lift, wp_rd; [lia | done|]. intros btop Hbtop Hdb.
  (* the shifted divisor *)
  destruct (exists_last HneB) as (B' & d & EBd).
  assert (d = btop) as ->.
  { rewrite EBd, length_app in Hbtop. cbn [length] in Hbtop.
    rewrite lookup_app_r in Hbtop by lia. replace (_ - _ - _)%nat with 0%nat in Hbtop by lia. by injection Hbtop. }
  destruct (leading_zeros_shift B B' btop HB EBd) as (Hsig & Htop2 & Hfit2).
  { intros ->. apply NB. by rewrite EBd, last_snoc. }
  set (sigma := CountLeadingZeros btop) in *. set (ds := (n - length B)%nat) in *.
  pose proof (Z.pow_pos_nonneg 2 sigma ltac:(lia) ltac:(lia)) as Hp2.
  wpP_lift_apply (bz_shifted_spec n ds B sigma); [done | lia | lia | |].
  { by replace (n - ds)%nat with (length B) by lia. }
  intros Bs (HlBs & HBs & EBs).
  apply wpP_bind, wpP_lift, wp_rd; [lia | done|]. intros atop Hatop Hda.
  pose proof (extra_digit_spec A atop sigma HA Hatop ltac:(lia) ltac:(lia)) as Hextra.
  set (e := if CountLeadingZeros atop <? sigma + 1 then 1%nat else 0%nat) in *.
  assert (e <= 1)%nat as He by (unfold e; destruct (_ <? _); lia).
  pose proof (val_nonneg _ HA) as HA0.
  wpP_lift_apply (bz_shifted_spec (length A + ds + e) ds A sigma); [done | lia | lia | |].
  { replace (length A + ds + e - ds)%nat with (length A + e)%nat by lia. nia. }
  intros As (HlAs & HAs & EAs).
  (* the blocks *)
  destruct (bz_block_count (length A + ds + e) n) as (Ht2 & Ht & Ht' & Hcount); [lia | lia|].
  set (t := Z.to_nat _) in *.
  pose proof (val_pos_of_normalized B HB NB HneB) as HB0. pose proof (bpow_pos ds) as Hbd.
  assert (bpow n <= 2 * val Bs) as Htop.
  { rewrite EBs. replace n with (ds + length B)%nat by lia. rewrite bpow_add.
    assert (bpow ds * bpow (length B) <= bpow ds * (2 * (val B * 2 ^ sigma)))
      by (apply Z.mul_le_mono_nonneg_l; lia). lia. }
  assert (val As / val Bs = val A / val B /\ val As mod val Bs = bpow ds * (val A mod val B * 2 ^ sigma)) as [Eq Er].
  { rewrite EAs, EBs. split.
    - rewrite Z.div_mul_cancel_l, Z.div_mul_cancel_r by nia. done.
    - rewrite Z.mul_mod_distr_l, Z.mul_mod_distr_r by nia. done. }
  assert (n * (t - 2) <= length A - length B + e)%nat as Hnt.
  { destruct Hcount as [-> | Hc]; [simpl; lia|].
    replace (n * (t - 1))%nat with (n * (t - 2) + n)%nat in Hc by nia. lia. }
  wpP_apply (bz_blocks_spec L); try done; try lia.
  { (* the top blocks *)
    set (k := (n * (t - 2))%nat) in *.
    assert (2 * val (drop k As) < bpow (n + n)).
    { apply Z.lt_le_trans with (bpow (length As - k)); [|apply bpow_le; unfold k; nia].
      apply (mul_lt_cancel _ _ (bpow k)); [apply bpow_pos|]. rewrite <- bpow_add.
      replace (length As - k + k)%nat with (ds + (length A + e))%nat by lia. rewrite bpow_add.
      pose proof (val_nonneg _ (digits_ok_take k As HAs)).
      pose proof (val_split As k) as Es. rewrite length_take, Nat.min_l in Es by lia.
      assert (bpow ds * (2 * (val A * 2 ^ sigma)) < bpow ds * bpow (length A + e))
        by (apply Z.mul_lt_mono_pos_l; lia). lia. }
    rewrite bpow_add in *. pose proof (bpow_pos n).
    assert (bpow n * bpow n <= (2 * val Bs) * bpow n) by (apply Z.mul_le_mono_nonneg_r; lia). lia. }
  { rewrite Eq. apply Z.div_lt_upper_bound; [done|].
    pose proof (val_bounds _ HA) as BA. pose proof (normalized_lower B HB NB HneB) as Hlow.
    eapply Z.lt_le_trans; [apply BA|].
    apply Z.le_trans with (bpow (length B - 1) * bpow (length Q)).
    - rewrite <- bpow_add. apply bpow_le. lia.
    - apply Z.mul_le_mono_nonneg_r; [pose proof (bpow_pos (length Q)); lia | done]. }
  intros [Q' st] p1 (Hle & HlQ' & HQ' & Hst'). cbn [fst snd] in *.
  destruct st as [Ri|].
  2: { apply wpP_ret. split_and!; try done. congruence. }
  destruct Hst' as (Hok & HlRi & HRi & EQ' & ERi). rewrite Eq in EQ'. rewrite Er in ERi.
  destruct (low_digits_zero Ri ds _ HRi ltac:(lia) ERi) as [Ez Edrop].
  apply wpP_bind, wpP_lift. eapply wp_mono; [apply (wp_for_loop (fun _ _ => True)); [done|]|].
  { intros i _ Hi _. apply wp_bind, wp_rd; [lia | done|]. intros d Hd _.
    assert (take ds Ri !! i = Some d) as Hd' by (rewrite lookup_take_lt by lia; done).
    rewrite Ez in Hd'. apply lookup_replicate in Hd' as [-> _]. by apply wp_dcheck. }
  intros _ _. case_bool_decide as HR0.
  2: { apply wpP_ret. split_and!; try done. intros _. split; [done|]. by intros []; destruct R. }
  assert (Digits_slice Ri ds (length Ri) = drop ds Ri) as ->
    by (unfold Digits_slice, slice; rewrite take_ge; [done | rewrite length_drop; lia]).
  pose proof (Z.mod_pos_bound (val A) (val B) HB0) as Hmb.
  assert (length (Normalize (drop ds Ri)) <= length R)%nat as HlN.
  { destruct HlR as [-> | HlR]; [done|]. etransitivity; [|exact HlR].
    apply length_Normalize_bound; [by auto with digits|]. rewrite Edrop.
    apply Z.lt_trans with (val B * 2 ^ sigma); [apply Z.mul_lt_mono_pos_r; lia | done]. }
  apply wpP_bind, wpP_lift, wp_dcheck_decide; [done|].
  wpP_lift_apply RightShift_spec; [by auto with digits | lia | by rewrite normalized_id by auto with digits |].
  intros R' (HlR' & HR' & ER'). apply wpP_ret. rewrite val_Normalize, Edrop, Z.div_mul in ER' by lia.
  split_and!; try done.
Qed.
End div_burnikel.
