(* ===== verification/DivBarrett.v ===== *)
(** Barrett division with a Newton inverse: [src/bigint/div-barrett.cc]. *)

From Stdlib Require Import ZArith Lia.
From stdpp Require Import base tactics numbers list option.
From S2P Require Import Prelude Digit Digits VectorArithmetic Processor MulSchoolbook MulKaratsuba DivHelpers MulToom Multiply DivSchoolbook DivBurnikel.

#[local] Open Scope Z_scope.

Section div_barrett.
Context `{Config, Platform}.
Context {alloc : Allocator} {fft : FftMultiplier}.
Implicit Types A B Q R Iv V X : digits.

Definition kNewtonInversionThreshold : Z := 50.
Definition DivideBarrettScratchSpace (n : nat) : nat := (n + 2)%nat.
Definition kInvertNewtonExtraSpace : nat := 5.
Definition InvertNewtonScratchSpace (n : nat) : nat := (3 * n + 2 * kInvertNewtonExtraSpace)%nat.
Definition InvertScratchSpace (n : nat) : nat :=
  if Z.of_nat n <? kNewtonInversionThreshold then (2 * n)%nat else InvertNewtonScratchSpace n.

Definition DcheckIntegerPartRange (X : digits) (min max : Z) : res unit :=
  integer_part ← msd X;
  dcheck (min <=? integer_part);;
  dcheck (integer_part <=? max).

(** [Z := (the fractional part of) 1/V], via naive division.  The results are the new
    contents of [Z] and of [scratch]. *)
Definition InvertBasecase (Zd V scratch : digits) : PM (digits * digits) :=
  lift (dcheck (bool_decide (length V < length Zd)%nat));;
  lift (dcheck (bool_decide (0 < length V)%nat));;
  lift (dcheck (bool_decide (2 * length V <= length scratch)%nat));;
  let n := length V in
  let X := Digits_slice scratch 0 (2 * n) in
  '(X, _) ← lift (write_loop n 0 (fun _ _ _ => mret (0, tt)) X tt);
  '(X, borrow) ← lift (write_loop n n
    (fun i _ borrow => v ← rd V (i - n); mret (digit_sub2 0 v borrow)) X 0);
  lift (dcheck (borrow =? 1));;
  let scratch := put_view scratch 0 X in
  '(Zd, _) ←
    (if Z.of_nat n <? kBurnikelThreshold then DivideSchoolbook Zd [] X V
     else DivideBurnikelZiegler Zd [] X V);
  mret (Zd, scratch).

(** ** Newton iteration *)

(** Step (1): the fraction bits [k] of the base case, and the targets of the iterations,
    [target_fraction_bits[iteration]] first. *)
Fixpoint newton_targets (fuel : nat) (k : Z) (target_fraction_bits : list Z) : res (Z * list Z) :=
  match fuel with
  | O => Err OutOfFuel
  | S fuel =>
      if (kNewtonInversionThreshold - 1) * kDigitBits <? k then
        if bool_decide (length target_fraction_bits < 32)%nat then
          newton_targets fuel (DIV_CEIL k 2) (k :: target_fraction_bits)
        else Err OutOfBounds
      else mret (k, target_fraction_bits)
  end.

(** Steps (3b) to (3e): [U] and [W] for the current approximation [Z], in the scratch
    space; [None] for an early return. *)
Definition newton_products (V Zv scratch : digits) (k : Z) : PM (digits * option (digits * digits)) :=
  let vn := length V in
  let kUOffset := (vn + kInvertNewtonExtraSpace)%nat in
  let S0 := Digits_slice scratch 0 (2 * length Zv) in
  S0 ← Multiply S0 Zv Zv;
  let scratch := put_view scratch 0 S0 in
  t ← should_terminate;
  if (t : bool) then mret (scratch, None)
  else
    S0 ← lift (TrimOne S0);
    lift (DcheckIntegerPartRange S0 1 4);;
    let fraction_digits := Z.to_nat (DIV_CEIL (2 * k + 3) kDigitBits) in
    let t_len := (length V `min` fraction_digits)%nat in
    let T := Digits_slice V (length V - t_len) t_len in
    let fraction_digits := Z.to_nat (DIV_CEIL (2 * k + 1) kDigitBits) in
    let U := Digits_slice scratch kUOffset (length S0 + length T) in
    lift (dcheck (bool_decide (fraction_digits < length U)%nat));;
    U ← Multiply U S0 T;
    let scratch := put_view scratch kUOffset U in
    t ← should_terminate;
    if (t : bool) then mret (scratch, None)
    else
      let u_off := (length U - (1 + fraction_digits))%nat in
      U ← lift (Digits_plus U u_off);
      lift (DcheckIntegerPartRange U 0 3);;
      lift (dcheck (bool_decide (length Zv <= length U)%nat));;
      let W := Digits_slice scratch 0 (length U) in
      let padding_digits := (length U - length Zv)%nat in
      '(W, _) ← lift (write_loop padding_digits 0 (fun _ _ _ => mret (0, tt)) W tt);
      W_high ← lift (Digits_plus W padding_digits);
      W_high ← lift (LeftShift W_high Zv 1);
      let W := take padding_digits W ++ W_high in
      let scratch := put_view scratch 0 W in
      let U := Digits_slice scratch (kUOffset + u_off) (length U) in
      lift (DcheckIntegerPartRange W 2 4);;
      mret (scratch, Some (U, W)).

(** Step (3f), last iteration: [vn] fraction digits and the integer part separately. *)
Definition newton_last (Zd U W : digits) (vn : nat) : res digits :=
  let W_part := Digits_slice W (length W - vn - 1) vn in
  let U_part := Digits_slice U (length U - vn - 1) vn in
  '(Zv, borrow) ← SubtractAndReturnBorrow (take vn Zd) W_part U_part;
  w ← msd W;
  u ← msd U;
  let integer_part := wrap (w - u - borrow) in
  dcheck ((integer_part =? 1) || (integer_part =? 2));;
  let Zv := if integer_part =? 2 then SetOnes Zv else Zv in
  mret (put_view Zd 0 Zv).

(** Step (3): [zlen] is the current length of [Z], a prefix of its buffer. *)
Fixpoint newton_loop (fuel : nat) (V Zd : digits) (zlen : nat) (k : Z)
    (target_fraction_bits : list Z) (scratch : digits) : PM (digits * digits) :=
  match fuel with
  | O => lift (Err OutOfFuel)
  | S fuel =>
      let vn := length V in
      let Zv := take zlen Zd in
      lift (DcheckIntegerPartRange Zv 1 2);;
      '(scratch, r) ← newton_products V Zv scratch k;
      match r with
      | None => mret (Zd, scratch)
      | Some (U, W) =>
          if bool_decide (length U <= vn)%nat then
            lift (dcheck (bool_decide (1 < length target_fraction_bits)%nat));;
            let zlen := length U in
            '(Zv, borrow) ← lift (SubtractAndReturnBorrow (take zlen Zd) W U);
            lift (dcheck (borrow =? 0));;
            let Zd := put_view Zd 0 Zv in
            lift (DcheckIntegerPartRange Zv 1 2);;
            match target_fraction_bits with
            | [] => lift (Err OutOfBounds)
            | k :: target_fraction_bits =>
                newton_loop fuel V Zd zlen k target_fraction_bits scratch
            end
          else
            lift (dcheck (bool_decide (length target_fraction_bits = 1)%nat));;
            Zd ← lift (newton_last Zd U W vn);
            mret (Zd, scratch)
      end
  end.

Definition InvertNewton (Zd V scratch : digits) : PM (digits * digits) :=
  let vn := length V in
  lift (dcheck (bool_decide (vn <= length Zd)%nat));;
  lift (dcheck (bool_decide (InvertNewtonScratchSpace vn <= length scratch)%nat));;
  lift (dcheck (bool_decide (3 <= length V)%nat));;
  lift (dcheck (kNewtonInversionThreshold - 1 <? Z.of_nat (length V)));;
  bn ← lift (IsBitNormalized V);
  lift (dcheck bn);;
  '(k, target_fraction_bits) ← lift (newton_targets 33 (Z.of_nat vn * kDigitBits) []);
  let initial_digits := Z.to_nat (DIV_CEIL (k + 1) kDigitBits) in
  let top_part_of_v := Digits_slice V (vn - initial_digits) initial_digits in
  '(Zd, scratch) ← InvertBasecase Zd top_part_of_v scratch;
  z ← lift (rd Zd initial_digits);
  Zd ← lift (wr Zd initial_digits (wrap (z + 1)));
  newton_loop 33 V Zd (initial_digits + 1) k target_fraction_bits scratch.

(** [Z] receives the fractional part of [1/V]; the integer part is an implicit 1. *)
Definition Invert (Zd V scratch : digits) : PM (digits * digits) :=
  lift (dcheck (bool_decide (length V < length Zd)%nat));;
  lift (dcheck (bool_decide (1 <= length V)%nat));;
  bn ← lift (IsBitNormalized V);
  lift (dcheck bn);;
  lift (dcheck (bool_decide (InvertScratchSpace (length V) <= length scratch)%nat));;
  let vn := length V in
  if kNewtonInversionThreshold <=? Z.of_nat vn then InvertNewton Zd V scratch
  else if bool_decide (vn = 1)%nat then
    d ← lift (rd V 0);
    '(q, _) ← lift (digit_div (wrap (Z.lnot d)) (digit_base - 1) d);
    Zd ← lift (wr Zd 0 q);
    Zd ← lift (wr Zd 1 0);
    mret (Zd, scratch)
  else
    '(Zd, scratch) ← InvertBasecase Zd V scratch;
    top ← lift (rd Zd vn);
    if top =? 1 then
      let Zd := put_view Zd 0 (SetOnes (take vn Zd)) in
      Zd ← lift (wr Zd vn 0);
      mret (Zd, scratch)
    else mret (Zd, scratch).

(** ** Division with a given inverse *)

(** Step (5b): [do { r_high += AddAndReturnCarry(R, R, B); q_sub++; } while (r_high != 0)]. *)
Fixpoint barrett_add_back (fuel : nat) (R B : digits) (r_high q_sub : Z) : res (digits * Z) :=
  match fuel with
  | O => Err OutOfFuel
  | S fuel =>
      '(R, carry) ← AddAndReturnCarry R R B;
      let r_high := wrap (r_high + carry) in
      let q_sub := wrap (q_sub + 1) in
      dcheck (q_sub <=? 5);;
      if negb (r_high =? 0) then barrett_add_back fuel R B r_high q_sub else mret (R, q_sub)
  end.

(** Step (5c): [while (r_high != 0 || GreaterThanOrEqual(R, B)) ...]. *)
Fixpoint barrett_subtract (fuel : nat) (R B : digits) (r_high q_add : Z) : res (digits * Z) :=
  match fuel with
  | O => Err OutOfFuel
  | S fuel =>
      more ← (if negb (r_high =? 0) then mret true else GreaterThanOrEqual R B);
      if (more : bool) then
        '(R, borrow) ← SubtractAndReturnBorrow R R B;
        let r_high := wrap (r_high - borrow) in
        let q_add := wrap (q_add + 1) in
        dcheck (q_add <=? 5);;
        barrett_subtract fuel R B r_high q_add
      else mret (R, q_add)
  end.

(** Steps (3) and (5), from the approximate quotient [Qv] and its product [P] with [B]. *)
Definition barrett_adjust (Qv R A B P : digits) : res (digits * digits) :=
  '(R, borrow) ← SubtractAndReturnBorrow R A (Digits_slice P 0 (length B));
  R ← zero_from (length B) R;
  a ← rd A (length B);
  pd ← rd P (length B);
  let r_high := wrap (a - pd - borrow) in
  if Z.shiftr r_high (kDigitBits - 1) =? 1 then
    '(R, q_sub) ← barrett_add_back 6 R B r_high 0;
    Qv ← Subtract_digit Qv q_sub;
    mret (Qv, R)
  else
    '(R, q_add) ← barrett_subtract 6 R B r_high 0;
    Qv ← Add_digit Qv q_add;
    mret (Qv, R).

(** [DivideBarrett(Q, R, A, B, Iv, scratch)]. *)
Definition DivideBarrettWith (Q R A B Iv scratch : digits) : PM (digits * digits * digits) :=
  lift (dcheck (bool_decide (length A - length B < length Q)%nat));;
  lift (dcheck (bool_decide (length B <= length R)%nat));;
  lift (dcheck (bool_decide (length B < length A)%nat));;
  lift (dcheck (bool_decide (length A <= 2 * length B)%nat));;
  lift (dcheck (bool_decide (0 < length B)%nat));;
  bn ← lift (IsBitNormalized B);
  lift (dcheck bn);;
  lift (dcheck (bool_decide (length Iv = length A - length B)%nat));;
  lift (dcheck (bool_decide (DivideBarrettScratchSpace (length A) <= length scratch)%nat));;
  A1 ← lift (Digits_plus A (length B));
  lift (dcheck (bool_decide (length A1 = length Iv)));;
  let K := Digits_slice scratch 0 (2 * length Iv) in
  K ← Multiply K A1 Iv;
  let scratch := put_view scratch 0 K in
  t ← should_terminate;
  if (t : bool) then mret (Q, R, scratch)
  else
    K_high ← lift (Digits_plus K (length Iv));
    Qv ← lift (Add (take (length Iv + 1) Q) K_high A1);
    let P := Digits_slice scratch 0 (length A + 1) in
    P ← Multiply P B Qv;
    let scratch := put_view scratch 0 P in
    t ← should_terminate;
    if (t : bool) then mret (put_view Q 0 Qv, R, scratch)
    else
      '(Qv, R) ← lift (barrett_adjust Qv R A B P);
      Q ← lift (zero_from (length Qv) (put_view Q 0 Qv));
      mret (Q, R, scratch).

(** ** Division of arbitrary operands *)

(** [for (int i = t - 3; i >= 0; i--)], for [i] rounds; [None] is an early return. *)
Fixpoint barrett_loop (i n : nat) (A B Iv Q Zd Qi Ri scratch : digits) : PM (digits * option digits) :=
  match i with
  | O => mret (Q, Some Ri)
  | S i =>
      tail ← lift (Digits_plus Zd n);
      tail ← lift (PutAt tail Ri n);
      let Zd := take n Zd ++ tail in
      Ai ← lift (Digits_plus A (n * i));
      Zd ← lift (PutAt Zd Ai n);
      '(Qi, Ri, scratch) ← DivideBarrettWith Qi Ri Zd B Iv scratch;
      top ← lift (rd Qi (length Qi - 1));
      lift (dcheck (top =? 0));;
      t ← should_terminate;
      if (t : bool) then mret (Q, None)
      else
        target ← lift (Digits_plus Q (n * i));
        target ← lift (PutAt target Qi n);
        let Q := take (n * i) Q ++ target in
        barrett_loop i n A B Iv Q Zd Qi Ri scratch
  end.

(** The first quotient [Qi], all digits of which may be used, goes to [target]. *)
Definition put_first_quotient (Qi target : digits) : res digits :=
  let to_copy := (length Qi `min` length target)%nat in
  '(target, _) ← write_loop to_copy 0 (fun j _ _ => q ← rd Qi j; mret (q, tt)) target tt;
  target ← zero_from to_copy target;
  for_loop (length Qi - to_copy) to_copy (fun j _ => q ← rd Qi j; dcheck (q =? 0)) tt;;
  mret target.

(** The chunks of a dividend that is more than twice as long as the divisor. *)
Definition barrett_chunks (A B Iv Q scratch : digits) : PM (digits * option digits) :=
  let n := length B in
  let t := Z.to_nat (DIV_CEIL (Z.of_nat (length A)) (Z.of_nat n)) in
  lift (dcheck (bool_decide (3 <= t)%nat));;
  let z_len := (n * 2)%nat in
  top ← lift (Digits_plus A (n * (t - 2)));
  Zd ← lift (PutAt (uninitialized z_len) top z_len);
  let qi_len := (n + 1)%nat in
  '(Qi, Ri, scratch) ← DivideBarrettWith (uninitialized qi_len) (uninitialized n) Zd B Iv scratch;
  t' ← should_terminate;
  if (t' : bool) then mret (Q, None)
  else
    let i := (t - 2)%nat in
    target ← lift (Digits_plus Q (n * i));
    target ← lift (put_first_quotient Qi target);
    let Q := take (n * i) Q ++ target in
    barrett_loop (t - 2) n A B Iv Q Zd Qi Ri scratch.

Definition DivideBarrett (Q R A B : digits) : PM (digits * digits) :=
  lift (dcheck (bool_decide (length A - length B < length Q)%nat));;
  lift (dcheck (bool_decide (length B <= length R)%nat));;
  lift (dcheck (bool_decide (length B < length A)%nat));;
  lift (dcheck (bool_decide (0 < length B)%nat));;
  b_normalized ← lift (ShiftedDigits_new B (-1) false);
  a_normalized ← lift (ShiftedDigits_new A (shift_ b_normalized) false);
  let B := sd_digits b_normalized in
  let A := sd_digits a_normalized in
  let barrett_dividend_length :=
    if bool_decide (length A <= 2 * length B)%nat then length A else (2 * length B)%nat in
  let i_len := (barrett_dividend_length - length B)%nat in
  let scratch_len :=
    (InvertScratchSpace i_len `max` DivideBarrettScratchSpace barrett_dividend_length)%nat in
  '(Iv, scratch) ← Invert (uninitialized (i_len + 1)) (Digits_slice B (length B - i_len) i_len)
    (uninitialized scratch_len);
  t ← should_terminate;
  if (t : bool) then mret (Q, R)
  else
    Iv ← lift (TrimOne Iv);
    lift (dcheck (bool_decide (length Iv = i_len)));;
    if bool_decide (2 * length B < length A)%nat then
      '(Q, r) ← barrett_chunks A B Iv Q scratch;
      match r with
      | None => mret (Q, R)
      | Some Ri =>
          let Ri := Normalize Ri in
          lift (dcheck (bool_decide (length Ri <= length R)%nat));;
          R ← lift (RightShift R Ri (shift_ b_normalized));
          mret (Q, R)
      end
    else
      '(Q, R, _) ← DivideBarrettWith Q R A B Iv scratch;
      t ← should_terminate;
      if (t : bool) then mret (Q, R)
      else
        R ← lift (RightShift R R (shift_ b_normalized));
        mret (Q, R).

(** ** Bit-normalized vectors *)

Lemma top_bit_test d : is_digit d -> (Z.shiftr d (kDigitBits - 1) =? 1) = (digit_base <=? 2 * d).
Proof.
  intros Hd. unfold is_digit in Hd. rewrite digit_base_even in *.
  assert (0 <= kDigitBits - 1) by (destruct kDigitBits_cases; lia).
  rewrite Z.shiftr_div_pow2 by lia. set (h := 2 ^ (kDigitBits - 1)) in *.
  assert (0 < h) as Hp by (apply Z.pow_pos_nonneg; lia).
  destruct (Z.leb_spec (2 * h) (2 * d)).
  - apply Z.eqb_eq. symmetry. apply Z.div_unique with (d - h); lia.
  - apply Z.eqb_neq. rewrite Z.div_small by lia. done.
Qed.

Lemma IsBitNormalized_spec X :
  digits_ok X -> X <> [] -> wp (IsBitNormalized X) (fun b => b = (bpow (length X) <=? 2 * val X)).
Proof.
  intros HX Hne. unfold IsBitNormalized. apply wp_bind, wp_msd; [done | done|].
  intros X' d -> Hd. apply wp_ret. rewrite top_bit_test by done.
  apply Forall_app in HX as [HX' _]. rewrite val_snoc, length_app, Nat.add_1_r, bpow_S.
  pose proof (val_bounds X' HX'). pose proof (bpow_pos (length X')). unfold is_digit in Hd.
  destruct (Z.leb_spec digit_base (2 * d)).
  - symmetry. apply Z.leb_le. nia.
  - symmetry. apply Z.leb_gt. rewrite digit_base_even in *.
    assert (d + 1 <= 2 ^ (kDigitBits - 1)) by lia. nia.
Qed.

Lemma wpP_bit_normalized {T} X (rest : PM T) p (Q : T -> ProcessorImpl -> Prop) :
  digits_ok X -> (0 < length X)%nat -> bpow (length X) <= 2 * val X -> wpP rest p Q ->
  wpP (bn ← lift (IsBitNormalized X); lift (dcheck bn);; rest) p Q.
Proof.
  intros HX Hl Hv Hrest. apply wpP_bind, wpP_lift.
  eapply wp_mono; [apply IsBitNormalized_spec; [done | by intros ->; simpl in *; lia]|].
  intros bn ->. apply wpP_bind, wpP_lift, wp_dcheck; [by apply Z.leb_le | done].
Qed.

(** ** The correction loops *)

(** [R] and the digit above it hold the remainder [rho] modulo [bpow (n + 1)]. *)
Definition rem_state (n : nat) (R : digits) (r_high rho : Z) : Prop :=
  digits_ok R /\ is_digit r_high /\ drop n R = replicate (length R - n) 0 /\ (n <= length R)%nat /\
  val (take n R) + bpow n * r_high = rho mod bpow (S n).

Lemma rem_state_exact n R r_high rho :
  rem_state n R r_high rho -> 0 <= rho < bpow (S n) -> val (take n R) + bpow n * r_high = rho.
Proof. intros (_ & _ & _ & _ & ->) Hr. by apply Z.mod_small. Qed.

Lemma rem_state_val n R r_high rho : rem_state n R r_high rho -> val (take n R) = val R.
Proof.
  intros (_ & _ & Hz & Hn & _). rewrite (val_split R n), Hz, val_replicate_0. lia.
Qed.

(** A step that changes the remainder by [delta]: [p'] is the new low part and [c] what
    it carries into the digit above. *)
Lemma rem_state_step n R r_high rho P c delta :
  rem_state n R r_high rho -> length P = n -> digits_ok P ->
  val P + c * bpow n = val (take n R) + delta ->
  rem_state n (P ++ drop n R) (wrap (r_high + c)) (rho + delta).
Proof.
  intros (HR & Hr & Hz & Hn & E) HlP HP EP. unfold rem_state.
  rewrite take_app_length' by done. rewrite drop_app_length' by done.
  pose proof (wrap_digit (r_high + c)) as Hw.
  split_and!; [by auto with digits | done | by rewrite Hz, length_app, length_replicate, HlP; f_equal; lia
    | rewrite length_app; lia |].
  symmetry. pose proof (val_bounds P HP) as HvP. rewrite HlP in HvP. rewrite bpow_S in *.
  unfold is_digit in Hw. pose proof (bpow_pos n). pose proof digit_base_ge.
  apply mod_eq_of_bounds; [nia|].
  assert (exists k, wrap (r_high + c) = r_high + c + digit_base * k) as [k Ek].
  { exists (- ((r_high + c) / digit_base)). unfold wrap. pose proof (Z.div_mod (r_high + c) digit_base). lia. }
  assert (digit_base * bpow n <> 0) as Hne by nia. pose proof (Z.div_mod rho _ Hne) as Edm.
  exists (rho / (digit_base * bpow n) - k). rewrite Ek.
  replace (val P) with (val (take n R) + delta - c * bpow n) by lia.
  transitivity (rho mod (digit_base * bpow n) + delta + rho / (digit_base * bpow n) * (digit_base * bpow n));
    [lia|]. rewrite <- E. ring.
Qed.

Lemma barrett_add_back_spec fuel R B r_high rho c :
  rem_state (length B) R r_high rho -> digits_ok B -> 0 < val B -> 0 <= c -> (6 - c <= Z.of_nat fuel) ->
  - (5 - c) * val B <= rho < 0 ->
  wp (barrett_add_back fuel R B r_high c) (fun '(R', q) => length R' = length R /\ digits_ok R' /\
    exists k, q = c + k /\ 0 <= k <= 5 - c /\ val R' = rho + k * val B /\ 0 <= val R' < val B).
Proof.
  revert R r_high rho c. induction fuel as [|fuel IH]; intros R r_high rho c Hst HB HB0 Hc Hf Hrho; [nia|].
  cbn [barrett_add_back]. pose proof Hst as (HR & _ & _ & Hn & _).
  pose proof (val_bounds B HB) as HvB. pose proof digit_base_ge as Hbase. pose proof (bpow_pos (length B)) as Hbp.
  apply wp_bind. eapply wp_mono; [apply AddAndReturnCarry_spec; done|].
  intros [R1 carry] (P & -> & HlP & HP & Hcarry & EP).
  pose proof (rem_state_step _ _ _ _ P carry _ Hst HlP HP EP) as Hst1.
  assert (c <= 4) by nia.
  rewrite (wrap_small (c + 1)) by (unfold is_digit; lia).
  apply wp_bind, wp_dcheck; [apply Z.leb_le; lia|].
  pose proof Hst1 as (HR1 & Hr1 & _ & _ & E1). rewrite take_app_length' in E1 by done.
  pose proof (val_bounds P HP) as HvP. rewrite HlP in HvP. unfold is_digit in Hr1.
  destruct (Z.lt_ge_cases (rho + val B) 0) as [Hneg | Hpos].
  - assert (- 5 * bpow (length B) <= rho + val B) as Hlow by nia.
    rewrite (mod_eq_of_bounds (rho + val B) (rho + val B + bpow (S (length B)))) in E1;
      [| rewrite bpow_S; nia | exists (-1); lia].
    destruct (Z.eqb_spec (wrap (r_high + carry)) 0) as [E0 | _]; cbn [negb].
    { exfalso. rewrite E0, bpow_S in E1. nia. }
    eapply wp_mono; [apply (IH _ _ _ (c + 1) Hst1); try done; try lia|].
    intros [R' q] (Hl' & HR' & k & -> & Hk & EV & Hb). split_and!; [| done |].
    + rewrite Hl', length_app, length_drop. lia.
    + exists (k + 1). split_and!; lia.
  - rewrite Z.mod_small in E1 by (rewrite bpow_S; nia).
    assert (wrap (r_high + carry) = 0) as Ew by nia. rewrite Ew in E1 |- *. cbn [negb Z.eqb]. apply wp_ret.
    rewrite <- (rem_state_val _ _ _ _ Hst1), take_app_length' by done.
    split_and!; [rewrite length_app, length_drop; lia | done |]. exists 1. split_and!; lia.
Qed.

Lemma barrett_subtract_spec fuel R B r_high rho c :
  rem_state (length B) R r_high rho -> digits_ok B -> 0 < val B -> 0 <= c <= 5 -> (6 - c <= Z.of_nat fuel) ->
  0 <= rho < (6 - c) * val B ->
  wp (barrett_subtract fuel R B r_high c) (fun '(R', q) => length R' = length R /\ digits_ok R' /\
    exists k, q = c + k /\ 0 <= k <= 5 - c /\ val R' = rho - k * val B /\ 0 <= val R' < val B).
Proof.
  revert R r_high rho c. induction fuel as [|fuel IH]; intros R r_high rho c Hst HB HB0 Hc Hf Hrho; [lia|].
  cbn [barrett_subtract]. pose proof Hst as (HR & Hr & _ & Hn & _). unfold is_digit in Hr.
  pose proof (val_bounds B HB) as HvB. pose proof digit_base_ge as Hbase. pose proof (bpow_pos (length B)) as Hbp.
  assert (0 <= rho < bpow (S (length B))) as Hrange by (rewrite bpow_S; nia).
  pose proof (rem_state_exact _ _ _ _ Hst Hrange) as Erho.
  pose proof (rem_state_val _ _ _ _ Hst) as EvR. rewrite EvR in Erho.
  pose proof (val_nonneg R HR).
  apply wp_bind, (wp_mono _ (fun b => b = (val B <=? rho))).
  { destruct (Z.eqb_spec r_high 0) as [-> | Hne]; cbn [negb].
    - eapply wp_mono; [by apply GreaterThanOrEqual_spec|]. intros b ->. f_equal. lia.
    - apply wp_ret. symmetry. apply Z.leb_le. nia. }
  intros b ->. destruct (Z.leb_spec (val B) rho) as [Hge | Hlt].
  - apply wp_bind. eapply wp_mono; [apply SubtractAndReturnBorrow_spec; done|].
    intros [R1 borrow] (P & -> & HlP & HP & Hbor & EP).
    assert (val P + - borrow * bpow (length B) = val (take (length B) R) + - val B) as EP' by lia.
    pose proof (rem_state_step _ _ _ _ P _ _ Hst HlP HP EP') as Hst1.
    rewrite !Z.add_opp_r in Hst1. assert (c <= 4) by nia.
    rewrite (wrap_small (c + 1)) by (unfold is_digit; lia).
    apply wp_bind, wp_dcheck; [apply Z.leb_le; lia|].
    eapply wp_mono; [apply (IH _ _ _ (c + 1) Hst1); try done; try lia|].
    intros [R' q] (Hl' & HR' & k & -> & Hk & EV & Hb). split_and!; [| done |].
    + rewrite Hl', length_app, length_drop. lia.
    + exists (k + 1). split_and!; lia.
  - apply wp_ret. assert (r_high = 0) as -> by nia. split_and!; [done | done|]. exists 0. split_and!; lia.
Qed.

(** ** Accuracy of the quotient estimate *)

(** [Iv] approximates [M^2 / v]: at most one too large and less than three too small. *)
Definition inverse_ok (M v Iv : Z) : Prop := (Iv - 1) * v <= M * M < (Iv + 3) * v.

(** [Iv] approximates [M^2 * E / B] for the divisor [B]: at most five too large and less than
    three too small. *)
Definition barrett_inverse (M E B Iv : Z) : Prop := (Iv - 5) * B <= M * M * E < (Iv + 3) * B.

(** An inverse of the top digits [v] of the divisor is accurate enough. *)
Lemma inverse_of_top (M E v b0 Iv : Z) :
  0 < E -> 0 < v <= M -> M <= 2 * v -> 0 <= b0 < E -> 0 <= Iv -> inverse_ok M v Iv -> barrett_inverse M E (v * E + b0) Iv.
Proof.
  intros HE Hv Hv2 Hb0 HIv [Hi1 Hi2]. set (B := v * E + b0). split.
  - assert (v * ((Iv - 5) * B) <= v * (M * M * E)) as Hs; [|apply Z.mul_le_mono_pos_l in Hs; lia].
    assert (B * ((Iv - 1) * v) <= B * (M * M)) as H1' by (apply Z.mul_le_mono_nonneg_l; [unfold B; nia | done]).
    assert (M * M * b0 <= (4 * (v * v)) * E) as H2' by (apply Z.mul_le_mono_nonneg; nia).
    assert (v * (v * E) <= v * B) as H3' by (apply Z.mul_le_mono_nonneg_l; [lia | unfold B; lia]).
    replace (B * (M * M)) with (v * (M * M * E) + M * M * b0) in H1' by (unfold B; ring). lia.
  - apply Z.lt_le_trans with ((Iv + 3) * v * E); [nia|]. rewrite <- Z.mul_assoc. apply Z.mul_le_mono_nonneg_l; [lia | unfold B; lia].
Qed.

(** So are the top digits [T] of an inverse of the whole divisor. *)
Lemma top_of_inverse (M E B Iv T r : Z) :
  0 < E -> 0 < B -> inverse_ok (M * E) B Iv -> Iv = T * E + r -> 0 <= r < E -> barrett_inverse M E B T.
Proof.
  intros HE HB [Hi1 Hi2] -> Hr. split.
  - assert (E * ((T - 5) * B) <= E * (M * M * E)) as Hs; [|apply Z.mul_le_mono_pos_l in Hs; lia].
    assert (0 <= r * B) by nia. assert (B <= E * (5 * B)) by nia. lia.
  - assert (E * (M * M * E) < E * ((T + 3) * B)) as Hs; [|apply Z.mul_lt_mono_pos_l in Hs; lia].
    assert ((r + 3) * B <= E * (3 * B)) by nia. lia.
Qed.

(** The quotient estimated with an approximate inverse is at most five too large or too small. *)
Lemma barrett_estimate (M E B a1 a0 Iv q : Z) :
  0 < M -> 0 < B -> M * E <= 2 * B -> 0 <= a1 < M -> 0 <= a0 < M * E ->
  0 <= Iv -> barrett_inverse M E B Iv -> q * M <= a1 * Iv < (q + 1) * M ->
  let A := a1 * (M * E) + a0 in
  - 5 * B <= A - B * q < 6 * B.
Proof.
  intros HM HB HME Ha1 Ha0 HIv [Hi1 Hi2] [Hq1 Hq2] A. split.
  - assert (M * (B * q) <= M * (A + 5 * B)) as Hs; [|apply Z.mul_le_mono_pos_l in Hs; lia].
    assert (q * M * B <= a1 * Iv * B) by (apply Z.mul_le_mono_nonneg_r; lia).
    assert (a1 * ((Iv - 5) * B) <= a1 * (M * M * E)) by (apply Z.mul_le_mono_nonneg_l; lia).
    assert (a1 * (5 * B) <= M * (5 * B)) by (apply Z.mul_le_mono_nonneg_r; lia).
    assert (M * (a1 * (M * E)) <= M * A) by (apply Z.mul_le_mono_nonneg_l; [lia | unfold A; lia]). lia.
  - assert (M * A < M * ((q + 6) * B)) as Hs; [|apply Z.mul_lt_mono_pos_l in Hs; lia].
    assert (M * A < M * ((a1 + 1) * (M * E))) by (apply Z.mul_lt_mono_pos_l; [lia | unfold A; lia]).
    assert (a1 * (M * M * E) <= a1 * ((Iv + 3) * B)) by (apply Z.mul_le_mono_nonneg_l; lia).
    assert ((a1 * Iv) * B <= ((q + 1) * M) * B) by (apply Z.mul_le_mono_nonneg_r; lia).
    assert (a1 * (3 * B) <= M * (3 * B)) by (apply Z.mul_le_mono_nonneg_r; lia).
    assert (M * (M * E) <= M * (2 * B)) by (apply Z.mul_le_mono_nonneg_l; lia). lia.
Qed.

Lemma barrett_adjust_spec Qv R A B P :
  digits_ok Qv -> digits_ok R -> digits_ok A -> digits_ok B -> digits_ok P -> Qv <> [] ->
  (length B < length A)%nat -> (length B < length P)%nat -> (length B <= length R)%nat ->
  val P = val B * val Qv -> 0 < val B -> val A / val B < bpow (length Qv) ->
  - 5 * val B <= val A - val B * val Qv < 6 * val B ->
  wp (barrett_adjust Qv R A B P) (fun '(Q', R') => length Q' = length Qv /\ digits_ok Q' /\
    length R' = length R /\ digits_ok R' /\ val Q' = val A / val B /\ val R' = val A mod val B).
Proof.
  intros HQ HR HA HB HP HneQ HlA HlP HlR EP HB0 Hfit Hrho. unfold barrett_adjust.
  set (n := length B) in *. set (rho := val A - val B * val Qv) in *.
  pose proof (val_bounds B HB) as HvB. fold n in HvB. pose proof (bpow_pos n) as Hbp. pose proof digit_base_ge as Hbase.
  assert (length (Digits_slice P 0 n) = n) as HlPs by (unfold Digits_slice; rewrite length_slice; lia).
  assert (Digits_slice P 0 n = take n P) as EPs by (unfold Digits_slice, slice; by rewrite drop_0).
  apply wp_bind. eapply wp_mono; [apply SubtractAndReturnBorrow_spec; rewrite ?HlPs; try done; [by apply digits_ok_slice | lia]|].
  rewrite HlPs. intros [R1 borrow] (P1 & -> & HlP1 & HP1 & Hbor & E1). rewrite EPs in E1.
  apply wp_bind, wp_zero_from; [done|].
  apply wp_bind, wp_rd; [done | done|]. intros a Ha Hda.
  apply wp_bind, wp_rd; [done | done|]. intros pd Hpd Hdpd.
  pose proof (wrap_digit (a - pd - borrow)) as Hrh. set (r_high := wrap (a - pd - borrow)) in *.
  set (R0 := P1 ++ replicate (length (drop n R)) 0).
  assert (length R0 = length R) as HlR0 by (unfold R0; rewrite length_app, length_replicate, length_drop; lia).
  assert (rem_state n R0 r_high rho) as Hst.
  { unfold rem_state. rewrite HlR0. unfold R0. rewrite take_app_length', drop_app_length' by done.
    split_and!; [by auto with digits | done | by rewrite length_drop | done |].
    pose proof (val_bounds P1 HP1) as HvP1. rewrite HlP1 in HvP1. unfold is_digit in Hrh.
    symmetry. apply mod_eq_of_bounds; [rewrite bpow_S; nia|].
    assert (exists k, r_high = a - pd - borrow + digit_base * k) as [k Ek].
    { exists (- ((a - pd - borrow) / digit_base)). unfold r_high, wrap. pose proof (Z.div_mod (a - pd - borrow) digit_base). lia. }
    exists (val (drop (S n) A) - val (drop (S n) P) - k).
    assert (val A = val (take n A) + bpow n * a + bpow (S n) * val (drop (S n) A)) as EA.
    { rewrite (val_split A (S n)), length_take, Nat.min_l, (val_take_S A n a Ha) by lia. done. }
    assert (val P = val (take n P) + bpow n * pd + bpow (S n) * val (drop (S n) P)) as EP'.
    { rewrite (val_split P (S n)), length_take, Nat.min_l, (val_take_S P n pd Hpd) by lia. done. }
    unfold rho. rewrite <- EP, EA, EP', Ek, bpow_S. replace (val P1) with (val (take n A) - val (take n P) + borrow * bpow n) by lia.
    ring. }
  rewrite top_bit_test by done.
  assert (forall q, 0 <= rho + q * val B < val B -> val Qv - q = val A / val B /\ rho + q * val B = val A mod val B) as Hfin.
  { intros q Hq. destruct (div_mod_unique (val A) (val B) (val Qv - q) (rho + q * val B)) as [-> ->];
      [done | unfold rho; lia | done]. }
  pose proof (val_nonneg Qv HQ) as HQ0. pose proof (Z.div_pos (val A) (val B) (val_nonneg A HA) HB0) as Hq0.
  destruct (Z.lt_ge_cases rho 0) as [Hneg | Hpos].
  - destruct (Z.leb_spec digit_base (2 * r_high)) as [_ | Hbad].
    2: { exfalso. destruct Hst as (_ & _ & _ & _ & Est).
      rewrite (mod_eq_of_bounds rho (rho + bpow (S n))) in Est; [| rewrite bpow_S; nia | exists (-1); lia].
      rewrite bpow_S in Est. pose proof (val_bounds _ (digits_ok_take n R0 ltac:(unfold R0; by auto with digits))) as Hb.
      rewrite length_take, Nat.min_l in Hb by lia. nia. }
    apply wp_bind. eapply wp_mono; [apply (barrett_add_back_spec 6 R0 B r_high rho 0); (done || lia)|].
    intros [R' q] (HlR' & HR' & k & -> & Hk & EV & Hb). cbn [fst snd].
    rewrite EV in Hb. destruct (Hfin k Hb) as [EQ ER]. apply wp_bind.
    eapply wp_mono; [apply Subtract_digit_spec; [done | done | unfold is_digit; lia | lia]|].
    intros Q' (HlQ' & HQ' & EQ'). apply wp_ret. split_and!; [done | done | congruence | done | lia | lia].
  - destruct (Z.leb_spec digit_base (2 * r_high)) as [Hbad | _].
    { exfalso. pose proof (rem_state_exact _ _ _ _ Hst) as Est. rewrite bpow_S in Est.
      pose proof (val_nonneg _ (digits_ok_take n R0 ltac:(unfold R0; by auto with digits))). nia. }
    apply wp_bind. eapply wp_mono; [apply (barrett_subtract_spec 6 R0 B r_high rho 0); (done || lia)|].
    intros [R' q] (HlR' & HR' & k & -> & Hk & EV & Hb).
    destruct (Hfin (- k) ltac:(lia)) as [EQ ER]. apply wp_bind.
    eapply wp_mono; [apply Add_digit_spec; [done | done | unfold is_digit; lia | lia]|].
    intros Q' (HlQ' & HQ' & EQ'). apply wp_ret. split_and!; [done | done | congruence | done | lia | lia].
Qed.

(** ** Division with a given inverse *)

(** What a division algorithm leaves behind; the results count only when nobody
    interrupted it. *)
Definition division_post (Q R A B : digits) (p : ProcessorImpl) (Q' R' : digits) (p' : ProcessorImpl) : Prop :=
  status_le p p' /\ length Q' = length Q /\ digits_ok Q' /\ length R' = length R /\ digits_ok R' /\
  (status_ p' = kOk -> val Q' = val A / val B /\ val R' = val A mod val B).

Lemma wpP_terminated {T} (r : T) rest p (Post : T -> ProcessorImpl -> Prop) :
  (status_ p = kInterrupted -> Post r p) -> (status_ p = kOk -> wpP rest p Post) ->
  wpP (t ← should_terminate; if (t : bool) then mret r else rest) p Post.
Proof. apply (wpP_return_if_terminated r rest p Post). Qed.

Lemma quotient_bound A B :
  digits_ok A -> digits_ok B -> bpow (length B) <= 2 * val B -> (length B <= length A)%nat ->
  val A / val B < bpow (length A - length B + 1).
Proof.
  intros HA HB Htop Hl. pose proof (bpow_pos (length B)). pose proof (val_bounds A HA) as HvA.
  apply Z.div_lt_upper_bound; [lia|]. rewrite bpow_add, bpow_1.
  replace (length A) with (length B + (length A - length B))%nat in HvA by lia. rewrite bpow_add in HvA.
  pose proof digit_base_ge. pose proof (bpow_pos (length A - length B)).
  set (m := bpow (length A - length B)) in *.
  apply Z.lt_le_trans with (2 * val B * m); [apply Z.lt_le_trans with (bpow (length B) * m); nia|].
  assert (val B * m * 2 <= val B * m * digit_base) by (apply Z.mul_le_mono_nonneg_l; nia). lia.
Qed.

Lemma DivideBarrettWith_correct L Q R A B Iv scratch p `{!Multiplier L} :
  steady p -> digits_ok Q -> digits_ok R -> digits_ok A -> digits_ok B -> digits_ok Iv -> digits_ok scratch ->
  (length B < length A <= 2 * length B)%nat -> (length A - length B < length Q)%nat ->
  (length B <= length R)%nat -> length Iv = (length A - length B)%nat ->
  (DivideBarrettScratchSpace (length A) <= length scratch)%nat -> (length B + 1 <= L)%nat ->
  bpow (length B) <= 2 * val B ->
  barrett_inverse (bpow (length Iv)) (bpow (length B - length Iv)) (val B) (bpow (length Iv) + val Iv) ->
  wpP (DivideBarrettWith Q R A B Iv scratch) p (fun '(Q', R', s') p' =>
    division_post Q R A B p Q' R' p' /\ length s' = length scratch /\ digits_ok s').
Proof.
  intros Hst HQ HR HA HB HI Hs HlA HlQ HlR HlI Hls HL Htop Hinv. unfold DivideBarrettWith.
  unfold DivideBarrettScratchSpace in Hls. set (n := length B) in *. set (m := length Iv) in *.
  do 5 (apply wpP_bind, wpP_lift, wp_dcheck_decide; [unfold DivideBarrettScratchSpace; lia|]).
  apply wpP_bit_normalized; [done | lia | done|].
  do 2 (apply wpP_bind, wpP_lift, wp_dcheck_decide; [unfold DivideBarrettScratchSpace; lia|]).
  apply wpP_bind, wpP_lift, wp_Digits_plus; [lia|].
  assert (length (drop n A) = m) as HlA1 by (rewrite length_drop; lia).
  apply wpP_bind, wpP_lift, wp_dcheck_decide; [done|].
  assert (digits_ok (drop n A)) as HA1 by auto with digits.
  assert (length (Digits_slice scratch 0 (2 * m)) = (2 * m)%nat) as HlK
    by (unfold Digits_slice; rewrite length_slice; lia).
  pose proof (length_Normalize (drop n A)). pose proof (length_Normalize Iv).
  wpP_apply multiply_correct; [done | by apply digits_ok_slice | done | done | lia | lia | lia |].
  intros K p1 (Hle1 & HlK' & HK & EK). rewrite HlK in HlK'.
  assert (length (put_view scratch 0 K) = length scratch) as Hls1 by (apply length_put_view; lia).
  assert (digits_ok (put_view scratch 0 K)) as Hs1 by (by apply digits_ok_put_view).
  apply wpP_terminated; intros Hst1.
  { split; [|done]. unfold division_post. split_and!; try done. congruence. }
  specialize (EK Hst1).
  apply wpP_bind, wpP_lift, wp_Digits_plus; [lia|].
  assert (length (take (m + 1) Q) = (m + 1)%nat) as HlQt by (rewrite length_take; lia).
  assert (length (drop m K) = m) as HlKh by (rewrite length_drop; lia).
  wpP_lift_apply Add_spec; [by auto with digits | done | lia | lia |].
  intros Qv (HlQv & HQv & EQv). rewrite HlQt in HlQv, EQv.
  (* the estimate *)
  pose proof (val_bounds _ HA1) as HvA1. rewrite HlA1 in HvA1.
  pose proof (val_bounds _ (digits_ok_take m K HK)) as HvKl. rewrite length_take, Nat.min_l in HvKl by lia.
  pose proof (val_bounds _ (digits_ok_drop m K HK)) as HvKh. rewrite HlKh in HvKh.
  pose proof (bpow_pos m) as Hbm. pose proof digit_base_ge as Hbase.
  rewrite Z.mod_small in EQv by (rewrite bpow_add, bpow_1; nia).
  rewrite (val_split K m), length_take, Nat.min_l in EK by lia.
  assert (length (Digits_slice (put_view scratch 0 K) 0 (length A + 1)) = (length A + 1)%nat) as HlP
    by (unfold Digits_slice; rewrite length_slice; lia).
  pose proof (length_Normalize B). pose proof (length_Normalize Qv).
  wpP_apply multiply_correct; [by eapply steady_le | by apply digits_ok_slice | done | done | lia | lia | lia |].
  intros P p2 (Hle2 & HlP' & HP & EP). rewrite HlP in HlP'.
  assert (length (put_view (put_view scratch 0 K) 0 P) = length scratch) as Hls2 by (rewrite length_put_view; lia).
  assert (digits_ok (put_view (put_view scratch 0 K) 0 P)) as Hs2 by (by apply digits_ok_put_view).
  assert (length (put_view Q 0 Qv) = length Q) as HlQ2 by (apply length_put_view; lia).
  pose proof (status_le_trans _ _ _ Hle1 Hle2) as Hle.
  apply wpP_terminated; intros Hst2.
  { split; [|done]. unfold division_post. split_and!; try done; [by apply digits_ok_put_view | congruence]. }
  specialize (EP Hst2).
  assert (0 < val B) as HB0 by (pose proof (bpow_pos n); lia).
  wpP_lift_apply barrett_adjust_spec; try done; try lia.
  { by intros ->; simpl in *; lia. }
  { rewrite HlQv. replace m with (length A - n)%nat by lia. apply quotient_bound; (done || lia). }
  { (* accuracy *)
    pose proof (val_bounds _ (digits_ok_take n A HA)) as Ha0. rewrite length_take, Nat.min_l in Ha0 by lia.
    assert (bpow n = bpow m * bpow (n - m)) as En by (rewrite <- bpow_add; f_equal; lia). rewrite En in *.
    pose proof (barrett_estimate (bpow m) (bpow (n - m)) (val B) (val (drop n A)) (val (take n A)) (bpow m + val Iv) (val Qv)) as Hest.
    replace (val A) with (val (drop n A) * (bpow m * bpow (n - m)) + val (take n A)).
    2: { rewrite <- En, (val_split A n), length_take, Nat.min_l by lia. lia. }
    pose proof (val_nonneg Iv HI). apply Hest; try done; try lia. }
  intros [Q' R'] (HlQ' & HQ' & HlR' & HR' & VQ & VR). cbn [fst snd] in *.
  assert (put_view Q 0 Q' = Q' ++ drop (length Q') Q) as -> by done.
  wpP_lift_apply (wp_zero_from Q' (drop (length Q') Q) (length Q')); [done | by apply eq_refl |].
  intros Q2 <-. apply wpP_ret. unfold division_post.
  split; [|done]. split_and!; try done.
  - rewrite length_app, length_replicate, length_drop. lia.
  - by auto with digits.
  - intros _. by rewrite val_app_zeros.
Qed.

(** With an inverse of as many top digits of the divisor as are needed. *)
Lemma DivideBarrettWith_spec L Q R A B Iv scratch p `{!Multiplier L} :
  steady p -> digits_ok Q -> digits_ok R -> digits_ok A -> digits_ok B -> digits_ok Iv -> digits_ok scratch ->
  (length B < length A <= 2 * length B)%nat -> (length A - length B < length Q)%nat ->
  (length B <= length R)%nat -> length Iv = (length A - length B)%nat ->
  (DivideBarrettScratchSpace (length A) <= length scratch)%nat -> (length B + 1 <= L)%nat ->
  bpow (length B) <= 2 * val B ->
  inverse_ok (bpow (length Iv)) (val (drop (length B - length Iv) B)) (bpow (length Iv) + val Iv) ->
  wpP (DivideBarrettWith Q R A B Iv scratch) p (fun '(Q', R', s') p' =>
    division_post Q R A B p Q' R' p' /\ length s' = length scratch /\ digits_ok s').
Proof.
  intros Hst HQ HR HA HB HI Hs HlA HlQ HlR HlI Hls HL Htop Hinv. apply (DivideBarrettWith_correct L); try done.
  set (n := length B) in *. set (m := length Iv) in *.
  pose proof (val_bounds _ (digits_ok_take (n - m) B HB)) as Hb0. rewrite length_take, Nat.min_l in Hb0 by lia.
  pose proof (val_bounds _ (digits_ok_drop (n - m) B HB)) as Hv. rewrite length_drop in Hv.
  fold n in Hv. replace (n - (n - m))%nat with m in Hv by lia.
  pose proof (top_half_bit B (n - m) m HB ltac:(lia) ltac:(lia)) as Htop'.
  replace (n - m + m)%nat with n in Htop' by lia. specialize (Htop' Htop).
  rewrite (val_split B (n - m)), length_take, Nat.min_l by lia. rewrite Z.add_comm, (Z.mul_comm (bpow (n - m))).
  pose proof (bpow_pos m). pose proof (bpow_pos (n - m)). pose proof (val_nonneg Iv HI). apply inverse_of_top; try done; lia.
Qed.

(** ** Inverses by division *)

(** The second loop of [InvertBasecase]: [bpow n - V], for a non-zero [V]. *)
Lemma wp_negate_digits V n Zl R (Q : digits * Z -> Prop) :
  digits_ok V -> length V = n -> length Zl = n -> digits_ok Zl -> (n <= length R)%nat -> 0 < val V ->
  (forall P, length P = n -> digits_ok P -> val P = bpow n - val V -> Q ((Zl ++ P) ++ drop n R, 1)) ->
  wp (write_loop n n (fun i _ borrow => v ← rd V (i - n); mret (digit_sub2 0 v borrow)) (Zl ++ R) 0) Q.
Proof.
  intros HV HlV HlZ HZ HlR HV0 HQ.
  apply (wp_write_loop (fun k P' b => exists P, P' = Zl ++ P /\ 0 <= b <= 1 /\
    val P = b * bpow (k - n) - val (take (k - n) V))); [done | done | done | | |].
  { exists []. rewrite app_nil_r, Nat.sub_diag, take_0. cbn [val]. split_and!; (done || lia). }
  { intros k P' b Hk HlP' HP' (P & -> & Hb & EP). apply wp_bind, wp_rd; [lia | done|]. intros v Hv Hdv.
    destruct (digit_sub2_spec 0 v b is_digit_0 Hdv Hb) as (r & c & -> & Er & Hr & Hc). apply wp_ret.
    split; [done|]. exists (P ++ [r]). split_and!; [by rewrite app_assoc | lia | lia |].
    rewrite length_app in HlP'. rewrite val_snoc. replace (length P) with (k - n)%nat by lia.
    replace (S k - n)%nat with (S (k - n)) by lia. rewrite (val_take_S V _ v Hv), bpow_S, EP.
    replace r with (c * digit_base + (0 - v - b)) by lia. ring. }
  intros P' b HlP' HP' (P & -> & Hb & EP). replace (n + n - n)%nat with n in EP by lia.
  rewrite take_ge in EP by lia. rewrite length_app in HlP'. apply Forall_app in HP' as [_ HP].
  pose proof (val_bounds P HP) as HvP. assert (b = 0 \/ b = 1) as [-> | ->] by lia; [lia|].
  apply HQ; [lia | done | lia].
Qed.

(** [2 * V >= bpow n], so the inverse has the integer part 1 (or is exactly 2). *)
Lemma inverse_bounds (M v : Z) :
  0 < M -> M <= 2 * v -> v < M -> M <= M * M / v <= 2 * M /\ inverse_ok M v (M * M / v) /\
  (M * M / v = 2 * M -> inverse_ok M v (2 * M - 1)).
Proof.
  intros HM H2 Hv. unfold inverse_ok.
  pose proof (Z.div_mod (M * M) v ltac:(lia)) as E. pose proof (Z.mod_pos_bound (M * M) v ltac:(lia)) as Hr.
  set (q := M * M / v) in *. split_and!; nia.
Qed.

Lemma InvertBasecase_spec Zd V scratch p :
  digits_ok Zd -> digits_ok V -> digits_ok scratch -> (2 <= length V)%nat ->
  Z.of_nat (length V) < kBurnikelThreshold -> (length V < length Zd)%nat ->
  (2 * length V <= length scratch)%nat -> bpow (length V) <= 2 * val V ->
  wpP (InvertBasecase Zd V scratch) p (fun '(Z', s') p' => status_le p p' /\
    length Z' = length Zd /\ digits_ok Z' /\ length s' = length scratch /\ digits_ok s' /\
    val Z' = bpow (length V) * bpow (length V) / val V - bpow (length V)).
Proof.
  intros HZ HV Hs Hn Hth HlZ Hls Htop. unfold InvertBasecase. set (n := length V) in *.
  do 3 (apply wpP_bind, wpP_lift, wp_dcheck_decide; [lia|]).
  pose proof (bpow_pos n) as Hbp. assert (0 < val V) as HV0 by lia.
  assert (length (Digits_slice scratch 0 (2 * n)) = (2 * n)%nat) as HlX
    by (unfold Digits_slice; rewrite length_slice; lia).
  set (X0 := Digits_slice scratch 0 (2 * n)) in *.
  assert (digits_ok X0) as HX0 by (by apply digits_ok_slice).
  apply wpP_bind, wpP_lift. rewrite <- (app_nil_l X0).
  apply (wp_write_loop (fun k P _ => P = replicate k 0)); [done | lia | constructor | done | |].
  { intros k P [] Hk HlP HP ->. apply wp_ret. split; [by auto with digits | by rewrite replicate_S_end]. }
  intros P [] HlP HP ->. rewrite Nat.add_0_l in *.
  apply wpP_bind, wpP_lift, wp_negate_digits; [done | done | done | done | rewrite length_drop; lia | done |].
  intros P HlP' HP' EP. rewrite (drop_ge (drop n X0)), app_nil_r by (rewrite length_drop; lia).
  apply wpP_bind, wpP_lift, wp_dcheck; [done|].
  set (X := replicate n 0 ++ P) in *.
  assert (digits_ok X) as HX by (unfold X; by auto with digits).
  assert (length X = (2 * n)%nat) as HlX' by (unfold X; rewrite length_app, length_replicate; lia).
  assert (val X = bpow n * (bpow n - val V)) as EX
    by (unfold X; rewrite val_app, val_replicate_0, length_replicate, EP; lia).
  rewrite (proj2 (Z.ltb_lt _ _) Hth).
  wpP_apply DivideSchoolbook_spec; try done; try lia.
  { apply top_bit_normalized; [done | fold n; lia | done]. }
  { unfold quotient_fits. right. left. lia. }
  { by left. }
  intros [Q' R'] p' (Hle & HlQ' & HlR' & HQ' & VQ & _). cbn [fst snd] in *. apply wpP_ret.
  assert (Zd <> []) as Hne by (by intros ->; simpl in *; lia).
  split_and!; [done | done | done | rewrite length_put_view; lia | by apply digits_ok_put_view |].
  rewrite (VQ Hne), EX.
  replace (bpow n * (bpow n - val V)) with (bpow n * bpow n + - bpow n * val V) by ring.
  rewrite Z.div_add by lia. lia.
Qed.

(** What [Invert] promises for a divisor of [n] digits: the digits below an implicit 1,
    and a zero that the caller trims. *)
Definition invert_spec (n : nat) : Prop := forall Zd V scratch p,
  steady p -> digits_ok Zd -> digits_ok V -> digits_ok scratch -> length V = n -> length Zd = (n + 1)%nat ->
  (InvertScratchSpace n <= length scratch)%nat -> bpow n <= 2 * val V ->
  wpP (Invert Zd V scratch) p (fun '(Z', s') p' => status_le p p' /\
    length Z' = (n + 1)%nat /\ digits_ok Z' /\ length s' = length scratch /\ digits_ok s' /\
    (status_ p' = kOk -> exists Iv, Z' = Iv ++ [0] /\ inverse_ok (bpow n) (val V) (bpow n + val Iv))).

Lemma invert_one d :
  is_digit d -> digit_base <= 2 * d ->
  wp (digit_div (wrap (Z.lnot d)) (digit_base - 1) d)
    (fun '(q, _) => is_digit q /\ inverse_ok digit_base d (digit_base + q)).
Proof.
  intros Hd Htop. unfold is_digit in *.
  assert (wrap (Z.lnot d) = digit_base - 1 - d) as E.
  { unfold wrap. apply mod_eq_of_bounds; [lia|]. exists (-1). unfold Z.lnot. lia. }
  rewrite E. eapply wp_mono; [apply digit_div_spec; unfold is_digit; lia|].
  intros [q r] (Eq & Hr & Hq). split; [done|]. unfold inverse_ok. nia.
Qed.

Lemma snoc_zero (Zd : digits) n : length Zd = (n + 1)%nat -> Zd !! n = Some 0 -> Zd = take n Zd ++ [0].
Proof.
  intros Hl Hn. rewrite <- (take_drop n Zd) at 1. f_equal.
  rewrite (drop_S Zd 0 n Hn), drop_ge by lia. done.
Qed.

Lemma invert_spec_small n : (0 < n)%nat -> Z.of_nat n < kNewtonInversionThreshold -> invert_spec n.
Proof.
  intros Hn Hth Zd V scratch p Hst HZ HV Hs HlV HlZ Hls Htop. unfold Invert. rewrite HlV.
  do 2 (apply wpP_bind, wpP_lift, wp_dcheck_decide; [lia|]).
  apply wpP_bit_normalized; [done | lia | by rewrite HlV |].
  apply wpP_bind, wpP_lift, wp_dcheck_decide; [done|].
  unfold InvertScratchSpace in Hls. rewrite (proj2 (Z.ltb_lt _ _) Hth) in Hls.
  destruct (Z.leb_spec kNewtonInversionThreshold (Z.of_nat n)); [lia|].
  pose proof (bpow_pos n) as Hbp.
  case_bool_decide as Hn1.
  - subst n. rewrite Hn1 in *. destruct V as [|d []]; try done. destruct Zd as [|z0 [|z1 []]]; try done.
    apply Forall_inv in HV. cbn [val] in Htop. rewrite bpow_1 in *. rewrite Z.mul_0_r, Z.add_0_r in Htop.
    apply wpP_bind, wpP_lift. unfold rd. cbn. wpP_lift_apply invert_one; [done | done |].
    intros [q r] [Hq Hinv]. cbn [fst snd] in *.
    do 2 (apply wpP_bind, wpP_lift, wp_wr; [simpl; lia|]). apply wpP_ret. cbn.
    assert (digits_ok [q; 0]) by (constructor; [done | constructor; [apply is_digit_0 | constructor]]).
    split_and!; try done; [by auto with digits |].
    intros _. exists [q]. cbn [val app]. split; [done|]. by rewrite !Z.mul_0_r, !Z.add_0_r.
  - wpP_apply InvertBasecase_spec; rewrite ?HlV; try done; try lia.
    { unfold kBurnikelThreshold, kNewtonInversionThreshold in *. lia. }
    intros [Z1 s1] p1 (Hle & HlZ1 & HZ1 & Hls1 & Hs1 & E1). cbn [fst snd] in *.
    pose proof (val_bounds V HV) as HvV. rewrite HlV in HvV.
    destruct (inverse_bounds (bpow n) (val V)) as (Hq & Hok & Hok2); [lia | done | lia|].
    apply wpP_bind, wpP_lift, wp_rd; [lia | done|]. intros top Htop1 Hdt. unfold is_digit in Hdt.
    assert (val Z1 = val (take n Z1) + bpow n * top) as Ev.
    { rewrite <- (val_take_S Z1 n top Htop1), take_ge by lia. done. }
    pose proof (val_bounds _ (digits_ok_take n Z1 HZ1)) as Ht. rewrite length_take, Nat.min_l in Ht by lia.
    set (q := bpow n * bpow n / val V) in *.
    destruct (Z.eqb_spec top 1) as [-> | Hne].
    + assert (q = 2 * bpow n) as E2 by nia.
      destruct (SetOnes_spec (take n Z1)) as (Hl1 & Hd1 & V1). rewrite length_take, Nat.min_l in Hl1, V1 by lia.
      set (ones := SetOnes (take n Z1)) in *.
      assert (put_view Z1 0 ones = ones ++ [1]) as ->.
      { unfold put_view. rewrite take_0, Hl1, Nat.add_0_l. cbn [app]. f_equal.
        rewrite (drop_S Z1 1 n Htop1), drop_ge by lia. done. }
      apply wpP_bind, wpP_lift, wp_wr; [rewrite length_app; simpl; lia|]. apply wpP_ret.
      rewrite insert_app_r_alt by lia. replace (n - length ones)%nat with 0%nat by lia. cbn [insert list_insert].
      split_and!; try done; [rewrite length_app; simpl; lia | apply digits_ok_snoc; [done | apply is_digit_0] |].
      intros _. exists ones. split; [done|]. rewrite V1. replace (bpow n + (bpow n - 1)) with (2 * bpow n - 1) by lia. auto.
    + assert (top = 0) as -> by nia. apply wpP_ret.
      split_and!; try done; [by lia |]. intros _. exists (take n Z1).
      split; [apply snoc_zero; [lia | done]|]. replace (bpow n + val (take n Z1)) with q by lia. done.
Qed.

(** ** Division of arbitrary operands *)

(** One more block: the quotient and remainder of [Ri] and the next [n] digits of [A]. *)
Lemma blocks_done_step A Q Q' (V : Z) n i Ri Qi Ri' :
  (n * S i <= length A)%nat -> 0 < V -> blocks_done A Q V n (S i) Ri ->
  val (drop (n * i) Q') = val Qi + bpow n * val (drop (n * S i) Q) ->
  val Qi = (val (take n (drop (n * i) A)) + bpow n * val Ri) / V ->
  val Ri' = (val (take n (drop (n * i) A)) + bpow n * val Ri) mod V ->
  blocks_done A Q' V n i Ri'.
Proof.
  intros Hl HV [HD HR] EQ' EQi ERi. split; [|rewrite ERi; apply Z.mod_pos_bound; lia].
  rewrite EQ', (val_drop_block A n i) by lia. rewrite HD, EQi, ERi.
  pose proof (Z.div_mod (val (take n (drop (n * i) A)) + bpow n * val Ri) V). lia.
Qed.

Lemma top_digit_zero X n :
  digits_ok X -> length X = (n + 1)%nat -> val X < bpow n -> X !! n = Some 0.
Proof.
  intros HX Hl Hv. destruct (lookup_lt_is_Some_2 X n ltac:(lia)) as [d Hd].
  pose proof (digits_ok_lookup _ _ _ HX Hd) as Hdd. unfold is_digit in Hdd.
  assert (val X = val (take n X) + bpow n * d) as E.
  { rewrite <- (val_take_S X n d Hd), take_ge by lia. done. }
  pose proof (val_nonneg _ (digits_ok_take n X HX)). pose proof (bpow_pos n).
  assert (d = 0) as -> by nia. done.
Qed.

Lemma barrett_loop_spec L i A B Iv Q Zd Qi Ri scratch p `{!Multiplier L} :
  let n := length B in
  (0 < n)%nat -> (n + 1 <= L)%nat -> uninterrupted p ->
  digits_ok A -> digits_ok B -> digits_ok Iv -> digits_ok Q -> digits_ok Zd -> digits_ok Qi -> digits_ok Ri ->
  digits_ok scratch -> length Zd = (2 * n)%nat -> length Qi = (n + 1)%nat -> length Ri = n -> length Iv = n ->
  (n * i <= length A)%nat -> (n * i <= length Q)%nat -> bpow n <= 2 * val B ->
  (DivideBarrettScratchSpace (2 * n) <= length scratch)%nat ->
  inverse_ok (bpow n) (val B) (bpow n + val Iv) -> blocks_done A Q (val B) n i Ri ->
  wpP (barrett_loop i n A B Iv Q Zd Qi Ri scratch) p (blocks_post A B Q p).
Proof.
  intros n Hn HL. revert Q Zd Qi Ri scratch p.
  induction i as [|i IH]; intros Q Zd Qi Ri scratch p Hun HA HB HI HQ HZ HQi HR Hs HlZ HlQi HlR HlI HlA HlQ Htop Hsc
    Hinv HD; cbn [barrett_loop].
  { destruct HD as [HD HRB]. rewrite Nat.mul_0_r, !drop_0 in HD. pose proof (val_nonneg _ HR).
    destruct (div_mod_unique (val A) (val B) (val Q) (val Ri)) as [Eq Er]; [lia | lia |].
    destruct Hun. apply wpP_ret. unfold blocks_post; cbn [fst snd]. split_and!; (done || lia || by auto with digits). }
  apply wpP_bind, wpP_lift, wp_Digits_plus; [lia|].
  wpP_lift_apply (PutAt_spec (drop n Zd) Ri n); [done | rewrite length_drop; lia|].
  intros T (P1 & -> & HlP1 & HP1 & EP1). rewrite take_ge in EP1 by lia.
  rewrite drop_drop, (drop_ge Zd), app_nil_r by lia.
  apply wpP_bind, wpP_lift, wp_Digits_plus; [lia|].
  wpP_lift_apply (PutAt_spec (take n Zd ++ P1) (drop (n * i) A) n);
    [by auto with digits | rewrite length_app; lia|].
  intros T (P0 & -> & HlP0 & HP0 & EP0).
  rewrite (drop_app_length' (take n Zd)) by (rewrite length_take; lia).
  assert (length (P0 ++ P1) = (2 * n)%nat) as HlZ' by (rewrite length_app; lia).
  assert (0 < val B) as HB0 by (pose proof (bpow_pos n); lia).
  wpP_apply DivideBarrettWith_spec; rewrite ?HlZ', ?HlI, ?Nat.sub_diag, ?drop_0; fold n; try (by auto with digits); try lia.
  by right.
  intros [[Qi' Ri'] s'] p' ((Hle & HlQi' & HQi' & HlRi' & HRi' & Hval) & Hls' & Hs').
  pose proof (uninterrupted_le _ _ Hle Hun) as [Hok Hno]. specialize (Hval Hok) as [EQi ERi].
  rewrite val_app, HlP0, EP0, EP1 in EQi, ERi.
  assert (val Qi' < bpow n) as HQlt.
  { rewrite EQi. apply Z.div_lt_upper_bound; [done|]. destruct HD as [_ HRB].
    pose proof (val_bounds _ (digits_ok_take n _ (digits_ok_drop (n * i) A HA))) as Hb.
    rewrite length_take, length_drop, Nat.min_l in Hb by lia. pose proof (bpow_pos n). nia. }
  replace (length Qi' - 1)%nat with n by lia.
  apply wpP_bind, wpP_lift. unfold rd. rewrite (top_digit_zero Qi' n) by (done || lia). apply wp_Ok.
  apply wpP_bind, wpP_lift, wp_dcheck; [done|].
  apply wpP_terminated; [congruence|]. intros _.
  apply wpP_bind, wpP_lift, wp_Digits_plus; [lia|].
  wpP_lift_apply (PutAt_spec (drop (n * i) Q) Qi' n); [done | rewrite length_drop; lia|].
  intros T (P & -> & HlP & HP & EP). rewrite drop_drop.
  assert (val P = val Qi') as EP'.
  { rewrite EP. rewrite (snoc_zero Qi' n) at 2; [| lia | apply top_digit_zero; (done || lia)].
    rewrite val_snoc. lia. }
  set (Q2 := take (n * i) Q ++ P ++ drop (n * i + n) Q).
  assert (length Q2 = length Q) as HlQ2
    by (unfold Q2; rewrite !length_app, length_take, length_drop; lia).
  wpP_apply IH; try (by auto with digits); try lia.
  { by unfold Q2; auto with digits. }
  { eapply (blocks_done_step A Q Q2 (val B) n i Ri Qi' Ri'); try done.
    unfold Q2. rewrite drop_app_length' by (rewrite length_take; lia).
    rewrite val_app, HlP, EP'. by replace (n * i + n)%nat with (n * S i)%nat by lia. }
  intros [Q' st] p'' (? & ? & ? & ?). unfold blocks_post in *; cbn [fst snd] in *.
  split_and!; [by eapply status_le_trans | lia | done | done].
Qed.

(** The quotient of the upper digits needs no more digits than the whole quotient has there. *)
Lemma quotient_prefix_fits A Q (V : Z) k :
  digits_ok A -> 0 < V -> (k <= length A)%nat -> (k <= length Q)%nat -> val A / V < bpow (length Q) ->
  val (drop k A) / V < bpow (length Q - k).
Proof.
  intros HA HV HkA HkQ Hquot. pose proof (Z.div_mod (val (drop k A)) V ltac:(lia)) as Hdm.
  pose proof (Z.mod_pos_bound (val (drop k A)) V HV) as Hmb. pose proof (bpow_pos k).
  apply (mul_lt_cancel _ _ (bpow k)); [done|]. rewrite <- bpow_add.
  replace (length Q - k + k)%nat with (length Q) by lia. eapply Z.le_lt_trans; [|exact Hquot].
  apply Z.div_le_lower_bound; [done|]. rewrite (val_split A k), length_take, Nat.min_l by lia.
  pose proof (val_nonneg _ (digits_ok_take k A HA)).
  assert (bpow k * (V * (val (drop k A) / V)) <= bpow k * val (drop k A))
    by (apply Z.mul_le_mono_nonneg_l; lia). lia.
Qed.

(** The copy of the first quotient into [target]: what does not fit is zero. *)
Lemma put_first_quotient_spec Qi T :
  digits_ok Qi -> val Qi < bpow (length T) ->
  wp (put_first_quotient Qi T) (fun T' => length T' = length T /\ digits_ok T' /\ val T' = val Qi).
Proof.
  intros HQ Hfit. unfold put_first_quotient.
  set (to_copy := (length Qi `min` length T)%nat). apply wp_bind.
  rewrite <- (app_nil_l T) at 1.
  apply (wp_write_loop (fun k P _ => P = take k Qi)); [done | lia | constructor | done | |].
  { intros k P [] Hk HlP HP ->. apply wp_bind, wp_rd; [lia | done|]. intros q Hq Hdq. apply wp_ret.
    split; [done|]. by rewrite (take_S_r _ _ _ Hq). }
  intros P [] HlP HP ->. rewrite Nat.add_0_l in *.
  apply wp_bind, wp_zero_from; [done|].
  assert (drop to_copy Qi = replicate (length Qi - to_copy) 0) as Ez.
  { destruct (decide (length Qi <= length T)%nat) as [Hc | Hc].
    { rewrite drop_ge by lia. by replace (length Qi - to_copy)%nat with 0%nat by lia. }
    replace to_copy with (length T) by lia.
    apply val_inj; [by auto with digits | by auto with digits | rewrite length_drop, length_replicate; lia |].
    rewrite val_replicate_0. rewrite (val_split Qi (length T)), length_take, Nat.min_l in Hfit by lia.
    pose proof (val_nonneg _ (digits_ok_take (length T) Qi HQ)).
    pose proof (val_nonneg _ (digits_ok_drop (length T) Qi HQ)). pose proof (bpow_pos (length T)). nia. }
  apply wp_bind. eapply wp_mono; [apply (wp_for_loop (fun _ _ => True)); [done|]|].
  { intros j _ Hj _. apply wp_bind, wp_rd; [lia | done|]. intros q Hq _.
    assert (drop to_copy Qi !! (j - to_copy)%nat = Some q) as Hq'
      by (rewrite lookup_drop; by replace (to_copy + (j - to_copy))%nat with j by lia).
    rewrite Ez in Hq'. apply lookup_replicate in Hq' as [-> _]. by apply wp_dcheck. }
  intros _ _. apply wp_ret. rewrite val_app_zeros, length_app, length_replicate, length_drop, length_take.
  split_and!; [lia | by auto with digits |].
  rewrite (val_split Qi to_copy), Ez, val_replicate_0. lia.
Qed.


Lemma barrett_chunks_spec L A B Iv Q scratch p `{!Multiplier L} :
  let n := length B in
  (0 < n)%nat -> (n + 1 <= L)%nat -> uninterrupted p ->
  digits_ok A -> digits_ok B -> digits_ok Iv -> digits_ok Q -> digits_ok scratch -> length Iv = n ->
  (2 * n < length A)%nat -> (length A - n <= length Q)%nat -> bpow n <= 2 * val B ->
  (DivideBarrettScratchSpace (2 * n) <= length scratch)%nat ->
  inverse_ok (bpow n) (val B) (bpow n + val Iv) -> val A / val B < bpow (length Q) ->
  wpP (barrett_chunks A B Iv Q scratch) p (blocks_post A B Q p).
Proof.
  intros n Hn HL Hun HA HB HI HQ Hs HlI HlA HlQ Htop Hsc Hinv Hquot. unfold barrett_chunks. fold n.
  destruct (bz_block_count (length A) n) as (Ht2 & Ht & Ht' & Hcount); [lia | lia |].
  assert (DIV_CEIL (Z.of_nat (length A)) (Z.of_nat n) `max` 2 = DIV_CEIL (Z.of_nat (length A)) (Z.of_nat n)) as Et.
  { apply Z.max_l. unfold DIV_CEIL.
    pose proof (Z.div_le_lower_bound (Z.of_nat (length A) - 1) (Z.of_nat n) 2). lia. }
  rewrite Et in *. set (t := Z.to_nat _) in *.
  assert (n * (t - 1) < length A)%nat as Hlt by (destruct Hcount as [E | ?]; [rewrite E in *; lia | done]).
  assert (n * (t - 1) = n * (t - 2) + n)%nat as Et1 by nia.
  apply wpP_bind, wpP_lift, wp_dcheck_decide; [nia|].
  set (k := (n * (t - 2))%nat) in *.
  apply wpP_bind, wpP_lift, wp_Digits_plus; [lia|].
  assert (length (drop k A) <= n * 2)%nat as Hltop by (rewrite length_drop; unfold k in *; nia).
  wpP_lift_apply (PutAt_spec (uninitialized (n * 2)) (drop k A) (n * 2)); [by auto with digits | by rewrite length_uninitialized|].
  intros Zd (P & -> & HlP & HP & EP). rewrite drop_ge, app_nil_r by (by rewrite length_uninitialized).
  rewrite take_ge in EP by done.
  pose proof (bpow_pos n) as Hbn. assert (0 < val B) as HB0 by lia.
  wpP_apply DivideBarrettWith_spec; rewrite ?HlP, ?HlI, ?length_uninitialized; fold n; try (by auto with digits); try lia.
  { by right. } all: rewrite ?(Nat.mul_comm n 2), ?Nat.sub_diag, ?drop_0 by lia; try done; try (unfold DivideBarrettScratchSpace in *; lia); try apply uninitialized_ok.
  intros [[Qi Ri] s'] p1 ((Hle & HlQi & HQi & HlRi & HRi & Hval) & Hls' & Hs').
  rewrite length_uninitialized in HlQi, HlRi.
  pose proof (uninterrupted_le _ _ Hle Hun) as Hun1. destruct (Hval (proj1 Hun1)) as [EQi ERi].
  rewrite EP in EQi, ERi.
  apply wpP_terminated; [destruct Hun1; congruence|]. intros Hok.
  apply wpP_bind, wpP_lift, wp_Digits_plus; [lia|].
  wpP_lift_apply put_first_quotient_spec; [done | |].
  { rewrite length_drop, EQi. by apply quotient_prefix_fits; (done || lia). }
  intros T (HlT & HT & ET). rewrite length_drop in HlT.
  wpP_apply barrett_loop_spec; fold n; try (by auto with digits); try lia.
  { rewrite length_app, length_take. lia. }
  { split; [|rewrite ERi; apply Z.mod_pos_bound; lia]. fold k. rewrite drop_app_length' by (rewrite length_take; lia).
    rewrite ET, EQi, ERi. pose proof (Z.div_mod (val (drop k A)) (val B)). lia. }
  intros [Q' st] p2 (? & Hl & ? & ?). unfold blocks_post in *; cbn [fst snd] in *.
  rewrite length_app, length_take in Hl.
  split_and!; [by eapply status_le_trans | lia | done | done].
Qed.

(** What the division relies on: inverses of at most [L] digits. *)
Class Inverter (L : nat) : Prop :=
  invert_correct : forall n, (0 < n <= L)%nat -> invert_spec n.

Lemma Inverter_below_newton L : Z.of_nat L < kNewtonInversionThreshold -> Inverter L.
Proof. intros HL n Hn. apply invert_spec_small; lia. Qed.

Lemma val_drop_normalized B k :
  digits_ok B -> (k < length B)%nat -> bpow (length B) <= 2 * val B ->
  bpow (length B - k) <= 2 * val (drop k B).
Proof.
  intros HB Hk Htop. pose proof (top_half_bit B k (length B - k) HB ltac:(lia) ltac:(lia)) as Hh.
  replace (k + (length B - k))%nat with (length B) in Hh by lia. by apply Hh.
Qed.

Lemma wp_TrimOne X (Q : digits -> Prop) : Q X -> wp (TrimOne (X ++ [0])) Q.
Proof.
  intros HQ. unfold TrimOne, msd, rd. set (Y := X ++ [0]).
  assert (length Y = S (length X)) as Hl by (unfold Y; rewrite length_app; simpl; lia).
  rewrite bool_decide_true by lia. replace (length Y - 1)%nat with (length X) by lia. unfold Y.
  rewrite take_app_length, lookup_app_r, Nat.sub_diag by lia. done.
Qed.

Lemma quotient_length A B :
  digits_ok A -> digits_ok B -> normalized B -> B <> [] -> (length B <= length A)%nat ->
  val A / val B < bpow (length A - length B + 1).
Proof.
  intros HA HB NB Hne Hl. pose proof (val_bounds A HA) as HvA. pose proof (normalized_lower B HB NB Hne) as Hlow.
  assert (0 < length B)%nat by (destruct B; [done | simpl; lia]).
  pose proof (bpow_pos (length B - 1)). apply Z.div_lt_upper_bound; [lia|].
  eapply Z.lt_le_trans; [apply HvA|].
  apply Z.le_trans with (bpow (length B - 1) * bpow (length A - length B + 1)).
  - rewrite <- bpow_add. apply bpow_le. lia.
  - apply Z.mul_le_mono_nonneg_r; [pose proof (bpow_pos (length A - length B + 1)); lia | done].
Qed.

Lemma DivideBarrett_spec L LI Q R A B p `{!Multiplier L} `{!Inverter LI} :
  uninterrupted p -> digits_ok Q -> digits_ok R -> digits_ok A -> digits_ok B ->
  normalized A -> normalized B -> B <> [] -> (length B < length A)%nat ->
  (length A - length B + 1 < length Q)%nat -> (length B <= length R)%nat -> (length B + 1 <= L)%nat ->
  (length B <= LI \/ length A - length B < LI)%nat ->
  wpP (DivideBarrett Q R A B) p (fun '(Q', R') p' => division_post Q R A B p Q' R' p').
Proof.
  intros Hun HQ HR HA HB NA NB HneB Hl HlQ HlR HL HLI. unfold DivideBarrett.
  assert (0 < length B)%nat as HlB0 by (destruct B; [done | simpl; lia]).
  assert (A <> []) as HneA by (by intros ->; simpl in *; lia).
  do 4 (apply wpP_bind, wpP_lift, wp_dcheck_decide; [lia|]).
  wpP_lift_apply (ShiftedDigits_new_spec B (-1)); [done | done | done | destruct kDigitBits_cases; lia |].
  intros [Bs sh bi] (HBs & Hsh & _ & EBs & _ & Hauto). cbn [sd_digits shift_] in *.
  destruct (Hauto ltac:(lia)) as [HlBs Htop]. clear Hauto.
  wpP_lift_apply (ShiftedDigits_new_spec A sh); [done | done | done | lia |].
  intros [As sh' ai] (HAs & _ & HlAs & EAs & Esh & _). cbn [sd_digits shift_] in *.
  rewrite (Esh ltac:(lia)) in *. clear sh' Esh.
  pose proof (Z.pow_pos_nonneg 2 sh ltac:(lia) ltac:(lia)) as Hp2.
  pose proof (val_pos_of_normalized B HB NB HneB) as HB0.
  assert (val As / val Bs = val A / val B /\ val As mod val Bs = val A mod val B * 2 ^ sh) as [Eq Er].
  { rewrite EAs, EBs, Z.div_mul_cancel_r, Z.mul_mod_distr_r by lia. done. }
  set (bdl := if bool_decide _ then _ else _).
  assert (bdl = length As `min` (2 * length Bs))%nat as Ebdl by (unfold bdl; case_bool_decide; lia).
  set (m := (bdl - length Bs)%nat). rewrite <- HlBs in Htop.
  set (scratch_len := (_ `max` _)%nat).
  assert (Digits_slice Bs (length Bs - m) m = drop (length Bs - m) Bs) as ->.
  { unfold Digits_slice, slice. rewrite take_ge; [done | rewrite length_drop; lia]. }
  assert (length (drop (length Bs - m) Bs) = m) as HlV by (rewrite length_drop; lia).
  assert (bpow m <= 2 * val (drop (length Bs - m) Bs)) as HtopV.
  { pose proof (val_drop_normalized Bs (length Bs - m) HBs ltac:(lia) Htop) as Hv.
    by replace (length Bs - (length Bs - m))%nat with m in Hv by lia. }
  wpP_apply (invert_correct m); try done.
  { lia. } { by right. } { apply uninitialized_ok. } { by auto with digits. } { apply uninitialized_ok. }
  { apply length_uninitialized. } { rewrite length_uninitialized. lia. }
  intros [Iv0 scratch] p1 (Hle & HlI0 & HI0 & Hls & Hs & Hinv). rewrite length_uninitialized in Hls.
  pose proof (uninterrupted_le _ _ Hle Hun) as Hun1. destruct (Hinv (proj1 Hun1)) as (Iv & -> & Hok). clear Hinv.
  apply wpP_terminated; [destruct Hun1; congruence|]. intros Hst.
  assert (length Iv = m) as HlI by (rewrite length_app in HlI0; simpl in HlI0; lia).
  apply Forall_app in HI0 as [HI _].
  apply wpP_bind, wpP_lift, wp_TrimOne.
  apply wpP_bind, wpP_lift, wp_dcheck_decide; [done|].
  pose proof (Z.mod_pos_bound (val A) (val B) HB0) as Hmb.
  case_bool_decide as Hbig.
  - assert (m = length Bs) as Em by lia. rewrite Em, Nat.sub_diag, drop_0 in *.
    wpP_apply barrett_chunks_spec; try done; try lia.
    { unfold scratch_len in Hls. rewrite Hls, Ebdl. unfold DivideBarrettScratchSpace. lia. }
    { rewrite Eq. eapply Z.lt_le_trans; [apply quotient_length; (done || lia) | apply bpow_le; lia]. }
    intros [Q' st] p2 (Hle2 & HlQ' & HQ' & Hst'). cbn [fst snd] in *.
    pose proof (uninterrupted_le _ _ Hle2 Hun1) as Hun2.
    destruct st as [Ri|]; [|destruct Hun2; congruence].
    destruct Hst' as (Hok2 & HlRi & HRi & EQ' & ERi). rewrite Eq in EQ'. rewrite Er in ERi.
    pose proof (length_Normalize Ri).
    apply wpP_bind, wpP_lift, wp_dcheck_decide; [lia|].
    wpP_lift_apply RightShift_spec; [by auto with digits | lia | by rewrite normalized_id by auto with digits; lia |].
    intros R' (HlR' & HR' & ER'). apply wpP_ret. rewrite val_Normalize, ERi, Z.div_mul in ER' by lia.
    unfold division_post. split_and!; try done. by eapply status_le_trans.
  - assert (bdl = length As) as Eb by lia.
    wpP_apply DivideBarrettWith_spec; try done; try lia.
    { by right. } { unfold scratch_len in Hls. rewrite Hls, Eb. lia. } { by rewrite HlI. }
    intros [[Q' R'] s'] p2 ((Hle2 & HlQ' & HQ' & HlR' & HR' & Hval) & _ & _).
    pose proof (uninterrupted_le _ _ Hle2 Hun1) as Hun2. destruct (Hval (proj1 Hun2)) as [EQ ER].
    apply wpP_terminated; [destruct Hun2; congruence|]. intros Hok2.
    pose proof (length_Normalize R').
    wpP_lift_apply RightShift_spec; [done | lia | lia |].
    intros R2 (HlR2 & HR2 & ER2). apply wpP_ret. rewrite ER, Er, Z.div_mul in ER2 by lia. rewrite Eq in EQ.
    unfold division_post. split_and!; try done; [by eapply status_le_trans | lia].
Qed.

End div_barrett.
