(* ===== verification/DivNewton.v ===== *)
(** The accuracy of [InvertNewton] of [src/bigint/div-barrett.cc]: Newton's iteration for the
    inverse of a normalized vector, with the truncations of the code, ends with an inverse
    that Barrett division can use. *)

From Stdlib Require Import ZArith Lia.
From stdpp Require Import base tactics numbers list option.
From S2P Require Import Prelude Digit Digits VectorArithmetic Processor MulSchoolbook MulKaratsuba DivHelpers MulToom Multiply DivSchoolbook DivBurnikel DivBarrett.

#[local] Open Scope Z_scope.

(** ** One step of the iteration *)

(** [z / D] approximates the inverse of [v / N], and [T / Tn] is [v / N] truncated, so that
    [v = T * H + v0] and [N = Tn * H].  The next approximation is [next / (D * P)]: twice [z]
    minus the product [T * z^2], truncated to the digits of the result. *)
Section step.
Context (D P Tn C H T v0 z : Z).
Context (HD : 0 < D) (HP : 0 < P) (HTn : 0 < Tn) (HC : 0 < C) (HH : 0 < H) (HCP : C * P = Tn * D).
Context (Hz : D <= z <= 2 * D) (HT : 0 < T < Tn) (Hv0 : 0 <= v0 < H).
#[local] Abbreviation v := (T * H + v0).
#[local] Abbreviation N := (Tn * H).

Definition newton_next : Z := 2 * z * P - T * (z * z) / C.

(** The error of [z], scaled: [N * D] is one. *)
#[local] Abbreviation E := (N * D - v * z).

Lemma next_upper : Tn <= 2 * T -> newton_next <= 2 * (D * P).
Proof.
  intros H2. unfold newton_next. assert (2 * z * P - 2 * (D * P) <= T * (z * z) / C); [|lia].
  apply Z.div_le_lower_bound; [done|].
  replace (C * (2 * z * P - 2 * (D * P))) with (2 * (C * P) * z - 2 * (C * P) * D) by ring. rewrite HCP.
  assert (0 <= Tn * ((z - 2 * D) * (z - 2 * D))) by (apply Z.mul_nonneg_nonneg; [lia | apply Z.square_nonneg]).
  assert (0 <= (2 * T - Tn) * (z * z)) by (apply Z.mul_nonneg_nonneg; [lia | apply Z.square_nonneg]). lia.
Qed.

Lemma next_lower_intro : T * (z * z) < 2 * (Tn * D) * z - Tn * D * D + C -> D * P <= newton_next.
Proof.
  intros Hlt. unfold newton_next. assert (T * (z * z) / C < 2 * z * P - D * P + 1); [|lia].
  apply Z.div_lt_upper_bound; [done|].
  replace (C * (2 * z * P - D * P + 1)) with (2 * (C * P) * z - C * P * D + C) by ring. rewrite HCP. lia.
Qed.

(** If the top digits of [v] are all ones, [z] is at most one unit above 1. *)
Lemma next_lower_ones : z <= D + 1 -> Tn <= C -> D * P <= newton_next.
Proof.
  intros Hz1 HTC. apply next_lower_intro. assert (z = D \/ z = D + 1) as Hcases by lia.
  assert (T * (z * z) <= (Tn - 1) * (z * z)) by (apply Z.mul_le_mono_nonneg_r; [apply Z.square_nonneg | lia]).
  assert (0 < D * D) by nia. destruct Hcases as [Ez | Ez]; rewrite Ez in *; lia.
Qed.

(** Otherwise, [v] is away from 1. *)
Lemma next_lower_far (k : Z) :
  v * D + N <= N * D -> 0 < k -> - E * k < N * D -> D <= k * k -> D * P <= newton_next.
Proof.
  intros Hv Hk HE HDk. apply next_lower_intro. assert (0 < v) as Hv1 by nia.
  apply (mul_lt_cancel _ _ H); [done|]. apply (mul_lt_cancel _ _ v); [done|].
  assert (T * H * (z * z) <= v * (z * z)) as HTH by (apply Z.mul_le_mono_nonneg_r; [apply Z.square_nonneg | lia]).
  assert (v * (v * (z * z)) < v * (2 * (N * D) * z - N * D * D) + v * (C * H)) as Hgoal.
  2: { assert (v * (T * H * (z * z)) <= v * (v * (z * z))) by (apply Z.mul_le_mono_nonneg_l; lia). lia. }
  replace (v * (v * (z * z))) with (E * E + v * (2 * (N * D) * z) - (N * D) * (N * D)) by ring.
  assert (0 < v * (C * H)) by nia. assert (0 < N) by nia.
  destruct (Z.le_gt_cases 0 E) as [Hpos | Hneg].
  - assert (E * E <= N * D * (N * D) - v * (N * D * D)); [|lia].
    assert (E <= N * D - v * D) by nia. assert (E <= N * D) by nia. assert (0 <= N * D - v * D) by nia.
    assert (E * E <= (N * D - v * D) * (N * D)) by (apply Z.mul_le_mono_nonneg; lia). lia.
  - assert (E * E <= N * D * N) as Hsq.
    { assert (k * k * (E * E) <= k * k * (N * D * N)) as Hs; [|apply Z.mul_le_mono_pos_l in Hs; nia].
      assert ((- E * k) * (- E * k) <= N * D * (N * D)) by (apply Z.mul_le_mono_nonneg; nia).
      assert (N * N * D * D <= N * N * D * (k * k)) by (apply Z.mul_le_mono_nonneg_l; nia). lia. }
    assert (N * D * N <= N * D * (N * D - v * D)) by (apply Z.mul_le_mono_nonneg_l; nia). lia.
Qed.

(** Newton's identity with the truncations: the error is squared, and the truncated parts
    [v0] of [v] and [r] of the product are added to the approximation. *)
Lemma next_error : C * H * (N * (D * P) - v * newton_next) = E * E - v * (v0 * (z * z) + (T * (z * z)) mod C * H).
Proof.
  unfold newton_next. pose proof (Z.div_mod (T * (z * z)) C ltac:(lia)) as Edm. set (u := T * (z * z) / C) in *. set (r := (T * (z * z)) mod C) in *.
  replace (C * H * (N * (D * P) - v * (2 * z * P - u))) with (H * N * D * (C * P) - 2 * H * v * z * (C * P) + H * v * (C * u)) by ring.
  rewrite HCP. replace (C * u) with (T * (z * z) - r) by lia. ring.
Qed.

Lemma unit_square : C * H * (N * (D * P)) = (N * D) * (N * D).
Proof. replace (C * H * (N * (D * P))) with (H * N * D * (C * P)) by ring. rewrite HCP. ring. Qed.

(** The number of correct bits doubles. *)
Lemma next_accurate (k k' : Z) :
  0 < k' <= k * k -> 0 < k -> - (N * D) < E * k < N * D -> 8 * (k * k) * v0 <= N -> 2 * (k * k) <= D * P ->
  - (N * (D * P)) < (N * (D * P) - v * newton_next) * k' < N * (D * P).
Proof.
  intros Hk' Hk HE HA HB. pose proof next_error as Eerr. pose proof unit_square as Eunit.
  pose proof (Z.mod_pos_bound (T * (z * z)) C HC) as Hr. set (r := (T * (z * z)) mod C) in *. set (E' := N * (D * P) - v * newton_next) in *.
  assert (0 < C * H) as HCH by nia. assert (0 < N) as HN by nia. assert (0 < v < N) as Hv by nia.
  assert (E * k * (E * k) < N * D * (N * D)) as Hsq by nia. assert (0 <= E * E) by apply Z.square_nonneg.
  set (loss := v0 * (z * z) + r * H) in *. assert (0 <= v * loss) by (unfold loss; nia).
  assert (loss * (k * k) < N * D * D) as Hloss.
  { assert (z * z <= 4 * (D * D)) by nia. assert (8 * (k * k) * v0 * (z * z) <= N * (4 * (D * D))) by (apply Z.mul_le_mono_nonneg; nia).
    assert (r * H * (2 * (k * k)) < C * H * (D * P)) by (apply Z.lt_le_trans with (C * H * (2 * (k * k))); nia).
    assert (C * H * (D * P) = N * D * D) by (replace (C * H * (D * P)) with (H * D * (C * P)) by ring; rewrite HCP; ring).
    unfold loss. lia. }
  assert (v * (loss * (k * k)) < N * (N * D * D)) as Hv' by nia.
  split; apply (mul_lt_cancel _ _ (C * H)); try done.
  - assert (v * loss * k' <= v * loss * (k * k)) by (apply Z.mul_le_mono_nonneg_l; lia). nia.
  - assert (E * E * k' <= E * E * (k * k)) by (apply Z.mul_le_mono_nonneg_l; lia). nia.
Qed.

(** If the top digits of [v] are all ones, so that it is within one unit [1 / (D * P)] of 1,
    the approximation stays within one unit of 1. *)
Lemma next_ones (q : Z) : 0 < q -> Tn = q * (D * P) -> 4 <= P -> Tn - q <= T -> newton_next <= D * P + 1.
Proof.
  intros Hq ETn HP4 HTq. assert (C = q * (D * D)) as EC. { apply (Z.mul_cancel_r _ _ P); [lia|]. rewrite HCP, ETn. ring. }
  unfold newton_next. assert (2 * z * P - D * P - 1 <= T * (z * z) / C); [|lia]. apply Z.div_le_lower_bound; [done|].
  replace (C * (2 * z * P - D * P - 1)) with (2 * (C * P) * z - C * P * D - C) by ring. rewrite HCP.
  assert ((Tn - q) * (z * z) <= T * (z * z)) as HT2 by (apply Z.mul_le_mono_nonneg_r; [apply Z.square_nonneg | lia]).
  set (c := z - D). assert (0 <= c) by (unfold c; lia). replace z with (D + c) in * by (unfold c; lia).
  assert (q * (2 * D * c + c * c) <= Tn * (c * c)) as Hc.
  { rewrite ETn. replace (q * (D * P) * (c * c)) with (q * (D * P * (c * c))) by ring. apply Z.mul_le_mono_nonneg_l; [lia|].
    destruct (Z.eq_dec c 0) as [-> | Hne]; [lia|]. assert (4 * D * (c * c) <= D * P * (c * c)) by (apply Z.mul_le_mono_nonneg_r; nia). nia. }
  rewrite EC. lia.
Qed.

(** The last step keeps all digits of [v] and cuts the product to as many digits as [v] has. *)
Lemma next_inverse (k : Z) :
  H = 1 -> v0 = 0 -> D * P = Tn -> 0 < k -> Tn <= k * k -> Tn <= 2 * T -> - (N * D) < E * k < N * D -> inverse_ok Tn T newton_next.
Proof.
  intros EH Ev0 EP Hk HTk H2T HE. pose proof next_error as Eerr. pose proof (Z.mod_pos_bound (T * (z * z)) C HC) as Hr.
  set (r := (T * (z * z)) mod C) in *. rewrite EH, Ev0, EP in *. rewrite !Z.mul_1_r, Z.add_0_r, Z.mul_0_l, Z.add_0_l in *.
  assert (C = D * D) as EC. { apply (Z.mul_cancel_r _ _ P); [lia|]. rewrite HCP, <- EP. ring. }
  set (x := Tn * D - T * z) in *. assert (x * k * (x * k) < Tn * D * (Tn * D)) as Hsq by nia.
  assert (x * x < Tn * C) as Hx.
  { apply (mul_lt_cancel _ _ (k * k)); [nia|]. rewrite EC. assert (Tn * (D * D) * Tn <= Tn * (D * D) * (k * k)) by (apply Z.mul_le_mono_nonneg_l; nia). lia. }
  assert (0 <= x * x) by apply Z.square_nonneg.
  assert (Tn * Tn - T * newton_next < Tn) by (apply (mul_lt_cancel _ _ C); [done|]; nia).
  assert (- T < Tn * Tn - T * newton_next) by (apply (mul_lt_cancel _ _ C); [done|]; nia).
  unfold inverse_ok. lia.
Qed.
End step.

(** ** The first approximation *)

(** It is the inverse of the top digits [a] of [v = a * H + v0]. *)
Lemma newton_start (D H a v0 k : Z) :
  0 < a < D -> D <= 2 * a -> 4 <= D -> 0 <= v0 < H -> 0 < k -> 2 * k <= D ->
  let z := D * D / a in
  D <= z <= 2 * D /\ - (D * H * D) < (D * H * D - (a * H + v0) * z) * k < D * H * D /\ (D - 1 <= a -> z <= D + 1).
Proof.
  intros Ha HD HD4 Hv0 Hk HkD z. destruct (inverse_bounds D a) as (Hz & _ & _); [lia | done | lia|]. fold z in Hz.
  pose proof (Z.div_mod (D * D) a ltac:(lia)) as Edm. pose proof (Z.mod_pos_bound (D * D) a ltac:(lia)) as Hr.
  fold z in Edm. set (r := (D * D) mod a) in *.
  split_and!; try lia.
  - assert (v0 * z * k <= v0 * (D * D)) by (replace (v0 * z * k) with (v0 * (z * k)) by ring; apply Z.mul_le_mono_nonneg_l; nia).
    assert (0 <= r * H * k) by (repeat apply Z.mul_nonneg_nonneg; lia). replace (D * H * D) with (H * (a * z + r)) by (rewrite <- Edm; ring).
    assert (v0 * (D * D) < H * (D * D)) by (apply Z.mul_lt_mono_pos_r; nia). lia.
  - assert (r * k < D * D) by (apply Z.mul_lt_mono_nonneg; lia). assert (H * (r * k) < H * (D * D)) by (apply Z.mul_lt_mono_pos_l; lia). assert (0 <= v0 * z * k) by (repeat apply Z.mul_nonneg_nonneg; lia). replace (D * H * D) with (H * (a * z + r)) in * by (rewrite <- Edm; ring). lia.
  - intros Ha1. assert (a = D - 1) as -> by lia. enough (z < D + 2) by lia. apply Z.div_lt_upper_bound; nia.
Qed.

(** ** The approximations of the code *)

Section newton.
Context `{Config, Platform}.
Context {alloc : Allocator} {fft : FftMultiplier}.
Context (V : digits) (HV : digits_ok V) (Htop : bpow (length V) <= 2 * val V).
#[local] Abbreviation n := (length V).

(** The top [t] digits of [V], which is what [T] holds. *)
Definition top_val (t : nat) : Z := val (drop (n - t) V).

(** [z] has [d] fraction digits, of which about [k] bits are right. *)
Record newton_inv (d : nat) (k z : Z) : Prop := {
  inv_range : bpow d <= z <= 2 * bpow d;
  inv_error : - (bpow n * bpow d) < (bpow n * bpow d - val V * z) * 2 ^ k < bpow n * bpow d;
  inv_ones : bpow n - bpow (n - d) <= val V -> z <= bpow d + 1;
  inv_bits : k + 1 <= Z.of_nat d * kDigitBits <= k + 1 + kDigitBits;
}.

Lemma top_val_split t : (t <= n)%nat -> val V = top_val t * bpow (n - t) + val (take (n - t) V) /\ 0 <= val (take (n - t) V) < bpow (n - t).
Proof.
  intros Ht. split.
  - rewrite (val_split V (n - t)), length_take, Nat.min_l by lia. unfold top_val. lia.
  - pose proof (val_bounds _ (digits_ok_take (n - t) V HV)) as Hb. by rewrite length_take, Nat.min_l in Hb by lia.
Qed.

Lemma top_val_bounds t : (0 < t <= n)%nat -> 0 < top_val t < bpow t /\ bpow t <= 2 * top_val t.
Proof.
  intros Ht. assert (bpow t <= 2 * top_val t) as Hh.
  { unfold top_val. apply top_half_bit; [done | lia | lia |]. by replace (n - t + t)%nat with n by lia. }
  pose proof (val_bounds _ (digits_ok_drop (n - t) V HV)) as Hb. rewrite length_drop in Hb. replace (n - (n - t))%nat with t in Hb by lia.
  pose proof (bpow_pos t). unfold top_val in *. lia.
Qed.

Lemma bpow_split a b c : (a + b = c)%nat -> bpow c = bpow a * bpow b.
Proof. intros <-. apply bpow_add. Qed.

Lemma bpow_two d k : 0 <= k -> k <= Z.of_nat d * kDigitBits -> 2 ^ k <= bpow d.
Proof. intros Hk Hd. rewrite bpow_bits. apply Z.pow_le_mono_r; lia. Qed.

(** The next approximation with [d'] fraction digits, from [d] digits of [z] and the top [t]
    digits of [V]. *)
Definition newton_value (d d' t : nat) (z : Z) : Z :=
  newton_next (bpow (d' - d)) (bpow (t + 2 * d - d')) (top_val t) z.

(** It stays between 1 and 2, which the code checks. *)
Lemma newton_value_range d d' t k z :
  newton_inv d k z -> (d < d' <= 2 * d)%nat -> (0 < t <= n)%nat -> (d' <= t + 2 * d)%nat -> (d <= n)%nat -> kDigitBits < k ->
  bpow d' <= newton_value d d' t z <= 2 * bpow d'.
Proof.
  intros [Hz He Hones Hbits] Hd' Ht Hdt Hdn Hk. destruct (top_val_split t ltac:(lia)) as [Ev Hlow]. destruct (top_val_bounds t Ht) as [HT HT2].
  pose proof (bpow_pos d) as HD. pose proof (bpow_pos (d' - d)) as HP. pose proof (bpow_pos t) as HTn. pose proof (bpow_pos (t + 2 * d - d')) as HC. pose proof (bpow_pos (n - t)) as HH.
  assert (bpow (t + 2 * d - d') * bpow (d' - d) = bpow t * bpow d) as HCP by (rewrite <- !bpow_add; f_equal; lia).
  rewrite (bpow_split d (d' - d) d') by lia. unfold newton_value. split; [|by apply (next_upper (bpow d) _ (bpow t))].
  destruct (Z.le_gt_cases (bpow n - bpow (n - d)) (val V)) as [Hone | Hfar].
  - apply (next_lower_ones (bpow d) _ (bpow t)); try done; [by apply Hones | apply bpow_le; lia].
  - assert (bpow n = bpow t * bpow (n - t)) as EN by (apply bpow_split; lia). pose proof (Z.pow_pos_nonneg 2 k ltac:(lia) ltac:(lia)) as H2k.
    apply (next_lower_far (bpow d) _ (bpow t) _ (bpow (n - t)) _ (val (take (n - t) V)) _ HD HP HTn HC HH HCP Hz HT Hlow (2 ^ k)); rewrite <- ?Ev, <- ?EN; try lia.
    + rewrite (bpow_split (n - d) d n) in * by lia. nia.
    + rewrite <- Z.pow_add_r by lia. rewrite bpow_bits. apply Z.pow_le_mono_r; lia.
Qed.

(** The bits of the fraction digits of two successive approximations. *)
Lemma newton_digits d d' k :
  k + 1 <= Z.of_nat d * kDigitBits <= k + 1 + kDigitBits -> kDigitBits < k -> 2 * k + 1 <= Z.of_nat d' * kDigitBits <= 2 * k + kDigitBits ->
  (d < d' <= 2 * d)%nat.
Proof. intros Hd Hk Hd'. pose proof kDigitBits_cases. nia. Qed.

Lemma bpow_ge_4 e : (0 < e)%nat -> 4 <= bpow e.
Proof. intros He. pose proof digit_base_ge. pose proof (bpow_le 1 e He). rewrite bpow_1 in *. lia. Qed.

(** A step that is not the last one. *)
Lemma newton_step d d' t k k' z :
  newton_inv d k z -> (d <= n)%nat -> kDigitBits < k -> 2 * k - 1 <= k' <= 2 * k -> 2 * k + 1 <= Z.of_nat d' * kDigitBits <= 2 * k + kDigitBits ->
  t = n \/ 2 * k + 3 <= Z.of_nat t * kDigitBits -> (d' <= t <= n)%nat ->
  newton_inv d' k' (newton_value d d' t z).
Proof.
  intros Hinv Hdn Hk Hk' Hbits' Ht Hdt. pose proof Hinv as [Hz He Hones Hbits]. pose proof (newton_digits d d' k Hbits Hk Hbits') as Hd'.
  destruct (top_val_split t ltac:(lia)) as [Ev Hlow]. destruct (top_val_bounds t ltac:(lia)) as [HT HT2].
  pose proof (bpow_pos d) as HD. pose proof (bpow_pos (d' - d)) as HP. pose proof (bpow_pos t) as HTn. pose proof (bpow_pos (t + 2 * d - d')) as HC. pose proof (bpow_pos (n - t)) as HH.
  assert (bpow (t + 2 * d - d') * bpow (d' - d) = bpow t * bpow d) as HCP by (rewrite <- !bpow_add; f_equal; lia).
  assert (bpow n = bpow t * bpow (n - t)) as EN by (apply bpow_split; lia). assert (bpow d' = bpow d * bpow (d' - d)) as EG by (apply bpow_split; lia).
  assert (2 ^ k * 2 ^ k = 2 ^ (2 * k)) as E2 by (rewrite <- Z.pow_add_r by lia; f_equal; lia).
  split; [by apply (newton_value_range d d' t k z); try done; lia | | | lia]; unfold newton_value; rewrite EG.
  - rewrite EN, Ev. pose proof (Z.pow_pos_nonneg 2 k ltac:(lia) ltac:(lia)). pose proof (Z.pow_pos_nonneg 2 k' ltac:(lia) ltac:(lia)).
    apply (next_accurate _ _ _ _ _ _ _ _ HD HP HTn HC HH HCP Hz HT Hlow (2 ^ k)); rewrite ?E2, <- ?Ev, <- ?EN; try done.
    + split; [done | apply Z.pow_le_mono_r; lia].
    + destruct Ht as [-> | Ht]; [rewrite Nat.sub_diag in *; change (bpow 0) with 1 in Hlow; pose proof (bpow_pos n); nia|].
      assert (8 * 2 ^ (2 * k) <= bpow t) by (change 8 with (2 ^ 3); rewrite <- Z.pow_add_r by lia; apply bpow_two; lia). rewrite EN. nia.
    + rewrite <- EG. rewrite <- Z.pow_succ_r by lia. apply bpow_two; lia.
  - intros Hone. apply (next_ones (bpow d) _ (bpow t) _ _ _ HD HP HTn HC HCP Hz HT (bpow (t - d'))); try done.
    + apply bpow_pos.
    + rewrite <- EG. rewrite Z.mul_comm. apply bpow_split. lia.
    + apply bpow_ge_4. lia.
    + rewrite (bpow_split (n - t) (t - d') (n - d')) in Hone by lia. rewrite EN, Ev in Hone. nia.
Qed.

(** The last step: all digits of [V], and as many fraction digits. *)
Lemma newton_last_step d k z :
  newton_inv d k z -> (d < n)%nat -> kDigitBits < k -> 2 * k = Z.of_nat n * kDigitBits ->
  let z' := newton_value d n n z in
  bpow n <= z' <= 2 * bpow n /\ inverse_ok (bpow n) (val V) z' /\ (z' = 2 * bpow n -> inverse_ok (bpow n) (val V) (2 * bpow n - 1)).
Proof.
  intros Hinv Hdn Hk Ek z'. pose proof Hinv as [Hz He _ Hbits]. pose proof kDigitBits_cases as Hkb. assert (n <= 2 * d)%nat as Hn2 by nia.
  assert (bpow n <= z' <= 2 * bpow n) as Hr by (apply (newton_value_range d n n k z); try done; lia).
  assert (top_val n = val V) as ET by (unfold top_val; by rewrite Nat.sub_diag, drop_0).
  destruct (top_val_bounds n ltac:(lia)) as [HT HT2]. rewrite ET in HT, HT2.
  assert (inverse_ok (bpow n) (val V) z') as Hok.
  { unfold z', newton_value. rewrite ET. assert (bpow n = bpow d * bpow (n - d)) as EG by (apply bpow_split; lia).
    apply (next_inverse (bpow d) _ (bpow n) _ 1 _ 0) with (k := 2 ^ k); try done; try apply bpow_pos; try lia.
    - rewrite <- !bpow_add. f_equal. lia.
    - rewrite <- Z.pow_add_r by lia. rewrite bpow_bits. apply Z.pow_le_mono_r; lia. }
  split_and!; try done; try lia. intros E2. rewrite E2 in Hok. unfold inverse_ok in *. nia.
Qed.

(** ** The products *)

Lemma slice_put_view_in (R X : digits) off i k :
  (off <= length R)%nat -> (i + k <= length X)%nat -> slice (put_view R off X) (off + i) k = slice X i k.
Proof.
  intros Hoff Hik. unfold slice, put_view. rewrite <- drop_drop. rewrite drop_app_length' by (rewrite length_take; lia).
  rewrite drop_app_le by lia. rewrite take_app_le by (rewrite length_drop; lia). done.
Qed.

Lemma slice_put_view_after (R X : digits) o k :
  (length X <= o)%nat -> slice (put_view R 0 X) o k = slice R o k.
Proof.
  intros Ho. unfold slice, put_view. rewrite take_0. cbn [app Nat.add]. rewrite drop_app_ge by done. rewrite drop_drop. by replace (length X + (o - length X))%nat with o by lia.
Qed.

Lemma integer_part X d lo hi (Q : unit -> Prop) :
  digits_ok X -> length X = S d -> lo * bpow d <= val X < (hi + 1) * bpow d -> Q tt -> wp (DcheckIntegerPartRange X lo hi) Q.
Proof.
  intros HX Hl Hv HQ. unfold DcheckIntegerPartRange. apply wp_bind, wp_msd; [done | by intros ->|]. intros X' i -> Hi.
  rewrite length_app in Hl. cbn in Hl. rewrite val_snoc in Hv. apply Forall_app in HX as [HX' _]. pose proof (val_bounds X' HX') as Hb.
  replace (length X') with d in * by lia. pose proof (bpow_pos d).
  apply wp_bind, wp_dcheck; [apply Z.leb_le; nia|]. apply wp_dcheck; [apply Z.leb_le; nia | done].
Qed.

Lemma val_drop_div X o : digits_ok X -> (o <= length X)%nat -> val (drop o X) = val X / bpow o.
Proof.
  intros HX Ho. pose proof (val_bounds _ (digits_ok_take o X HX)) as Hb. rewrite length_take, Nat.min_l in Hb by lia.
  apply Z.div_unique with (val (take o X)); [lia|]. rewrite (val_split X o) at 1. rewrite length_take, Nat.min_l by lia. lia.
Qed.

(** The digits the code keeps for [T] and [U]. *)
Definition t_digits (k : Z) : nat := (n `min` Z.to_nat (DIV_CEIL (2 * k + 3) kDigitBits))%nat.
Definition u_digits (k : Z) : nat := Z.to_nat (DIV_CEIL (2 * k + 1) kDigitBits).

(** Steps (3b) to (3e) compute [U] and [W]. *)
Lemma newton_products_spec L d k Zv scratch p `{!Multiplier L} :
  let d' := u_digits k in let t := t_digits k in let z := val Zv in
  steady p -> digits_ok Zv -> length Zv = S d -> bpow d <= z <= 2 * bpow d ->
  (2 * d <= n + 2)%nat -> (d < d' <= n + 1)%nat -> (0 < t)%nat -> (d' <= t + 2 * d)%nat -> (n + 3 <= L)%nat ->
  (InvertNewtonScratchSpace n <= length scratch)%nat -> digits_ok scratch ->
  wpP (newton_products V Zv scratch k) p (fun '(s', r) p' => status_le p p' /\ length s' = length scratch /\ digits_ok s' /\
    match r with
    | None => status_ p' = kInterrupted
    | Some (U, W) => length U = S d' /\ length W = S d' /\ digits_ok U /\ digits_ok W /\
        val U = top_val t * (z * z) / bpow (t + 2 * d - d') /\ W = replicate (d' - d) 0 ++ drop (d' - d) W /\ val W = 2 * z * bpow (d' - d)
    end).
Proof.
  intros d' t z Hst HZ HlZ Hz Hd Hd' Ht Hdt HL Hls Hs. unfold InvertNewtonScratchSpace, kInvertNewtonExtraSpace in Hls.
  assert (t <= n)%nat as Htn by (unfold t, t_digits; lia). destruct (top_val_bounds t ltac:(lia)) as [HT _].
  pose proof (bpow_pos d) as HD. pose proof digit_base_ge as Hbase. unfold newton_products. rewrite HlZ.
  assert (length (Digits_slice scratch 0 (2 * S d)) = (2 * S d)%nat) as HlS by (unfold Digits_slice; rewrite length_slice; lia).
  pose proof (length_Normalize Zv).
  wpP_apply multiply_correct; [done | by apply digits_ok_slice | done | done | lia | lia | lia |].
  intros S0 p1 (Hle1 & HlS0 & HS0 & ES0). rewrite HlS in HlS0.
  assert (length (put_view scratch 0 S0) = length scratch) as Hls1 by (apply length_put_view; lia).
  assert (digits_ok (put_view scratch 0 S0)) as Hs1 by (by apply digits_ok_put_view). set (s1 := put_view scratch 0 S0) in *.
  apply wpP_terminated; intros Hst1; [done|]. specialize (ES0 Hst1). fold z in ES0.
  assert (bpow (2 * d) = bpow d * bpow d) as E2d by (rewrite <- bpow_add; f_equal; lia). assert (bpow (2 * d + 1) = bpow (2 * d) * digit_base) as E2d1 by (rewrite bpow_add, bpow_1; done).
  assert (S0 = take (2 * d + 1) S0 ++ [0]) as ES.
  { apply snoc_zero; [lia|]. apply top_digit_zero; [done | lia |]. rewrite ES0, E2d1, E2d. nia. }
  set (Sq := take (2 * d + 1) S0) in *. assert (length Sq = S (2 * d)) as HlSq by (unfold Sq; rewrite length_take; lia).
  assert (digits_ok Sq) as HSq by (unfold Sq; auto with digits). assert (val Sq = z * z) as EvSq by (rewrite ES, val_snoc in ES0; lia).
  rewrite ES. apply wpP_bind, wpP_lift, wp_TrimOne. apply wpP_bind, wpP_lift, (integer_part Sq (2 * d)); [done | done | rewrite EvSq, E2d; nia|].
  fold (t_digits k) t. fold (u_digits k) d'.
  assert (Digits_slice V (n - t) t = drop (n - t) V) as -> by (unfold Digits_slice, slice; rewrite take_ge; [done | rewrite length_drop; lia]).
  assert (length (drop (n - t) V) = t) as HlT by (rewrite length_drop; lia). rewrite HlSq, HlT.
  set (kU := (n + kInvertNewtonExtraSpace)%nat). assert (kU = n + 5)%nat as EkU by done. 
  assert (length (Digits_slice s1 kU (S (2 * d) + t)) = (S (2 * d) + t)%nat) as HlU by (unfold Digits_slice; rewrite length_slice; lia). rewrite HlU.
  apply wpP_bind, wpP_lift, wp_dcheck_decide; [lia|]. pose proof (length_Normalize Sq). pose proof (length_Normalize (drop (n - t) V)).
  wpP_apply multiply_correct; [by eapply steady_le | by apply digits_ok_slice | done | by auto with digits | lia | lia | lia |].
  intros U0 p2 (Hle2 & HlU0 & HU0 & EU0). rewrite HlU in HlU0. pose proof (status_le_trans _ _ _ Hle1 Hle2) as Hle.
  assert (length (put_view s1 kU U0) = length scratch) as Hls2 by (rewrite length_put_view; lia).
  assert (digits_ok (put_view s1 kU U0)) as Hs2 by (by apply digits_ok_put_view). set (s2 := put_view s1 kU U0) in *.
  apply wpP_terminated; intros Hst2; [done|]. specialize (EU0 Hst2). fold (top_val t) in EU0. rewrite EvSq in EU0.
  rewrite HlU0. set (uo := (S (2 * d) + t - (1 + d'))%nat). assert (uo = t + 2 * d - d')%nat as Euo by lia.
  apply wpP_bind, wpP_lift, wp_Digits_plus; [lia|]. set (U := drop uo U0).
  assert (length U = S d') as HlUd by (unfold U; rewrite length_drop; lia). assert (digits_ok U) as HU by (unfold U; auto with digits).
  assert (val U = top_val t * (z * z) / bpow (t + 2 * d - d')) as EU by (unfold U; rewrite val_drop_div, EU0, Euo by (done || lia); f_equal; lia).
  apply wpP_bind, wpP_lift, (integer_part U d'); [done | done | |].
  { split; [pose proof (val_nonneg U HU); lia|]. rewrite EU. apply Z.div_lt_upper_bound; [apply bpow_pos|].
    assert (bpow (t + 2 * d - d') * bpow d' = bpow t * (bpow d * bpow d)) as Eb by (rewrite <- !bpow_add; f_equal; lia).
    assert (z * z <= 4 * (bpow d * bpow d)) by nia. assert (top_val t * (z * z) <= top_val t * (4 * (bpow d * bpow d))) by (apply Z.mul_le_mono_nonneg_l; lia).
    assert (top_val t * (4 * (bpow d * bpow d)) < bpow t * (4 * (bpow d * bpow d))) by (apply Z.mul_lt_mono_pos_r; nia). lia. }
  rewrite HlUd. apply wpP_bind, wpP_lift, wp_dcheck_decide; [lia|]. replace (S d' - S d)%nat with (d' - d)%nat by lia.
  set (W0 := Digits_slice s2 0 (S d')). assert (length W0 = S d') as HlW0 by (unfold W0, Digits_slice; rewrite length_slice; lia).
  assert (digits_ok W0) as HW0 by (by apply digits_ok_slice).
  apply wpP_bind, wpP_lift. rewrite <- (app_nil_l W0).
  apply (wp_write_loop (fun k P _ => P = replicate k 0)); [done | lia | constructor | done | |].
  { intros j P [] Hj HlP HP ->. apply wp_ret. split; [by auto with digits | by rewrite replicate_S_end]. }
  intros P [] HlP HP ->. rewrite Nat.add_0_l in *. set (pad := (d' - d)%nat) in *.
  apply wpP_bind, wpP_lift, wp_Digits_plus; [rewrite length_app, length_drop; lia|].
  rewrite drop_app_length', take_app_length' by done.
  wpP_lift_apply (LeftShift_spec (drop pad W0) Zv 1); [done | destruct kDigitBits_cases; lia | rewrite length_drop; lia | |].
  { rewrite length_drop. replace (length W0 - pad)%nat with (d + 1)%nat by lia. rewrite bpow_add, bpow_1. fold z. nia. }
  intros Wh (HlWh & HWh & EWh). rewrite length_drop in HlWh. fold z in EWh. set (W := replicate pad 0 ++ Wh).
  assert (length W = S d') as HlW by (unfold W; rewrite length_app, length_replicate; lia).
  assert (digits_ok W) as HW by (unfold W; auto with digits).
  assert (val W = 2 * z * bpow pad) as EW by (unfold W; rewrite val_app, val_replicate_0, length_replicate, EWh; lia).
  apply wpP_bind, wpP_lift, (integer_part W d'); [done | done | |].
  { rewrite EW. assert (bpow d' = bpow d * bpow pad) as -> by (apply bpow_split; lia). pose proof (bpow_pos pad). nia. }
  assert (Digits_slice (put_view s2 0 W) (kU + uo) (S d') = U) as ->.
  { unfold Digits_slice. rewrite slice_put_view_after by lia. unfold s2. rewrite slice_put_view_in by lia. unfold slice, U. apply take_ge. rewrite length_drop. lia. }
  apply wpP_ret. split_and!; try done; [rewrite length_put_view; lia | by apply digits_ok_put_view |].
  unfold W at 2. by rewrite drop_app_length'.
Qed.

(** ** The loop *)

(** The precisions of the iterations: each is at most twice the one before, and the last one
    is that of all digits. *)
Fixpoint newton_chain (k : Z) (targets : list Z) : Prop :=
  match targets with
  | [] => k = Z.of_nat n * kDigitBits
  | k' :: targets => 2 * k - 1 <= k' <= 2 * k /\ newton_chain k' targets
  end.

Lemma newton_chain_le k targets : newton_chain k targets -> 1 <= k -> k <= Z.of_nat n * kDigitBits.
Proof. revert k. induction targets as [|k' targets IH]; cbn [newton_chain]; intros k; [lia|]. intros [Hk Hc] H1. specialize (IH k' Hc ltac:(lia)). lia. Qed.

Lemma newton_chain_half k k' targets : newton_chain k (k' :: targets) -> 1 <= k -> 2 * k - 1 <= Z.of_nat n * kDigitBits.
Proof. intros [Hk Hc] H1. pose proof (newton_chain_le _ _ Hc ltac:(lia)). lia. Qed.

Lemma u_digits_bits k : 0 < k -> 2 * k + 1 <= Z.of_nat (u_digits k) * kDigitBits <= 2 * k + kDigitBits.
Proof.
  intros Hk. unfold u_digits, DIV_CEIL. assert (0 < kDigitBits) as Hw by (destruct kDigitBits_cases; lia). set (x := 2 * k + 1 - 1). pose proof (Z.div_mod x kDigitBits (Z.neq_sym _ _ (Z.lt_neq _ _ Hw))).
  pose proof (Z.mod_pos_bound x kDigitBits Hw). pose proof (Z.div_pos x kDigitBits ltac:(lia) Hw). rewrite Z2Nat.id by lia. rewrite Z.mul_add_distr_r. lia.
Qed.

Lemma t_digits_bits k : 0 < k -> t_digits k = n \/ (t_digits k < n)%nat /\ 2 * k + 3 <= Z.of_nat (t_digits k) * kDigitBits <= 2 * k + 2 + kDigitBits.
Proof.
  intros Hk. unfold t_digits, DIV_CEIL. assert (0 < kDigitBits) as Hw by (destruct kDigitBits_cases; lia). set (x := 2 * k + 3 - 1). pose proof (Z.div_mod x kDigitBits (Z.neq_sym _ _ (Z.lt_neq _ _ Hw))).
  pose proof (Z.mod_pos_bound x kDigitBits Hw). pose proof (Z.div_pos x kDigitBits ltac:(lia) Hw).
  set (c := x / kDigitBits) in *. destruct (decide (n <= Z.to_nat (c + 1))%nat); [left; lia | right].
  rewrite Nat.min_r, Z2Nat.id by lia. split; [lia|]. rewrite Z.mul_add_distr_r. lia.
Qed.

(** What the loop leaves behind. *)
Definition inverted (Zd scratch : digits) (p : ProcessorImpl) (r : digits * digits) (p' : ProcessorImpl) : Prop :=
  status_le p p' /\ length r.1 = (n + 1)%nat /\ digits_ok r.1 /\ length r.2 = length scratch /\ digits_ok r.2 /\
  (status_ p' = kOk -> exists Iv, r.1 = Iv ++ [0] /\ inverse_ok (bpow n) (val V) (bpow n + val Iv)).

(** The last iteration: the digits below the integer part, which is 1 or, for a power of two, 2. *)
Lemma newton_last_spec Zd U W w u :
  length Zd = (n + 1)%nat -> digits_ok Zd -> length U = S (S n) -> length W = S (S n) -> digits_ok U -> digits_ok W ->
  drop 1 U = u -> drop 1 W = w -> let z := val w - val u in
  bpow n <= z <= 2 * bpow n ->
  wp (newton_last Zd U W n) (fun Z' => exists P, Z' = P ++ drop n Zd /\ length P = n /\ digits_ok P /\
    val P = if z =? 2 * bpow n then bpow n - 1 else z - bpow n).
Proof.
  intros HlZ HZ HlU HlW HU HW Eu Ew z Hz. unfold newton_last, Digits_slice. rewrite HlU, HlW. replace (S (S n) - n - 1)%nat with 1%nat by lia.
  unfold slice. rewrite Eu, Ew. assert (length u = (n + 1)%nat) as Hlu by (rewrite <- Eu, length_drop; lia). assert (length w = (n + 1)%nat) as Hlw by (rewrite <- Ew, length_drop; lia).
  assert (digits_ok u /\ digits_ok w) as [Hu Hw] by (rewrite <- Eu, <- Ew; auto with digits).
  assert (length (take n u) = n) as Hltu by (rewrite length_take; lia).
  apply wp_bind. eapply wp_mono; [apply SubtractAndReturnBorrow_spec; rewrite ?Hltu, ?length_take; (by auto with digits) || lia|].
  rewrite Hltu. intros [Zv borrow] (P & -> & HlP & HP & Hbor & EP). rewrite (drop_ge (take n Zd)), app_nil_r by (rewrite length_take; lia).
  rewrite take_ge in EP by (rewrite length_take; lia).
  assert (forall X (Q : Z -> Prop), digits_ok X -> length X = S (S n) -> (forall i, is_digit i -> val (drop 1 X) = val (take n (drop 1 X)) + bpow n * i -> Q i) -> wp (msd X) Q) as Hmsd.
  { intros X Q HX HlX HQ. unfold msd. rewrite HlX. apply wp_bind, wp_dcheck_decide; [lia|]. apply wp_rd; [lia | done|]. intros i Hi Hdi. apply HQ; [done|].
    assert (drop 1 X !! n = Some i) as Hi' by (rewrite lookup_drop; by replace (1 + n)%nat with (S (S n) - 1)%nat by lia).
    rewrite <- (val_take_S _ _ _ Hi'), take_ge by (rewrite length_drop; lia). done. }
  apply wp_bind, Hmsd; [done | done|]. intros iw Hiw Eiw. apply wp_bind, Hmsd; [done | done|]. intros iu Hiu Eiu. rewrite Ew in Eiw. rewrite Eu in Eiu.
  pose proof (val_bounds P HP) as HvP. rewrite HlP in HvP. pose proof (bpow_pos n) as Hbp.
  assert (z = val P + bpow n * (iw - iu - borrow)) as Ez by (unfold z; lia). pose proof digit_base_ge.
  assert (iw - iu - borrow = 1 \/ iw - iu - borrow = 2) as Hi by nia. rewrite (wrap_small (iw - iu - borrow)) by (unfold is_digit; lia).
  apply wp_bind, wp_dcheck; [destruct Hi as [-> | ->]; done|]. apply wp_ret.
  assert (forall R, length R = n -> put_view Zd 0 R = R ++ drop n Zd) as Hput by (intros R HR; unfold put_view; rewrite take_0, HR; done).
  destruct Hi as [Hi | Hi]; rewrite Hi in *; cbn [Z.eqb Pos.eqb].
  - exists P. rewrite Hput by done. split_and!; try done. destruct (Z.eqb_spec z (2 * bpow n)); lia.
  - destruct (SetOnes_spec P) as (Hl1 & Hd1 & V1). rewrite HlP in Hl1, V1. exists (SetOnes P). rewrite Hput by done. split_and!; try done.
    rewrite V1. destruct (Z.eqb_spec z (2 * bpow n)); lia.
Qed.

(** The lengths of an iteration, from its precision. *)
Lemma newton_lengths d k k' targets :
  newton_chain k (k' :: targets) -> 3 * kDigitBits <= k -> k + 1 <= Z.of_nat d * kDigitBits <= k + 1 + kDigitBits ->
  let d' := u_digits k in let t := t_digits k in
  (2 * d <= n + 2)%nat /\ (d < d' <= n + 1)%nat /\ (d < n)%nat /\ (0 < t)%nat /\ (d' <= t + 2 * d)%nat /\
  match targets with
  | [] => d' = (n + 1)%nat /\ t = n /\ 2 * k = Z.of_nat n * kDigitBits
  | _ => (d' <= t)%nat /\ (d' < n)%nat
  end.
Proof.
  intros Hc Hk Hd d' t. pose proof (newton_chain_half _ _ _ Hc ltac:(destruct kDigitBits_cases; lia)) as Hhalf. destruct Hc as [Hk' Hc].
  pose proof (u_digits_bits k ltac:(destruct kDigitBits_cases; lia)) as Hu. fold d' in Hu. pose proof (t_digits_bits k ltac:(destruct kDigitBits_cases; lia)) as Ht. fold t in Ht.
  assert (t <= n)%nat by (unfold t, t_digits; lia).
  assert (match targets with [] => k' = Z.of_nat n * kDigitBits | _ => 2 * k' - 1 <= Z.of_nat n * kDigitBits end) as Hlast.
  { destruct targets; [done|]. eapply newton_chain_half; [done | destruct kDigitBits_cases; lia]. }
  destruct kDigitBits_cases as [E | E]; rewrite E in *; split_and!; try lia; destruct targets; split_and!; lia.
Qed.

Lemma newton_loop_spec L fuel d k targets Zd scratch p `{!Multiplier L} :
  (n + 3 <= L)%nat -> 3 * kDigitBits <= k -> targets <> [] -> (length targets <= fuel)%nat ->
  newton_chain k targets -> newton_inv d k (val (take (S d) Zd)) ->
  steady p -> digits_ok Zd -> length Zd = (n + 1)%nat -> Zd !! n = Some 0 ->
  digits_ok scratch -> (InvertNewtonScratchSpace n <= length scratch)%nat ->
  wpP (newton_loop fuel V Zd (S d) k targets scratch) p (inverted Zd scratch p).
Proof.
  intros HL. revert d k targets Zd scratch p. induction fuel as [|fuel IH]; intros d k targets Zd scratch p Hk Hne Hf Hc Hinv Hst HZ HlZ Hn0 Hs Hls; [destruct targets; cbn in *; (done || lia)|].
  destruct targets as [|k' targets]; [done|]. pose proof Hinv as [Hz _ _ Hbits]. pose proof (newton_lengths d k k' targets Hc Hk Hbits) as (Hd & Hd' & Hdn & Ht & Hdt & Hlast).
  set (z := val (take (S d) Zd)) in *. set (d' := u_digits k) in *. set (t := t_digits k) in *.
  cbn [newton_loop]. assert (length (take (S d) Zd) = S d) as HlZv by (rewrite length_take; lia). assert (digits_ok (take (S d) Zd)) as HZv by auto with digits.
  pose proof (bpow_pos d). apply wpP_bind, wpP_lift, (integer_part _ d); [done | done | fold z; lia|].
  wpP_apply (newton_products_spec L d k); fold z d' t; try done.
  intros [s1 r] p1 (Hle & Hls1 & Hs1 & Hr). destruct r as [[U W]|].
  2: { apply wpP_ret. unfold inverted. cbn. split_and!; try done. congruence. }
  destruct Hr as (HlU & HlW & HU & HW & EU & EWz & EW). rewrite HlU. destruct targets as [|k'' targets].
  - destruct Hlast as (Ed' & Et & E2k). rewrite bool_decide_false by lia. apply wpP_bind, wpP_lift, wp_dcheck_decide; [done|].
    destruct (newton_last_step d k z Hinv Hdn ltac:(destruct kDigitBits_cases; lia) E2k) as (Hr & Hok & Hok2). rewrite Ed' in *. rewrite Et in *.
    assert (val (drop 1 W) - val (drop 1 U) = newton_value d n n z) as Ez'.
    { unfold newton_value, newton_next. rewrite !val_drop_div, EW, EU, bpow_1 by (done || lia). rewrite (bpow_split (n - d) 1 (n + 1 - d)), bpow_1 by lia.
      f_equal; [rewrite Z.mul_assoc; apply Z.div_mul; pose proof digit_base_ge; lia|].
      rewrite Z.div_div by (pose proof digit_base_ge; pose proof (bpow_pos (n + 2 * d - (n + 1))); lia). f_equal.
      rewrite <- bpow_1, <- bpow_add. f_equal. lia. }
    wpP_lift_apply (newton_last_spec Zd U W (drop 1 W) (drop 1 U)); rewrite ?Ez'; try done; try lia.
    intros Z' (P & -> & HlP & HP & EP). apply wpP_ret. assert (drop n Zd = [0]) as Edn.
    { rewrite (drop_S Zd 0 n Hn0), drop_ge by lia. done. }
    rewrite Edn. unfold inverted. cbn. split_and!; try done; [rewrite length_app; cbn; lia | apply digits_ok_snoc; [done | apply is_digit_0] |].
    intros _. exists P. split; [done|]. rewrite EP. destruct (Z.eqb_spec (newton_value d n n z) (2 * bpow n)) as [E2 | _].
    + replace (bpow n + (bpow n - 1)) with (2 * bpow n - 1) by lia. by apply Hok2.
    + by replace (bpow n + (newton_value d n n z - bpow n)) with (newton_value d n n z) by lia.
  - destruct Hlast as [Hd't Hd'n]. rewrite bool_decide_true by lia. apply wpP_bind, wpP_lift, wp_dcheck_decide; [cbn; lia|].
    destruct Hc as [Hk' Hc]. assert (newton_inv d' k' (newton_value d d' t z)) as Hinv'.
    { apply (newton_step d d' t k k' z); try done; try lia; [destruct kDigitBits_cases; lia | apply u_digits_bits; destruct kDigitBits_cases; lia | |].
      - destruct (t_digits_bits k ltac:(destruct kDigitBits_cases; lia)) as [? | [_ ?]]; [by left | right; lia].
      - unfold t, t_digits in *. lia. }
    pose proof (inv_range _ _ _ Hinv') as Hz'. assert (length (take (S d') Zd) = S d') as HlZd' by (rewrite length_take; lia).
    wpP_lift_apply (SubtractAndReturnBorrow_spec (take (S d') Zd) W U); [done | done | lia | lia |].
    rewrite HlU. intros [Zv borrow] (P & -> & HlP & HP & Hbor & EP). rewrite (drop_ge (take _ _)), app_nil_r by lia. rewrite take_ge in EP by lia.
    pose proof (val_bounds P HP) as HvP. rewrite HlP in HvP. pose proof (bpow_pos (S d')). pose proof (bpow_pos d').
    assert (val W - val U = newton_value d d' t z) as Ez' by (rewrite EW, EU; done). cbn [fst snd].
    assert (borrow = 0) as -> by nia. apply wpP_bind, wpP_lift, wp_dcheck; [done|].
    assert (val P = newton_value d d' t z) as EvP by lia.
    apply wpP_bind, wpP_lift, (integer_part P d'); [done | done | lia|].
    assert (put_view Zd 0 P = P ++ drop (S d') Zd) as Eput by (unfold put_view; rewrite take_0, HlP; done).
    assert (take (S d') (put_view Zd 0 P) = P) as Etake by (rewrite Eput; by rewrite take_app_length' by lia).
    wpP_apply (IH d' k' (k'' :: targets) (put_view Zd 0 P) s1); try done; try lia.
    + destruct kDigitBits_cases; lia.
    + cbn in *. lia.
    + by rewrite Etake, EvP.
    + by eapply steady_le.
    + by apply digits_ok_put_view.
    + rewrite length_put_view; lia.
    + rewrite Eput, lookup_app_r, lookup_drop by lia. rewrite HlP. by replace (S d' + (n - S d'))%nat with n by lia.
    + intros [Z' s'] p' (Hle' & ? & ? & ? & ? & ?). unfold inverted in *. cbn [fst snd] in *. split_and!; try done; [by eapply status_le_trans | lia].
Qed.

(** ** The setup *)

Lemma newton_targets_spec fuel j k targets :
  newton_chain k targets -> k <= 49 * kDigitBits * 2 ^ Z.of_nat j -> 3 * kDigitBits <= k -> (j < fuel)%nat -> (length targets + j <= 32)%nat ->
  (targets = [] -> 49 * kDigitBits < k) ->
  wp (newton_targets fuel k targets) (fun '(k0, ts) => newton_chain k0 ts /\ 3 * kDigitBits <= k0 <= 49 * kDigitBits /\ ts <> [] /\ (length ts <= length targets + j)%nat).
Proof.
  revert j k targets. induction fuel as [|fuel IH]; intros j k targets Hc Hk H3 Hf Hl Hne; [lia|]. cbn [newton_targets].
  change (kNewtonInversionThreshold - 1) with 49. destruct (Z.ltb_spec (49 * kDigitBits) k) as [Hlt | Hge].
  2: { apply wp_ret. split_and!; try done; [|lia]. intros ->. specialize (Hne eq_refl). lia. }
  destruct j as [|j]; [cbn in Hk; lia|]. rewrite bool_decide_true by lia.
  assert (2 * DIV_CEIL k 2 - 1 <= k <= 2 * DIV_CEIL k 2) as Hceil.
  { unfold DIV_CEIL. pose proof (Z.div_mod (k - 1) 2). pose proof (Z.mod_pos_bound (k - 1) 2). lia. }
  rewrite Nat2Z.inj_succ, Z.pow_succ_r in Hk by lia. pose proof kDigitBits_cases.
  eapply wp_mono; [apply (IH j (DIV_CEIL k 2) (k :: targets)); cbn [newton_chain length]; try done; try lia|].
  intros [k0 ts] (? & ? & ? & Hlts). cbn [length] in Hlts. split_and!; (done || lia).
Qed.

(** The first approximation, with its integer part. *)
Lemma newton_first d k Zd :
  (0 < d < n)%nat -> 0 < k -> k + 1 <= Z.of_nat d * kDigitBits <= k + 1 + kDigitBits -> digits_ok Zd -> length Zd = (n + 1)%nat ->
  val Zd = bpow d * bpow d / top_val d - bpow d ->
  exists c, Zd !! d = Some c /\ is_digit (c + 1) /\ newton_inv d k (val (take (S d) (<[d := c + 1]> Zd))) /\ Zd !! n = Some 0.
Proof.
  intros Hd Hk Hbits HZ HlZ EZ. destruct (top_val_split d ltac:(lia)) as [Ev Hlow]. destruct (top_val_bounds d ltac:(lia)) as [Ha Ha2].
  assert (2 * 2 ^ k <= bpow d) as H2k by (rewrite <- Z.pow_succ_r by lia; apply bpow_two; lia). pose proof (Z.pow_pos_nonneg 2 k ltac:(lia) ltac:(lia)).
  pose proof (newton_start (bpow d) (bpow (n - d)) (top_val d) (val (take (n - d) V)) (2 ^ k) Ha Ha2 (bpow_ge_4 d ltac:(lia)) Hlow ltac:(lia) H2k) as (Hz & He & Hones).
  set (q := bpow d * bpow d / top_val d) in *. destruct (lookup_lt_is_Some_2 Zd d ltac:(lia)) as [c Hc]. pose proof (digits_ok_lookup _ _ _ HZ Hc) as Hdc. unfold is_digit in Hdc.
  pose proof (val_take_S Zd d c Hc) as Etake. pose proof (val_bounds _ (digits_ok_take d Zd HZ)) as Hb. rewrite length_take, Nat.min_l in Hb by lia.
  pose proof (val_split Zd (S d)) as Es. rewrite length_take, Nat.min_l in Es by lia. pose proof (val_nonneg _ (digits_ok_drop (S d) Zd HZ)) as Hdr.
  pose proof (bpow_pos d) as HD. pose proof (bpow_pos (S d)). pose proof digit_base_ge. assert (bpow (S d) = bpow d * digit_base) as ES by (rewrite bpow_S; lia).
  assert (val (drop (S d) Zd) = 0) as E0 by nia. assert (0 <= c <= 1) as Hc1 by nia.
  assert (bpow n = bpow d * bpow (n - d)) as EN by (apply bpow_split; lia).
  assert (val (take (S d) (<[d:=c + 1]> Zd)) = q) as Eq.
  { rewrite (val_take_S _ d (c + 1)) by (apply list_lookup_insert_eq; lia). rewrite take_insert_ge by lia. lia. }
  exists c. split_and!; [done | unfold is_digit; lia | | apply top_digit_zero; [done | done|]].
  - rewrite Eq. split; [done | by rewrite Ev, EN | | done]. intros Hone. apply Hones. rewrite Ev, EN in Hone. nia.
  - assert (4 <= bpow (n - d)) by (apply bpow_ge_4; lia). rewrite EN, EZ. nia.
Qed.

Lemma InvertNewton_spec L Zd scratch p `{!Multiplier L} :
  (n + 3 <= L)%nat -> kNewtonInversionThreshold <= Z.of_nat n < 2 ^ 28 -> steady p -> digits_ok Zd -> length Zd = (n + 1)%nat ->
  digits_ok scratch -> (InvertNewtonScratchSpace n <= length scratch)%nat ->
  wpP (InvertNewton Zd V scratch) p (inverted Zd scratch p).
Proof.
  unfold kNewtonInversionThreshold. intros HL Hn Hst HZ HlZ Hs Hls. unfold InvertNewton.
  do 3 (apply wpP_bind, wpP_lift, wp_dcheck_decide; [lia|]). apply wpP_bind, wpP_lift, wp_dcheck; [apply Z.ltb_lt; unfold kNewtonInversionThreshold; lia|].
  apply wpP_bit_normalized; [done | lia | done|]. pose proof kDigitBits_cases as Hkb.
  wpP_lift_apply (newton_targets_spec 33 24 (Z.of_nat n * kDigitBits) []); cbn [newton_chain length]; try done; try lia; try nia.
  intros [k ts] (Hc & Hk & Hne & Hlts). cbn [fst snd length] in *.
  set (d := Z.to_nat (DIV_CEIL (k + 1) kDigitBits)). assert (k + 1 <= Z.of_nat d * kDigitBits <= k + kDigitBits) as Hbits.
  { unfold d, DIV_CEIL. pose proof (Z.div_mod (k + 1 - 1) kDigitBits) as E. pose proof (Z.mod_pos_bound (k + 1 - 1) kDigitBits).
    pose proof (Z.div_pos (k + 1 - 1) kDigitBits). rewrite Z2Nat.id by lia. rewrite Z.mul_add_distr_r. lia. }
  assert (d < n)%nat as Hdn. { destruct ts as [|k' ts]; [done|]. pose proof (newton_chain_half _ _ _ Hc ltac:(lia)). destruct Hkb as [E | E]; rewrite E in *; lia. }
  assert (2 <= d <= 50)%nat as Hd50 by (destruct Hkb as [E | E]; rewrite E in *; lia).
  assert (Digits_slice V (n - d) d = drop (n - d) V) as -> by (unfold Digits_slice, slice; rewrite take_ge; [done | rewrite length_drop; lia]).
  assert (length (drop (n - d) V) = d) as Hld by (rewrite length_drop; lia). destruct (top_val_bounds d ltac:(lia)) as [Ha Ha2].
  unfold InvertNewtonScratchSpace in Hls.
  wpP_apply InvertBasecase_spec; rewrite ?Hld; try done; try lia; [by auto with digits | unfold kBurnikelThreshold; lia |].
  intros [Z1 s1] p1 (Hle & HlZ1 & HZ1 & Hls1 & Hs1 & EZ1). cbn [fst snd] in *. fold (top_val d) in EZ1.
  destruct (newton_first d k Z1 ltac:(lia) ltac:(lia) ltac:(lia) HZ1 ltac:(lia) EZ1) as (c & Ec & Hc1 & Hinv & Hn0).
  apply wpP_bind, wpP_lift. unfold rd. rewrite Ec. apply wp_Ok. rewrite wrap_small by done. apply wpP_bind, wpP_lift, wp_wr; [lia|]. rewrite Nat.add_1_r.
  wpP_apply (newton_loop_spec L 33 d k ts (<[d:=c + 1]> Z1) s1); try done; try lia.
  - by eapply steady_le.
  - apply Forall_insert; done.
  - rewrite length_insert. lia.
  - rewrite list_lookup_insert_ne by lia. done.
  - unfold InvertNewtonScratchSpace. lia.
  - intros [Z' s'] p' (Hle' & ? & ? & ? & ? & ?). unfold inverted in *. cbn [fst snd] in *. split_and!; try done; [by eapply status_le_trans | lia].
Qed.
End newton.

(** ** The interface *)

Section inverter.
Context `{Config, Platform}.
Context {alloc : Allocator} {fft : FftMultiplier}.

Lemma invert_spec_newton L n `{!Multiplier L} : (n + 3 <= L)%nat -> kNewtonInversionThreshold <= Z.of_nat n < 2 ^ 28 -> invert_spec n.
Proof.
  intros HL Hn Zd V scratch p Hst HZ HV Hs HlV HlZ Hls Htop. unfold Invert. rewrite HlV. pose proof Hn as Hn50. unfold kNewtonInversionThreshold in Hn50.
  do 2 (apply wpP_bind, wpP_lift, wp_dcheck_decide; [lia|]). apply wpP_bit_normalized; [done | lia | by rewrite HlV |].
  apply wpP_bind, wpP_lift, wp_dcheck_decide; [done|]. rewrite (proj2 (Z.leb_le _ _)) by lia. subst n.
  unfold InvertScratchSpace in Hls. rewrite (proj2 (Z.ltb_ge _ _)) in Hls by lia.
  eapply wpP_mono; [by apply (InvertNewton_spec V HV Htop L)|]. intros [Z' s'] p' (? & ? & ? & ? & ? & ?). by split_and!.
Qed.

(** [Invert] is as accurate as Barrett division needs for every length, given exact products. *)
Lemma Inverter_of_Multiplier L LI `{!Multiplier L} : (LI + 3 <= L)%nat -> Z.of_nat LI < 2 ^ 28 -> Inverter LI.
Proof.
  intros HL HLI n Hn. destruct (Z.lt_ge_cases (Z.of_nat n) kNewtonInversionThreshold); [apply invert_spec_small; lia|].
  apply (invert_spec_newton L); (done || lia).
Qed.
End inverter.
