(* ===== verification/Division.v ===== *)
(** Division and remainder: the dispatch of [src/bigint/bigint-internal.cc], the public
    entry points of [Processor], and the result lengths of [bigint.h]. *)

From Stdlib Require Import ZArith Lia.
From stdpp Require Import base tactics numbers list option.
From S2P Require Import Prelude Digit Digits VectorArithmetic Processor MulSchoolbook MulKaratsuba Multiply DivHelpers DivSchoolbook DivBurnikel DivBarrett.

#[local] Open Scope Z_scope.

Section division.
Context `{Config, Platform}.
Context {alloc : Allocator} {fft : FftMultiplier}.
Implicit Types A B Q R : digits.

Definition kBarrettThreshold : Z := 13310.

Definition DivideResultLength (A B : digits) : Z :=
  let kBarrettExtraScratch :=
    if V8_ADVANCED_BIGINT_ALGORITHMS
    then if kBarrettThreshold <=? Z.of_nat (length B) then 1 else 0
    else 0 in
  Z.of_nat (length A) - Z.of_nat (length B) + 1 + kBarrettExtraScratch.

Definition ModuloResultLength (B : digits) : nat := length B.

Definition Divide (Q A B : digits) : PM digits :=
  let A := Normalize A in
  let B := Normalize B in
  lift (dcheck (bool_decide (0 < length B)%nat));;
  cmp ← lift (Compare A B);
  if cmp <? 0 then mret (Clear Q)
  else if cmp =? 0 then
    Q ← lift (wr Q 0 1);
    lift (zero_from 1 Q)
  else if bool_decide (length B = 1)%nat then
    b ← lift (rd B 0);
    '(Q, _) ← lift (DivideSingle Q A b);
    mret Q
  else if Z.of_nat (length B) <? kBurnikelThreshold then
    '(Q, _) ← DivideSchoolbook Q [] A B; mret Q
  else if negb V8_ADVANCED_BIGINT_ALGORITHMS then
    '(Q, _) ← DivideBurnikelZiegler Q [] A B; mret Q
  else if (Z.of_nat (length B) <? kBarrettThreshold) || bool_decide (length A = length B) then
    '(Q, _) ← DivideBurnikelZiegler Q [] A B; mret Q
  else
    '(Q, _) ← DivideBarrett Q (uninitialized (length B)) A B; mret Q.

(** For [A < B] this copies [B], not [A], into [R]. *)
Definition Modulo (R A B : digits) : PM digits :=
  let A := Normalize A in
  let B := Normalize B in
  lift (dcheck (bool_decide (0 < length B)%nat));;
  cmp ← lift (Compare A B);
  if cmp <? 0 then
    '(R, _) ← lift (write_loop (length B) 0 (fun i _ _ => b ← rd B i; mret (b, tt)) R tt);
    lift (zero_from (length B) R)
  else if cmp =? 0 then mret (Clear R)
  else if bool_decide (length B = 1)%nat then
    b ← lift (rd B 0);
    '(_, remainder) ← lift (DivideSingle [] A b);
    R ← lift (wr R 0 remainder);
    lift (zero_from 1 R)
  else if Z.of_nat (length B) <? kBurnikelThreshold then
    '(_, R) ← DivideSchoolbook [] R A B; mret R
  else
    let Q := uninitialized (Z.to_nat (DivideResultLength A B)) in
    if negb V8_ADVANCED_BIGINT_ALGORITHMS then
      '(_, R) ← DivideBurnikelZiegler Q R A B; mret R
    else if (Z.of_nat (length B) <? kBarrettThreshold) || bool_decide (length A = length B) then
      '(_, R) ← DivideBurnikelZiegler Q R A B; mret R
    else
      '(_, R) ← DivideBarrett Q R A B; mret R.

(** ** The public interface: the result and the status of the operation, which is reset *)

Definition Processor_Multiply (Zd X Y : digits) : PM (Status * digits) :=
  Zd ← Multiply Zd X Y; s ← get_and_clear_status; mret (s, Zd).

Definition Processor_Divide (Q A B : digits) : PM (Status * digits) :=
  Q ← Divide Q A B; s ← get_and_clear_status; mret (s, Q).

Definition Processor_Modulo (R A B : digits) : PM (Status * digits) :=
  R ← Modulo R A B; s ← get_and_clear_status; mret (s, R).

(** ** Correctness *)

(** When the dispatch reaches Barrett division. *)
Definition uses_barrett (A B : digits) : Prop :=
  V8_ADVANCED_BIGINT_ALGORITHMS = true /\ kBarrettThreshold <= Z.of_nat (length B) /\
  (length B < length A)%nat.

(** What the operands of a division have to satisfy: the divisor is within reach of
    the multiplication and inversion algorithms. *)
Record divisible (L LI : nat) (p : ProcessorImpl) (A B : digits) : Prop := {
  div_steady : steady p;
  div_A : digits_ok A;
  div_B : digits_ok B;
  div_normA : normalized A;
  div_normB : normalized B;
  div_nonzero : B <> [];
  div_int : Z.of_nat (length B) < 2 ^ 30;
  div_L : (length B + 1 <= L)%nat;
  div_barrett : uses_barrett A B -> uninterrupted p /\ (length B <= LI \/ length A - length B < LI)%nat;
}.

Lemma DivideResultLength_ge A B :
  Z.of_nat (length A) - Z.of_nat (length B) + 1 <= DivideResultLength A B.
Proof.
  unfold DivideResultLength.
  destruct V8_ADVANCED_BIGINT_ALGORITHMS, (Z.leb_spec kBarrettThreshold (Z.of_nat (length B))); lia.
Qed.

(** The common part of both dispatches: the algorithm for a divisor above the
    Burnikel-Ziegler threshold.  [R0] is empty when only the quotient is wanted. *)
Lemma wpP_divide_large L LI Q R0 R A B p (k : digits * digits -> PM digits)
    (Post : digits -> ProcessorImpl -> Prop) `{!Multiplier L} `{!Inverter LI} :
  divisible L LI p A B -> (length B <= length A)%nat -> digits_ok Q -> digits_ok R ->
  DivideResultLength A B <= Z.of_nat (length Q) -> (length B <= length R)%nat -> R0 = [] \/ R0 = R ->
  (forall Q' R' p', status_le p p' -> length Q' = length Q -> digits_ok Q' ->
     (R0 <> [] -> length R' = length R /\ digits_ok R') ->
     (status_ p' = kOk -> val Q' = val A / val B /\ (R0 <> [] -> val R' = val A mod val B)) ->
     wpP (k (Q', R')) p' Post) ->
  wpP (if negb V8_ADVANCED_BIGINT_ALGORITHMS then DivideBurnikelZiegler Q R0 A B ≫= k
       else if (Z.of_nat (length B) <? kBarrettThreshold) || bool_decide (length A = length B)
       then DivideBurnikelZiegler Q R0 A B ≫= k
       else DivideBarrett Q R A B ≫= k) p Post.
Proof.
  intros [Hst HA HB NA NB Hne Hi HL Hbar] Hl HQ HR HlQ HlR HR0 HP.
  pose proof (DivideResultLength_ge A B). assert (0 < length B)%nat by (destruct B; [done | simpl; lia]).
  assert (wpP (DivideBurnikelZiegler Q R0 A B ≫= k) p Post) as Hbz.
  { wpP_apply DivideBurnikelZiegler_spec; try done; try lia.
    { destruct HR0 as [-> | ->]; [constructor | done]. } { destruct HR0 as [-> | ->]; [by left | by right]. }
    intros [Q' R'] p' (? & ? & ? & ? & ? & ?). apply HP; try done.
    intros ?. destruct HR0 as [-> | ->]; done. }
  destruct V8_ADVANCED_BIGINT_ALGORITHMS eqn:Hadv; cbn [negb]; [|done].
  destruct (Z.ltb_spec (Z.of_nat (length B)) kBarrettThreshold) as [Hth | Hth]; cbn [orb]; [done|].
  case_bool_decide; [done|].
  destruct Hbar as [Hun HLI]; [split_and!; (done || lia)|].
  unfold DivideResultLength in HlQ. rewrite Hadv, (proj2 (Z.leb_le _ _) Hth) in HlQ.
  wpP_apply (DivideBarrett_spec L LI); try done; try lia.
  intros [Q' R'] p' (? & ? & ? & ? & ? & Hval). apply HP; try done.
  intros Hok. by destruct (Hval Hok).
Qed.

Lemma val_single b : val [b] = b.
Proof. cbn [val]. lia. Qed.

(** A result of one digit, in a buffer of any length. *)
Lemma wp_single_and_zeros d Q (q v : Z) p p' :
  is_digit d -> status_le p p' -> v = d ->
  wp (zero_from 1 (d :: Q)) (fun Q' => status_le p p' /\ length Q' = length (q :: Q) /\ digits_ok Q' /\
    (status_ p' = kOk -> val Q' = v)).
Proof.
  intros Hd Hle ->. apply (wp_zero_from [d]); [done|].
  rewrite val_app_zeros, length_app, length_replicate, val_single. split_and!; try done.
  apply Forall_app. split; [by constructor | apply Forall_replicate, is_digit_0].
Qed.

Lemma Divide_spec L LI Q A B p `{!Multiplier L} `{!Inverter LI} :
  divisible L LI p A B -> digits_ok Q -> (0 < length Q)%nat ->
  DivideResultLength A B <= Z.of_nat (length Q) ->
  wpP (Divide Q A B) p (fun Q' p' => status_le p p' /\ length Q' = length Q /\ digits_ok Q' /\
    (status_ p' = kOk -> val Q' = val A / val B)).
Proof.
  intros Hd HQ HQ0 HlQ. pose proof Hd as [Hst HA HB NA NB Hne Hi HL Hbar]. unfold Divide.
  rewrite !normalized_id by done. assert (0 < length B)%nat as HB1 by (destruct B; [done | simpl; lia]).
  apply wpP_bind, wpP_lift, wp_dcheck_decide; [done|].
  pose proof (val_nonneg A HA) as HA0. pose proof (val_pos_of_normalized B HB NB Hne) as HB0.
  wpP_lift_apply (Compare_spec A B); [done | done|]. intros cmp (Clt & Ceq & Cgt).
  destruct (Z.ltb_spec cmp 0) as [Hc | Hc].
  { apply wpP_ret. destruct (Clear_spec Q) as (? & ? & ->). rewrite Z.div_small by lia. split_and!; by auto with digits. }
  destruct (Z.eqb_spec cmp 0) as [Hc0 | Hc0].
  { apply Ceq in Hc0. destruct Q as [|q Q]; [simpl in *; lia|]. apply wpP_bind, wpP_lift, wp_wr; [done|].
    apply wpP_lift. cbn [insert list_insert]. rewrite Hc0, Z.div_same by lia.
    pose proof digit_base_ge. apply wp_single_and_zeros; [unfold is_digit; lia | by auto with digits | done]. }
  assert (length B <= length A)%nat as Hl by (apply normalized_length_le; (done || lia)).
  assert (A <> []) as HneA by (by intros ->; simpl in *; lia).
  pose proof (DivideResultLength_ge A B).
  assert (length A - length B + 1 <= length Q)%nat as HlQ' by lia.
  assert (Q <> []) as HneQ by (by intros ->; simpl in *; lia).
  case_bool_decide as Hone.
  { destruct B as [|b []]; try done. apply wpP_bind, wpP_lift. cbn. rewrite ?Z.mul_0_r, ?Z.add_0_r in *.
    apply Forall_inv in HB. wpP_lift_apply DivideSingle_spec; try done; cbn in *; try lia.
    intros [Q' r] (? & ? & ? & _). apply wpP_ret. split_and!; [by auto with digits | done | done | auto]. }
  destruct (Z.ltb_spec (Z.of_nat (length B)) kBurnikelThreshold).
  { wpP_apply DivideSchoolbook_spec; try done; try lia; [unfold quotient_fits; right; left; lia | by left |].
    intros [Q' R'] p' (? & ? & _ & ? & ? & _). apply wpP_ret. split_and!; auto. }
  apply (wpP_divide_large L LI Q [] (uninitialized (length B)) A B p (fun '(Q, _) => mret Q));
    try done; [apply uninitialized_ok | by rewrite length_uninitialized | by left |].
  intros Q' R' p' ? ? ? _ Hval. apply wpP_ret. split_and!; try done. intros Hok. by destruct (Hval Hok).
Qed.

Lemma Modulo_spec L LI R A B p `{!Multiplier L} `{!Inverter LI} :
  divisible L LI p A B -> digits_ok R -> (ModuloResultLength B <= length R)%nat -> val B <= val A ->
  wpP (Modulo R A B) p (fun R' p' => status_le p p' /\ length R' = length R /\ digits_ok R' /\
    (status_ p' = kOk -> val R' = val A mod val B)).
Proof.
  intros Hd HR HlR HBA. unfold ModuloResultLength in HlR.
  pose proof Hd as [Hst HA HB NA NB Hne Hi HL Hbar]. unfold Modulo.
  rewrite !normalized_id by done. assert (0 < length B)%nat as HB1 by (destruct B; [done | simpl; lia]).
  apply wpP_bind, wpP_lift, wp_dcheck_decide; [done|].
  pose proof (val_pos_of_normalized B HB NB Hne) as HB0.
  wpP_lift_apply (Compare_spec A B); [done | done|]. intros cmp (Clt & Ceq & Cgt).
  destruct (Z.ltb_spec cmp 0) as [Hc | Hc]; [lia|].
  destruct (Z.eqb_spec cmp 0) as [Hc0 | Hc0].
  { apply Ceq in Hc0. apply wpP_ret. destruct (Clear_spec R) as (? & ? & ->).
    rewrite Hc0, Z.mod_same by lia. split_and!; by auto with digits. }
  assert (length B <= length A)%nat as Hl by (apply normalized_length_le; (done || lia)).
  assert (A <> []) as HneA by (by intros ->; simpl in *; lia).
  assert (R <> []) as HneR by (by intros ->; simpl in *; lia).
  case_bool_decide as Hone.
  { destruct B as [|b []]; try done. apply wpP_bind, wpP_lift. cbn. rewrite ?Z.mul_0_r, ?Z.add_0_r in *.
    apply Forall_inv in HB. wpP_lift_apply DivideSingle_spec; try done; try lia; try (by left); [simpl in *; lia|].
    intros [Q' r] (_ & _ & _ & ->). destruct R as [|r0 R]; [done|].
    apply wpP_bind, wpP_lift, wp_wr; [done|]. apply wpP_lift. cbn [insert list_insert].
    apply wp_single_and_zeros; [|by auto with digits | done].
    rewrite val_single in HB0. pose proof (Z.mod_pos_bound (val A) b HB0). unfold is_digit in *. lia. }
  destruct (Z.ltb_spec (Z.of_nat (length B)) kBurnikelThreshold).
  { wpP_apply DivideSchoolbook_spec; try done; try lia; [constructor | by left |].
    intros [Q' R'] p' (? & _ & ? & _ & _ & HRv). destruct (HRv HneR). apply wpP_ret. split_and!; auto. }
  set (q_len := Z.to_nat _). pose proof (DivideResultLength_ge A B).
  apply (wpP_divide_large L LI (uninitialized q_len) R R A B p (fun '(_, R) => mret R));
    try done; [apply uninitialized_ok | rewrite length_uninitialized; lia | by right |].
  intros Q' R' p' ? ? ? HR' Hval. destruct (HR' HneR). apply wpP_ret. split_and!; try done.
  intros Hok. destruct (Hval Hok) as [_ Hr]. auto.
Qed.

End division.
