(* ===== verification/FromString.v ===== *)
(** Parsing: [FromStringAccumulator] of [src/bigint/bigint.h] and [src/bigint/fromstring.cc].
    A string is the list of its characters' codes; an iterator is the list of the
    characters from its position on. *)

From Stdlib Require Import ZArith Lia.
From stdpp Require Import base tactics numbers list option.
From S2P Require Import Prelude Digit Digits VectorArithmetic Processor MulSchoolbook MulKaratsuba MulToom Multiply.

#[local] Open Scope Z_scope.

(** ** The accumulator *)

Definition kStackParts : nat := 8.

(** [FromStringAccumulator::Result]. *)
Inductive Result : Type :=
  | Result_kOk
  | kMaxSizeExceeded.

Record FromStringAccumulator : Type := mkAccumulator {
  stack_parts_ : digits;
  heap_parts_ : digits;
  max_multiplier_ : Z;
  last_multiplier_ : Z;
  max_digits_ : nat;
  result_ : Result;
  stack_parts_used_ : nat;
  inline_everything_ : bool;
  radix_ : Z;
}.

(** Numerical value of the ASCII characters, 255 for an invalid one. *)
Definition kCharValue : list Z :=
  replicate 48 255 ++
  [0; 1; 2; 3; 4; 5; 6; 7; 8; 9] ++ replicate 7 255 ++
  [10; 11; 12; 13; 14; 15; 16; 17; 18; 19; 20; 21; 22; 23; 24; 25; 26; 27; 28; 29; 30; 31; 32; 33; 34; 35] ++
  replicate 6 255 ++
  [10; 11; 12; 13; 14; 15; 16; 17; 18; 19; 20; 21; 22; 23; 24; 25; 26; 27; 28; 29; 30; 31; 32; 33; 34; 35] ++
  replicate 5 255.

Definition kCharBits : list Z := [1; 2; 3; 0; 4; 0; 0; 0; 5].

Section from_string.
Context `{Config, Platform}.
Context {alloc : Allocator}.
Context {fft : FftMultiplier}.

(** [FromStringAccumulator(int max_digits)]: [stack_parts_] and [last_multiplier_] are not
    initialized. *)
Definition FromStringAccumulator_new (max_digits : nat) : FromStringAccumulator :=
  mkAccumulator (uninitialized kStackParts) [] 0 (hd 0 (uninitialized 1)) (max_digits `max` kStackParts)
    Result_kOk 0 false 0.

Definition ResultLength (acc : FromStringAccumulator) : nat :=
  stack_parts_used_ acc `max` length (heap_parts_ acc).

(** The value of [c] as a digit, [None] if
    [c > 127 || (d = bigint::kCharValue[c]) >= radix]. *)
Definition char_digit (c radix : Z) : option Z :=
  if 127 <? c then None
  else
    let d := nth (Z.to_nat c) kCharValue 255 in
    if radix <=? d then None else Some d.

(** [stack_parts_[stack_parts_used_++] = part]. *)
Definition push_stack_part (acc : FromStringAccumulator) (part : Z) : res FromStringAccumulator :=
  stack ← wr (stack_parts_ acc) (stack_parts_used_ acc) part;
  mret (mkAccumulator stack (heap_parts_ acc) (max_multiplier_ acc) (last_multiplier_ acc) (max_digits_ acc)
    (result_ acc) (S (stack_parts_used_ acc)) (inline_everything_ acc) (radix_ acc)).

(** [AddPart(part)]: the returned flag, and the accumulator. *)
Definition AddPart (acc : FromStringAccumulator) (part : Z) : res (bool * FromStringAccumulator) :=
  if bool_decide (stack_parts_used_ acc < kStackParts)%nat then
    acc ← push_stack_part acc part; mret (true, acc)
  else
    let heap := if bool_decide (length (heap_parts_ acc) = 0)%nat then stack_parts_ acc else heap_parts_ acc in
    if bool_decide (max_digits_ acc <= length heap)%nat then
      mret (false, mkAccumulator (stack_parts_ acc) heap (max_multiplier_ acc) (last_multiplier_ acc)
        (max_digits_ acc) kMaxSizeExceeded (stack_parts_used_ acc) (inline_everything_ acc) (radix_ acc))
    else
      mret (true, mkAccumulator (stack_parts_ acc) (heap ++ [part]) (max_multiplier_ acc) (last_multiplier_ acc)
        (max_digits_ acc) (result_ acc) (stack_parts_used_ acc) (inline_everything_ acc) (radix_ acc)).

(** The inlined version of [MultiplySingle] in [AddPart(multiplier, part, is_last)]. *)
Definition AddPart_inline (acc : FromStringAccumulator) (multiplier part : Z) : res FromStringAccumulator :=
  '(stack, (carry, high)) ← write_loop (stack_parts_used_ acc) 0
    (fun i stack '(carry, high) =>
       x ← rd stack i;
       let result := wrap2 (x * multiplier) in
       let new_high := wrap (Z.shiftr result kDigitBits) in
       let low := wrap result in
       let result := wrap2 (wrap2 (low + high) + carry) in
       let carry := wrap (Z.shiftr result kDigitBits) in
       mret (wrap result, (carry, new_high))) (stack_parts_ acc) (part, 0);
  push_stack_part
    (mkAccumulator stack (heap_parts_ acc) (max_multiplier_ acc) (last_multiplier_ acc) (max_digits_ acc)
       (result_ acc) (stack_parts_used_ acc) (inline_everything_ acc) (radix_ acc)) (wrap (carry + high)).

(** [AddPart(multiplier, part, is_last)]. *)
Definition AddPart_multiplier (acc : FromStringAccumulator) (multiplier part : Z) (is_last : bool)
    : res (bool * FromStringAccumulator) :=
  if HAVE_TWODIGIT_T && inline_everything_ acc then
    acc ← AddPart_inline acc multiplier part; mret (true, acc)
  else
    dcheck (HAVE_TWODIGIT_T || negb (inline_everything_ acc));;
    acc ←
      (if is_last then
         mret (mkAccumulator (stack_parts_ acc) (heap_parts_ acc) (max_multiplier_ acc) multiplier (max_digits_ acc)
           (result_ acc) (stack_parts_used_ acc) (inline_everything_ acc) (radix_ acc))
       else
         dcheck ((max_multiplier_ acc =? 0) || (max_multiplier_ acc =? multiplier));;
         mret (mkAccumulator (stack_parts_ acc) (heap_parts_ acc) multiplier (last_multiplier_ acc) (max_digits_ acc)
           (result_ acc) (stack_parts_used_ acc) (inline_everything_ acc) (radix_ acc)));
    AddPart acc part.

(** ** Reading the characters *)

(** The inner loop of [Parse]: the position, the multiplier and the part, and [done].  The
    two ways to test for overflow of the multiplication are equivalent. *)
Fixpoint parse_part (current : list Z) (radix multiplier part : Z) : res (list Z * Z * Z * bool) :=
  match current with
  | [] => Err OutOfBounds
  | c :: rest =>
      match char_digit c radix with
      | None => mret (current, multiplier, part, true)
      | Some d =>
          if digit_base <=? multiplier * radix then mret (current, multiplier, part, false)
          else
            let multiplier := multiplier * radix in
            let part := wrap (wrap (part * radix) + d) in
            if bool_decide (rest = []) then mret (rest, multiplier, part, true)
            else parse_part rest radix multiplier part
      end
  end.

(** The outer loop of [Parse]. *)
Fixpoint parse_parts (fuel : nat) (acc : FromStringAccumulator) (current : list Z) (radix : Z)
    : res (list Z * FromStringAccumulator) :=
  match fuel with
  | O => Err OutOfFuel
  | S fuel =>
      '(current, multiplier, part, done) ← parse_part current radix 1 0;
      '(more, acc) ← AddPart_multiplier acc multiplier part done;
      if negb more then mret (current, acc)
      else if (done : bool) then mret (current, acc)
      else parse_parts fuel acc current radix
  end.

(** The inner loop of [ParsePowerTwo]: the position, the part, [bits_left] and [done]. *)
Fixpoint parse_part_power_two (current : list Z) (radix char_bits part bits_left : Z)
    : res (list Z * Z * Z * bool) :=
  match current with
  | [] => Err OutOfBounds
  | c :: rest =>
      match char_digit c radix with
      | None => mret (current, part, bits_left, true)
      | Some d =>
          if bits_left <? char_bits then mret (current, part, bits_left, false)
          else
            let bits_left := bits_left - char_bits in
            let part := Z.lor (wrap (Z.shiftl part char_bits)) d in
            if bool_decide (rest = []) then mret (rest, part, bits_left, true)
            else parse_part_power_two rest radix char_bits part bits_left
      end
  end.

(** The outer loop of [ParsePowerTwo]. *)
Fixpoint parse_parts_power_two (fuel : nat) (acc : FromStringAccumulator) (current : list Z) (radix char_bits : Z)
    : res (list Z * FromStringAccumulator) :=
  match fuel with
  | O => Err OutOfFuel
  | S fuel =>
      '(current, part, bits_left, done) ← parse_part_power_two current radix char_bits 0 kDigitBits;
      '(more, acc) ← AddPart acc part;
      if negb more then mret (current, acc)
      else if (done : bool) then
        mret (current, mkAccumulator (stack_parts_ acc) (heap_parts_ acc) (max_multiplier_ acc) bits_left
          (max_digits_ acc) (result_ acc) (stack_parts_used_ acc) (inline_everything_ acc) (radix_ acc))
      else parse_parts_power_two fuel acc current radix char_bits
  end.

Definition ParsePowerTwo (acc : FromStringAccumulator) (current : list Z) (radix : Z)
    : res (list Z * FromStringAccumulator) :=
  let acc := mkAccumulator (stack_parts_ acc) (heap_parts_ acc) (max_multiplier_ acc) (last_multiplier_ acc)
    (max_digits_ acc) (result_ acc) (stack_parts_used_ acc) (inline_everything_ acc) (radix mod 2 ^ 8) in
  char_bits ← rd kCharBits (Z.to_nat (Z.shiftr radix 2));
  parse_parts_power_two (S (length current)) acc current radix char_bits.

Definition kInlineThreshold : Z := Z.of_nat kStackParts * kDigitBits * 100 / 517.

(** [Parse(start, end, radix)]: the position where it stopped, and the accumulator. *)
Definition Parse (acc : FromStringAccumulator) (start : list Z) (radix : Z)
    : res (list Z * FromStringAccumulator) :=
  dcheck ((2 <=? radix) && (radix <=? 36));;
  let inline := if HAVE_TWODIGIT_T then Z.of_nat (length start) <=? kInlineThreshold else inline_everything_ acc in
  let acc := mkAccumulator (stack_parts_ acc) (heap_parts_ acc) (max_multiplier_ acc) (last_multiplier_ acc)
    (max_digits_ acc) (result_ acc) (stack_parts_used_ acc) inline (radix_ acc) in
  if negb inline && (Z.land radix (radix - 1) =? 0) then ParsePowerTwo acc start radix
  else parse_parts (S (length start)) acc start radix.

(** ** Assembling the digits *)

(** The parts: all of them are on the heap, or all on the stack. *)
Definition acc_parts (acc : FromStringAccumulator) : digits :=
  if bool_decide (length (heap_parts_ acc) = 0)%nat then take (stack_parts_used_ acc) (stack_parts_ acc)
  else heap_parts_ acc.

(** The loop of [FromStringClassic] and the step for the last part; [already_set] is the view
    of the first [i] digits of [Z], which [MultiplySingle] reads before it writes them. *)
Definition classic_parts (Zd parts : digits) (max_multiplier last_multiplier : Z) : PM digits :=
  let num_parts := length parts in
  Zd ← for_loopP (num_parts - 2) 1 (fun i Zd =>
    Zd ← MultiplySingle Zd (Digits_slice Zd 0 i) max_multiplier;
    part ← lift (rd parts i);
    lift (Add_digit Zd part)) Zd;
  Zd ← MultiplySingle Zd (Digits_slice Zd 0 (num_parts - 1)) last_multiplier;
  part ← lift (rd parts (num_parts - 1));
  lift (Add_digit Zd part).

Definition FromStringClassic (Zd : digits) (acc : FromStringAccumulator) : PM digits :=
  lift (dcheck (bool_decide (0 < stack_parts_used_ acc)%nat));;
  p0 ← lift (rd (stack_parts_ acc) 0);
  Zd ← lift (wr Zd 0 p0);
  Zd ← lift (zero_from 1 Zd);
  if bool_decide (stack_parts_used_ acc = 1)%nat then mret Zd
  else classic_parts Zd (acc_parts acc) (max_multiplier_ acc) (last_multiplier_ acc).

(** [digit >> shift], which is undefined for a shift by the width of the type. *)
Definition digit_shr (d shift : Z) : res Z :=
  if shift <? kDigitBits then mret (Z.shiftr d shift) else Err UndefinedShift.

(** The inner loop of [FromStringBasePowerOfTwo]; [ps] are the parts from [part_index] down.
    Returns the remaining parts, [digit], [digit_bits], [part] and [part_bits]. *)
Fixpoint fill_digit (ps : digits) (max_part_bits digit digit_bits part part_bits : Z)
    : res (digits * Z * Z * Z * Z) :=
  if digit_bits <? kDigitBits then
    match ps with
    | [] => Err OutOfBounds
    | part :: ps =>
        let part_bits := max_part_bits in
        let digit := Z.lor digit (wrap (Z.shiftl part digit_bits)) in
        let part_shift := kDigitBits - digit_bits in
        if part_bits <? part_shift then
          let digit_bits := digit_bits + part_bits in
          if bool_decide (ps = []) then mret (ps, digit, digit_bits, 0, 0)
          else fill_digit ps max_part_bits digit digit_bits 0 0
        else
          part ← digit_shr part part_shift;
          fill_digit ps max_part_bits digit kDigitBits part (part_bits - part_shift)
    end
  else mret (ps, digit, digit_bits, part, part_bits).

(** The outer loop: [Z], [z_index], [digit] and [digit_bits] when no part is left. *)
Fixpoint assemble_digits (fuel : nat) (Zd : digits) (z_index : nat) (ps : digits) (max_part_bits digit digit_bits : Z)
    : res (digits * nat * Z * Z) :=
  match fuel with
  | O => Err OutOfFuel
  | S fuel =>
      if bool_decide (ps = []) then mret (Zd, z_index, digit, digit_bits)
      else
        '(ps, digit, digit_bits, part, part_bits) ← fill_digit ps max_part_bits digit digit_bits 0 0;
        Zd ← wr Zd z_index digit;
        assemble_digits fuel Zd (S z_index) ps max_part_bits part part_bits
  end.

Definition FromStringBasePowerOfTwo (Zd : digits) (acc : FromStringAccumulator) : res digits :=
  let num_parts := ResultLength acc in
  dcheck (bool_decide (1 <= num_parts)%nat);;
  dcheck (bool_decide (num_parts <= length Zd)%nat);;
  let parts := acc_parts acc in
  let radix := radix_ acc in
  dcheck ((radix =? 2) || (radix =? 4) || (radix =? 8) || (radix =? 16) || (radix =? 32));;
  let char_bits := BitLength_int (radix - 1) in
  let unused_last_part_bits := last_multiplier_ acc in
  let unused_part_bits := kDigitBits mod char_bits in
  let max_part_bits := kDigitBits - unused_part_bits in
  if unused_last_part_bits =? 0 then
    dcheck (kDigitBits mod char_bits =? 0);;
    '(Zd, _) ← write_loop num_parts 0 (fun i _ _ => p ← rd parts (num_parts - 1 - i); mret (p, tt)) Zd tt;
    zero_from num_parts Zd
  else
    digit ← rd parts (num_parts - 1);
    let digit_bits := kDigitBits - unused_last_part_bits in
    '(Zd, z_index, digit, digit_bits) ←
      assemble_digits num_parts Zd 0 (reverse (take (num_parts - 1) parts)) max_part_bits digit digit_bits;
    if 0 <? digit_bits then Zd ← wr Zd z_index digit; zero_from (S z_index) Zd
    else zero_from z_index Zd.

(** *** Large inputs *)

Definition kFromStringLargeThreshold : Z := 300.

(** The three buffers of [FromStringLarge], named by their role in the current iteration. *)
Record buffers := mkBuffers {
  b_parts : digits;
  b_multipliers : digits;
  b_temp : digits;
}.

(** The first iteration for the pair of parts at [2 * j], [2 * j + 1]; the state is
    ([new_parts], [new_multipliers]), the latter in the memory of the parts. *)
Definition large_first_pair (num_parts : nat) (max_multiplier last_multiplier : Z) (j : nat)
    (s : digits * digits) : res (digits * digits) :=
  let '(new_parts, parts) := s in
  let i := (2 * j)%nat in
  p_in ← rd parts i;
  p_in2 ← rd parts (i + 1);
  let m_in := max_multiplier in
  let m_in2 := if bool_decide (i = num_parts - 2)%nat then last_multiplier else max_multiplier in
  let '(p_low, p_high) := digit_mul p_in m_in2 in
  let '(p0, carry) := digit_add2 p_low p_in2 in
  new_parts ← wr new_parts i p0;
  new_parts ← wr new_parts (i + 1) (wrap (p_high + carry));
  if bool_decide (0 < i)%nat then
    if bool_decide (2 < i)%nat && negb (m_in2 =? last_multiplier) then
      m0 ← rd parts (i - 2);
      parts ← wr parts i m0;
      m1 ← rd parts (i - 1);
      parts ← wr parts (i + 1) m1;
      mret (new_parts, parts)
    else
      let '(m_low, m_high) := digit_mul m_in m_in2 in
      parts ← wr parts i m_low;
      parts ← wr parts (i + 1) m_high;
      mret (new_parts, parts)
  else mret (new_parts, parts).

(** The first iteration: the buffers in their next roles, and the new number of parts. *)
Definition large_first (b : buffers) (num_parts : nat) (max_multiplier last_multiplier : Z)
    : res (buffers * nat) :=
  let pairs := Nat.div2 num_parts in
  '(new_parts, new_multipliers) ←
    for_loop pairs 0 (large_first_pair num_parts max_multiplier last_multiplier) (b_temp b, b_parts b);
  let i := (2 * pairs)%nat in
  if bool_decide (i < num_parts)%nat then
    p ← rd new_multipliers i;
    new_parts ← wr new_parts i p;
    new_multipliers ← wr new_multipliers i last_multiplier;
    mret (mkBuffers new_parts new_multipliers (b_multipliers b), S pairs)
  else mret (mkBuffers new_parts new_multipliers (b_multipliers b), pairs).

(** Whether the multipliers of this pair equal those of the previous one. *)
Definition same_multipliers (multipliers : digits) (i part_len : nat) : res bool :=
  let m_in := Digits_slice multipliers (i * part_len) part_len in
  let m_in2 := Digits_slice multipliers (i * part_len + part_len) part_len in
  let m_in_prev := Digits_slice multipliers ((i - 2) * part_len) part_len in
  let m_in2_prev := Digits_slice multipliers ((i - 2) * part_len + part_len) part_len in
  c ← Compare m_in m_in_prev;
  if negb (c =? 0) then mret false
  else c ← Compare m_in2 m_in2_prev; mret (c =? 0).

(** The multiplier of the pair of parts at [i > 0], in the memory of the parts; [false] is the
    early return after an interrupt. *)
Definition large_multiplier (multipliers : digits) (part_len i : nat) (parts : digits) : PM (bool * digits) :=
  let new_part_len := (part_len * 2)%nat in
  let start := (i * part_len)%nat in
  copied ← (if bool_decide (2 < i)%nat then lift (same_multipliers multipliers i part_len) else mret false);
  if (copied : bool) then
    let prev_start := ((i - 2) * part_len)%nat in
    m_out ← lift (write_loop new_part_len 0
      (fun k _ _ => m ← rd (Digits_slice parts prev_start new_part_len) k; mret (m, tt))
      (Digits_slice parts start new_part_len) tt);
    mret (true, splice parts start (fst m_out))
  else
    m_out ← Multiply (Digits_slice parts start new_part_len) (Digits_slice multipliers start part_len)
      (Digits_slice multipliers (start + part_len) part_len);
    t ← should_terminate;
    mret (negb t, splice parts start m_out).

(** A later iteration for the pair of parts at [i]; [false] is the early return after an
    interrupt. *)
Definition large_pair (multipliers : digits) (part_len i : nat) (new_parts parts : digits)
    : PM (bool * digits * digits) :=
  let new_part_len := (part_len * 2)%nat in
  let start := (i * part_len)%nat in
  let p_in := Digits_slice parts start part_len in
  let p_in2 := Digits_slice parts (start + part_len) part_len in
  let m_in2 := Digits_slice multipliers (start + part_len) part_len in
  p_out ← Multiply (Digits_slice new_parts start new_part_len) p_in m_in2;
  t ← should_terminate;
  if (t : bool) then mret (false, splice new_parts start p_out, parts)
  else
    '(p_out, overflow) ← lift (AddAndReturnOverflow p_out p_in2);
    lift (dcheck (overflow =? 0));;
    let new_parts := splice new_parts start p_out in
    if bool_decide (0 < i)%nat then
      '(ok, parts) ← large_multiplier multipliers part_len i parts;
      mret (ok, new_parts, parts)
    else mret (true, new_parts, parts).

(** The pairs of an iteration. *)
Fixpoint large_pairs (pairs j : nat) (multipliers : digits) (part_len : nat) (new_parts parts : digits)
    : PM (bool * digits * digits) :=
  match pairs with
  | O => mret (true, new_parts, parts)
  | S pairs =>
      '(ok, new_parts, parts) ← large_pair multipliers part_len (2 * j) new_parts parts;
      if negb ok then mret (false, new_parts, parts)
      else large_pairs pairs (S j) multipliers part_len new_parts parts
  end.

(** The trailing last part: [X] followed by zeros in the view [out]. *)
Definition copy_part (out X : digits) : res digits :=
  '(out, _) ← write_loop (length X) 0 (fun k _ _ => x ← rd X k; mret (x, tt)) out tt;
  zero_from (length X) out.

(** The loop over the iterations; [round] counts them, so that the memory of [Z] has the role
    of the parts after 1, 4, 7, ... iterations, of the multipliers after 2, 5, 8, ...; the
    flag is [false] for the early return after an interrupt. *)
Fixpoint large_rounds (fuel : nat) (b : buffers) (num_parts part_len round : nat) : PM (bool * buffers * nat) :=
  match fuel with
  | O => lift (Err OutOfFuel)
  | S fuel =>
      if bool_decide (num_parts <= 1)%nat then mret (true, b, round)
      else
        let new_part_len := (part_len * 2)%nat in
        let pairs := Nat.div2 num_parts in
        '(ok, new_parts, new_multipliers) ←
          large_pairs pairs 0 (b_multipliers b) part_len (b_temp b) (b_parts b);
        if negb ok then mret (false, mkBuffers new_multipliers (b_multipliers b) new_parts, round)
        else
          let i := (2 * pairs)%nat in
          if bool_decide (i < num_parts)%nat then
            let start := (i * part_len)%nat in
            let p_in := Digits_slice new_multipliers start part_len in
            let m_in := Digits_slice (b_multipliers b) start part_len in
            p_out ← lift (copy_part (Digits_slice new_parts start new_part_len) p_in);
            m_out ← lift (copy_part (Digits_slice new_multipliers start new_part_len) m_in);
            large_rounds fuel
              (mkBuffers (splice new_parts start p_out) (splice new_multipliers start m_out) (b_multipliers b))
              (S pairs) new_part_len (S round)
          else
            large_rounds fuel (mkBuffers new_parts new_multipliers (b_multipliers b)) pairs new_part_len (S round)
  end.

Definition FromStringLarge (Zd : digits) (acc : FromStringAccumulator) : PM digits :=
  let num_parts := length (heap_parts_ acc) in
  lift (dcheck (bool_decide (2 <= num_parts)%nat));;
  lift (dcheck (bool_decide (num_parts <= length Zd)%nat));;
  let b := mkBuffers (heap_parts_ acc) (uninitialized num_parts) (Digits_slice Zd 0 num_parts) in
  '(b, n) ← lift (large_first b num_parts (max_multiplier_ acc) (last_multiplier_ acc));
  AddWorkEstimate (Z.of_nat n);;
  '(ok, b, round) ← large_rounds (S num_parts) b n 2 1;
  match Nat.modulo round 3 with
  | 1%nat => mret (splice Zd 0 (b_parts b))
  | 2%nat =>
      let Zd := splice Zd 0 (b_multipliers b) in
      if negb ok then mret Zd else lift (copy_part Zd (b_parts b))
  | _ =>
      let Zd := splice Zd 0 (b_temp b) in
      if negb ok then mret Zd else lift (copy_part Zd (b_parts b))
  end.

(** ** The entry points *)

Definition FromString (Zd : digits) (acc : FromStringAccumulator) : PM digits :=
  if inline_everything_ acc then
    lift (copy_part Zd (Digits_slice (stack_parts_ acc) 0 (stack_parts_used_ acc)))
  else if bool_decide (stack_parts_used_ acc = 0)%nat then lift (zero_from 0 Zd)
  else if IsPowerOfTwo (radix_ acc) then lift (FromStringBasePowerOfTwo Zd acc)
  else if Z.of_nat (ResultLength acc) <? kFromStringLargeThreshold then FromStringClassic Zd acc
  else FromStringLarge Zd acc.

Definition Processor_FromString (Zd : digits) (acc : FromStringAccumulator) : PM (Status * digits) :=
  Zd ← FromString Zd acc; s ← get_and_clear_status; mret (s, Zd).
End from_string.
