(* ===== verification/FromStringSpec.v ===== *)
(** What parsing computes: the value of the longest prefix of digits of the string. *)

From Stdlib Require Import ZArith Lia.
From stdpp Require Import base tactics numbers list option.
From S2P Require Import Prelude Digit Digits VectorArithmetic Processor MulSchoolbook MulKaratsuba MulToom Multiply FromString.

#[local] Open Scope Z_scope.

(** ** Numerals *)

(** The value of the digits [ds], most significant first. *)
Definition numeral (radix : Z) (ds : list Z) : Z := fold_left (fun v d => v * radix + d) ds 0.

(** The digits of the longest prefix of valid characters, and the rest of the string. *)
Fixpoint split_digits (radix : Z) (chars : list Z) : list Z * list Z :=
  match chars with
  | [] => ([], [])
  | c :: rest =>
      match char_digit c radix with
      | None => ([], chars)
      | Some d => let '(ds, tail) := split_digits radix rest in (d :: ds, tail)
      end
  end.

Lemma fold_numeral radix ds v :
  fold_left (fun v d => v * radix + d) ds v = v * radix ^ Z.of_nat (length ds) + numeral radix ds.
Proof.
  unfold numeral. revert v. induction ds as [|d ds IH]; intros v; [cbn; lia|].
  cbn [fold_left length]. rewrite IH, (IH (0 * radix + d)), Nat2Z.inj_succ, Z.pow_succ_r by lia. lia.
Qed.

Lemma numeral_app radix ds1 ds2 :
  numeral radix (ds1 ++ ds2) = numeral radix ds1 * radix ^ Z.of_nat (length ds2) + numeral radix ds2.
Proof. unfold numeral at 1. rewrite fold_left_app. apply fold_numeral. Qed.

Lemma numeral_cons radix d ds : numeral radix (d :: ds) = d * radix ^ Z.of_nat (length ds) + numeral radix ds.
Proof. change (d :: ds) with ([d] ++ ds). rewrite numeral_app. unfold numeral at 1. cbn [fold_left]. lia. Qed.

Lemma numeral_snoc radix ds d : numeral radix (ds ++ [d]) = numeral radix ds * radix + d.
Proof. rewrite numeral_app. unfold numeral at 2. cbn [fold_left length]. rewrite Z.pow_1_r. lia. Qed.

Lemma numeral_bound radix ds :
  0 < radix -> Forall (fun d => 0 <= d < radix) ds -> 0 <= numeral radix ds < radix ^ Z.of_nat (length ds).
Proof.
  intros Hr. induction ds as [|d ds IH]; intros Hds; [cbn; lia|]. apply Forall_cons_1 in Hds as [Hd Hds].
  specialize (IH Hds). rewrite numeral_cons. cbn [length]. rewrite Nat2Z.inj_succ, Z.pow_succ_r by lia. nia.
Qed.

Lemma kCharValue_nonneg n : 0 <= nth n kCharValue 255.
Proof.
  destruct (Nat.lt_ge_cases n (length kCharValue)) as [Hn | Hn]; [|rewrite nth_overflow by done; lia].
  assert (forallb (Z.leb 0) kCharValue = true) as Hall by reflexivity.
  rewrite forallb_forall in Hall. apply Z.leb_le, Hall, nth_In. exact Hn.
Qed.

Lemma char_digit_range c radix d : char_digit c radix = Some d -> 0 <= d < radix.
Proof.
  unfold char_digit. destruct (127 <? c); [done|]. pose proof (kCharValue_nonneg (Z.to_nat c)) as Hv.
  set (v := nth (Z.to_nat c) kCharValue 255) in *. clearbody v. cbv zeta.
  destruct (Z.leb_spec radix v); [done|]. intros [= <-]. lia.
Qed.

Lemma split_digits_range radix chars : Forall (fun d => 0 <= d < radix) (fst (split_digits radix chars)).
Proof.
  induction chars as [|c chars IH]; cbn; [constructor|]. destruct (char_digit c radix) as [d|] eqn:E; [|constructor].
  destruct (split_digits radix chars). constructor; [by eapply char_digit_range | done].
Qed.

Section from_string_spec.
Context `{Config, Platform}.
Context {alloc : Allocator}.
Context {fft : FftMultiplier}.

(** ** Reading one part *)

(** What both inner loops establish about the characters: the digits [ds] were consumed from
    [chars]; the loop is [done] exactly when no valid digit follows. *)
Definition consumed (radix : Z) (chars current : list Z) (ds : list Z) (done : bool) : Prop :=
  let '(D, rest) := split_digits radix chars in
  let '(D', rest') := split_digits radix current in
  D = ds ++ D' /\ rest = rest' /\ (length chars = length ds + length current)%nat /\
  (done = true -> D' = [] /\ current = rest) /\ (done = false -> D' <> []).

Lemma consumed_cons radix c chars current d ds done :
  char_digit c radix = Some d -> consumed radix chars current ds done ->
  consumed radix (c :: chars) current (d :: ds) done.
Proof.
  unfold consumed. intros E. cbn [split_digits]. rewrite E.
  destruct (split_digits radix chars) as [D rest], (split_digits radix current) as [D' rest'].
  intros (-> & -> & Hl & Hd). cbn [length app]. split_and!; try done; try apply Hd. lia.
Qed.

Lemma consumed_stop radix chars done :
  chars <> [] -> done = bool_decide (fst (split_digits radix chars) = []) -> consumed radix chars chars [] done.
Proof.
  intros Hne ->. unfold consumed. destruct chars as [|c chars]; [done|]. cbn [split_digits].
  destruct (char_digit c radix) as [d|]; [destruct (split_digits radix chars)|]; cbn [fst]; split_and!; try done.
Qed.

Lemma parse_part_spec radix chars multiplier part (k : nat) :
  2 <= radix <= 36 -> chars <> [] -> multiplier = radix ^ Z.of_nat k -> multiplier < digit_base ->
  0 <= part < multiplier ->
  wp (parse_part chars radix multiplier part) (fun '(current, multiplier', part', done) => exists ds,
    consumed radix chars current ds done /\ multiplier' = multiplier * radix ^ Z.of_nat (length ds) /\
    part' = part * radix ^ Z.of_nat (length ds) + numeral radix ds /\ multiplier' < digit_base /\
    0 <= part' < multiplier' /\ (done = false -> digit_base <= multiplier' * radix)).
Proof.
  intros Hr Hne. revert multiplier part k. induction chars as [|c chars IH]; intros multiplier part k -> Hm Hp; [done|].
  cbn [parse_part]. destruct (char_digit c radix) as [d|] eqn:Ec.
  2: { apply wp_ret. exists []. rewrite Z.pow_0_r. unfold numeral. cbn [fold_left]. split_and!; try (done || lia).
       apply consumed_stop; [done|]. cbn. by rewrite Ec. }
  pose proof (char_digit_range _ _ _ Ec) as Hd. destruct (Z.leb_spec digit_base (radix ^ Z.of_nat k * radix)) as [Hov | Hov].
  { apply wp_ret. exists []. rewrite Z.pow_0_r. unfold numeral. cbn [fold_left]. split_and!; try (done || lia).
    apply consumed_stop; [done|]. cbn. rewrite Ec. by destruct (split_digits radix chars). }
  assert (part * radix + d < radix ^ Z.of_nat k * radix) as Hlt by nia.
  assert (wrap (wrap (part * radix) + d) = part * radix + d) as ->
    by (unfold wrap; rewrite (Z.mod_small (part * radix)) by nia; apply Z.mod_small; nia).
  assert (radix ^ Z.of_nat k * radix = radix ^ Z.of_nat (S k)) as Ek by (rewrite Nat2Z.inj_succ, Z.pow_succ_r by lia; lia).
  case_bool_decide as Erest.
  - apply wp_ret. exists [d]. subst chars. cbn [length]. rewrite Z.pow_1_r. unfold numeral. cbn [fold_left].
    split_and!; try (done || nia). apply (consumed_cons _ _ [] [] d []); [done|]. unfold consumed. cbn. split_and!; done.
  - rewrite Ek in *. eapply wp_mono; [apply (IH Erest _ _ (S k) eq_refl); [lia | nia]|].
    intros [[[current m'] p'] done] (ds & Hc & -> & -> & Hm' & Hp' & Hdone). exists (d :: ds).
    rewrite numeral_cons. cbn [length]. rewrite <- Ek, Nat2Z.inj_succ, Z.pow_succ_r in * by lia.
    split_and!; [by apply consumed_cons | lia | nia | lia | nia | nia | intros E; specialize (Hdone E); lia].
Qed.

(** ** The parts of the accumulator *)

Record acc_ok (acc : FromStringAccumulator) : Prop := {
  ao_stack : length (stack_parts_ acc) = kStackParts;
  ao_stack_ok : digits_ok (stack_parts_ acc);
  ao_heap_ok : digits_ok (heap_parts_ acc);
  ao_used : (stack_parts_used_ acc <= kStackParts)%nat;
  ao_heap : heap_parts_ acc = [] \/
    (stack_parts_used_ acc = kStackParts /\ exists tail, heap_parts_ acc = stack_parts_ acc ++ tail /\ tail <> []);
  ao_result : result_ acc = Result_kOk;
  ao_max : (kStackParts <= max_digits_ acc)%nat;
}.

Record same_params (acc acc' : FromStringAccumulator) : Prop := {
  sp_max : max_multiplier_ acc' = max_multiplier_ acc;
  sp_last : last_multiplier_ acc' = last_multiplier_ acc;
  sp_digits : max_digits_ acc' = max_digits_ acc;
  sp_inline : inline_everything_ acc' = inline_everything_ acc;
  sp_radix : radix_ acc' = radix_ acc;
}.

Lemma acc_parts_ok acc : acc_ok acc -> digits_ok (acc_parts acc).
Proof. intros Ha. unfold acc_parts. case_bool_decide; [apply digits_ok_take, Ha | apply Ha]. Qed.

Lemma length_acc_parts acc : acc_ok acc -> length (acc_parts acc) = ResultLength acc.
Proof.
  intros [Hs _ _ Hu Hh _ _]. unfold acc_parts, ResultLength. case_bool_decide as E.
  - rewrite length_take, Hs, E. lia.
  - destruct Hh as [E' | (-> & tail & -> & _)]; [by rewrite E' in E|]. rewrite length_app, Hs. lia.
Qed.

Lemma first_part acc :
  acc_ok acc -> (0 < stack_parts_used_ acc)%nat -> rd (stack_parts_ acc) 0 = rd (acc_parts acc) 0.
Proof.
  intros [Hs _ _ Hu Hh _ _] Hpos. unfold acc_parts. case_bool_decide as E.
  - unfold rd. rewrite lookup_take_lt by lia. done.
  - destruct Hh as [E' | (_ & tail & -> & _)]; [by rewrite E' in E|].
    unfold rd. rewrite lookup_app_l by (rewrite Hs; unfold kStackParts; lia). done.
Qed.

Lemma AddPart_spec acc part :
  acc_ok acc -> is_digit part ->
  wp (AddPart acc part) (fun '(more, acc') => same_params acc acc' /\
    if (more : bool) then acc_ok acc' /\ acc_parts acc' = acc_parts acc ++ [part]
    else result_ acc' = kMaxSizeExceeded /\ (max_digits_ acc <= length (acc_parts acc))%nat).
Proof.
  intros Ha Hp. pose proof Ha as [Hs Hso Hho Hu Hh Hr Hm]. unfold AddPart. case_bool_decide as Hlt.
  - apply wp_bind. unfold push_stack_part. apply wp_bind, wp_wr; [lia|]. apply wp_ret, wp_ret. split; [done|].
    assert (heap_parts_ acc = []) as Eh by (destruct Hh as [|[? _]]; [done | lia]). split.
    + split; cbn; try done; [by rewrite length_insert | by apply Forall_insert | by left].
    + unfold acc_parts. cbn [heap_parts_ stack_parts_ stack_parts_used_]. rewrite Eh. cbn.
      rewrite (take_S_r _ _ part) by (apply list_lookup_insert_eq; lia). by rewrite take_insert_ge by lia.
  - assert (stack_parts_used_ acc = kStackParts) as Eu by lia.
    assert ((if bool_decide (length (heap_parts_ acc) = 0)%nat then stack_parts_ acc else heap_parts_ acc) = acc_parts acc) as ->.
    { unfold acc_parts. case_bool_decide; [|done]. by rewrite Eu, take_ge by lia. }
    assert (exists tail, acc_parts acc = stack_parts_ acc ++ tail) as [tail Et].
    { unfold acc_parts. case_bool_decide as E0; [exists []; rewrite Eu, take_ge, app_nil_r by lia; done|].
      destruct Hh as [E' | (_ & tail & E' & _)]; [by rewrite E' in E0 | by exists tail]. }
    case_bool_decide as Hmax; apply wp_ret; (split; [done|]); [done|]. split.
    + split; cbn; try done.
      * apply Forall_app. split; [by apply acc_parts_ok | by apply Forall_singleton].
      * right. split; [done|]. exists (tail ++ [part]). rewrite Et, app_assoc. split; [done | by destruct tail].
    + unfold acc_parts at 1. cbn [heap_parts_]. rewrite bool_decide_false; [done|]. rewrite length_app. cbn. lia.
Qed.

(** ** Reading all parts, with multipliers *)

(** The largest power of the radix that is a digit. *)
Definition max_power (radix M : Z) : Prop :=
  (exists c : nat, M = radix ^ Z.of_nat c) /\ M < digit_base <= M * radix.

Lemma max_power_unique radix M M' : 2 <= radix -> max_power radix M -> max_power radix M' -> M = M'.
Proof.
  intros Hr [[c ->] [Hlt Hge]] [[c' ->] [Hlt' Hge']].
  enough (~ (c < c')%nat /\ ~ (c' < c)%nat) as [? ?] by (by replace c' with c by lia).
  assert (forall a b : nat, (a < b)%nat -> digit_base <= radix ^ Z.of_nat a * radix -> digit_base <= radix ^ Z.of_nat b) as Hmono.
  { intros a b Hab Ha. rewrite Z.mul_comm, <- Z.pow_succ_r in Ha by lia.
    pose proof (Z.pow_le_mono_r radix (Z.succ (Z.of_nat a)) (Z.of_nat b)). lia. }
  split; intros Hc; [specialize (Hmono _ _ Hc Hge) | specialize (Hmono _ _ Hc Hge')]; lia.
Qed.

(** The value of a complete accumulator: every part but the last has the multiplier
    [max_multiplier_]. *)
Definition acc_value (acc : FromStringAccumulator) (v : Z) : Prop :=
  exists P p, acc_parts acc = P ++ [p] /\ v = numeral (max_multiplier_ acc) P * last_multiplier_ acc + p /\
    (P <> [] -> 1 < max_multiplier_ acc < digit_base /\ last_multiplier_ acc <= max_multiplier_ acc) /\
    0 < last_multiplier_ acc < digit_base.

(** Between two parts: all digits so far, with value [v], are in parts of full size. *)
Definition acc_partial (radix : Z) (acc : FromStringAccumulator) (v : Z) : Prop :=
  acc_parts acc = [] /\ max_multiplier_ acc = 0 /\ v = 0 \/
  max_power radix (max_multiplier_ acc) /\ v = numeral (max_multiplier_ acc) (acc_parts acc).

Definition set_max (acc : FromStringAccumulator) (m : Z) : FromStringAccumulator :=
  mkAccumulator (stack_parts_ acc) (heap_parts_ acc) m (last_multiplier_ acc) (max_digits_ acc)
    (result_ acc) (stack_parts_used_ acc) (inline_everything_ acc) (radix_ acc).

Definition set_last (acc : FromStringAccumulator) (m : Z) : FromStringAccumulator :=
  mkAccumulator (stack_parts_ acc) (heap_parts_ acc) (max_multiplier_ acc) m (max_digits_ acc)
    (result_ acc) (stack_parts_used_ acc) (inline_everything_ acc) (radix_ acc).

Lemma AddPart_multiplier_middle acc M part radix v :
  2 <= radix -> acc_ok acc -> inline_everything_ acc = false -> acc_partial radix acc v -> max_power radix M -> is_digit part ->
  wp (AddPart_multiplier acc M part false) (fun '(more, acc') => same_params (set_max acc M) acc' /\
    if (more : bool) then acc_ok acc' /\ acc_parts acc' = acc_parts acc ++ [part] /\ acc_partial radix acc' (v * M + part)
    else result_ acc' = kMaxSizeExceeded /\ (max_digits_ acc <= length (acc_parts acc))%nat).
Proof.
  intros Hr Ha Hin Hv HM Hp. unfold AddPart_multiplier.
  assert (HAVE_TWODIGIT_T && inline_everything_ acc = false) as -> by (by rewrite Hin, andb_false_r).
  assert (HAVE_TWODIGIT_T || negb (inline_everything_ acc) = true) as -> by (by rewrite Hin, orb_true_r).
  cbn [negb dcheck mbind res_bind].
  assert ((max_multiplier_ acc =? 0) || (max_multiplier_ acc =? M) = true) as ->.
  { destruct Hv as [(_ & -> & _) | [HM' _]]; [done|]. rewrite (max_power_unique radix _ M Hr HM' HM), Z.eqb_refl. apply orb_true_r. }
  cbn [dcheck mbind res_bind mret res_ret]. fold (set_max acc M).
  assert (acc_ok (set_max acc M)) as Ha' by (destruct Ha; by split).
  eapply wp_mono; [apply (AddPart_spec _ _ Ha' Hp)|]. intros [more acc'] [Hsp Hres]. split; [exact Hsp|].
  destruct more; [|done]. destruct Hres as [Hok Hparts]. split_and!; [done | done|]. right.
  rewrite (sp_max _ _ Hsp), Hparts. cbn [max_multiplier_ set_max]. split; [done|].
  change (acc_parts (set_max acc M)) with (acc_parts acc). rewrite numeral_snoc. f_equal.
  destruct Hv as [(-> & _ & ->) | [HM' ->]]; [done|]. by rewrite (max_power_unique radix _ M Hr HM' HM).
Qed.

Lemma max_power_max radix M (k : nat) : 2 <= radix <= 36 -> max_power radix M -> radix ^ Z.of_nat k < digit_base ->
  1 < M < digit_base /\ radix ^ Z.of_nat k <= M.
Proof.
  intros Hr [[c ->] [Hlt Hge]] Hk. pose proof digit_base_ge. split; [nia|].
  apply Z.pow_le_mono_r; [lia|]. rewrite Z.mul_comm, <- Z.pow_succ_r in Hge by lia.
  assert (Z.of_nat k < Z.succ (Z.of_nat c)); [|lia]. apply (Z.pow_lt_mono_r_iff radix); lia.
Qed.

Lemma AddPart_multiplier_last acc m part radix v (k : nat) :
  2 <= radix <= 36 -> acc_ok acc -> inline_everything_ acc = false -> acc_partial radix acc v ->
  m = radix ^ Z.of_nat k -> m < digit_base -> is_digit part ->
  wp (AddPart_multiplier acc m part true) (fun '(more, acc') => same_params (set_last acc m) acc' /\
    if (more : bool) then acc_ok acc' /\ acc_value acc' (v * m + part)
    else result_ acc' = kMaxSizeExceeded /\ (max_digits_ acc <= length (acc_parts acc))%nat).
Proof.
  intros Hr Ha Hin Hv Em Hm Hp. unfold AddPart_multiplier.
  assert (HAVE_TWODIGIT_T && inline_everything_ acc = false) as -> by (by rewrite Hin, andb_false_r).
  assert (HAVE_TWODIGIT_T || negb (inline_everything_ acc) = true) as -> by (by rewrite Hin, orb_true_r).
  cbn [negb dcheck mbind res_bind mret res_ret]. fold (set_last acc m).
  assert (acc_ok (set_last acc m)) as Ha' by (destruct Ha; by split).
  eapply wp_mono; [apply (AddPart_spec _ _ Ha' Hp)|]. intros [more acc'] [Hsp Hres]. split; [exact Hsp|].
  destruct more; [|done]. destruct Hres as [Hok Hparts]. split; [done|].
  exists (acc_parts acc), part. rewrite Hparts, (sp_max _ _ Hsp), (sp_last _ _ Hsp). cbn [set_last max_multiplier_ last_multiplier_].
  assert (0 < m) by (subst m; apply Z.pow_pos_nonneg; lia).
  split_and!; try (done || lia); destruct Hv as [(E & _ & ->) | [HM ->]]; rewrite ?E; try done; intros _.
  subst m. by apply (max_power_max radix _ k).
Qed.

(** The outcome of parsing [chars] into an accumulator with [max_digits]: the position after
    the digits and their value (appended to [v]), or too many parts. *)
Definition parse_outcome (radix v : Z) (chars rest : list Z) (max_digits : nat) (acc : FromStringAccumulator)
    (value : FromStringAccumulator -> Z -> Prop) : Prop :=
  let D := fst (split_digits radix chars) in
  result_ acc = kMaxSizeExceeded /\ (max_digits <= length D)%nat \/
  result_ acc = Result_kOk /\ acc_ok acc /\ rest = snd (split_digits radix chars) /\
    value acc (v * radix ^ Z.of_nat (length D) + numeral radix D).

Lemma consumed_elim radix chars current ds done :
  consumed radix chars current ds done ->
  fst (split_digits radix chars) = ds ++ fst (split_digits radix current) /\
  snd (split_digits radix chars) = snd (split_digits radix current) /\
  (length chars = length ds + length current)%nat /\
  (done = true -> fst (split_digits radix current) = [] /\ current = snd (split_digits radix chars)) /\
  (done = false -> fst (split_digits radix current) <> [] /\ current <> []).
Proof.
  unfold consumed. destruct (split_digits radix chars) as [D rest], (split_digits radix current) as [D' rest'] eqn:E.
  intros (-> & -> & Hl & Hd & Hnd). cbn [fst snd]. split_and!; try done. intros E'. specialize (Hnd E'). split; [done|].
  intros ->. cbn in E. congruence.
Qed.

Lemma parse_parts_spec radix fuel chars acc v :
  2 <= radix <= 36 -> (length chars < fuel)%nat -> chars <> [] -> acc_ok acc -> inline_everything_ acc = false ->
  acc_partial radix acc v ->
  wp (parse_parts fuel acc chars radix) (fun '(rest, acc') =>
    inline_everything_ acc' = false /\ radix_ acc' = radix_ acc /\
    parse_outcome radix v chars rest (max_digits_ acc - length (acc_parts acc)) acc' acc_value).
Proof.
  intros Hr. revert chars acc v. induction fuel as [|fuel IH]; intros chars acc v Hf Hne Ha Hin Hv; [lia|].
  cbn [parse_parts]. apply wp_bind.
  assert (1 < digit_base) as Hb by (pose proof digit_base_ge; lia).
  eapply wp_mono; [apply (parse_part_spec radix chars 1 0 0); (done || lia)|].
  intros [[[current m] part] done] (ds & Hc & Em & Ep & Hm & Hp & Hdone).
  rewrite Z.mul_1_l in Em. rewrite Z.mul_0_l, Z.add_0_l in Ep.
  destruct (consumed_elim _ _ _ _ _ Hc) as (ED & Erest & Hl & Hd & Hnd).
  assert (is_digit part) as Hpd by (unfold is_digit; lia). apply wp_bind. unfold parse_outcome. rewrite ED. destruct done.
  - destruct (Hd eq_refl) as [ED' Ecur]. rewrite ED', app_nil_r.
    eapply wp_mono; [apply (AddPart_multiplier_last acc m part radix v (length ds)); (done || lia)|].
    intros [more acc'] [Hsp Hres]. pose proof (sp_inline _ _ Hsp) as Hi'. pose proof (sp_radix _ _ Hsp) as Hr'.
    cbn [set_last inline_everything_ radix_] in Hi', Hr'. rewrite Hin in Hi'.
    destruct more; cbn [negb]; apply wp_ret; (split_and!; [done | done|]).
    + right. destruct Hres as [Hok Hval]. split_and!; [apply Hok | done | done|]. by rewrite Em, Ep in Hval.
    + left. destruct Hres as [? ?]. split; [done | lia].
  - destruct (Hnd eq_refl) as [HD' Hcur].
    assert (ds <> []) as Hds.
    { intros ->. cbn in Em. rewrite Em in Hdone. specialize (Hdone eq_refl). pose proof digit_base_ge. lia. }
    assert (max_power radix m) as HM by (split; [by exists (length ds) | split; [lia | by apply Hdone]]).
    eapply wp_mono; [apply (AddPart_multiplier_middle acc m part radix v); (done || lia)|].
    intros [more acc'] [Hsp Hres]. pose proof (sp_inline _ _ Hsp) as Hi'. pose proof (sp_radix _ _ Hsp) as Hr'.
    pose proof (sp_digits _ _ Hsp) as Hmd.
    cbn [set_max inline_everything_ radix_ max_digits_] in Hi', Hr', Hmd. rewrite Hin in Hi'.
    destruct more; cbn [negb].
    2: { apply wp_ret. split_and!; [done | done|]. left. destruct Hres. split; [done | lia]. }
    destruct Hres as (Hok & Hparts & Hval).
    assert (0 < length ds)%nat by (destruct ds; [done | cbn; lia]).
    eapply wp_mono; [apply (IH current acc' (v * m + part)); (done || lia)|].
    intros [rest acc''] (Hi'' & Hr'' & Hout). split_and!; [done | by rewrite Hr''|].
    rewrite Hparts, length_app in Hout. cbn [length] in Hout. rewrite length_app.
    destruct Hout as [[? ?] | (? & ? & Er & Hval')]; [left; split; [done | lia] | right; split_and!; try done].
    + by rewrite Er, Erest.
    + rewrite numeral_app. replace (v * _ + _) with ((v * m + part) * radix ^ Z.of_nat (length (fst (split_digits radix current))) + numeral radix (fst (split_digits radix current))); [done|].
      rewrite Em, Ep, Nat2Z.inj_add, Z.pow_add_r by lia. lia.
Qed.

(** ** The classic algorithm *)

Lemma val_take_small X i : digits_ok X -> val X < bpow i -> (i <= length X)%nat -> val (take i X) = val X.
Proof.
  intros HX Hv Hi. pose proof (val_split X i) as E. rewrite length_take_le in E by done.
  pose proof (val_nonneg _ (digits_ok_take i X HX)). assert (digits_ok (drop i X)) as Hd by (by apply Forall_drop).
  pose proof (val_nonneg _ Hd). pose proof (bpow_pos i). assert (val (drop i X) < 1) by nia.
  assert (val (drop i X) = 0) as E0 by lia. rewrite E0 in E. lia.
Qed.

(** [Z := Z * m + p] for a value of [i] digits. *)
Lemma multiply_add_part Zd i m parts k part p :
  digits_ok Zd -> (i < length Zd)%nat -> 0 < m < digit_base -> rd parts k = Ok part -> is_digit part -> val Zd < bpow i ->
  wpP (Zd ← MultiplySingle Zd (Digits_slice Zd 0 i) m;
       part ← lift (rd parts k);
       lift (Add_digit Zd part)) p (fun Z' p' =>
    status_le p p' /\ length Z' = length Zd /\ digits_ok Z' /\ val Z' = val Zd * m + part /\ val Z' < bpow (S i)).
Proof.
  intros HZ Hi Hm Erd Hp Hv. assert (Digits_slice Zd 0 i = take i Zd) as -> by done.
  assert (val Zd * m + part < bpow (S i)) as Hb.
  { rewrite bpow_S. unfold is_digit in Hp. pose proof (val_nonneg _ HZ). nia. }
  apply wpP_bind. eapply wpP_mono; [apply MultiplySingle_spec; [by apply digits_ok_take | unfold is_digit; lia | lia |]|].
  { rewrite length_take. lia. }
  intros Z1 p1 (Hle & Hl1 & H1' & V1). rewrite val_take_small in V1 by (done || lia).
  apply wpP_bind, wpP_lift. rewrite Erd. apply wp_Ok, wpP_lift. eapply wp_mono; [apply Add_digit_spec; [done | | done |]|].
  - intros ->. cbn in Hl1. lia.
  - rewrite V1, Hl1. pose proof (bpow_le (S i) (length Zd)). lia.
  - intros Z2 (Hl2 & H2' & V2). rewrite V1 in V2. split_and!; [done | congruence | done | done | lia].
Qed.

Lemma classic_parts_spec Zd P q M L p0 p :
  digits_ok Zd -> digits_ok (P ++ [q]) -> P <> [] -> (length P < length Zd)%nat -> 0 < M < digit_base -> 0 < L < digit_base ->
  P !! 0%nat = Some p0 -> val Zd = p0 ->
  wpP (classic_parts Zd (P ++ [q]) M L) p (fun Z' p' => status_le p p' /\ length Z' = length Zd /\ digits_ok Z' /\
    val Z' = numeral M P * L + q).
Proof.
  intros HZ HP Hne Hl HM HL Hp0 Hv. unfold classic_parts. rewrite length_app. cbn [length].
  apply Forall_app in HP as [HP ?%Forall_inv].
  assert (0 < length P)%nat as HlP by (destruct P; [done | cbn; lia]).
  replace (length P + 1 - 2)%nat with (length P - 1)%nat by lia. replace (length P + 1 - 1)%nat with (length P) by lia.
  apply wpP_bind. eapply wpP_mono;
    [apply (wpP_for_loop (fun i Z' p' => status_le p p' /\ length Z' = length Zd /\ digits_ok Z' /\
       val Z' = numeral M (take i P) /\ val Z' < bpow i))|].
  - split_and!; [apply status_le_refl | done | done | |].
    + rewrite (take_S_r _ _ _ Hp0), take_0, Hv. unfold numeral. cbn. lia.
    + rewrite bpow_1, Hv. eapply (Forall_lookup_1 _ _ _ _ HP Hp0).
  - intros k Z' p' Hk (Hle & HlZ & HZ' & Hval & Hb).
    destruct (lookup_lt_is_Some_2 P k ltac:(lia)) as [d Hd]. pose proof (Forall_lookup_1 _ _ _ _ HP Hd) as Hdd.
    assert (rd (P ++ [q]) k = Ok d) as Erd by (unfold rd; by rewrite (lookup_app_l_Some _ _ _ _ Hd)).
    eapply wpP_mono; [apply (multiply_add_part Z' k M _ _ d); (done || lia)|].
    intros Z2 p2 (Hle2 & HlZ2 & HZ2 & Hval2 & Hb2). split_and!; [by eapply status_le_trans | congruence | done | | done].
    by rewrite (take_S_r _ _ _ Hd), numeral_snoc, <- Hval.
  - intros Z1 p1 (Hle & HlZ & HZ1 & Hval & Hb). replace (1 + (length P - 1))%nat with (length P) in * by lia.
    rewrite take_ge in Hval by lia.
    assert (rd (P ++ [q]) (length P) = Ok q) as Erd by (unfold rd; by rewrite list_lookup_middle).
    eapply wpP_mono; [apply (multiply_add_part Z1 (length P) L _ _ q); (done || lia)|].
    intros Z2 p2 (Hle2 & HlZ2 & HZ2 & Hval2 & _). split_and!; [by eapply status_le_trans | congruence | done | by rewrite Hval2, Hval].
Qed.

Lemma FromStringClassic_spec Zd acc v p :
  acc_ok acc -> acc_value acc v -> digits_ok Zd -> (ResultLength acc <= length Zd)%nat ->
  wpP (FromStringClassic Zd acc) p (fun Z' p' => status_le p p' /\ length Z' = length Zd /\ digits_ok Z' /\ val Z' = v).
Proof.
  intros Ha (P & q & Eparts & -> & HM & HL) HZ Hl. pose proof (length_acc_parts acc Ha) as Hlp.
  pose proof (acc_parts_ok acc Ha) as Hpo. rewrite Eparts in Hlp, Hpo. rewrite length_app in Hlp. cbn [length] in Hlp.
  assert (0 < stack_parts_used_ acc)%nat as Hu.
  { unfold ResultLength in Hlp. pose proof (ao_heap acc Ha) as [E | [-> _]]; [rewrite E in Hlp; cbn in Hlp; lia | unfold kStackParts; lia]. }
  unfold FromStringClassic. apply wpP_bind, wpP_lift, wp_dcheck; [by apply bool_decide_eq_true|].
  rewrite (first_part acc Ha Hu), Eparts. apply wpP_bind, wpP_lift, wp_rd; [rewrite length_app; cbn; lia | done|].
  intros p0 Hp0 Hd0. destruct Zd as [|z0 Zd]; [cbn in Hl; lia|]. cbn [length] in *.
  apply wpP_bind, wpP_lift, wp_wr; [cbn; lia|]. cbn [insert list_insert].
  change (p0 :: Zd) with ([p0] ++ Zd). apply wpP_bind, wpP_lift, wp_zero_from; [done|].
  assert (digits_ok ([p0] ++ replicate (length Zd) 0)) as HZ'.
  { apply Forall_app. split; [by apply Forall_singleton | apply Forall_replicate, is_digit_0]. }
  assert (val ([p0] ++ replicate (length Zd) 0) = p0) as Ev by (rewrite val_app_zeros; cbn [val]; lia).
  assert (length ([p0] ++ replicate (length Zd) 0) = S (length Zd)) as El by (rewrite length_app, length_replicate; done).
  case_bool_decide as E1.
  - apply wpP_ret. split_and!; [apply status_le_refl | done | done|]. rewrite Ev.
    assert (P = []) as ->.
    { unfold ResultLength in Hlp. pose proof (ao_heap acc Ha) as [E | [E _]]; [|unfold kStackParts in E; lia].
      rewrite E, E1 in Hlp. cbn in Hlp. destruct P; [done | cbn in Hlp; lia]. }
    cbn in Hp0. injection Hp0 as ->. unfold numeral. cbn. lia.
  - assert (P <> []) as HneP.
    { intros ->. cbn in Hlp. unfold ResultLength in Hlp. lia. }
    rewrite <- El. apply (classic_parts_spec _ P q _ _ p0); try done; [rewrite El; lia | specialize (HM HneP); lia|].
    rewrite lookup_app_l in Hp0; [done | destruct P; [done | cbn; lia]].
Qed.

(** ** Short strings: the value is accumulated while reading *)

Record inline_ok (acc : FromStringAccumulator) (v : Z) : Prop := {
  io_inline : inline_everything_ acc = true;
  io_stack : length (stack_parts_ acc) = kStackParts;
  io_stack_ok : digits_ok (stack_parts_ acc);
  io_heap : heap_parts_ acc = [];
  io_used : (stack_parts_used_ acc <= kStackParts)%nat;
  io_result : result_ acc = Result_kOk;
  io_val : val (take (stack_parts_used_ acc) (stack_parts_ acc)) = v;
}.

(** One iteration of the inlined multiplication. *)
Lemma inline_step x m high carry :
  is_digit x -> is_digit m -> is_digit high -> is_digit carry ->
  let r := wrap2 (x * m) in
  let r' := wrap2 (wrap2 (wrap r + high) + carry) in
  is_digit (wrap r') /\ is_digit (wrap (Z.shiftr r' kDigitBits)) /\ is_digit (wrap (Z.shiftr r kDigitBits)) /\
  wrap r' + digit_base * (wrap (Z.shiftr r' kDigitBits) + wrap (Z.shiftr r kDigitBits)) = x * m + high + carry.
Proof.
  intros Hx Hm Hh Hc r r'. pose proof digit_base_ge as Hb.
  assert (forall z, is_digit (wrap z)) as Hw by (intros z; apply Z.mod_pos_bound; lia).
  split_and!; [apply Hw | apply Hw | apply Hw|]. pose proof (Hw r) as Hwr. unfold is_digit in *.
  assert (r = x * m) as Er by (unfold r, wrap2; apply Z.mod_small; nia).
  assert (r' = wrap r + high + carry) as Er'.
  { unfold r', wrap2. rewrite (Z.mod_small (wrap r + high)) by nia. apply Z.mod_small. nia. }
  rewrite !shiftr_digit.
  assert (wrap (r / digit_base) = r / digit_base) as ->.
  { unfold wrap. apply Z.mod_small. rewrite Er. split; [apply Z.div_pos; nia | apply Z.div_lt_upper_bound; nia]. }
  assert (wrap (r' / digit_base) = r' / digit_base) as ->.
  { unfold wrap at 1. rewrite Er'. apply Z.mod_small. split; [apply Z.div_pos; lia | apply Z.div_lt_upper_bound; nia]. }
  assert (digit_base <> 0) as Hb0 by lia.
  pose proof (Z.div_mod r digit_base Hb0) as D1. pose proof (Z.div_mod r' digit_base Hb0) as D2.
  fold (wrap r) in D1. fold (wrap r') in D2. rewrite <- Er. lia.
Qed.

Lemma AddPart_inline_spec acc m part v :
  inline_ok acc v -> (stack_parts_used_ acc < kStackParts)%nat -> 0 < m < digit_base -> 0 <= part < m ->
  wp (AddPart_inline acc m part) (fun acc' => inline_ok acc' (v * m + part) /\
    stack_parts_used_ acc' = S (stack_parts_used_ acc) /\ radix_ acc' = radix_ acc).
Proof.
  intros [Hi Hs Hso Hh Hu Hr <-] Hlt Hm Hp. unfold AddPart_inline.
  set (u := stack_parts_used_ acc) in *. set (S0 := stack_parts_ acc) in *. apply wp_bind.
  rewrite <- (app_nil_l S0) at 1.
  apply (wp_write_loop (fun k P '(carry, high) => is_digit carry /\ is_digit high /\
    val P + bpow k * (carry + high) = val (take k S0) * m + part)); [done | lia | constructor | | |].
  - unfold is_digit. rewrite bpow_0, take_0. cbn [val]. split_and!; lia.
  - intros k P [carry high] Hk HlP HP (Hc & Hhi & E). rewrite Nat.sub_0_r.
    destruct (lookup_lt_is_Some_2 S0 k ltac:(lia)) as [x Hx].
    assert (rd (P ++ drop k S0) k = Ok x) as ->.
    { unfold rd. rewrite lookup_app_r by lia. rewrite HlP, Nat.sub_diag, lookup_drop, Nat.add_0_r, Hx. done. }
    cbn [mbind res_bind].
    destruct (inline_step x m high carry) as (H1 & H2 & H3 & E1); try done;
      [by eapply (Forall_lookup_1 _ _ _ _ Hso) | unfold is_digit; lia|].
    apply wp_ret. split_and!; [done | done | done|]. rewrite val_snoc, HlP, bpow_S, (val_take_S _ _ _ Hx). nia.
  - intros P [carry high] HlP HP (Hc & Hhi & E). rewrite Nat.add_0_l in *.
    assert (0 <= val (take u S0) < bpow u) as Hv.
    { pose proof (val_bounds _ (digits_ok_take u S0 Hso)) as Hb. rewrite length_take_le in Hb by lia. done. }
    assert (carry + high < digit_base) as Hch.
    { pose proof (val_nonneg P HP). pose proof (bpow_pos u). apply (mul_lt_cancel _ _ (bpow u)); [done|]. nia. }
    assert (wrap (carry + high) = carry + high) as ->
      by (unfold wrap; apply Z.mod_small; unfold is_digit in *; lia).
    unfold push_stack_part. cbn [stack_parts_ stack_parts_used_]. fold u. apply wp_bind, wp_wr.
    { rewrite length_app, length_drop, HlP. lia. }
    apply wp_ret. destruct (drop u S0) as [|r R] eqn:Ed.
    { apply (f_equal length) in Ed. rewrite length_drop in Ed. cbn in Ed. lia. }
    rewrite (insert_snoc P R r _ u HlP). split; [|done].
    assert (length R = (length S0 - S u)%nat) as HlR by (apply (f_equal length) in Ed; rewrite length_drop in Ed; cbn in Ed; lia).
    split; cbn; try done.
    + rewrite !length_app, HlP, HlR. cbn. lia.
    + repeat apply Forall_app_2; [done | apply Forall_singleton; unfold is_digit in *; lia|].
      assert (digits_ok (drop u S0)) as Hd by (by apply Forall_drop). rewrite Ed in Hd. by apply Forall_cons_1 in Hd as [_ ?].
    + rewrite take_app_length' by (rewrite length_app, HlP; cbn; lia). rewrite val_snoc, HlP. exact E.
Qed.

(** The number of characters of a part is at least [c] if [radix^c] is a digit. *)
Lemma full_part_chars radix (c k : nat) :
  2 <= radix -> radix ^ Z.of_nat c < digit_base -> digit_base <= radix ^ Z.of_nat k * radix -> (c <= k)%nat.
Proof.
  intros Hr Hc Hk. destruct (Nat.le_gt_cases c k) as [|Hlt]; [done|].
  rewrite Z.mul_comm, <- Z.pow_succ_r in Hk by lia.
  pose proof (Z.pow_le_mono_r radix (Z.succ (Z.of_nat k)) (Z.of_nat c)). lia.
Qed.

Lemma full_part_nonempty radix (k : nat) : 2 <= radix <= 36 -> digit_base <= radix ^ Z.of_nat k * radix -> (0 < k)%nat.
Proof. intros Hr Hk. pose proof digit_base_ge. destruct k; [|lia]. rewrite Z.pow_0_r in Hk. lia. Qed.

(** [n] characters of this radix fit into the [kStackParts] parts on the stack. *)
Definition inline_room (radix : Z) (n : nat) : Prop :=
  exists c : nat, radix ^ Z.of_nat c < digit_base /\ (n <= kStackParts * c)%nat.

(** A sufficient condition for every string that is accumulated inline: each part can hold
    [inline_chars] characters. *)
Definition inline_chars : nat := Z.to_nat (DIV_CEIL kInlineThreshold (Z.of_nat kStackParts)).
Definition inline_fits (radix : Z) : Prop := radix ^ Z.of_nat inline_chars < digit_base.

Lemma inline_fits_room radix n : inline_fits radix -> Z.of_nat n <= kInlineThreshold -> inline_room radix n.
Proof.
  intros Hf Hn. exists inline_chars. split; [done|]. enough (kInlineThreshold <= Z.of_nat (kStackParts * inline_chars)) by lia.
  unfold inline_chars, kInlineThreshold, DIV_CEIL, kStackParts. destruct kDigitBits_cases as [-> | ->]; vm_compute; congruence.
Qed.

Lemma parse_parts_inline_spec radix (c : nat) fuel chars acc v :
  2 <= radix <= 36 -> radix ^ Z.of_nat c < digit_base -> HAVE_TWODIGIT_T = true -> (length chars < fuel)%nat -> chars <> [] ->
  inline_ok acc v ->
  (stack_parts_used_ acc * c + length (fst (split_digits radix chars)) <= kStackParts * c)%nat ->
  (stack_parts_used_ acc = 0%nat \/ fst (split_digits radix chars) <> []) ->
  wp (parse_parts fuel acc chars radix) (fun '(rest, acc') => radix_ acc' = radix_ acc /\
    rest = snd (split_digits radix chars) /\
    let D := fst (split_digits radix chars) in
    inline_ok acc' (v * radix ^ Z.of_nat (length D) + numeral radix D)).
Proof.
  intros Hr Hfit Htd. revert chars acc v. induction fuel as [|fuel IH]; intros chars acc v Hf Hne Ha Hcount Hmore; [lia|].
  cbn [parse_parts]. apply wp_bind. assert (1 < digit_base) as Hb by (pose proof digit_base_ge; lia).
  eapply wp_mono; [apply (parse_part_spec radix chars 1 0 0); (done || lia)|].
  intros [[[current m] part] done] (ds & Hc & Em & Ep & Hm & Hp & Hdone).
  rewrite Z.mul_1_l in Em. rewrite Z.mul_0_l, Z.add_0_l in Ep.
  destruct (consumed_elim _ _ _ _ _ Hc) as (ED & Erest & Hl & Hd & Hnd).
  assert (stack_parts_used_ acc < kStackParts)%nat as Hu.
  { destruct Hmore as [-> | HD]; [unfold kStackParts; lia|].
    assert (0 < length (fst (split_digits radix chars)))%nat by (destruct (fst (split_digits radix chars)); [done | cbn; lia]).
    destruct (Nat.lt_ge_cases (stack_parts_used_ acc) kStackParts) as [|Hge]; [done|]. nia. }
  apply wp_bind. unfold AddPart_multiplier. rewrite Htd, (io_inline _ _ Ha). cbn [andb]. apply wp_bind.
  eapply wp_mono; [apply (AddPart_inline_spec acc m part v Ha Hu); lia|].
  intros acc' (Ha' & Hu' & Hr'). apply wp_ret. cbn [negb]. rewrite ED. destruct done.
  - destruct (Hd eq_refl) as [ED' Ecur]. apply wp_ret. rewrite ED', app_nil_r. split_and!; [done | done|]. by rewrite <- Em, <- Ep.
  - destruct (Hnd eq_refl) as [HD' Hcur]. rewrite ED, length_app in Hcount.
    pose proof (full_part_nonempty radix (length ds) Hr ltac:(rewrite <- Em; by apply Hdone)).
    assert (c <= length ds)%nat as Hic.
    { apply (full_part_chars radix); [lia | done|]. rewrite <- Em. by apply Hdone. }
    eapply wp_mono; [apply (IH current acc' (v * m + part)); [lia | done | done | rewrite Hu', Nat.mul_succ_l; lia | by right]|].
    intros [rest acc''] (Hr'' & Er & Hval). split_and!; [congruence | congruence|]. cbv zeta in *.
    rewrite numeral_app, length_app, Nat2Z.inj_add, Z.pow_add_r by lia.
    replace (v * _ + _) with ((v * m + part) * radix ^ Z.of_nat (length (fst (split_digits radix current))) + numeral radix (fst (split_digits radix current)))
      by (rewrite Em, Ep; lia). done.
Qed.

(** With all parts of the stack in use the next part is written behind its end. *)
Lemma AddPart_inline_full acc m part v :
  inline_ok acc v -> stack_parts_used_ acc = kStackParts -> AddPart_inline acc m part = Err OutOfBounds.
Proof.
  intros Ha Hu. unfold AddPart_inline. pose proof (io_stack _ _ Ha) as Hs.
  match goal with |- (mbind _ ?loop) = _ => assert (exists r, loop = Ok r /\ length (fst r) = kStackParts) as ([stack [carry high]] & -> & Hl) end.
  { apply wp_elim. rewrite <- (app_nil_l (stack_parts_ acc)) at 1.
    apply (wp_write_loop (fun _ _ _ => True)); [done | lia | constructor | done | |].
    - intros k P [carry high] Hk HlP HP _. rewrite Nat.sub_0_r.
      destruct (lookup_lt_is_Some_2 (P ++ drop k (stack_parts_ acc)) k) as [x Hx]; [rewrite length_app, length_drop; lia|].
      unfold rd. rewrite Hx. cbn [mbind res_bind]. apply wp_ret. split; [|done].
      apply Z.mod_pos_bound. pose proof digit_base_ge. lia.
    - intros P c HlP HP _. cbn [fst]. rewrite length_app, length_drop. lia. }
  cbn [mbind res_bind fst] in *. unfold push_stack_part, wr. cbn [stack_parts_ stack_parts_used_].
  rewrite decide_False by lia. done.
Qed.

(** More characters than fit on the stack are not noticed before the stack is full. *)
Lemma parse_parts_inline_overflow radix (c : nat) fuel chars acc v :
  2 <= radix <= 36 -> digit_base <= radix ^ Z.of_nat (S c) -> HAVE_TWODIGIT_T = true -> (length chars < fuel)%nat -> chars <> [] ->
  inline_ok acc v -> (stack_parts_used_ acc <= kStackParts)%nat ->
  (kStackParts * c < stack_parts_used_ acc * c + length (fst (split_digits radix chars)))%nat ->
  parse_parts fuel acc chars radix = Err OutOfBounds.
Proof.
  intros Hr Hfit Htd. revert chars acc v. induction fuel as [|fuel IH]; intros chars acc v Hf Hne Ha Hu Hcount; [lia|].
  cbn [parse_parts]. assert (1 < digit_base) as Hb by (pose proof digit_base_ge; lia).
  destruct (wp_elim _ _ (parse_part_spec radix chars 1 0 0 Hr Hne eq_refl Hb ltac:(lia)))
    as ([[[current m] part] done] & -> & ds & Hc & Em & Ep & Hm & Hp & Hdone).
  cbn [mbind res_bind]. rewrite Z.mul_1_l in Em.
  destruct (consumed_elim _ _ _ _ _ Hc) as (ED & Erest & Hl & Hd & Hnd).
  assert (length ds <= c)%nat as Hdc.
  { destruct (Nat.le_gt_cases (length ds) c) as [|Hgt]; [done|].
    pose proof (Z.pow_le_mono_r radix (Z.of_nat (S c)) (Z.of_nat (length ds)) ltac:(lia) ltac:(lia)). lia. }
  unfold AddPart_multiplier. rewrite Htd, (io_inline _ _ Ha). cbn [andb].
  destruct (Nat.eq_dec (stack_parts_used_ acc) kStackParts) as [Efull | Hlt].
  { by rewrite (AddPart_inline_full acc m part v Ha Efull). }
  destruct (wp_elim _ _ (AddPart_inline_spec acc m part v Ha ltac:(lia) ltac:(lia) ltac:(lia))) as (acc' & -> & Ha' & Hu' & _).
  cbn [mbind res_bind mret res_ret negb]. rewrite ED, length_app in Hcount. destruct done.
  - destruct (Hd eq_refl) as [ED' _]. rewrite ED' in Hcount. cbn [length] in Hcount. nia.
  - destruct (Hnd eq_refl) as [_ Hcur].
    pose proof (full_part_nonempty radix (length ds) Hr ltac:(rewrite <- Em; by apply Hdone)).
    apply (IH current acc' (v * m + part)); [lia | done | done | lia | rewrite Hu', Nat.mul_succ_l; lia].
Qed.

Lemma copy_part_spec Zd X :
  digits_ok X -> (length X <= length Zd)%nat ->
  wp (copy_part Zd X) (fun Z' => length Z' = length Zd /\ digits_ok Z' /\ val Z' = val X).
Proof.
  intros HX Hl. unfold copy_part. apply wp_bind. rewrite <- (app_nil_l Zd) at 1.
  apply (wp_write_loop (fun k P _ => P = take k X)); [done | lia | constructor | done | |].
  - intros k P [] Hk HlP HP ->. apply wp_bind, wp_rd; [lia | done|]. intros d Hd Hdd. apply wp_ret.
    split; [done|]. by rewrite (take_S_r _ _ _ Hd).
  - intros P [] HlP HP ->. rewrite Nat.add_0_l in *. rewrite take_ge in * by lia. apply wp_zero_from; [done|].
    rewrite val_app_zeros. split_and!; [rewrite length_app, length_replicate, length_drop; lia | | done].
    apply Forall_app. split; [done | apply Forall_replicate, is_digit_0].
Qed.
End from_string_spec.
