(* ===== verification/FromStringPowerTwo.v ===== *)
(** Parsing with a radix that is a power of two: [ParsePowerTwo] of [src/bigint/bigint.h] and
    [FromStringBasePowerOfTwo] of [src/bigint/fromstring.cc]. *)

From Stdlib Require Import ZArith Lia.
From stdpp Require Import base tactics numbers list option.
From S2P Require Import Prelude Digit Digits VectorArithmetic Processor MulSchoolbook MulKaratsuba MulToom Multiply FromString FromStringSpec.

#[local] Open Scope Z_scope.

Section power_two.
Context `{Config, Platform}.
Context {alloc : Allocator}.
Context {fft : FftMultiplier}.
Context (radix cb : Z) (Hradix : radix = 2 ^ cb) (Hcb : 1 <= cb <= 5).

(** The bits of a full part. *)
Definition part_bits : Z := kDigitBits - kDigitBits mod cb.

Lemma part_bits_spec : 0 < part_bits <= kDigitBits /\ 0 <= kDigitBits mod cb < cb /\ cb < kDigitBits /\ (cb | part_bits).
Proof.
  unfold part_bits. pose proof (Z.mod_pos_bound kDigitBits cb ltac:(lia)).
  assert (cb < kDigitBits) by (destruct kDigitBits_cases; lia). split_and!; try lia.
  exists (kDigitBits / cb). pose proof (Z.div_mod kDigitBits cb). lia.
Qed.

(** ** Reading *)

Lemma radix_pow (n : nat) : radix ^ Z.of_nat n = 2 ^ (cb * Z.of_nat n).
Proof. rewrite Hradix, <- Z.pow_mul_r; lia. Qed.

Lemma append_char part bits_left d :
  0 <= bits_left - cb -> bits_left <= kDigitBits -> 0 <= part < 2 ^ (kDigitBits - bits_left) -> 0 <= d < radix ->
  Z.lor (wrap (Z.shiftl part cb)) d = part * radix + d /\
  0 <= part * radix + d < 2 ^ (kDigitBits - (bits_left - cb)).
Proof.
  intros Hb Hb' Hp Hd.
  assert (2 ^ (kDigitBits - (bits_left - cb)) = 2 ^ (kDigitBits - bits_left) * radix) as E.
  { rewrite Hradix, <- Z.pow_add_r by lia. f_equal. lia. }
  assert (2 ^ (kDigitBits - (bits_left - cb)) <= digit_base) by (apply Z.pow_le_mono_r; lia).
  rewrite Z.shiftl_mul_pow2, <- Hradix by lia. unfold wrap. rewrite Z.mod_small by nia.
  rewrite Hradix at 1. rewrite lor_shiftl_add by (rewrite <- ?Hradix; lia). rewrite <- Hradix. split; [done | nia].
Qed.

Lemma parse_part_power_two_spec chars part bits_left :
  chars <> [] -> 0 <= bits_left <= kDigitBits -> 0 <= part < 2 ^ (kDigitBits - bits_left) ->
  wp (parse_part_power_two chars radix cb part bits_left) (fun '(current, part', bits_left', done) => exists ds,
    consumed radix chars current ds done /\ bits_left' = bits_left - cb * Z.of_nat (length ds) /\
    part' = part * radix ^ Z.of_nat (length ds) + numeral radix ds /\ 0 <= bits_left' /\
    0 <= part' < 2 ^ (kDigitBits - bits_left') /\ (done = false -> bits_left' < cb)).
Proof.
  intros Hne. revert part bits_left. induction chars as [|c chars IH]; intros part bits_left Hb Hp; [done|].
  cbn [parse_part_power_two].
  assert (forall done, done = bool_decide (fst (split_digits radix (c :: chars)) = []) ->
    (done = false -> bits_left < cb) ->
    wp (mret (c :: chars, part, bits_left, done)) (fun '(current, part', bits_left', done) => exists ds,
      consumed radix (c :: chars) current ds done /\ bits_left' = bits_left - cb * Z.of_nat (length ds) /\
      part' = part * radix ^ Z.of_nat (length ds) + numeral radix ds /\ 0 <= bits_left' /\
      0 <= part' < 2 ^ (kDigitBits - bits_left') /\ (done = false -> bits_left' < cb))) as Hstop.
  { intros done Ed Hlt. apply wp_ret. cbv beta iota. exists []. cbn [length]. rewrite Z.pow_0_r. unfold numeral. cbn [fold_left].
    split_and!; try lia; [by apply consumed_stop | auto]. }
  destruct (char_digit c radix) as [d|] eqn:Ec; [|apply Hstop; [cbn; by rewrite Ec | done]].
  pose proof (char_digit_range _ _ _ Ec) as Hd. destruct (Z.ltb_spec bits_left cb) as [Hlt | Hge].
  { apply Hstop; [|done]. cbn. rewrite Ec. by destruct (split_digits radix chars). }
  destruct (append_char part bits_left d) as [-> Hp']; try lia. clear Hstop. case_bool_decide as Erest.
  - apply wp_ret. exists [d]. subst chars. cbn [length]. rewrite Z.pow_1_r. unfold numeral. cbn [fold_left].
    split_and!; try (done || lia). apply (consumed_cons _ _ [] [] d []); [done|]. unfold consumed. cbn. split_and!; done.
  - eapply wp_mono; [apply (IH Erest (part * radix + d) (bits_left - cb)); lia|].
    intros [[[current p'] b'] done] (ds & Hc & -> & -> & Hb' & Hp'' & Hdone). exists (d :: ds).
    rewrite numeral_cons. cbn [length]. rewrite Nat2Z.inj_succ, Z.pow_succ_r in * by lia.
    replace (bits_left - cb * Z.succ (Z.of_nat (length ds))) with (bits_left - cb - cb * Z.of_nat (length ds)) by lia.
    split_and!; [by apply consumed_cons | done | lia | lia | nia | nia | done].
Qed.

Definition full_part (d : Z) : Prop := 0 <= d < 2 ^ part_bits.

(** The value of a complete accumulator: full parts, then a last part of which
    [last_multiplier_] bits are unused. *)
Definition acc_value_bits (acc : FromStringAccumulator) (v : Z) : Prop :=
  exists P q, acc_parts acc = P ++ [q] /\ Forall full_part P /\
    v = numeral (2 ^ part_bits) P * 2 ^ (kDigitBits - last_multiplier_ acc) + q /\
    0 <= last_multiplier_ acc <= kDigitBits /\ 0 <= q < 2 ^ (kDigitBits - last_multiplier_ acc) /\
    (P <> [] -> last_multiplier_ acc < kDigitBits) /\ (cb | kDigitBits - last_multiplier_ acc).

Lemma parse_parts_power_two_spec fuel chars acc v :
  (length chars < fuel)%nat -> chars <> [] -> acc_ok acc -> inline_everything_ acc = false ->
  Forall full_part (acc_parts acc) -> v = numeral (2 ^ part_bits) (acc_parts acc) ->
  acc_parts acc = [] \/ fst (split_digits radix chars) <> [] ->
  wp (parse_parts_power_two fuel acc chars radix cb) (fun '(rest, acc') =>
    inline_everything_ acc' = false /\ radix_ acc' = radix_ acc /\
    parse_outcome radix v chars rest (max_digits_ acc - length (acc_parts acc)) acc' acc_value_bits).
Proof.
  revert chars acc v. induction fuel as [|fuel IH]; intros chars acc v Hf Hne Ha Hin Hfull Hv Hmore; [lia|].
  destruct part_bits_spec as (Hpb & Hmod & Hcbk & _).
  cbn [parse_parts_power_two]. apply wp_bind.
  assert (0 <= 0 < 2 ^ (kDigitBits - kDigitBits)) as H0bits by (rewrite Z.sub_diag; lia).
  eapply wp_mono; [apply (parse_part_power_two_spec chars 0 kDigitBits Hne); [lia | exact H0bits]|].
  intros [[[current part] bl] done] (ds & Hc & Eb & Ep & Hb & Hp & Hdone).
  rewrite Z.mul_0_l, Z.add_0_l in Ep. destruct (consumed_elim _ _ _ _ _ Hc) as (ED & Erest & Hl & Hd & Hnd).
  assert (bl <= kDigitBits) as Hbl by nia.
  assert (2 ^ (kDigitBits - bl) = radix ^ Z.of_nat (length ds)) as Epow by (rewrite radix_pow; f_equal; lia).
  assert (is_digit part) as Hpd.
  { split; [lia|]. eapply Z.lt_le_trans; [apply Hp|]. apply Z.pow_le_mono_r; lia. }
  apply wp_bind. eapply wp_mono; [apply (AddPart_spec acc part Ha Hpd)|]. intros [more acc'] [Hsp Hres].
  pose proof (sp_inline _ _ Hsp) as Hi'. pose proof (sp_radix _ _ Hsp) as Hr'. pose proof (sp_digits _ _ Hsp) as Hmd.
  rewrite Hin in Hi'. unfold parse_outcome. rewrite ED. destruct more; cbn [negb].
  2: { apply wp_ret. split_and!; [done | done|]. left. destruct Hres. split; [done | lia]. }
  destruct Hres as [Hok Hparts]. destruct done.
  - destruct (Hd eq_refl) as [ED' Ecur]. apply wp_ret. cbn [inline_everything_ radix_]. split_and!; [done | done|]. right.
    rewrite ED', app_nil_r. split_and!; [apply Hok | destruct Hok; by split | done|].
    exists (acc_parts acc), part. cbn [last_multiplier_]. split_and!; try (done || lia).
    + intros HneP. destruct Hmore as [? | HD]; [done|]. rewrite ED, ED', app_nil_r in HD.
      destruct ds; [done | cbn [length] in *; nia].
    + exists (Z.of_nat (length ds)). lia.
  - destruct (Hnd eq_refl) as [HD' Hcur]. specialize (Hdone eq_refl).
    assert (bl = kDigitBits mod cb) as Ebl.
    { apply Z.mod_unique with (Z.of_nat (length ds)); lia. }
    assert (kDigitBits - bl = part_bits) as Epb by (unfold part_bits; lia).
    assert (0 < length ds)%nat as Hlds by (destruct ds; [cbn [length] in *; lia | cbn; lia]).
    eapply wp_mono; [apply (IH current acc' (v * 2 ^ part_bits + part)); try done; [lia | | | by right]|].
    + rewrite Hparts. apply Forall_app. split; [done | apply Forall_singleton]. unfold full_part. by rewrite <- Epb.
    + rewrite Hparts, numeral_snoc. by rewrite Hv.
    + intros [rest acc''] (Hi'' & Hr'' & Hout). split_and!; [done | congruence|].
      rewrite Hparts, length_app in Hout. cbn [length] in Hout. rewrite length_app.
      destruct Hout as [[? ?] | (? & ? & Er & Hval)]; [left; split; [done | lia] | right; split_and!; try done].
      * by rewrite Er, Erest.
      * rewrite numeral_app.
        replace (v * _ + _) with ((v * 2 ^ part_bits + part) * radix ^ Z.of_nat (length (fst (split_digits radix current))) + numeral radix (fst (split_digits radix current))); [done|].
        rewrite <- Epb, Epow, Ep, Nat2Z.inj_add, Z.pow_add_r by lia. lia.
Qed.

(** ** Assembling *)

(** The value of parts, least significant first. *)
Fixpoint parts_value (ps : list Z) : Z :=
  match ps with [] => 0 | p :: ps => p + 2 ^ part_bits * parts_value ps end.

Lemma parts_value_reverse P : parts_value (reverse P) = numeral (2 ^ part_bits) P.
Proof.
  assert (forall ps q, parts_value (ps ++ [q]) = parts_value ps + 2 ^ (part_bits * Z.of_nat (length ps)) * q) as Hsnoc.
  { destruct part_bits_spec as (Hpb & _). intros ps q. induction ps as [|p ps IH]; [rewrite Z.mul_0_r; cbn [parts_value app]; lia|].
    cbn [app parts_value length]. rewrite IH, Nat2Z.inj_succ, Z.mul_succ_r, Z.pow_add_r by lia. lia. }
  induction P as [|p P IH]; [done|]. rewrite reverse_cons, Hsnoc, length_reverse, IH, numeral_cons.
  rewrite <- Z.pow_mul_r; destruct part_bits_spec; lia.
Qed.

Lemma lor_high digit db x : 0 <= db -> 0 <= digit < 2 ^ db -> Z.lor digit (x * 2 ^ db) = digit + x * 2 ^ db.
Proof. intros Hdb Hd. rewrite Z.lor_comm, lor_shiftl_add by done. lia. Qed.

(** One part moved into the digit: the low bits and, if the digit is full, the rest. *)
Lemma wrap_shiftl_part part db :
  0 <= db <= kDigitBits -> wrap (Z.shiftl part db) = (part mod 2 ^ (kDigitBits - db)) * 2 ^ db.
Proof.
  intros Hdb. rewrite Z.shiftl_mul_pow2 by lia. unfold wrap, digit_base.
  replace (2 ^ kDigitBits) with (2 ^ (kDigitBits - db) * 2 ^ db) by (rewrite <- Z.pow_add_r by lia; f_equal; lia).
  apply Z.mul_mod_distr_r; apply Z.pow_nonzero; lia.
Qed.

(** A shift by the width of a digit cannot happen: a full part is shorter than a digit, or
    some bits of the digit are known already. *)
Definition shift_safe (digit_bits : Z) : Prop := part_bits < kDigitBits \/ 0 < digit_bits.

Lemma fill_digit_full ps digit part pb :
  fill_digit ps part_bits digit kDigitBits part pb = Ok (ps, digit, kDigitBits, part, pb).
Proof. destruct ps; cbn [fill_digit]; by rewrite Z.ltb_irrefl. Qed.

Lemma fill_digit_spec ps digit db part pb :
  ps <> [] -> Forall full_part ps -> 0 <= db < kDigitBits -> 0 <= digit < 2 ^ db -> shift_safe db ->
  wp (fill_digit ps part_bits digit db part pb) (fun '(ps', digit', _, part', pb') =>
    digit' + digit_base * (part' + 2 ^ pb' * parts_value ps') = digit + 2 ^ db * parts_value ps /\
    is_digit digit' /\ 0 <= part' < 2 ^ pb' /\ 0 <= pb' < kDigitBits /\ Forall full_part ps' /\
    (length ps' < length ps)%nat /\ (ps' = [] \/ shift_safe pb')).
Proof.
  intros Hne Hps. destruct part_bits_spec as (Hpb & _). revert digit db part pb Hne.
  induction ps as [|p ps IH]; intros digit db part pb Hne Hdb Hd Hsafe; [done|].
  apply Forall_cons_1 in Hps as [Hp Hps]. cbn [fill_digit]. destruct (Z.ltb_spec db kDigitBits); [|lia].
  rewrite wrap_shiftl_part, lor_high by lia. unfold full_part in Hp. cbn [parts_value].
  assert (digit_base = 2 ^ (kDigitBits - db) * 2 ^ db) as Eb.
  { unfold digit_base. rewrite <- Z.pow_add_r by lia. f_equal. lia. }
  assert (0 < 2 ^ db) as Hpdb by (apply Z.pow_pos_nonneg; lia).
  destruct (Z.ltb_spec part_bits (kDigitBits - db)) as [Hlt | Hge].
  - assert (2 ^ part_bits <= 2 ^ (kDigitBits - db)) by (apply Z.pow_le_mono_r; lia).
    rewrite (Z.mod_small p) by lia.
    assert (2 ^ (db + part_bits) = 2 ^ db * 2 ^ part_bits) as E2 by (rewrite Z.pow_add_r; lia).
    assert (0 <= digit + p * 2 ^ db < 2 ^ (db + part_bits)) as Hd' by nia.
    assert (2 ^ (db + part_bits) <= digit_base) by (apply Z.pow_le_mono_r; lia).
    case_bool_decide as Eps.
    + apply wp_ret. subst ps. cbn [parts_value length]. split_and!; try (done || (unfold is_digit; lia)); by left.
    + eapply wp_mono; [apply (IH Hps (digit + p * 2 ^ db) (db + part_bits) 0 0); try (done || lia); left; lia|].
      intros [[[[ps' digit'] db'] part'] pb'] (E & Hd1 & Hp1 & Hpb1 & Hf & Hlen & Hs).
      split_and!; (done || lia || (cbn [length]; lia)).
  - unfold digit_shr. destruct (Z.ltb_spec (kDigitBits - db) kDigitBits) as [Hsh | Hsh].
    2: { destruct Hsafe; lia. }
    cbn [mbind res_bind mret res_ret]. rewrite fill_digit_full, Z.shiftr_div_pow2 by lia. apply wp_Ok.
    assert (0 < 2 ^ (kDigitBits - db)) as Hps0 by (apply Z.pow_pos_nonneg; lia).
    assert (2 ^ (kDigitBits - db) <> 0) as Hnz by lia. pose proof (Z.div_mod p (2 ^ (kDigitBits - db)) Hnz) as Dp.
    pose proof (Z.mod_pos_bound p (2 ^ (kDigitBits - db)) Hps0) as Mp.
    assert (2 ^ part_bits = 2 ^ (kDigitBits - db) * 2 ^ (part_bits - (kDigitBits - db))) as E3
      by (rewrite <- Z.pow_add_r by lia; f_equal; lia).
    assert (0 <= p / 2 ^ (kDigitBits - db) < 2 ^ (part_bits - (kDigitBits - db))) as Hq
      by (split; [apply Z.div_pos; lia | apply Z.div_lt_upper_bound; lia]).
    split; [|split; [|split; [exact Hq | split; [lia | split; [done | split; [cbn; lia|]]]]]].
    + rewrite E3, Eb. set (q := p / 2 ^ (kDigitBits - db)) in *. set (a := p mod 2 ^ (kDigitBits - db)) in *.
      clearbody q a. rewrite Dp. ring.
    + unfold is_digit. rewrite Eb. nia.
    + destruct (decide (ps = [])) as [|]; [by left | right]. unfold shift_safe in *.
      destruct (Z.lt_ge_cases part_bits kDigitBits); [by left | right; destruct Hsafe; lia].
Qed.

Lemma assemble_digits_spec fuel P R z ps digit db v :
  (length ps < fuel)%nat -> Forall full_part ps -> 0 <= db < kDigitBits -> 0 <= digit < 2 ^ db ->
  (ps = [] \/ shift_safe db) -> length P = z -> digits_ok P -> (length ps <= length R)%nat ->
  v = val P + bpow z * (digit + 2 ^ db * parts_value ps) ->
  wp (assemble_digits fuel (P ++ R) z ps part_bits digit db) (fun '(Zd, z', digit', db') => exists P' R',
    Zd = P' ++ R' /\ length P' = z' /\ length Zd = (length P + length R)%nat /\ digits_ok P' /\
    (z' <= z + length ps)%nat /\ 0 <= db' < kDigitBits /\ 0 <= digit' < 2 ^ db' /\ v = val P' + bpow z' * digit').
Proof.
  revert P R z ps digit db. induction fuel as [|fuel IH]; intros P R z ps digit db Hf Hps Hdb Hd Hsafe HlP HP HlR Hv; [lia|].
  cbn [assemble_digits]. case_bool_decide as Eps.
  - subst ps. apply wp_ret. exists P, R. cbn [parts_value] in Hv. rewrite length_app. split_and!; try (done || lia).
  - destruct Hsafe as [|Hsafe]; [done|]. apply wp_bind. eapply wp_mono; [by apply fill_digit_spec|].
    intros [[[[ps' digit'] db'] part'] pb'] (E & Hd1 & Hp1 & Hpb1 & Hf1 & Hlen & Hs).
    destruct R as [|r R]; [cbn in HlR; destruct ps; [done | cbn in *; lia]|]. cbn [length] in HlR.
    apply wp_bind, wp_wr; [rewrite length_app; cbn; lia|]. rewrite (insert_snoc P R r digit' z HlP).
    assert (length (P ++ [digit']) = S z) as HlP' by (rewrite length_app, HlP; cbn; lia).
    eapply wp_mono; [apply (IH (P ++ [digit']) R (S z) ps' part' pb'); try (done || lia)|].
    + apply Forall_app. split; [done | by apply Forall_singleton].
    + rewrite Hv, <- E, val_snoc, HlP, bpow_S. lia.
    + intros [[[Zd z'] digit''] db''] (P' & R' & -> & ? & Hl & ? & ? & ? & ? & ?). exists P', R'.
      split_and!; try (done || lia). rewrite Hl, HlP', HlP. cbn. lia.
Qed.

Lemma val_reverse l : val (reverse l) = numeral digit_base l.
Proof.
  induction l as [|d l IH]; [done|]. rewrite reverse_cons, val_snoc, length_reverse, IH, numeral_cons.
  unfold bpow. lia.
Qed.

Lemma radix_bits : BitLength_int (radix - 1) = cb /\
  ((radix =? 2) || (radix =? 4) || (radix =? 8) || (radix =? 16) || (radix =? 32)) = true.
Proof.
  assert (cb = 1 \/ cb = 2 \/ cb = 3 \/ cb = 4 \/ cb = 5) as [E | [E | [E | [E | E]]]] by lia; rewrite Hradix, E; split; reflexivity.
Qed.

Lemma FromStringBasePowerOfTwo_spec Zd acc v :
  acc_ok acc -> acc_value_bits acc v -> radix_ acc = radix -> digits_ok Zd -> (ResultLength acc <= length Zd)%nat ->
  wp (FromStringBasePowerOfTwo Zd acc) (fun Z' => length Z' = length Zd /\ digits_ok Z' /\ val Z' = v).
Proof.
  intros Ha (P & q & Eparts & HP & Hv & Hlast & Hq & Hsafe & Hdvd) Er HZ Hl.
  pose proof (length_acc_parts acc Ha) as Hlp. pose proof (acc_parts_ok acc Ha) as Hpo.
  rewrite Eparts in Hpo. rewrite Eparts, length_app in Hlp. cbn [length] in Hlp.
  destruct radix_bits as [Ebl Edc]. destruct part_bits_spec as (Hpb & Hmod & _).
  unfold FromStringBasePowerOfTwo. rewrite Er, Ebl, Edc, Eparts, <- Hlp. fold part_bits.
  apply wp_bind, wp_dcheck; [apply bool_decide_eq_true; lia|].
  apply wp_bind, wp_dcheck; [apply bool_decide_eq_true; lia|]. apply wp_bind, wp_dcheck; [done|].
  replace (length P + 1 - 1)%nat with (length P) by lia.
  assert (forall P' R', length (P' ++ R') = length Zd -> digits_ok P' -> val P' = v ->
    wp (zero_from (length P') (P' ++ R')) (fun Z' => length Z' = length Zd /\ digits_ok Z' /\ val Z' = v)) as Hfinish.
  { intros P' R' HlZ HP' HvP'. apply wp_zero_from; [done|]. rewrite val_app_zeros, length_app, length_replicate.
    rewrite length_app in HlZ. split_and!; [lia | apply Forall_app; split; [done | apply Forall_replicate, is_digit_0] | done]. }
  destruct (Z.eqb_spec (last_multiplier_ acc) 0) as [E0 | Hne0].
  - rewrite E0, Z.sub_0_r in *. assert (kDigitBits mod cb = 0) as Em by (by apply Z.mod_divide; [lia|]).
    rewrite Em. apply wp_bind, wp_dcheck; [done|]. apply wp_bind. rewrite <- (app_nil_l Zd) at 1.
    apply (wp_write_loop (fun k D _ => D = take k (reverse (P ++ [q])))); [done | lia | constructor | done | |].
    + intros k D [] Hk HlD HD ->.
      destruct (lookup_lt_is_Some_2 (P ++ [q]) (length P - k)) as [d Hd]; [rewrite length_app; cbn; lia|].
      assert (rd (P ++ [q]) (length P - k) = Ok d) as -> by (unfold rd; by rewrite Hd).
      apply wp_ret. split; [by eapply (Forall_lookup_1 _ _ _ _ Hpo)|].
      rewrite (take_S_r _ _ d); [done|]. rewrite reverse_lookup by (rewrite length_app; cbn; lia).
      rewrite length_app. cbn [length]. by replace (length P + 1 - S k)%nat with (length P - k)%nat by lia.
    + intros D [] HlD HD ->. rewrite Nat.add_0_l in *. rewrite take_ge in * by (rewrite length_reverse, length_app; cbn; lia).
      rewrite <- HlD. apply Hfinish; [|done|].
      * rewrite length_app, length_drop, HlD. lia.
      * rewrite val_reverse, numeral_snoc, Hv. unfold part_bits. rewrite Em, Z.sub_0_r. done.
  - assert (rd (P ++ [q]) (length P) = Ok q) as -> by (unfold rd; by rewrite list_lookup_middle).
    cbn [mbind res_bind]. rewrite take_app_length. apply wp_bind.
    assert (Forall full_part (reverse P)) as HrP by (by apply Forall_reverse).
    assert (reverse P = [] \/ shift_safe (kDigitBits - last_multiplier_ acc)) as Hss.
    { destruct (decide (P = [])) as [-> | HneP]; [by left|]. right. right. specialize (Hsafe HneP). lia. }
    rewrite <- (app_nil_l Zd) at 1.
    eapply wp_mono; [apply (assemble_digits_spec _ [] Zd 0 (reverse P) q (kDigitBits - last_multiplier_ acc) v)|].
    all: rewrite ?length_reverse; try (done || lia || constructor).
    + rewrite parts_value_reverse, bpow_0, Hv. cbn [val]. lia.
    + intros [[[Z1 z1] d1] db1] (P1 & R1 & -> & HlP1 & HlZ & HP1 & Hz1 & Hdb1 & Hd1 & Ev). cbn [length] in HlZ.
      rewrite Nat.add_0_l in *. destruct (Z.ltb_spec 0 db1).
      * destruct R1 as [|r R1]; [rewrite length_app in HlZ; cbn in HlZ; lia|].
        apply wp_bind, wp_wr; [rewrite length_app; cbn; lia|]. rewrite (insert_snoc P1 R1 r d1 z1 HlP1).
        assert (length (P1 ++ [d1]) = S z1) as HlP2 by (rewrite length_app, HlP1; cbn; lia). rewrite <- HlP2.
        apply Hfinish; [rewrite !length_app in *; cbn in *; lia | | by rewrite val_snoc, HlP1].
        apply Forall_app. split; [done | apply Forall_singleton]. split; [lia|].
        eapply Z.lt_le_trans; [apply Hd1|]. apply Z.pow_le_mono_r; lia.
      * assert (d1 = 0) as -> by (replace db1 with 0 in Hd1 by lia; lia). rewrite <- HlP1. apply Hfinish; [done | done | lia].
Qed.
End power_two.
