(* ===== verification/FromStringLarge.v ===== *)
(** Parsing large inputs: [FromStringLarge] of [src/bigint/fromstring.cc] combines the parts in
    the order of a balanced binary tree. *)

From Stdlib Require Import ZArith Lia.
From stdpp Require Import base tactics numbers list option.
From S2P Require Import Prelude Digit Digits VectorArithmetic Processor MulSchoolbook MulKaratsuba MulToom Multiply FromString FromStringSpec.

#[local] Open Scope Z_scope.

(** ** Parts with their multipliers *)

(** The value of parts with multipliers, and the product of the multipliers. *)
Definition horner (l : list (Z * Z)) : Z := fold_left (fun v '(p, m) => v * m + p) l 0.
Definition mprod (l : list (Z * Z)) : Z := fold_left (fun v '(_, m) => v * m) l 1.

Lemma fold_mprod l v : fold_left (fun v '(_, m) => v * m) l v = v * mprod l.
Proof.
  unfold mprod. revert v. induction l as [|[p m] l IH]; intros v; cbn [fold_left]; [lia|]. rewrite IH, (IH (1 * m)). lia.
Qed.

Lemma mprod_app l l' : mprod (l ++ l') = mprod l * mprod l'.
Proof. unfold mprod at 1. rewrite fold_left_app. apply fold_mprod. Qed.

Lemma fold_horner l v : fold_left (fun v '(p, m) => v * m + p) l v = v * mprod l + horner l.
Proof.
  unfold horner. revert v. induction l as [|[p m] l IH]; intros v; [unfold mprod; cbn; lia|].
  cbn [fold_left]. rewrite IH, (IH (0 * m + p)).
  assert (mprod ((p, m) :: l) = m * mprod l) as -> by (change ((p, m) :: l) with ([(p, m)] ++ l); rewrite mprod_app; unfold mprod at 1; cbn [fold_left]; lia).
  lia.
Qed.

Lemma horner_app l l' : horner (l ++ l') = horner l * mprod l' + horner l'.
Proof. unfold horner at 1. rewrite fold_left_app. apply fold_horner. Qed.

(** ** Blocks of a buffer *)

Section blocks.
Context {A : Type}.
Implicit Types X v : list A.

Lemma lookup_slice X o k i : slice X o k !! i = if decide (i < k)%nat then X !! (o + i)%nat else None.
Proof.
  unfold slice. destruct (decide (i < k)%nat).
  - by rewrite lookup_take_lt, lookup_drop by done.
  - by rewrite lookup_take_ge by lia.
Qed.

Lemma lookup_splice X off v i :
  (off + length v <= length X)%nat ->
  splice X off v !! i = if decide (off <= i < off + length v)%nat then v !! (i - off)%nat else X !! i.
Proof.
  intros Hl. unfold splice. destruct (decide (i < off)%nat) as [Hlt | Hge].
  - rewrite lookup_app_l by (rewrite length_take; lia). rewrite decide_False by lia. by rewrite lookup_take_lt.
  - rewrite lookup_app_r by (rewrite length_take; lia). rewrite length_take_le by lia.
    destruct (decide (off <= i < off + length v)%nat) as [Hin | Hout].
    + by rewrite lookup_app_l by lia.
    + rewrite lookup_app_r, lookup_drop by lia. f_equal. lia.
Qed.

Lemma slice_split X o a b : slice X o (a + b) = slice X o a ++ slice X (o + a) b.
Proof. unfold slice. rewrite <- drop_drop. symmetry. apply take_take_drop. Qed.

Lemma slice_splice_other X off v o k :
  (off + length v <= length X)%nat -> (o + k <= off \/ off + length v <= o)%nat ->
  slice (splice X off v) o k = slice X o k.
Proof.
  intros Hl Hk. apply list_eq. intros i. rewrite !lookup_slice. destruct (decide (i < k)%nat); [|done].
  rewrite lookup_splice by done. rewrite decide_False by lia. done.
Qed.

Lemma slice_clip X o k : slice X o k = slice X o (k `min` (length X - o)).
Proof.
  apply list_eq. intros i. rewrite !lookup_slice. destruct (decide (i < k)%nat), (decide (i < k `min` (length X - o))%nat); try done; try lia.
  apply lookup_ge_None. lia.
Qed.

Lemma slice_splice_block X off v k :
  (off + length v <= length X)%nat -> length v = (k `min` (length X - off))%nat -> slice (splice X off v) off k = v.
Proof.
  intros Hl Hv. rewrite slice_clip, length_splice, <- Hv by done. by apply slice_splice_same.
Qed.
End blocks.

Section from_string_large.
Context `{Config, Platform}.
Context {alloc : Allocator}.
Context {fft : FftMultiplier}.
Context (L : nat) `{HMul : !Multiplier L}.

(** The parts of the input with their multipliers. *)
Context (Q : list (Z * Z)).

(** A buffer of the length of the input. *)
Definition buffer (X : digits) : Prop := length X = length Q /\ digits_ok X.

(** The blocks of length [l] from [lo] to [hi] hold the values of [f] on the input's blocks. *)
Definition blocks_ok (X : digits) (l : nat) (f : list (Z * Z) -> Z) (lo hi : nat) : Prop :=
  forall j, (lo <= j < hi)%nat -> val (slice X (j * l) l) = f (slice Q (j * l) l).

Lemma buffer_splice X off v :
  buffer X -> digits_ok v -> (off + length v <= length Q)%nat -> buffer (splice X off v).
Proof.
  intros [Hl HX] Hv Hle. split; [by rewrite length_splice by lia|]. unfold splice.
  apply Forall_app. split; [by apply digits_ok_take|]. apply Forall_app. split; [done | by apply Forall_drop].
Qed.

(** The product of two blocks, with the second part added, fits in the new block. *)
Lemma block_bound (l1 l2 : nat) a m b : 
  0 <= a < bpow l1 -> 0 <= m < bpow l2 -> 0 <= b < bpow l2 -> a * m + b < bpow (l1 + l2).
Proof. intros Ha Hm Hb. rewrite bpow_add. nia. Qed.

Lemma val_slice_bound X o k n : digits_ok X -> length (slice X o k) = n -> 0 <= val (slice X o k) < bpow n.
Proof. intros HX <-. by apply val_bounds, digits_ok_slice. Qed.

(** One product of blocks. *)
Lemma multiply_blocks out X Y p :
  steady p -> digits_ok out -> digits_ok X -> digits_ok Y -> (length X <= L)%nat -> (length Y <= L)%nat ->
  length out = (length X + length Y)%nat ->
  wpP (Multiply out X Y) p (fun Z' p' => status_le p p' /\ length Z' = length out /\ digits_ok Z' /\
    (status_ p' = kOk -> val Z' = val X * val Y)).
Proof.
  intros Hst Ho HX HY HlX HlY Hlo. pose proof (length_Normalize X). pose proof (length_Normalize Y).
  by apply multiply_correct; [.. | lia].
Qed.

(** The first product of a pair and the sum: the new part. *)
Lemma pair_part new_parts parts mults start l p (B1 B2 : list (Z * Z)) :
  steady p -> buffer new_parts -> buffer parts -> buffer mults -> (0 < l <= L)%nat -> (start + l < length Q)%nat ->
  val (slice parts start l) = horner B1 -> val (slice parts (start + l) l) = horner B2 ->
  val (slice mults (start + l) l) = mprod B2 ->
  wpP (Multiply (Digits_slice new_parts start (l * 2)) (Digits_slice parts start l) (Digits_slice mults (start + l) l)) p
    (fun p_out p' => status_le p p' /\ length p_out = ((l * 2) `min` (length Q - start))%nat /\ digits_ok p_out /\
      (status_ p' = kOk -> wp (AddAndReturnOverflow p_out (Digits_slice parts (start + l) l)) (fun '(p_out', overflow) =>
         overflow = 0 /\ length p_out' = length p_out /\ digits_ok p_out' /\ val p_out' = horner (B1 ++ B2)))).
Proof.
  intros Hst [Hln Hn] [Hlp Hp] [Hlm Hm] Hl Hs V1 V2 M2. unfold Digits_slice.
  assert (length (slice parts start l) = l) as L1 by (rewrite length_slice; lia).
  assert (length (slice mults (start + l) l) = (l `min` (length Q - start - l))%nat) as L2 by (rewrite length_slice; lia).
  assert (length (slice parts (start + l) l) = (l `min` (length Q - start - l))%nat) as L3 by (rewrite length_slice; lia).
  assert (length (slice new_parts start (l * 2)) = ((l * 2) `min` (length Q - start))%nat) as L4 by (rewrite length_slice; lia).
  eapply wpP_mono; [apply multiply_blocks; try (by apply digits_ok_slice); (done || lia)|].
  intros p_out p' (Hle & Hlo & Ho & Hv). split_and!; [done | lia | done|]. intros Hok. specialize (Hv Hok).
  pose proof (length_Normalize (slice parts (start + l) l)).
  eapply wp_mono; [apply AddAndReturnOverflow_spec; [done | by apply digits_ok_slice | lia]|].
  intros [p2 c] (Hl2 & H2 & Hc & E). rewrite Hv, V1, V2, M2 in E. rewrite <- horner_app in E.
  pose proof (val_slice_bound parts start l _ Hp L1) as Bd1. pose proof (val_slice_bound mults (start + l) l _ Hm L2) as Bd2.
  pose proof (val_slice_bound parts (start + l) l _ Hp L3) as Bd3.
  pose proof (block_bound l (l `min` (length Q - start - l)) _ _ _ Bd1 Bd2 Bd3) as Hbound.
  rewrite V1, V2, M2, <- horner_app in Hbound. rewrite Hlo, L4 in E.
  replace (l + l `min` (length Q - start - l))%nat with ((l * 2) `min` (length Q - start))%nat in Hbound by lia.
  pose proof (val_nonneg p2 H2). pose proof (bpow_pos ((l * 2) `min` (length Q - start))).
  assert (c = 0) as -> by nia. split_and!; try done. lia.
Qed.

Lemma same_multipliers_spec mults i l :
  digits_ok mults ->
  wp (same_multipliers mults i l) (fun b => b = true ->
    val (slice mults (i * l) l) = val (slice mults ((i - 2) * l) l) /\
    val (slice mults (i * l + l) l) = val (slice mults ((i - 2) * l + l) l)).
Proof.
  intros Hm. unfold same_multipliers, Digits_slice.
  apply wp_bind. eapply wp_mono; [apply Compare_spec; by apply digits_ok_slice|]. intros c (C1 & C2 & C3).
  destruct (Z.eqb_spec c 0) as [Ec | ?]; cbn [negb]; [|by apply wp_ret].
  apply wp_bind. eapply wp_mono; [apply Compare_spec; by apply digits_ok_slice|]. intros c' (C1' & C2' & C3').
  apply wp_ret. intros Ec'%Z.eqb_eq. split; lia.
Qed.

Lemma copy_block_spec out X :
  digits_ok X -> length out = length X ->
  wp (write_loop (length X) 0 (fun k _ _ => m ← rd X k; mret (m, tt)) out tt) (fun '(out', _) => out' = X).
Proof.
  intros HX Hl. rewrite <- (app_nil_l out).
  apply (wp_write_loop (fun k P _ => P = take k X)); [done | lia | constructor | done | |].
  - intros k P [] Hk HlP HP ->. apply wp_bind, wp_rd; [lia | done|]. intros d Hd Hdd. apply wp_ret.
    split; [done|]. by rewrite (take_S_r _ _ _ Hd).
  - intros P [] HlP HP ->. rewrite Nat.add_0_l, take_ge, drop_ge, app_nil_r by lia. done.
Qed.

(** What a pair leaves behind: the new part, and the new multiplier in the memory of the
    parts, except for the first pair, which needs none. *)
Definition pair_done (new_parts parts new_parts' parts' : digits) (start l j : nat) : Prop :=
  exists po mo, new_parts' = splice new_parts start po /\ length po = ((l * 2) `min` (length Q - start))%nat /\
    digits_ok po /\ val po = horner (slice Q start (l * 2)) /\
    (j = 0%nat /\ parts' = parts \/
     (0 < j)%nat /\ parts' = splice parts start mo /\ length mo = ((l * 2) `min` (length Q - start))%nat /\ digits_ok mo /\
       val mo = mprod (slice Q start (l * 2))).

Lemma block_split start l : slice Q start (l * 2) = slice Q start l ++ slice Q (start + l) l.
Proof. replace (l * 2)%nat with (l + l)%nat by lia. apply slice_split. Qed.

Lemma large_multiplier_spec mults l j parts p :
  let start := (2 * j * l)%nat in
  steady p -> buffer parts -> buffer mults -> (0 < l <= L)%nat -> (start + l < length Q)%nat -> (0 < j)%nat ->
  blocks_ok mults l mprod 1 (2 * j + 2) ->
  ((1 < j)%nat -> val (slice parts (start - l * 2) (l * 2)) = mprod (slice Q (start - l * 2) (l * 2))) ->
  ((1 < j)%nat -> (length Q < start + l * 2)%nat -> mprod (slice Q (start + l) l) <> mprod (slice Q (start - l) l)) ->
  wpP (large_multiplier mults l (2 * j) parts) p
    (fun '(ok, parts') p' => status_le p p' /\ (status_ p = kOk -> (ok = true <-> status_ p' = kOk)) /\ exists mo, parts' = splice parts start mo /\
      length mo = ((l * 2) `min` (length Q - start))%nat /\ digits_ok mo /\
      (ok = true -> val mo = mprod (slice Q start (l * 2)))).
Proof.
  intros start Hst [Hlp Hp] [Hlm Hm] Hl Hs Hj HM Hprev Hclip. unfold large_multiplier, Digits_slice. fold start.
  assert ((2 * j - 2) * l = start - l * 2)%nat as Es2 by (unfold start; rewrite Nat.mul_sub_distr_r; lia).
  assert (l * 2 <= start)%nat as Hs2.
  { unfold start. replace (2 * j * l)%nat with (j * (l * 2))%nat by lia. rewrite <- (Nat.mul_1_l (l * 2)) at 1. by apply Nat.mul_le_mono_r. }
  assert ((2 * j - 1) * l = start - l)%nat as Es1 by (unfold start; rewrite Nat.mul_sub_distr_r; lia).
  assert (val (slice mults start l) = mprod (slice Q start l)) as V1 by (apply (HM (2 * j)%nat); lia).
  assert (val (slice mults (start + l) l) = mprod (slice Q (start + l) l)) as V2.
  { replace (start + l)%nat with ((2 * j + 1) * l)%nat by lia. apply HM. lia. }
  assert (2 * j * l = start)%nat as Est by done. clearbody start. rewrite Es2.
  assert (length (slice parts start (l * 2)) = ((l * 2) `min` (length Q - start))%nat) as L4
    by (clear - Hlp; rewrite length_slice; lia).
  assert (length (slice mults start l) = l) as L1 by (clear - Hlm Hs Hl; rewrite length_slice; lia).
  assert (length (slice mults (start + l) l) = (l `min` (length Q - start - l))%nat) as L2 by (clear - Hlm; rewrite length_slice; lia).
  assert (((l * 2) `min` (length Q - start) = l + l `min` (length Q - start - l))%nat) as L3 by (clear - Hs; lia).
  assert (l `min` (length Q - start - l) <= L)%nat as L5 by (clear - Hl; lia).
  apply wpP_bind. eapply wpP_mono with (Q := fun copied p' => p' = p /\ (copied = true -> (1 < j)%nat /\
    val (slice mults start l) = val (slice mults (start - l * 2) l) /\
    val (slice mults (start + l) l) = val (slice mults (start - l) l))).
  { case_bool_decide; [|by apply wpP_ret]. apply wpP_lift. eapply wp_mono; [by apply same_multipliers_spec|].
    intros b Hb. split; [done|]. intros Hbt. specialize (Hb Hbt). rewrite Es2, Est in Hb.
    replace (start - l * 2 + l)%nat with (start - l)%nat in Hb by lia. split; [lia | done]. }
  intros copied p' [-> Hcop]. destruct copied.
  - destruct (Hcop eq_refl) as (Hj1 & C1 & C2).
    assert (val (slice mults (start - l) l) = mprod (slice Q (start - l) l)) as V3.
    { rewrite <- Es1. apply HM. lia. }
    assert (val (slice mults (start - l * 2) l) = mprod (slice Q (start - l * 2) l)) as V4.
    { rewrite <- Es2. apply HM. lia. }
    assert (start + l * 2 <= length Q)%nat as Hfull.
    { destruct (Nat.le_gt_cases (start + l * 2) (length Q)) as [|Hgt]; [done|]. exfalso.
      apply (Hclip Hj1 Hgt). by rewrite <- V2, <- V3. }
    set (prev := slice parts (start - l * 2) (l * 2)) in *.
    assert (length prev = (l * 2)%nat) as Lprev by (unfold prev; rewrite length_slice; lia).
    apply wpP_bind, wpP_lift. rewrite <- Lprev.
    eapply wp_mono; [apply copy_block_spec; [by apply digits_ok_slice | rewrite Lprev, L4; lia]|].
    intros [mo []] ->. apply wpP_ret. cbn [fst]. split_and!; [apply status_le_refl | done|].
    exists prev. split_and!; [done | lia | by apply digits_ok_slice|]. intros _. rewrite (Hprev Hj1).
    rewrite ?Lprev, !block_split, !mprod_app. replace (start - l * 2 + l)%nat with (start - l)%nat by lia.
    rewrite <- V1, <- V2, <- V3, <- V4. congruence.
  - apply wpP_bind. eapply wpP_mono; [apply multiply_blocks; [done | by apply digits_ok_slice | by apply digits_ok_slice | by apply digits_ok_slice | rewrite L1; apply Hl | by rewrite L2 | by rewrite L4, L1, L2]|].
    intros mo p' (Hle & Hlo & Ho & Hv). apply wpP_bind, wpP_should_terminate, wpP_ret. split_and!; [done | |].
    { intros _. destruct (status_ p'); by cbn. }
    exists mo. split_and!; [done | congruence | done|]. intros Hok. rewrite block_split, mprod_app, <- V1, <- V2. apply Hv.
    by destruct (status_ p').
Qed.

Lemma large_pair_spec mults l j new_parts parts p :
  let start := (2 * j * l)%nat in
  steady p -> buffer new_parts -> buffer parts -> buffer mults -> (0 < l <= L)%nat -> (start + l < length Q)%nat ->
  val (slice parts start l) = horner (slice Q start l) ->
  val (slice parts (start + l) l) = horner (slice Q (start + l) l) ->
  blocks_ok mults l mprod 1 (2 * j + 2) ->
  ((1 < j)%nat -> val (slice parts (start - l * 2) (l * 2)) = mprod (slice Q (start - l * 2) (l * 2))) ->
  ((1 < j)%nat -> (length Q < start + l * 2)%nat -> mprod (slice Q (start + l) l) <> mprod (slice Q (start - l) l)) ->
  wpP (large_pair mults l (2 * j) new_parts parts) p (fun '(ok, new_parts', parts') p' =>
    status_le p p' /\ buffer new_parts' /\ buffer parts' /\
    (ok = false -> status_ p' = kInterrupted) /\
    (ok = true -> status_ p' = kOk /\ pair_done new_parts parts new_parts' parts' start l j)).
Proof.
  intros start Hst Hn Hp Hm Hl Hs V1 V2 HM Hprev Hclip. unfold large_pair. fold start.
  assert (val (slice mults (start + l) l) = mprod (slice Q (start + l) l)) as VM.
  { replace (start + l)%nat with ((2 * j + 1) * l)%nat by (unfold start; lia). apply HM. lia. }
  apply wpP_bind. eapply wpP_mono; [by apply (pair_part new_parts parts mults start l p _ _ Hst Hn Hp Hm Hl Hs V1 V2 VM)|].
  intros po p1 (Hle & Hlo & Ho & Hsum). apply wpP_bind, wpP_should_terminate.
  assert (start + ((l * 2) `min` (length Q - start)) <= length Q)%nat as Hfit by (clear - Hs; lia).
  destruct (status_ p1) eqn:Es1.
  2: { rewrite bool_decide_true by done. apply wpP_ret. split_and!; try done. apply buffer_splice; [done | done | by rewrite Hlo]. }
  rewrite bool_decide_false by done. apply wpP_bind, wpP_lift. eapply wp_mono; [by apply Hsum|].
  intros [po2 c] (-> & Hlo2 & Ho2 & Vo2). apply wpP_bind, wpP_lift, wp_dcheck; [done|].
  rewrite <- block_split in Vo2. rewrite Hlo in Hlo2.
  assert (buffer (splice new_parts start po2)) as Hb2 by (apply buffer_splice; [done | done | by rewrite Hlo2]).
  case_bool_decide as Hj.
  - apply wpP_bind. eapply wpP_mono; [apply (large_multiplier_spec mults l j parts p1); try done; [by eapply steady_le | lia]|].
    intros [ok parts'] p2 (Hle2 & Hiff & mo & -> & Hlmo & Hmo & Vmo). apply wpP_ret.
    split_and!; [by eapply status_le_trans | done | apply buffer_splice; [done | done | by rewrite Hlmo] | |].
    + intros ->. specialize (Hiff Es1). destruct (status_ p2); [|done]. by destruct Hiff as [_ ?%(fun f => f eq_refl)].
    + intros ->. split; [by apply Hiff|]. exists po2, mo. split_and!; try done. right. split_and!; try done; [lia | by apply Vmo].
  - apply wpP_ret. split_and!; try done. intros _. split; [done|]. exists po2, []. split_and!; try done. left. split; [lia | done].
Qed.

(** A last block that is shorter than the others has a smaller multiplier. *)
Context (Hclip : forall a b l, (a + l < length Q)%nat -> (b < length Q)%nat -> (length Q < b + l)%nat ->
  mprod (slice Q b l) < mprod (slice Q a l)).

(** The state of an iteration over [n] parts of length [l] after [j] pairs. *)
Record pairs_inv (l n j : nat) (new_parts parts : digits) : Prop := {
  pi_new : buffer new_parts;
  pi_parts : buffer parts;
  pi_new_blocks : blocks_ok new_parts (l * 2) horner 0 j;
  pi_mult_blocks : blocks_ok parts (l * 2) mprod 1 j;
  pi_part_blocks : blocks_ok parts l horner (2 * j) n;
}.

Lemma block_start j l : (2 * j * l = j * (l * 2))%nat.
Proof. lia. Qed.

Lemma blocks_before X l f lo j off v :
  blocks_ok X l f lo j -> (j * l <= off)%nat -> (off + length v <= length X)%nat -> blocks_ok (splice X off v) l f lo j.
Proof.
  intros HX Hoff Hl k Hk. rewrite slice_splice_other; [by apply HX | done|]. left.
  assert (k * l + l <= j * l)%nat; [|lia]. replace (k * l + l)%nat with (S k * l)%nat by lia. apply Nat.mul_le_mono_r. lia.
Qed.

Lemma blocks_snoc X l f lo j v :
  blocks_ok X l f lo j -> (j * l + length v <= length X)%nat -> length v = (l `min` (length X - j * l))%nat ->
  val v = f (slice Q (j * l) l) -> blocks_ok (splice X (j * l) v) l f lo (S j).
Proof.
  intros HX Hl Hlv Hv k Hk. destruct (decide (k = j)) as [-> | Hne].
  - by rewrite slice_splice_block.
  - apply (blocks_before X l f lo j); (done || lia).
Qed.

Lemma pairs_inv_step l n j new_parts parts new_parts' parts' :
  (0 < l)%nat -> (j * (l * 2) < length Q)%nat -> pairs_inv l n j new_parts parts -> buffer new_parts' -> buffer parts' ->
  pair_done new_parts parts new_parts' parts' (2 * j * l) l j -> pairs_inv l n (S j) new_parts' parts'.
Proof.
  intros Hl Hs [[Hln Hn] [Hlp Hp] Hnb Hmb Hpb] Hbn Hbp (po & mo & -> & Hlpo & Hpo & Vpo & Hcase). rewrite block_start in *.
  assert (j * (l * 2) + length po <= length new_parts)%nat as Hfit by (rewrite Hlpo, Hln; clear - Hs; lia).
  split; [done | done | | |].
  - apply blocks_snoc; [done | done | by rewrite Hlpo, Hln | done].
  - destruct Hcase as [(-> & ->) | (Hj & -> & Hlmo & Hmo & Vmo)].
    + intros k Hk. lia.
    + apply blocks_snoc; [done | rewrite Hlmo, Hlp; clear - Hs; lia | by rewrite Hlmo, Hlp | done].
  - destruct Hcase as [(-> & ->) | (Hj & -> & Hlmo & Hmo & Vmo)].
    + intros k Hk. apply Hpb. lia.
    + intros k Hk. rewrite slice_splice_other; [apply Hpb; lia | rewrite Hlmo, Hlp; clear - Hs; lia|]. right. rewrite Hlmo.
      assert (j * (l * 2) + l * 2 <= k * l)%nat; [|lia].
      replace (j * (l * 2) + l * 2)%nat with ((2 * S j) * l)%nat by lia. apply Nat.mul_le_mono_r. lia.
Qed.

Lemma large_pairs_spec mults l n pairs j new_parts parts p :
  steady p -> buffer mults -> (0 < l <= L)%nat -> ((n - 1) * l < length Q)%nat -> (2 * (j + pairs) <= n)%nat ->
  blocks_ok mults l mprod 1 n -> pairs_inv l n j new_parts parts -> (pairs = 0%nat -> status_ p = kOk) ->
  wpP (large_pairs pairs j mults l new_parts parts) p (fun '(ok, new_parts', parts') p' =>
    status_le p p' /\ buffer new_parts' /\ buffer parts' /\ (ok = false -> status_ p' = kInterrupted) /\
    (ok = true -> status_ p' = kOk /\ pairs_inv l n (j + pairs) new_parts' parts')).
Proof.
  intros Hst Hm Hl Hn. revert j new_parts parts p Hst.
  induction pairs as [|pairs IH]; intros j new_parts parts p Hst Hjn HM Hinv Hp0; cbn [large_pairs].
  - apply wpP_ret. rewrite Nat.add_0_r. split_and!; try done; [apply status_le_refl | apply Hinv | apply Hinv|].
    intros _. split; [by apply Hp0 | done].
  - assert ((2 * j + 1) * l <= (n - 1) * l)%nat as Hle1 by (apply Nat.mul_le_mono_r; lia).
    assert (2 * j * l + l < length Q)%nat as Hs1 by lia.
    apply wpP_bind. eapply wpP_mono; [apply (large_pair_spec mults l j new_parts parts p Hst)|].
    + apply Hinv.
    + apply Hinv.
    + done.
    + done.
    + done.
    + apply (pi_part_blocks _ _ _ _ _ Hinv). lia.
    + replace (2 * j * l + l)%nat with ((2 * j + 1) * l)%nat by lia. apply (pi_part_blocks _ _ _ _ _ Hinv). lia.
    + intros k Hk. apply HM. lia.
    + intros Hj. replace (2 * j * l - l * 2)%nat with ((j - 1) * (l * 2))%nat by (rewrite Nat.mul_sub_distr_r; lia).
      apply (pi_mult_blocks _ _ _ _ _ Hinv). lia.
    + intros Hj Hlt. apply Z.lt_neq, Hclip; [| lia | lia].
      assert (1 * l <= 2 * j * l)%nat by (apply Nat.mul_le_mono_r; lia). lia.
    + intros [[ok np'] ps'] p' (Hle & Hbn & Hbp & Hbad & Hgood). destruct ok; cbn [negb].
      2: { apply wpP_ret. split_and!; try done. }
      destruct (Hgood eq_refl) as [Hok Hdone].
      eapply wpP_mono; [apply (IH (S j)); [by eapply steady_le | lia | done | | done]|].
      * apply (pairs_inv_step l n j new_parts parts); try (done || lia).
      * intros [[ok np''] ps''] p'' (Hle' & Hbn' & Hbp' & Hbad' & Hgood').
        split_and!; try done; [by eapply status_le_trans|].
        by replace (j + S pairs)%nat with (S j + pairs)%nat by lia.
Qed.

Lemma copy_part_same out X : digits_ok X -> length out = length X -> wp (copy_part out X) (fun out' => out' = X).
Proof.
  intros HX Hl. unfold copy_part. apply wp_bind. eapply wp_mono; [by apply copy_block_spec|]. intros [o []] ->.
  rewrite <- (app_nil_r X) at 2. apply wp_zero_from; [done|]. by rewrite app_nil_r.
Qed.

(** The three buffers between two iterations: [n] parts of length [l] with their multipliers. *)
Record rounds_inv (b : buffers) (n l : nat) : Prop := {
  ri_parts : buffer (b_parts b);
  ri_mults : buffer (b_multipliers b);
  ri_temp : buffer (b_temp b);
  ri_len : (0 < l)%nat;
  ri_low : ((n - 1) * l < length Q)%nat;
  ri_high : (length Q <= n * l)%nat;
  ri_part_blocks : blocks_ok (b_parts b) l horner 0 n;
  ri_mult_blocks : blocks_ok (b_multipliers b) l mprod 1 n;
}.

Lemma slice_clipped l o k : (length Q <= o + l)%nat -> (length Q <= o + k)%nat -> slice Q o l = slice Q o k.
Proof. intros Hl Hk. rewrite (slice_clip Q o l), (slice_clip Q o k). f_equal. lia. Qed.

(** The end of an iteration over an odd number of parts: the last one is copied. *)
Lemma trailing_part l h new_parts parts mults :
  let n := S (2 * h) in let start := (2 * h * l)%nat in
  (0 < l)%nat -> (start < length Q)%nat -> (length Q <= n * l)%nat -> (0 < h)%nat -> buffer mults ->
  blocks_ok mults l mprod 1 n -> pairs_inv l n h new_parts parts ->
  wp (copy_part (Digits_slice new_parts start (l * 2)) (Digits_slice parts start l)) (fun po =>
    wp (copy_part (Digits_slice parts start (l * 2)) (Digits_slice mults start l)) (fun mo =>
      rounds_inv (mkBuffers (splice new_parts start po) (splice parts start mo) mults) (S h) (l * 2))).
Proof.
  intros n start Hl Hs Hn Hh [Hlm Hm] HM [[Hln Hnp] [Hlp Hp] Hnb Hmb Hpb]. unfold Digits_slice.
  assert (start = h * (l * 2))%nat as Est by (unfold start; lia).
  assert (length Q <= start + l)%nat as Hend by (unfold n in Hn; unfold start; lia).
  assert (val (slice parts start l) = horner (slice Q start l)) as V1 by (apply (Hpb (2 * h)%nat); lia).
  assert (val (slice mults start l) = mprod (slice Q start l)) as V2 by (apply (HM (2 * h)%nat); lia).
  rewrite (slice_clipped l start (l * 2)) in V1 by lia. rewrite (slice_clipped l start (l * 2)) in V2 by lia.
  assert (length (slice parts start l) = length Q - start)%nat as L1 by (rewrite length_slice; lia).
  assert (length (slice mults start l) = length Q - start)%nat as L2 by (rewrite length_slice; lia).
  clearbody start. subst n.
  eapply wp_mono; [apply copy_part_same; [by apply digits_ok_slice | rewrite L1, length_slice; lia]|]. intros po ->.
  eapply wp_mono; [apply copy_part_same; [by apply digits_ok_slice | rewrite L2, length_slice; lia]|]. intros mo ->.
  split; cbn [b_parts b_multipliers b_temp].
  - apply buffer_splice; [done | by apply digits_ok_slice | lia].
  - apply buffer_splice; [done | by apply digits_ok_slice | lia].
  - done.
  - lia.
  - lia.
  - lia.
  - rewrite Est in *. apply blocks_snoc; [done | lia | lia | done].
  - rewrite Est in *. apply blocks_snoc; [done | lia | lia | done].
Qed.

(** The loop terminates within [n] iterations and leaves the value of the input in the parts. *)
Lemma large_rounds_spec fuel b n l round p :
  steady p -> (n < fuel)%nat -> (0 < n)%nat -> (length Q <= L)%nat -> rounds_inv b n l ->
  wpP (large_rounds fuel b n l round) p (fun '(ok, b', _) p' =>
    status_le p p' /\ buffer (b_parts b') /\ buffer (b_multipliers b') /\ buffer (b_temp b') /\
    (ok = false -> status_ p' = kInterrupted) /\ (ok = true -> val (b_parts b') = horner Q)).
Proof.
  intros Hst Hf Hn HL. revert b n l round p Hst Hf Hn.
  induction fuel as [|fuel IH]; intros b n l round p Hst Hf Hn Hinv; [lia|]. cbn [large_rounds].
  pose proof Hinv as [Hbp Hbm Hbt Hl Hlow Hhigh Hpb Hmb].
  case_bool_decide as Hn1.
  { apply wpP_ret. split_and!; try done; [apply status_le_refl|]. intros _. assert (n = 1)%nat as -> by lia.
    specialize (Hpb 0%nat ltac:(lia)). unfold slice in Hpb. rewrite Nat.mul_0_l, !drop_0 in Hpb.
    destruct Hbp as [Hbl _]. rewrite Nat.mul_1_l in Hhigh. rewrite !take_ge in Hpb; [done | done | by rewrite Hbl]. }
  assert (n = 2 * Nat.div2 n + Nat.b2n (Nat.odd n))%nat as Edn by apply Nat.div2_odd.
  set (h := Nat.div2 n) in *.
  assert (1 * l <= (n - 1) * l)%nat as HlQ by (apply Nat.mul_le_mono_r; lia).
  assert (Nat.b2n (Nat.odd n) <= 1)%nat by (destruct (Nat.odd n); cbn; lia).
  apply wpP_bind. eapply wpP_mono; [apply (large_pairs_spec (b_multipliers b) l n h 0 (b_temp b) (b_parts b) p Hst); try (done || lia)|].
  { split; try done. intros k Hk. lia. intros k Hk. lia. }
  intros [[ok np] nm] p' (Hle & Hnp & Hnm & Hbad & Hgood). destruct ok; cbn [negb].
  2: { apply wpP_ret. split_and!; try done. }
  destruct (Hgood eq_refl) as [Hok Hpi]. rewrite Nat.add_0_l in Hpi.
  assert (steady p') as Hst' by (by eapply steady_le).
  case_bool_decide as Hodd.
  - assert (n = S (2 * h))%nat as En by lia. rewrite En in Hlow, Hhigh, Hmb, Hpi.
    replace (S (2 * h) - 1)%nat with (2 * h)%nat in Hlow by lia.
    pose proof (trailing_part l h np nm (b_multipliers b) Hl Hlow Hhigh ltac:(lia) Hbm Hmb Hpi) as Ht.
    apply wpP_bind, wpP_lift. eapply wp_mono; [exact Ht|]. clear Ht. intros po Hpo. cbn beta in Hpo.
    apply wpP_bind, wpP_lift. eapply wp_mono; [exact Hpo|]. clear Hpo. intros mo Hmo. cbn beta in Hmo.
    eapply wpP_mono; [apply IH; [done | lia | lia | exact Hmo]|].
    intros [[ok b'] r] p'' (Hle' & HH). split; [by eapply status_le_trans | exact HH].
  - assert (n = 2 * h)%nat as En by lia. destruct Hpi as [Hb1 Hb2 Hb3 Hb4 Hb5].
    eapply wpP_mono; [apply IH; [done | lia | lia |]|].
    + split; cbn [b_parts b_multipliers b_temp]; try done; [lia | | rewrite En in Hhigh; lia].
      assert ((h - 1) * (l * 2) <= (n - 1) * l)%nat; [|lia].
      replace ((h - 1) * (l * 2))%nat with ((2 * (h - 1)) * l)%nat by lia. apply Nat.mul_le_mono_r. lia.
    + intros [[ok b'] r] p'' (Hle' & HH). split; [by eapply status_le_trans | exact HH].
Qed.
End from_string_large.

(** ** The first iteration *)

Section first_iteration.
Context `{Config, Platform}.
Context {alloc : Allocator}.
Context {fft : FftMultiplier}.
Context (parts0 : digits) (M Lm : Z).
Context (Hparts0 : digits_ok parts0) (HM : 1 < M < digit_base) (HLm : 0 < Lm <= M).

(** Every part but the last has the multiplier [M]. *)
Definition with_multipliers : list (Z * Z) := zip parts0 (replicate (length parts0 - 1) M ++ [Lm]).

Abbreviation N := (length parts0).
Abbreviation Q := with_multipliers.
Abbreviation buffer := (buffer with_multipliers).
Abbreviation blocks_ok := (blocks_ok with_multipliers).

Lemma length_Q : (0 < N)%nat -> length Q = N.
Proof. intros Hn. unfold with_multipliers. rewrite length_zip, length_app, length_replicate. cbn [length]. lia. Qed.

Lemma lookup_Q k p : parts0 !! k = Some p -> Q !! k = Some (p, if decide (S k = N) then Lm else M).
Proof.
  intros Hp. pose proof (lookup_lt_Some _ _ _ Hp). unfold with_multipliers. rewrite lookup_zip_with_Some.
  eexists _, _. split_and!; [done | done|]. destruct (decide (S k = N)) as [E | Hne].
  - replace k with (length (replicate (N - 1) M)) by (rewrite length_replicate; lia). by rewrite list_lookup_middle.
  - rewrite lookup_app_l by (rewrite length_replicate; lia). apply lookup_replicate. split; [done | lia].
Qed.

Lemma slice_0 {A} (X : list A) k : slice X k 0 = [].
Proof. done. Qed.

(** The multipliers of a block. *)
Lemma mprod_full a n : (a + n < N)%nat -> mprod (slice Q a n) = M ^ Z.of_nat n.
Proof.
  revert a. induction n as [|n IH]; intros a Ha; [done|].
  destruct (lookup_lt_is_Some_2 parts0 a) as [p Hp]; [lia|].
  rewrite (slice_cons _ _ _ _ (lookup_Q _ _ Hp)), decide_False by lia.
  change ((p, M) :: slice Q (S a) n) with ([(p, M)] ++ slice Q (S a) n). rewrite mprod_app, IH by lia.
  unfold mprod. cbn [fold_left]. rewrite Nat2Z.inj_succ, Z.pow_succ_r; lia.
Qed.

Lemma mprod_last b : (b < N)%nat -> mprod (slice Q b (N - b)) = M ^ Z.of_nat (N - b - 1) * Lm.
Proof.
  intros Hb. destruct (lookup_lt_is_Some_2 parts0 (N - 1)) as [p Hp]; [lia|].
  replace (N - b)%nat with ((N - b - 1) + 1)%nat at 1 by lia. rewrite slice_split, mprod_app, mprod_full by lia. f_equal.
  replace (b + (N - b - 1))%nat with (N - 1)%nat by lia.
  rewrite (slice_cons _ _ _ _ (lookup_Q _ _ Hp)), slice_0, decide_True by lia. unfold mprod. cbn [fold_left]. lia.
Qed.

Lemma multipliers_clip a b l : (a + l < length Q)%nat -> (b < length Q)%nat -> (length Q < b + l)%nat ->
  mprod (slice Q b l) < mprod (slice Q a l).
Proof.
  intros Ha Hb Hl. assert (0 < N)%nat as HN.
  { unfold with_multipliers in Hb. rewrite length_zip in Hb. lia. }
  rewrite length_Q in * by done. rewrite (mprod_full a) by done.
  rewrite slice_clip. rewrite length_Q by done. replace (l `min` (N - b))%nat with (N - b)%nat by lia.
  rewrite mprod_last by done.
  assert (M ^ Z.of_nat (N - b - 1) * Lm <= M ^ Z.of_nat (N - b)).
  { replace (Z.of_nat (N - b)) with (Z.succ (Z.of_nat (N - b - 1))) by lia. rewrite Z.pow_succ_r by lia.
    pose proof (Z.pow_pos_nonneg M (Z.of_nat (N - b - 1))). nia. }
  assert (M ^ Z.of_nat (N - b) < M ^ Z.of_nat l) by (apply Z.pow_lt_mono_r; lia). lia.
Qed.

Lemma insert_two (X : digits) i a b : (S i < length X)%nat -> <[(i + 1)%nat := b]> (<[i := a]> X) = splice X i [a; b].
Proof.
  intros Hi. apply list_eq. intros k. rewrite lookup_splice by (cbn; lia). cbn [length].
  destruct (decide (k = (i + 1)%nat)) as [-> | Hk].
  { rewrite list_lookup_insert_eq by (rewrite length_insert; lia). rewrite decide_True by lia. by replace (i + 1 - i)%nat with 1%nat by lia. }
  rewrite list_lookup_insert_ne by lia. destruct (decide (k = i)) as [-> | Hk'].
  { rewrite list_lookup_insert_eq by lia. rewrite decide_True by lia. by rewrite Nat.sub_diag. }
  rewrite list_lookup_insert_ne by lia. by rewrite decide_False by lia.
Qed.

Lemma val_block1 (X : digits) k x : X !! k = Some x -> val (slice X (k * 1) 1) = x.
Proof. intros E. rewrite Nat.mul_1_r, (slice_cons _ _ _ _ E), slice_0. cbn [val]. lia. Qed.

(** The parts that are not yet combined are those of the input. *)
Lemma unread_part l j parts k x :
  blocks_ok parts 1 horner j l -> (j <= k < l)%nat -> (l <= N)%nat -> parts !! k = Some x -> parts0 !! k = Some x.
Proof.
  intros Hb Hk Hl Hx. specialize (Hb k Hk). rewrite (val_block1 _ _ _ Hx) in Hb.
  destruct (lookup_lt_is_Some_2 parts0 k) as [p Hp]; [lia|]. rewrite Hp. f_equal. rewrite Hb.
  rewrite Nat.mul_1_r, (slice_cons _ _ _ _ (lookup_Q _ _ Hp)), slice_0. unfold horner. cbn [fold_left]. lia.
Qed.

Lemma digits_ok_pair a b : is_digit a -> is_digit b -> digits_ok [a; b].
Proof. intros Ha Hb. apply Forall_cons_2; [done | by apply Forall_singleton]. Qed.

(** Two digits of a product, with a carry into the upper one. *)
Lemma product_digits a m b :
  is_digit a -> is_digit m -> is_digit b ->
  let '(low, high) := digit_mul a m in let '(r, c) := digit_add2 low b in
  is_digit r /\ is_digit (wrap (high + c)) /\ val [r; wrap (high + c)] = a * m + b.
Proof.
  intros Ha Hm Hb. destruct (digit_mul_spec a m Ha Hm) as (low & high & -> & E1 & Hlow & Hhigh).
  destruct (digit_add2_spec low b Hlow Hb) as (r & c & -> & E2 & Hr & Hc).
  assert (is_digit (high + c)) as Hs by (unfold is_digit in *; nia).
  rewrite wrap_small by done. split_and!; [done | done|]. cbn [val]. lia.
Qed.

Lemma large_first_pair_spec j new_parts parts :
  (2 * j + 1 < N)%nat -> pairs_inv Q 1 N j new_parts parts ->
  wp (large_first_pair N M Lm j (new_parts, parts)) (fun '(np, ps) => pairs_inv Q 1 N (S j) np ps).
Proof.
  intros Hj Hinv. assert (length Q = N) as HlQ by (apply length_Q; lia).
  pose proof Hinv as [[Hln Hn] [Hlp Hp] Hnb Hmb Hpb]. rewrite HlQ in Hln, Hlp.
  unfold large_first_pair. apply wp_bind, wp_rd; [lia | done|]. intros a Ha Hda.
  apply wp_bind, wp_rd; [lia | done|]. intros b Hb Hdb.
  apply (unread_part N (2 * j)) in Ha; [|done | lia | lia]. apply (unread_part N (2 * j)) in Hb; [|done | lia | lia].
  set (m2 := if bool_decide (2 * j = N - 2)%nat then Lm else M).
  assert (slice Q (2 * j * 1) (1 * 2) = [(a, M); (b, m2)]) as Esl.
  { change (1 * 2)%nat with 2%nat. rewrite Nat.mul_1_r, (slice_cons _ _ _ _ (lookup_Q _ _ Ha)).
    rewrite <- Nat.add_1_r, (slice_cons _ _ _ _ (lookup_Q _ _ Hb)), slice_0, decide_False by lia. unfold m2.
    case_bool_decide; [rewrite decide_True by lia | rewrite decide_False by lia]; done. }
  assert (0 < m2 <= M) as Hm2 by (unfold m2; case_bool_decide; lia).
  pose proof (product_digits a m2 b Hda ltac:(unfold is_digit; lia) Hdb) as Hprod.
  destruct (digit_mul a m2) as [low high], (digit_add2 low b) as [r c]. destruct Hprod as (Hr & Hh & Ev).
  apply wp_bind, wp_wr; [lia|]. apply wp_bind, wp_wr; [rewrite length_insert; lia|]. rewrite insert_two by lia.
  assert (length [r; wrap (high + c)] = ((1 * 2) `min` (length Q - 2 * j * 1))%nat) as El by (cbn [length]; lia).
  assert (forall np ps mo, np = splice new_parts (2 * j) [r; wrap (high + c)] -> 
    (j = 0%nat /\ ps = parts \/ (0 < j)%nat /\ ps = splice parts (2 * j) mo /\ length mo = 2%nat /\ digits_ok mo /\ val mo = M * m2) ->
    pairs_inv Q 1 N (S j) np ps) as Hstep.
  { intros np ps mo -> Hps. apply (pairs_inv_step Q 1 N j new_parts parts); [lia | lia | done | | |].
    - apply buffer_splice; [by split; [lia|] | by apply digits_ok_pair | cbn; lia].
    - destruct Hps as [(_ & ->) | (_ & -> & Hlmo & Hmo & _)]; [by split; [lia|]|].
      apply buffer_splice; [by split; [lia|] | done | lia].
    - exists [r; wrap (high + c)], mo. rewrite !Nat.mul_1_r in *. split_and!; [done | exact El | by apply digits_ok_pair | |].
      + rewrite Esl, Ev. unfold horner. cbn [fold_left]. lia.
      + destruct Hps as [? | (? & -> & Hlmo & Hmo & Vmo)]; [by left | right]. split_and!; try done; [lia|].
        rewrite Esl, Vmo. unfold mprod. cbn [fold_left]. lia. }
  case_bool_decide as Hj0; [|apply wp_ret, (Hstep _ _ []); [done | left; split; [lia | done]]].
  assert (let '(m_low, m_high) := digit_mul M m2 in wp (parts ← wr parts (2 * j) m_low; parts ← wr parts (2 * j + 1) m_high;
      mret (splice new_parts (2 * j) [r; wrap (high + c)], parts)) (fun '(np, ps) => pairs_inv Q 1 N (S j) np ps)) as Hmul.
  { destruct (digit_mul_spec M m2) as (ml & mh & -> & Em & Hml & Hmh); [unfold is_digit; lia | unfold is_digit; lia|].
    apply wp_bind, wp_wr; [lia|]. apply wp_bind, wp_wr; [rewrite length_insert; lia|]. rewrite insert_two by lia.
    apply wp_ret, (Hstep _ _ [ml; mh]); [done|]. right. split_and!; [lia | done | done | by apply digits_ok_pair|].
    cbn [val]. lia. }
  case_bool_decide as Hj1; cbn [andb].
  - destruct (Z.eqb_spec m2 Lm) as [EmL | NmL]; cbn [negb].
    2: { assert (m2 = M) as Em2 by (unfold m2 in *; by case_bool_decide).
      apply wp_bind, wp_rd; [lia | done|]. intros m0 Em0 Hm0. apply wp_bind, wp_wr; [lia|].
      apply wp_bind, wp_rd; [rewrite length_insert; lia | by apply Forall_insert |]. intros m1 Em1 Hm1.
      rewrite list_lookup_insert_ne in Em1 by lia.
      apply wp_bind, wp_wr; [rewrite length_insert; lia|]. rewrite insert_two by lia. apply wp_ret, (Hstep _ _ [m0; m1]); [done|].
      right. split_and!; [lia | done | done | by apply digits_ok_pair|]. 
      specialize (Hmb (j - 1)%nat ltac:(lia)). change (1 * 2)%nat with 2%nat in Hmb. rewrite mprod_full in Hmb by lia.
      replace ((j - 1) * 2)%nat with (2 * j - 2)%nat in Hmb by lia. rewrite (slice_cons _ _ _ _ Em0) in Hmb.
      replace (S (2 * j - 2)) with (2 * j - 1)%nat in Hmb by lia. rewrite (slice_cons _ _ _ _ Em1), slice_0 in Hmb.
      rewrite Hmb, Em2. change (Z.of_nat 2) with 2. lia. }
    by destruct (digit_mul M m2).
  - by destruct (digit_mul M m2).
Qed.

Lemma buffer_ok X : (0 < N)%nat -> length X = N -> digits_ok X -> buffer X.
Proof. intros Hn Hl HX. split; [by rewrite length_Q|done]. Qed.

Lemma large_first_spec b :
  (2 <= N)%nat -> b_parts b = parts0 -> buffer (b_multipliers b) -> buffer (b_temp b) ->
  wp (large_first b N M Lm) (fun '(b', n) => (0 < n <= N)%nat /\ rounds_inv Q b' n 2).
Proof.
  intros HN Eb Hbm Hbt. assert (length Q = N) as HlQ by (apply length_Q; lia).
  assert (N = 2 * Nat.div2 N + Nat.b2n (Nat.odd N))%nat as Edn by apply Nat.div2_odd.
  assert (Nat.b2n (Nat.odd N) <= 1)%nat by (destruct (Nat.odd N); cbn; lia).
  unfold large_first. set (h := Nat.div2 N) in *. apply wp_bind.
  eapply wp_mono; [apply (wp_for_loop (fun j '(np, ps) => pairs_inv Q 1 N j np ps))|].
  { rewrite Eb. split; [done | by apply buffer_ok; [lia|..] | intros k Hk; lia | intros k Hk; lia|].
    intros k Hk. destruct (lookup_lt_is_Some_2 parts0 k) as [x Hx]; [lia|]. rewrite (val_block1 _ _ _ Hx).
    rewrite Nat.mul_1_r, (slice_cons _ _ _ _ (lookup_Q _ _ Hx)), slice_0. unfold horner. cbn [fold_left]. lia. }
  { intros k [np ps] Hk Hinv. apply large_first_pair_spec; [lia | done]. }
  intros [np ps]. rewrite Nat.add_0_l. intros [[Hln Hn] [Hlp Hp] Hnb Hmb Hpb]. rewrite HlQ in Hln, Hlp.
  case_bool_decide as Hodd.
  - assert (N = S (2 * h)) as En by lia.
    apply wp_bind, wp_rd; [lia | done|]. intros x Hx Hdx.
    assert (parts0 !! (2 * h)%nat = Some x) as Hx0 by (apply (unread_part N (2 * h) ps); (done || lia)).
    apply wp_bind, wp_wr; [lia|]. apply wp_bind, wp_wr; [lia|].
    assert (forall (X : digits) y, length X = N -> <[(2 * h)%nat := y]> X = splice X (2 * h) [y]) as Hins.
    { intros X y HlX. unfold splice. rewrite insert_take_drop by lia. do 3 f_equal. cbn [length]. lia. }
    rewrite !Hins by done. apply wp_ret.
    assert (slice Q (h * (1 * 2)) (1 * 2) = [(x, Lm)]) as Esl.
    { replace (h * (1 * 2))%nat with (2 * h)%nat by lia. change (1 * 2)%nat with 2%nat. rewrite (slice_cons _ _ _ _ (lookup_Q _ _ Hx0)), decide_True by lia.
      f_equal. unfold slice. by rewrite drop_ge by lia. }
    assert (is_digit Lm) as HdL by (unfold is_digit; lia).
    split; [lia|]. split; cbn [b_parts b_multipliers b_temp].
    + apply buffer_splice; [by split; [lia|] | by apply Forall_singleton | cbn; lia].
    + apply buffer_splice; [by split; [lia|] | by apply Forall_singleton | cbn; lia].
    + done.
    + lia.
    + lia.
    + lia.
    + change 2%nat with (1 * 2)%nat at 2. replace (2 * h)%nat with (h * (1 * 2))%nat by lia.
      apply blocks_snoc; [done | cbn [length]; lia | cbn [length]; lia|]. rewrite Esl. unfold horner. cbn [val fold_left]. lia.
    + change 2%nat with (1 * 2)%nat at 2. replace (2 * h)%nat with (h * (1 * 2))%nat by lia.
      apply blocks_snoc; [done | cbn [length]; lia | cbn [length]; lia|]. rewrite Esl. unfold mprod. cbn [val fold_left]. lia.
  - apply wp_ret. split; [lia|]. split; cbn [b_parts b_multipliers b_temp]; try (done || lia); by split; [lia|].
Qed.

Lemma horner_numeral P : horner (zip P (replicate (length P) M)) = numeral M P.
Proof.
  unfold horner, numeral. generalize 0. induction P as [|p P IH]; intros v; [done|].
  cbn [length replicate zip zip_with fold_left]. apply IH.
Qed.

Lemma horner_value P p : parts0 = P ++ [p] -> horner Q = numeral M P * Lm + p.
Proof.
  intros E. unfold with_multipliers. rewrite E, length_app. cbn [length]. rewrite Nat.add_sub.
  rewrite zip_with_app by (by rewrite length_replicate). rewrite horner_app, horner_numeral.
  unfold mprod, horner. cbn [zip zip_with fold_left]. lia.
Qed.
End first_iteration.

(** ** The whole algorithm *)

Section large_spec.
Context `{Config, Platform}.
Context {alloc : Allocator}.
Context {fft : FftMultiplier}.
Context (L : nat) `{HMul : !Multiplier L}.

(** The last step: the parts are in [Z], or are copied there. *)
Lemma large_finish Zd b ok round v p p' :
  length (b_parts b) = length Zd -> digits_ok (b_parts b) -> length (b_multipliers b) = length Zd -> digits_ok (b_multipliers b) ->
  length (b_temp b) = length Zd -> digits_ok (b_temp b) -> status_le p p' ->
  (ok = false -> status_ p' = kInterrupted) -> (ok = true -> val (b_parts b) = v) ->
  wpP (match Nat.modulo round 3 with
       | 1%nat => mret (splice Zd 0 (b_parts b))
       | 2%nat => let Zd := splice Zd 0 (b_multipliers b) in if negb ok then mret Zd else lift (copy_part Zd (b_parts b))
       | _ => let Zd := splice Zd 0 (b_temp b) in if negb ok then mret Zd else lift (copy_part Zd (b_parts b))
       end) p' (fun Z' p'' => status_le p p'' /\ length Z' = length Zd /\ digits_ok Z' /\ (status_ p'' = kOk -> val Z' = v)).
Proof.
  intros Hlp Hp Hlm Hm Hlt Ht Hle Hbad Hgood.
  assert (forall X, length X = length Zd -> splice Zd 0 X = X) as Hsp.
  { intros X HlX. unfold splice. cbn [take app]. rewrite drop_ge by lia. apply app_nil_r. }
  assert (status_ p' = kOk -> ok = true) as Hok by (intros Hs; destruct ok; [done|]; by rewrite (Hbad eq_refl) in Hs).
  assert (forall X, length X = length Zd -> digits_ok X ->
    wpP (if negb ok then mret X else lift (copy_part X (b_parts b))) p'
      (fun Z' p'' => status_le p p'' /\ length Z' = length Zd /\ digits_ok Z' /\ (status_ p'' = kOk -> val Z' = v))) as Hcopy.
  { intros X HlX HX. destruct ok; cbn [negb].
    - apply wpP_lift. eapply wp_mono; [apply copy_part_spec; [done | lia]|]. intros Z' (HlZ' & HZ' & Vz).
      split_and!; [done | lia | done|]. intros _. rewrite Vz. by apply Hgood.
    - apply wpP_ret. split_and!; try done. intros Hs. by specialize (Hok Hs). }
  cbv zeta. rewrite !Hsp by done.
  destruct (Nat.modulo round 3) as [|[|[|?]]]; try by apply Hcopy. apply wpP_ret. split_and!; try done. intros Hs. by apply Hgood, Hok.
Qed.

(** With a result of the length that was asked for, the digits are the value of the parts
    unless an interrupt was requested. *)
Lemma FromStringLarge_spec Zd acc v p :
  acc_ok acc -> acc_value acc v -> heap_parts_ acc <> [] -> digits_ok Zd -> length Zd = ResultLength acc ->
  (length Zd <= L)%nat -> steady p ->
  wpP (FromStringLarge Zd acc) p (fun Z' p' => status_le p p' /\ length Z' = length Zd /\ digits_ok Z' /\
    (status_ p' = kOk -> val Z' = v)).
Proof.
  intros Ha (P & q & Eparts & -> & HM & HL) Hheap HZ Hl HlL Hst.
  assert (acc_parts acc = heap_parts_ acc) as Eheap.
  { unfold acc_parts. rewrite bool_decide_false; [done|]. intros ?%nil_length_inv. done. }
  rewrite Eheap in Eparts. rewrite <- (length_acc_parts acc Ha), Eheap in Hl.
  assert (P <> [] /\ 2 <= length (heap_parts_ acc))%nat as [HneP HN].
  { destruct (ao_heap acc Ha) as [? | (_ & tail & E & Ht)]; [done|]. apply (f_equal length) in Eparts, E.
    rewrite length_app in Eparts, E. rewrite (ao_stack acc Ha) in E. unfold kStackParts in E. cbn [length] in Eparts.
    split; [|lia]. intros ->. cbn in Eparts. lia. }
  specialize (HM HneP). destruct HM as [HM HLM].
  pose proof (horner_value (heap_parts_ acc) (max_multiplier_ acc) (last_multiplier_ acc) P q Eparts) as Hval.
  pose proof (length_Q (heap_parts_ acc) (max_multiplier_ acc) (last_multiplier_ acc) ltac:(lia)) as HlQ.
  assert (forall X, length X = length (heap_parts_ acc) -> digits_ok X ->
    buffer (with_multipliers (heap_parts_ acc) (max_multiplier_ acc) (last_multiplier_ acc)) X) as Hbuf
    by (intros X HlX HX; by split; [lia|]).
  unfold FromStringLarge. apply wpP_bind, wpP_lift, wp_dcheck; [by apply bool_decide_eq_true|].
  apply wpP_bind, wpP_lift, wp_dcheck; [apply bool_decide_eq_true; lia|].
  apply wpP_bind, wpP_lift. unfold Digits_slice.
  eapply wp_mono; [apply (large_first_spec (heap_parts_ acc) (max_multiplier_ acc) (last_multiplier_ acc)); cbn [b_parts b_multipliers b_temp]|].
  { apply Ha. }
  { done. }
  { lia. }
  { done. }
  { done. }
  { apply Hbuf; [apply length_uninitialized | apply uninitialized_ok]. }
  { apply Hbuf; [rewrite length_slice; lia | by apply digits_ok_slice]. }
  intros [b n] (Hn & Hri). apply wpP_bind, wpP_AddWorkEstimate. intros p1 Hle1.
  apply wpP_bind. eapply wpP_mono.
  { apply (large_rounds_spec L (with_multipliers (heap_parts_ acc) (max_multiplier_ acc) (last_multiplier_ acc))); try done.
    - intros a b0 l. apply multipliers_clip; (done || lia).
    - by eapply steady_le.
    - lia.
    - lia.
    - lia. }
  intros [[ok b'] round] p' (Hle & [Hlp Hp] & [Hlm Hm] & [Hlt Ht] & Hbad & Hgood).
  rewrite HlQ in Hlp, Hlm, Hlt. rewrite Hval in Hgood. rewrite <- Hl in Hlp, Hlm, Hlt.
  by apply large_finish; try done; eapply status_le_trans.
Qed.
End large_spec.
