(* ===== verification/Parsing.v ===== *)
(** Parsing a string as a whole: [FromStringAccumulator::Parse] followed by
    [Processor::FromString] yields the value of the longest prefix of digits. *)

From Stdlib Require Import ZArith Lia.
From stdpp Require Import base tactics numbers list option.
From S2P Require Import Prelude Digit Digits VectorArithmetic Processor MulSchoolbook MulKaratsuba MulToom Multiply FromString FromStringSpec FromStringPowerTwo FromStringLarge.

#[local] Open Scope Z_scope.

Section parsing.
Context `{Config, Platform}.
Context {alloc : Allocator}.
Context {fft : FftMultiplier}.

(** An accumulator that holds the value [v], in one of its three representations. *)
Definition holds_value (acc : FromStringAccumulator) (v : Z) : Prop :=
  inline_ok acc v \/
  inline_everything_ acc = false /\ acc_ok acc /\
    ((exists cb, 1 <= cb <= 5 /\ radix_ acc = 2 ^ cb /\ acc_value_bits cb acc v) \/
     IsPowerOfTwo (radix_ acc) = false /\ acc_value acc v).

Lemma fresh_ok max_digits : acc_ok (FromStringAccumulator_new max_digits).
Proof.
  split; cbn [FromStringAccumulator_new stack_parts_ heap_parts_ stack_parts_used_ result_ max_digits_];
    [apply length_uninitialized | apply uninitialized_ok | constructor | lia | by left | done | lia].
Qed.

Lemma power_of_two_radix radix :
  2 <= radix <= 36 -> Z.land radix (radix - 1) = 0 ->
  exists cb, 1 <= cb <= 5 /\ radix = 2 ^ cb /\ kCharBits !! Z.to_nat (Z.shiftr radix 2) = Some cb.
Proof.
  intros Hr Hl.
  assert (forallb (fun r => implb (Z.land r (r - 1) =? 0) ((r =? 2) || (r =? 4) || (r =? 8) || (r =? 16) || (r =? 32)))
    (seqZ 2 35) = true) as Hall by reflexivity.
  rewrite forallb_forall in Hall. specialize (Hall radix). rewrite Hl in Hall. cbn [Z.eqb implb] in Hall.
  assert (In radix (seqZ 2 35)) as Hin by (apply list_elem_of_In, elem_of_seqZ; lia). specialize (Hall Hin).
  rewrite !orb_true_iff, !Z.eqb_eq in Hall.
  destruct Hall as [[[[-> | ->] | ->] | ->] | ->]; [exists 1 | exists 2 | exists 3 | exists 4 | exists 5]; by split_and!.
Qed.

(** If [Parse] accumulates the characters inline, the digits among them fit on the stack. *)
Definition inline_safe (radix : Z) (chars : list Z) : Prop :=
  HAVE_TWODIGIT_T = true -> Z.of_nat (length chars) <= kInlineThreshold ->
  inline_room radix (length (fst (split_digits radix chars))).

Definition parse_result (radix : Z) (max_digits : nat) (chars rest : list Z) (acc : FromStringAccumulator) : Prop :=
  let '(D, tail) := split_digits radix chars in
  result_ acc = kMaxSizeExceeded /\ (max_digits `max` kStackParts <= length D)%nat \/
  result_ acc = Result_kOk /\ rest = tail /\ holds_value acc (numeral radix D).

Lemma split_digits_length radix chars : (length (fst (split_digits radix chars)) <= length chars)%nat.
Proof.
  induction chars as [|c chars IH]; [done|]. cbn [split_digits]. destruct (char_digit c radix); [|cbn; lia].
  destruct (split_digits radix chars). cbn [fst length] in *. lia.
Qed.

Lemma inline_fits_safe radix chars : (HAVE_TWODIGIT_T = true -> inline_fits radix) -> inline_safe radix chars.
Proof.
  intros Hf Htd Hl. apply inline_fits_room; [by apply Hf|]. pose proof (split_digits_length radix chars). lia.
Qed.

Lemma Parse_spec radix max_digits chars :
  2 <= radix <= 36 -> chars <> [] -> inline_safe radix chars ->
  wp (Parse (FromStringAccumulator_new max_digits) chars radix) (fun '(rest, acc) =>
    parse_result radix max_digits chars rest acc).
Proof.
  intros Hr Hne Hsafe. pose proof (fresh_ok max_digits) as Hf. unfold Parse, parse_result.
  apply wp_bind, wp_dcheck; [apply andb_true_iff; split; apply Z.leb_le; lia|].
  destruct (split_digits radix chars) as [D tail] eqn:ED.
  set (inline := if HAVE_TWODIGIT_T then Z.of_nat (length chars) <=? kInlineThreshold else _).
  set (acc0 := mkAccumulator _ _ _ _ _ _ _ inline _).
  assert (acc_parts acc0 = []) as Ep by done.
  destruct inline eqn:Einl; unfold inline in Einl; cbn [negb andb].
  - destruct HAVE_TWODIGIT_T eqn:Etd; [|done]. apply Z.leb_le in Einl.
    destruct (Hsafe Etd Einl) as (c & Hc & Hroom).
    eapply wp_mono; [apply (parse_parts_inline_spec radix c _ chars acc0 0); try (done || lia)|].
    + destruct Hf. by split.
    + by left.
    + intros [rest acc'] (_ & Hrest & Hok). rewrite ED in *. cbn [fst snd] in *. right.
      split_and!; [apply Hok | done|]. by left.
  - assert (acc_ok acc0) as H0' by (destruct Hf; by split).
    destruct (Z.eqb_spec (Z.land radix (radix - 1)) 0) as [Epow | Npow].
    + destruct (power_of_two_radix radix Hr Epow) as (cb & Hcb & Erad & Ecb). unfold ParsePowerTwo.
      apply wp_bind. unfold rd. rewrite Ecb. apply wp_Ok. rewrite (Z.mod_small radix) by lia.
      eapply wp_mono; [apply (parse_parts_power_two_spec radix cb Erad Hcb _ chars _ 0); try (done || lia || by left)|].
      { destruct H0'. by split. }
      intros [rest acc'] (Hinl & Hrad & Hout). unfold parse_outcome in Hout. rewrite ED in Hout. cbn [fst snd] in Hout.
      change (acc_parts _) with (@nil Z) in Hout at 1. cbn [length max_digits_] in Hout. rewrite Nat.sub_0_r in Hout.
      destruct Hout as [[? ?] | (Hres & Hok & -> & Hval)]; [by left | right]. split_and!; [done | done|].
      right. split_and!; [done | done|]. left. exists cb. split_and!; try done; [lia | lia | by rewrite Hrad, Erad].
    + eapply wp_mono; [apply (parse_parts_spec radix _ chars acc0 0); try (done || lia)|].
      { by left. }
      intros [rest acc'] (Hinl & Hrad & Hout). unfold parse_outcome in Hout. rewrite ED, Ep in Hout. cbn [fst snd length] in Hout.
      rewrite Nat.sub_0_r in Hout.
      destruct Hout as [[? ?] | (Hres & Hok & -> & Hval)]; [by left | right]. split_and!; [done | done|].
      right. split_and!; [done | done|]. right. split; [by rewrite Hrad | done].
Qed.

Lemma parts_on_stack acc P q : acc_ok acc -> acc_parts acc = P ++ [q] -> (0 < stack_parts_used_ acc)%nat.
Proof.
  intros Ha E. destruct (ao_heap acc Ha) as [Eh | (-> & _)]; [|unfold kStackParts; lia].
  unfold acc_parts in E. rewrite Eh in E. cbn [length] in E. rewrite bool_decide_true in E by done.
  apply (f_equal length) in E. rewrite length_take, length_app in E. cbn [length] in E. lia.
Qed.

(** [FromString] writes the value, for a result of the length [ResultLength]; only
    [FromStringLarge] can notice an interrupt and needs [Multiply]. *)
Lemma FromString_spec Zd acc v p :
  holds_value acc v -> digits_ok Zd -> length Zd = ResultLength acc -> steady p ->
  (kFromStringLargeThreshold <= Z.of_nat (length Zd) -> Multiplier (length Zd)) ->
  wpP (FromString Zd acc) p (fun Z' p' => status_le p p' /\ length Z' = length Zd /\ digits_ok Z' /\
    (status_ p' = kOk -> val Z' = v)).
Proof.
  intros Hv HZ Hl Hst Hmul. unfold FromString.
  destruct Hv as [Hin | (Hin & Hok & Hv)].
  - rewrite (io_inline _ _ Hin). apply wpP_lift. unfold Digits_slice, slice. rewrite drop_0.
    unfold ResultLength in Hl. rewrite (io_heap _ _ Hin), Nat.max_0_r in Hl.
    eapply wp_mono; [apply copy_part_spec|].
    + apply digits_ok_take, Hin.
    + rewrite length_take, (io_stack _ _ Hin). lia.
    + intros Z' (HlZ & HZ' & Ev). split_and!; [apply status_le_refl | done | done|]. intros _. rewrite Ev. apply Hin.
  - rewrite Hin. destruct Hv as [(cb & Hcb & Er & Hv) | (Er & Hv)].
    + pose proof Hv as (P & q & Ep & _). pose proof (parts_on_stack acc P q Hok Ep).
      rewrite bool_decide_false by lia.
      assert (IsPowerOfTwo (radix_ acc) = true) as ->.
      { assert (cb = 1 \/ cb = 2 \/ cb = 3 \/ cb = 4 \/ cb = 5) as [E | [E | [E | [E | E]]]] by lia; rewrite Er, E; reflexivity. }
      apply wpP_lift. eapply wp_mono; [apply (FromStringBasePowerOfTwo_spec (radix_ acc) cb Er Hcb Zd acc v); (done || lia)|].
      intros Z' (HlZ & HZ' & Ev). split_and!; [apply status_le_refl | done | done|]. done.
    + pose proof Hv as (P & q & Ep & _). pose proof (parts_on_stack acc P q Hok Ep).
      rewrite bool_decide_false, Er by lia. rewrite <- Hl. destruct (Z.ltb_spec (Z.of_nat (length Zd)) kFromStringLargeThreshold).
      * eapply wpP_mono; [apply (FromStringClassic_spec Zd acc v); (done || lia)|].
        intros Z' p' (Hle & HlZ & HZ' & Ev). by split_and!.
      * specialize (Hmul ltac:(lia)). apply (FromStringLarge_spec (length Zd)); try (done || lia).
        intros Eh. unfold ResultLength in Hl. rewrite Eh in Hl. pose proof (ao_used acc Hok).
        unfold kFromStringLargeThreshold, kStackParts in *. cbn [length] in Hl. lia.
Qed.

Lemma Processor_FromString_spec Zd acc v p :
  holds_value acc v -> digits_ok Zd -> length Zd = ResultLength acc -> steady p ->
  (kFromStringLargeThreshold <= Z.of_nat (length Zd) -> Multiplier (length Zd)) ->
  wpP (Processor_FromString Zd acc) p (fun '(s, Z') p' => status_ p' = kOk /\ length Z' = length Zd /\ digits_ok Z' /\
    (polls p <= polls p')%nat /\ (s = kOk -> val Z' = v) /\
    (s = kInterrupted <-> status_ p = kInterrupted \/ exists n, (polls p <= n < polls p')%nat /\ InterruptRequested n = true)).
Proof.
  intros Hv HZ Hl Hst Hmul. unfold Processor_FromString. apply wpP_bind.
  eapply wpP_mono; [by apply (FromString_spec Zd acc v)|]. intros Z' p' ([Hpo Hle] & HlZ & HZ' & Ev).
  apply wpP_bind. unfold wpP at 1, get_and_clear_status. apply wp_Ok, wpP_ret. by split_and!.
Qed.
End parsing.
