(* ===== verification/ToString.v ===== *)
(** Conversion to strings: [src/bigint/tostring.cc].  The output is the buffer [out] as a list
    of character codes, with a position in it; as in a DEBUG build, characters that were not
    written yet are [kStringZapValue].  Pointers into the buffer are positions. *)

From Stdlib Require Import ZArith Lia.
From stdpp Require Import base tactics numbers list option.
From S2P Require Import Prelude Digit Digits VectorArithmetic Processor MulSchoolbook MulKaratsuba DivHelpers MulToom Multiply DivSchoolbook DivBurnikel DivBarrett.

#[local] Open Scope Z_scope.

(** ** Tables *)

Definition kMaxBitsPerChar : list Z :=
  [0; 0; 32; 51; 64; 75; 83; 90; 96;
   102; 107; 111; 115; 119; 122; 126; 128;
   131; 134; 136; 139; 141; 143; 145; 147;
   149; 151; 153; 154; 156; 158; 159; 160;
   162; 163; 165; 166].

Definition kBitsPerCharTableShift : Z := 5.
Definition kBitsPerCharTableMultiplier : Z := Z.shiftl 1 kBitsPerCharTableShift.

(** ["0123456789abcdefghijklmnopqrstuvwxyz"]. *)
Definition kConversionChars : list Z := seqZ 48 10 ++ seqZ 97 26.

(** ['?'], ['0'], ['1'] and ['-']. *)
Definition kStringZapValue : Z := 63.
Definition char_0 : Z := 48.
Definition char_1 : Z := 49.
Definition char_minus : Z := 45.

Definition kToStringFastThreshold : Z := 43.

Section to_string.
Context `{Config, Platform}.
Context {alloc : Allocator} {fft : FftMultiplier}.
Implicit Types X rest input : digits.

(** ** Arithmetic helpers *)

(** The loop of [digit_pow]; an exponent of a digit has at most 64 bits. *)
Fixpoint digit_pow_loop (fuel : nat) (result base exponent : Z) : res Z :=
  if 0 <? exponent then
    match fuel with
    | O => Err OutOfFuel
    | S fuel =>
        let result := if Z.land exponent 1 =? 1 then wrap (result * base) else result in
        digit_pow_loop fuel result (wrap (base * base)) (Z.shiftr exponent 1)
    end
  else mret result.

Definition digit_pow (base exponent : Z) : res Z := digit_pow_loop 64 1 base exponent.

(** [digit_pow_rec(base, exponent)], for [exponent >= 1]. *)
Fixpoint digit_pow_rec (base : Z) (exponent : nat) : Z :=
  match exponent with
  | O | 1%nat => base
  | S exponent => wrap (base * digit_pow_rec base exponent)
  end.

(** [ToStringResultLength]. *)
Definition ToStringResultLength (X : digits) (radix : Z) (sign : bool) : res Z :=
  bit_length ← BitLength X;
  result ←
    (if IsPowerOfTwo radix then
       let bits_per_char := CountTrailingZeros radix in
       mret (DIV_CEIL bit_length bits_per_char + Z.b2z sign)
     else
       max_bits_per_char ← rd kMaxBitsPerChar (Z.to_nat radix);
       let min_bits_per_char := max_bits_per_char - 1 in
       let chars_required := DIV_CEIL (bit_length * kBitsPerCharTableMultiplier) min_bits_per_char in
       dcheck (chars_required <? 2 ^ 31 - 1);;
       mret chars_required);
  mret (result + Z.b2z sign).

(** ** The output buffer *)

Record cursor : Type := mkCursor { chars : list Z; pos : nat }.

(** Moves [out] back by one character, and writes [c] there. *)
Definition push (o : cursor) (c : Z) : res cursor :=
  match pos o with
  | O => Err OutOfBounds
  | S p => cs ← wr (chars o) p c; mret (mkCursor cs p)
  end.

(** The same, after the [DCHECK] that the character is still [kStringZapValue]. *)
Definition push_zapped (o : cursor) (c : Z) : res cursor :=
  match pos o with
  | O => Err OutOfBounds
  | S p => old ← rd (chars o) p; dcheck (old =? kStringZapValue);; push o c
  end.

Definition conversion_char (d : Z) : res Z := rd kConversionChars (Z.to_nat d).

(** [radix <= 10 ? '0' + d : kConversionChars[d]]. *)
Definition fixed_char (radix d : Z) : res Z :=
  if radix <=? 10 then mret (char_0 + d) else conversion_char d.

(** ** The base cases *)

(** The loop of [BasecaseFixedLast<radix>]. *)
Fixpoint basecase_fixed_last (fuel : nat) (radix chunk : Z) (out : cursor) : res cursor :=
  if chunk =? 0 then mret out
  else
    match fuel with
    | O => Err OutOfFuel
    | S fuel =>
        c ← fixed_char radix (chunk mod radix);
        out ← push_zapped out c;
        basecase_fixed_last fuel radix (chunk / radix) out
    end.

Definition BasecaseFixedLast (radix chunk : Z) (out : cursor) : res cursor :=
  basecase_fixed_last (Z.to_nat kDigitBits) radix chunk out.

(** The [do]-[while] loop of [BasecaseLast]. *)
Fixpoint basecase_last (fuel : nat) (radix digit : Z) (out : cursor) : res cursor :=
  match fuel with
  | O => Err OutOfFuel
  | S fuel =>
      c ← conversion_char (digit mod radix);
      out ← push_zapped out c;
      let digit := digit / radix in
      if 0 <? digit then basecase_last fuel radix digit out else mret out
  end.

Definition BasecaseLast (radix digit : Z) (out : cursor) : res cursor :=
  if radix =? 10 then BasecaseFixedLast 10 digit out
  else basecase_last (Z.to_nat kDigitBits) radix digit out.

Definition BasecaseMiddle (radix : Z) (chunk_chars : nat) (digit : Z) (out : cursor) : res cursor :=
  '(out, digit) ← for_loop chunk_chars 0 (fun _ '(out, digit) =>
    c ← conversion_char (digit mod radix);
    out ← push_zapped out c;
    mret (out, digit / radix)) (out, digit);
  dcheck (digit =? 0);;
  mret out.

(** [DivideByMagic<radix>]: one chunk of characters, and the quotient in [rest]. *)
Definition DivideByMagic (radix : Z) (rest input : digits) (out : cursor) : res (digits * cursor) :=
  max_bits_per_char ← rd kMaxBitsPerChar (Z.to_nat radix);
  let chunk_chars := Z.to_nat (kHalfDigitBits * kBitsPerCharTableMultiplier / max_bits_per_char) in
  let chunk_divisor := digit_pow_rec radix chunk_chars in
  '(rest, remainder) ← for_down (length input) (fun i '(rest, remainder) =>
    d ← rd input i;
    let upper := Z.lor (wrap (Z.shiftl remainder kHalfDigitBits)) (Z.shiftr d kHalfDigitBits) in
    let u_result := upper / chunk_divisor in
    let remainder := upper mod chunk_divisor in
    let lower := Z.lor (wrap (Z.shiftl remainder kHalfDigitBits)) (Z.land d kHalfDigitMask) in
    let l_result := lower / chunk_divisor in
    let remainder := lower mod chunk_divisor in
    rest ← wr rest i (Z.lor (wrap (Z.shiftl u_result kHalfDigitBits)) l_result);
    mret (rest, remainder)) (rest, 0);
  '(out, remainder) ← for_loop chunk_chars 0 (fun _ '(out, remainder) =>
    c ← fixed_char radix (remainder mod radix);
    out ← push_zapped out c;
    mret (out, remainder / radix)) (out, remainder);
  dcheck (remainder =? 0);;
  mret (rest, out).

(** ** The formatter *)

(** [out_start_] is position 0, [out_end_] the end of the buffer. *)
Record ToStringFormatter : Type := mkFormatter {
  digits_ : digits;
  tf_radix_ : Z;
  max_bits_per_char_ : Z;
  chunk_chars_ : nat;
  sign_ : bool;
  out_ : cursor;
  chunk_divisor_ : Z;
}.

Definition set_out (f : ToStringFormatter) (out : cursor) : ToStringFormatter :=
  mkFormatter (digits_ f) (tf_radix_ f) (max_bits_per_char_ f) (chunk_chars_ f) (sign_ f) out (chunk_divisor_ f).

(** The constructor. *)
Definition ToStringFormatter_new (X : digits) (radix : Z) (sign : bool) (out : list Z) : res ToStringFormatter :=
  let X := Normalize X in
  n ← ToStringResultLength X radix sign;
  dcheck (n <=? Z.of_nat (length out));;
  mret (mkFormatter X radix 0 0 sign (mkCursor out (length out)) 0).

Definition Start (f : ToStringFormatter) : res ToStringFormatter :=
  m ← rd kMaxBitsPerChar (Z.to_nat (tf_radix_ f));
  let chunk_chars := kDigitBits * kBitsPerCharTableMultiplier / m in
  chunk_divisor ← digit_pow (tf_radix_ f) chunk_chars;
  dcheck (negb (chunk_divisor =? 0));;
  mret (mkFormatter (digits_ f) (tf_radix_ f) m (Z.to_nat chunk_chars) (sign_ f) (out_ f) chunk_divisor).

(** One round of the loop of [Classic]: the new [rest] and position. *)
Definition classic_chunk (f : ToStringFormatter) (rest dividend : digits) (out : cursor) : res (digits * cursor) :=
  if tf_radix_ f =? 10 then DivideByMagic 10 rest dividend out
  else
    '(rest, chunk) ← DivideSingle rest dividend (chunk_divisor_ f);
    out ← BasecaseMiddle (tf_radix_ f) (chunk_chars_ f) chunk out;
    mret (rest, out).

(** [MAYBE_INTERRUPT]: without the advanced algorithms, account for the work and see whether
    to stop. *)
Definition classic_interrupt (f : ToStringFormatter) (rest : digits) : PM bool :=
  if V8_ADVANCED_BIGINT_ALGORITHMS then mret false
  else
    AddWorkEstimate (Z.of_nat (length rest) * (if tf_radix_ f =? 10 then 2 else 10));;
    should_terminate.

(** The [do]-[while] loop; the last chunk is written unless the loop was interrupted. *)
Fixpoint classic_loop (fuel : nat) (f : ToStringFormatter) (rest dividend : digits) (out : cursor) : PM cursor :=
  match fuel with
  | O => lift (Err OutOfFuel)
  | S fuel =>
      '(rest, out) ← lift (classic_chunk f rest dividend out);
      t ← classic_interrupt f rest;
      if (t : bool) then mret out
      else
        let rest := Normalize rest in
        if bool_decide (1 < length rest)%nat then classic_loop fuel f rest rest out
        else
          d ← lift (rd rest 0);
          lift (BasecaseLast (tf_radix_ f) d out)
  end.

(** [Classic]: every chunk takes at least one bit off the number. *)
Definition Classic (f : ToStringFormatter) : PM ToStringFormatter :=
  out ←
    (if bool_decide (length (digits_ f) = 0)%nat then lift (push (out_ f) char_0)
     else if bool_decide (length (digits_ f) = 1)%nat then
       d ← lift (rd (digits_ f) 0); lift (BasecaseLast (tf_radix_ f) d (out_ f))
     else
       classic_loop (length (digits_ f) * Z.to_nat kDigitBits) f (uninitialized (length (digits_ f))) (digits_ f) (out_ f));
  mret (set_out f out).

(** [Finish]: the number of characters of the buffer that are not used, and the buffer. *)
Fixpoint skip_zeros (fuel : nat) (out : cursor) : res cursor :=
  match fuel with
  | O => Err OutOfFuel
  | S fuel =>
      if bool_decide (pos out < length (chars out))%nat then
        c ← rd (chars out) (pos out);
        if c =? char_0 then skip_zeros fuel (mkCursor (chars out) (S (pos out))) else mret out
      else mret out
  end.

Definition Finish (f : ToStringFormatter) : res (nat * list Z) :=
  let out_end := length (chars (out_ f)) in
  dcheck (bool_decide (pos (out_ f) < out_end)%nat);;
  out ← skip_zeros (S out_end) (out_ f);
  out ← (if sign_ f then push out char_minus else mret out);
  let excess := pos out in
  mret (excess, splice (chars out) 0 (drop excess (chars out))).

(** ** Radixes that are powers of two *)

(** The inner loop: all full characters of the remaining bits of [digit]. *)
Fixpoint power_two_chars (fuel : nat) (bits_per_char char_mask digit available_bits : Z) (out : cursor)
    : res (Z * Z * cursor) :=
  if bits_per_char <=? available_bits then
    match fuel with
    | O => Err OutOfFuel
    | S fuel =>
        c ← conversion_char (Z.land digit char_mask);
        out ← push out c;
        power_two_chars fuel bits_per_char char_mask (Z.shiftr digit bits_per_char) (available_bits - bits_per_char) out
    end
  else mret (digit, available_bits, out).

(** The loop after the most significant digit. *)
Fixpoint power_two_last (fuel : nat) (bits_per_char char_mask digit : Z) (out : cursor) : res cursor :=
  if digit =? 0 then mret out
  else
    match fuel with
    | O => Err OutOfFuel
    | S fuel =>
        c ← conversion_char (Z.land digit char_mask);
        out ← push out c;
        power_two_last fuel bits_per_char char_mask (Z.shiftr digit bits_per_char) out
    end.

Definition BasePowerOfTwo (f : ToStringFormatter) : res ToStringFormatter :=
  let bits_per_char := CountTrailingZeros (tf_radix_ f) in
  let char_mask := tf_radix_ f - 1 in
  '(digit, available_bits, out) ← for_loop (length (digits_ f) - 1) 0 (fun i '(digit, available_bits, out) =>
    new_digit ← rd (digits_ f) i;
    let current := Z.land (Z.lor digit (wrap (Z.shiftl new_digit available_bits))) char_mask in
    c ← conversion_char current;
    out ← push out c;
    let consumed_bits := bits_per_char - available_bits in
    power_two_chars (Z.to_nat kDigitBits) bits_per_char char_mask
      (Z.shiftr new_digit consumed_bits) (kDigitBits - consumed_bits) out) (0, 0, out_ f);
  top ← msd (digits_ f);
  let current := Z.land (Z.lor digit (wrap (Z.shiftl top available_bits))) char_mask in
  c ← conversion_char current;
  out ← push out c;
  out ← power_two_last (Z.to_nat kDigitBits) bits_per_char char_mask
    (Z.shiftr top (bits_per_char - available_bits)) out;
  mret (set_out f out).

(** ** Divide and conquer *)

(** A level of the recursion; the levels below it ([next_]) are the tail of the list. *)
Record RecursionLevel : Type := mkLevel {
  leading_zero_shift_ : Z;
  char_count_ : nat;
  is_toplevel_ : bool;
  divisor_ : digits;
  inverse_ : digits;
}.

Definition LeftShiftDivisor (l : RecursionLevel) : res RecursionLevel :=
  top ← msd (divisor_ l);
  let shift := CountLeadingZeros top in
  divisor ← LeftShift (divisor_ l) (divisor_ l) shift;
  mret (mkLevel shift (char_count_ l) (is_toplevel_ l) divisor (inverse_ l)).

(** [ComputeInverse]; a [dividend_length] of 0 asks for the full inverse. *)
Definition ComputeInverse (l : RecursionLevel) (dividend_length : nat) : PM RecursionLevel :=
  let n := length (divisor_ l) in
  let inverse_len := if bool_decide (dividend_length = 0)%nat then n else (dividend_length - n)%nat in
  lift (dcheck (bool_decide (dividend_length = 0 \/ inverse_len <= n)%nat));;
  let input := Digits_slice (divisor_ l) (n - inverse_len) inverse_len in
  '(inverse, _) ← Invert (uninitialized (inverse_len + 1)) input (uninitialized (InvertScratchSpace inverse_len));
  inverse ← lift (TrimOne inverse);
  mret (mkLevel (leading_zero_shift_ l) (char_count_ l) (is_toplevel_ l) (divisor_ l) inverse).

Definition GetInverse (l : RecursionLevel) (dividend_length : nat) : res digits :=
  dcheck (bool_decide (length (inverse_ l) <> 0)%nat);;
  let inverse_len := (dividend_length - length (divisor_ l))%nat in
  dcheck (bool_decide (inverse_len <= length (inverse_ l))%nat);;
  Digits_plus (inverse_ l) (length (inverse_ l) - inverse_len).

(** The loop of [CreateLevels]: [level] is the current top level, not yet shifted; [None] is
    the early return after an interrupt. *)
Fixpoint create_levels (fuel : nat) (level : RecursionLevel) (next : list RecursionLevel) (target_bit_length : Z)
    : PM (option (list RecursionLevel)) :=
  match fuel with
  | O => lift (Err OutOfFuel)
  | S fuel =>
      bits ← lift (BitLength (divisor_ level));
      if bits * 2 - 1 <=? target_bit_length then
        let prev := mkLevel (leading_zero_shift_ level) (char_count_ level) false (divisor_ level) (inverse_ level) in
        divisor ← Multiply (uninitialized (length (divisor_ prev) * 2)) (divisor_ prev) (divisor_ prev);
        t ← should_terminate;
        if (t : bool) then mret None
        else
          let level := mkLevel 0 (char_count_ prev * 2) true (Normalize divisor) [] in
          prev ← lift (LeftShiftDivisor prev);
          prev ← ComputeInverse prev 0;
          create_levels fuel level (prev :: next) target_bit_length
      else
        level ← lift (LeftShiftDivisor level);
        mret (Some (level :: next))
  end.

(** [CreateLevels]; every level at least doubles the bits, less one, of the divisor. *)
Definition CreateLevels (base_divisor : Z) (base_char_count : nat) (target_bit_length : Z)
    : PM (option (list RecursionLevel)) :=
  create_levels 64 (mkLevel 0 base_char_count true [base_divisor] []) [] target_bit_length.

(** [FillWithZeros]; [level] is [None] for the base case. *)
Definition FillWithZeros (f : ToStringFormatter) (level : option RecursionLevel) (right_boundary : nat) (out : cursor)
    (is_last_on_level : bool) : res cursor :=
  if is_last_on_level then mret out
  else
    let chunk_chars := match level with None => chunk_chars_ f | Some l => (char_count_ l * 2)%nat end in
    let distance := Z.of_nat (pos out) - (Z.of_nat right_boundary - Z.of_nat chunk_chars) in
    dcheck (0 <=? distance);;
    for_loop (Z.to_nat distance) 0 (fun _ out => push out char_0) out.

(** Step 4 of [ProcessLevel]: splits [chunk] into ([left], [right]); [None] is the early
    return after an interrupt. *)
Definition split_chunk (level : RecursionLevel) (chunk : digits) : PM (option (digits * digits)) :=
  let n := length (divisor_ level) in
  let right_part := uninitialized (n + 1) in
  let left_part := uninitialized (length chunk - n + 1) in
  let inverse_len := (length chunk - n)%nat in
  if bool_decide (inverse_len = 0)%nat then
    '(left_part, right_part) ← DivideSchoolbook left_part right_part chunk (divisor_ level);
    mret (Some (left_part, right_part))
  else if bool_decide (n = 1)%nat then
    d ← lift (rd (divisor_ level) 0);
    '(left_part, r) ← lift (DivideSingle left_part chunk d);
    right_part ← lift (wr right_part 0 r);
    right_part ← lift (zero_from 1 right_part);
    mret (Some (left_part, right_part))
  else
    level ← (if is_toplevel_ level then ComputeInverse level (length chunk) else mret level);
    t ← (if is_toplevel_ level then should_terminate else mret false);
    if (t : bool) then mret None
    else
      inverse ← lift (GetInverse level (length chunk));
      '(left_part, right_part, _) ← DivideBarrettWith left_part right_part chunk (divisor_ level) inverse
        (uninitialized (DivideBarrettScratchSpace (length chunk)));
      t ← should_terminate;
      if (t : bool) then mret None else mret (Some (left_part, right_part)).

(** [ProcessLevel]; [inplace] is [chunk.digits() != digits_.digits()].  A null level with more
    than one digit left_part would be dereferenced. *)
Fixpoint ProcessLevel (f : ToStringFormatter) (levels : list RecursionLevel) (chunk : digits) (inplace : bool)
    (out : cursor) (is_last_on_level : bool) : PM cursor :=
  let normalized := Normalize chunk in
  if bool_decide (length normalized <= 1)%nat then
    let right_boundary := pos out in
    out ←
      (if bool_decide (length normalized = 1)%nat then
         d ← lift (rd normalized 0); lift (BasecaseLast (tf_radix_ f) d out)
       else mret out);
    lift (FillWithZeros f (head levels) right_boundary out is_last_on_level)
  else
    match levels with
    | [] => lift (Err OutOfBounds)
    | level :: next =>
        if bool_decide (length normalized < length (divisor_ level))%nat then
          let right_boundary := pos out in
          out ← ProcessLevel f next chunk inplace out is_last_on_level;
          lift (FillWithZeros f (Some level) right_boundary out is_last_on_level)
        else
          chunk_shifted ← lift (ShiftedDigits_new chunk (leading_zero_shift_ level) inplace);
          let shifted := Normalize (sd_digits chunk_shifted) in
          comparison ← lift (Compare shifted (divisor_ level));
          if comparison <=? 0 then
            let right_boundary := pos out in
            out ←
              (if comparison <? 0 then
                 reset ← lift (ShiftedDigits_Reset chunk_shifted);
                 let chunk := if inplace_ reset then sd_digits reset else chunk in
                 ProcessLevel f next chunk inplace out is_last_on_level
               else
                 out ← lift (FillWithZeros f (head next) right_boundary out false);
                 lift (push out char_1));
            lift (FillWithZeros f (Some level) right_boundary out is_last_on_level)
          else
            halves ← split_chunk level shifted;
            match halves with
            | None => mret out
            | Some (left_part, right_part) =>
                right_part ← lift (RightShift right_part right_part (leading_zero_shift_ level));
                lift (dcheck (bool_decide (length (Normalize left_part) <= length (divisor_ level))%nat));;
                right_out ← ProcessLevel f next right_part true out false;
                t ← should_terminate;
                if (t : bool) then mret (mkCursor (chars right_out) (pos out))
                else
                  lift (dcheck (bool_decide (pos right_out + char_count_ level = pos out)%nat));;
                  ProcessLevel f next left_part true (mkCursor (chars right_out) (pos out - char_count_ level)) is_last_on_level
            end
    end.

Definition Fast (f : ToStringFormatter) : PM ToStringFormatter :=
  bits ← lift (BitLength (digits_ f));
  levels ← CreateLevels (chunk_divisor_ f) (chunk_chars_ f) bits;
  t ← should_terminate;
  if (t : bool) then mret f
  else
    match levels with
    | None => lift (Err OutOfBounds)
    | Some levels =>
        out ← ProcessLevel f levels (digits_ f) false (out_ f) true;
        mret (set_out f out)
    end.

(** ** The entry points *)

(** [ToStringImpl]: the contents of [out] and [*out_length]. *)
Definition ToStringImpl (out : list Z) (X : digits) (radix : Z) (sign fast : bool) : PM (list Z * nat) :=
  let out_length := length out in
  f ← lift (ToStringFormatter_new X radix sign (replicate out_length kStringZapValue));
  let finish f :=
    '(excess, out) ← lift (Finish f);
    let out_length := (out_length - excess)%nat in
    mret (take out_length out ++ replicate excess 0, out_length) in
  if IsPowerOfTwo radix then
    f ← lift (BasePowerOfTwo f); finish f
  else if V8_ADVANCED_BIGINT_ALGORITHMS && fast then
    f ← lift (Start f);
    f ← Fast f;
    t ← should_terminate;
    if (t : bool) then mret (chars (out_ f), out_length) else finish f
  else
    f ← lift (Start f);
    f ← Classic f;
    finish f.

Definition ToString (out : list Z) (X : digits) (radix : Z) (sign : bool) : PM (list Z * nat) :=
  let use_fast_algorithm := kToStringFastThreshold <=? Z.of_nat (length X) in
  ToStringImpl out X radix sign use_fast_algorithm.

Definition Processor_ToString (out : list Z) (X : digits) (radix : Z) (sign : bool) : PM (Status * (list Z * nat)) :=
  r ← ToString out X radix sign; s ← get_and_clear_status; mret (s, r).
End to_string.
