(* ===== verification/ToStringSpec.v ===== *)
(** What conversion to a string computes: the numeral of the number without leading zeros. *)

From Stdlib Require Import ZArith Lia.
From stdpp Require Import base tactics numbers list option.
From S2P Require Import Prelude Digit Digits VectorArithmetic Processor MulSchoolbook MulKaratsuba DivHelpers MulToom Multiply DivSchoolbook DivBurnikel DivBarrett FromString FromStringSpec ToString.

#[local] Open Scope Z_scope.

(** ** Characters *)

(** The character for the digit [d]. *)
Definition digit_char (d : Z) : Z := nth (Z.to_nat d) kConversionChars 0.

(** Digits of a numeral, and numerals without leading zeros. *)
Definition digits_below (radix : Z) (ds : list Z) : Prop := Forall (fun d => 0 <= d < radix) ds.
Definition no_leading_zero (ds : list Z) : Prop := head ds <> Some 0.

Lemma small_cases (P : Z -> bool) n d : 0 <= d < n -> forallb P (seqZ 0 n) = true -> P d = true.
Proof. rewrite forallb_forall. intros Hd Hall. apply Hall, list_elem_of_In, elem_of_seqZ. lia. Qed.

Lemma conversion_char_spec d : 0 <= d < 36 -> conversion_char d = Ok (digit_char d).
Proof.
  intros Hd. unfold conversion_char, digit_char, rd.
  destruct (lookup_lt_is_Some_2 kConversionChars (Z.to_nat d)) as [c Hc]; [change (length kConversionChars) with 36%nat; lia|].
  rewrite Hc. f_equal. symmetry. by apply nth_lookup_Some.
Qed.

Lemma fixed_char_spec radix d : 0 <= d < radix -> radix <= 36 -> fixed_char radix d = Ok (digit_char d).
Proof.
  intros Hd Hr. unfold fixed_char. destruct (Z.leb_spec radix 10); [|apply conversion_char_spec; lia].
  assert (Z.eqb (char_0 + d) (digit_char d) = true) as E%Z.eqb_eq; [|by rewrite E].
  apply (small_cases (fun d => Z.eqb (char_0 + d) (digit_char d)) 10); [lia | reflexivity].
Qed.

(** The characters read back. *)
Lemma char_digit_char radix d : 0 <= d < radix -> radix <= 36 -> char_digit (digit_char d) radix = Some d.
Proof.
  intros Hd Hr. unfold char_digit.
  assert ((digit_char d <=? 127) && (nth (Z.to_nat (digit_char d)) kCharValue 255 =? d) = true) as [E1%Z.leb_le E2%Z.eqb_eq]%andb_true_iff.
  { apply (small_cases (fun d => (digit_char d <=? 127) && (nth (Z.to_nat (digit_char d)) kCharValue 255 =? d)) 36); [lia | reflexivity]. }
  destruct (Z.ltb_spec 127 (digit_char d)); [lia|]. rewrite E2. destruct (Z.leb_spec radix d); [lia | done].
Qed.

Lemma split_printed radix ds : 2 <= radix <= 36 -> digits_below radix ds -> split_digits radix (map digit_char ds) = (ds, []).
Proof.
  intros Hr. induction 1 as [|d ds Hd Hds IH]; [done|]. cbn [map split_digits].
  rewrite char_digit_char by lia. by rewrite IH.
Qed.

Lemma digit_char_0 d : 0 <= d < 36 -> digit_char d = char_0 -> d = 0.
Proof.
  intros Hd E. assert (implb (digit_char d =? char_0) (d =? 0) = true) as Hi.
  { apply (small_cases (fun d => implb (digit_char d =? char_0) (d =? 0)) 36); [lia | reflexivity]. }
  rewrite E, Z.eqb_refl in Hi. by apply Z.eqb_eq.
Qed.

(** A numeral without leading zeros determines its number of digits. *)
Lemma numeral_lower radix ds : 2 <= radix -> digits_below radix ds -> no_leading_zero ds -> ds <> [] ->
  radix ^ Z.of_nat (length ds - 1) <= numeral radix ds.
Proof.
  intros Hr Hds Hz Hne. destruct ds as [|d ds]; [done|]. apply Forall_cons_1 in Hds as [Hd Hds].
  assert (d <> 0) by (intros ->; by apply Hz). rewrite numeral_cons. cbn [length]. rewrite Nat.sub_succ, Nat.sub_0_r.
  pose proof (numeral_bound radix ds ltac:(lia) Hds). pose proof (Z.pow_pos_nonneg radix (Z.of_nat (length ds))). nia.
Qed.

(** ** The output buffer *)

(** [ds] is what has been written, and the rest of the buffer is untouched. *)
Definition written (out : cursor) (ds : list Z) : Prop :=
  chars out = replicate (pos out) kStringZapValue ++ map digit_char ds.

Section pushing.
Context `{Config, Platform}.

Lemma push_chars p w c : push (mkCursor (replicate (S p) kStringZapValue ++ w) (S p)) c =
  Ok (mkCursor (replicate p kStringZapValue ++ c :: w) p).
Proof.
  unfold push, wr. cbn [pos chars]. rewrite decide_True by (rewrite length_app, length_replicate; lia). cbn [mbind res_bind mret res_ret].
  do 2 f_equal. rewrite (replicate_S_end p), <- app_assoc. apply list_eq. intros i.
  rewrite <- (length_replicate p kStringZapValue) at 1. by rewrite insert_app_r_alt, Nat.sub_diag by lia.
Qed.

Lemma wp_push out ds d (Q : cursor -> Prop) :
  written out ds -> (0 < pos out)%nat ->
  (forall out', written out' (d :: ds) -> pos out = S (pos out') -> Q out') -> wp (push out (digit_char d)) Q.
Proof.
  intros Hw Hp HQ. destruct out as [cs [|p]]; cbn [pos] in *; [lia|]. unfold written in Hw. cbn [chars pos] in Hw.
  rewrite Hw, push_chars. apply wp_Ok, HQ; done.
Qed.

Lemma wp_push_zapped out ds d (Q : cursor -> Prop) :
  written out ds -> (0 < pos out)%nat ->
  (forall out', written out' (d :: ds) -> pos out = S (pos out') -> Q out') -> wp (push_zapped out (digit_char d)) Q.
Proof.
  intros Hw Hp HQ. pose proof Hw as Hw'. unfold push_zapped. destruct out as [cs [|p]]; cbn [pos] in *; [lia|].
  unfold written in Hw'. cbn [chars pos] in *.
  assert (rd cs p = Ok kStringZapValue) as ->.
  { unfold rd. rewrite Hw', lookup_app_l by (rewrite length_replicate; lia).
    by rewrite lookup_replicate_2 by lia. }
  cbn [mbind res_bind]. apply wp_bind, wp_dcheck; [done|]. by apply (wp_push _ ds).
Qed.
End pushing.

(** ** The base cases *)

Section printing.
Context `{Config, Platform}.
Context {alloc : Allocator} {fft : FftMultiplier}.
Context (radix : Z) (Hradix : 2 <= radix <= 36).

(** From [out], where [ds] had been written, to [out']: the numeral of [v] is prepended. *)
Definition printed (out : cursor) (ds : list Z) (v : Z) (out' : cursor) : Prop :=
  exists D, written out' (D ++ ds) /\ digits_below radix D /\ no_leading_zero D /\ numeral radix D = v /\
    pos out = (length D + pos out')%nat.

(** The same with exactly [n] digits. *)
Definition padded (out : cursor) (ds : list Z) (n : nat) (v : Z) (out' : cursor) : Prop :=
  exists D, length D = n /\ written out' (D ++ ds) /\ digits_below radix D /\ numeral radix D = v /\
    pos out = (n + pos out')%nat.

Lemma printed_nothing out ds : written out ds -> printed out ds 0 out.
Proof. intros Hw. exists []. by split_and!; try constructor. Qed.

Lemma digit_range v : 0 <= v mod radix < radix.
Proof. apply Z.mod_pos_bound. lia. Qed.

(** A digit has been written; the quotient is printed to its left. *)
Lemma printed_step out ds v out1 out' :
  0 < v -> pos out = S (pos out1) -> printed out1 (v mod radix :: ds) (v / radix) out' -> printed out ds v out'.
Proof.
  intros Hv Hp (D & Hw & HD & Hz & En & Hp1). exists (D ++ [v mod radix]). rewrite <- app_assoc. cbn [app].
  pose proof (Z.div_mod v radix ltac:(lia)). split_and!.
  - done.
  - apply Forall_app. split; [done | apply Forall_singleton, digit_range].
  - destruct D as [|d D]; [|done]. cbn [app]. unfold no_leading_zero. cbn [head]. intros [= E].
    unfold numeral in En. cbn in En. lia.
  - rewrite numeral_snoc. lia.
  - rewrite length_app. cbn [length]. lia.
Qed.

(** The room that is left suffices for the quotient. *)
Lemma room_step v (p p1 : nat) : 0 <= v < radix ^ Z.of_nat p -> p = S p1 -> 0 <= v / radix < radix ^ Z.of_nat p1.
Proof.
  intros Hv ->. rewrite Nat2Z.inj_succ, Z.pow_succ_r in Hv by lia. split; [apply Z.div_pos; lia | apply Z.div_lt_upper_bound; lia].
Qed.

Lemma room_pos v (p : nat) : 0 < v < radix ^ Z.of_nat p -> (0 < p)%nat.
Proof. intros Hv. destruct p; [rewrite Z.pow_0_r in Hv; lia | lia]. Qed.

Lemma fuel_step v (n : nat) : 0 < v < 2 ^ Z.of_nat (S n) -> 0 <= v / radix < 2 ^ Z.of_nat n.
Proof.
  rewrite Nat2Z.inj_succ, Z.pow_succ_r by lia. intros Hv. split; [apply Z.div_pos; lia|].
  apply Z.div_lt_upper_bound; [lia|]. pose proof (Z.pow_pos_nonneg 2 (Z.of_nat n)). nia.
Qed.

Lemma basecase_fixed_last_spec fuel v out ds :
  0 <= v < 2 ^ Z.of_nat fuel -> v < radix ^ Z.of_nat (pos out) -> written out ds ->
  wp (basecase_fixed_last fuel radix v out) (printed out ds v).
Proof.
  revert v out ds. induction fuel as [|fuel IH]; intros v out ds Hv Hroom Hw; cbn [basecase_fixed_last];
    destruct (Z.eqb_spec v 0) as [-> | Hv0]; try (by apply wp_ret, printed_nothing); [cbn in Hv; lia|].
  rewrite fixed_char_spec by (pose proof (digit_range v); lia). cbn [mbind res_bind]. apply wp_bind.
  apply (wp_push_zapped out ds (v mod radix)); [done | apply (room_pos v); lia|]. intros out1 Hw1 Hp1.
  eapply wp_mono; [apply IH; [apply fuel_step; lia | apply (room_step v (pos out)); lia | exact Hw1]|].
  intros out' Hpr. apply (printed_step out ds v out1); (done || lia).
Qed.

Lemma basecase_last_spec fuel v out ds :
  0 < v < 2 ^ Z.of_nat fuel -> v < radix ^ Z.of_nat (pos out) -> written out ds ->
  wp (basecase_last fuel radix v out) (printed out ds v).
Proof.
  revert v out ds. induction fuel as [|fuel IH]; intros v out ds Hv Hroom Hw; cbn [basecase_last]; [cbn in Hv; lia|].
  rewrite conversion_char_spec by (pose proof (digit_range v); lia). cbn [mbind res_bind]. apply wp_bind.
  apply (wp_push_zapped out ds (v mod radix)); [done | apply (room_pos v); lia|]. intros out1 Hw1 Hp1.
  pose proof (fuel_step v fuel Hv). pose proof (room_step v (pos out) (pos out1) ltac:(lia) Hp1).
  destruct (Z.ltb_spec 0 (v / radix)).
  - eapply wp_mono; [apply IH; [lia | lia | exact Hw1]|].
    intros out' Hpr. apply (printed_step out ds v out1); (done || lia).
  - apply wp_ret, (printed_step out ds v out1); [lia | done|]. replace (v / radix) with 0 by lia. by apply printed_nothing.
Qed.

Lemma BasecaseLast_spec v out ds :
  is_digit v -> 0 < v < radix ^ Z.of_nat (pos out) -> written out ds ->
  wp (BasecaseLast radix v out) (printed out ds v).
Proof.
  intros Hd Hv Hw. unfold is_digit, digit_base in Hd.
  assert (v < 2 ^ Z.of_nat (Z.to_nat kDigitBits)) by (rewrite Z2Nat.id; [lia | destruct kDigitBits_cases; lia]).
  unfold BasecaseLast. destruct (Z.eqb_spec radix 10) as [<- |].
  - apply basecase_fixed_last_spec; (done || lia).
  - apply basecase_last_spec; (done || lia).
Qed.

(** The loops that always write [n] characters. *)
Lemma chunk_chars_spec (to_char : Z -> res Z) n v out ds :
  (forall d, 0 <= d < radix -> to_char d = Ok (digit_char d)) ->
  0 <= v < radix ^ Z.of_nat n -> (n <= pos out)%nat -> written out ds ->
  wp (for_loop n 0 (fun _ '(out, v) => c ← to_char (v mod radix); out ← push_zapped out c; mret (out, v / radix)) (out, v))
    (fun '(out', v') => v' = 0 /\ padded out ds n v out').
Proof.
  intros Hc Hv Hroom Hw.
  eapply wp_mono; [apply (wp_for_loop (fun k '(out', v') => 0 <= v' /\
    exists u, u + v' * radix ^ Z.of_nat k = v /\ padded out ds k u out'))|].
  - split; [lia|]. exists 0. split; [rewrite Z.pow_0_r; lia|]. exists []. by split_and!; try constructor.
  - intros k [out1 v1] Hk (Hv1 & u & Eu & D & HlD & Hw1 & HD & En & Hp).
    rewrite Hc by apply digit_range. cbn [mbind res_bind]. apply wp_bind.
    apply (wp_push_zapped out1 (D ++ ds) (v1 mod radix)); [done | lia|]. intros out2 Hw2 Hp2. apply wp_ret.
    split; [apply Z.div_pos; lia|]. exists (u + (v1 mod radix) * radix ^ Z.of_nat k).
    pose proof (Z.div_mod v1 radix ltac:(lia)). split.
    + rewrite Nat2Z.inj_succ, Z.pow_succ_r by lia. nia.
    + exists (v1 mod radix :: D). split_and!; [cbn; lia | done | | rewrite numeral_cons, HlD; lia | lia].
      apply Forall_cons_2; [apply digit_range | done].
  - rewrite Nat.add_0_l. intros [out' v'] (Hv' & u & Eu & Hpad). 
    pose proof Hpad as (D & HlD & _ & HD & En & _). pose proof (numeral_bound radix D ltac:(lia) HD) as Hb. rewrite HlD, En in Hb.
    assert (v' = 0) as -> by nia. split; [done|]. by replace v with u by lia.
Qed.

Lemma BasecaseMiddle_spec n v out ds :
  0 <= v < radix ^ Z.of_nat n -> (n <= pos out)%nat -> written out ds ->
  wp (BasecaseMiddle radix n v out) (padded out ds n v).
Proof.
  intros Hv Hroom Hw. unfold BasecaseMiddle. apply wp_bind.
  eapply wp_mono; [apply (chunk_chars_spec conversion_char); try done; intros d Hd; apply conversion_char_spec; lia|].
  intros [out' v'] (-> & Hpad). apply wp_bind, wp_dcheck; [done|]. by apply wp_ret.
Qed.

(** ** One chunk of the classic algorithm *)

(** Half digits are joined without overflow. *)
Lemma join_half x u : 0 <= x < 2 ^ kHalfDigitBits -> 0 <= u < 2 ^ kHalfDigitBits ->
  Z.lor (wrap (Z.shiftl x kHalfDigitBits)) u = x * 2 ^ kHalfDigitBits + u.
Proof.
  intros Hx Hu. pose proof kHalfDigitBits_pos. rewrite Z.shiftl_mul_pow2 by lia.
  rewrite wrap_small by (unfold is_digit; rewrite digit_base_half; nia). by apply lor_shiftl_add; [lia|].
Qed.

(** One step of [DivideByMagic]: a digit is divided in two halves. *)
Lemma half_digit_steps C r d :
  0 < C <= 2 ^ kHalfDigitBits -> 0 <= r < C -> is_digit d ->
  let upper := Z.lor (wrap (Z.shiftl r kHalfDigitBits)) (Z.shiftr d kHalfDigitBits) in
  let lower := Z.lor (wrap (Z.shiftl (upper mod C) kHalfDigitBits)) (Z.land d kHalfDigitMask) in
  let q := Z.lor (wrap (Z.shiftl (upper / C) kHalfDigitBits)) (lower / C) in
  is_digit q /\ 0 <= lower mod C < C /\ d + digit_base * r = q * C + lower mod C.
Proof.
  intros HC Hr Hd. set (h := 2 ^ kHalfDigitBits) in *. pose proof digit_base_half as Eb. fold h in Eb.
  unfold is_digit in Hd. rewrite Eb in Hd.
  assert (0 <= d / h < h) as Hdh by (split; [apply Z.div_pos; lia | apply Z.div_lt_upper_bound; lia]).
  pose proof (Z.mod_pos_bound d h ltac:(lia)) as Hdm. pose proof (Z.div_mod d h ltac:(lia)) as Ed.
  rewrite shiftr_half, land_half_mask. cbv zeta. fold h. rewrite (join_half r (d / h)) by (fold h; lia). fold h.
  set (upper := r * h + d / h). pose proof (Z.mod_pos_bound upper C ltac:(lia)) as Hum.
  pose proof (Z.div_mod upper C ltac:(lia)) as Eu. rewrite (join_half (upper mod C) (d mod h)) by (fold h; lia). fold h.
  set (lower := upper mod C * h + d mod h). pose proof (Z.mod_pos_bound lower C ltac:(lia)) as Hlm.
  pose proof (Z.div_mod lower C ltac:(lia)) as El.
  assert (0 <= upper / C < h) as Hq1.
  { split; [apply Z.div_pos; unfold upper; nia | apply Z.div_lt_upper_bound; [lia|]]. unfold upper. nia. }
  assert (0 <= lower / C < h) as Hq2.
  { split; [apply Z.div_pos; unfold lower; nia | apply Z.div_lt_upper_bound; [lia|]]. unfold lower. nia. }
  rewrite (join_half (upper / C) (lower / C)) by done. fold h.
  split_and!; [by apply half_pair_digit | apply Hlm | apply Hlm|].
  rewrite Eb. change upper with (r * h + d / h) in Eu at 1. change lower with (upper mod C * h + d mod h) in El at 1.
  apply (f_equal (Z.mul h)) in Eu. clearbody upper lower h. lia.
Qed.

(** The number of characters of a chunk of [bits] bits. *)
Lemma chunk_bound bits m (n := Z.to_nat (bits * kBitsPerCharTableMultiplier / m)) :
  kMaxBitsPerChar !! Z.to_nat radix = Some m -> bits = 16 \/ bits = 32 \/ bits = 64 -> IsPowerOfTwo radix = false ->
  (0 < n < 64)%nat /\ radix ^ Z.of_nat n < 2 ^ bits /\ Z.of_nat n = bits * kBitsPerCharTableMultiplier / m.
Proof.
  intros Hm Hb Hp.
  assert (forallb (fun r => IsPowerOfTwo r || forallb (fun b =>
    let k := b * kBitsPerCharTableMultiplier / nth (Z.to_nat r) kMaxBitsPerChar 0 in
    (0 <? k) && (k <? 64) && (r ^ k <? 2 ^ b)) [16; 32; 64]) (seqZ 2 35) = true) as Hall by (vm_compute; reflexivity).
  rewrite forallb_forall in Hall. specialize (Hall radix).
  assert (In radix (seqZ 2 35)) as Hin by (apply list_elem_of_In, elem_of_seqZ; lia). specialize (Hall Hin).
  rewrite Hp, (nth_lookup_Some _ _ _ _ Hm) in Hall. cbn [orb] in Hall. rewrite forallb_forall in Hall.
  specialize (Hall bits). assert (In bits [16; 32; 64]) as Hin' by (destruct Hb as [-> | [-> | ->]]; cbn; auto).
  specialize (Hall Hin'). apply andb_true_iff in Hall as [[H1%Z.ltb_lt H2%Z.ltb_lt]%andb_true_iff H3%Z.ltb_lt].
  assert (Z.of_nat n = bits * kBitsPerCharTableMultiplier / m) as En by (unfold n; rewrite Z2Nat.id; lia).
  rewrite En. split_and!; (done || lia).
Qed.

Lemma digit_pow_rec_spec n : (0 < n)%nat -> radix ^ Z.of_nat n < digit_base -> digit_pow_rec radix n = radix ^ Z.of_nat n.
Proof.
  induction n as [|n IH]; intros Hn Hlt; [lia|]. destruct n as [|n]; [cbn [digit_pow_rec]; rewrite Z.pow_1_r; done|].
  change (digit_pow_rec radix (S (S n))) with (wrap (radix * digit_pow_rec radix (S n))). rewrite (Nat2Z.inj_succ (S n)), Z.pow_succ_r in * by lia.
  pose proof (Z.pow_pos_nonneg radix (Z.of_nat (S n))). rewrite IH by nia. apply wrap_small. unfold is_digit. nia.
Qed.

Lemma max_bits_lookup : exists m, kMaxBitsPerChar !! Z.to_nat radix = Some m.
Proof. apply lookup_lt_is_Some_2. change (length kMaxBitsPerChar) with 37%nat. lia. Qed.

Lemma half_bits_cases : kHalfDigitBits = 16 \/ kHalfDigitBits = 32 \/ kHalfDigitBits = 64.
Proof. unfold kHalfDigitBits. destruct kDigitBits_cases as [-> | ->]; [by left | by right; left]. Qed.

Lemma rd_table l m : l !! Z.to_nat radix = Some m -> rd l (Z.to_nat radix) = Ok m.
Proof. intros E. unfold rd. by rewrite E. Qed.

(** [DivideByMagic] divides by a power of the radix and writes the remainder. *)
Lemma DivideByMagic_spec rest input out ds :
  IsPowerOfTwo radix = false -> digits_ok rest -> digits_ok input -> length rest = length input -> written out ds ->
  val input < radix ^ Z.of_nat (pos out) -> digit_base <= val input ->
  wp (DivideByMagic radix rest input out) (fun '(rest', out') => exists n, (0 < n)%nat /\
    radix ^ Z.of_nat n <= digit_base /\
    length rest' = length rest /\ digits_ok rest' /\ val rest' = val input / radix ^ Z.of_nat n /\
    padded out ds n (val input mod radix ^ Z.of_nat n) out').
Proof.
  intros Hp Hrest Hinput Hl Hw Hroom Hbig. unfold DivideByMagic.
  destruct max_bits_lookup as [m Hm]. rewrite (rd_table _ _ Hm). cbn [mbind res_bind].
  destruct (chunk_bound kHalfDigitBits m Hm half_bits_cases Hp) as (Hn & Hlt & _).
  set (n := Z.to_nat (kHalfDigitBits * kBitsPerCharTableMultiplier / m)) in *.
  pose proof digit_base_half as Eb. pose proof half_base_ge.
  rewrite digit_pow_rec_spec by (rewrite ?Eb; nia || lia). set (C := radix ^ Z.of_nat n) in *.
  assert (0 < C) as HC by (apply Z.pow_pos_nonneg; lia). apply wp_bind.
  eapply wp_mono; [apply (wp_for_down (fun i '(Q, r) => length Q = length rest /\ digits_ok Q /\ 0 <= r < C /\
    val (drop i input) = val (drop i Q) * C + r))|].
  - rewrite !drop_ge by lia. cbn [val]. split_and!; (done || lia).
  - intros i [Q r] Hi (HlQ & HQ & Hr & E). apply wp_bind, wp_rd; [lia | done|]. intros d Hd Hdd.
    destruct (half_digit_steps C r d ltac:(lia) Hr Hdd) as (Hq & Hr' & Eq).
    apply wp_bind, wp_wr; [lia|]. apply wp_ret. rewrite length_insert, (drop_S _ _ _ Hd). 
    match goal with |- context [<[i := ?q]> Q] => set (qd := q) in *; rewrite (drop_S (<[i := qd]> Q) qd i) by (apply list_lookup_insert_eq; lia) end.
    rewrite drop_insert_lt by lia. cbn [val]. split_and!; [lia | by apply Forall_insert | apply Hr' | apply Hr' |].
    apply (f_equal (Z.mul digit_base)) in E. lia.
  - intros [Q r] (HlQ & HQ & Hr & E). rewrite !drop_0 in E.
    assert (C < val input) as HCv by (rewrite Eb in Hbig; nia).
    assert (n <= pos out)%nat as Hnp.
    { destruct (Nat.le_gt_cases n (pos out)) as [|Hgt]; [done|].
      pose proof (Z.pow_le_mono_r radix (Z.of_nat (pos out)) (Z.of_nat n)). unfold C in *. lia. }
    assert (r = val input mod C /\ val Q = val input / C) as [-> EQ].
    { split; [apply Z.mod_unique with (val Q); lia | apply Z.div_unique with r; lia]. }
    apply wp_bind. eapply wp_mono; [apply (chunk_chars_spec (fixed_char radix)); try done|].
    { intros d Hd. apply fixed_char_spec; lia. }
    intros [out' r'] (-> & Hpad). apply wp_bind, wp_dcheck; [done|]. apply wp_ret. exists n. fold C.
    split_and!; try done; [lia | rewrite Eb; nia].
Qed.

(** [digit_pow] is exact as long as the power is a digit. *)
Lemma digit_pow_loop_spec fuel result base e :
  is_digit result -> 0 <= e < 2 ^ Z.of_nat fuel ->
  wp (digit_pow_loop fuel result base e) (fun r => is_digit r /\ r = wrap (result * base ^ e)).
Proof.
  revert result base e. induction fuel as [|fuel IH]; intros result base e Hres He; cbn [digit_pow_loop];
    destruct (Z.ltb_spec 0 e); try (cbn in He; lia).
  1: apply wp_ret; replace e with 0 by lia; rewrite Z.pow_0_r, Z.mul_1_r, wrap_small by done; done.
  2: apply wp_ret; replace e with 0 by lia; rewrite Z.pow_0_r, Z.mul_1_r, wrap_small by done; done.
  rewrite Nat2Z.inj_succ, Z.pow_succ_r in He by lia.
  rewrite Z.shiftr_div_pow2, Z.pow_1_r by lia. change 1 with (Z.ones 1) at 1. rewrite Z.land_ones by lia. change (2 ^ 1) with 2.
  pose proof (Z.div_mod e 2 ltac:(lia)) as E. pose proof (Z.mod_pos_bound e 2 ltac:(lia)).
  assert (0 <= e / 2) by (apply Z.div_pos; lia).
  eapply wp_mono; [apply IH; [destruct (_ =? _); [apply wrap_digit | done] | lia]|].
  intros r [Hr ->]. split; [done|]. unfold wrap.
  assert (base ^ e = (base * base) ^ (e / 2) * base ^ (e mod 2)) as ->.
  { rewrite E at 1. rewrite Z.pow_add_r, Z.pow_mul_r by lia. by rewrite (Z.pow_2_r base). }
  rewrite <- Zmult_mod_idemp_r, Z.mod_pow_l, Zmult_mod_idemp_r.
  destruct (Z.eqb_spec (e mod 2) 1) as [-> | Hne].
  - rewrite Zmult_mod_idemp_l, Z.pow_1_r. f_equal. lia.
  - replace (e mod 2) with 0 by lia. rewrite Z.pow_0_r. f_equal. lia.
Qed.

(** ** The classic algorithm *)

(** A formatter prepared by [Start]. *)
Record started (f : ToStringFormatter) : Prop := {
  st_radix : tf_radix_ f = radix;
  st_chars : (0 < chunk_chars_ f < 64)%nat;
  st_divisor : chunk_divisor_ f = radix ^ Z.of_nat (chunk_chars_ f);
  st_digit : chunk_divisor_ f < digit_base;
}.

Lemma digit_pow_spec e : 0 <= e < 64 -> 0 < radix ^ e < digit_base -> wp (digit_pow radix e) (fun r => r = radix ^ e).
Proof.
  intros He Hlt. unfold digit_pow. eapply wp_mono; [apply digit_pow_loop_spec|].
  - unfold is_digit. pose proof digit_base_ge. lia.
  - split; [lia|]. transitivity 64; [lia | reflexivity].
  - intros r [Hr ->]. rewrite Z.mul_1_l. apply wrap_small. unfold is_digit. lia.
Qed.

Lemma start_chunks f m k :
  tf_radix_ f = radix -> 0 < k < 64 -> radix ^ k < digit_base ->
  wp (chunk_divisor ← digit_pow (tf_radix_ f) k;
      dcheck (negb (chunk_divisor =? 0));;
      mret (mkFormatter (digits_ f) (tf_radix_ f) m (Z.to_nat k) (sign_ f) (out_ f) chunk_divisor))
    (fun f' => started f' /\ digits_ f' = digits_ f /\ sign_ f' = sign_ f /\ out_ f' = out_ f).
Proof.
  intros Er Hk Hlt. rewrite Er. assert (0 < radix ^ k) by (apply Z.pow_pos_nonneg; lia).
  apply wp_bind. eapply wp_mono; [by apply digit_pow_spec; lia|]. intros r ->.
  apply wp_bind, wp_dcheck; [apply negb_true_iff, Z.eqb_neq; lia|]. apply wp_ret. split; [|done].
  split; cbn [tf_radix_ chunk_chars_ chunk_divisor_]; [done | lia | by rewrite Z2Nat.id by lia | done].
Qed.

Lemma Start_spec f :
  tf_radix_ f = radix -> IsPowerOfTwo radix = false ->
  wp (Start f) (fun f' => started f' /\ digits_ f' = digits_ f /\ sign_ f' = sign_ f /\ out_ f' = out_ f).
Proof.
  intros Er Hp. unfold Start. destruct max_bits_lookup as [m Hm].
  assert (kDigitBits = 16 \/ kDigitBits = 32 \/ kDigitBits = 64) as Hbits by (destruct kDigitBits_cases; auto).
  destruct (chunk_bound kDigitBits m Hm Hbits Hp) as (Hn & Hlt & En). rewrite En in Hlt.
  assert (rd kMaxBitsPerChar (Z.to_nat (tf_radix_ f)) = Ok m) as -> by (by rewrite Er, (rd_table _ _ Hm)).
  apply wp_bind, wp_Ok, start_chunks; [done | lia | exact Hlt].
Qed.

(** The chunk has been written; the quotient is printed to its left. *)
Lemma printed_padded out ds D out1 q out' :
  digits_below radix D -> pos out = (length D + pos out1)%nat -> 0 < q -> printed out1 (D ++ ds) q out' ->
  printed out ds (q * radix ^ Z.of_nat (length D) + numeral radix D) out'.
Proof.
  intros HD Hp Hq (D' & Hw' & HD' & Hz & En' & Hp').
  exists (D' ++ D). rewrite <- app_assoc. split_and!; [done | by apply Forall_app | | | rewrite length_app; lia].
  - destruct D' as [|d D']; [|done]. unfold numeral in En'. cbn in En'. lia.
  - by rewrite numeral_app, En'.
Qed.

Lemma classic_chunk_spec f rest dividend out ds :
  started f -> IsPowerOfTwo radix = false -> digits_ok rest -> digits_ok dividend -> length rest = length dividend -> written out ds ->
  val dividend < radix ^ Z.of_nat (pos out) -> digit_base <= val dividend ->
  wp (classic_chunk f rest dividend out) (fun '(rest', out') => exists n, (0 < n)%nat /\
    radix ^ Z.of_nat n <= digit_base /\
    length rest' = length rest /\ digits_ok rest' /\ val rest' = val dividend / radix ^ Z.of_nat n /\
    padded out ds n (val dividend mod radix ^ Z.of_nat n) out').
Proof.
  intros Hf Hp Hrest Hd Hl Hw Hroom Hbig. unfold classic_chunk. rewrite (st_radix f Hf).
  destruct (Z.eqb_spec radix 10) as [<- | _]; [by apply DivideByMagic_spec|].
  destruct Hf as [_ Hn Ediv Hlt]. set (n := chunk_chars_ f) in *. rewrite Ediv in *.
  assert (0 < radix ^ Z.of_nat n) as HC by (apply Z.pow_pos_nonneg; lia).
  assert (dividend <> []) as Hne by (intros ->; cbn in Hbig; pose proof digit_base_ge; lia).
  assert (rest <> []) as Hne' by (intros ->; destruct dividend; done).
  apply wp_bind. eapply wp_mono; [apply DivideSingle_spec; try done; [unfold is_digit; lia | lia | right; left; lia]|].
  intros [rest' r] (Hl' & Hrest' & Hv & ->). specialize (Hv Hne').
  assert (n <= pos out)%nat as Hnp.
  { destruct (Nat.le_gt_cases n (pos out)) as [|Hgt]; [done|].
    pose proof (Z.pow_le_mono_r radix (Z.of_nat (pos out)) (Z.of_nat n)). lia. }
  apply wp_bind. eapply wp_mono; [apply (BasecaseMiddle_spec n _ out ds); [apply Z.mod_pos_bound; lia | done | done]|].
  intros out' Hpad. apply wp_ret. exists n. split_and!; try (done || lia).
Qed.

Lemma classic_interrupt_spec f rest p :
  steady p -> wpP (classic_interrupt f rest) p (fun t p' => t = false /\ status_le p p').
Proof.
  intros Hst. unfold classic_interrupt. destruct V8_ADVANCED_BIGINT_ALGORITHMS eqn:Ea.
  - apply wpP_ret. split; [done | apply status_le_refl].
  - destruct Hst as [? | Hu]; [congruence|]. apply wpP_bind, wpP_AddWorkEstimate. intros p' Hle. apply wpP_should_terminate.
    pose proof (uninterrupted_le _ _ Hle Hu) as [Hs _]. rewrite Hs. done.
Qed.

Lemma classic_loop_spec fuel f rest dividend out ds p :
  started f -> IsPowerOfTwo radix = false -> steady p -> digits_ok rest -> digits_ok dividend -> length rest = length dividend ->
  written out ds -> val dividend < radix ^ Z.of_nat (pos out) -> digit_base <= val dividend < 2 ^ Z.of_nat fuel ->
  wpP (classic_loop fuel f rest dividend out) p (fun out' p' => status_le p p' /\ printed out ds (val dividend) out').
Proof.
  intros Hf Hpow. revert rest dividend out ds p. induction fuel as [|fuel IH];
    intros rest dividend out ds p Hst Hrest Hd Hl Hw Hroom Hbig; cbn [classic_loop].
  { change (2 ^ Z.of_nat 0) with 1 in Hbig. pose proof digit_base_ge. lia. }
  apply wpP_bind, wpP_lift. eapply wp_mono; [apply (classic_chunk_spec f rest dividend out ds); (done || lia)|].
  intros [rest' out1] (n & Hn & HC & Hl' & Hrest' & Ev & Hpad).
  set (C := radix ^ Z.of_nat n) in *.
  assert (2 <= C) as HC2.
  { unfold C. rewrite <- (Z.pow_1_r 2). transitivity (radix ^ 1); [by rewrite Z.pow_1_r, Z.pow_1_r; lia | apply Z.pow_le_mono_r; lia]. }
  pose proof (Z.div_mod (val dividend) C ltac:(lia)) as Edm. pose proof (Z.mod_pos_bound (val dividend) C ltac:(lia)).
  rewrite <- Ev in Edm.
  assert (0 < val rest') as Hpos by nia.
  assert (val rest' < radix ^ Z.of_nat (pos out1)) as Hroom1.
  { destruct Hpad as (_ & _ & _ & _ & _ & Hpos'). rewrite Hpos', Nat2Z.inj_add, Z.pow_add_r in Hroom by lia. fold C in Hroom. nia. }
  assert (val rest' < 2 ^ Z.of_nat fuel) as Hfuel.
  { rewrite Nat2Z.inj_succ, Z.pow_succ_r in Hbig by lia. nia. }
  replace (val dividend) with (val rest' * C + val dividend mod C) by lia.
  apply wpP_bind. eapply wpP_mono; [by apply classic_interrupt_spec|]. intros t p1 [-> Hle1].
  pose proof (digits_ok_Normalize rest' Hrest') as Hnok. pose proof (val_Normalize rest') as Hnv.
  pose proof (normalized_Normalize rest') as Hnn. destruct Hpad as (D & HlD & Hw1 & HD & En & Hpp).
  subst n. rewrite <- En in *. case_bool_decide as Hlen.
  - assert (digit_base <= val (Normalize rest')) as Hbig'.
    { etrans; [|apply normalized_lower; [done | done | intros E; rewrite E in Hlen; cbn in Hlen; lia]].
      rewrite <- bpow_1. apply bpow_le. lia. }
    eapply wpP_mono; [apply (IH (Normalize rest') (Normalize rest') out1 (D ++ ds)); try done; [by eapply steady_le | by rewrite Hnv | lia]|].
    intros out' p' [Hle' Hpr]. rewrite Hnv in Hpr. split; [by eapply status_le_trans | by apply (printed_padded out ds D out1)].
  - destruct (Normalize rest') as [|d [|]]; cbn [val length] in *; [lia | | lia]. apply Forall_cons_1 in Hnok as [Hdd _].
    apply wpP_bind, wpP_lift. cbn [rd lookup list_lookup]. rewrite (st_radix f Hf). apply wp_ret, wpP_lift.
    eapply wp_mono; [apply (BasecaseLast_spec d out1 (D ++ ds)); (done || lia)|].
    intros out' Hpr. split; [done|]. apply (printed_padded out ds D out1); try done. by replace (val rest') with d by lia.
Qed.

(** [Classic] prints the number, whatever the platform does unless it can interrupt it. *)
Lemma Classic_spec f p :
  started f -> IsPowerOfTwo radix = false -> steady p -> digits_ok (digits_ f) -> normalized (digits_ f) -> digits_ f <> [] ->
  written (out_ f) [] -> val (digits_ f) < radix ^ Z.of_nat (pos (out_ f)) ->
  wpP (Classic f) p (fun f' p' => status_le p p' /\ sign_ f' = sign_ f /\
    printed (out_ f) [] (val (digits_ f)) (out_ f')).
Proof.
  intros Hf Hpow Hst HX Hn Hne Hw Hroom. unfold Classic. pose proof (val_pos_of_normalized _ HX Hn Hne) as Hpos.
  pose proof (normalized_lower _ HX Hn Hne) as Hlow. pose proof (val_bounds _ HX) as Hup. set (X := digits_ f) in *.
  apply wpP_bind. eapply wpP_mono with (Q := fun out p' => status_le p p' /\ printed (out_ f) [] (val X) out).
  2: { intros out p' [Hle Hpr]. apply wpP_ret. by split_and!. }
  rewrite bool_decide_false by (destruct X; done). case_bool_decide as H1.
  - destruct X as [|d [|]]; try done. cbn [val] in *. rewrite Z.mul_0_r, Z.add_0_r in *. apply Forall_cons_1 in HX as [Hd _].
    apply wpP_bind, wpP_lift. cbn [rd lookup list_lookup]. rewrite (st_radix f Hf). apply wp_ret, wpP_lift.
    eapply wp_mono; [apply (BasecaseLast_spec d (out_ f) []); (done || lia)|]. intros out Hpr. split; [apply status_le_refl | done].
  - assert (1 < length X)%nat by (destruct X as [|? [|]]; cbn in *; lia || done).
    apply classic_loop_spec; try done; [apply uninitialized_ok | apply length_uninitialized|].
    split; [etrans; [|exact Hlow]; rewrite <- bpow_1; apply bpow_le; lia|].
    rewrite bpow_bits in Hup. rewrite Nat2Z.inj_mul, Z2Nat.id by (destruct kDigitBits_cases; lia). rewrite Z.mul_comm. lia.
Qed.

(** ** The length of the result *)

(** The table entries, less one, underestimate the bits of a character. *)
Lemma min_bits m : kMaxBitsPerChar !! Z.to_nat radix = Some m -> IsPowerOfTwo radix = false ->
  50 <= m - 1 /\ 2 ^ (m - 1) <= radix ^ 32.
Proof.
  intros Hm Hp.
  assert (forallb (fun r => IsPowerOfTwo r || (50 <=? nth (Z.to_nat r) kMaxBitsPerChar 0 - 1) &&
    (2 ^ (nth (Z.to_nat r) kMaxBitsPerChar 0 - 1) <=? r ^ 32)) (seqZ 2 35) = true) as Hall by (vm_compute; reflexivity).
  rewrite forallb_forall in Hall. specialize (Hall radix).
  assert (In radix (seqZ 2 35)) as Hin by (apply list_elem_of_In, elem_of_seqZ; lia). specialize (Hall Hin).
  rewrite Hp, (nth_lookup_Some _ _ _ _ Hm) in Hall. cbn [orb] in Hall.
  by apply andb_true_iff in Hall as [?%Z.leb_le ?%Z.leb_le].
Qed.

Lemma pow_root a b k : 0 <= a -> 0 <= b -> 0 < k -> a ^ k <= b ^ k -> a <= b.
Proof.
  intros Ha Hb Hk Hle. destruct (Z.le_gt_cases a b) as [|Hgt]; [done|].
  pose proof (Z.pow_lt_mono_l b a k ltac:(lia) ltac:(lia)). lia.
Qed.

Lemma DIV_CEIL_ge a b : 0 < b -> 0 < a -> a <= DIV_CEIL a b * b /\ (DIV_CEIL a b - 1) * b < a.
Proof. intros Hb Ha. unfold DIV_CEIL. pose proof (Z.div_mod (a - 1) b ltac:(lia)). pose proof (Z.mod_pos_bound (a - 1) b Hb). nia. Qed.

Lemma chars_required m bits : kMaxBitsPerChar !! Z.to_nat radix = Some m -> IsPowerOfTwo radix = false -> 0 < bits ->
  2 ^ bits <= radix ^ DIV_CEIL (bits * kBitsPerCharTableMultiplier) (m - 1).
Proof.
  intros Hm Hp Hb. destruct (min_bits m Hm Hp) as [Hm1 Hle]. change kBitsPerCharTableMultiplier with 32.
  destruct (DIV_CEIL_ge (bits * 32) (m - 1) ltac:(lia) ltac:(lia)) as [Hge Hge']. set (r := DIV_CEIL (bits * 32) (m - 1)) in *.
  assert (0 < r) by nia. apply (pow_root _ _ 32); [apply Z.pow_nonneg; lia | apply Z.pow_nonneg; lia | lia|].
  rewrite <- !Z.pow_mul_r by lia. rewrite (Z.mul_comm r 32), (Z.pow_mul_r radix) by lia.
  etrans; [apply (Z.pow_le_mono_r 2 (bits * 32) ((m - 1) * r)); lia|]. rewrite Z.pow_mul_r by lia. apply Z.pow_le_mono_l.
  split; [apply Z.pow_nonneg; lia | done].
Qed.

Lemma power_of_two_bits : IsPowerOfTwo radix = true ->
  1 <= CountTrailingZeros radix <= 5 /\ radix = 2 ^ CountTrailingZeros radix.
Proof.
  intros Hp.
  assert (forallb (fun r => implb (IsPowerOfTwo r) ((1 <=? CountTrailingZeros r) && (CountTrailingZeros r <=? 5) &&
    (r =? 2 ^ CountTrailingZeros r))) (seqZ 2 35) = true) as Hall by (vm_compute; reflexivity).
  rewrite forallb_forall in Hall. specialize (Hall radix).
  assert (In radix (seqZ 2 35)) as Hin by (apply list_elem_of_In, elem_of_seqZ; lia). specialize (Hall Hin).
  rewrite Hp in Hall. cbn [implb] in Hall.
  apply andb_true_iff in Hall as [[?%Z.leb_le ?%Z.leb_le]%andb_true_iff ?%Z.eqb_eq]. done.
Qed.

(** The promised length has room for the numeral and the sign. *)
Lemma ToStringResultLength_spec X sign :
  digits_ok X -> normalized X -> X <> [] -> Z.of_nat (length X) * kDigitBits <= 2 ^ 30 ->
  wp (ToStringResultLength X radix sign) (fun n => exists r : nat, val X < radix ^ Z.of_nat r /\ Z.of_nat r + Z.b2z sign <= n).
Proof.
  intros HX Hn Hne Hlen. unfold ToStringResultLength. apply wp_bind.
  eapply wp_mono; [by apply BitLength_spec|]. intros bits (Hb & Hlow & Hup). apply wp_bind.
  destruct (IsPowerOfTwo radix) eqn:Hp.
  - destruct (power_of_two_bits Hp) as [Hcb Er]. set (cb := CountTrailingZeros radix) in *. apply wp_ret, wp_ret.
    destruct (DIV_CEIL_ge bits cb ltac:(lia) ltac:(lia)) as [Hge _]. set (r := DIV_CEIL bits cb) in *.
    assert (0 < r) by nia. exists (Z.to_nat r). rewrite Z2Nat.id by lia. split; [|destruct sign; cbn; lia].
    rewrite Er, <- Z.pow_mul_r by lia. eapply Z.lt_le_trans; [exact Hup|]. apply Z.pow_le_mono_r; lia.
  - destruct max_bits_lookup as [m Hm]. rewrite (rd_table _ _ Hm). cbn [mbind res_bind].
    pose proof (chars_required m bits Hm Hp ltac:(lia)) as Hreq. destruct (min_bits m Hm Hp) as [Hm1 _].
    change kBitsPerCharTableMultiplier with 32 in *.
    destruct (DIV_CEIL_ge (bits * 32) (m - 1) ltac:(lia) ltac:(lia)) as [Hge Hge']. set (r := DIV_CEIL (bits * 32) (m - 1)) in *.
    assert (0 < r) by nia. apply wp_bind, wp_dcheck; [apply Z.ltb_lt; nia|]. apply wp_ret, wp_ret.
    exists (Z.to_nat r). rewrite Z2Nat.id by lia. split; [lia|]. destruct sign; cbn; lia.
Qed.

(** ** The end *)

(** The text of a number with the sign [sign] and the digits [D]. *)
Definition text (sign : bool) (D : list Z) : list Z := (if sign then [char_minus] else []) ++ map digit_char D.

Lemma Finish_spec f D :
  written (out_ f) D -> D <> [] -> digits_below radix D -> no_leading_zero D -> (sign_ f = true -> (0 < pos (out_ f))%nat) ->
  wp (Finish f) (fun '(excess, cs) => length cs = length (chars (out_ f)) /\
    (excess + length (text (sign_ f) D) = length cs)%nat /\ take (length (text (sign_ f) D)) cs = text (sign_ f) D).
Proof.
  intros Hw Hne HD Hz Hs. unfold Finish. unfold written in Hw. destruct (out_ f) as [cs p]. cbn [chars pos] in *.
  assert (length cs = (p + length D)%nat) as Hl by (rewrite Hw, length_app, length_replicate, length_map; done).
  destruct D as [|d D]; [done|]. apply wp_bind, wp_dcheck; [apply bool_decide_eq_true; cbn in Hl; lia|].
  apply Forall_cons_1 in HD as [Hd HD].
  assert (skip_zeros (S (length cs)) (mkCursor cs p) = Ok (mkCursor cs p)) as ->.
  { cbn [skip_zeros pos chars]. rewrite bool_decide_true by (cbn in Hl; lia).
    assert (rd cs p = Ok (digit_char d)) as ->.
    { unfold rd. rewrite Hw. rewrite lookup_app_r by (rewrite length_replicate; lia). by rewrite length_replicate, Nat.sub_diag. }
    cbn [mbind res_bind]. destruct (Z.eqb_spec (digit_char d) char_0) as [E | _]; [|done].
    apply digit_char_0 in E; [|lia]. subst d. by destruct Hz. }
  cbn [mbind res_bind]. apply wp_bind.
  apply (wp_mono _ (fun o => chars o = replicate (pos o) kStringZapValue ++ text (sign_ f) (d :: D) /\ length (chars o) = length cs)).
  { unfold text. destruct (sign_ f).
    - specialize (Hs eq_refl). destruct p as [|p]; [lia|]. rewrite Hw at 1. rewrite push_chars. apply wp_Ok. cbn [chars pos].
      split; [done|]. rewrite Hl, length_app, length_replicate. cbn [length map]. rewrite length_map. lia.
    - by apply wp_ret. }
  intros [cs' p'] [Ecs El]. cbn [chars pos] in *. apply wp_ret.
  set (T := text (sign_ f) (d :: D)) in *. assert (length cs' = (p' + length T)%nat) as El' by (by rewrite Ecs, length_app, length_replicate).
  assert (drop p' cs' = T) as Ed by (rewrite Ecs; apply drop_app_length'; by rewrite length_replicate).
  rewrite Ed. unfold splice. rewrite take_0, app_nil_l, Nat.add_0_l, take_app_length, length_app.
  pose proof (length_drop cs' (length T)) as Hld. split_and!; [lia | lia | done].
Qed.

(** A numeral has no more digits than fit. *)
Lemma numeral_length D (r : nat) : digits_below radix D -> no_leading_zero D -> numeral radix D < radix ^ Z.of_nat r ->
  (length D <= r)%nat.
Proof.
  intros HD Hz Hlt. destruct (decide (D = [])) as [-> | Hne]; [cbn; lia|].
  pose proof (numeral_lower radix D ltac:(lia) HD Hz Hne) as Hlow. destruct (Nat.le_gt_cases (length D) r) as [|Hgt]; [done|].
  pose proof (Z.pow_le_mono_r radix (Z.of_nat r) (Z.of_nat (length D - 1))). lia.
Qed.
End printing.
