(* ===== verification/ToStringPowerTwo.v ===== *)
(** Printing with a radix that is a power of two: [ToStringFormatter::BasePowerOfTwo] of
    [src/bigint/tostring.cc]. *)

From Stdlib Require Import ZArith Lia.
From stdpp Require Import base tactics numbers list option.
From S2P Require Import Prelude Digit Digits VectorArithmetic Processor MulSchoolbook MulKaratsuba DivHelpers MulToom Multiply DivSchoolbook DivBurnikel DivBarrett FromString FromStringSpec ToString ToStringSpec.

#[local] Open Scope Z_scope.

Section power_two.
Context `{Config, Platform}.
Context {alloc : Allocator} {fft : FftMultiplier}.
Context (radix cb : Z) (Hradix : radix = 2 ^ cb) (Hcb : 1 <= cb <= 5).
(** The number that is printed, and the buffer at the start. *)
Context (V : Z) (out0 : cursor) (Hroom : V < radix ^ Z.of_nat (pos out0)).

(** The digits [D] have been written, and [rest] is what is left of the number. *)
Record emitted (D : list Z) (rest : Z) (out : cursor) : Prop := {
  em_written : written out D;
  em_digits : digits_below radix D;
  em_pos : pos out0 = (length D + pos out)%nat;
  em_value : V = numeral radix D + radix ^ Z.of_nat (length D) * rest;
}.

Lemma radix_range : 2 <= radix <= 36.
Proof. rewrite Hradix. assert (cb = 1 \/ cb = 2 \/ cb = 3 \/ cb = 4 \/ cb = 5) as [-> | [-> | [-> | [-> | ->]]]] by lia; cbn; lia. Qed.

Lemma mask_mod x : Z.land x (radix - 1) = x mod radix.
Proof. rewrite Hradix. replace (2 ^ cb - 1) with (Z.ones cb) by (rewrite Z.ones_equiv; lia). apply Z.land_ones. lia. Qed.

Lemma shift_div x : Z.shiftr x cb = x / radix.
Proof. rewrite Hradix. apply Z.shiftr_div_pow2. lia. Qed.

(** There is room for a character as long as something is left. *)
Lemma emitted_room D rest out : emitted D rest out -> 0 < rest -> (0 < pos out)%nat.
Proof.
  intros [_ HD Hp Hv] Hr. pose proof radix_range.
  pose proof (numeral_bound radix D ltac:(lia) HD).
  assert (radix ^ Z.of_nat (length D) < radix ^ Z.of_nat (pos out0)) as Hlt by nia.
  apply Z.pow_lt_mono_r_iff in Hlt; lia.
Qed.

Lemma wp_emit {A} D rest d out (k : cursor -> res A) (Q : A -> Prop) :
  emitted D rest out -> 0 < rest -> d = rest mod radix ->
  (forall out', emitted (d :: D) (rest / radix) out' -> wp (k out') Q) ->
  wp (c ← conversion_char d; out ← push out c; k out) Q.
Proof.
  intros He Hr -> HQ. pose proof radix_range. pose proof (Z.mod_pos_bound rest radix ltac:(lia)) as Hm.
  rewrite conversion_char_spec by lia. cbn [mbind res_bind].
  apply wp_bind, (wp_push out D); [apply He | by eapply emitted_room|]. intros out' Hw Hp. apply HQ. destruct He as [_ HD Hp0 Hv]. split.
  - done.
  - apply Forall_cons_2; [lia | done].
  - cbn [length]. lia.
  - rewrite numeral_cons. cbn [length]. rewrite Nat2Z.inj_succ, Z.pow_succ_r by lia. pose proof (Z.div_mod rest radix ltac:(lia)). nia.
Qed.

(** Taking a character off the low [avail] bits of what is left. *)
Lemma split_char digit avail Hh :
  cb <= avail -> 0 <= digit < 2 ^ avail ->
  (digit + 2 ^ avail * Hh) mod radix = digit mod radix /\
  (digit + 2 ^ avail * Hh) / radix = digit / radix + 2 ^ (avail - cb) * Hh /\ 0 <= digit / radix < 2 ^ (avail - cb).
Proof.
  intros Ha Hd. pose proof radix_range.
  assert (2 ^ avail = 2 ^ (avail - cb) * radix) as E by (rewrite Hradix, <- Z.pow_add_r by lia; f_equal; lia).
  replace (digit + 2 ^ avail * Hh) with (digit + (2 ^ (avail - cb) * Hh) * radix) by lia.
  rewrite Z.mod_add, Z.div_add by lia. split_and!; [done | done | apply Z.div_pos; lia | apply Z.div_lt_upper_bound; lia].
Qed.

Lemma power_two_chars_spec fuel D digit avail Hh out :
  emitted D (digit + 2 ^ avail * Hh) out -> 0 < Hh -> 0 <= avail <= Z.of_nat fuel -> 0 <= digit < 2 ^ avail ->
  wp (power_two_chars fuel cb (radix - 1) digit avail out) (fun '(digit', avail', out') =>
    0 <= avail' < cb /\ 0 <= digit' < 2 ^ avail' /\ exists D', emitted D' (digit' + 2 ^ avail' * Hh) out').
Proof.
  revert D digit avail out. induction fuel as [|fuel IH]; intros D digit avail out He Hh0 Hf Hd; cbn [power_two_chars];
    destruct (Z.leb_spec cb avail); try lia; try (apply wp_ret; split_and!; try lia; by exists D).
  destruct (split_char digit avail Hh) as (Em & Eq & Hq); [done | done|].
  assert (0 < 2 ^ avail) by (apply Z.pow_pos_nonneg; lia).
  rewrite mask_mod, shift_div. eapply wp_emit; [exact He | nia | done|]. intros out' He'. rewrite Eq in He'.
  eapply IH; [exact He' | done | lia | done].
Qed.

Lemma power_two_last_spec fuel D digit out :
  emitted D digit out -> 0 <= digit < 2 ^ Z.of_nat fuel -> (digit = 0 -> no_leading_zero D) ->
  wp (power_two_last fuel cb (radix - 1) digit out) (printed radix out0 [] V).
Proof.
  revert D digit out. induction fuel as [|fuel IH]; intros D digit out He Hf Hz; cbn [power_two_last];
    destruct (Z.eqb_spec digit 0) as [E | Hne].
  1, 3: apply wp_ret; destruct He as [Hw HD Hp Hv]; exists D; rewrite app_nil_r; split_and!; try done; [by apply Hz | rewrite Hv, E; lia].
  { cbn in Hf. lia. }
  rewrite mask_mod, shift_div. pose proof radix_range. rewrite Nat2Z.inj_succ, Z.pow_succ_r in Hf by lia.
  eapply wp_emit; [exact He | lia | done|]. intros out' He'. eapply IH; [exact He' | |].
  - split; [apply Z.div_pos; lia | apply Z.div_lt_upper_bound; [lia|]]. pose proof (Z.pow_pos_nonneg 2 (Z.of_nat fuel)). nia.
  - intros E. unfold no_leading_zero. cbn [head]. intros [= E']. pose proof (Z.div_mod digit radix ltac:(lia)). lia.
Qed.

(** The next digit above [avail] leftover bits. *)
Lemma next_digit digit avail d :
  0 <= avail < cb -> 0 <= digit < 2 ^ avail -> is_digit d ->
  let W := digit + 2 ^ avail * d in
  Z.land (Z.lor digit (wrap (Z.shiftl d avail))) (radix - 1) = W mod radix /\ Z.shiftr d (cb - avail) = W / radix.
Proof.
  intros Ha Hd Hdd W. assert (0 < kDigitBits - avail /\ cb <= kDigitBits) as [? ?] by (destruct kDigitBits_cases; lia).
  assert (0 < 2 ^ avail) by (apply Z.pow_pos_nonneg; lia). split.
  - rewrite mask_mod. rewrite Z.shiftl_mul_pow2 by lia. unfold wrap, digit_base, W.
    assert (2 ^ kDigitBits = 2 ^ (kDigitBits - avail) * 2 ^ avail) as E by (rewrite <- Z.pow_add_r by lia; f_equal; lia).
    rewrite E, Z.mul_mod_distr_r, Z.lor_comm, lor_shiftl_add by (try apply Z.pow_nonzero; lia).
    rewrite <- Z.mul_mod_distr_r, <- E by (try apply Z.pow_nonzero; lia).
    assert (2 ^ kDigitBits = radix * 2 ^ (kDigitBits - cb)) as E2 by (rewrite Hradix, <- Z.pow_add_r by lia; f_equal; lia).
    rewrite <- Zplus_mod_idemp_l, Z.mod_mod_divide, Zplus_mod_idemp_l by (exists (2 ^ (kDigitBits - cb)); lia). f_equal. lia.
  - rewrite Z.shiftr_div_pow2 by lia. unfold W.
    assert (radix = 2 ^ avail * 2 ^ (cb - avail)) as -> by (rewrite Hradix, <- Z.pow_add_r by lia; f_equal; lia).
    assert (0 < 2 ^ (cb - avail)) by (apply Z.pow_pos_nonneg; lia).
    rewrite <- Z.div_div by lia. f_equal. rewrite Z.add_comm, Z.mul_comm, Z.div_add_l by lia. rewrite Z.div_small by lia. lia.
Qed.

(** One iteration over the digits. *)
Lemma power_two_digit_spec digit avail d Hh D out :
  0 <= avail < cb -> 0 <= digit < 2 ^ avail -> is_digit d -> 0 < Hh ->
  emitted D (digit + 2 ^ avail * (d + digit_base * Hh)) out ->
  wp (c ← conversion_char (Z.land (Z.lor digit (wrap (Z.shiftl d avail))) (radix - 1));
      out ← push out c;
      power_two_chars (Z.to_nat kDigitBits) cb (radix - 1) (Z.shiftr d (cb - avail)) (kDigitBits - (cb - avail)) out)
    (fun '(digit', avail', out') => 0 <= avail' < cb /\ 0 <= digit' < 2 ^ avail' /\
       exists D', emitted D' (digit' + 2 ^ avail' * Hh) out').
Proof.
  intros Ha Hd Hdd Hh0 He. assert (cb < kDigitBits) by (destruct kDigitBits_cases; lia).
  destruct (next_digit digit avail d Ha Hd Hdd) as [Ec Es]. rewrite Ec, Es.
  set (W := digit + 2 ^ avail * d) in *.
  replace (digit + 2 ^ avail * (d + digit_base * Hh)) with (W + 2 ^ (avail + kDigitBits) * Hh) in He
    by (unfold W, digit_base; rewrite Z.pow_add_r by lia; lia).
  assert (0 < 2 ^ avail) by (apply Z.pow_pos_nonneg; lia).
  assert (0 <= W < 2 ^ (avail + kDigitBits)) as HW.
  { rewrite Z.pow_add_r by lia. fold digit_base. unfold W. unfold is_digit in Hdd. nia. }
  assert (cb <= avail + kDigitBits) as Hac by lia.
  destruct (split_char W (avail + kDigitBits) Hh Hac HW) as (Em & Eq & Hq).
  eapply wp_emit; [exact He | nia | by rewrite Em|]. intros out' He'. rewrite Eq in He'.
  replace (kDigitBits - (cb - avail)) with (avail + kDigitBits - cb) by lia.
  apply (power_two_chars_spec _ _ _ _ Hh out' He'); try done. rewrite Z2Nat.id by lia. lia.
Qed.

Lemma BasePowerOfTwo_spec f :
  tf_radix_ f = radix -> CountTrailingZeros radix = cb -> out_ f = out0 -> written out0 [] -> V = val (digits_ f) ->
  digits_ok (digits_ f) -> normalized (digits_ f) -> digits_ f <> [] ->
  wp (BasePowerOfTwo f) (fun f' => sign_ f' = sign_ f /\ printed radix out0 [] V (out_ f')).
Proof.
  intros Er Ecb Eo Hw0 EV HX Hn Hne. unfold BasePowerOfTwo. rewrite Er, Ecb, Eo. set (X := digits_ f) in *.
  destruct (exists_last Hne) as (X' & t & EX). pose proof radix_range.
  assert (0 < kDigitBits) by (destruct kDigitBits_cases; lia).
  assert (is_digit t /\ t <> 0) as [Ht Ht0].
  { split; [|intros ->; apply Hn; by rewrite EX, last_snoc].
    apply (Forall_lookup_1 _ _ (length X') t HX). by rewrite EX, list_lookup_middle. }
  assert (length X - 1 = length X')%nat as El by (rewrite EX, length_app; cbn; lia). rewrite El.
  apply wp_bind. eapply wp_mono; [apply (wp_for_loop (fun i '(digit, avail, out) =>
    0 <= avail < cb /\ 0 <= digit < 2 ^ avail /\ exists D, emitted D (digit + 2 ^ avail * val (drop i X)) out))|].
  - split_and!; try (cbn; lia). exists []. rewrite drop_0. split; [done | constructor | done|].
    unfold numeral. cbn [fold_left length]. rewrite !Z.pow_0_r. lia.
  - intros i [[digit avail] out] Hi (Ha & Hd & D & He).
    apply wp_bind, wp_rd; [lia | done|]. intros d Ed Hdd.
    assert (0 < val (drop (S i) X)) as Hh0.
    { rewrite EX, drop_app_le by lia. rewrite val_snoc.
      assert (digits_ok (drop (S i) X')) as HX' by (apply Forall_drop; rewrite EX in HX; by apply Forall_app in HX as [? _]).
      pose proof (val_nonneg _ HX'). pose proof (bpow_pos (length (drop (S i) X'))). unfold is_digit in Ht. nia. }
    rewrite (drop_S _ _ _ Ed) in He. cbn [val] in He. by apply (power_two_digit_spec digit avail d _ D).
  - rewrite Nat.add_0_l. intros [[digit avail] out] (Ha & Hd & D & He).
    rewrite EX, drop_app_length in He. cbn [val] in He. rewrite Z.mul_0_r, Z.add_0_r in He.
    assert (msd X = Ok t) as ->.
    { unfold msd. rewrite bool_decide_true by (rewrite EX, length_app; cbn; lia). cbn [dcheck mbind res_bind].
      unfold rd. by rewrite El, EX, list_lookup_middle. }
    destruct (next_digit digit avail t Ha Hd Ht) as [Ec Es]. cbn [mbind res_bind]. rewrite Ec, Es.
    assert (0 < 2 ^ avail) by (apply Z.pow_pos_nonneg; lia). set (W := digit + 2 ^ avail * t) in *.
    assert (0 < W) as HW0 by (unfold W, is_digit in *; nia).
    assert (W / radix < 2 ^ kDigitBits) as HWr.
    { rewrite <- Es, Z.shiftr_div_pow2 by lia. unfold is_digit, digit_base in Ht.
      pose proof (Z.div_le_upper_bound t (2 ^ (cb - avail)) t). assert (0 < 2 ^ (cb - avail)) by (apply Z.pow_pos_nonneg; lia).
      assert (t / 2 ^ (cb - avail) <= t) by (apply Z.div_le_upper_bound; nia). lia. }
    eapply wp_emit; [exact He | done | done|]. intros out' He'. apply wp_bind.
    eapply wp_mono; [apply (power_two_last_spec _ _ _ out' He')|].
    + rewrite Z2Nat.id by lia. split; [apply Z.div_pos; lia | done].
    + intros E. unfold no_leading_zero. cbn [head]. intros [= E']. pose proof (Z.div_mod W radix ltac:(lia)). lia.
    + intros out'' Hpr. by apply wp_ret.
Qed.
End power_two.
