(* ===== verification/ToStringFast.v ===== *)
(** Divide and conquer printing: [RecursionLevel] and [ToStringFormatter::Fast] of
    [src/bigint/tostring.cc]. *)

From Stdlib Require Import ZArith Lia.
From stdpp Require Import base tactics numbers list option.
From S2P Require Import Prelude Digit Digits VectorArithmetic Processor MulSchoolbook MulKaratsuba DivHelpers MulToom Multiply DivSchoolbook DivBurnikel DivBarrett FromString FromStringSpec ToString ToStringSpec.

#[local] Open Scope Z_scope.

Section fast.
Context `{Config, Platform}.
Context {alloc : Allocator} {fft : FftMultiplier}.
Context (radix : Z) (Hradix : 2 <= radix <= 36).
(** The length of the number, and the lengths for which multiplication and inversion are
    known to be correct. *)
Context (N L LI : nat) `{HMul : !Multiplier L} `{HInv : !Inverter LI}.
Context (HNL : (N + 3 <= L)%nat) (HNLI : (Nat.div2 N + 1 <= LI)%nat).

(** ** Levels *)

(** A level whose divisor, a power of the radix, has been shifted; all but the top level have
    the inverse of the divisor. *)
Record level_ok (l : RecursionLevel) : Prop := {
  lo_digits : digits_ok (divisor_ l);
  lo_length : (0 < length (divisor_ l) < L)%nat;
  lo_top : bpow (length (divisor_ l)) <= 2 * val (divisor_ l);
  lo_shift : 0 <= leading_zero_shift_ l < kDigitBits;
  lo_value : val (divisor_ l) = radix ^ Z.of_nat (char_count_ l) * 2 ^ leading_zero_shift_ l;
  lo_inverse : is_toplevel_ l = false -> digits_ok (inverse_ l) /\ length (inverse_ l) = length (divisor_ l) /\
    inverse_ok (bpow (length (divisor_ l))) (val (divisor_ l)) (bpow (length (divisor_ l)) + val (inverse_ l));
  lo_toplevel : is_toplevel_ l = true -> (N + 1 - length (divisor_ l) <= LI)%nat;
}.

(** The number of characters a list of levels produces. *)
Definition level_chars (chunk_chars : nat) (levels : list RecursionLevel) : nat :=
  match levels with [] => chunk_chars | l :: _ => (char_count_ l * 2)%nat end.

Fixpoint levels_ok (chunk_chars : nat) (levels : list RecursionLevel) : Prop :=
  match levels with
  | [] => True
  | l :: next => level_ok l /\ char_count_ l = level_chars chunk_chars next /\ Forall (fun l => is_toplevel_ l = false) next /\
      levels_ok chunk_chars next
  end.

Lemma LeftShiftDivisor_spec l :
  digits_ok (divisor_ l) -> normalized (divisor_ l) -> divisor_ l <> [] ->
  wp (LeftShiftDivisor l) (fun l' => char_count_ l' = char_count_ l /\ is_toplevel_ l' = is_toplevel_ l /\
    inverse_ l' = inverse_ l /\ length (divisor_ l') = length (divisor_ l) /\ digits_ok (divisor_ l') /\
    bpow (length (divisor_ l)) <= 2 * val (divisor_ l') /\ 0 <= leading_zero_shift_ l' < kDigitBits /\
    val (divisor_ l') = val (divisor_ l) * 2 ^ leading_zero_shift_ l').
Proof.
  intros Hd Hn Hne. unfold LeftShiftDivisor. apply wp_bind, wp_msd; [done | done|]. intros X' d E Hdd.
  assert (d <> 0) as Hd0 by (intros ->; apply Hn; by rewrite E, last_snoc).
  destruct (leading_zeros_shift _ _ _ Hd E Hd0) as (Hs & Htop & Hfit).
  apply wp_bind. eapply wp_mono; [apply LeftShift_spec; done|]. intros D' (HlD & HD & EV). apply wp_ret.
  cbn [char_count_ is_toplevel_ inverse_ divisor_ leading_zero_shift_]. rewrite EV. split_and!; (done || lia).
Qed.

(** An inverse of the top [n] digits of the divisor. *)
Lemma ComputeInverse_spec l dividend_length p (n := if bool_decide (dividend_length = 0)%nat then length (divisor_ l) else (dividend_length - length (divisor_ l))%nat) :
  uninterrupted p -> digits_ok (divisor_ l) -> bpow (length (divisor_ l)) <= 2 * val (divisor_ l) ->
  (0 < n <= LI)%nat -> (n <= length (divisor_ l))%nat ->
  wpP (ComputeInverse l dividend_length) p (fun l' p' => uninterrupted p' /\
    exists Iv, l' = mkLevel (leading_zero_shift_ l) (char_count_ l) (is_toplevel_ l) (divisor_ l) Iv /\
      digits_ok Iv /\ length Iv = n /\
      inverse_ok (bpow n) (val (drop (length (divisor_ l) - n) (divisor_ l))) (bpow n + val Iv)).
Proof.
  intros Hun Hd Htop Hn Hnl. unfold ComputeInverse. fold n. clearbody n.
  apply wpP_bind, wpP_lift, wp_dcheck; [apply bool_decide_eq_true; lia|].
  set (V := Digits_slice (divisor_ l) (length (divisor_ l) - n) n).
  assert (V = drop (length (divisor_ l) - n) (divisor_ l)) as EV.
  { unfold V, Digits_slice, slice. rewrite take_ge; [done | rewrite length_drop; lia]. }
  wpP_apply (invert_correct (L := LI) n); try done.
  { by right. }
  { apply uninitialized_ok. }
  { rewrite EV. by apply Forall_drop. }
  { apply uninitialized_ok. }
  { rewrite EV, length_drop. lia. }
  { apply length_uninitialized. }
  { by rewrite length_uninitialized. }
  { rewrite EV. pose proof (val_drop_normalized (divisor_ l) (length (divisor_ l) - n) Hd ltac:(lia) Htop) as Hv.
    by replace (length (divisor_ l) - (length (divisor_ l) - n))%nat with n in Hv by lia. }
  intros [Z' s'] p' (Hle & HlZ & HZ & _ & _ & Hinv). cbn [fst snd] in *.
  pose proof (uninterrupted_le _ _ Hle Hun) as Hun'. destruct (Hinv (proj1 Hun')) as (Iv & -> & Hok).
  apply wpP_bind, wpP_lift, wp_TrimOne, wpP_ret. split; [done|]. exists Iv. rewrite length_app in HlZ. cbn [length] in HlZ.
  apply Forall_app in HZ as [HI _]. split_and!; try (done || lia). by rewrite <- EV.
Qed.

(** ** Building the levels *)

(** The level under construction: its divisor has not been shifted yet. *)
Record fresh_level (c : nat) (l : RecursionLevel) (next : list RecursionLevel) : Prop := {
  fl_digits : digits_ok (divisor_ l);
  fl_normalized : normalized (divisor_ l);
  fl_value : val (divisor_ l) = radix ^ Z.of_nat (char_count_ l);
  fl_bound : val (divisor_ l) < bpow (N + 1);
  fl_chars : char_count_ l = level_chars c next;
  fl_toplevel : is_toplevel_ l = true;
  fl_next : Forall (fun l => is_toplevel_ l = false) next;
  fl_levels : levels_ok c next;
}.

Lemma bpow_lt_inv m n : bpow m < bpow n -> (m < n)%nat.
Proof. intros Hlt. destruct (Nat.lt_ge_cases m n) as [|Hge]; [done|]. apply bpow_le in Hge. lia. Qed.

Lemma fresh_level_length c l next : fresh_level c l next -> divisor_ l <> [] /\ (0 < length (divisor_ l) <= N + 1)%nat.
Proof.
  intros [Hd Hn Hv Hb _ _ _ _]. assert (divisor_ l <> []) as Hne.
  { intros E. rewrite E in Hv. cbn [val] in Hv. pose proof (Z.pow_pos_nonneg radix (Z.of_nat (char_count_ l))). lia. }
  split; [done|]. pose proof (normalized_lower _ Hd Hn Hne) as Hlow. split; [destruct (divisor_ l); [done | cbn; lia]|].
  assert (bpow (length (divisor_ l) - 1) < bpow (N + 1)) as Hlt by lia. apply bpow_lt_inv in Hlt. lia.
Qed.

(** Bits and digits of a normalized number. *)
Lemma bits_length X b : digits_ok X -> normalized X -> X <> [] -> 2 ^ (b - 1) <= val X < 2 ^ b -> 0 < b ->
  kDigitBits * (Z.of_nat (length X) - 1) < b <= kDigitBits * Z.of_nat (length X).
Proof.
  intros HX Hn Hne Hv Hb. pose proof (normalized_lower _ HX Hn Hne) as Hlow. pose proof (val_bounds _ HX) as Hup.
  rewrite bpow_bits in Hlow, Hup. assert (0 < kDigitBits) by (destruct kDigitBits_cases; lia).
  assert (0 < length X)%nat by (destruct X; [done | cbn; lia]). replace (Z.of_nat (length X - 1)) with (Z.of_nat (length X) - 1) in Hlow by lia.
  split.
  - apply (Z.pow_lt_mono_r_iff 2); [lia | lia | lia].
  - assert (b - 1 < kDigitBits * Z.of_nat (length X)); [|lia]. apply (Z.pow_lt_mono_r_iff 2); [lia | nia | lia].
Qed.

(** The last level is complete. *)
Lemma finish_level c l next target b :
  fresh_level c l next -> (0 < N)%nat -> kDigitBits * (Z.of_nat N - 1) < target -> target < b * 2 - 1 ->
  0 < b -> 2 ^ (b - 1) <= val (divisor_ l) < 2 ^ b ->
  wp (LeftShiftDivisor l) (fun l' => levels_ok c (l' :: next) /\ 2 ^ target <= radix ^ Z.of_nat (level_chars c (l' :: next))).
Proof.
  intros Hf HN Ht Hb Hb0 Hbits. destruct (fresh_level_length _ _ _ Hf) as [Hne Hlen]. destruct Hf as [Hd Hn Hv Hbd Hc Htl Hnx Hlv].
  pose proof (bits_length _ b Hd Hn Hne Hbits Hb0) as Hbl. assert (0 < kDigitBits) by (destruct kDigitBits_cases; lia).
  eapply wp_mono; [by apply LeftShiftDivisor_spec|]. intros l' (Ec & Et & Ei & El & HD & Htop & Hs & EV).
  split.
  - cbn [levels_ok]. split_and!; try done; [|congruence]. split; rewrite ?El; try done; try lia; [congruence..|].
    intros _. assert (kDigitBits * (Z.of_nat N - 1) < kDigitBits * (2 * Z.of_nat (length (divisor_ l)))) as Hlt by lia.
    apply Z.mul_lt_mono_pos_l in Hlt; [|done]. pose proof (Nat.div2_odd N). destruct (Nat.odd N); cbn [Nat.b2n] in *; lia.
  - cbn [level_chars]. rewrite Ec, Nat2Z.inj_mul, Z.pow_mul_r, <- Hv, Z.pow_2_r by lia.
    etrans; [apply (Z.pow_le_mono_r 2 target ((b - 1) + (b - 1))); lia|]. rewrite Z.pow_add_r by lia.
    assert (0 < 2 ^ (b - 1)) by (apply Z.pow_pos_nonneg; lia). nia.
Qed.

(** The previous top level becomes an inner one. *)
Lemma inner_level_spec {A} c l next target b p (k : RecursionLevel -> PM A) Q
    (prev := mkLevel (leading_zero_shift_ l) (char_count_ l) false (divisor_ l) (inverse_ l)) :
  fresh_level c l next -> uninterrupted p -> target <= kDigitBits * Z.of_nat N -> b * 2 - 1 <= target ->
  0 < b -> 2 ^ (b - 1) <= val (divisor_ l) < 2 ^ b ->
  (forall l' p', uninterrupted p' -> is_toplevel_ l' = false -> char_count_ l' = char_count_ l -> levels_ok c (l' :: next) ->
     wpP (k l') p' Q) ->
  wpP (prev ← lift (LeftShiftDivisor prev); prev ← ComputeInverse prev 0; k prev) p Q.
Proof.
  intros Hf Hun Ht Hb Hb0 Hbits HQ. destruct (fresh_level_length _ _ _ Hf) as [Hne Hlen]. destruct Hf as [Hd Hn Hv Hbd Hc Htl Hnx Hlv].
  pose proof (bits_length _ b Hd Hn Hne Hbits Hb0) as Hbl. assert (2 < kDigitBits) as Hk by (destruct kDigitBits_cases; lia).
  wpP_lift_apply (LeftShiftDivisor_spec prev); try done. intros l1 (Ec & Et & Ei & El & HD & Htop & Hs & EV).
  unfold prev in *. cbn [char_count_ is_toplevel_ inverse_ divisor_ leading_zero_shift_] in *.
  assert (length (divisor_ l) <= LI)%nat as HLI.
  { assert (kDigitBits * (2 * (Z.of_nat (length (divisor_ l)) - 1)) < kDigitBits * (Z.of_nat N + 1)) as Hlt by lia.
    apply Z.mul_lt_mono_pos_l in Hlt; [|lia]. pose proof (Nat.div2_odd N). destruct (Nat.odd N); cbn [Nat.b2n] in *; lia. }
  apply wpP_bind. eapply wpP_mono; [apply (ComputeInverse_spec l1 0); rewrite ?El; try done; rewrite bool_decide_true by done; lia|]. cbv beta.
  intros l2 p' (Hun' & Iv & -> & HI & HlI & Hok). rewrite bool_decide_true in HlI by done.
  rewrite bool_decide_true, Nat.sub_diag, drop_0 in Hok by done. rewrite El in *.
  apply HQ; cbn [char_count_ is_toplevel_ levels_ok]; try done. split_and!; try done; [|congruence].
  split; cbn [char_count_ is_toplevel_ inverse_ divisor_ leading_zero_shift_]; rewrite ?El, ?Ec, ?EV, ?Hv; try (done || lia); congruence || rewrite <- ?Hv, <- ?EV; try done.
Qed.

Lemma bits_unique v b b' : 0 < b -> 0 < b' -> 2 ^ (b - 1) <= v < 2 ^ b -> 2 ^ (b' - 1) <= v < 2 ^ b' -> b' = b.
Proof.
  intros Hb Hb' Hv Hv'.
  assert (b - 1 < b') by (apply (Z.pow_lt_mono_r_iff 2); lia). assert (b' - 1 < b) by (apply (Z.pow_lt_mono_r_iff 2); lia). lia.
Qed.

Lemma create_levels_spec fuel c l next target b p :
  fresh_level c l next -> uninterrupted p -> (0 < N)%nat -> kDigitBits * (Z.of_nat N - 1) < target <= kDigitBits * Z.of_nat N ->
  0 < b -> 2 ^ (b - 1) <= val (divisor_ l) < 2 ^ b -> target < (b - 1) * 2 ^ Z.of_nat fuel -> (0 < fuel)%nat ->
  wpP (create_levels fuel l next target) p (fun r p' => uninterrupted p' /\ exists levels, r = Some levels /\
    levels_ok c levels /\ 2 ^ target <= radix ^ Z.of_nat (level_chars c levels)).
Proof.
  intros Hf Hun HN Ht Hb0 Hbits Hfuel Hf0. revert l next b p Hf Hun Hb0 Hbits Hfuel.
  induction fuel as [|fuel IH]; intros l next b p Hf Hun Hb0 Hbits Hfuel; [lia|]. cbn [create_levels].
  destruct (fresh_level_length _ _ _ Hf) as [Hne Hlen]. pose proof Hf as [Hd Hn Hv Hbd Hc Htl Hnx Hlv].
  wpP_lift_apply (BitLength_spec); try done. intros b' (Hb' & Hbits').
  assert (b' = b) as -> by (by apply (bits_unique (val (divisor_ l))); [lia..|]).
  rewrite Nat2Z.inj_succ, Z.pow_succ_r in Hfuel by lia.
  destruct (Z.leb_spec (b * 2 - 1) target) as [Hle | Hgt].
  2: { wpP_lift_apply (finish_level c l next target b); try (done || lia). intros l' [Hok Hpow]. apply wpP_ret. split; [done|]. by exists (l' :: next). }
  set (d := divisor_ l) in *. cbn [divisor_].
  assert (val d * val d < bpow (N + 1)) as Hsq.
  { apply Z.lt_le_trans with (2 ^ b * 2 ^ b); [nia|]. rewrite <- Z.pow_add_r, bpow_bits by lia.
    apply Z.pow_le_mono_r; [lia|]. destruct kDigitBits_cases; lia. }
  wpP_apply multiply_correct; try done; [by right | apply uninitialized_ok | lia | lia | |].
  { pose proof (length_Normalize d). rewrite length_uninitialized. lia. }
  intros D p1 (Hle1 & HlD & HD & HvD). pose proof (uninterrupted_le _ _ Hle1 Hun) as Hun1. specialize (HvD (proj1 Hun1)).
  apply wpP_terminated; [destruct Hun1; congruence|]. intros _.
  apply (inner_level_spec c l next target b); try (done || lia). intros l' p2 Hun2 Htl' Ec' Hok'.
  set (b2 := Z.log2 (val d * val d) + 1).
  assert (0 < 2 ^ (b - 1)) as Hp2 by (apply Z.pow_pos_nonneg; lia). assert (0 < val d * val d) as Hd2 by nia.
  assert (2 * (b - 1) <= b2 - 1) as Hb2.
  { unfold b2. rewrite Z.add_simpl_r. apply Z.log2_le_pow2; [nia|]. replace (2 * (b - 1)) with (b - 1 + (b - 1)) by lia.
    rewrite Z.pow_add_r by lia. nia. }
  assert (0 < fuel)%nat as Hf' by (destruct fuel; [cbn in Hfuel; lia | lia]).
  apply (IH Hf' _ _ b2); cbn [divisor_]; rewrite ?val_Normalize, ?HvD.
  - split; cbn [divisor_ char_count_ is_toplevel_]; rewrite ?val_Normalize, ?HvD; try done.
    + by apply digits_ok_Normalize.
    + apply normalized_Normalize.
    + rewrite Hv, Nat2Z.inj_mul, Z.pow_mul_r, Z.pow_2_r by lia. done.
    + cbn [level_chars]. lia.
    + apply Forall_cons_2; [done|]. done.
  - done.
  - lia.
  - unfold b2. rewrite Z.add_simpl_r. pose proof (Z.log2_spec (val d * val d) Hd2). by rewrite <- Z.add_1_r in *.
  - assert (0 < 2 ^ Z.of_nat fuel) by (apply Z.pow_pos_nonneg; lia). nia.
Qed.

(** ** Printing one level *)

(** What a level leaves behind: the left edge of the number is printed without leading zeros,
    every other chunk with all its characters. *)
Definition level_result (is_last : bool) (out : cursor) (ds : list Z) (n : nat) (v : Z) (out' : cursor) : Prop :=
  if is_last then printed radix out ds v out' else padded radix out ds n v out'.

(** The room a level needs. *)
Definition level_room (is_last : bool) (out : cursor) (n : nat) (v : Z) : Prop :=
  if is_last then 0 < v < radix ^ Z.of_nat (pos out) else (n <= pos out)%nat.

Lemma digit_char_zero : digit_char 0 = char_0.
Proof. reflexivity. Qed.

Lemma padded_pad out ds D out1 k :
  written out1 (replicate k 0 ++ D ++ ds) -> digits_below radix D -> pos out = (k + length D + pos out1)%nat ->
  padded radix out ds (k + length D) (numeral radix D) out1.
Proof.
  intros Hw HD Hp. exists (replicate k 0 ++ D). rewrite <- app_assoc, length_app, length_replicate. split_and!; try done.
  - apply Forall_app. split; [apply Forall_replicate; lia | done].
  - rewrite numeral_app. enough (numeral radix (replicate k 0) = 0) as ->; [lia|].
    clear. unfold numeral. induction k as [|k IH]; [done | exact IH].
Qed.

Lemma FillWithZeros_spec f level out ds D out1 (n := match level with None => chunk_chars_ f | Some l => (char_count_ l * 2)%nat end) :
  written out1 (D ++ ds) -> digits_below radix D -> pos out = (length D + pos out1)%nat -> (length D <= n <= pos out)%nat ->
  wp (FillWithZeros f level (pos out) out1 false) (padded radix out ds n (numeral radix D)).
Proof.
  intros Hw HD Hp Hn. unfold FillWithZeros. fold n. set (k := (n - length D)%nat).
  replace (Z.of_nat (pos out1) - (Z.of_nat (pos out) - Z.of_nat n)) with (Z.of_nat k) by lia.
  apply wp_bind, wp_dcheck; [apply Z.leb_le; lia|]. rewrite Nat2Z.id.
  eapply wp_mono; [apply (wp_for_loop (fun i o => written o (replicate i 0 ++ D ++ ds) /\ pos out1 = (i + pos o)%nat))|].
  - done.
  - intros i o Hi [Hwo Hpo]. rewrite <- digit_char_zero. apply (wp_push o (replicate i 0 ++ D ++ ds) 0); [done | lia|].
    intros o' Hwo' Hpo'. split; [done | lia].
  - rewrite Nat.add_0_l. intros o [Hwo Hpo]. replace n with (k + length D)%nat by lia. apply padded_pad; (done || lia).
Qed.

(** The end of a call: fill up what has been printed. *)
Lemma fill_result f level out ds D out1 is_last v (n := match level with None => chunk_chars_ f | Some l => (char_count_ l * 2)%nat end) :
  written out1 (D ++ ds) -> digits_below radix D -> pos out = (length D + pos out1)%nat -> numeral radix D = v ->
  (is_last = true -> no_leading_zero D) -> (is_last = false -> length D <= n)%nat -> level_room is_last out n v ->
  wp (FillWithZeros f level (pos out) out1 is_last) (level_result is_last out ds n v).
Proof.
  intros Hw HD Hp Hv Hz Hl Hroom. destruct is_last; cbn [level_result level_room] in *.
  - apply wp_ret. exists D. split_and!; (done || by apply Hz).
  - subst v. apply FillWithZeros_spec; try done. specialize (Hl eq_refl). fold n. lia.
Qed.

(** The shifted chunk, and how the shift is undone. *)
Lemma shifted_chunk_spec chunk shift inplace :
  digits_ok chunk -> chunk <> [] -> 0 <= shift < kDigitBits ->
  wp (ShiftedDigits_new chunk shift inplace) (fun s => digits_ok (sd_digits s) /\ val (sd_digits s) = val chunk * 2 ^ shift /\
    (length (sd_digits s) <= S (length chunk))%nat /\
    wp (ShiftedDigits_Reset s) (fun r => let chunk' := if inplace_ r then sd_digits r else chunk in
      digits_ok chunk' /\ val chunk' = val chunk /\ (length chunk' <= S (length chunk))%nat /\ chunk' <> [])).
Proof.
  intros HX Hne Hs. unfold ShiftedDigits_new. apply wp_bind, wp_msd; [done | done|]. intros X' d E Hd.
  destruct (Z.ltb_spec shift 0); [lia|].
  assert (0 < 2 ^ shift <= digit_base) as Hp2 by (split; [apply Z.pow_pos_nonneg; lia | apply Z.pow_le_mono_r; lia]).
  assert (forall s : ShiftedDigits, digits_ok (sd_digits s) -> val (sd_digits s) = val chunk * 2 ^ shift -> shift_ s = shift ->
    (length chunk <= length (sd_digits s) <= S (length chunk))%nat ->
    wp (ShiftedDigits_Reset s) (fun r => let chunk' := if inplace_ r then sd_digits r else chunk in
      digits_ok chunk' /\ val chunk' = val chunk /\ (length chunk' <= S (length chunk))%nat /\ chunk' <> [])) as Hreset.
  { intros s Hsd Ev Es Hl. unfold ShiftedDigits_Reset. destruct (inplace_ s) eqn:Ei; [|apply wp_ret; rewrite Ei; split_and!; (done || lia)].
    apply wp_bind. pose proof (length_Normalize (sd_digits s)).
    eapply wp_mono; [apply RightShift_spec; [done | lia | lia]|]. intros Z' (HlZ & HZ & EZ). apply wp_ret. cbn [inplace_ sd_digits].
    rewrite EZ, Ev, Es, Z.div_mul by lia. split_and!; try (done || lia). intros ->. destruct chunk; [done | cbn in *; lia]. }
  assert (forall len storage ip, length storage = len -> (length chunk <= len <= S (length chunk))%nat -> val chunk * 2 ^ shift < bpow len ->
    wp (storage ← LeftShift storage chunk shift; mret (mkShiftedDigits storage shift ip)) (fun s =>
    digits_ok (sd_digits s) /\ val (sd_digits s) = val chunk * 2 ^ shift /\ (length (sd_digits s) <= S (length chunk))%nat /\
    wp (ShiftedDigits_Reset s) (fun r => let chunk' := if inplace_ r then sd_digits r else chunk in
      digits_ok chunk' /\ val chunk' = val chunk /\ (length chunk' <= S (length chunk))%nat /\ chunk' <> []))) as Hcore.
  { intros len storage ip Hls Hlen Hfit. apply wp_bind. eapply wp_mono; [apply LeftShift_spec; [done | lia | lia | by rewrite Hls]|].
    intros Z' (HlZ & HZ & EZ). apply wp_ret. split_and!; try (done || cbn; lia). apply Hreset; cbn [sd_digits shift_]; (done || lia). }
  pose proof (val_bounds _ HX) as Hv.
  assert (shift <= CountLeadingZeros d -> val chunk * 2 ^ shift < bpow (length chunk)) as Hsmall.
  { intros Hc. pose proof (CountLeadingZeros_ge d shift Hd ltac:(lia) Hc) as Hdb. rewrite E in HX. apply Forall_app in HX as [HX' _].
    pose proof (val_snoc_bounds X' d HX') as Hsb. rewrite E, length_app. cbn [length]. rewrite Nat.add_1_r, bpow_S.
    assert (digit_base = 2 ^ (kDigitBits - shift) * 2 ^ shift) as Eb by (unfold digit_base; rewrite <- Z.pow_add_r by lia; f_equal; lia).
    pose proof (bpow_pos (length X')). rewrite Eb. nia. }
  destruct (Z.ltb_spec (CountLeadingZeros d) shift) as [Hlt | Hge]; cbv zeta;
    (destruct (Z.eqb_spec shift 0) as [E0 | _]; [apply wp_ret; rewrite E0, Z.pow_0_r, Z.mul_1_r in *|]).
  - split_and!; try (done || cbn; lia). apply Hreset; cbn [sd_digits shift_]; (done || lia).
  - apply (Hcore (S (length chunk))); [apply length_uninitialized | lia|]. rewrite bpow_S. nia.
  - split_and!; try (done || cbn; lia). apply Hreset; cbn [sd_digits shift_]; (done || lia).
  - apply (Hcore (length chunk)); [destruct inplace; [done | apply length_uninitialized] | lia | by apply Hsmall].
Qed.

(** Bit-normalized digits are normalized. *)
Lemma level_divisor_normalized l : level_ok l -> normalized (divisor_ l) /\ divisor_ l <> [] /\ 0 < val (divisor_ l).
Proof.
  intros Hl. pose proof (lo_length l Hl). pose proof (lo_top l Hl) as Htop. pose proof (bpow_pos (length (divisor_ l))).
  assert (divisor_ l <> []) as Hne by (intros E; rewrite E in *; cbn in *; lia). split_and!; [|done | lia].
  destruct (exists_last Hne) as (X & d & E). rewrite E in *. unfold normalized. rewrite last_snoc. intros [= ->].
  pose proof (lo_digits l Hl) as Hd. rewrite E in Hd. apply Forall_app in Hd as [HX _]. pose proof (val_bounds X HX).
  rewrite val_snoc, length_app in Htop. cbn [length] in Htop. rewrite Nat.add_1_r, bpow_S in Htop. pose proof digit_base_ge.
  pose proof (bpow_pos (length X)). nia.
Qed.

(** The inverse that [split_chunk] uses is accurate. *)
Lemma level_inverse_spec level m p (lv := if is_toplevel_ level then ComputeInverse level m else mret level) :
  level_ok level -> uninterrupted p -> (length (divisor_ level) < m <= 2 * length (divisor_ level))%nat ->
  (is_toplevel_ level = true -> m <= N + 1)%nat ->
  wpP lv p (fun level' p' => uninterrupted p' /\ divisor_ level' = divisor_ level /\ is_toplevel_ level' = is_toplevel_ level /\
    wp (GetInverse level' m) (fun Iv => digits_ok Iv /\ length Iv = (m - length (divisor_ level))%nat /\
      barrett_inverse (bpow (length Iv)) (bpow (length (divisor_ level) - length Iv)) (val (divisor_ level)) (bpow (length Iv) + val Iv))).
Proof.
  intros Hl Hun Hm Htopl. pose proof (level_divisor_normalized level Hl) as (_ & _ & Hpos). unfold lv. clear lv.
  destruct (is_toplevel_ level) eqn:Et.
  - pose proof (lo_toplevel level Hl Et). specialize (Htopl eq_refl).
    eapply wpP_mono; [apply (ComputeInverse_spec level m); rewrite ?bool_decide_false by lia; try (done || lia); apply Hl|]. cbv beta.
    intros level' p' (Hun' & Iv & -> & HI & HlI & Hok). rewrite bool_decide_false in HlI, Hok by lia. cbn [divisor_ is_toplevel_].
    split_and!; try done. unfold GetInverse. cbn [inverse_ divisor_]. rewrite HlI, Nat.sub_diag.
    apply wp_bind, wp_dcheck; [apply bool_decide_eq_true; lia|]. apply wp_bind, wp_dcheck; [apply bool_decide_eq_true; lia|].
    unfold Digits_plus. apply wp_bind, wp_dcheck; [apply bool_decide_eq_true; lia|]. apply wp_ret. rewrite drop_0.
    split_and!; [done | done|]. rewrite HlI. set (B := divisor_ level) in *. set (k := (length B - (m - length B))%nat) in *.
    pose proof (val_bounds _ (digits_ok_take k B (lo_digits level Hl))) as Hb0. rewrite length_take, Nat.min_l in Hb0 by lia.
    pose proof (val_bounds _ (digits_ok_drop k B (lo_digits level Hl))) as Hv. rewrite length_drop in Hv.
    pose proof (val_drop_normalized B k (lo_digits level Hl) ltac:(lia) (lo_top level Hl)) as Hvt.
    replace (length B - k)%nat with (m - length B)%nat in * by lia.
    rewrite (val_split B k), length_take, Nat.min_l by lia. rewrite Z.add_comm, (Z.mul_comm (bpow k)).
    pose proof (bpow_pos (m - length B)). pose proof (bpow_pos k). pose proof (val_nonneg Iv HI). apply inverse_of_top; try done; lia.
  - apply wpP_ret. split_and!; try done. destruct (lo_inverse level Hl Et) as (HI & HlI & Hok). unfold GetInverse.
    apply wp_bind, wp_dcheck; [apply bool_decide_eq_true; lia|]. apply wp_bind, wp_dcheck; [apply bool_decide_eq_true; lia|].
    unfold Digits_plus. apply wp_bind, wp_dcheck; [apply bool_decide_eq_true; lia|]. apply wp_ret.
    set (I0 := inverse_ level) in *. rewrite HlI. set (n := length (divisor_ level)) in *. set (k := (n - (m - n))%nat).
    assert (length (drop k I0) = m - n)%nat as Hld by (rewrite length_drop; lia). rewrite Hld.
    split_and!; [by apply Forall_drop | done|]. replace (n - (m - n))%nat with k by done.
    apply (top_of_inverse _ _ _ (bpow n + val I0) _ (val (take k I0))).
    + apply bpow_pos.
    + done.
    + rewrite <- bpow_add. by replace (m - n + k)%nat with n by lia.
    + rewrite (val_split I0 k), length_take, Nat.min_l by lia. replace n with (m - n + k)%nat at 1 by lia. rewrite bpow_add. lia.
    + pose proof (val_bounds _ (digits_ok_take k I0 HI)) as Hb0. rewrite length_take, Nat.min_l in Hb0 by lia. lia.
Qed.

Lemma split_chunk_spec level X p (B := divisor_ level) :
  level_ok level -> uninterrupted p -> digits_ok X -> normalized X -> (2 <= length X <= 2 * length B)%nat -> val B <= val X ->
  (is_toplevel_ level = true -> length X <= N + 1)%nat ->
  wpP (split_chunk level X) p (fun r p' => uninterrupted p' /\ exists hi lo, r = Some (hi, lo) /\ digits_ok hi /\ digits_ok lo /\
    hi <> [] /\ lo <> [] /\ val hi = val X / val B /\ val lo = val X mod val B).
Proof.
  intros Hl Hun HX HnX HlX Hle Htop. destruct (level_divisor_normalized level Hl) as (HnB & HneB & Hpos). fold B in HnB, HneB, Hpos.
  pose proof (lo_digits level Hl) as HB. fold B in HB. pose proof (normalized_length_le B X HB HX HnB Hle) as Hlen.
  pose proof (lo_length level Hl) as HlB. fold B in HlB.
  unfold split_chunk. fold B. set (n := length B) in *.
  assert (forall m, uninitialized m <> [] <-> (0 < m)%nat) as Hun0.
  { intros m. pose proof (length_uninitialized m) as E. destruct (uninitialized m); cbn in E; split; intros; (done || lia). }
  case_bool_decide as Hz0.
  - wpP_apply DivideSchoolbook_spec; [apply uninitialized_ok | done | done | done | lia | lia | | right; rewrite length_uninitialized; lia |].
    { right. left. rewrite length_uninitialized. lia. }
    intros [hi lo] p' (Hst & Hlh & Hll & Hhi & Vhi & Vlo). apply wpP_ret. split; [by eapply uninterrupted_le|].
    destruct Vlo as [Hlo Vlo]; [apply Hun0; lia|]. exists hi, lo.
    rewrite length_uninitialized in Hlh, Hll. split_and!; try done.
    + intros ->. cbn in Hlh. lia.
    + intros ->. cbn in Hll. lia.
    + apply Vhi, Hun0. lia.
  - case_bool_decide as Hz1.
    + assert (exists d, B = [d]) as [d EB] by (destruct B as [|d [|]]; [done | by exists d | cbn in *; lia]).
      assert (rd B 0 = Ok d) as -> by (by rewrite EB). apply wpP_bind, wpP_lift. apply wp_Ok.
      rewrite EB in HB. apply Forall_cons_1 in HB as [Hd _].
      assert (val B = d) as EvB by (rewrite EB; cbn [val]; lia). rewrite EvB in Hpos.
      wpP_lift_apply DivideSingle_spec; [apply uninitialized_ok | done | intros ->; cbn in *; lia | done | lia | |].
      { right. left. rewrite length_uninitialized. lia. }
      intros [hi r] (Hlh & Hhi & Vhi & ->). rewrite length_uninitialized in Hlh.
      pose proof (Z.mod_pos_bound (val X) d Hpos). unfold is_digit in Hd.
      destruct (uninitialized (n + 1)) as [|u U] eqn:Eu; [pose proof (length_uninitialized (n + 1)) as E; rewrite Eu in E; cbn in E; lia|].
      apply wpP_bind, wpP_lift, wp_wr; [cbn; lia|]. cbn [insert list_insert].
      change ((val X mod d) :: U) with ([val X mod d] ++ U). apply wpP_bind, wpP_lift, wp_zero_from; [done|].
      apply wpP_ret. split; [done|]. eexists hi, _. split_and!; try done.
      * apply Forall_app. split; [apply Forall_singleton; unfold is_digit; lia | apply Forall_replicate, is_digit_0].
      * intros ->. cbn in Hlh. lia.
      * rewrite EvB. apply Vhi, Hun0. lia.
      * rewrite val_app_zeros, EvB. cbn [val]. lia.
    + wpP_apply (level_inverse_spec level (length X)); try (done || fold B; fold n; lia).
      intros level' p1 (Hun1 & Ed & Et & Hget). rewrite Et.
      apply wpP_bind. eapply wpP_mono with (Q := fun t p' => t = false /\ p' = p1).
      { destruct (is_toplevel_ level); [|by apply wpP_ret]. apply wpP_should_terminate. destruct Hun1 as [Hs _]. by rewrite Hs. }
      intros t p' [-> ->]. apply wpP_bind, wpP_lift. eapply wp_mono; [exact Hget|]. clear Hget. intros Iv (HI & HlI & Hok).
      fold B n in HlI, Hok. rewrite Ed. fold B.
      wpP_apply (DivideBarrettWith_correct L); rewrite ?length_uninitialized; fold n; try (apply uninitialized_ok || done || lia).
      { by right. }
      { apply (lo_top level Hl). }
      intros [[hi lo] s] p2 ((Hst & Hlh & Hhi & Hll & Hlo & Hval) & _ & _). pose proof (uninterrupted_le _ _ Hst Hun1) as Hun2.
      apply wpP_terminated; [destruct Hun2; congruence|]. intros Hs. destruct (Hval Hs) as [Vhi Vlo]. apply wpP_ret. split; [done|].
      rewrite length_uninitialized in Hlh, Hll. exists hi, lo. split_and!; try done; intros ->; [cbn in Hlh | cbn in Hll]; lia.
Qed.

Lemma level_result_digits is_last out ds k v out1 :
  level_result is_last out ds k v out1 ->
  exists D, written out1 (D ++ ds) /\ digits_below radix D /\ pos out = (length D + pos out1)%nat /\ numeral radix D = v /\
    (is_last = true -> no_leading_zero D) /\ (is_last = false -> length D = k).
Proof.
  destruct is_last; cbn [level_result]; intros (D & HD); exists D.
  - destruct HD as (? & ? & ? & ? & ?). by split_and!.
  - destruct HD as (? & ? & ? & ? & ?). split_and!; (done || lia).
Qed.

(** The result of the level below is filled up. *)
Lemma widen_result f level out ds k v out1 is_last :
  level_result is_last out ds k v out1 -> (k <= char_count_ level * 2)%nat -> level_room is_last out (char_count_ level * 2) v ->
  wp (FillWithZeros f (Some level) (pos out) out1 is_last) (level_result is_last out ds (char_count_ level * 2) v).
Proof.
  intros Hres Hk Hroom. destruct (level_result_digits _ _ _ _ _ _ Hres) as (D & Hw & HD & Hp & Hv & Hz & Hl).
  apply (fill_result f (Some level) out ds D); try done. intros E. specialize (Hl E). lia.
Qed.

(** The two halves together. *)
Lemma join_halves is_last out ds k lo out1 hi out2 D :
  written out1 (D ++ ds) -> digits_below radix D -> length D = k -> numeral radix D = lo -> pos out = (k + pos out1)%nat -> 0 < hi ->
  level_result is_last out1 (D ++ ds) k hi out2 ->
  level_result is_last out ds (k * 2) (hi * radix ^ Z.of_nat k + lo) out2.
Proof.
  intros Hw HD Hl Hv Hp Hhi Hres. subst k lo. destruct is_last; cbn [level_result] in *.
  - by apply (printed_padded radix out ds D out1).
  - destruct Hres as (D2 & Hl2 & Hw2 & HD2 & Hv2 & Hp2). exists (D2 ++ D). rewrite length_app, <- app_assoc.
    split_and!; [lia | done | by apply Forall_app | by rewrite numeral_app, Hv2 | lia].
Qed.

(** Step 0: at most one digit is left. *)
Lemma process_digit f levels chunk out ds is_last p (n := level_chars (chunk_chars_ f) levels) :
  started radix f -> digits_ok chunk -> (length (Normalize chunk) <= 1)%nat -> val chunk < radix ^ Z.of_nat n -> written out ds ->
  level_room is_last out n (val chunk) ->
  wpP (out1 ← (if bool_decide (length (Normalize chunk) = 1)%nat then
        d ← lift (rd (Normalize chunk) 0); lift (BasecaseLast (tf_radix_ f) d out) else mret out);
      lift (FillWithZeros f (head levels) (pos out) out1 is_last)) p
    (fun out' p' => p' = p /\ level_result is_last out ds n (val chunk) out').
Proof.
  intros Hf HX Hl Hv Hw Hroom. pose proof (digits_ok_Normalize chunk HX) as Hnok. pose proof (val_Normalize chunk) as Hnv.
  pose proof (val_pos_of_normalized _ Hnok (normalized_Normalize chunk)) as Hpos.
  assert (forall D out1, written out1 (D ++ ds) -> digits_below radix D -> no_leading_zero D -> numeral radix D = val chunk ->
    pos out = (length D + pos out1)%nat ->
    wpP (lift (FillWithZeros f (head levels) (pos out) out1 is_last)) p
      (fun out' p' => p' = p /\ level_result is_last out ds n (val chunk) out')) as Hfill.
  { intros D out1 Hw1 HD Hz En Hp. assert (length D <= n)%nat as HlD by (apply (numeral_length radix Hradix); [done | done | lia]).
    apply wpP_lift. eapply wp_mono with (Q := level_result is_last out ds n (val chunk)); [|done].
    unfold n in *. destruct levels as [|l levels]; [apply (fill_result f None out ds D) | apply (fill_result f (Some l) out ds D)]; try done. }
  apply wpP_bind. rewrite (st_radix radix f Hf). case_bool_decide as Hone.
  - destruct (Normalize chunk) as [|d [|]]; try done. cbn [val] in *. apply Forall_cons_1 in Hnok as [Hd _].
    specialize (Hpos ltac:(done)). apply wpP_bind, wpP_lift. cbn [rd lookup list_lookup]. apply wp_ret, wpP_lift.
    assert (d = val chunk) as Ed by lia. rewrite <- Ed in *.
    assert (d < radix ^ Z.of_nat (pos out)) as Hr.
    { destruct is_last; cbn [level_room] in Hroom; [lia|]. eapply Z.lt_le_trans; [exact Hv|]. apply Z.pow_le_mono_r; lia. }
    eapply wp_mono; [apply (BasecaseLast_spec radix Hradix d out ds); (done || lia)|].
    intros out1 (D & Hw1 & HD & Hz & En & Hp). by apply (Hfill D).
  - destruct (Normalize chunk) as [|d [|]]; cbn [length] in *; try lia. cbn [val] in Hnv. apply wpP_ret.
    apply (Hfill []); try done. constructor.
Qed.

(** Chunks with fewer digits than the divisor belong to the level below. *)
Lemma short_chunk level X : level_ok level -> digits_ok X -> (length (Normalize X) < length (divisor_ level))%nat ->
  val X < radix ^ Z.of_nat (char_count_ level).
Proof.
  intros Hl HX Hlen. pose proof (val_bounds _ (digits_ok_Normalize X HX)) as Hv. rewrite val_Normalize in Hv.
  pose proof (bpow_le (length (Normalize X)) (length (divisor_ level) - 1) ltac:(lia)) as Hle.
  pose proof (lo_top level Hl) as Htop. rewrite (lo_value level Hl) in Htop. pose proof (lo_shift level Hl) as Hs.
  replace (length (divisor_ level)) with (S (length (divisor_ level) - 1)) in Htop at 1 by lia. rewrite bpow_S in Htop.
  set (k := bpow (length (divisor_ level) - 1)) in *. set (s := leading_zero_shift_ level) in *.
  assert (2 * 2 ^ s <= digit_base) as H2s.
  { rewrite <- Z.pow_succ_r by lia. apply Z.pow_le_mono_r; lia. }
  assert (0 < 2 ^ s) by (apply Z.pow_pos_nonneg; lia). pose proof (bpow_pos (length (divisor_ level) - 1)) as Hk. fold k in Hk.
  assert (k * (2 * 2 ^ s) <= radix ^ Z.of_nat (char_count_ level) * (2 * 2 ^ s)) as Hm by nia.
  apply Z.mul_le_mono_pos_r in Hm; lia.
Qed.

(** The recursive calls of a level: on the tail [next], with the chunk's value below the
    divisor. *)
Definition processes (f : ToStringFormatter) (next : list RecursionLevel) : Prop :=
  forall chunk inplace out ds is_last p, uninterrupted p -> digits_ok chunk ->
    val chunk < radix ^ Z.of_nat (level_chars (chunk_chars_ f) next) -> written out ds ->
    level_room is_last out (level_chars (chunk_chars_ f) next) (val chunk) ->
    wpP (ProcessLevel f next chunk inplace out is_last) p (fun out' p' => uninterrupted p' /\
      level_result is_last out ds (level_chars (chunk_chars_ f) next) (val chunk) out').

Lemma level_room_le is_last out k n v : level_room is_last out n v -> (k <= n)%nat -> level_room is_last out k v.
Proof. destruct is_last; cbn [level_room]; [done | lia]. Qed.

(** A chunk smaller than the divisor: the level below, and zeros. *)
Lemma process_below f level next chunk inplace out ds is_last p :
  level_ok level -> char_count_ level = level_chars (chunk_chars_ f) next -> processes f next -> uninterrupted p -> digits_ok chunk ->
  val chunk < radix ^ Z.of_nat (char_count_ level) -> written out ds -> level_room is_last out (char_count_ level * 2) (val chunk) ->
  wpP (out1 ← ProcessLevel f next chunk inplace out is_last; lift (FillWithZeros f (Some level) (pos out) out1 is_last)) p
    (fun out' p' => uninterrupted p' /\ level_result is_last out ds (char_count_ level * 2) (val chunk) out').
Proof.
  intros Hl Hc Hnext Hun HX Hv Hw Hroom. rewrite Hc in Hv. apply wpP_bind.
  eapply wpP_mono; [apply (Hnext chunk inplace out ds is_last p); try done; eapply level_room_le; [exact Hroom | lia]|].
  intros out1 p1 [Hun1 Hres]. apply wpP_lift. eapply wp_mono; [eapply widen_result; [exact Hres | lia | done]|]. done.
Qed.

(** A chunk equal to the divisor: ['1'] and zeros. *)
Lemma process_equal f level next out ds is_last p :
  char_count_ level = level_chars (chunk_chars_ f) next -> written out ds ->
  level_room is_last out (char_count_ level * 2) (radix ^ Z.of_nat (char_count_ level)) -> (0 < char_count_ level)%nat ->
  wpP (out1 ← (out1 ← lift (FillWithZeros f (head next) (pos out) out false); lift (push out1 char_1));
       lift (FillWithZeros f (Some level) (pos out) out1 is_last)) p
    (fun out' p' => p' = p /\ level_result is_last out ds (char_count_ level * 2) (radix ^ Z.of_nat (char_count_ level)) out').
Proof.
  intros Hc Hw Hroom Hpos. set (k := char_count_ level) in *.
  assert (k < pos out)%nat as Hkp.
  { destruct is_last; cbn [level_room] in Hroom; [|lia]. destruct Hroom as [_ Hlt]. apply Z.pow_lt_mono_r_iff in Hlt; lia. }
  apply wpP_bind, wpP_bind, wpP_lift.
  assert (wp (FillWithZeros f (head next) (pos out) out false) (padded radix out ds k 0)) as Hfill.
  { rewrite Hc. destruct next as [|l next]; [apply (FillWithZeros_spec f None out ds []) | apply (FillWithZeros_spec f (Some l) out ds [])];
      try done; try constructor; cbn in *; lia. }
  eapply wp_mono; [exact Hfill|]. intros out1 (D & HlD & Hw1 & HD & Hv & Hp). apply wpP_lift.
  change char_1 with (digit_char 1). apply (wp_push out1 (D ++ ds) 1); [done | lia|]. intros out2 Hw2 Hp2.
  apply wpP_lift. eapply wp_mono; [|by intros out'; split; [done|]]. 
  apply (fill_result f (Some level) out ds (1 :: D)); try done.
  - apply Forall_cons_2; [lia | done].
  - cbn [length]. lia.
  - rewrite numeral_cons, HlD, Hv. lia.
  - intros _. cbn [length]. fold k. lia.
Qed.

(** A larger chunk is split: the quotient is printed to the left of the remainder. *)
Lemma process_split f level next v X out ds is_last p (R := radix ^ Z.of_nat (char_count_ level)) :
  level_ok level -> char_count_ level = level_chars (chunk_chars_ f) next -> processes f next -> uninterrupted p ->
  digits_ok X -> normalized X -> (2 <= length X)%nat -> val X = v * 2 ^ leading_zero_shift_ level -> R < v < R * R ->
  (is_toplevel_ level = true -> length X <= N + 1)%nat -> written out ds -> level_room is_last out (char_count_ level * 2) v ->
  wpP (halves ← split_chunk level X;
       match halves with
       | None => mret out
       | Some (left_part, right_part) =>
           right_part ← lift (RightShift right_part right_part (leading_zero_shift_ level));
           lift (dcheck (bool_decide (length (Normalize left_part) <= length (divisor_ level))%nat));;
           right_out ← ProcessLevel f next right_part true out false;
           t ← should_terminate;
           if (t : bool) then mret (mkCursor (chars right_out) (pos out))
           else
             lift (dcheck (bool_decide (pos right_out + char_count_ level = pos out)%nat));;
             ProcessLevel f next left_part true (mkCursor (chars right_out) (pos out - char_count_ level)) is_last
       end) p
    (fun out' p' => uninterrupted p' /\ level_result is_last out ds (char_count_ level * 2) v out').
Proof.
  intros Hl Hc Hnext Hun HX HnX H2 EX Hv Htop Hw Hroom. set (k := char_count_ level) in *.
  destruct (level_divisor_normalized level Hl) as (HnB & HneB & Hpos). pose proof (lo_value level Hl) as EB. fold k R in EB.
  pose proof (lo_shift level Hl) as Hs. set (s := leading_zero_shift_ level) in *. set (B := divisor_ level) in *.
  assert (0 < 2 ^ s) as H2s by (apply Z.pow_pos_nonneg; lia).
  assert (R <= val B) as HRB by nia. pose proof (val_bounds _ (lo_digits level Hl)) as HBb. fold B in HBb.
  assert (length X <= 2 * length B)%nat as HlX.
  { assert (bpow (length X - 1) < bpow (2 * length B)) as Hlt; [|apply bpow_lt_inv in Hlt; lia].
    eapply Z.le_lt_trans; [apply normalized_lower; [done | done | intros ->; cbn in *; lia]|].
    replace (2 * length B)%nat with (length B + length B)%nat by lia. rewrite bpow_add, EX. nia. }
  wpP_apply (split_chunk_spec level X); try done; [fold B; rewrite EX, EB; nia|].
  intros r p1 (Hun1 & hi & lo & -> & Hhi & Hlo & Hneh & Hnel & Vhi & Vlo). fold B in Vhi, Vlo. rewrite EX, EB in Vhi, Vlo.
  rewrite Z.div_mul_cancel_r in Vhi by lia. rewrite Z.mul_mod_distr_r in Vlo by lia.
  pose proof (Z.div_mod v R ltac:(lia)) as Edm. pose proof (Z.mod_pos_bound v R ltac:(lia)) as Hmb.
  assert (0 < v / R < R) as Hq by (split; [apply Z.div_str_pos; lia | apply Z.div_lt_upper_bound; lia]).
  pose proof (length_Normalize lo). wpP_lift_apply RightShift_spec; [done | lia | lia|].
  intros lo' (Hll' & Hlo' & Vlo'). rewrite Vlo, Z.div_mul in Vlo' by lia.
  apply wpP_bind, wpP_lift, wp_dcheck.
  { apply bool_decide_eq_true, normalized_length_le; [by apply digits_ok_Normalize | apply Hl | apply normalized_Normalize|].
    rewrite val_Normalize. fold B. lia. }
  assert (2 * k <= pos out \/ is_last = true)%nat as Hcase by (destruct is_last; [by right | cbn [level_room] in Hroom; left; lia]).
  assert (k < pos out)%nat as Hkp.
  { destruct is_last; cbn [level_room] in Hroom.
    - assert (R < radix ^ Z.of_nat (pos out)) as Hlt by lia. apply Z.pow_lt_mono_r_iff in Hlt; lia.
    - assert (0 < k)%nat; [|lia]. destruct (Nat.eq_0_gt_0_cases k) as [E0|]; [|done]. unfold R in Hv. rewrite E0, Z.pow_0_r in Hv. lia. }
  apply wpP_bind. eapply wpP_mono; [apply (Hnext lo' true out ds false p1); try done|].
  { rewrite Vlo', <- Hc. apply Hmb. }
  { cbn [level_room]. rewrite <- Hc. lia. }
  rewrite <- Hc, Vlo'. intros out1 p2 (Hun2 & D & HlD & Hw1 & HD & En & Hp).
  apply wpP_terminated; [destruct Hun2; congruence|]. intros _.
  apply wpP_bind, wpP_lift, wp_dcheck; [apply bool_decide_eq_true; lia|].
  replace (pos out - k)%nat with (pos out1) by lia.
  eapply wpP_mono; [apply (Hnext hi true (mkCursor (chars out1) (pos out1)) (D ++ ds) is_last p2); try done|].
  { rewrite Vhi, <- Hc. apply Hq. }
  { rewrite Vhi, <- Hc. destruct is_last; cbn [level_room pos] in *; [|lia]. split; [lia|].
    rewrite Hp, Nat2Z.inj_add, Z.pow_add_r in Hroom by lia. fold R in Hroom. apply Z.div_lt_upper_bound; lia. }
  rewrite <- Hc, Vhi. intros out2 p3 [Hun3 Hres]. split; [done|].
  pose proof (join_halves is_last out ds k (v mod R) (mkCursor (chars out1) (pos out1)) (v / R) out2 D Hw1 HD HlD En Hp
    (proj1 Hq) Hres) as Hj. fold R in Hj. by replace (v / R * R + v mod R) with v in Hj by lia.
Qed.

Lemma two_digits X : digits_ok X -> ~ (length (Normalize X) <= 1)%nat <-> digit_base <= val X.
Proof.
  intros HX. pose proof (normalized_Normalize X) as Hnn. pose proof (digits_ok_Normalize X HX) as Hnok.
  rewrite <- (val_Normalize X). split.
  - intros Hl. etrans; [|apply normalized_lower; [done | done | intros E; rewrite E in Hl; cbn in Hl; lia]].
    rewrite <- bpow_1. apply bpow_le. lia.
  - intros Hv Hl. pose proof (val_bounds _ Hnok). pose proof (bpow_le _ 1 Hl) as Hb. rewrite bpow_1 in Hb. lia.
Qed.

Lemma ProcessLevel_spec f levels chunk inplace out ds is_last p (n := level_chars (chunk_chars_ f) levels) :
  started radix f -> levels_ok (chunk_chars_ f) levels -> uninterrupted p -> digits_ok chunk ->
  val chunk < radix ^ Z.of_nat n -> written out ds -> level_room is_last out n (val chunk) ->
  Forall (fun l => is_toplevel_ l = true -> (length chunk <= N)%nat) levels ->
  wpP (ProcessLevel f levels chunk inplace out is_last) p (fun out' p' => uninterrupted p' /\
    level_result is_last out ds n (val chunk) out').
Proof.
  intros Hf. unfold n. clear n. revert chunk inplace out ds is_last p.
  induction levels as [|level next IH]; intros chunk inplace out ds is_last p Hlv Hun HX Hv Hw Hroom Htl;
    cbn [ProcessLevel]; case_bool_decide as Hsmall;
    try (eapply wpP_mono; [by apply process_digit|]; by intros out' p' [-> ?]).
  { exfalso. apply two_digits in Hsmall; [|done]. destruct Hf as [_ _ Ediv Hdig]. cbn [level_chars] in Hv. rewrite <- Ediv in Hv. lia. }
  destruct Hlv as (Hl & Hc & Hnt & Hlv). cbn [level_chars] in *.
  assert (processes f next) as Hnext.
  { intros chunk' ip' out' ds' last' p' Hun' HX' Hv' Hw' Hroom'. apply IH; try done.
    eapply Forall_impl; [|exact Hnt]. cbn. intros l' E E'. congruence. }
  clear IH. case_bool_decide as Hshort; [by apply process_below; [.. | apply short_chunk | |] |].
  apply Forall_cons_1 in Htl as [Htl _]. pose proof (proj1 (two_digits chunk HX) Hsmall) as Hbig.
  assert (chunk <> []) as Hne by (intros ->; cbn in Hsmall; lia).
  wpP_lift_apply (shifted_chunk_spec chunk); [done | done | apply Hl|].
  intros sh (Hsd & Esd & Hlsd & Hreset). set (X := Normalize (sd_digits sh)).
  assert (digits_ok X) as HXs by (by apply digits_ok_Normalize). assert (val X = val (sd_digits sh)) as EX by apply val_Normalize.
  rewrite Esd in EX. pose proof (lo_value level Hl) as EB. pose proof (lo_shift level Hl) as Hs.
  assert (0 < 2 ^ leading_zero_shift_ level) as H2s by (apply Z.pow_pos_nonneg; lia).
  wpP_lift_apply (Compare_spec X (divisor_ level)); [done | apply Hl|]. intros cmp (C1 & C2 & C3). rewrite EX, EB in C1, C2, C3.
  set (R := radix ^ Z.of_nat (char_count_ level)) in *.
  destruct (Z.leb_spec cmp 0) as [Hcmp | Hcmp].
  - destruct (Z.ltb_spec cmp 0) as [Hneg | Hzero].
    + assert (val chunk < radix ^ Z.of_nat (level_chars (chunk_chars_ f) next)) as Hlt by (rewrite <- Hc; fold R; nia).
      apply wpP_bind. wpP_lift_apply Hreset. intros r (HXr & Er & _). rewrite <- Er in *.
      eapply wpP_mono; [apply (Hnext _ inplace out ds is_last p); try done; eapply level_room_le; [exact Hroom | lia]|].
      intros out1 p1 [Hun1 Hres]. apply wpP_lift. eapply wp_mono; [eapply widen_result; [exact Hres | lia | done]|]. done.
    + assert (val chunk = R) as Ev by nia. rewrite Ev in *. eapply wpP_mono; [apply process_equal; try done|].
      * destruct (Nat.eq_0_gt_0_cases (char_count_ level)) as [E0|]; [|done]. unfold R in Hbig. rewrite E0, Z.pow_0_r in Hbig.
        pose proof digit_base_ge. lia.
      * by intros out' p' [-> ?].
  - apply process_split; try done.
    + apply normalized_Normalize.
    + assert (~ (length (Normalize X) <= 1)%nat) as H2 by (apply two_digits; [done | rewrite EX; nia]).
      pose proof (length_Normalize X). lia.
    + split; [nia|]. rewrite Nat2Z.inj_mul, Z.pow_mul_r, Z.pow_2_r in Hv by lia. done.
    + intros Et. specialize (Htl Et). pose proof (length_Normalize (sd_digits sh)). unfold X. lia.
Qed.

(** ** The whole algorithm *)

Lemma base_level f : started radix f ->
  fresh_level (chunk_chars_ f) (mkLevel 0 (chunk_chars_ f) true [chunk_divisor_ f] []) [] /\ 2 <= chunk_divisor_ f.
Proof.
  intros [_ Hn Ediv Hlt].
  assert (2 <= chunk_divisor_ f) as H2.
  { rewrite Ediv. replace (Z.of_nat (chunk_chars_ f)) with (Z.succ (Z.of_nat (chunk_chars_ f - 1))) by lia. rewrite Z.pow_succ_r by lia.
    pose proof (Z.pow_pos_nonneg radix (Z.of_nat (chunk_chars_ f - 1))). nia. }
  split; [|done]. split; cbn [divisor_ char_count_ is_toplevel_ level_chars levels_ok val]; try done.
  - apply Forall_singleton. unfold is_digit. lia.
  - unfold normalized. cbn. intros [= E]. lia.
  - lia.
  - pose proof (bpow_le 1 (N + 1) ltac:(lia)) as Hb. rewrite bpow_1 in Hb. lia.
Qed.

Lemma CreateLevels_spec f target p :
  started radix f -> uninterrupted p -> (0 < N)%nat -> kDigitBits * (Z.of_nat N - 1) < target <= kDigitBits * Z.of_nat N -> target < 2 ^ 31 ->
  wpP (CreateLevels (chunk_divisor_ f) (chunk_chars_ f) target) p (fun r p' => uninterrupted p' /\ exists levels, r = Some levels /\
    levels_ok (chunk_chars_ f) levels /\ 2 ^ target <= radix ^ Z.of_nat (level_chars (chunk_chars_ f) levels)).
Proof.
  intros Hf Hun HN Ht Hlim. destruct (base_level f Hf) as [Hfl H2]. unfold CreateLevels.
  pose proof (Z.log2_spec (chunk_divisor_ f) ltac:(lia)) as Hlog. pose proof (Z.log2_le_mono 2 _ H2) as Hl1. change (Z.log2 2) with 1 in Hl1.
  apply (create_levels_spec 64 _ _ _ _ (Z.log2 (chunk_divisor_ f) + 1)); try (done || lia); cbn [divisor_ val].
  rewrite Z.mul_0_r, Z.add_0_r, Z.add_simpl_r. by rewrite <- Z.add_1_r in *.
Qed.

Lemma Fast_spec f p :
  started radix f -> uninterrupted p -> digits_ok (digits_ f) -> normalized (digits_ f) -> digits_ f <> [] -> length (digits_ f) = N ->
  Z.of_nat N * kDigitBits <= 2 ^ 30 -> written (out_ f) [] -> val (digits_ f) < radix ^ Z.of_nat (pos (out_ f)) ->
  wpP (Fast f) p (fun f' p' => uninterrupted p' /\ sign_ f' = sign_ f /\ printed radix (out_ f) [] (val (digits_ f)) (out_ f')).
Proof.
  intros Hf Hun HX Hn Hne HlX Hlim Hw Hroom. unfold Fast. set (X := digits_ f) in *.
  wpP_lift_apply BitLength_spec; try done. intros b (Hb & Hbits).
  pose proof (bits_length X b HX Hn Hne Hbits ltac:(lia)) as Hbl. rewrite HlX in *.
  assert (0 < N)%nat as HN by (rewrite <- HlX; destruct X; [done | cbn; lia]).
  wpP_apply (CreateLevels_spec f b); [done | done | done | done | |].
  { assert (2 ^ 30 < 2 ^ 31) by (apply Z.pow_lt_mono_r; lia). lia. }
  intros r p1 (Hun1 & levels & -> & Hlv & Hpow). apply wpP_terminated; [destruct Hun1; congruence|]. intros _.
  wpP_apply (ProcessLevel_spec f levels X false (out_ f) [] true); try done; [lia | | |].
  { cbn [level_room]. split; [by apply val_pos_of_normalized | done]. }
  { apply Forall_forall. intros l _ _. lia. }
  intros out' p2 [Hun2 Hpr]. apply wpP_ret. by split_and!.
Qed.
End fast.
