(* ===== verification/Printing.v ===== *)
(** Conversion to a string as a whole: [Processor::ToString] writes the sign and the numeral
    of the number without leading zeros, with any of the three algorithms. *)

From Stdlib Require Import ZArith Lia.
From stdpp Require Import base tactics numbers list option.
From S2P Require Import Prelude Digit Digits VectorArithmetic Processor MulSchoolbook MulKaratsuba DivHelpers MulToom MulFft Multiply FftMultiply DivSchoolbook DivBurnikel DivBarrett DivNewton FromString FromStringSpec ToString ToStringSpec ToStringPowerTwo ToStringFast.

#[local] Open Scope Z_scope.

Section printing_all.
Context `{Config, Platform}.
Context {alloc : Allocator} {fft : FftMultiplier}.
Context (radix : Z) (Hradix : 2 <= radix <= 36).

(** The buffer [cs] and the length [n] that [ToString] returns for the value [v]: the text of
    the number, followed by zero bytes. *)
Definition prints (sign : bool) (v : Z) (out : list Z) (cs : list Z) (n : nat) : Prop :=
  exists D, digits_below radix D /\ no_leading_zero D /\ numeral radix D = v /\
    n = length (text sign D) /\ (n <= length out)%nat /\ cs = text sign D ++ replicate (length out - n) 0.

(** When the divide and conquer algorithm is used, the lengths must be ones for which
    multiplication and inversion are known to be correct. *)
Definition fast_supported (fast : bool) (X : digits) : Prop :=
  IsPowerOfTwo radix = false -> V8_ADVANCED_BIGINT_ALGORITHMS && fast = true ->
  Multiplier (length (Normalize X) + 3) /\ Inverter (Nat.div2 (length (Normalize X)) + 1).

(** The end of [ToStringImpl]. *)
Lemma finish_spec f V (out : list Z) p :
  0 < V -> length (chars (out_ f)) = length out ->
  (exists out0, pos out0 = length out /\ printed radix out0 [] V (out_ f) /\
    (sign_ f = true -> exists r : nat, V < radix ^ Z.of_nat r /\ (r < length out)%nat)) ->
  wpP ('(excess, cs) ← lift (Finish f);
       let out_length := (length out - excess)%nat in
       mret (take out_length cs ++ replicate excess 0, out_length)) p
    (fun '(cs, n) p' => p' = p /\ prints (sign_ f) V out cs n).
Proof.
  intros HV Hl (out0 & Hp0 & (D & Hw & HD & Hz & En & Hp) & Hs). rewrite app_nil_r in Hw.
  assert (D <> []) as Hne by (intros ->; unfold numeral in En; cbn in En; lia).
  wpP_lift_apply (Finish_spec radix Hradix f D); try done.
  { intros Es. destruct (Hs Es) as (r & Hr & Hrl). pose proof (numeral_length radix Hradix D r HD Hz ltac:(lia)). lia. }
  intros [excess cs] (Hlc & He & Ht). cbn [fst snd]. apply wpP_ret. split; [done|]. exists D.
  replace (length out - excess)%nat with (length (text (sign_ f) D)) by lia.
  split_and!; try done; [lia|]. rewrite Ht. f_equal. f_equal. lia.
Qed.

(** The three algorithms print into the zapped buffer. *)
Lemma ToStringImpl_spec out X sign fast p :
  uninterrupted p -> digits_ok X -> 0 < val X -> Z.of_nat (length (Normalize X)) * kDigitBits <= 2 ^ 30 ->
  wp (ToStringResultLength (Normalize X) radix sign) (fun n => n <= Z.of_nat (length out)) -> fast_supported fast X ->
  wpP (ToStringImpl out X radix sign fast) p (fun '(cs, n) p' => uninterrupted p' /\ prints sign (val X) out cs n).
Proof.
  intros Hun HX Hpos Hlim Hlen Hfast. unfold ToStringImpl, ToStringFormatter_new.
  pose proof (digits_ok_Normalize X HX) as Hnok. pose proof (normalized_Normalize X) as Hnn. pose proof (val_Normalize X) as Hnv.
  assert (Normalize X <> []) as Hne by (intros E; rewrite E in Hnv; cbn [val] in Hnv; lia).
  unfold fast_supported in Hfast. set (Y := Normalize X) in *.
  pose proof (ToStringResultLength_spec radix Hradix Y sign Hnok Hnn Hne Hlim) as Hres.
  destruct (wp_elim _ _ (wp_and _ _ _ Hlen Hres)) as (n & En & Hn & r & Hr & Hrn). clear Hres Hlen.
  set (out0 := mkCursor (replicate (length out) kStringZapValue) (length out)).
  set (f0 := mkFormatter Y radix 0 0 sign out0 0).
  assert (wp (n ← ToStringResultLength Y radix sign; dcheck (n <=? Z.of_nat (length (replicate (length out) kStringZapValue)));;
    mret (mkFormatter Y radix 0 0 sign (mkCursor (replicate (length out) kStringZapValue)
      (length (replicate (length out) kStringZapValue))) 0)) (fun f => f = f0)) as Hnew.
  { rewrite En. cbn [mbind res_bind]. rewrite length_replicate. apply wp_bind, wp_dcheck; [by apply Z.leb_le | by apply wp_ret]. }
  apply wpP_bind, wpP_lift. eapply wp_mono; [exact Hnew|]. intros f ->. clear Hnew.
  assert (written out0 []) as Hw0 by (unfold written; cbn; by rewrite app_nil_r).
  assert (val Y < radix ^ Z.of_nat (pos out0)) as Hroom.
  { eapply Z.lt_le_trans; [exact Hr|]. cbn [out0 pos]. apply Z.pow_le_mono_r; [lia|]. destruct sign; cbn in Hrn; lia. }
  assert (sign = true -> exists r : nat, val Y < radix ^ Z.of_nat r /\ (r < length out)%nat) as Hsign.
  { intros ->. exists r. cbn in Hrn. split; [done | lia]. }
  (* the common end *)
  assert (forall f p', sign_ f = sign -> uninterrupted p' -> printed radix out0 [] (val Y) (out_ f) ->
    wpP ('(excess, cs) ← lift (Finish f); let out_length := (length out - excess)%nat in
         mret (take out_length cs ++ replicate excess 0, out_length)) p'
      (fun '(cs, n) p'' => uninterrupted p'' /\ prints sign (val X) out cs n)) as Hend.
  { intros f p' Es Hun' Hpr. rewrite <- Hnv, <- Es. eapply wpP_mono; [apply (finish_spec f (val Y) out)|].
    - lia.
    - destruct Hpr as (D & Hw & _ & _ & _ & Hp). unfold written in Hw. rewrite Hw, length_app, length_replicate, length_map, app_nil_r.
      cbn [out0 pos] in Hp. lia.
    - exists out0. split_and!; [done | done|]. rewrite Es. done.
    - intros [cs m] p'' [-> ?]. done. }
  destruct (IsPowerOfTwo radix) eqn:Hp2.
  - destruct (power_of_two_bits radix Hradix Hp2) as [Hcb Er].
    wpP_lift_apply (BasePowerOfTwo_spec radix (CountTrailingZeros radix) Er Hcb (val Y) out0 Hroom f0); try done.
    intros f [Es Hpr]. by apply Hend.
  - destruct (V8_ADVANCED_BIGINT_ALGORITHMS && fast) eqn:Ef.
    + destruct (Hfast eq_refl eq_refl) as [Hmul Hinv].
      wpP_lift_apply (Start_spec radix Hradix f0); try done. intros f (Hst & Ed & Es & Eo).
      wpP_apply (Fast_spec radix Hradix (length Y) (length Y + 3) (Nat.div2 (length Y) + 1)); try done; try (rewrite ?Ed, ?Eo; done).
      rewrite Ed, Eo, Es. intros f' p1 (Hun1 & Es' & Hpr). apply wpP_terminated; [destruct Hun1; congruence|]. intros _.
      by apply Hend.
    + wpP_lift_apply (Start_spec radix Hradix f0); try done. intros f (Hst & Ed & Es & Eo).
      wpP_apply (Classic_spec radix Hradix f); try done; try (rewrite ?Ed, ?Eo; done). { by right. }
      rewrite Ed, Eo, Es. intros f' p1 (Hle & Es' & Hpr). apply Hend; try done. by eapply uninterrupted_le.
Qed.

Lemma Processor_ToString_spec out X sign p :
  uninterrupted p -> digits_ok X -> 0 < val X -> Z.of_nat (length (Normalize X)) * kDigitBits <= 2 ^ 30 ->
  wp (ToStringResultLength (Normalize X) radix sign) (fun n => n <= Z.of_nat (length out)) ->
  fast_supported (kToStringFastThreshold <=? Z.of_nat (length X)) X ->
  wpP (Processor_ToString out X radix sign) p (fun '(s, (cs, n)) p' => s = kOk /\ uninterrupted p' /\ prints sign (val X) out cs n).
Proof.
  intros Hun HX Hpos Hlim Hlen Hfast. unfold Processor_ToString, ToString. apply wpP_bind.
  eapply wpP_mono; [by apply ToStringImpl_spec|]. intros [cs n] p' [[Hs Hno] Hpr].
  apply wpP_bind. unfold wpP at 1, get_and_clear_status. apply wp_Ok, wpP_ret. by rewrite Hs.
Qed.
End printing_all.

(** ** The supported lengths *)

Section print_supported.
Context `{Config, Platform}.
Context {alloc : Allocator} {pointers : PointerEquality}.
#[local] Existing Instance nested_fft.
#[local] Opaque nested_fft.

(** Lengths of numbers for which the products of the divide and conquer algorithm are
    verified. *)
Definition print_supported (radix : Z) (n : nat) : Prop :=
  Z.of_nat n * kDigitBits <= 2 ^ 30 /\
  (IsPowerOfTwo radix = false -> mul_supported (n + 3)).

Lemma supported_fast radix X :
  print_supported radix (length (Normalize X)) -> fast_supported radix (kToStringFastThreshold <=? Z.of_nat (length X)) X.
Proof.
  intros [Hbits Hs] Hp _. set (n := length (Normalize X)) in *. pose proof kDigitBits_cases as Hw. assert (Z.of_nat (n + 3) < 2 ^ 28) as Hn by nia.
  pose proof (Multiplier_supported (n + 3) Hn (Hs Hp)) as Hm. split; [done|]. pose proof (Nat.div2_odd n) as Hodd.
  assert (2 * Nat.div2 n <= n)%nat as Hhalf by (destruct (Nat.odd n); cbn [Nat.b2n] in *; lia). destruct (decide (n < 90)%nat) as [Hlt | Hge].
  - apply Inverter_below_newton. unfold kNewtonInversionThreshold. lia.
  - by apply (Inverter_of_Multiplier (n + 3)); [done | lia | lia].
Qed.
End print_supported.
