(* ===== verification/SignedArithmetic.v ===== *)
(** Addition and subtraction of signed magnitudes in result buffers allocated by the
    [...ResultLength] functions of [bigint.h]. *)

From Stdlib Require Import ZArith Lia.
From stdpp Require Import base tactics numbers list option.
From S2P Require Import Prelude Digit Digits VectorArithmetic.

#[local] Open Scope Z_scope.

(** ** Result lengths ([bigint.h]) *)

Definition AddResultLength (x_length y_length : nat) : nat := (x_length `max` y_length + 1)%nat.

Definition AddSignedResultLength (x_length y_length : nat) (same_sign : bool) : nat :=
  if same_sign then AddResultLength x_length y_length else (x_length `max` y_length)%nat.

Definition SubtractResultLength (x_length y_length : nat) : nat := x_length.

Definition SubtractSignedResultLength (x_length y_length : nat) (same_sign : bool) : nat :=
  if same_sign then (x_length `max` y_length)%nat else AddResultLength x_length y_length.

Definition MultiplyResultLength (X Y : digits) : nat := (length X + length Y)%nat.

Section signed_arithmetic.
Context `{Config}.

Implicit Types (A B X Y Zd : digits).

Lemma bpow_max_l X n : (length X <= n)%nat -> digits_ok X -> val X < bpow n.
Proof. intros Hl HX. pose proof (val_bounds X HX). pose proof (bpow_le _ _ Hl). lia. Qed.

Lemma sum_fits X Y n :
  (length X <= n)%nat -> (length Y <= n)%nat -> digits_ok X -> digits_ok Y ->
  val X + val Y < bpow (n + 1).
Proof.
  intros HlX HlY HX HY. pose proof (bpow_max_l X n HlX HX). pose proof (bpow_max_l Y n HlY HY).
  pose proof (bpow_pos n). pose proof digit_base_ge. rewrite Nat.add_1_r, bpow_S. nia.
Qed.

(** [AddSigned] into a buffer of [AddSignedResultLength] digits. *)
Lemma AddSigned_result Zd X xn Y yn :
  digits_ok X -> digits_ok Y ->
  length Zd = AddSignedResultLength (length X) (length Y) (Bool.eqb xn yn) ->
  wp (AddSigned Zd X xn Y yn) (fun '(Z', zn) => length Z' = length Zd /\ digits_ok Z' /\
    signed_val zn (val Z') = signed_val xn (val X) + signed_val yn (val Y)).
Proof.
  intros HX HY Hl. unfold AddSignedResultLength, AddResultLength in Hl.
  unfold AddSigned. destruct (Bool.eqb xn yn) eqn:E; cbn [negb] in *.
  - apply eqb_prop in E as <-. apply wp_bind.
    eapply wp_mono; [apply Add_spec; (done || lia)|]. intros Z' (? & ? & EZ). apply wp_ret.
    rewrite Z.mod_small in EZ.
    + split_and!; try done. rewrite EZ. unfold signed_val. destruct xn; lia.
    + pose proof (val_nonneg X HX). pose proof (val_nonneg Y HY). split; [lia|].
      rewrite Hl. apply sum_fits; (done || lia).
  - assert (yn = negb xn) as -> by (destruct xn, yn; done).
    apply wp_bind. eapply wp_mono; [by apply GreaterThanOrEqual_spec|]. intros ge ->.
    pose proof (length_Normalize X). pose proof (length_Normalize Y).
    destruct (Z.leb_spec (val Y) (val X)).
    + apply wp_bind. eapply wp_mono; [apply Subtract_spec; (done || lia)|].
      intros Z' (? & ? & EZ). apply wp_ret. split_and!; try done. rewrite EZ. destruct xn; simpl; lia.
    + apply wp_bind. eapply wp_mono; [apply Subtract_spec; (done || lia)|].
      intros Z' (? & ? & EZ). apply wp_ret. split_and!; try done. rewrite EZ. destruct xn; simpl; lia.
Qed.

Lemma SubtractSigned_as_AddSigned Zd X xn Y yn :
  SubtractSigned Zd X xn Y yn = AddSigned Zd X xn Y (negb yn).
Proof. unfold SubtractSigned, AddSigned. by destruct xn, yn. Qed.

Lemma SubtractSigned_result Zd X xn Y yn :
  digits_ok X -> digits_ok Y ->
  length Zd = SubtractSignedResultLength (length X) (length Y) (Bool.eqb xn yn) ->
  wp (SubtractSigned Zd X xn Y yn) (fun '(Z', zn) => length Z' = length Zd /\ digits_ok Z' /\
    signed_val zn (val Z') = signed_val xn (val X) - signed_val yn (val Y)).
Proof.
  intros HX HY Hl. rewrite SubtractSigned_as_AddSigned.
  eapply wp_mono; [apply AddSigned_result; [done | done |]|].
  - rewrite Hl. unfold SubtractSignedResultLength, AddSignedResultLength. by destruct xn, yn.
  - intros [Z' zn] (? & ? & EZ). split_and!; try done. rewrite EZ. destruct yn; simpl; lia.
Qed.
End signed_arithmetic.
