(* ===== verification/Bitwise.v ===== *)
(** Bitwise operations on sign-magnitude numbers: [src/bigint/bitwise.cc] and the
    result lengths of [bigint.h] that belong to it.  Negative operands are passed by
    their magnitude and treated as if they were in two's complement. *)

From Stdlib Require Import ZArith Lia Btauto.
From stdpp Require Import base tactics numbers list option.
From S2P Require Import Prelude Digit Digits VectorArithmetic MulSchoolbook DivHelpers.

#[local] Open Scope Z_scope.

(** ** Result lengths *)

Definition BitwiseAnd_PosPos_ResultLength (x_length y_length : nat) : nat :=
  (x_length `min` y_length)%nat.
Definition BitwiseAnd_NegNeg_ResultLength (x_length y_length : nat) : nat :=
  (x_length `max` y_length + 1)%nat.
Definition BitwiseAnd_PosNeg_ResultLength (x_length : nat) : nat := x_length.
Definition BitwiseOrResultLength (x_length y_length : nat) : nat :=
  (x_length `max` y_length)%nat.
Definition BitwiseXor_PosPos_ResultLength (x_length y_length : nat) : nat :=
  (x_length `max` y_length)%nat.
Definition BitwiseXor_NegNeg_ResultLength (x_length y_length : nat) : nat :=
  (x_length `max` y_length)%nat.
Definition BitwiseXor_PosNeg_ResultLength (x_length y_length : nat) : nat :=
  (x_length `max` y_length + 1)%nat.

Section bitwise.
Context `{Config}.
Implicit Types X Y P R : digits.

(** [~x] on a digit. *)
Definition digit_not (x : Z) : Z := wrap (Z.lnot x).

(** [for (; i < X.len(); i++) Z[i] = X[i]]. *)
Definition copy_rest (X : digits) (i : nat) (Zd : digits) : res digits :=
  '(Zd, _) ← write_loop (length X - i) i (fun i _ _ => x ← rd X i; mret (x, tt)) Zd tt;
  mret Zd.

(** [for (; i < X.len(); i++) Z[i] = digit_sub(X[i], borrow, &borrow)]. *)
Definition sub_rest (X : digits) (i : nat) (Zd : digits) (borrow : Z) : res (digits * Z) :=
  write_loop (length X - i) i (fun i _ borrow => x ← rd X i; mret (digit_sub x borrow)) Zd borrow.

(** ** And *)

Definition BitwiseAnd_PosPos (Zd X Y : digits) : res digits :=
  let pairs := (length X `min` length Y)%nat in
  dcheck (bool_decide (pairs <= length Zd)%nat);;
  '(Zd, _) ← write_loop pairs 0
    (fun i _ _ => x ← rd X i; y ← rd Y i; mret (Z.land x y, tt)) Zd tt;
  zero_from pairs Zd.

(** The pairs loop of the [NegNeg] operations: both operands are decremented on the
    fly, [op] combines the digits. *)
Definition pairs_neg_neg (op : Z -> Z -> Z) (pairs : nat) (Zd X Y : digits)
    : res (digits * (Z * Z)) :=
  write_loop pairs 0
    (fun i _ '(x_borrow, y_borrow) =>
       x ← rd X i;
       let '(dx, x_borrow) := digit_sub x x_borrow in
       y ← rd Y i;
       let '(dy, y_borrow) := digit_sub y y_borrow in
       mret (op dx dy, (x_borrow, y_borrow))) Zd (1, 1).

Definition BitwiseAnd_NegNeg (Zd X Y : digits) : res digits :=
  let pairs := (length X `min` length Y)%nat in
  '(Zd, (x_borrow, y_borrow)) ← pairs_neg_neg Z.lor pairs Zd X Y;
  '(Zd, x_borrow) ← sub_rest X pairs Zd x_borrow;
  '(Zd, y_borrow) ← sub_rest Y (length X `max` pairs) Zd y_borrow;
  dcheck (x_borrow =? 0);;
  dcheck (y_borrow =? 0);;
  Zd ← zero_from (length X `max` length Y) Zd;
  Add_digit Zd 1.

(** The pairs loop of the [PosNeg] operations: only [Y] is decremented. *)
Definition pairs_pos_neg (op : Z -> Z -> Z) (pairs : nat) (Zd X Y : digits)
    : res (digits * Z) :=
  write_loop pairs 0
    (fun i _ borrow =>
       x ← rd X i;
       y ← rd Y i;
       let '(dy, borrow) := digit_sub y borrow in
       mret (op x dy, borrow)) Zd 1.

Definition BitwiseAnd_PosNeg (Zd X Y : digits) : res digits :=
  let pairs := (length X `min` length Y)%nat in
  '(Zd, _) ← pairs_pos_neg (fun x dy => Z.land x (digit_not dy)) pairs Zd X Y;
  Zd ← copy_rest X pairs Zd;
  zero_from (length X) Zd.

(** ** Or *)

Definition BitwiseOr_PosPos (Zd X Y : digits) : res digits :=
  let pairs := (length X `min` length Y)%nat in
  '(Zd, _) ← write_loop pairs 0
    (fun i _ _ => x ← rd X i; y ← rd Y i; mret (Z.lor x y, tt)) Zd tt;
  Zd ← copy_rest X pairs Zd;
  Zd ← copy_rest Y (length X `max` pairs) Zd;
  zero_from (length X `max` length Y) Zd.

Definition BitwiseOr_NegNeg (Zd X Y : digits) : res digits :=
  let pairs := (length X `min` length Y)%nat in
  '(Zd, _) ← pairs_neg_neg Z.land pairs Zd X Y;
  Zd ← zero_from pairs Zd;
  Add_digit Zd 1.

Definition BitwiseOr_PosNeg (Zd X Y : digits) : res digits :=
  let pairs := (length X `min` length Y)%nat in
  '(Zd, borrow) ← pairs_pos_neg (fun x dy => Z.land dy (digit_not x)) pairs Zd X Y;
  '(Zd, borrow) ← sub_rest Y pairs Zd borrow;
  dcheck (borrow =? 0);;
  Zd ← zero_from (length Y) Zd;
  Add_digit Zd 1.

(** ** Xor *)

Definition BitwiseXor_PosPos (Zd X Y : digits) : res digits :=
  let '(X, Y) := if bool_decide (length Y < length X)%nat then (Y, X) else (X, Y) in
  let pairs := length X in
  dcheck (bool_decide (length X <= length Y)%nat);;
  '(Zd, _) ← write_loop pairs 0
    (fun i _ _ => x ← rd X i; y ← rd Y i; mret (Z.lxor x y, tt)) Zd tt;
  Zd ← copy_rest Y pairs Zd;
  zero_from (length Y) Zd.

Definition BitwiseXor_NegNeg (Zd X Y : digits) : res digits :=
  let pairs := (length X `min` length Y)%nat in
  '(Zd, (x_borrow, y_borrow)) ← pairs_neg_neg Z.lxor pairs Zd X Y;
  '(Zd, x_borrow) ← sub_rest X pairs Zd x_borrow;
  '(Zd, y_borrow) ← sub_rest Y (length X `max` pairs) Zd y_borrow;
  dcheck (x_borrow =? 0);;
  dcheck (y_borrow =? 0);;
  zero_from (length X `max` length Y) Zd.

Definition BitwiseXor_PosNeg (Zd X Y : digits) : res digits :=
  let pairs := (length X `min` length Y)%nat in
  '(Zd, borrow) ← pairs_pos_neg Z.lxor pairs Zd X Y;
  Zd ← copy_rest X pairs Zd;
  '(Zd, borrow) ← sub_rest Y (length X `max` pairs) Zd borrow;
  dcheck (borrow =? 0);;
  Zd ← zero_from (length X `max` length Y) Zd;
  Add_digit Zd 1.

(** ** Bit operations digit by digit *)

(** [f] acts on each pair of bits as [op]. *)
Class BitOp (f : Z -> Z -> Z) (op : bool -> bool -> bool) : Prop := {
  bitop_spec a b n : 0 <= n -> Z.testbit (f a b) n = op (Z.testbit a n) (Z.testbit b n);
  bitop_zero : op false false = false;
}.

Lemma testbit_split a x n i :
  0 <= n -> 0 <= a < 2 ^ n -> 0 <= i ->
  Z.testbit (a + 2 ^ n * x) i = if i <? n then Z.testbit a i else Z.testbit x (i - n).
Proof.
  intros Hn Ha Hi. destruct (Z.ltb_spec i n).
  - rewrite <- (Z.mod_pow2_bits_low (a + 2 ^ n * x) n i) by lia.
    rewrite (Z.mul_comm (2 ^ n)), Z_mod_plus_full, Z.mod_small by lia. done.
  - replace i with (i - n + n) at 1 by lia. rewrite <- Z.div_pow2_bits by lia.
    rewrite (Z.mul_comm (2 ^ n)), Z.div_add, Z.div_small by lia. done.
Qed.

Lemma bitop_range f op `{!BitOp f op} a b n :
  0 <= n -> 0 <= a < 2 ^ n -> 0 <= b < 2 ^ n -> 0 <= f a b < 2 ^ n.
Proof.
  intros Hn Ha Hb. assert (f a b = f a b mod 2 ^ n) as ->.
  { apply Z.bits_inj'. intros i Hi. rewrite Z.testbit_mod_pow2 by lia.
    destruct (Z.ltb_spec i n); [done|]. rewrite bitop_spec by lia.
    rewrite <- (Z.mod_small a (2 ^ n)), <- (Z.mod_small b (2 ^ n)) by done.
    rewrite !Z.mod_pow2_bits_high by lia. apply bitop_zero. }
  apply Z.mod_pos_bound. by apply Z.pow_pos_nonneg.
Qed.

Lemma bitop_split f op `{!BitOp f op} a b x y n :
  0 <= n -> 0 <= a < 2 ^ n -> 0 <= b < 2 ^ n ->
  f (a + 2 ^ n * x) (b + 2 ^ n * y) = f a b + 2 ^ n * f x y.
Proof.
  intros Hn Ha Hb. apply Z.bits_inj'. intros i Hi.
  pose proof (bitop_range f op a b n Hn Ha Hb).
  rewrite bitop_spec, !testbit_split by done.
  destruct (Z.ltb_spec i n); by rewrite bitop_spec by lia.
Qed.

Lemma bpow_pow2 n : bpow n = 2 ^ (kDigitBits * Z.of_nat n).
Proof.
  unfold bpow, digit_base. by rewrite <- Z.pow_mul_r by (destruct kDigitBits_cases; lia).
Qed.

Lemma bitop_bpow f op `{!BitOp f op} a b x y n :
  0 <= a < bpow n -> 0 <= b < bpow n ->
  f (a + bpow n * x) (b + bpow n * y) = f a b + bpow n * f x y.
Proof.
  rewrite bpow_pow2. apply (bitop_split f op). destruct kDigitBits_cases; lia.
Qed.

Lemma bitop_digit f op `{!BitOp f op} a b : is_digit a -> is_digit b -> is_digit (f a b).
Proof. apply (bitop_range f op). destruct kDigitBits_cases; lia. Qed.

#[export] Instance land_bitop : BitOp Z.land andb.
Proof. split; [intros; apply Z.land_spec | done]. Qed.
#[export] Instance lor_bitop : BitOp Z.lor orb.
Proof. split; [intros; apply Z.lor_spec | done]. Qed.
#[export] Instance lxor_bitop : BitOp Z.lxor xorb.
Proof. split; [intros; apply Z.lxor_spec | done]. Qed.
#[export] Instance ldiff_bitop : BitOp Z.ldiff (fun a b => a && negb b).
Proof. split; [intros; apply Z.ldiff_spec | done]. Qed.
#[export] Instance ldiff_flip_bitop : BitOp (fun a b => Z.ldiff b a) (fun a b => b && negb a).
Proof. split; [intros; apply Z.ldiff_spec | done]. Qed.

Lemma land_digit_not x d : is_digit x -> Z.land x (digit_not d) = Z.ldiff x d.
Proof.
  intros Hx. unfold digit_not, wrap, digit_base. apply Z.bits_inj'. intros i Hi.
  rewrite Z.land_spec, Z.ldiff_spec, Z.testbit_mod_pow2 by (destruct kDigitBits_cases; lia).
  destruct (Z.ltb_spec i kDigitBits); [by rewrite Z.lnot_spec by done|].
  rewrite <- (Z.mod_small x (2 ^ kDigitBits)) by done.
  rewrite Z.mod_pow2_bits_high by (destruct kDigitBits_cases; lia). done.
Qed.

(** Operations that ignore the bits of their second operand where the first is zero. *)
Lemma bitop_truncate f op `{!BitOp f op} v w rest n :
  (forall y, f 0 y = 0) -> 0 <= v < bpow n -> 0 <= w < bpow n ->
  f v (w + bpow n * rest) = f v w.
Proof.
  intros Hf Hv Hw. replace v with (v + bpow n * 0) at 1 by lia.
  rewrite (bitop_bpow f op) by done. rewrite Hf. lia.
Qed.

(** ** Operands read digit by digit *)

(** After [k] digits of an operand, [v] is what was read of [val X - s] and [b] the
    borrow that is still to be taken from the rest ([s] is 0 or 1: one for an operand
    that is decremented on the fly). *)
Definition reads X (s : Z) (k : nat) (b v : Z) : Prop :=
  v = val (take k X) - s + b * bpow k /\ 0 <= b <= 1 /\ 0 <= v < bpow k.

Lemma reads_start X s : 0 <= s <= 1 -> reads X s 0 s 0.
Proof. intros. unfold reads. rewrite take_0. change (bpow 0) with 1. cbn [val]. lia. Qed.

Lemma reads_extend X s k b v x b' d :
  X !! k = Some x -> reads X s k b v -> d - b' * digit_base = x - b -> is_digit d -> 0 <= b' <= 1 ->
  reads X s (S k) b' (v + bpow k * d).
Proof.
  intros Hx (-> & Hb & Hv) Ed Hd Hb'. unfold reads.
  rewrite (val_take_S X k x Hx), bpow_S. unfold is_digit in Hd. pose proof (bpow_pos k).
  split_and!; [|lia|lia| |nia].
  - replace d with (x - b + b' * digit_base) by lia. ring.
  - nia.
Qed.

Lemma reads_end X s b v : reads X s (length X) b v -> s <= val X -> b = 0 /\ v = val X - s.
Proof.
  intros (-> & Hb & Hv) Hs. rewrite take_ge in Hv |- * by lia.
  assert (b = 0 \/ b = 1) as [-> | ->] by lia; lia.
Qed.

(** What [s] still takes from the rest. *)
Lemma reads_rest X s k b v :
  reads X s k b v -> (k <= length X)%nat ->
  val X - s = v + bpow k * (val (drop k X) - b).
Proof.
  intros (-> & _ & _) Hk. rewrite (val_split X k), length_take, Nat.min_l by lia. lia.
Qed.

Lemma reads_plain X k v : reads X 0 k 0 v -> v = val (take k X).
Proof. intros (-> & _). lia. Qed.

(** Two operands combined by [f] so far. *)
Definition combined (f : Z -> Z -> Z) X sx Y sy (k : nat) (P : digits) (bx b_y : Z) : Prop :=
  exists v w, reads X sx k bx v /\ reads Y sy k b_y w /\ val P = f v w.

Lemma combined_step f op `{!BitOp f op} X sx Y sy k P bx b_y x y bx' by' dx dy :
  combined f X sx Y sy k P bx b_y -> length P = k ->
  X !! k = Some x -> Y !! k = Some y ->
  dx - bx' * digit_base = x - bx -> is_digit dx -> 0 <= bx' <= 1 ->
  dy - by' * digit_base = y - b_y -> is_digit dy -> 0 <= by' <= 1 ->
  combined f X sx Y sy (S k) (P ++ [f dx dy]) bx' by'.
Proof.
  intros (v & w & Hv & Hw & E) HlP Hx Hy Ex Hdx Hbx' Ey Hdy Hby'.
  exists (v + bpow k * dx), (w + bpow k * dy).
  split_and!; [by eapply reads_extend | by eapply reads_extend |].
  rewrite val_snoc, HlP, E. symmetry. apply (bitop_bpow f op); [apply Hv | apply Hw].
Qed.

Lemma combined_start f op `{!BitOp f op} X sx Y sy :
  0 <= sx <= 1 -> 0 <= sy <= 1 -> combined f X sx Y sy 0 [] sx sy.
Proof.
  intros. exists 0, 0. split_and!; [by apply reads_start | by apply reads_start |].
  symmetry. apply Z.bits_inj'. intros i Hi. rewrite bitop_spec, !Z.testbit_0_l by done.
  apply bitop_zero.
Qed.

Lemma wp_pairs_neg_neg f op `{!BitOp f op} n Zd X Y (Q : digits * (Z * Z) -> Prop) :
  digits_ok X -> digits_ok Y -> (n <= length X)%nat -> (n <= length Y)%nat -> (n <= length Zd)%nat ->
  (forall P bx b_y, length P = n -> digits_ok P -> combined f X 1 Y 1 n P bx b_y ->
     Q (P ++ drop n Zd, (bx, b_y))) ->
  wp (pairs_neg_neg f n Zd X Y) Q.
Proof.
  intros HX HY HlX HlY HlZ HQ. unfold pairs_neg_neg.
  apply (wp_write_loop (fun k P '(bx, b_y) => combined f X 1 Y 1 k P bx b_y) n 0 _ [] Zd);
    [done | done | by auto with digits | by apply (combined_start f op) | |].
  - intros k P [bx b_y] Hk HlP HP Hc. pose proof Hc as (v & w & (_ & Hbx & _) & (_ & Hby & _) & _).
    apply wp_bind, wp_rd; [lia | done|]. intros x Hx Hdx.
    destruct (digit_sub_spec x bx Hdx) as (dx & bx' & -> & Ex & Hddx & Hbx').
    { pose proof digit_base_ge. unfold is_digit. lia. }
    apply wp_bind, wp_rd; [lia | done|]. intros y Hy Hdy.
    destruct (digit_sub_spec y b_y Hdy) as (dy & by' & -> & Ey & Hddy & Hby').
    { pose proof digit_base_ge. unfold is_digit. lia. }
    apply wp_ret. split; [by apply (bitop_digit f op)|]. by eapply (combined_step f op).
  - intros P [bx b_y] HlP HP Hc. by apply HQ.
Qed.

Lemma wp_pairs_pos_neg f op g `{!BitOp f op} n Zd X Y (Q : digits * Z -> Prop) :
  (forall a b, is_digit a -> is_digit b -> g a b = f a b) ->
  digits_ok X -> digits_ok Y -> (n <= length X)%nat -> (n <= length Y)%nat -> (n <= length Zd)%nat ->
  (forall P b_y, length P = n -> digits_ok P -> combined f X 0 Y 1 n P 0 b_y ->
     Q (P ++ drop n Zd, b_y)) ->
  wp (pairs_pos_neg g n Zd X Y) Q.
Proof.
  intros Hg HX HY HlX HlY HlZ HQ. unfold pairs_pos_neg.
  apply (wp_write_loop (fun k P b_y => combined f X 0 Y 1 k P 0 b_y) n 0 _ [] Zd);
    [done | done | by auto with digits | by apply (combined_start f op) | |].
  - intros k P b_y Hk HlP HP Hc. pose proof Hc as (v & w & _ & (_ & Hby & _) & _).
    apply wp_bind, wp_rd; [lia | done|]. intros x Hx Hdx.
    apply wp_bind, wp_rd; [lia | done|]. intros y Hy Hdy.
    destruct (digit_sub_spec y b_y Hdy) as (dy & by' & -> & Ey & Hddy & Hby').
    { pose proof digit_base_ge. unfold is_digit. lia. }
    apply wp_ret. rewrite Hg by done. split; [by apply (bitop_digit f op)|].
    eapply (combined_step f op); try done; lia.
  - intros P b_y HlP HP Hc. by apply HQ.
Qed.

Lemma wp_pairs_pos_pos f op `{!BitOp f op} n Zd X Y (Q : digits * unit -> Prop) :
  digits_ok X -> digits_ok Y -> (n <= length X)%nat -> (n <= length Y)%nat -> (n <= length Zd)%nat ->
  (forall P, length P = n -> digits_ok P -> combined f X 0 Y 0 n P 0 0 -> Q (P ++ drop n Zd, tt)) ->
  wp (write_loop n 0 (fun i _ _ => x ← rd X i; y ← rd Y i; mret (f x y, tt)) Zd tt) Q.
Proof.
  intros HX HY HlX HlY HlZ HQ.
  apply (wp_write_loop (fun k P _ => combined f X 0 Y 0 k P 0 0) n 0 _ [] Zd);
    [done | done | by auto with digits | by apply (combined_start f op) | |].
  - intros k P [] Hk HlP HP Hc.
    apply wp_bind, wp_rd; [lia | done|]. intros x Hx Hdx.
    apply wp_bind, wp_rd; [lia | done|]. intros y Hy Hdy.
    apply wp_ret. split; [by apply (bitop_digit f op)|].
    eapply (combined_step f op); try done; lia.
  - intros P [] HlP HP Hc. by apply HQ.
Qed.

(** ** The rest of the longer operand *)

Lemma bitop_flip f op : BitOp f op -> BitOp (fun a b => f b a) (fun a b => op b a).
Proof. intros []. split; auto. Qed.

Lemma sub_rest_done X i Zd b : (length X <= i)%nat -> sub_rest X i Zd b = Ok (Zd, b).
Proof. intros. unfold sub_rest. by replace (length X - i)%nat with 0%nat by lia. Qed.

Lemma copy_rest_done X i Zd : (length X <= i)%nat -> copy_rest X i Zd = Ok Zd.
Proof. intros. unfold copy_rest. by replace (length X - i)%nat with 0%nat by lia. Qed.

Lemma wp_sub_rest f op `{!BitOp f op} X P R i b v w0 (Q : digits * Z -> Prop) :
  (forall d, f d 0 = d) -> digits_ok X -> digits_ok P -> length P = i -> (i <= length X)%nat ->
  (length X - i <= length R)%nat -> 0 <= w0 < bpow i -> reads X 1 i b v -> val P = f v w0 ->
  1 <= val X ->
  (forall P', length P' = length X -> digits_ok P' -> val P' = f (val X - 1) w0 ->
     Q (P' ++ drop (length X - i) R, 0)) ->
  wp (sub_rest X i (P ++ R) b) Q.
Proof.
  intros Hf HX HP HlP Hi HlR Hw Hv EP HX1 HQ. unfold sub_rest.
  apply (wp_write_loop (fun k P' b' => exists v', reads X 1 k b' v' /\ val P' = f v' w0));
    [done | done | done | by exists v | |].
  - intros k P' b' Hk HlP' HP' (v' & Hv' & EP'). pose proof Hv' as (_ & Hb' & Hv'b).
    apply wp_bind, wp_rd; [lia | done|]. intros x Hx Hdx.
    destruct (digit_sub_spec x b' Hdx) as (d & b2 & -> & Ex & Hd & Hb2).
    { pose proof digit_base_ge. unfold is_digit. lia. }
    apply wp_ret. split; [done|]. exists (v' + bpow k * d).
    split; [by eapply reads_extend|]. rewrite val_snoc, HlP', EP'.
    pose proof (bpow_le i k ltac:(lia)).
    replace w0 with (w0 + bpow k * 0) at 2 by lia. rewrite (bitop_bpow f op), Hf by lia. done.
  - intros P' b' HlP' HP' (v' & Hv' & EP'). replace (i + (length X - i))%nat with (length X) in * by lia.
    destruct (reads_end X 1 b' v' Hv' ltac:(lia)) as [-> ->]. by apply HQ.
Qed.

Lemma wp_copy_rest f op `{!BitOp f op} X P R i w0 (Q : digits -> Prop) :
  (forall d, f d 0 = d) -> digits_ok X -> digits_ok P -> length P = i -> (i <= length X)%nat ->
  (length X - i <= length R)%nat -> 0 <= w0 < bpow i -> val P = f (val (take i X)) w0 ->
  (forall P', length P' = length X -> digits_ok P' -> val P' = f (val X) w0 ->
     Q (P' ++ drop (length X - i) R)) ->
  wp (copy_rest X i (P ++ R)) Q.
Proof.
  intros Hf HX HP HlP Hi HlR Hw EP HQ. unfold copy_rest. apply wp_bind.
  apply wp_copy_loop; [done | done | done | done | done |]. apply wp_ret. rewrite app_assoc.
  apply HQ; [rewrite length_app, length_drop; lia | by auto with digits |].
  pose proof (val_bounds (take i X) (digits_ok_take i X HX)) as Hb. rewrite length_take, Nat.min_l in Hb by lia.
  rewrite val_app, HlP, EP, (val_split X i), length_take, Nat.min_l by lia.
  replace w0 with (w0 + bpow i * 0) at 2 by lia. rewrite (bitop_bpow f op), Hf by lia. done.
Qed.

(** ** Correctness *)

(** The vector is what was computed followed by the zeros of the last loop. *)
Lemma wp_finish P R i (Q : digits -> Prop) :
  length P = i -> digits_ok P ->
  (forall Z', length Z' = (i + length R)%nat -> digits_ok Z' -> val Z' = val P -> Q Z') ->
  wp (zero_from i (P ++ R)) Q.
Proof.
  intros HlP HP HQ. apply wp_zero_from; [done|].
  apply HQ; [rewrite length_app, length_replicate; lia | by auto with digits | apply val_app_zeros].
Qed.

Lemma BitwiseAnd_PosPos_spec Zd X Y :
  digits_ok X -> digits_ok Y -> (length X `min` length Y <= length Zd)%nat ->
  wp (BitwiseAnd_PosPos Zd X Y) (fun Z' => length Z' = length Zd /\ digits_ok Z' /\
    val Z' = Z.land (val X) (val Y)).
Proof.
  intros HX HY HlZ. unfold BitwiseAnd_PosPos. set (n := (length X `min` length Y)%nat) in *.
  apply wp_bind, wp_dcheck; [by apply bool_decide_eq_true|].
  apply wp_bind. apply (wp_pairs_pos_pos Z.land andb); [done | done | lia | lia | done|].
  intros P HlP HP (v & w & Hv & Hw & E). apply wp_finish; [done | done|].
  intros Z' HlZ' HZ' ->. rewrite length_drop in HlZ'. split_and!; [lia | done|].
  rewrite E. pose proof (reads_rest X 0 n 0 v Hv ltac:(lia)) as EX.
  pose proof (reads_rest Y 0 n 0 w Hw ltac:(lia)) as EY. rewrite !Z.sub_0_r in EX, EY.
  destruct Hv as (_ & _ & Hv). destruct Hw as (_ & _ & Hw).
  destruct (Nat.le_ge_cases (length X) (length Y)).
  - rewrite EY, EX. unfold n in *. rewrite (drop_ge X) by lia. cbn [val]. rewrite Z.mul_0_r, Z.add_0_r.
    symmetry. apply (bitop_truncate Z.land andb); [apply Z.land_0_l | done | done].
  - rewrite EY, EX. unfold n in *. rewrite (drop_ge Y) by lia. cbn [val]. rewrite Z.mul_0_r, Z.add_0_r.
    rewrite (Z.land_comm v), (Z.land_comm (v + _)).
    symmetry. apply (bitop_truncate Z.land andb); [apply Z.land_0_l | done | done].
Qed.

(** Both operands decremented, the rest of the longer one kept. *)
Lemma neg_neg_rest f op `{!BitOp f op} Zd X Y (k : digits -> res digits) (Q : digits -> Prop) :
  (forall d, f d 0 = d) -> (forall d, f 0 d = d) -> digits_ok X -> digits_ok Y ->
  1 <= val X -> 1 <= val Y -> (length X `max` length Y <= length Zd)%nat ->
  (forall P R, length P = (length X `max` length Y)%nat -> digits_ok P ->
     length (P ++ R) = length Zd -> val P = f (val X - 1) (val Y - 1) -> wp (k (P ++ R)) Q) ->
  wp ('(Zd, (x_borrow, y_borrow)) ← pairs_neg_neg f (length X `min` length Y) Zd X Y;
      '(Zd, x_borrow) ← sub_rest X (length X `min` length Y) Zd x_borrow;
      '(Zd, y_borrow) ← sub_rest Y (length X `max` (length X `min` length Y)) Zd y_borrow;
      dcheck (x_borrow =? 0);; dcheck (y_borrow =? 0);; k Zd) Q.
Proof.
  intros Hf0 H0f HX HY HX1 HY1 HlZ Hk. set (n := (length X `min` length Y)%nat).
  apply wp_bind. apply (wp_pairs_neg_neg f op); [done | done | lia | lia | lia|].
  intros P bx b_y HlP HP (v & w & Hv & Hw & E). apply wp_bind.
  replace (length X `max` n)%nat with (length X) by lia.
  destruct (Nat.le_ge_cases (length X) (length Y)) as [Hle | Hle].
  - rewrite sub_rest_done by lia. apply wp_Ok. replace n with (length X) in * by lia.
    destruct (reads_end X 1 bx v Hv ltac:(lia)) as [-> ->]. destruct Hv as (_ & _ & Hv).
    apply wp_bind. eapply (wp_sub_rest (fun a b => f b a) (fun a b => op b a) (BitOp0 := bitop_flip f op _));
      try done; [rewrite length_drop; lia|].
    intros P' HlP' HP' E'. do 2 (apply wp_bind, wp_dcheck; [done|]).
    apply Hk; [lia | done | | done]. rewrite length_app, !length_drop. lia.
  - replace n with (length Y) in * by lia.
    destruct (reads_end Y 1 b_y w Hw ltac:(lia)) as [-> ->]. destruct Hw as (_ & _ & Hw).
    eapply (wp_sub_rest f op); try done; [rewrite length_drop; lia|].
    intros P' HlP' HP' E'. apply wp_bind. rewrite sub_rest_done by lia. apply wp_Ok.
    do 2 (apply wp_bind, wp_dcheck; [done|]).
    apply Hk; [lia | done | | done]. rewrite length_app, !length_drop. lia.
Qed.

(** The identities the comments in the code give, on two's complement integers. *)
Lemma land_neg_neg x y : Z.land (- x) (- y) = - (Z.lor (x - 1) (y - 1) + 1).
Proof.
  replace (- x) with (Z.lnot (x - 1)) by (unfold Z.lnot; lia).
  replace (- y) with (Z.lnot (y - 1)) by (unfold Z.lnot; lia).
  rewrite <- Z.lnot_lor. unfold Z.lnot. lia.
Qed.

Lemma land_pos_neg x y : Z.land x (- y) = Z.ldiff x (y - 1).
Proof.
  replace (- y) with (Z.lnot (y - 1)) by (unfold Z.lnot; lia). by rewrite Z.ldiff_land.
Qed.

Lemma lor_neg_neg x y : Z.lor (- x) (- y) = - (Z.land (x - 1) (y - 1) + 1).
Proof.
  replace (- x) with (Z.lnot (x - 1)) by (unfold Z.lnot; lia).
  replace (- y) with (Z.lnot (y - 1)) by (unfold Z.lnot; lia).
  rewrite <- Z.lnot_land. unfold Z.lnot. lia.
Qed.

Lemma lor_pos_neg x y : Z.lor x (- y) = - (Z.ldiff (y - 1) x + 1).
Proof.
  replace (- y) with (Z.lnot (y - 1)) by (unfold Z.lnot; lia).
  transitivity (Z.lnot (Z.ldiff (y - 1) x)); [|unfold Z.lnot; lia].
  rewrite Z.ldiff_land, Z.lnot_land, Z.lnot_involutive. apply Z.lor_comm.
Qed.

Lemma lxor_neg_neg x y : Z.lxor (- x) (- y) = Z.lxor (x - 1) (y - 1).
Proof.
  replace (- x) with (Z.lnot (x - 1)) by (unfold Z.lnot; lia).
  replace (- y) with (Z.lnot (y - 1)) by (unfold Z.lnot; lia).
  apply Z.lxor_lnot_lnot.
Qed.

Lemma lxor_pos_neg x y : Z.lxor x (- y) = - (Z.lxor x (y - 1) + 1).
Proof.
  replace (- y) with (Z.lnot (y - 1)) by (unfold Z.lnot; lia).
  rewrite <- Z.lnot_lxor_r. unfold Z.lnot. lia.
Qed.

(** [Add(Z, 1)] at the end of an operation with a negative result. *)
Lemma wp_finish_add_one P R i (v : Z) (Q : digits -> Prop) :
  length P = i -> digits_ok P -> val P = v -> (0 < i + length R)%nat -> v + 1 < bpow (i + length R) ->
  (forall Z', length Z' = (i + length R)%nat -> digits_ok Z' -> val Z' = v + 1 -> Q Z') ->
  wp (Zd ← zero_from i (P ++ R); Add_digit Zd 1) Q.
Proof.
  intros HlP HP EP Hpos Hfit HQ. apply wp_bind, wp_finish; [done | done|].
  intros Z' HlZ' HZ' EZ. eapply wp_mono; [apply Add_digit_spec; [done | | apply is_digit_1 |]|].
  - by intros ->; simpl in *; lia.
  - rewrite EZ, EP, HlZ'. done.
  - intros Z2 (HlZ2 & HZ2 & E2). apply HQ; [lia | done | lia].
Qed.

Lemma val_below X n : digits_ok X -> (length X <= n)%nat -> 0 <= val X < bpow n.
Proof. intros HX Hl. pose proof (val_bounds X HX). pose proof (bpow_le _ _ Hl). lia. Qed.

Lemma bitop_below f op `{!BitOp f op} a b n :
  0 <= a < bpow n -> 0 <= b < bpow n -> 0 <= f a b < bpow n.
Proof. rewrite bpow_pow2. apply (bitop_range f op). destruct kDigitBits_cases; lia. Qed.

Lemma bpow_grow n m v : v < bpow n -> (n < m)%nat -> v + 1 < bpow m.
Proof.
  intros Hv Hnm. pose proof (bpow_lt n m Hnm). pose proof (bpow_pos n). pose proof digit_base_ge. nia.
Qed.

Lemma land_le_l a b : 0 <= a -> 0 <= Z.land a b <= a.
Proof.
  intros Ha. apply Z.ldiff_le; [done|]. apply Z.bits_inj'. intros i Hi.
  rewrite Z.ldiff_spec, Z.land_spec, Z.testbit_0_l. btauto.
Qed.

Lemma ldiff_le_l a b : 0 <= a -> 0 <= Z.ldiff a b <= a.
Proof. rewrite Z.ldiff_land. apply land_le_l. Qed.

Lemma BitwiseAnd_NegNeg_spec Zd X Y :
  digits_ok X -> digits_ok Y -> 1 <= val X -> 1 <= val Y ->
  (length X `max` length Y < length Zd)%nat ->
  wp (BitwiseAnd_NegNeg Zd X Y) (fun Z' => length Z' = length Zd /\ digits_ok Z' /\
    - val Z' = Z.land (- val X) (- val Y)).
Proof.
  intros HX HY HX1 HY1 HlZ. unfold BitwiseAnd_NegNeg.
  apply (neg_neg_rest Z.lor orb); [apply Z.lor_0_r | apply Z.lor_0_l | done | done | done | done | lia |].
  intros P R HlP HP HlPR EP. rewrite length_app in HlPR.
  pose proof (bitop_below Z.lor orb (val X - 1) (val Y - 1) (length X `max` length Y)) as Hb.
  pose proof (val_below X _ HX (Nat.le_max_l (length X) (length Y))).
  pose proof (val_below Y _ HY (Nat.le_max_r (length X) (length Y))).
  eapply wp_finish_add_one; try done; [lia | eapply bpow_grow; [apply Hb; lia | lia] |].
  intros Z' HlZ' HZ' EZ'. split_and!; [lia | done|]. rewrite land_neg_neg. lia.
Qed.

Lemma BitwiseXor_NegNeg_spec Zd X Y :
  digits_ok X -> digits_ok Y -> 1 <= val X -> 1 <= val Y ->
  (length X `max` length Y <= length Zd)%nat ->
  wp (BitwiseXor_NegNeg Zd X Y) (fun Z' => length Z' = length Zd /\ digits_ok Z' /\
    val Z' = Z.lxor (- val X) (- val Y)).
Proof.
  intros HX HY HX1 HY1 HlZ. unfold BitwiseXor_NegNeg.
  apply (neg_neg_rest Z.lxor xorb); [apply Z.lxor_0_r | apply Z.lxor_0_l | done | done | done | done | lia |].
  intros P R HlP HP HlPR EP. rewrite length_app in HlPR.
  apply wp_finish; [done | done|]. intros Z' HlZ' HZ' ->. rewrite lxor_neg_neg. split_and!; (done || lia).
Qed.

Lemma BitwiseOr_NegNeg_spec Zd X Y :
  digits_ok X -> digits_ok Y -> 1 <= val X -> 1 <= val Y ->
  (length X `min` length Y <= length Zd)%nat ->
  wp (BitwiseOr_NegNeg Zd X Y) (fun Z' => length Z' = length Zd /\ digits_ok Z' /\
    - val Z' = Z.lor (- val X) (- val Y)).
Proof.
  intros HX HY HX1 HY1 HlZ. unfold BitwiseOr_NegNeg. set (n := (length X `min` length Y)%nat) in *.
  assert (0 < n)%nat as Hn.
  { destruct X; [cbn [val] in HX1; lia|]. destruct Y; [cbn [val] in HY1; lia|]. unfold n. simpl. lia. }
  apply wp_bind. apply (wp_pairs_neg_neg Z.land andb); [done | done | lia | lia | done|].
  intros P bx b_y HlP HP (v & w & Hv & Hw & E).
  pose proof (reads_rest X 1 n bx v Hv ltac:(lia)) as EX.
  pose proof (reads_rest Y 1 n b_y w Hw ltac:(lia)) as EY.
  assert (val P = Z.land (val X - 1) (val Y - 1) /\ val P + 1 < bpow (length Zd)) as [EP Hfit].
  { rewrite E.
    destruct (Nat.le_ge_cases (length X) (length Y)).
    - assert (n = length X) as Hn' by lia. rewrite Hn' in Hv, Hw, EY.
      destruct (reads_end X 1 bx v Hv ltac:(lia)) as [-> ->].
      destruct Hv as (_ & _ & Hv). destruct Hw as (_ & _ & Hw). rewrite EY. split.
      + symmetry. apply (bitop_truncate Z.land andb); [apply Z.land_0_l | done | done].
      + assert (0 <= val X - 1) as Hx0 by lia. pose proof (land_le_l _ w Hx0).
        pose proof (val_bounds X HX). pose proof (bpow_le (length X) (length Zd) ltac:(lia)). lia.
    - assert (n = length Y) as Hn' by lia. rewrite Hn' in Hv, Hw, EX.
      destruct (reads_end Y 1 b_y w Hw ltac:(lia)) as [-> ->].
      destruct Hv as (_ & _ & Hv). destruct Hw as (_ & _ & Hw). rewrite EX.
      rewrite !(Z.land_comm _ (val Y - 1)). split.
      + symmetry. apply (bitop_truncate Z.land andb); [apply Z.land_0_l | done | done].
      + assert (0 <= val Y - 1) as Hy0 by lia. pose proof (land_le_l _ v Hy0).
        pose proof (val_bounds Y HY). pose proof (bpow_le (length Y) (length Zd) ltac:(lia)). lia. }
  eapply wp_finish_add_one; [done | done | exact EP | rewrite length_drop; lia | | ].
  - rewrite <- EP, length_drop. by replace (n + (length Zd - n))%nat with (length Zd) by lia.
  - intros Z' HlZ' HZ' EZ'. rewrite length_drop in HlZ'. split_and!; [lia | done|].
    rewrite lor_neg_neg. lia.
Qed.

Lemma BitwiseAnd_PosNeg_spec Zd X Y :
  digits_ok X -> digits_ok Y -> 1 <= val Y -> (length X <= length Zd)%nat ->
  wp (BitwiseAnd_PosNeg Zd X Y) (fun Z' => length Z' = length Zd /\ digits_ok Z' /\
    val Z' = Z.land (val X) (- val Y)).
Proof.
  intros HX HY HY1 HlZ. unfold BitwiseAnd_PosNeg. set (n := (length X `min` length Y)%nat) in *.
  apply wp_bind. apply (wp_pairs_pos_neg Z.ldiff (fun a b => a && negb b) _);
    [intros; by apply land_digit_not | done | done | lia | lia | lia|].
  intros P b_y HlP HP (v & w & Hv & Hw & E). apply wp_bind. rewrite land_pos_neg.
  pose proof (reads_rest Y 1 n b_y w Hw ltac:(lia)) as EY.
  pose proof (reads_plain X n v Hv) as ->. destruct Hv as (_ & _ & Hv).
  destruct (Nat.le_ge_cases (length X) (length Y)).
  - assert (n = length X) as Hn by lia. rewrite copy_rest_done by lia. apply wp_Ok.
    apply wp_finish; [lia | done|]. intros Z' HlZ' HZ' ->. rewrite length_drop in HlZ'.
    split_and!; [lia | done|]. rewrite E, EY. rewrite (take_ge X n) in * by lia.
    destruct Hw as (_ & _ & Hw). symmetry.
    apply (bitop_truncate Z.ldiff (fun a b => a && negb b)); [apply Z.ldiff_0_l | done | done].
  - assert (n = length Y) as Hn by lia. clear EY. rewrite Hn in *.
    destruct (reads_end Y 1 b_y w Hw ltac:(lia)) as [-> ->]. destruct Hw as (_ & _ & Hw).
    apply (wp_copy_rest Z.ldiff (fun a b => a && negb b)) with (w0 := val Y - 1); try done.
    { apply Z.ldiff_0_r. }
    { rewrite length_drop. lia. }
    intros P' HlP' HP' E'. apply wp_finish; [lia | done|]. intros Z' HlZ' HZ' ->.
    rewrite !length_drop in HlZ'. split_and!; [lia | done | done].
Qed.

Lemma BitwiseOr_PosNeg_spec Zd X Y :
  digits_ok X -> digits_ok Y -> 1 <= val Y -> (length Y <= length Zd)%nat ->
  wp (BitwiseOr_PosNeg Zd X Y) (fun Z' => length Z' = length Zd /\ digits_ok Z' /\
    - val Z' = Z.lor (val X) (- val Y)).
Proof.
  intros HX HY HY1 HlZ. unfold BitwiseOr_PosNeg. set (n := (length X `min` length Y)%nat) in *.
  assert (0 < length Y)%nat as HlY by (destruct Y; [cbn [val] in HY1; lia | simpl; lia]).
  apply wp_bind. apply (wp_pairs_pos_neg (fun a b => Z.ldiff b a) (fun a b => b && negb a) _);
    [intros; by apply land_digit_not | done | done | lia | lia | lia|].
  intros P b_y HlP HP (v & w & Hv & Hw & E). apply wp_bind.
  pose proof (reads_rest X 0 n 0 v Hv ltac:(lia)) as EX. rewrite Z.sub_0_r in EX.
  assert (0 <= val Y - 1) as HY0 by lia. pose proof (ldiff_le_l _ (val X) HY0) as Hle.
  pose proof (val_below Y (length Zd) HY HlZ) as HYb.
  assert (forall P' R', length P' = length Y -> digits_ok P' -> length (P' ++ R') = length Zd ->
    val P' = Z.ldiff (val Y - 1) (val X) ->
    wp (dcheck (0 =? 0);; Zd ← zero_from (length Y) (P' ++ R'); Add_digit Zd 1)
      (fun Z' => length Z' = length Zd /\ digits_ok Z' /\ - val Z' = Z.lor (val X) (- val Y))) as Hend.
  { intros P' R' HlP' HP' HlR' E'. rewrite length_app in HlR'. apply wp_bind, wp_dcheck; [done|].
    eapply wp_finish_add_one; [done | done | exact E' | lia | |].
    - replace (length Y + length R')%nat with (length Zd) by lia. lia.
    - intros Z' HlZ' HZ' EZ'. split_and!; [lia | done|]. rewrite lor_pos_neg. lia. }
  destruct (Nat.le_ge_cases (length X) (length Y)).
  - assert (n = length X) as Hn by lia. rewrite (drop_ge X) in EX by lia. cbn [val] in EX.
    rewrite Z.mul_0_r, Z.add_0_r in EX. subst v.
    eapply (wp_sub_rest (fun a b => Z.ldiff a b) (fun a b => a && negb b)); try done.
    { apply Z.ldiff_0_r. }
    { lia. }
    { rewrite length_drop. lia. }
    { apply Hv. }
    intros P' HlP' HP' E'. apply Hend; [done | done | | done]. rewrite length_app, !length_drop. lia.
  - assert (n = length Y) as Hn by lia. rewrite Hn in *.
    rewrite sub_rest_done by lia. apply wp_Ok.
    destruct (reads_end Y 1 b_y w Hw ltac:(lia)) as [-> ->]. destruct Hw as (_ & _ & Hw).
    apply Hend; [done | done | rewrite length_app, length_drop; lia |].
    rewrite E, EX. destruct Hv as (_ & _ & Hv). symmetry.
    apply (bitop_truncate Z.ldiff (fun a b => a && negb b)); [apply Z.ldiff_0_l | done | done].
Qed.

(** One operand decremented, the rest of the longer operand kept. *)
Lemma BitwiseXor_PosNeg_spec Zd X Y :
  digits_ok X -> digits_ok Y -> 1 <= val Y -> (length X `max` length Y < length Zd)%nat ->
  wp (BitwiseXor_PosNeg Zd X Y) (fun Z' => length Z' = length Zd /\ digits_ok Z' /\
    - val Z' = Z.lxor (val X) (- val Y)).
Proof.
  intros HX HY HY1 HlZ. unfold BitwiseXor_PosNeg. set (n := (length X `min` length Y)%nat) in *.
  apply wp_bind. apply (wp_pairs_pos_neg Z.lxor xorb _); [done | done | done | lia | lia | lia|].
  intros P b_y HlP HP (v & w & Hv & Hw & E). apply wp_bind.
  pose proof (reads_plain X n v Hv) as ->. destruct Hv as (_ & _ & Hv).
  pose proof (val_below X _ HX (Nat.le_max_l (length X) (length Y))).
  pose proof (val_below Y _ HY (Nat.le_max_r (length X) (length Y))).
  pose proof (bitop_below Z.lxor xorb (val X) (val Y - 1) (length X `max` length Y)) as Hb.
  assert (forall P' R', length P' = (length X `max` length Y)%nat -> digits_ok P' ->
    length (P' ++ R') = length Zd -> val P' = Z.lxor (val X) (val Y - 1) ->
    wp (dcheck (0 =? 0);; Zd ← zero_from (length X `max` length Y) (P' ++ R'); Add_digit Zd 1)
      (fun Z' => length Z' = length Zd /\ digits_ok Z' /\ - val Z' = Z.lxor (val X) (- val Y))) as Hend.
  { intros P' R' HlP' HP' HlR' E'. rewrite length_app in HlR'. apply wp_bind, wp_dcheck; [done|].
    eapply wp_finish_add_one; [done | done | exact E' | lia | eapply bpow_grow; [apply Hb; lia | lia] |].
    intros Z' HlZ' HZ' EZ'. split_and!; [lia | done|]. rewrite lxor_pos_neg. lia. }
  replace (length X `max` n)%nat with (length X) by lia.
  destruct (Nat.le_ge_cases (length X) (length Y)).
  - assert (n = length X) as Hn by lia. rewrite copy_rest_done by lia. apply wp_Ok, wp_bind.
    rewrite take_ge in * by lia. rewrite Hn in *.
    eapply (wp_sub_rest (fun a b => Z.lxor b a) (fun a b => xorb b a) (BitOp0 := bitop_flip Z.lxor xorb _)); try done.
    { rewrite length_drop. lia. }
    intros P' HlP' HP' E'. apply Hend; [lia | done | | done]. rewrite length_app, !length_drop. lia.
  - assert (n = length Y) as Hn by lia. rewrite Hn in *.
    destruct (reads_end Y 1 b_y w Hw ltac:(lia)) as [-> ->]. destruct Hw as (_ & _ & Hw).
    apply (wp_copy_rest Z.lxor xorb) with (w0 := val Y - 1); try done.
    { apply Z.lxor_0_r. }
    { rewrite length_drop. lia. }
    intros P' HlP' HP' E'. apply wp_bind. rewrite sub_rest_done by lia. apply wp_Ok.
    apply Hend; [lia | done | | done]. rewrite length_app, !length_drop. lia.
Qed.

(** Two non-negative operands, the rest of the longer one copied. *)
Lemma pos_pos_rest f op `{!BitOp f op} n Zd X Y (Q : digits -> Prop) :
  (forall d, f d 0 = d) -> digits_ok X -> digits_ok Y -> n = length Y ->
  (length Y <= length X <= length Zd)%nat ->
  (forall P R, length P = length X -> digits_ok P -> length (P ++ R) = length Zd ->
     val P = f (val X) (val Y) -> Q (P ++ R)) ->
  forall P, length P = n -> digits_ok P -> combined f X 0 Y 0 n P 0 0 ->
  wp (copy_rest X n (P ++ drop n Zd)) Q.
Proof.
  intros Hf HX HY -> Hl HQ P HlP HP (v & w & Hv & Hw & E).
  pose proof (reads_plain X _ v Hv) as ->. destruct (reads_end Y 0 0 w Hw) as [_ ->].
  { by apply val_nonneg. }
  rewrite Z.sub_0_r in *.
  apply (wp_copy_rest f op) with (w0 := val Y); try done; [lia | rewrite length_drop; lia | by apply val_bounds |].
  intros P' HlP' HP' E'. apply HQ; try done. rewrite length_app, !length_drop. lia.
Qed.

Lemma combined_flip f X sx Y sy k P bx b_y :
  combined f X sx Y sy k P bx b_y -> combined (fun a b => f b a) Y sy X sx k P b_y bx.
Proof. intros (v & w & ? & ? & ?). by exists w, v. Qed.

Lemma BitwiseOr_PosPos_spec Zd X Y :
  digits_ok X -> digits_ok Y -> (length X `max` length Y <= length Zd)%nat ->
  wp (BitwiseOr_PosPos Zd X Y) (fun Z' => length Z' = length Zd /\ digits_ok Z' /\
    val Z' = Z.lor (val X) (val Y)).
Proof.
  intros HX HY HlZ. unfold BitwiseOr_PosPos. set (n := (length X `min` length Y)%nat) in *.
  apply wp_bind. apply (wp_pairs_pos_pos Z.lor orb); [done | done | lia | lia | lia|].
  intros P HlP HP Hc. apply wp_bind. replace (length X `max` n)%nat with (length X) by lia.
  destruct (Nat.le_ge_cases (length X) (length Y)).
  - rewrite copy_rest_done by lia. apply wp_Ok, wp_bind. replace n with (length X) in * by lia.
    apply (pos_pos_rest (fun a b => Z.lor b a) (fun a b => orb b a) (BitOp0 := bitop_flip Z.lor orb _)
      (length X) Zd Y X); try done; [lia | | by apply combined_flip].
    intros P' R HlP' HP' HlR E. rewrite length_app in HlR. apply wp_finish; [lia | done|].
    intros Z' HlZ' HZ' ->. split_and!; [lia | done | done].
  - replace n with (length Y) in * by lia.
    apply (pos_pos_rest Z.lor orb (length Y) Zd X Y); try done; [apply Z.lor_0_r | lia|].
    intros P' R HlP' HP' HlR E. rewrite length_app in HlR. apply wp_bind.
    rewrite copy_rest_done by lia. apply wp_Ok, wp_finish; [lia | done|].
    intros Z' HlZ' HZ' ->. split_and!; [lia | done | done].
Qed.

Lemma BitwiseXor_PosPos_spec Zd X Y :
  digits_ok X -> digits_ok Y -> (length X `max` length Y <= length Zd)%nat ->
  wp (BitwiseXor_PosPos Zd X Y) (fun Z' => length Z' = length Zd /\ digits_ok Z' /\
    val Z' = Z.lxor (val X) (val Y)).
Proof.
  intros HX HY HlZ. unfold BitwiseXor_PosPos.
  assert (forall A B, digits_ok A -> digits_ok B -> (length A <= length B <= length Zd)%nat ->
    wp (dcheck (bool_decide (length A <= length B)%nat);;
        '(Zd, _) ← write_loop (length A) 0
          (fun i _ _ => x ← rd A i; y ← rd B i; mret (Z.lxor x y, tt)) Zd tt;
        Zd ← copy_rest B (length A) Zd; zero_from (length B) Zd)
      (fun Z' => length Z' = length Zd /\ digits_ok Z' /\ val Z' = Z.lxor (val A) (val B))) as Hcore.
  { intros A B HA HB Hl. apply wp_bind, wp_dcheck; [apply bool_decide_eq_true; lia|].
    apply wp_bind. apply (wp_pairs_pos_pos Z.lxor xorb); [done | done | lia | lia | lia|].
    intros P HlP HP Hc. apply wp_bind.
    apply (pos_pos_rest (fun a b => Z.lxor b a) (fun a b => xorb b a) (BitOp0 := bitop_flip Z.lxor xorb _)
      (length A) Zd B A); try done; [|by apply combined_flip].
    intros P' R HlP' HP' HlR E. rewrite length_app in HlR. apply wp_finish; [lia | done|].
    intros Z' HlZ' HZ' ->. split_and!; [lia | done | done]. }
  case_bool_decide; [rewrite Z.lxor_comm|]; apply Hcore; (done || lia).
Qed.
End bitwise.
