(* ===== verification/BitwiseShift.v ===== *)
(** Shifts by arbitrary distances and truncation to [n] bits: the second half of
    [src/bigint/bitwise.cc] with the result lengths that belong to it. *)

From Stdlib Require Import ZArith Lia.
From stdpp Require Import base tactics numbers list option.
From S2P Require Import Prelude Digit Digits VectorArithmetic MulSchoolbook MulKaratsuba DivHelpers Bitwise.

#[local] Open Scope Z_scope.

Section bitwise_shift.
Context `{Config}.
Implicit Types X Y P R : digits.

(** [static_cast<int>] of a digit: the low 32 bits as a signed number. *)
Definition static_cast_int (v : Z) : Z :=
  let v := v mod 2 ^ 32 in if v <? 2 ^ 31 then v else v - 2 ^ 32.

(** [X[i]] for a signed index, with its bounds check. *)
Definition rd_at (X : digits) (i : Z) : res Z := if i <? 0 then Err OutOfBounds else rd X (Z.to_nat i).

(** ** Left shift *)

Definition LeftShift_ResultLength (x_length : nat) (x_most_significant_digit shift : Z) : Z :=
  let digit_shift := static_cast_int (shift / kDigitBits) in
  let bits_shift := shift mod kDigitBits in
  let grow := negb (bits_shift =? 0) &&
    negb (Z.shiftr x_most_significant_digit (kDigitBits - bits_shift) =? 0) in
  Z.of_nat x_length + digit_shift + (if grow then 1 else 0).

(** [LeftShift(RWDigits, Digits, digit_t)]; [start] is the index the first loop ends at, and
    [count] the number of iterations of the second one. *)
Definition BitwiseLeftShift (Zd X : digits) (shift : Z) : res digits :=
  let digit_shift := static_cast_int (shift / kDigitBits) in
  let bits_shift := shift mod kDigitBits in
  let start := Z.to_nat digit_shift in
  let count := (Z.to_nat (Z.of_nat (length X) + digit_shift) - start)%nat in
  '(Zd, _) ← write_loop start 0 (fun _ _ _ => mret (0, tt)) Zd tt;
  if bits_shift =? 0 then
    '(Zd, _) ← write_loop count start
      (fun i _ _ => x ← rd_at X (Z.of_nat i - digit_shift); mret (x, tt)) Zd tt;
    zero_from (count + start) Zd
  else
    '(Zd, carry) ← write_loop count start
      (fun i _ carry =>
         d ← rd_at X (Z.of_nat i - digit_shift);
         mret (Z.lor (wrap (Z.shiftl d bits_shift)) carry, Z.shiftr d (kDigitBits - bits_shift)))
      Zd 0;
    let i := (count + start)%nat in
    '(Zd, i) ← (if negb (carry =? 0) then Zd ← wr Zd i carry; mret (Zd, S i) else mret (Zd, i));
    zero_from i Zd.

(** ** Right shift *)

(** [RightShiftState]. *)
Record RightShiftState := mkRightShiftState { must_round_down : bool }.

(** [for (int i = 0; i < n; i++) if (X[i] != 0) return true; return false]. *)
Fixpoint any_nonzero (n : nat) (X : digits) : res bool :=
  match n with
  | O => mret false
  | S n => b ← any_nonzero n X; if (b : bool) then mret true else x ← rd X n; mret (negb (x =? 0))
  end.

(** Returns the length and the state for the actual shift. *)
Definition RightShift_ResultLength (X : digits) (x_sign : bool) (shift : Z)
    : res (nat * RightShiftState) :=
  let digit_shift := static_cast_int (shift / kDigitBits) in
  let bits_shift := shift mod kDigitBits in
  let result_length := Z.of_nat (length X) - digit_shift in
  if result_length <=? 0 then mret (0%nat, mkRightShiftState false)
  else
    let result_length := Z.to_nat result_length in
    must_round_down ←
      (if x_sign then
         let mask := wrap (wrap (Z.shiftl 1 bits_shift) - 1) in
         x ← rd_at X digit_shift;
         if negb (Z.land x mask =? 0) then mret true else any_nonzero (Z.to_nat digit_shift) X
       else mret false);
    result_length ←
      (if must_round_down && (bits_shift =? 0) then
         top ← msd X;
         mret (if digit_ismax top then S result_length else result_length)
       else mret result_length);
    dcheck (negb must_round_down || x_sign);;
    mret (result_length, mkRightShiftState must_round_down).

(** [RightShift(RWDigits, Digits, digit_t, const RightShiftState&)]. *)
Definition BitwiseRightShift (Zd X : digits) (shift : Z) (state : RightShiftState) : res digits :=
  let digit_shift := static_cast_int (shift / kDigitBits) in
  let bits_shift := shift mod kDigitBits in
  let result_length := Z.of_nat (length X) - digit_shift in
  '(Zd, i) ←
    (if bits_shift =? 0 then
       '(Zd, _) ← write_loop (Z.to_nat result_length) 0
         (fun i _ _ => x ← rd_at X (Z.of_nat i + digit_shift); mret (x, tt)) Zd tt;
       mret (Zd, Z.to_nat result_length)
     else
       x ← rd_at X digit_shift;
       '(Zd, carry) ← write_loop (Z.to_nat (result_length - 1)) 0
         (fun i _ carry =>
            d ← rd_at X (Z.of_nat i + digit_shift + 1);
            mret (Z.lor (wrap (Z.shiftl d (kDigitBits - bits_shift))) carry, Z.shiftr d bits_shift))
         Zd (Z.shiftr x bits_shift);
       let i := Z.to_nat (result_length - 1) in
       Zd ← wr Zd i carry;
       mret (Zd, S i));
  Zd ← zero_from i Zd;
  if must_round_down state then Add_digit Zd 1 else mret Zd.

(** ** Truncation *)

(** [(msd << drop) >> drop]. *)
Definition drop_high_bits (d drop : Z) : Z := Z.shiftr (wrap (Z.shiftl d drop)) drop.

(** [Z := (least significant n bits of X)]. *)
Definition TruncateToNBits (Zd X : digits) (n : Z) : res digits :=
  let digits := DIV_CEIL n kDigitBits in
  let bits := n mod kDigitBits in
  let last := Z.to_nat (digits - 1) in
  '(Zd, _) ← write_loop last 0 (fun i _ _ => x ← rd X i; mret (x, tt)) Zd tt;
  msd ← rd X last;
  let msd := if negb (bits =? 0) then drop_high_bits msd (kDigitBits - bits) else msd in
  wr Zd last msd.

(** [Z := 2**n - (least significant n bits of X)]. *)
Definition TruncateAndSubFromPowerOfTwo (Zd X : digits) (n : Z) : res digits :=
  let digits := DIV_CEIL n kDigitBits in
  let bits := n mod kDigitBits in
  let last := Z.to_nat (digits - 1) in
  let have_x := (last `min` length X)%nat in
  '(Zd, borrow) ← write_loop have_x 0
    (fun i _ borrow => x ← rd X i; mret (digit_sub2 0 x borrow)) Zd 0;
  '(Zd, borrow) ← write_loop (last - have_x) have_x
    (fun _ _ borrow => mret (digit_sub 0 borrow)) Zd borrow;
  msd ← (if bool_decide (last < length X)%nat then rd X last else mret 0);
  if bits =? 0 then
    let '(z, _) := digit_sub2 0 msd borrow in wr Zd last z
  else
    let msd := drop_high_bits msd (kDigitBits - bits) in
    let minuend_msd := wrap (Z.shiftl 1 bits) in
    let '(result_msd, borrow) := digit_sub2 minuend_msd msd borrow in
    dcheck (borrow =? 0);;
    wr Zd last (Z.land result_msd (wrap (minuend_msd - 1))).

(** Returns -1 when the operation would return [X] unchanged. *)
Definition AsIntNResultLength (X : digits) (x_negative : bool) (n : Z) : res Z :=
  let needed_digits := DIV_CEIL n kDigitBits in
  let len := Z.of_nat (length X) in
  if len <? needed_digits then mret (-1)
  else if needed_digits <? len then mret needed_digits
  else
    top_digit ← rd X (Z.to_nat (needed_digits - 1));
    let compare_digit := wrap (Z.shiftl 1 ((n - 1) mod kDigitBits)) in
    if top_digit <? compare_digit then mret (-1)
    else if compare_digit <? top_digit then mret needed_digits
    else if negb x_negative then mret needed_digits
    else
      b ← any_nonzero (Z.to_nat (needed_digits - 1)) X;
      mret (if (b : bool) then needed_digits else -1).

(** Returns the digits and whether the result is negative. *)
Definition AsIntN (Zd X : digits) (x_negative : bool) (n : Z) : res (digits * bool) :=
  dcheck (bool_decide (0 < length X)%nat);;
  dcheck (0 <? n);;
  l ← AsIntNResultLength X x_negative n;
  dcheck (0 <? l);;
  let needed_digits := DIV_CEIL n kDigitBits in
  top_digit ← rd X (Z.to_nat (needed_digits - 1));
  let compare_digit := wrap (Z.shiftl 1 ((n - 1) mod kDigitBits)) in
  let has_bit := Z.land top_digit compare_digit =? compare_digit in
  if negb has_bit then
    Zd ← TruncateToNBits Zd X n; mret (Zd, x_negative)
  else
    Zd ← TruncateAndSubFromPowerOfTwo Zd X n;
    if negb x_negative then mret (Zd, true)
    else if negb (Z.land top_digit (wrap (compare_digit - 1)) =? 0) then mret (Zd, false)
    else
      b ← any_nonzero (Z.to_nat (needed_digits - 1)) X;
      mret (Zd, negb b).

(** Returns -1 when the operation would return [X] unchanged. *)
Definition AsUintN_Pos_ResultLength (X : digits) (n : Z) : res Z :=
  let needed_digits := DIV_CEIL n kDigitBits in
  let len := Z.of_nat (length X) in
  if len <? needed_digits then mret (-1)
  else if needed_digits <? len then mret needed_digits
  else
    let bits_in_top_digit := n mod kDigitBits in
    if bits_in_top_digit =? 0 then mret (-1)
    else
      top_digit ← rd X (Z.to_nat (needed_digits - 1));
      mret (if Z.shiftr top_digit bits_in_top_digit =? 0 then -1 else needed_digits).

Definition AsUintN_Pos (Zd X : digits) (n : Z) : res digits :=
  l ← AsUintN_Pos_ResultLength X n;
  dcheck (0 <? l);;
  TruncateToNBits Zd X n.

Definition AsUintN_Neg_ResultLength (n : Z) : nat := Z.to_nat ((n - 1) / kDigitBits + 1).

Definition AsUintN_Neg (Zd X : digits) (n : Z) : res digits :=
  TruncateAndSubFromPowerOfTwo Zd X n.

(** ** Left shift: correctness *)

Lemma shift_split shift :
  0 <= shift ->
  0 <= shift mod kDigitBits < kDigitBits /\
  2 ^ shift = bpow (Z.to_nat (shift / kDigitBits)) * 2 ^ (shift mod kDigitBits).
Proof.
  intros Hs. assert (0 < kDigitBits) by (destruct kDigitBits_cases; lia).
  pose proof (Z.mod_pos_bound shift kDigitBits). split; [lia|].
  rewrite bpow_pow2, Z2Nat.id by (apply Z.div_pos; lia).
  rewrite <- Z.pow_add_r by (try apply Z.mul_nonneg_nonneg; try apply Z.div_pos; lia).
  f_equal. apply Z.div_mod. lia.
Qed.

(** The cast leaves the digit shifts alone that fit into an [int]. *)
Lemma static_cast_int_id v : 0 <= v < 2 ^ 31 -> static_cast_int v = v.
Proof. intros Hv. unfold static_cast_int. rewrite Z.mod_small by lia. by destruct (Z.ltb_spec v (2 ^ 31)); [|lia]. Qed.

Lemma digit_shift_nonneg shift : 0 <= shift -> 0 <= shift / kDigitBits.
Proof. intros Hs. apply Z.div_pos; [done | destruct kDigitBits_cases; lia]. Qed.

Lemma digit_shift_small shift : 0 <= shift < 2 ^ 31 -> shift / kDigitBits < 2 ^ 31.
Proof. intros Hs. apply Z.div_lt_upper_bound; destruct kDigitBits_cases; lia. Qed.

(** A signed index that is the natural number [n]. *)
Lemma wp_rd_at n X i (Q : Z -> Prop) :
  i = Z.of_nat n -> (n < length X)%nat -> digits_ok X -> (forall d, X !! n = Some d -> is_digit d -> Q d) -> wp (rd_at X i) Q.
Proof.
  intros -> Hn HX HQ. unfold rd_at. destruct (Z.ltb_spec (Z.of_nat n) 0); [lia|]. rewrite Nat2Z.id. by apply wp_rd.
Qed.

(** [for (; i < n; i++) Z[i] = 0] at the start of a vector. *)
Lemma wp_zero_prefix n Zd (Q : digits * unit -> Prop) :
  (n <= length Zd)%nat -> Q (replicate n 0 ++ drop n Zd, tt) ->
  wp (write_loop n 0 (fun _ _ _ => mret (0, tt)) Zd tt) Q.
Proof.
  intros Hn HQ. rewrite <- (app_nil_l Zd).
  apply (wp_write_loop (fun k P _ => P = replicate k 0)); [done | done | constructor | done | |].
  - intros k P [] Hk HlP HP ->. apply wp_ret. split; [by auto with digits | by rewrite replicate_S_end].
  - intros P [] HlP HP ->. by rewrite Nat.add_0_l.
Qed.

Lemma BitwiseLeftShift_spec Zd X shift :
  digits_ok X -> 0 <= shift -> shift / kDigitBits < 2 ^ 31 ->
  (length X + Z.to_nat (shift / kDigitBits) <= length Zd)%nat -> val X * 2 ^ shift < bpow (length Zd) ->
  wp (BitwiseLeftShift Zd X shift) (fun Z' => length Z' = length Zd /\ digits_ok Z' /\
    val Z' = val X * 2 ^ shift).
Proof.
  intros HX Hs Hint Hl Hv. pose proof (digit_shift_nonneg shift Hs). unfold BitwiseLeftShift.
  rewrite static_cast_int_id by lia. destruct (shift_split shift Hs) as [Hbs E]. rewrite E in *.
  set (ds := Z.to_nat (shift / kDigitBits)) in *. set (bs := shift mod kDigitBits) in *.
  replace (Z.to_nat (Z.of_nat (length X) + shift / kDigitBits) - ds)%nat with (length X) by lia.
  apply wp_bind, wp_zero_prefix; [lia|].
  destruct (Z.eqb_spec bs 0) as [-> | Hbs0].
  - rewrite Z.pow_0_r, Z.mul_1_r in *. apply wp_bind.
    apply (wp_write_loop (fun k P _ => P = replicate ds 0 ++ take (k - ds) X));
      [apply length_replicate | rewrite length_drop; lia | by auto with digits | by rewrite Nat.sub_diag, take_0, app_nil_r | |].
    { intros k P [] Hk HlP HP ->. apply wp_bind, (wp_rd_at (k - ds)); [lia | lia | done|]. intros x Hx Hdx. apply wp_ret.
      split; [done|]. replace (S k - ds)%nat with (S (k - ds)) by lia.
      by rewrite (take_S_r _ _ _ Hx), app_assoc. }
    intros P [] HlP HP ->. rewrite take_ge in * by lia. apply wp_finish; [lia | done|].
    intros Z' HlZ' HZ' ->. rewrite !length_drop in HlZ'. split_and!; [lia | done|].
    rewrite val_app, val_replicate_0, length_replicate. lia.
  - apply wp_bind.
    apply (wp_write_loop (fun k P c => 0 <= c < 2 ^ bs /\
      val P + bpow k * c = bpow ds * (val (take (k - ds) X) * 2 ^ bs)));
      [apply length_replicate | rewrite length_drop; lia | by auto with digits | | |].
    { rewrite Nat.sub_diag, take_0, val_replicate_0. cbn [val].
      pose proof (Z.pow_pos_nonneg 2 bs). lia. }
    { intros k P c Hk HlP HP [Hc HJ]. apply wp_bind, (wp_rd_at (k - ds)); [lia | lia | done|]. intros d Hd Hdd.
      apply wp_ret. destruct (shl_lor d bs c) as [-> Hdig]; [done | lia | done|].
      destruct (shr_rest d bs) as [Hc' Ed]; [done | lia|].
      split; [done|]. split; [done|]. replace (S k - ds)%nat with (S (k - ds)) by lia.
      rewrite val_snoc, HlP, bpow_S, (val_take_S _ _ _ Hd).
      transitivity (bpow ds * (val (take (k - ds) X) * 2 ^ bs) + bpow ds * bpow (k - ds) * (d * 2 ^ bs)); [|ring].
      rewrite <- HJ, <- bpow_add, Ed. replace (ds + (k - ds))%nat with k by lia. ring. }
    intros P c HlP HP [Hc HJ]. replace (ds + length X - ds)%nat with (length X) in HJ by lia.
    rewrite take_ge in HJ by done. rewrite (Nat.add_comm (length X)). rewrite drop_drop.
    destruct (Z.eqb_spec c 0) as [-> | Hc0]; cbn [negb].
    + apply wp_bind, wp_ret, wp_finish; [done | done|]. intros Z' HlZ' HZ' ->.
      rewrite length_drop in HlZ'. split_and!; [lia | done | lia].
    + assert (ds + length X < length Zd)%nat as Hlt.
      { destruct (Nat.lt_ge_cases (ds + length X) (length Zd)) as [|Hge]; [done|]. exfalso.
        replace (length Zd) with (ds + length X)%nat in Hv by lia.
        pose proof (val_nonneg _ HP). pose proof (bpow_pos (ds + length X)). nia. }
      apply wp_bind, wp_bind, wp_wr_snoc; [done | rewrite length_drop; lia |]. apply wp_ret.
      apply wp_finish; [rewrite length_app; simpl; lia | |].
      { assert (is_digit c) by (unfold is_digit, digit_base; pose proof (Z.pow_lt_mono_r 2 bs kDigitBits); lia).
        by auto with digits. }
      intros Z' HlZ' HZ' ->. rewrite !length_drop in HlZ'. split_and!; [lia | done|].
      rewrite val_snoc, HlP. lia.
Qed.

(** ** Right shift: correctness *)

Lemma any_nonzero_spec n X :
  digits_ok X -> (n <= length X)%nat ->
  wp (any_nonzero n X) (fun b => b = negb (val (take n X) =? 0)).
Proof.
  intros HX. induction n as [|n IH]; intros Hn; cbn [any_nonzero]; [by apply wp_ret; rewrite take_0|].
  apply wp_bind. eapply wp_mono; [apply IH; lia|]. intros b ->.
  pose proof (val_nonneg _ (digits_ok_take n X HX)) as Hpos. pose proof (bpow_pos n).
  destruct (lookup_lt_is_Some_2 X n ltac:(lia)) as [x Hx].
  pose proof (digits_ok_lookup X n x HX Hx) as Hdx. unfold is_digit in Hdx.
  rewrite (val_take_S X n x Hx). destruct (Z.eqb_spec (val (take n X)) 0) as [-> | Hne]; cbn [negb].
  - unfold rd. rewrite Hx. apply wp_bind, wp_Ok, wp_ret. f_equal.
    destruct (Z.eqb_spec x 0), (Z.eqb_spec (0 + bpow n * x) 0); (done || nia).
  - apply wp_ret. symmetry. apply negb_true_iff, Z.eqb_neq. nia.
Qed.

Lemma low_mask bs : 0 <= bs < kDigitBits -> wrap (wrap (Z.shiftl 1 bs) - 1) = Z.ones bs.
Proof.
  intros Hbs. rewrite Z.shiftl_1_l, Z.ones_equiv.
  assert (0 < 2 ^ bs < digit_base)
    by (split; [apply Z.pow_pos_nonneg; lia | unfold digit_base; apply Z.pow_lt_mono_r; lia]).
  rewrite !wrap_small by (unfold is_digit; rewrite ?wrap_small by (unfold is_digit; lia); lia). lia.
Qed.

(** The digits of a number, split at [ds] digits and [bs] bits. *)
Lemma val_div_mod_shift X ds bs x :
  digits_ok X -> X !! ds = Some x -> 0 <= bs <= kDigitBits ->
  val X mod (bpow ds * 2 ^ bs) = val (take ds X) + bpow ds * (x mod 2 ^ bs) /\
  val X / (bpow ds * 2 ^ bs) = val (drop ds X) / 2 ^ bs.
Proof.
  intros HX Hx Hbs. pose proof (lookup_lt_Some _ _ _ Hx) as Hlt.
  pose proof (bpow_pos ds). pose proof (Z.pow_pos_nonneg 2 bs ltac:(lia) ltac:(lia)).
  pose proof (val_bounds _ (digits_ok_take ds X HX)) as Hb. rewrite length_take, Nat.min_l in Hb by lia.
  destruct (div_mod_unique (val X) (bpow ds) (val (drop ds X)) (val (take ds X))) as [Ed Em]; [done | |].
  { rewrite (val_split X ds), length_take, Nat.min_l by lia. lia. }
  split.
  - rewrite Z.rem_mul_r, Em, Ed by lia. f_equal. f_equal. rewrite (val_drop_S X ds x Hx).
    assert (digit_base = 2 ^ (kDigitBits - bs) * 2 ^ bs) as ->
      by (unfold digit_base; rewrite <- Z.pow_add_r by lia; f_equal; lia).
    rewrite <- Z.mul_assoc, (Z.mul_comm (2 ^ (kDigitBits - bs))), <- Z.mul_assoc, (Z.mul_comm (2 ^ bs)).
    apply Z_mod_plus_full.
  - by rewrite <- Z.div_div, Ed by lia.
Qed.

(** One step of a right shift: the low bits of the next digit [d] come in above the high
    bits of [x]. *)
Lemma shift_in_digit bs x d :
  0 < bs < kDigitBits -> is_digit x -> is_digit d ->
  Z.lor (wrap (Z.shiftl d (kDigitBits - bs))) (x / 2 ^ bs) =
    d mod 2 ^ bs * 2 ^ (kDigitBits - bs) + x / 2 ^ bs /\
  is_digit (d mod 2 ^ bs * 2 ^ (kDigitBits - bs) + x / 2 ^ bs) /\
  (x / 2 ^ bs) * 2 ^ bs + digit_base * d =
    (d mod 2 ^ bs * 2 ^ (kDigitBits - bs) + x / 2 ^ bs) * 2 ^ bs + digit_base * (d / 2 ^ bs * 2 ^ bs) /\
  Z.shiftr d bs = d / 2 ^ bs.
Proof.
  intros Hbs Hx Hd.
  assert (0 <= x / 2 ^ bs < 2 ^ (kDigitBits - bs)) as Hc.
  { destruct (shr_rest x (kDigitBits - bs)) as [Hr _]; [done | lia |].
    rewrite Z.shiftr_div_pow2 in Hr by lia.
    by replace (kDigitBits - (kDigitBits - bs)) with bs in Hr by lia. }
  destruct (shl_lor d (kDigitBits - bs) (x / 2 ^ bs)) as [El Hdig]; [done | lia | done|].
  replace (kDigitBits - (kDigitBits - bs)) with bs in * by lia.
  split_and!; [done | done | | apply Z.shiftr_div_pow2; lia].
  assert (digit_base = 2 ^ (kDigitBits - bs) * 2 ^ bs) as EB
    by (unfold digit_base; rewrite <- Z.pow_add_r by lia; f_equal; lia).
  pose proof (Z.pow_pos_nonneg 2 bs). pose proof (Z.div_mod d (2 ^ bs) ltac:(lia)) as Ed.
  rewrite EB. transitivity (x / 2 ^ bs * 2 ^ bs +
    2 ^ (kDigitBits - bs) * 2 ^ bs * (2 ^ bs * (d / 2 ^ bs) + d mod 2 ^ bs)); [by rewrite <- Ed | ring].
Qed.

Lemma BitwiseRightShift_spec Zd X shift state :
  let r := if must_round_down state then 1 else 0 in
  digits_ok X -> 0 <= shift -> shift / kDigitBits < 2 ^ 31 -> (Z.to_nat (shift / kDigitBits) < length X)%nat ->
  (length X - Z.to_nat (shift / kDigitBits) <= length Zd)%nat ->
  val X / 2 ^ shift + r < bpow (length Zd) ->
  wp (BitwiseRightShift Zd X shift state) (fun Z' => length Z' = length Zd /\ digits_ok Z' /\
    val Z' = val X / 2 ^ shift + r).
Proof.
  intros r HX Hs Hint Hlt Hl Hv. pose proof (digit_shift_nonneg shift Hs). unfold BitwiseRightShift.
  rewrite static_cast_int_id by lia. destruct (shift_split shift Hs) as [Hbs E]. rewrite E in *.
  set (ds := Z.to_nat (shift / kDigitBits)) in *. set (bs := shift mod kDigitBits) in *.
  replace (Z.to_nat (Z.of_nat (length X) - shift / kDigitBits)) with (length X - ds)%nat by lia.
  replace (Z.to_nat (Z.of_nat (length X) - shift / kDigitBits - 1)) with (length X - ds - 1)%nat by lia.
  destruct (lookup_lt_is_Some_2 X ds Hlt) as [x0 Hx0].
  destruct (val_div_mod_shift X ds bs x0 HX Hx0 ltac:(lia)) as [_ Ediv]. rewrite Ediv in *.
  pose proof (Z.pow_pos_nonneg 2 bs ltac:(lia) ltac:(lia)) as Hp.
  apply wp_bind.
  apply (wp_mono _ (fun '(Z', i) => exists P R, Z' = P ++ R /\ length P = i /\ digits_ok P /\
    length Z' = length Zd /\ val P = val (drop ds X) / 2 ^ bs)).
  2: { intros [Z' i] (P & R & -> & HlP & HP & HlR & EP). rewrite length_app in HlR. apply wp_bind, wp_finish; [done | done|].
    intros Z2 HlZ2 HZ2 EZ2. unfold r in *. destruct (must_round_down state).
    - eapply wp_mono; [apply Add_digit_spec; [done | | apply is_digit_1 |]|].
      + intros ->. simpl in *. lia.
      + rewrite EZ2, EP. by replace (length Z2) with (length Zd) by lia.
      + intros Z3 (? & ? & ?). split_and!; [lia | done | lia].
    - apply wp_ret. split_and!; [lia | done | lia]. }
  destruct (Z.eqb_spec bs 0) as [-> | Hbs0].
  - apply wp_bind. rewrite <- (app_nil_l Zd) at 1.
    apply (wp_write_loop (fun k P _ => P = take k (drop ds X))); [done | done | constructor | by rewrite take_0 | |].
    { intros k P [] Hk HlP HP ->. apply wp_bind, (wp_rd_at (ds + k)); [lia | lia | done|]. intros x Hx Hdx. apply wp_ret.
      split; [done|]. symmetry. apply take_S_r. by rewrite lookup_drop. }
    intros P [] HlP HP ->. apply wp_ret. rewrite Nat.add_0_l in *.
    rewrite take_ge in * by (rewrite length_drop; lia).
    eexists _, _; split_and!; [done | rewrite length_drop; lia | done | rewrite length_app, !length_drop; lia |].
    by rewrite Z.pow_0_r, Z.div_1_r.
  - apply wp_bind, (wp_rd_at ds); [lia | lia | done|]. intros ? Hx0' _. rewrite Hx0 in Hx0'. injection Hx0' as <-.
    apply wp_bind. rewrite <- (app_nil_l Zd) at 1.
    apply (wp_write_loop (fun k P c => exists x, drop ds X !! k = Some x /\ c = x / 2 ^ bs /\
      (val P + bpow k * c) * 2 ^ bs + x0 mod 2 ^ bs = val (take (S k) (drop ds X))));
      [done | lia | constructor | | |].
    { assert (drop ds X !! 0%nat = Some x0) as Hx0' by (by rewrite lookup_drop, Nat.add_0_r).
      exists x0. rewrite (val_take_S _ _ _ Hx0'), take_0. cbn [val]. change (bpow 0) with 1.
      rewrite Z.shiftr_div_pow2 by lia. split_and!; [done | done |].
      pose proof (Z.div_mod x0 (2 ^ bs)). lia. }
    { intros k P c Hk HlP HP (x & Hx & -> & HJ).
      apply wp_bind, (wp_rd_at (ds + S k)); [lia | lia | done|]. intros d Hd Hdd. apply wp_ret.
      assert (drop ds X !! S k = Some d) as Hd' by (by rewrite lookup_drop).
      destruct (shift_in_digit bs x d) as (-> & Hdig & Ed & Hc'); [lia | | done|].
      { by apply (digits_ok_lookup (drop ds X) k); [apply digits_ok_drop|]. }
      split; [done|]. exists d. split_and!; [done | done |].
      rewrite (val_take_S _ _ _ Hd'), val_snoc, HlP, <- HJ, bpow_S. scale_by_weight Ed k. lia. }
    intros P c HlP HP (x & Hx & -> & HJ). rewrite Nat.add_0_l in *.
    pose proof (digits_ok_lookup _ _ _ (digits_ok_drop ds X HX) Hx) as Hxd.
    apply wp_bind, wp_wr_snoc; [done | rewrite length_drop; lia |]. apply wp_ret.
    eexists _, _; split_and!; [done | rewrite length_app; simpl; lia | | rewrite !length_app, !length_drop; simpl; lia |].
    { assert (is_digit (x / 2 ^ bs)); [|by auto with digits]. unfold is_digit in *.
      split; [apply Z.div_pos; lia|]. apply Z.div_lt_upper_bound; nia. }
    rewrite take_ge in HJ by (rewrite length_drop; lia). rewrite val_snoc, HlP.
    apply Z.div_unique with (x0 mod 2 ^ bs); [left; apply Z.mod_pos_bound; lia | lia].
Qed.

Lemma digit_ismax_spec x : is_digit x -> digit_ismax x = (x =? digit_base - 1).
Proof.
  intros Hx. unfold digit_ismax, wrap, is_digit in *.
  rewrite (mod_eq_of_bounds (Z.lnot x) (digit_base - 1 - x)); [| lia | exists (-1); unfold Z.lnot; lia].
  destruct (Z.eqb_spec (digit_base - 1 - x) 0), (Z.eqb_spec x (digit_base - 1)); (done || lia).
Qed.

(** Rounding the magnitude up by one needs a new digit only if the top digit is all ones
    and no bits were freed. *)
Lemma round_up_fits W bs top :
  digits_ok W -> list.last W = Some top -> 0 <= bs < kDigitBits -> 0 < bs \/ top <> digit_base - 1 ->
  val W / 2 ^ bs + 1 < bpow (length W).
Proof.
  intros HW Htop Hbs Hcase. apply last_Some in Htop as [W' ->].
  apply Forall_app in HW as [HW' Hd%Forall_inv]. rewrite val_snoc, length_app.
  replace (length W' + length [top])%nat with (S (length W')) by (simpl; lia). rewrite bpow_S.
  pose proof (val_bounds W' HW'). unfold is_digit in Hd. pose proof (bpow_pos (length W')).
  pose proof digit_base_ge as Hge.
  pose proof (Z.pow_pos_nonneg 2 bs ltac:(lia) ltac:(lia)) as Hp.
  destruct (Z.eq_dec bs 0) as [-> | Hbs0].
  - rewrite Z.pow_0_r, Z.div_1_r. destruct Hcase; [lia|]. nia.
  - assert (val W' + bpow (length W') * top < digit_base * bpow (length W')) as Hv by nia.
    assert (2 * 1 <= 2 ^ bs) as H2 by (rewrite <- (Z.sub_add 1 bs), Z.add_comm, Z.pow_add_r by lia;
      pose proof (Z.pow_pos_nonneg 2 (bs - 1)); lia).
    set (w := val W' + bpow (length W') * top) in *. set (M := digit_base * bpow (length W')) in *.
    assert (w / 2 ^ bs <= w / 2) by (apply Z.div_le_compat_l; nia).
    assert (2 * (w / 2) <= w) by (apply Z.mul_div_le; lia).
    assert (4 < M) by (unfold M; nia). lia.
Qed.

Lemma RightShift_ResultLength_spec X x_sign shift :
  let ds := Z.to_nat (shift / kDigitBits) in
  digits_ok X -> 0 <= shift -> shift / kDigitBits < 2 ^ 31 ->
  wp (RightShift_ResultLength X x_sign shift) (fun '(len, state) =>
    (length X <= ds /\ len = 0 /\ must_round_down state = false \/
     ds < length X /\ length X - ds <= len <= length X)%nat /\
    ((ds < length X)%nat ->
      must_round_down state = x_sign && negb (val X mod 2 ^ shift =? 0) /\
      val X / 2 ^ shift + (if must_round_down state then 1 else 0) < bpow len)).
Proof.
  intros ds HX Hs Hint. pose proof (digit_shift_nonneg shift Hs) as Hds. unfold RightShift_ResultLength.
  rewrite static_cast_int_id by lia. destruct (shift_split shift Hs) as [Hbs E].
  fold ds in E |- *. set (bs := shift mod kDigitBits) in *.
  destruct (Z.leb_spec (Z.of_nat (length X) - shift / kDigitBits) 0).
  { apply wp_ret. split; [left; cbn [must_round_down]; split_and!; (done || lia) | lia]. }
  assert (ds < length X)%nat as Hlt by lia.
  replace (Z.to_nat (Z.of_nat (length X) - shift / kDigitBits)) with (length X - ds)%nat by lia.
  destruct (lookup_lt_is_Some_2 X ds Hlt) as [x Hx].
  destruct (val_div_mod_shift X ds bs x HX Hx ltac:(lia)) as [Emod Ediv]. rewrite E, Emod, Ediv.
  pose proof (val_nonneg _ (digits_ok_take ds X HX)) as Ht0. pose proof (bpow_pos ds) as Hbp.
  pose proof (Z.pow_pos_nonneg 2 bs ltac:(lia) ltac:(lia)) as Hp.
  pose proof (Z.mod_pos_bound x (2 ^ bs) Hp) as Hxm.
  apply wp_bind.
  apply (wp_mono _ (fun m => m = x_sign && negb (val (take ds X) + bpow ds * (x mod 2 ^ bs) =? 0))).
  { destruct x_sign; [|by apply wp_ret]. rewrite low_mask, andb_true_l by done.
    apply wp_bind, (wp_rd_at ds); [lia | done | done|]. intros ? Hx' _. rewrite Hx in Hx'. injection Hx' as <-.
    rewrite Z.land_ones by lia. destruct (Z.eqb_spec (x mod 2 ^ bs) 0) as [-> | Hne]; cbn [negb].
    - rewrite Z.mul_0_r, Z.add_0_r. apply any_nonzero_spec; [done | lia].
    - apply wp_ret. symmetry. apply negb_true_iff, Z.eqb_neq. nia. }
  intros m Em. apply wp_bind.
  pose proof (val_bounds _ (digits_ok_drop ds X HX)) as Hd. rewrite length_drop in Hd.
  destruct (last_is_Some (drop ds X)) as [_ Hlast]. destruct Hlast as [top Htop].
  { intros E0%(f_equal length). rewrite length_drop in E0. simpl in E0. lia. }
  assert (val (drop ds X) / 2 ^ bs <= val (drop ds X)) as Hle
    by (apply Z.div_le_upper_bound; nia).
  assert (0 < bs \/ top <> digit_base - 1 -> val (drop ds X) / 2 ^ bs + 1 < bpow (length X - ds)) as Hfit.
  { intros Hc. rewrite <- length_drop. by eapply round_up_fits; [apply digits_ok_drop | | |]. }
  assert (m = true -> bs = 0 -> (0 < ds)%nat) as Hgrow.
  { intros -> ->. destruct ds; [|lia]. rewrite take_0 in Em. change (2 ^ 0) with 1 in Em. rewrite Z.mod_1_r in Em.
    cbn in Em. rewrite andb_false_r in Em. done. }
  apply (wp_mono _ (fun len => (length X - ds <= len <= length X)%nat /\
    val (drop ds X) / 2 ^ bs + (if m then 1 else 0) < bpow len)).
  { destruct m; cbn [andb]; [|apply wp_ret; split; lia].
    destruct (Z.eqb_spec bs 0) as [Hb0 | Hb0]; [|apply wp_ret; split; [lia | apply Hfit; lia]].
    specialize (Hgrow eq_refl Hb0).
    apply wp_bind, wp_msd; [done | by intros ->; simpl in *; lia|]. intros X' d EX Hdt.
    assert (d = top) as ->.
    { rewrite EX, last_lookup, length_drop, lookup_drop in Htop. rewrite length_app in Htop.
      rewrite EX, length_app in Hlt. cbn [length] in *. rewrite lookup_app_r in Htop by lia.
      replace (_ - _)%nat with 0%nat in Htop by lia. by injection Htop. }
    rewrite digit_ismax_spec by done. apply wp_ret. destruct (Z.eqb_spec top (digit_base - 1)).
    - split; [lia|]. eapply bpow_grow; [|apply Nat.lt_succ_diag_r]. lia.
    - split; [lia|]. apply Hfit. by right. }
  intros len [Hlen Hlenfit]. apply wp_bind, wp_dcheck.
  { rewrite Em. destruct x_sign; simpl; [apply orb_true_r | done]. }
  apply wp_ret. cbn [must_round_down]. split; [right; lia|]. intros _. split; [done | done].
Qed.

Lemma LeftShift_ResultLength_fits X top shift :
  let len := LeftShift_ResultLength (length X) top shift in
  digits_ok X -> list.last X = Some top -> 0 <= shift -> shift / kDigitBits < 2 ^ 31 ->
  0 <= len /\ (length X + Z.to_nat (shift / kDigitBits) <= Z.to_nat len)%nat /\ val X * 2 ^ shift < bpow (Z.to_nat len).
Proof.
  intros len HX Htop Hs Hint. pose proof (digit_shift_nonneg shift Hs). unfold len, LeftShift_ResultLength. clear len.
  rewrite static_cast_int_id by lia. destruct (shift_split shift Hs) as [Hbs ->].
  set (ds := Z.to_nat (shift / kDigitBits)). set (bs := shift mod kDigitBits) in *.
  split; [destruct (_ && _); lia|]. split; [destruct (_ && _); lia|]. pose proof (val_bounds X HX) as Hv. pose proof (bpow_pos ds).
  pose proof (Z.pow_pos_nonneg 2 bs ltac:(lia) ltac:(lia)) as Hp.
  apply Z.lt_le_trans with (bpow ds * bpow (length X + (if negb (bs =? 0) &&
    negb (Z.shiftr top (kDigitBits - bs) =? 0) then 1 else 0))).
  2: { rewrite <- bpow_add. apply bpow_le. unfold ds. destruct (_ && _); lia. }
  rewrite (Z.mul_comm (val X)), <- Z.mul_assoc. apply Z.mul_lt_mono_pos_l; [done|].
  destruct (Z.eqb_spec bs 0) as [-> | Hbs0]; cbn [negb andb].
  { rewrite Nat.add_0_r, Z.pow_0_r. lia. }
  destruct (Z.eqb_spec (Z.shiftr top (kDigitBits - bs)) 0) as [Hsmall | _]; cbn [negb].
  - rewrite Nat.add_0_r. apply last_Some in Htop as [X' ->].
    apply Forall_app in HX as [HX' Hd%Forall_inv]. unfold is_digit in Hd.
    rewrite Z.shiftr_div_pow2 in Hsmall by lia.
    apply Z.div_small_iff in Hsmall; [|pose proof (Z.pow_pos_nonneg 2 (kDigitBits - bs)); lia].
    rewrite length_app, Nat.add_1_r, bpow_S.
    pose proof (val_snoc_bounds X' top HX') as Hb. pose proof (bpow_pos (length X')).
    assert (digit_base = 2 ^ (kDigitBits - bs) * 2 ^ bs) as ->
      by (unfold digit_base; rewrite <- Z.pow_add_r by lia; f_equal; lia).
    apply Z.lt_le_trans with (2 ^ bs * (bpow (length X') * (top + 1))); [apply Z.mul_lt_mono_pos_l; lia|].
    replace (2 ^ (kDigitBits - bs) * 2 ^ bs * bpow (length X'))
      with (2 ^ bs * (bpow (length X') * 2 ^ (kDigitBits - bs))) by ring.
    do 2 (apply Z.mul_le_mono_nonneg_l; [lia|]). lia.
  - rewrite Nat.add_1_r, bpow_S. assert (2 ^ bs < digit_base) by (apply Z.pow_lt_mono_r; lia). nia.
Qed.

(** ** Truncation: correctness *)

(** Position of bit [n - 1]: [last] whole digits, and [e] bits of the next one. *)
Lemma bit_position n :
  0 < n ->
  let last := Z.to_nat (DIV_CEIL n kDigitBits - 1) in
  let e := if n mod kDigitBits =? 0 then kDigitBits else n mod kDigitBits in
  0 < e <= kDigitBits /\ 2 ^ n = bpow last * 2 ^ e /\ n - 1 = kDigitBits * Z.of_nat last + (e - 1) /\
  Z.to_nat (DIV_CEIL n kDigitBits) = S last /\ (n - 1) mod kDigitBits = e - 1 /\
  1 <= DIV_CEIL n kDigitBits.
Proof.
  intros Hn last e. assert (0 < kDigitBits) as HD by (destruct kDigitBits_cases; lia).
  unfold last, DIV_CEIL. replace ((n - 1) / kDigitBits + 1 - 1) with ((n - 1) / kDigitBits) by lia.
  pose proof (Z.div_pos (n - 1) kDigitBits ltac:(lia) HD) as Hq.
  pose proof (Z.mod_pos_bound n kDigitBits HD) as Hm.
  assert ((n - 1) mod kDigitBits = e - 1) as Ee.
  { unfold e. destruct (Z.eqb_spec (n mod kDigitBits) 0) as [E0 | E0].
    - apply Z.mod_divide in E0 as [q ->]; [|lia].
      apply (mod_eq_of_bounds (q * kDigitBits - 1) (kDigitBits - 1)); [lia | exists (q - 1); lia].
    - apply (mod_eq_of_bounds (n - 1) (n mod kDigitBits - 1)); [lia|].
      exists (n / kDigitBits). pose proof (Z.div_mod n kDigitBits). lia. }
  assert (0 < e <= kDigitBits) as He.
  { unfold e. destruct (Z.eqb_spec (n mod kDigitBits) 0); lia. }
  assert (kDigitBits <> 0) as HD0 by lia. pose proof (Z.div_mod (n - 1) _ HD0) as Edm.
  split_and!; try lia.
  rewrite bpow_pow2, Z2Nat.id, <- Z.pow_add_r by lia. f_equal. lia.
Qed.

Lemma drop_high_bits_spec d bits :
  is_digit d -> 0 < bits < kDigitBits -> drop_high_bits d (kDigitBits - bits) = d mod 2 ^ bits.
Proof.
  intros Hd Hb. unfold drop_high_bits.
  destruct (shl_lor d (kDigitBits - bits) 0) as [E _]; [done | lia | pose proof (Z.pow_pos_nonneg 2 (kDigitBits - bits)); lia|].
  rewrite Z.lor_0_r in E. rewrite E, Z.add_0_r, Z.shiftr_div_pow2 by lia.
  replace (kDigitBits - (kDigitBits - bits)) with bits by lia.
  apply Z.div_mul. pose proof (Z.pow_pos_nonneg 2 (kDigitBits - bits)). lia.
Qed.

(** [take (n digits)] of the top digit, whole or truncated. *)
Lemma top_bits_spec x n :
  is_digit x -> 0 < n ->
  let e := if n mod kDigitBits =? 0 then kDigitBits else n mod kDigitBits in
  (if negb (n mod kDigitBits =? 0) then drop_high_bits x (kDigitBits - n mod kDigitBits) else x)
    = x mod 2 ^ e.
Proof.
  intros Hx Hn. cbn zeta. assert (0 < kDigitBits) by (destruct kDigitBits_cases; lia).
  pose proof (Z.mod_pos_bound n kDigitBits). destruct (Z.eqb_spec (n mod kDigitBits) 0); cbn [negb].
  - symmetry. by apply Z.mod_small.
  - apply drop_high_bits_spec; [done | lia].
Qed.

Lemma TruncateToNBits_spec Zd X n :
  digits_ok X -> 0 < n -> (Z.to_nat (DIV_CEIL n kDigitBits) <= length X)%nat ->
  length Zd = Z.to_nat (DIV_CEIL n kDigitBits) ->
  wp (TruncateToNBits Zd X n) (fun Z' => length Z' = length Zd /\ digits_ok Z' /\
    val Z' = val X mod 2 ^ n).
Proof.
  intros HX Hn HlX HlZ. unfold TruncateToNBits.
  destruct (bit_position n Hn) as (He & E2 & _ & Elast & _ & _).
  set (last := Z.to_nat (DIV_CEIL n kDigitBits - 1)) in *. rewrite Elast in *.
  set (e := if n mod kDigitBits =? 0 then kDigitBits else n mod kDigitBits) in *.
  apply wp_bind. rewrite <- (app_nil_l Zd) at 1.
  apply (wp_write_loop (fun k P _ => P = take k X)); [done | lia | constructor | done | |].
  { intros k P [] Hk HlP HP ->. apply wp_bind, wp_rd; [lia | done|]. intros x Hx Hdx. apply wp_ret.
    split; [done|]. symmetry. by apply take_S_r. }
  intros P [] HlP HP ->. rewrite Nat.add_0_l in *.
  apply wp_bind, wp_rd; [lia | done|]. intros x Hx Hdx. rewrite top_bits_spec by done. fold e.
  destruct (val_div_mod_shift X last e x HX Hx ltac:(lia)) as [Em _]. rewrite E2, Em.
  apply wp_wr_snoc; [done | rewrite length_drop; lia |].
  rewrite drop_drop, drop_ge, app_nil_r by lia. pose proof (Z.pow_pos_nonneg 2 e ltac:(lia) ltac:(lia)) as Hp.
  assert (is_digit (x mod 2 ^ e)) as Hd.
  { unfold is_digit in *. pose proof (Z.mod_pos_bound x (2 ^ e) Hp).
    assert (2 ^ e <= digit_base) by (apply Z.pow_le_mono_r; lia). lia. }
  split_and!; [rewrite length_app; simpl; lia | by auto with digits |]. rewrite val_snoc, HlP. done.
Qed.

(** Reading past the end of [X] reads zeros. *)
Lemma val_take_default X k :
  digits_ok X ->
  exists x, default 0 (X !! k) = x /\ is_digit x /\ val (take (S k) X) = val (take k X) + bpow k * x.
Proof.
  intros HX. destruct (X !! k) as [x|] eqn:E; cbn [default].
  - exists x. split_and!; [done | by apply (digits_ok_lookup X k x HX E) | by apply val_take_S].
  - exists 0. apply lookup_ge_None in E. rewrite !take_ge by lia.
    split_and!; [done | apply is_digit_0 | lia].
Qed.

(** The two loops of [TruncateAndSubFromPowerOfTwo]: the low digits of [- X]. *)
Lemma wp_negate_loops {T} last Zd X (cont : digits -> Z -> res T) (Q : T -> Prop) :
  digits_ok X -> (last <= length Zd)%nat ->
  (forall P b, length P = last -> digits_ok P -> 0 <= b <= 1 -> val P = b * bpow last - val (take last X) ->
     wp (cont (P ++ drop last Zd) b) Q) ->
  wp ('(Zd, borrow) ← write_loop (last `min` length X) 0
        (fun i _ borrow => x ← rd X i; mret (digit_sub2 0 x borrow)) Zd 0;
      '(Zd, borrow) ← write_loop (last - last `min` length X) (last `min` length X)
        (fun _ _ borrow => mret (digit_sub 0 borrow)) Zd borrow;
      cont Zd borrow) Q.
Proof.
  intros HX Hl HQ. set (n := (last `min` length X)%nat). apply wp_bind. rewrite <- (app_nil_l Zd) at 1.
  apply (wp_write_loop (fun k P b => 0 <= b <= 1 /\ val P = b * bpow k - val (take k X)));
    [done | lia | constructor | rewrite take_0; cbn [val]; lia | |].
  { intros k P b Hk HlP HP [Hb HJ]. apply wp_bind, wp_rd; [lia | done|]. intros x Hx Hdx. apply wp_ret.
    destruct (digit_sub2_spec 0 x b is_digit_0 Hdx Hb) as (r & c & -> & Er & Hr & Hc).
    split; [done|]. split; [done|]. rewrite val_snoc, HlP, HJ, (val_take_S _ _ _ Hx), bpow_S.
    replace r with (c * digit_base + (0 - x - b)) by lia. ring. }
  intros P b HlP HP [Hb HJ]. rewrite Nat.add_0_l in *. apply wp_bind.
  apply (wp_write_loop (fun k P b => 0 <= b <= 1 /\ val P = b * bpow k - val (take k X)));
    [done | rewrite length_drop; lia | done | done | |].
  { intros k P' b' Hk HlP' HP' [Hb' HJ']. apply wp_ret.
    destruct (digit_sub_spec 0 b' is_digit_0) as (r & c & -> & Er & Hr & Hc).
    { pose proof digit_base_ge. unfold is_digit. lia. }
    split; [done|]. split; [done|]. rewrite (take_ge X (S k)), val_snoc, HlP', HJ', (take_ge X k), bpow_S by lia.
    replace r with (c * digit_base + (0 - b')) by lia. ring. }
  intros P' b' HlP' HP' [Hb' HJ']. replace (n + (last - n))%nat with last in * by lia.
  rewrite drop_drop. replace (n + (last - n))%nat with last by lia. by apply HQ.
Qed.

Lemma TruncateAndSubFromPowerOfTwo_spec Zd X n :
  digits_ok X -> 0 < n -> length Zd = Z.to_nat (DIV_CEIL n kDigitBits) ->
  wp (TruncateAndSubFromPowerOfTwo Zd X n) (fun Z' => length Z' = length Zd /\ digits_ok Z' /\
    val Z' = (- val X) mod 2 ^ n).
Proof.
  intros HX Hn HlZ. unfold TruncateAndSubFromPowerOfTwo.
  destruct (bit_position n Hn) as (He & E2 & _ & Elast & _ & _).
  set (last := Z.to_nat (DIV_CEIL n kDigitBits - 1)) in *. rewrite Elast in HlZ.
  set (e := if n mod kDigitBits =? 0 then kDigitBits else n mod kDigitBits) in *.
  assert (exists rest, val X = val (take last X) + bpow last * default 0 (X !! last) + bpow (S last) * rest) as [rest EX].
  { exists (val (drop (S last) X)). destruct (val_take_default X last HX) as (x & -> & _ & E).
    rewrite <- E. rewrite (val_split X (S last)) at 1. f_equal.
    destruct (Nat.le_gt_cases (S last) (length X)); [by rewrite length_take, Nat.min_l by lia|].
    rewrite drop_ge by lia. cbn [val]. lia. }
  destruct (val_take_default X last HX) as (x & Ex & Hdx & _). rewrite Ex in EX.
  pose proof (bpow_pos last) as Hbl. pose proof (Z.pow_pos_nonneg 2 e ltac:(lia) ltac:(lia)) as Hp.
  assert (digit_base = 2 ^ (kDigitBits - e) * 2 ^ e) as EB
    by (unfold digit_base; rewrite <- Z.pow_add_r by lia; f_equal; lia).
  assert (forall P d, length P = last -> digits_ok P -> 0 <= d < 2 ^ e ->
    (exists q, val P + bpow last * d = - (val (take last X) + bpow last * x) + q * (bpow last * 2 ^ e)) ->
    wp (wr (P ++ drop last Zd) last d) (fun Z' => length Z' = length Zd /\ digits_ok Z' /\
      val Z' = (- val X) mod 2 ^ n)) as Hend.
  { intros P d HlP HP Hd [q Eq]. apply wp_wr_snoc; [done | rewrite length_drop; lia |].
    rewrite drop_drop, drop_ge, app_nil_r by lia. pose proof (val_bounds P HP) as HvP. rewrite HlP in HvP.
    assert (2 ^ e <= digit_base) by (apply Z.pow_le_mono_r; lia).
    assert (is_digit d) by (unfold is_digit; lia).
    split_and!; [rewrite length_app; simpl; lia | by auto with digits |]. rewrite val_snoc, HlP, E2.
    symmetry. apply mod_eq_of_bounds; [nia|].
    exists (- q - 2 ^ (kDigitBits - e) * rest). rewrite EX, Eq, bpow_S, EB. ring. }
  apply wp_negate_loops; [done | lia|].
  intros P b HlP HP Hb EP. apply wp_bind.
  apply (wp_mono _ (fun m => m = x)).
  { rewrite <- Ex. case_bool_decide as Hlt.
    - apply wp_rd; [done | done|]. by intros ? -> _.
    - apply wp_ret. rewrite lookup_ge_None_2 by lia. done. }
  intros m ->. unfold e in *.
  destruct (Z.eqb_spec (n mod kDigitBits) 0) as [Hb0 | Hb0].
  - destruct (digit_sub2_spec 0 x b is_digit_0 Hdx Hb) as (r & c & -> & Er & Hr & Hc).
    apply Hend; [done | done | done |]. exists c. rewrite EP. fold digit_base.
    replace r with (c * digit_base + (0 - x - b)) by lia. ring.
  - assert (0 < n mod kDigitBits < kDigitBits) as Hbits
      by (pose proof (Z.mod_pos_bound n kDigitBits); destruct kDigitBits_cases; lia).
    set (bits := n mod kDigitBits) in *. rewrite drop_high_bits_spec by done.
    assert (2 ^ bits < digit_base) by (apply Z.pow_lt_mono_r; lia).
    rewrite Z.shiftl_1_l, (wrap_small (2 ^ bits)) by (unfold is_digit; lia).
    pose proof (Z.mod_pos_bound x (2 ^ bits) Hp) as Hxm.
    destruct (digit_sub2_spec (2 ^ bits) (x mod 2 ^ bits) b) as (r & c & -> & Er & Hr & Hc);
      [unfold is_digit; lia | unfold is_digit; lia | done|]. unfold is_digit in Hr.
    assert (c = 0) as -> by nia. apply wp_bind, wp_dcheck; [done|].
    rewrite wrap_small by (unfold is_digit; lia).
    replace (2 ^ bits - 1) with (Z.ones bits) by (rewrite Z.ones_equiv; lia). rewrite Z.land_ones by lia.
    apply Hend; [done | done | by apply Z.mod_pos_bound |].
    exists (- (r / 2 ^ bits) + 1 + x / 2 ^ bits).
    rewrite (Z.mod_eq r) by lia. rewrite EP. replace r with (2 ^ bits - x mod 2 ^ bits - b) at 1 by lia.
    rewrite (Z.mod_eq x) by lia. ring.
Qed.

(** ** Conversion to [n]-bit integers: correctness *)

(** Reference: the signed [n]-bit integer congruent to [x] modulo [2^n]. *)
Definition as_int_n (n x : Z) : Z :=
  let m := x mod 2 ^ n in if 2 ^ (n - 1) <=? m then m - 2 ^ n else m.

Lemma pow2_half n : 0 < n -> 2 ^ n = 2 * 2 ^ (n - 1) /\ 0 < 2 ^ (n - 1).
Proof.
  intros Hn. split; [|apply Z.pow_pos_nonneg; lia].
  replace n with (1 + (n - 1)) at 1 by lia. by rewrite Z.pow_add_r by lia.
Qed.

Lemma as_int_n_small n x : 0 < n -> - 2 ^ (n - 1) <= x < 2 ^ (n - 1) -> as_int_n n x = x.
Proof.
  intros Hn Hx. destruct (pow2_half n Hn) as [E2 Hp]. unfold as_int_n.
  destruct (Z.lt_ge_cases x 0).
  - rewrite (mod_eq_of_bounds x (x + 2 ^ n)); [| lia | exists (-1); lia].
    destruct (Z.leb_spec (2 ^ (n - 1)) (x + 2 ^ n)); lia.
  - rewrite Z.mod_small by lia. destruct (Z.leb_spec (2 ^ (n - 1)) x); lia.
Qed.

(** The cases [AsIntN] distinguishes, on the magnitude modulo [2^n]. *)
Lemma as_int_n_cases n v negative :
  0 < n -> let t := v mod 2 ^ n in
  (t < 2 ^ (n - 1) -> as_int_n n (signed_val negative v) = signed_val negative t) /\
  (2 ^ (n - 1) <= t -> (- v) mod 2 ^ n = 2 ^ n - t /\
     as_int_n n (signed_val negative v) =
       signed_val (negb negative || (t =? 2 ^ (n - 1))) (2 ^ n - t)).
Proof.
  intros Hn t. destruct (pow2_half n Hn) as [E2 Hp]. pose proof (Z.mod_pos_bound v (2 ^ n) ltac:(lia)) as Ht.
  fold t in Ht. assert (v = t + v / 2 ^ n * 2 ^ n) as Ev by (unfold t; pose proof (Z.div_mod v (2 ^ n)); lia).
  assert (0 < t -> (- v) mod 2 ^ n = 2 ^ n - t) as Hneg.
  { intros. apply mod_eq_of_bounds; [lia|]. exists (- (v / 2 ^ n) - 1). lia. }
  split; intros Hc; destruct negative; unfold signed_val, as_int_n; cbn [negb orb].
  - destruct (Z.eq_dec t 0) as [Ht0 | Ht0].
    + rewrite (mod_eq_of_bounds (- v) 0); [| lia | exists (- (v / 2 ^ n)); lia].
      destruct (Z.leb_spec (2 ^ (n - 1)) 0); lia.
    + rewrite Hneg by lia. destruct (Z.leb_spec (2 ^ (n - 1)) (2 ^ n - t)); lia.
  - fold t. destruct (Z.leb_spec (2 ^ (n - 1)) t); lia.
  - rewrite Hneg by lia. split; [done|].
    destruct (Z.eqb_spec t (2 ^ (n - 1))), (Z.leb_spec (2 ^ (n - 1)) (2 ^ n - t)); lia.
  - rewrite Hneg by lia. split; [done|]. fold t. destruct (Z.leb_spec (2 ^ (n - 1)) t); lia.
Qed.

Lemma land_pow2_eqb x k :
  0 <= k -> (Z.land x (2 ^ k) =? 2 ^ k) = (2 ^ k <=? x mod 2 ^ (k + 1)).
Proof.
  intros Hk. pose proof (Z.pow_pos_nonneg 2 k ltac:(lia) Hk) as Hp.
  assert (Z.land x (2 ^ k) = if Z.testbit x k then 2 ^ k else 0) as ->.
  { apply Z.bits_inj'. intros i Hi. rewrite Z.land_spec, Z.pow2_bits_eqb by lia.
    destruct (Z.eqb_spec k i) as [<- | Hne].
    - rewrite andb_true_r. destruct (Z.testbit x k); [by rewrite Z.pow2_bits_true | by rewrite Z.testbit_0_l].
    - rewrite andb_false_r. destruct (Z.testbit x k); [by rewrite Z.pow2_bits_false | by rewrite Z.testbit_0_l]. }
  pose proof (Z.testbit_spec' x k Hk) as Hb. rewrite Z.pow_add_r, Z.pow_1_r, Z.rem_mul_r, <- Hb by lia.
  pose proof (Z.mod_pos_bound x (2 ^ k) Hp).
  destruct (Z.testbit x k); cbn [Z.b2z].
  - rewrite Z.eqb_refl. symmetry. apply Z.leb_le. lia.
  - transitivity false; [apply Z.eqb_neq; lia | symmetry; apply Z.leb_gt; lia].
Qed.

(** Bit [n - 1] and the bits below it, from the digit it is in. *)
Lemma top_digit_bits X n top :
  digits_ok X -> 0 < n -> let last := Z.to_nat (DIV_CEIL n kDigitBits - 1) in
  let compare_digit := wrap (Z.shiftl 1 ((n - 1) mod kDigitBits)) in
  X !! last = Some top ->
  2 ^ (n - 1) = bpow last * compare_digit /\ 0 < compare_digit < digit_base /\
  (Z.land top compare_digit =? compare_digit) = (2 ^ (n - 1) <=? val X mod 2 ^ n) /\
  ((Z.land top compare_digit =? compare_digit) = true ->
     negb (Z.land top (wrap (compare_digit - 1)) =? 0) || negb (val (take last X) =? 0)
       = negb (val X mod 2 ^ n =? 2 ^ (n - 1))).
Proof.
  intros HX Hn. cbn zeta. intros Htop.
  destruct (bit_position n Hn) as (He & E2 & Epos & Elast & Emod & _). rewrite Emod.
  set (last := Z.to_nat (DIV_CEIL n kDigitBits - 1)) in *.
  set (e := if n mod kDigitBits =? 0 then kDigitBits else n mod kDigitBits) in *.
  destruct (pow2_half e) as [Ee Hpe]; [lia|].
  assert (2 ^ (e - 1) < digit_base) by (apply Z.pow_lt_mono_r; lia).
  rewrite Z.shiftl_1_l, (wrap_small (2 ^ (e - 1))) by (unfold is_digit; lia).
  pose proof (bpow_pos last) as Hbl.
  assert (2 ^ (n - 1) = bpow last * 2 ^ (e - 1)) as E1.
  { destruct (pow2_half n Hn) as [E2' _]. rewrite E2', Ee in E2. nia. }
  destruct (val_div_mod_shift X last e top HX Htop ltac:(lia)) as [Em _]. rewrite <- E2 in Em.
  pose proof (val_bounds _ (digits_ok_take last X HX)) as Ht. rewrite length_take in Ht.
  pose proof (lookup_lt_Some _ _ _ Htop). rewrite Nat.min_l in Ht by lia.
  rewrite land_pow2_eqb by lia. replace (e - 1 + 1) with e by lia.
  assert ((2 ^ (e - 1) <=? top mod 2 ^ e) = (2 ^ (n - 1) <=? val X mod 2 ^ n)) as Eb.
  { rewrite Em, E1. pose proof (Z.mod_pos_bound top (2 ^ e) ltac:(lia)).
    destruct (Z.leb_spec (2 ^ (e - 1)) (top mod 2 ^ e)).
    - symmetry. apply Z.leb_le. assert (bpow last * 2 ^ (e - 1) <= bpow last * (top mod 2 ^ e))
        by (apply Z.mul_le_mono_nonneg_l; lia). lia.
    - symmetry. apply Z.leb_gt. assert (bpow last * (top mod 2 ^ e + 1) <= bpow last * 2 ^ (e - 1))
        by (apply Z.mul_le_mono_nonneg_l; lia). lia. }
  split_and!; [done | lia | lia | done |]. intros Hbit%Z.leb_le.
  rewrite wrap_small by (unfold is_digit; lia).
  replace (2 ^ (e - 1) - 1) with (Z.ones (e - 1)) by (rewrite Z.ones_equiv; lia). rewrite Z.land_ones by lia.
  assert (top mod 2 ^ e = 2 ^ (e - 1) + top mod 2 ^ (e - 1)) as Etop.
  { rewrite Ee, (Z.mul_comm 2), Z.rem_mul_r in Hbit |- * by lia.
    pose proof (Z.mod_pos_bound (top / 2 ^ (e - 1)) 2 ltac:(lia)) as Hq.
    pose proof (Z.mod_pos_bound top (2 ^ (e - 1)) Hpe).
    set (q := (top / 2 ^ (e - 1)) mod 2) in *. assert (q = 0 \/ q = 1) as [Eq | Eq] by lia; rewrite Eq in *; lia. }
  rewrite Em, E1, Etop. pose proof (Z.mod_pos_bound top (2 ^ (e - 1)) Hpe) as Hm. rewrite <- negb_andb. f_equal.
  destruct (Z.eqb_spec (top mod 2 ^ (e - 1)) 0) as [-> | Hne]; cbn [andb].
  - destruct (Z.eqb_spec (val (take last X)) 0); symmetry; [apply Z.eqb_eq | apply Z.eqb_neq]; lia.
  - symmetry. apply Z.eqb_neq. nia.
Qed.

Lemma AsIntNResultLength_spec X negative n :
  digits_ok X -> 0 < n ->
  wp (AsIntNResultLength X negative n) (fun l =>
    l = -1 /\ as_int_n n (signed_val negative (val X)) = signed_val negative (val X) \/
    l = DIV_CEIL n kDigitBits /\ (Z.to_nat l <= length X)%nat).
Proof.
  intros HX Hn. unfold AsIntNResultLength.
  destruct (bit_position n Hn) as (_ & E2 & _ & Elast & _ & Hd1).
  set (last := Z.to_nat (DIV_CEIL n kDigitBits - 1)) in *.
  destruct (pow2_half n Hn) as [_ Hp1]. pose proof (val_bounds X HX) as Hv.
  assert (forall v, 0 <= v < 2 ^ (n - 1) -> as_int_n n (signed_val negative v) = signed_val negative v) as Hsmall.
  { intros v Hv'. apply as_int_n_small; [done|]. destruct negative; simpl; lia. }
  destruct (Z.ltb_spec (Z.of_nat (length X)) (DIV_CEIL n kDigitBits)).
  { apply wp_ret. left. split; [done|]. apply Hsmall. split; [lia|].
    apply Z.lt_le_trans with (bpow last); [|].
    - pose proof (bpow_le (length X) last ltac:(lia)). lia.
    - destruct (bit_position n Hn) as (He & _ & Epos & _). fold last in Epos. rewrite bpow_pow2.
      apply Z.pow_le_mono_r; lia. }
  destruct (Z.ltb_spec (DIV_CEIL n kDigitBits) (Z.of_nat (length X))); [apply wp_ret; right; lia|].
  apply wp_bind, wp_rd; [lia | done|]. intros top Htop Hdt. unfold is_digit in Hdt.
  destruct (top_digit_bits X n top HX Hn Htop) as (E1 & Hc & _ & _). fold last in E1, Htop.
  set (c := wrap (Z.shiftl 1 ((n - 1) mod kDigitBits))) in *. pose proof (bpow_pos last).
  assert (val X = val (take last X) + bpow last * top) as EX.
  { rewrite <- (val_take_S X last top Htop), take_ge; [done | lia]. }
  pose proof (val_bounds _ (digits_ok_take last X HX)) as Ht. rewrite length_take, Nat.min_l in Ht by lia.
  destruct (Z.ltb_spec top c).
  { apply wp_ret. left. split; [done|]. apply Hsmall. rewrite E1, EX.
    assert (bpow last * (top + 1) <= bpow last * c) by (apply Z.mul_le_mono_nonneg_l; lia). nia. }
  destruct (Z.ltb_spec c top); [apply wp_ret; right; lia|]. assert (top = c) as -> by lia.
  destruct negative; cbn [negb]; [|apply wp_ret; right; lia].
  apply wp_bind. eapply wp_mono; [apply any_nonzero_spec; [done | lia]|]. intros b ->. apply wp_ret.
  fold last. destruct (Z.eqb_spec (val (take last X)) 0) as [E0 | _]; cbn [negb]; [left | right; lia].
  split; [done|]. apply as_int_n_small; [done|]. simpl. lia.
Qed.

(** [AsIntN] into a buffer of [AsIntNResultLength] digits. *)
Lemma AsIntN_spec Zd X negative n :
  digits_ok X -> X <> [] -> 0 < n -> AsIntNResultLength X negative n = Ok (Z.of_nat (length Zd)) ->
  wp (AsIntN Zd X negative n) (fun '(Z', zn) => length Z' = length Zd /\ digits_ok Z' /\
    signed_val zn (val Z') = as_int_n n (signed_val negative (val X))).
Proof.
  intros HX Hne Hn Hlen. unfold AsIntN. apply wp_bind, wp_dcheck_decide; [destruct X; [done | simpl; lia]|].
  apply wp_bind, wp_dcheck; [by apply Z.ltb_lt|].
  pose proof (AsIntNResultLength_spec X negative n HX Hn) as Hspec. rewrite Hlen in Hspec |- *. cbn in Hspec.
  destruct Hspec as [[? _] | [El HlX]]; [lia|].
  destruct (bit_position n Hn) as (_ & _ & _ & Elast & _ & Hd1).
  apply wp_bind, wp_Ok, wp_bind, wp_dcheck; [apply Z.ltb_lt; lia|].
  apply wp_bind, wp_rd; [lia | done|]. intros top Htop Hdt.
  destruct (top_digit_bits X n top HX Hn Htop) as (_ & _ & Ebit & Escan).
  set (c := wrap (Z.shiftl 1 ((n - 1) mod kDigitBits))) in *.
  destruct (as_int_n_cases n (val X) negative Hn) as [Hlow Hhigh]. rewrite Ebit in *.
  destruct (Z.leb_spec (2 ^ (n - 1)) (val X mod 2 ^ n)) as [Hge | Hlt]; cbn [negb].
  - destruct (Hhigh Hge) as [Eneg Eint]. specialize (Escan eq_refl).
    apply wp_bind. eapply wp_mono; [apply TruncateAndSubFromPowerOfTwo_spec; [done | done | lia]|].
    intros Z' (HlZ' & HZ' & EZ'). rewrite Eneg in EZ'. rewrite Eint, <- EZ'.
    destruct negative; cbn [negb orb]; [|by apply wp_ret].
    destruct (negb (Z.land top (wrap (c - 1)) =? 0)) eqn:El0; cbn [orb] in Escan.
    + apply wp_ret. split_and!; [done | done|]. symmetry in Escan. apply negb_true_iff in Escan. by rewrite Escan.
    + apply wp_bind. eapply wp_mono; [apply any_nonzero_spec; [done | lia]|]. intros b ->. apply wp_ret.
      split_and!; [done | done|]. by rewrite Escan, negb_involutive.
  - apply wp_bind. eapply wp_mono; [apply TruncateToNBits_spec; [done | done | lia | lia]|].
    intros Z' (HlZ' & HZ' & EZ'). apply wp_ret. rewrite EZ', Hlow by done. done.
Qed.

Lemma AsUintN_Pos_ResultLength_spec X n :
  digits_ok X -> 0 < n ->
  wp (AsUintN_Pos_ResultLength X n) (fun l =>
    l = -1 /\ val X mod 2 ^ n = val X \/ l = DIV_CEIL n kDigitBits /\ (Z.to_nat l <= length X)%nat).
Proof.
  intros HX Hn. unfold AsUintN_Pos_ResultLength.
  destruct (bit_position n Hn) as (He & E2 & _ & Elast & _ & Hd1).
  set (last := Z.to_nat (DIV_CEIL n kDigitBits - 1)) in *. pose proof (val_bounds X HX) as Hv.
  pose proof (bpow_pos last).
  set (e := if n mod kDigitBits =? 0 then kDigitBits else n mod kDigitBits) in *.
  pose proof (Z.pow_pos_nonneg 2 e ltac:(lia) ltac:(lia)) as Hpe.
  destruct (Z.ltb_spec (Z.of_nat (length X)) (DIV_CEIL n kDigitBits)).
  { apply wp_ret. left. split; [done|]. apply Z.mod_small. pose proof (bpow_le (length X) last ltac:(lia)). nia. }
  destruct (Z.ltb_spec (DIV_CEIL n kDigitBits) (Z.of_nat (length X))); [apply wp_ret; right; lia|].
  assert (length X = S last) as HlX by lia. unfold e in *.
  destruct (Z.eqb_spec (n mod kDigitBits) 0).
  { apply wp_ret. left. split; [done|]. apply Z.mod_small. rewrite E2. fold digit_base.
    rewrite HlX, bpow_S in Hv. lia. }
  apply wp_bind, wp_rd; [lia | done|]. intros top Htop Hdt. unfold is_digit in Hdt. apply wp_ret. fold last in Htop.
  rewrite Z.shiftr_div_pow2 by lia.
  destruct (Z.eqb_spec (top / 2 ^ (n mod kDigitBits)) 0) as [E0 | _]; [left | right; lia].
  split; [done|]. apply Z.div_small_iff in E0; [|lia].
  assert (0 <= n mod kDigitBits <= kDigitBits) as Hb by lia.
  destruct (val_div_mod_shift X last _ top HX Htop Hb) as [Em _].
  rewrite E2, Em, Z.mod_small by lia.
  rewrite <- (val_take_S X last top Htop), take_ge by lia. done.
Qed.

Lemma AsUintN_Pos_spec Zd X n :
  digits_ok X -> 0 < n -> AsUintN_Pos_ResultLength X n = Ok (Z.of_nat (length Zd)) ->
  wp (AsUintN_Pos Zd X n) (fun Z' => length Z' = length Zd /\ digits_ok Z' /\ val Z' = val X mod 2 ^ n).
Proof.
  intros HX Hn Hlen. unfold AsUintN_Pos. pose proof (AsUintN_Pos_ResultLength_spec X n HX Hn) as Hspec.
  rewrite Hlen in Hspec |- *. cbn in Hspec. destruct Hspec as [[? _] | [El HlX]]; [lia|].
  destruct (bit_position n Hn) as (_ & _ & _ & _ & _ & Hd1).
  apply wp_bind, wp_Ok, wp_bind, wp_dcheck; [apply Z.ltb_lt; lia|].
  apply TruncateToNBits_spec; (done || lia).
Qed.

Lemma AsUintN_Neg_spec Zd X n :
  digits_ok X -> 0 < n -> length Zd = AsUintN_Neg_ResultLength n ->
  wp (AsUintN_Neg Zd X n) (fun Z' => length Z' = length Zd /\ digits_ok Z' /\ val Z' = (- val X) mod 2 ^ n).
Proof. intros HX Hn Hl. by apply TruncateAndSubFromPowerOfTwo_spec. Qed.
End bitwise_shift.
