(* ===== verification/BigIntObject.v ===== *)
(** BigInt objects: [src/objects/bigint.h] and [src/objects/bigint.cc].  A BigInt is a sign
    and a magnitude; every operation allocates its result, computes the digits with the
    library and canonicalizes.  The isolate enters through its processor and through the
    exceptions an operation throws. *)

From Stdlib Require Import ZArith Lia.
From stdpp Require Import base tactics numbers list option.
From S2P Require Import Prelude Digit Digits VectorArithmetic Processor MulSchoolbook MulKaratsuba Multiply Division SignedArithmetic Bitwise BitwiseShift.

#[local] Open Scope Z_scope.

(** ** Exceptions *)

(** What a function returning an empty [MaybeHandle] has thrown: a [RangeError],
    [TypeError] or [SyntaxError] with one of these message templates, or the termination of the script. *)
Inductive exception : Type :=
  | kBigIntTooBig
  | kBigIntDivZero
  | kMustBePositive
  | kBigIntShr
  | kBigIntFromNumber
  | kBigIntFromObject
  | kInvalidStringLength
  | kTerminated.

(** [MaybeHandle<A>]. *)
Definition MaybeHandle (A : Type) : Type := (exception + A)%type.

(** Computations on an isolate. *)
Definition IM (A : Type) : Type := PM (MaybeHandle A).

#[export] Instance IM_ret : MRet IM := fun A a p => Ok (inr a, p).
#[export] Instance IM_bind : MBind IM := fun A B f m p =>
  match m p with
  | Ok (inr a, p') => f a p'
  | Ok (inl e, p') => Ok (inl e, p')
  | Err e => Err e
  end.

Definition throw {A} (e : exception) : IM A := fun p => Ok (inl e, p).

(** [if (!maybe.ToHandle(&result)) return {}]. *)
Definition ToHandle {A} (m : MaybeHandle A) : IM A := fun p => Ok (m, p).

(** [maybe.ToHandleChecked()]: a failed [CHECK] is a fault. *)
Definition ToHandleChecked {A} (m : MaybeHandle A) : res A :=
  match m with inr a => Ok a | inl _ => Err DCheckFailed end.

(** Calls into the library. *)
Definition call {A} (m : res A) : IM A := fun p =>
  match m with Ok a => Ok (inr a, p) | Err e => Err e end.

(** Calls of the processor: an interrupted operation terminates the script. *)
Definition run {A} (m : PM (Status * A)) : IM A := fun p =>
  match m p with
  | Ok ((kOk, a), p') => Ok (inr a, p')
  | Ok ((kInterrupted, _), p') => Ok (inl kTerminated, p')
  | Err e => Err e
  end.

(** ** Objects *)

Record BigInt : Type := mkBigInt {
  sign : bool;
  digits_of : digits;
}.

Definition bi_length (x : BigInt) : nat := length (digits_of x).
Definition is_zero (x : BigInt) : bool := bool_decide (bi_length x = 0)%nat.
Definition digit (x : BigInt) (n : nat) : res Z := rd (digits_of x) n.
Definition set_sign (x : BigInt) (new_sign : bool) : BigInt := mkBigInt new_sign (digits_of x).
Definition set_digit (x : BigInt) (n : nat) (value : Z) : res BigInt :=
  d ← wr (digits_of x) n value; mret (mkBigInt (sign x) d).

(** The library writes the digits of [result] ([GetRWDigits]). *)
Definition with_digits (result : BigInt) (f : digits -> res digits) : res BigInt :=
  d ← f (digits_of result); mret (mkBigInt (sign result) d).

(** The same for an operation of the processor. *)
Definition with_digitsP (result : BigInt) (f : digits -> PM (Status * digits)) : IM BigInt :=
  d ← run (f (digits_of result)); mret (mkBigInt (sign result) d).

Section bigint_object.
Context `{Config, Platform}.
Context {alloc : Allocator} {fft : FftMultiplier}.
Implicit Types x y result : BigInt.

Definition kMaxLengthBits : Z := Z.shiftl 1 30.
Definition kMaxLength : Z := kMaxLengthBits / kDigitBits.

(** [MutableBigInt::New]; the digits are not initialized. *)
Definition MutableBigInt_New (length : nat) : MaybeHandle BigInt :=
  if kMaxLength <? Z.of_nat length then inl kBigIntTooBig
  else inr (mkBigInt false (uninitialized length)).

(** [factory()->NewBigInt(length)] and [initialize_bitfield(sign, length)]. *)
Definition NewBigInt (sign : bool) (length : nat) : BigInt := mkBigInt sign (uninitialized length).

(** [MutableBigInt::Canonicalize]: trims leading zero digits; there is no [-0n]. *)
Definition Canonicalize (result : BigInt) : res BigInt :=
  let new_digits := Normalize (digits_of result) in
  let to_trim := (bi_length result - length new_digits)%nat in
  let result :=
    if bool_decide (to_trim <> 0)%nat then
      mkBigInt (if bool_decide (length new_digits = 0)%nat then false else sign result) new_digits
    else result in
  (if bool_decide (0 < bi_length result)%nat then
     d ← digit result (bi_length result - 1); dcheck (negb (d =? 0))
   else mret tt);;
  dcheck (negb (is_zero result) || negb (sign result));;
  mret result.

Definition MakeImmutable (result : BigInt) : res BigInt := Canonicalize result.

Definition BigInt_Zero : res BigInt :=
  result ← ToHandleChecked (MutableBigInt_New 0); MakeImmutable result.

Definition kMinInt : Z := - 2 ^ 31.
Definition kMaxInt : Z := 2 ^ 31 - 1.

Definition NewFromInt (value : Z) : res BigInt :=
  if value =? 0 then BigInt_Zero
  else
    let sign := value <? 0 in
    let result := NewBigInt sign 1 in
    result ←
      (if negb sign then set_digit result 0 value
       else if value =? kMinInt then set_digit result 0 (wrap (kMaxInt + 1))
       else set_digit result 0 (- value));
    MakeImmutable result.

(** [MutableBigInt::Copy]: the digits; the sign of a fresh object is positive. *)
Definition MutableBigInt_Copy (source : BigInt) : res BigInt :=
  result ← ToHandleChecked (MutableBigInt_New (bi_length source));
  mret (mkBigInt (sign result) (digits_of source)).

(** [InitializeDigits(length)]. *)
Definition InitializeDigits (x : BigInt) : BigInt := mkBigInt (sign x) (Clear (digits_of x)).

(** ** Absolute values plus and minus one *)

Definition AbsoluteAddOne (x : BigInt) (sign : bool) (result_storage : option BigInt) : IM BigInt :=
  let input_length := bi_length x in
  let will_overflow := forallb digit_ismax (digits_of x) in
  let result_length := (input_length + (if will_overflow then 1 else 0))%nat in
  result ←
    match result_storage with
    | None => ToHandle (MutableBigInt_New result_length)
    | Some result =>
        call (dcheck (bool_decide (bi_length result = result_length)));; mret result
    end;
  result ← call
    (if bool_decide (input_length = 0)%nat then set_digit result 0 1
     else if bool_decide (input_length = 1)%nat && negb will_overflow then
       d ← digit x 0; set_digit result 0 (wrap (d + 1))
     else
       with_digits result (fun Zd => AddOne Zd (digits_of x)));
  mret (set_sign result sign).

Definition AbsoluteSubOne (x : BigInt) : res BigInt :=
  dcheck (negb (is_zero x));;
  let length := bi_length x in
  result ← ToHandleChecked (MutableBigInt_New length);
  if bool_decide (length = 1)%nat then
    d ← digit x 0; set_digit result 0 (wrap (d - 1))
  else with_digits result (fun Zd => SubtractOne Zd (digits_of x)).

(** ** Unary operations *)

Definition BigInt_UnaryMinus (x : BigInt) : res BigInt :=
  if is_zero x then mret x
  else
    result ← MutableBigInt_Copy x;
    MakeImmutable (set_sign result (negb (sign x))).

Definition BigInt_BitwiseNot (x : BigInt) : IM BigInt :=
  result ← (if sign x then call (AbsoluteSubOne x) else AbsoluteAddOne x true None);
  call (MakeImmutable result).

Definition BigInt_Increment (x : BigInt) : IM BigInt :=
  if sign x then
    result ← call (AbsoluteSubOne x);
    call (MakeImmutable (set_sign result true))
  else
    result ← AbsoluteAddOne x false None;
    call (MakeImmutable result).

Definition BigInt_Decrement (x : BigInt) : IM BigInt :=
  if sign x then
    result ← AbsoluteAddOne x true None; call (MakeImmutable result)
  else if is_zero x then call (NewFromInt (-1))
  else
    result ← call (AbsoluteSubOne x); call (MakeImmutable result).

(** ** Arithmetic *)

Definition BigInt_Multiply (x y : BigInt) : IM BigInt :=
  if is_zero x then mret x
  else if is_zero y then mret y
  else
    let result_length := MultiplyResultLength (digits_of x) (digits_of y) in
    result ← ToHandle (MutableBigInt_New result_length);
    result ← with_digitsP result (fun Zd => Processor_Multiply Zd (digits_of x) (digits_of y));
    call (MakeImmutable (set_sign result (xorb (sign x) (sign y)))).

(** [y->length() == 1 && y->digit(0) == d]. *)
Definition is_single_digit (y : BigInt) (d : Z) : res bool :=
  if bool_decide (bi_length y = 1)%nat then y0 ← digit y 0; mret (y0 =? d) else mret false.

Definition BigInt_Divide (x y : BigInt) : IM BigInt :=
  if is_zero y then throw kBigIntDivZero
  else
    c ← call (Compare (digits_of x) (digits_of y));
    if c <? 0 then call BigInt_Zero
    else
      let result_sign := xorb (sign x) (sign y) in
      one ← call (is_single_digit y 1);
      if (one : bool) then
        if Bool.eqb result_sign (sign x) then mret x else call (BigInt_UnaryMinus x)
      else
        let result_length := Z.to_nat (DivideResultLength (digits_of x) (digits_of y)) in
        quotient ← ToHandle (MutableBigInt_New result_length);
        quotient ← with_digitsP quotient (fun Q => Processor_Divide Q (digits_of x) (digits_of y));
        call (MakeImmutable (set_sign quotient result_sign)).

Definition BigInt_Remainder (x y : BigInt) : IM BigInt :=
  if is_zero y then throw kBigIntDivZero
  else
    c ← call (Compare (digits_of x) (digits_of y));
    if c <? 0 then mret x
    else
      one ← call (is_single_digit y 1);
      if (one : bool) then call BigInt_Zero
      else
        let result_length := ModuloResultLength (digits_of y) in
        remainder ← ToHandle (MutableBigInt_New result_length);
        remainder ← with_digitsP remainder (fun R => Processor_Modulo R (digits_of x) (digits_of y));
        call (MakeImmutable (set_sign remainder (sign x))).

(** The library returns the sign together with the digits. *)
Definition with_signed (result : BigInt) (f : digits -> res (digits * bool)) : res BigInt :=
  '(d, result_sign) ← f (digits_of result); mret (mkBigInt result_sign d).

Definition BigInt_Add (x y : BigInt) : IM BigInt :=
  if is_zero x then mret y
  else if is_zero y then mret x
  else
    let xsign := sign x in
    let ysign := sign y in
    let result_length := AddSignedResultLength (bi_length x) (bi_length y) (Bool.eqb xsign ysign) in
    result ← ToHandle (MutableBigInt_New result_length);
    result ← call (with_signed result (fun Zd => AddSigned Zd (digits_of x) xsign (digits_of y) ysign));
    call (MakeImmutable result).

Definition BigInt_Subtract (x y : BigInt) : IM BigInt :=
  if is_zero y then mret x
  else if is_zero x then call (BigInt_UnaryMinus y)
  else
    let xsign := sign x in
    let ysign := sign y in
    let result_length := SubtractSignedResultLength (bi_length x) (bi_length y) (Bool.eqb xsign ysign) in
    result ← ToHandle (MutableBigInt_New result_length);
    result ← call (with_signed result (fun Zd => SubtractSigned Zd (digits_of x) xsign (digits_of y) ysign));
    call (MakeImmutable result).

(** ** Exponentiation *)

(** [for (; n != 0; n >>= 1)]; a null [result] is [None]. *)
Fixpoint exponentiate_loop (fuel : nat) (result : option BigInt) (running_square : BigInt) (n : Z)
    : IM (option BigInt) :=
  match fuel with
  | O => call (Err OutOfFuel)
  | S fuel =>
      if n =? 0 then mret result
      else
        running_square ← BigInt_Multiply running_square running_square;
        result ←
          (if Z.odd n then
             match result with
             | None => mret (Some running_square)
             | Some r => r ← BigInt_Multiply r running_square; mret (Some r)
             end
           else mret result);
        exponentiate_loop fuel result running_square (Z.shiftr n 1)
  end.

(** Fast path for a base of magnitude two. *)
Definition power_of_two (base : BigInt) (n : Z) : IM BigInt :=
  let needed_digits := Z.to_nat (1 + n / kDigitBits) in
  result ← ToHandle (MutableBigInt_New needed_digits);
  let result := InitializeDigits result in
  let msd := wrap (Z.shiftl 1 (n mod kDigitBits)) in
  result ← call (set_digit result (needed_digits - 1) msd);
  let result := if sign base then set_sign result (Z.odd n) else result in
  call (MakeImmutable result).

Definition BigInt_Exponentiate (base exponent : BigInt) : IM BigInt :=
  if sign exponent then throw kMustBePositive
  else if is_zero exponent then call (NewFromInt 1)
  else if is_zero base then mret base
  else
    one ← call (is_single_digit base 1);
    if (one : bool) then
      e0 ← call (digit exponent 0);
      if sign base && (Z.land e0 1 =? 0) then call (BigInt_UnaryMinus base) else mret base
    else if bool_decide (1 < bi_length exponent)%nat then throw kBigIntTooBig
    else
      exp_value ← call (digit exponent 0);
      if exp_value =? 1 then mret base
      else if kMaxLengthBits <=? exp_value then throw kBigIntTooBig
      else
        let n := exp_value in
        two ← call (is_single_digit base 2);
        if (two : bool) then power_of_two base n
        else
          let result := if Z.odd n then Some base else None in
          result ← exponentiate_loop 31 result base (Z.shiftr n 1);
          match result with
          | Some r => mret r
          | None => call (Err DCheckFailed)
          end.

(** ** Comparison *)

Inductive ComparisonResult : Type :=
  | kLessThan
  | kEqual
  | kGreaterThan
  | kUndefined.

Definition UnequalSign (left_negative : bool) : ComparisonResult :=
  if left_negative then kLessThan else kGreaterThan.
Definition AbsoluteGreater (both_negative : bool) : ComparisonResult :=
  if both_negative then kLessThan else kGreaterThan.
Definition AbsoluteLess (both_negative : bool) : ComparisonResult :=
  if both_negative then kGreaterThan else kLessThan.

Definition CompareToBigInt (x y : BigInt) : res ComparisonResult :=
  let x_sign := sign x in
  if xorb x_sign (sign y) then mret (UnequalSign x_sign)
  else
    result ← Compare (digits_of x) (digits_of y);
    mret (if 0 <? result then AbsoluteGreater x_sign
          else if result <? 0 then AbsoluteLess x_sign
          else kEqual).

(** [for (int i = 0; i < x.length(); i++) if (x.digit(i) != y.digit(i)) return false]. *)
Fixpoint equal_digits (n i : nat) (x y : BigInt) : res bool :=
  match n with
  | O => mret true
  | S n =>
      xd ← digit x i; yd ← digit y i;
      if negb (xd =? yd) then mret false else equal_digits n (S i) x y
  end.

Definition EqualToBigInt (x y : BigInt) : res bool :=
  if xorb (sign x) (sign y) then mret false
  else if bool_decide (bi_length x <> bi_length y) then mret false
  else equal_digits (bi_length x) 0 x y.

(** ** Bitwise operations *)

Definition BigInt_BitwiseAnd (x y : BigInt) : IM BigInt :=
  let x_sign := sign x in
  let y_sign := sign y in
  result ←
    (if negb x_sign && negb y_sign then
       result ← call (ToHandleChecked (MutableBigInt_New
         (BitwiseAnd_PosPos_ResultLength (bi_length x) (bi_length y))));
       result ← call (with_digits result (fun Zd => BitwiseAnd_PosPos Zd (digits_of x) (digits_of y)));
       call (dcheck (negb (sign result)));; mret result
     else if x_sign && y_sign then
       result ← ToHandle (MutableBigInt_New
         (BitwiseAnd_NegNeg_ResultLength (bi_length x) (bi_length y)));
       result ← call (with_digits result (fun Zd => BitwiseAnd_NegNeg Zd (digits_of x) (digits_of y)));
       mret (set_sign result true)
     else
       let '(x, y) := if x_sign then (y, x) else (x, y) in
       result ← call (ToHandleChecked (MutableBigInt_New (BitwiseAnd_PosNeg_ResultLength (bi_length x))));
       result ← call (with_digits result (fun Zd => BitwiseAnd_PosNeg Zd (digits_of x) (digits_of y)));
       call (dcheck (negb (sign result)));; mret result);
  call (MakeImmutable result).

Definition BigInt_BitwiseXor (x y : BigInt) : IM BigInt :=
  let x_sign := sign x in
  let y_sign := sign y in
  result ←
    (if negb x_sign && negb y_sign then
       result ← call (ToHandleChecked (MutableBigInt_New
         (BitwiseXor_PosPos_ResultLength (bi_length x) (bi_length y))));
       result ← call (with_digits result (fun Zd => BitwiseXor_PosPos Zd (digits_of x) (digits_of y)));
       call (dcheck (negb (sign result)));; mret result
     else if x_sign && y_sign then
       result ← call (ToHandleChecked (MutableBigInt_New
         (BitwiseXor_NegNeg_ResultLength (bi_length x) (bi_length y))));
       result ← call (with_digits result (fun Zd => BitwiseXor_NegNeg Zd (digits_of x) (digits_of y)));
       call (dcheck (negb (sign result)));; mret result
     else
       let '(x, y) := if x_sign then (y, x) else (x, y) in
       result ← ToHandle (MutableBigInt_New
         (BitwiseXor_PosNeg_ResultLength (bi_length x) (bi_length y)));
       result ← call (with_digits result (fun Zd => BitwiseXor_PosNeg Zd (digits_of x) (digits_of y)));
       mret (set_sign result true));
  call (MakeImmutable result).

Definition BigInt_BitwiseOr (x y : BigInt) : IM BigInt :=
  let x_sign := sign x in
  let y_sign := sign y in
  let result_length := BitwiseOrResultLength (bi_length x) (bi_length y) in
  result ← call (ToHandleChecked (MutableBigInt_New result_length));
  result ←
    (if negb x_sign && negb y_sign then
       result ← call (with_digits result (fun Zd => BitwiseOr_PosPos Zd (digits_of x) (digits_of y)));
       call (dcheck (negb (sign result)));; mret result
     else if x_sign && y_sign then
       result ← call (with_digits result (fun Zd => BitwiseOr_NegNeg Zd (digits_of x) (digits_of y)));
       mret (set_sign result true)
     else
       let '(x, y) := if x_sign then (y, x) else (x, y) in
       result ← call (with_digits result (fun Zd => BitwiseOr_PosNeg Zd (digits_of x) (digits_of y)));
       mret (set_sign result true));
  call (MakeImmutable result).

(** ** Shifts *)

Definition ToShiftAmount (x : BigInt) : res (option Z) :=
  if bool_decide (1 < bi_length x)%nat then mret None
  else
    value ← digit x 0;
    mret (if kMaxLengthBits <? value then None else Some value).

Definition LeftShiftByAbsolute (x y : BigInt) : IM BigInt :=
  maybe_shift ← call (ToShiftAmount y);
  match maybe_shift with
  | None => throw kBigIntTooBig
  | Some shift =>
      x_msd ← call (digit x (bi_length x - 1));
      let result_length := LeftShift_ResultLength (bi_length x) x_msd shift in
      if kMaxLength <? result_length then throw kBigIntTooBig
      else
        result ← ToHandle (MutableBigInt_New (Z.to_nat result_length));
        result ← call (with_digits result (fun Zd => BitwiseLeftShift Zd (digits_of x) shift));
        call (MakeImmutable (set_sign result (sign x)))
  end.

Definition RightShiftByMaximum (sign : bool) : res BigInt :=
  if sign then NewFromInt (-1) else BigInt_Zero.

Definition RightShiftByAbsolute (x y : BigInt) : res BigInt :=
  let x_sign := sign x in
  maybe_shift ← ToShiftAmount y;
  match maybe_shift with
  | None => RightShiftByMaximum x_sign
  | Some shift =>
      '(result_length, state) ← RightShift_ResultLength (digits_of x) x_sign shift;
      dcheck (bool_decide (result_length <= bi_length x)%nat);;
      if bool_decide (result_length = 0)%nat then RightShiftByMaximum x_sign
      else
        result ← ToHandleChecked (MutableBigInt_New result_length);
        result ← with_digits result (fun Zd => BitwiseRightShift Zd (digits_of x) shift state);
        MakeImmutable (if x_sign then set_sign result true else result)
  end.

Definition BigInt_LeftShift (x y : BigInt) : IM BigInt :=
  if is_zero y || is_zero x then mret x
  else if sign y then call (RightShiftByAbsolute x y)
  else LeftShiftByAbsolute x y.

Definition BigInt_SignedRightShift (x y : BigInt) : IM BigInt :=
  if is_zero y || is_zero x then mret x
  else if sign y then LeftShiftByAbsolute x y
  else call (RightShiftByAbsolute x y).

Definition BigInt_UnsignedRightShift (x y : BigInt) : IM BigInt := throw kBigIntShr.

(** ** Truncation *)

Definition BigInt_AsIntN (n : Z) (x : BigInt) : res BigInt :=
  if is_zero x || (kMaxLengthBits <? n) then mret x
  else if n =? 0 then BigInt_Zero
  else
    needed_length ← AsIntNResultLength (digits_of x) (sign x) n;
    if needed_length =? -1 then mret x
    else
      result ← ToHandleChecked (MutableBigInt_New (Z.to_nat needed_length));
      result ← with_signed result (fun Zd => AsIntN Zd (digits_of x) (sign x) n);
      MakeImmutable result.

Definition BigInt_AsUintN (n : Z) (x : BigInt) : IM BigInt :=
  if is_zero x then mret x
  else if n =? 0 then call BigInt_Zero
  else if sign x then
    if kMaxLengthBits <? n then throw kBigIntTooBig
    else
      let result_length := AsUintN_Neg_ResultLength n in
      result ← call (ToHandleChecked (MutableBigInt_New result_length));
      result ← call (with_digits result (fun Zd => AsUintN_Neg Zd (digits_of x) n));
      call (dcheck (negb (sign result)));;
      call (MakeImmutable result)
  else if kMaxLengthBits <=? n then mret x
  else
    result_length ← call (AsUintN_Pos_ResultLength (digits_of x) n);
    if result_length <? 0 then mret x
    else
      result ← call (ToHandleChecked (MutableBigInt_New (Z.to_nat result_length)));
      result ← call (with_digits result (fun Zd => AsUintN_Pos Zd (digits_of x) n));
      call (dcheck (negb (sign result)));;
      call (MakeImmutable result).
End bigint_object.
