(* ===== verification/BigIntSpec.v ===== *)
(** The contract of BigInt objects: which integer an object stands for, what makes it
    canonical, and what an operation of [src/objects/bigint.cc] promises; the lemmas about
    allocation, canonicalization and calls into the library that all operations share. *)

From Stdlib Require Import ZArith Lia.
From stdpp Require Import base tactics numbers list option.
From S2P Require Import Prelude Digit Digits VectorArithmetic Processor MulSchoolbook MulKaratsuba Multiply Division SignedArithmetic BigIntObject.

#[local] Open Scope Z_scope.

Section bigint_spec.
Context `{Config, Platform}.
Context {alloc : Allocator}.
Implicit Types x y z : BigInt.

(** The integer a BigInt represents. *)
Definition toZ (x : BigInt) : Z := signed_val (sign x) (val (digits_of x)).

(** A canonical object: what [Canonicalize] establishes and every operation relies on. *)
Record bigint_ok (x : BigInt) : Prop := {
  ok_digits : digits_ok (digits_of x);
  ok_normalized : normalized (digits_of x);
  ok_length : Z.of_nat (bi_length x) <= kMaxLength;
  ok_sign : digits_of x = [] -> sign x = false;
}.

(** The smallest magnitude that needs all [kMaxLength] digits. *)
Definition too_big (v : Z) : Prop := 2 ^ (kMaxLengthBits - kDigitBits) <= Z.abs v.

(** The outcome of an operation that computes [v]: a canonical object for [v]; the error
    [kBigIntTooBig] only if [big] holds; termination only if the embedder asked for it. *)
Definition computes (v : Z) (big : Prop) (r : MaybeHandle BigInt) (p' : ProcessorImpl) : Prop :=
  status_ p' = kOk /\
  match r with
  | inr z => bigint_ok z /\ toZ z = v
  | inl kBigIntTooBig => big
  | inl kTerminated => exists n, InterruptRequested n = true
  | inl _ => False
  end.

(** ** Symbolic execution *)

Lemma wpI_ret {A} (a : A) p (Q : MaybeHandle A -> ProcessorImpl -> Prop) :
  Q (inr a) p -> wpP (mret (M := IM) a) p Q.
Proof. done. Qed.

Lemma wpI_bind {A B} (m : IM A) (f : A -> IM B) p (Q : MaybeHandle B -> ProcessorImpl -> Prop) :
  wpP m p (fun r p' => match r with inr a => wpP (f a) p' Q | inl e => Q (inl e) p' end) ->
  wpP (m ≫= f) p Q.
Proof. unfold wpP, mbind, IM_bind. by destruct (m p) as [[[]]|]. Qed.

Lemma wpI_call {A B} (m : res A) (f : A -> IM B) p (Q : MaybeHandle B -> ProcessorImpl -> Prop) :
  wp m (fun a => wpP (f a) p Q) -> wpP (call m ≫= f) p Q.
Proof. intros Hm. apply wpI_bind. unfold wpP, call. by destruct m. Qed.

Lemma wpI_call_ret {A} (m : res A) p (Q : MaybeHandle A -> ProcessorImpl -> Prop) :
  wp m (fun a => Q (inr a) p) -> wpP (call m) p Q.
Proof. unfold wpP, call. by destruct m. Qed.

Lemma wp_with_digits x f (Q : BigInt -> Prop) :
  wp (f (digits_of x)) (fun d => Q (mkBigInt (sign x) d)) -> wp (with_digits x f) Q.
Proof. intros Hf. by apply wp_bind. Qed.

Lemma wp_with_signed x f (Q : BigInt -> Prop) :
  wp (f (digits_of x)) (fun '(d, s) => Q (mkBigInt s d)) -> wp (with_signed x f) Q.
Proof. intros Hf. apply wp_bind. eapply wp_mono; [exact Hf|]. by intros [d s] HQ. Qed.

(** ** Allocation *)

Lemma wpI_New {B} n (f : BigInt -> IM B) p (Q : MaybeHandle B -> ProcessorImpl -> Prop) :
  (Z.of_nat n <= kMaxLength -> forall d, length d = n -> digits_ok d -> wpP (f (mkBigInt false d)) p Q) ->
  (kMaxLength < Z.of_nat n -> Q (inl kBigIntTooBig) p) ->
  wpP (ToHandle (MutableBigInt_New n) ≫= f) p Q.
Proof.
  intros Hn Hbig. apply wpI_bind. unfold MutableBigInt_New, ToHandle, wpP.
  destruct (Z.ltb_spec kMaxLength (Z.of_nat n)); apply wp_Ok; [by apply Hbig|].
  apply Hn; [done | apply length_uninitialized | apply uninitialized_ok].
Qed.

Lemma wp_New n (Q : BigInt -> Prop) :
  Z.of_nat n <= kMaxLength -> (forall d, length d = n -> digits_ok d -> Q (mkBigInt false d)) ->
  wp (ToHandleChecked (MutableBigInt_New n)) Q.
Proof.
  intros Hn HQ. unfold MutableBigInt_New. destruct (Z.ltb_spec kMaxLength (Z.of_nat n)); [lia|].
  apply HQ; [apply length_uninitialized | apply uninitialized_ok].
Qed.

Lemma kMaxLength_bits : kMaxLength * kDigitBits = kMaxLengthBits /\ 2 ^ 24 <= kMaxLength <= 2 ^ 25.
Proof.
  unfold kMaxLength, kMaxLengthBits, kDigitBits. destruct kLog2DigitBits_cases as [-> | ->]; vm_compute; split_and!; congruence.
Qed.

(** ** Canonical objects *)

Lemma toZ_abs x : bigint_ok x -> Z.abs (toZ x) = val (digits_of x).
Proof. intros [HX _ _ _]. pose proof (val_nonneg _ HX). unfold toZ, signed_val. destruct (sign x); lia. Qed.

Lemma ok_zero x : bigint_ok x -> is_zero x = bool_decide (toZ x = 0).
Proof.
  intros Hx. pose proof (toZ_abs x Hx) as Ha. destruct Hx as [HX NX _ _].
  unfold is_zero, bi_length. apply bool_decide_ext. split.
  - destruct (digits_of x); [cbn in *; lia | done].
  - intros E. destruct (decide (digits_of x = [])) as [-> | Hne]; [done|].
    pose proof (val_pos_of_normalized _ HX NX Hne). lia.
Qed.

(** Equal integers have equal representations. *)
Lemma toZ_inj x y : bigint_ok x -> bigint_ok y -> toZ x = toZ y -> x = y.
Proof.
  intros Hx Hy E. pose proof (toZ_abs x Hx) as Ax. pose proof (toZ_abs y Hy) as Ay.
  destruct x as [sx dx], y as [sy dy]. destruct Hx as [HX NX _ Sx], Hy as [HY NY _ Sy].
  unfold toZ, signed_val in *. cbn [sign digits_of] in *.
  assert (dx = dy) as ->.
  { apply val_inj; try done; [|congruence].
    apply Nat.le_antisymm; apply normalized_length_le; (done || lia). }
  f_equal. destruct (decide (dy = [])) as [-> | Hne]; [by rewrite Sx, Sy|].
  pose proof (val_pos_of_normalized _ HY NY Hne). destruct sx, sy; (done || lia).
Qed.

Lemma Canonicalize_spec s d :
  digits_ok d -> Z.of_nat (length d) <= kMaxLength -> (d = [] -> s = false) ->
  wp (Canonicalize (mkBigInt s d)) (fun z => bigint_ok z /\ toZ z = signed_val s (val d)).
Proof.
  intros Hd Hl Hs. unfold Canonicalize, bi_length. cbn [digits_of sign].
  pose proof (length_Normalize d) as HlN. pose proof (normalized_Normalize d) as NN.
  pose proof (val_Normalize d) as VN. apply digits_ok_Normalize in Hd as HdN.
  set (z := if bool_decide _ then _ else _).
  assert (bigint_ok z /\ toZ z = signed_val s (val d)) as [Hz Ez].
  { unfold z. case_bool_decide as Ht.
    - assert (Normalize d = [] -> val d = 0) as Hzero by (rewrite <- VN; by intros ->).
      split; [split; unfold bi_length; cbn [digits_of sign]; try done; [lia|]|].
      + intros E. by rewrite E.
      + unfold toZ, signed_val. cbn [digits_of sign]. rewrite VN. case_bool_decide as E; [|done].
        apply nil_length_inv in E. rewrite (Hzero E). by destruct s.
    - assert (Normalize d = d) as EN.
      { apply val_inj; [done | done | lia | done]. }
      rewrite EN in NN. by split. }
  apply wp_bind. apply (wp_mono _ (fun _ => True)).
  { case_bool_decide as Hl0; [|done]. unfold digit, bi_length in *. destruct Hz as [HX NX _ _].
    apply wp_bind, wp_rd; [lia | done|]. intros t Ht _. apply wp_dcheck; [|done].
    apply negb_true_iff, Z.eqb_neq. intros ->. apply NX. rewrite last_lookup.
    by replace (Nat.pred (length (digits_of z))) with (length (digits_of z) - 1)%nat by lia. }
  intros _ _. apply wp_bind, wp_dcheck; [|by apply wp_ret].
  unfold is_zero, bi_length. case_bool_decide as E; [|done]. cbn.
  apply nil_length_inv in E. by rewrite (ok_sign z Hz E).
Qed.

Lemma wpI_finish s d p v big :
  status_ p = kOk -> digits_ok d -> Z.of_nat (length d) <= kMaxLength -> (d = [] -> s = false) ->
  signed_val s (val d) = v -> wpP (call (MakeImmutable (mkBigInt s d))) p (computes v big).
Proof.
  intros Hp Hd Hl Hs <-. apply wpI_call_ret. eapply wp_mono; [by apply Canonicalize_spec|].
  by intros z Hz.
Qed.
End bigint_spec.
