(* ===== verification/BigIntArith.v ===== *)
(** BigInt arithmetic: every operation of [src/objects/bigint.cc] on canonical objects
    computes the corresponding operation on integers. *)

From Stdlib Require Import ZArith Lia.
From stdpp Require Import base tactics numbers list option.
From S2P Require Import Prelude Digit Digits VectorArithmetic Processor MulSchoolbook MulKaratsuba Multiply DivBarrett Division SignedArithmetic BitwiseShift BigIntObject BigIntSpec.

#[local] Open Scope Z_scope.

Section bigint_arith.
Context `{Config, Platform}.
Context {alloc : Allocator} {fft : FftMultiplier}.
Implicit Types x y z : BigInt.

(** ** Magnitudes and lengths *)

Lemma ok_nonempty x : bigint_ok x -> is_zero x = false -> digits_of x <> [] /\ toZ x <> 0.
Proof.
  intros Hx Hz. rewrite (ok_zero x Hx) in Hz. apply bool_decide_eq_false in Hz. split; [|done].
  intros E. apply Hz. unfold toZ. rewrite E. by destruct (sign x).
Qed.

Lemma ok_is_zero x : bigint_ok x -> is_zero x = true -> toZ x = 0.
Proof. intros Hx. rewrite (ok_zero x Hx). apply bool_decide_eq_true. Qed.

(** The magnitude of an object that has at least [n] digits. *)
Lemma ok_lower x n :
  bigint_ok x -> (n < bi_length x)%nat -> bpow n <= Z.abs (toZ x).
Proof.
  intros Hx Hn. rewrite (toZ_abs x Hx). destruct Hx as [HX NX _ _]. unfold bi_length in Hn.
  assert (digits_of x <> []) as Hne by (by intros E; rewrite E in Hn; simpl in Hn; lia).
  etransitivity; [|by apply normalized_lower]. apply bpow_le. lia.
Qed.

Lemma ok_upper x n : bigint_ok x -> (bi_length x <= n)%nat -> Z.abs (toZ x) < bpow n.
Proof.
  intros Hx Hn. rewrite (toZ_abs x Hx). destruct Hx as [HX _ _ _]. unfold bi_length in Hn.
  pose proof (val_bounds _ HX). pose proof (bpow_le _ _ Hn). lia.
Qed.

Lemma too_big_bpow v : bpow (Z.to_nat (kMaxLength - 1)) <= Z.abs v -> too_big v.
Proof.
  unfold too_big. destruct kMaxLength_bits as [E Hb]. rewrite bpow_bits, <- E.
  replace (kDigitBits * Z.of_nat (Z.to_nat (kMaxLength - 1))) with (kMaxLength * kDigitBits - kDigitBits); [done|].
  rewrite Z2Nat.id by lia. ring.
Qed.

Lemma full_length_too_big x : bigint_ok x -> kMaxLength <= Z.of_nat (bi_length x) -> too_big (toZ x).
Proof.
  intros Hx Hl. apply too_big_bpow, ok_lower; [done|]. destruct kMaxLength_bits. lia.
Qed.

Lemma too_big_mono v w : too_big v -> Z.abs v <= Z.abs w -> too_big w.
Proof. unfold too_big. lia. Qed.

(** Every object is below [2 ^ kMaxLengthBits]. *)
Lemma ok_max x : bigint_ok x -> Z.abs (toZ x) < 2 ^ kMaxLengthBits.
Proof.
  intros Hx. destruct kMaxLength_bits as [<- Hb].
  pose proof (ok_upper x (Z.to_nat kMaxLength) Hx) as Hu. rewrite bpow_bits, Z2Nat.id, Z.mul_comm in Hu by lia.
  apply Hu. pose proof (ok_length x Hx). lia.
Qed.

(** ** Constants and negation *)

Lemma wp_BigInt_Zero (Q : BigInt -> Prop) :
  (forall z, bigint_ok z -> toZ z = 0 -> Q z) -> wp BigInt_Zero Q.
Proof.
  intros HQ. destruct kMaxLength_bits as [_ Hb]. unfold BigInt_Zero. apply wp_bind, wp_New; [lia|].
  intros d Hl Hd. eapply wp_mono; [apply Canonicalize_spec; [done | lia | done]|].
  intros z [Hz Ez]. apply HQ; [done|]. rewrite Ez. by apply nil_length_inv in Hl as ->.
Qed.

Lemma wp_NewFromInt value (Q : BigInt -> Prop) :
  - 2 ^ 31 <= value < 2 ^ 31 -> (forall z, bigint_ok z -> toZ z = value -> Q z) -> wp (NewFromInt value) Q.
Proof.
  intros Hv HQ. unfold NewFromInt. destruct (Z.eqb_spec value 0) as [-> | Hv0]; [by apply wp_BigInt_Zero|].
  destruct kMaxLength_bits as [_ Hb].
  assert (2 ^ 32 <= digit_base) as Hbase by (unfold digit_base; destruct kDigitBits_cases as [-> | ->]; by vm_compute).
  assert (exists u, uninitialized 1 = [u]) as [u Hu].
  { pose proof (length_uninitialized 1). destruct (uninitialized 1) as [|u []]; try done. by exists u. }
  assert (forall s d, is_digit d -> signed_val s d = value ->
    wp (result ← set_digit (NewBigInt s 1) 0 d; MakeImmutable result) Q) as Hset.
  { intros s d Hd E. unfold set_digit, NewBigInt. cbn [digits_of sign]. rewrite Hu.
    apply wp_bind, wp_bind, wp_wr; [simpl; lia|]. apply wp_ret. cbn [insert list_insert].
    eapply wp_mono; [apply Canonicalize_spec; [by constructor | simpl; lia | done]|].
    intros z [Hz Ez]. apply HQ; [done|]. rewrite Ez. cbn [val]. rewrite Z.mul_0_r, Z.add_0_r. done. }
  unfold kMinInt, kMaxInt. destruct (Z.ltb_spec value 0) as [Hneg | Hpos]; cbn [negb].
  - destruct (Z.eqb_spec value (- 2 ^ 31)) as [-> | ?].
    + apply Hset; [apply wrap_digit|]. rewrite wrap_small by (unfold is_digit; lia). cbn [signed_val]. lia.
    + apply Hset; [unfold is_digit; lia | cbn [signed_val]; lia].
  - apply Hset; [unfold is_digit; lia | done].
Qed.

Lemma wp_UnaryMinus x (Q : BigInt -> Prop) :
  bigint_ok x -> (forall z, bigint_ok z -> toZ z = - toZ x -> Q z) -> wp (BigInt_UnaryMinus x) Q.
Proof.
  intros Hx HQ. unfold BigInt_UnaryMinus. destruct (is_zero x) eqn:Ez.
  { apply wp_ret, HQ; [done|]. rewrite (ok_is_zero x Hx Ez). done. }
  destruct (ok_nonempty x Hx Ez) as [Hne _]. pose proof Hx as [HX NX Hl _].
  unfold MutableBigInt_Copy. apply wp_bind, wp_bind, wp_New; [done|]. intros d _ _. apply wp_ret.
  eapply wp_mono; [apply Canonicalize_spec; [done | done | done]|].
  intros z [Hz E]. apply HQ; [done|]. rewrite E. unfold toZ, signed_val. cbn [digits_of]. destruct (sign x); cbn [negb]; lia.
Qed.

Lemma digits_ok_single d : is_digit d -> digits_ok [d].
Proof. by constructor. Qed.

(** ** Absolute values plus and minus one *)

Lemma all_max_val X : digits_ok X -> forallb digit_ismax X = true -> val X = bpow (length X) - 1.
Proof.
  induction X as [|d X IH]; cbn [forallb val length]; intros HX Hm; [done|].
  apply Forall_cons_1 in HX as [Hd HX]. apply andb_true_iff in Hm as [Hd1 Hm].
  rewrite digit_ismax_spec in Hd1 by done. apply Z.eqb_eq in Hd1. rewrite IH, bpow_S by done. lia.
Qed.

Lemma not_all_max_val X : digits_ok X -> forallb digit_ismax X = false -> val X + 1 < bpow (length X).
Proof.
  induction X as [|d X IH]; cbn [forallb val length]; intros HX Hm; [done|].
  apply Forall_cons_1 in HX as [Hd HX]. rewrite digit_ismax_spec in Hm by done. rewrite bpow_S.
  pose proof (val_bounds X HX) as Hv. pose proof digit_base_ge. unfold is_digit in Hd.
  destruct (Z.eqb_spec d (digit_base - 1)) as [-> | Hd1]; cbn [andb] in Hm; [|nia].
  pose proof (IH HX Hm). nia.
Qed.

(** The result of [AbsoluteAddOne], before it is canonicalized. *)
Lemma wpI_AbsoluteAddOne {B} x s (f : BigInt -> IM B) p (Q : MaybeHandle B -> ProcessorImpl -> Prop) :
  bigint_ok x ->
  (forall d, digits_ok d -> Z.of_nat (length d) <= kMaxLength -> d <> [] ->
     val d = Z.abs (toZ x) + 1 -> wpP (f (mkBigInt s d)) p Q) ->
  (too_big (toZ x) -> Q (inl kBigIntTooBig) p) ->
  wpP (AbsoluteAddOne x s None ≫= f) p Q.
Proof.
  intros Hx Hf Hbig. rewrite (toZ_abs x Hx) in Hf. pose proof Hx as [HX NX Hl Hs].
  apply wpI_bind. unfold AbsoluteAddOne. set (ov := forallb digit_ismax (digits_of x)).
  set (n := (bi_length x + (if ov then 1 else 0))%nat).
  assert (val (digits_of x) + 1 < bpow n) as Hfit.
  { unfold n. destruct ov eqn:Eov.
    - rewrite Nat.add_1_r, bpow_S. pose proof (val_bounds _ HX) as Hv. unfold bi_length.
      pose proof digit_base_ge. pose proof (bpow_pos (length (digits_of x))). nia.
    - rewrite Nat.add_0_r. by apply not_all_max_val. }
  assert (length (digits_of x) <= n)%nat as HlX by (unfold n, bi_length; lia).
  assert (digits_of x = [] -> n = 1%nat) as Hempty.
  { intros E. unfold n, ov, bi_length. by rewrite E. }
  apply wpI_New.
  2: { intros Hn. apply Hbig, full_length_too_big; [done|]. unfold n in Hn. destruct ov; lia. }
  intros Hn d Hd Hdok. apply wpI_call.
  assert (forall P, (forall d', digits_ok d' -> length d' = n -> val d' = val (digits_of x) + 1 -> P (mkBigInt false d')) ->
    wp (if bool_decide (bi_length x = 0)%nat then set_digit (mkBigInt false d) 0 1
        else if bool_decide (bi_length x = 1)%nat && negb ov then
          d0 ← digit x 0; set_digit (mkBigInt false d) 0 (wrap (d0 + 1))
        else with_digits (mkBigInt false d) (fun Zd => AddOne Zd (digits_of x))) P) as Hcore.
  { intros P HP. unfold set_digit, digit, bi_length. cbn [digits_of sign]. pose proof digit_base_ge.
    case_bool_decide as E0.
    { apply nil_length_inv in E0. rewrite E0 in *. rewrite (Hempty eq_refl) in *.
      destruct d as [|d0 []]; try done. apply wp_bind, wp_wr; [simpl; lia|]. apply wp_ret. cbn [insert list_insert].
      apply HP; [apply digits_ok_single; unfold is_digit; lia | done | cbn [val]; lia]. }
    case_bool_decide as E1; [destruct ov eqn:Eov; cbn [andb negb]|].
    2: { destruct (digits_of x) as [|x0 []] eqn:Ex; try done. unfold n, bi_length in *. rewrite Ex in *.
      destruct d as [|d0 []]; try done. apply wp_bind. cbn. apply wp_bind, wp_wr; [simpl; lia|].
      apply wp_ret. cbn [insert list_insert]. cbn in Hfit. rewrite Z.mul_0_r, Z.add_0_r, ?Z.mul_1_r, bpow_1 in Hfit.
      apply Forall_inv in HX as Hx0. unfold is_digit in Hx0.
      rewrite wrap_small by (unfold is_digit; lia). apply HP; [|done | cbn; lia].
      apply digits_ok_single. unfold is_digit. lia. }
    all: apply wp_with_digits; cbn [digits_of]; eapply wp_mono;
      [apply AddOne_spec; [done | lia | by rewrite Hd] |];
      intros d' (Hl' & Hd' & E'); apply HP; [done | by rewrite Hl' | done]. }
  apply Hcore. intros d' Hd' Hl' E'. apply wpI_ret. apply (Hf d'); [done | by rewrite Hl' | | done].
  intros ->. pose proof (val_nonneg _ HX). cbn in E'. lia.
Qed.

Lemma wp_AbsoluteSubOne x (Q : BigInt -> Prop) :
  bigint_ok x -> is_zero x = false ->
  (forall d, digits_ok d -> Z.of_nat (length d) <= kMaxLength -> d <> [] ->
     val d = Z.abs (toZ x) - 1 -> Q (mkBigInt false d)) ->
  wp (AbsoluteSubOne x) Q.
Proof.
  intros Hx Hz HQ. rewrite (toZ_abs x Hx) in HQ. destruct (ok_nonempty x Hx Hz) as [Hne _].
  pose proof Hx as [HX NX Hl _]. pose proof (val_pos_of_normalized _ HX NX Hne) as Hpos.
  unfold AbsoluteSubOne. rewrite Hz. apply wp_bind, wp_dcheck; [done|].
  apply wp_bind, wp_New; [done|]. intros d Hld Hd. unfold bi_length in *.
  case_bool_decide as E1.
  - destruct (digits_of x) as [|x0 []] eqn:Ex; try done. destruct d as [|d0 []]; try done.
    unfold digit. rewrite Ex. apply wp_bind. cbn. apply wp_bind, wp_wr; [simpl; lia|]. apply wp_ret.
    cbn [insert list_insert]. apply Forall_inv in HX as Hx0. unfold is_digit in Hx0.
    cbn [val] in *. rewrite Z.mul_0_r, Z.add_0_r in *. rewrite wrap_small by (unfold is_digit; lia).
    apply HQ; [apply digits_ok_single; unfold is_digit; lia | done | done | cbn; lia].
  - apply wp_with_digits. cbn [digits_of]. eapply wp_mono; [apply SubtractOne_spec; (done || lia)|].
    intros d' (Hl' & Hd' & E'). apply HQ; [done | lia | | done].
    intros ->. cbn in Hl'. destruct (digits_of x); simpl in *; [done | lia].
Qed.

Lemma computes_ret z v big p : status_ p = kOk -> bigint_ok z -> toZ z = v -> computes v big (inr z) p.
Proof. by split. Qed.

Lemma BigInt_Increment_spec x p :
  bigint_ok x -> status_ p = kOk -> wpP (BigInt_Increment x) p (computes (toZ x + 1) (too_big (toZ x + 1))).
Proof.
  intros Hx Hp. pose proof (toZ_abs x Hx) as Ha. pose proof (val_nonneg _ (ok_digits x Hx)) as Hv.
  unfold BigInt_Increment. destruct (sign x) eqn:Es.
  - assert (toZ x = - val (digits_of x)) as Ex by (unfold toZ; rewrite Es; done).
    apply wpI_call, wp_AbsoluteSubOne; [done | |].
    { destruct (is_zero x) eqn:Ez; [|done]. unfold is_zero, bi_length in Ez. apply bool_decide_eq_true in Ez.
      apply nil_length_inv in Ez. rewrite (ok_sign x Hx Ez) in Es. done. }
    intros d Hd Hl Hne E. unfold set_sign; cbn [digits_of]; apply wpI_finish; try done; cbn [signed_val]; lia.
  - assert (toZ x = val (digits_of x)) as Ex by (unfold toZ; rewrite Es; done).
    apply wpI_AbsoluteAddOne; [done | |].
    + intros d Hd Hl Hne E. unfold set_sign; cbn [digits_of]; apply wpI_finish; try done; cbn [signed_val]; lia.
    + intros Hb. split; [done|]. eapply too_big_mono; [exact Hb | lia].
Qed.

Lemma BigInt_Decrement_spec x p :
  bigint_ok x -> status_ p = kOk -> wpP (BigInt_Decrement x) p (computes (toZ x - 1) (too_big (toZ x - 1))).
Proof.
  intros Hx Hp. pose proof (toZ_abs x Hx) as Ha. pose proof (val_nonneg _ (ok_digits x Hx)) as Hv.
  unfold BigInt_Decrement. destruct (sign x) eqn:Es.
  - assert (toZ x = - val (digits_of x)) as Ex by (unfold toZ; rewrite Es; done).
    apply wpI_AbsoluteAddOne; [done | |].
    + intros d Hd Hl Hne E. unfold set_sign; cbn [digits_of]; apply wpI_finish; try done; cbn [signed_val]; lia.
    + intros Hb. split; [done|]. eapply too_big_mono; [exact Hb | lia].
  - assert (toZ x = val (digits_of x)) as Ex by (unfold toZ; rewrite Es; done).
    destruct (is_zero x) eqn:Ez.
    + apply wpI_call_ret, wp_NewFromInt; [lia|]. intros z Hz E. apply computes_ret; [done | done|].
      rewrite E, (ok_is_zero x Hx Ez). done.
    + apply wpI_call, wp_AbsoluteSubOne; [done | done |].
      intros d Hd Hl Hne E. unfold set_sign; cbn [digits_of]; apply wpI_finish; try done; cbn [signed_val]; lia.
Qed.

Lemma BigInt_BitwiseNot_spec x p :
  bigint_ok x -> status_ p = kOk -> wpP (BigInt_BitwiseNot x) p (computes (Z.lnot (toZ x)) (too_big (Z.lnot (toZ x)))).
Proof.
  intros Hx Hp. pose proof (toZ_abs x Hx) as Ha. pose proof (val_nonneg _ (ok_digits x Hx)) as Hv.
  replace (Z.lnot (toZ x)) with (- toZ x - 1) by (unfold Z.lnot; lia).
  unfold BigInt_BitwiseNot. destruct (sign x) eqn:Es.
  - assert (toZ x = - val (digits_of x)) as Ex by (unfold toZ; rewrite Es; done).
    apply wpI_call, wp_AbsoluteSubOne; [done | |].
    { destruct (is_zero x) eqn:Ez; [|done]. unfold is_zero, bi_length in Ez. apply bool_decide_eq_true in Ez.
      apply nil_length_inv in Ez. rewrite (ok_sign x Hx Ez) in Es. done. }
    intros d Hd Hl Hne E. unfold set_sign; cbn [digits_of]; apply wpI_finish; try done; cbn [signed_val]; lia.
  - assert (toZ x = val (digits_of x)) as Ex by (unfold toZ; rewrite Es; done).
    apply wpI_AbsoluteAddOne; [done | |].
    + intros d Hd Hl Hne E. unfold set_sign; cbn [digits_of]; apply wpI_finish; try done; cbn [signed_val]; lia.
    + intros Hb. split; [done|]. eapply too_big_mono; [exact Hb | lia].
Qed.

(** ** Sums *)

Lemma sum_lengths_nonempty n m b : (0 < n)%nat -> (0 < AddSignedResultLength n m b)%nat.
Proof. unfold AddSignedResultLength, AddResultLength. destruct b; lia. Qed.

Lemma length_nonempty x : digits_of x <> [] -> (0 < bi_length x)%nat.
Proof. unfold bi_length. destruct (digits_of x); [done | simpl; lia]. Qed.

(** A result buffer above the limit: one of the operands has the full length, and the
    magnitudes are added. *)
Lemma sum_too_big x y b :
  bigint_ok x -> bigint_ok y ->
  kMaxLength < Z.of_nat (AddSignedResultLength (bi_length x) (bi_length y) b) ->
  b = true /\ too_big (Z.abs (toZ x) + Z.abs (toZ y)).
Proof.
  intros Hx Hy Hl. pose proof (ok_length x Hx). pose proof (ok_length y Hy).
  unfold AddSignedResultLength, AddResultLength in Hl. destruct b; [|lia]. split; [done|].
  destruct (Z.le_gt_cases kMaxLength (Z.of_nat (bi_length x))).
  - eapply too_big_mono; [by apply (full_length_too_big x)|]. lia.
  - eapply too_big_mono; [apply (full_length_too_big y); [done | lia]|]. lia.
Qed.

Lemma sign_toZ x : bigint_ok x -> toZ x <> 0 -> sign x = (toZ x <? 0).
Proof.
  intros Hx Hne. pose proof (val_nonneg _ (ok_digits x Hx)). unfold toZ, signed_val in *.
  destruct (sign x); symmetry; [apply Z.ltb_lt | apply Z.ltb_ge]; lia.
Qed.

Lemma BigInt_Add_spec x y p :
  bigint_ok x -> bigint_ok y -> status_ p = kOk ->
  wpP (BigInt_Add x y) p (computes (toZ x + toZ y) (too_big (toZ x + toZ y))).
Proof.
  intros Hx Hy Hp. unfold BigInt_Add.
  destruct (is_zero x) eqn:Zx; [apply wpI_ret, computes_ret; [done | done | rewrite (ok_is_zero x Hx Zx); lia]|].
  destruct (is_zero y) eqn:Zy; [apply wpI_ret, computes_ret; [done | done | rewrite (ok_is_zero y Hy Zy); lia]|].
  destruct (ok_nonempty x Hx Zx) as [Nx Vx], (ok_nonempty y Hy Zy) as [Ny Vy].
  apply wpI_New.
  - intros Hl d Hld Hd. apply wpI_call, wp_with_signed. cbn [digits_of].
    eapply wp_mono; [apply AddSigned_result; [apply Hx | apply Hy | done]|].
    intros [d' s] (Hl' & Hd' & E). apply wpI_finish; [done | done | by rewrite Hl', Hld | | done].
    intros ->. rewrite Hld in Hl'. pose proof (length_nonempty x Nx) as Hpx.
    pose proof (sum_lengths_nonempty (bi_length x) (bi_length y) (Bool.eqb (sign x) (sign y)) Hpx). by simpl in Hl'; lia.
  - intros Hl. split; [done|]. destruct (sum_too_big x y _ Hx Hy Hl) as [Es Hb]. apply eqb_prop in Es.
    rewrite (sign_toZ x Hx Vx), (sign_toZ y Hy Vy) in Es. eapply too_big_mono; [exact Hb|].
    destruct (Z.ltb_spec (toZ x) 0), (Z.ltb_spec (toZ y) 0); (congruence || lia).
Qed.

Lemma BigInt_Subtract_spec x y p :
  bigint_ok x -> bigint_ok y -> status_ p = kOk ->
  wpP (BigInt_Subtract x y) p (computes (toZ x - toZ y) (too_big (toZ x - toZ y))).
Proof.
  intros Hx Hy Hp. unfold BigInt_Subtract.
  destruct (is_zero y) eqn:Zy; [apply wpI_ret, computes_ret; [done | done | rewrite (ok_is_zero y Hy Zy); lia]|].
  destruct (is_zero x) eqn:Zx.
  { apply wpI_call_ret, wp_UnaryMinus; [done|]. intros z Hz E. apply computes_ret; [done | done|].
    rewrite E, (ok_is_zero x Hx Zx). lia. }
  destruct (ok_nonempty x Hx Zx) as [Nx Vx], (ok_nonempty y Hy Zy) as [Ny Vy].
  assert (SubtractSignedResultLength (bi_length x) (bi_length y) (Bool.eqb (sign x) (sign y)) =
    AddSignedResultLength (bi_length x) (bi_length y) (negb (Bool.eqb (sign x) (sign y)))) as El.
  { unfold SubtractSignedResultLength, AddSignedResultLength. by destruct (Bool.eqb _ _). }
  apply wpI_New.
  - intros Hl d Hld Hd. apply wpI_call, wp_with_signed. cbn [digits_of].
    eapply wp_mono; [apply SubtractSigned_result; [apply Hx | apply Hy | done]|].
    intros [d' s] (Hl' & Hd' & E). apply wpI_finish; [done | done | by rewrite Hl', Hld | | done].
    intros ->. rewrite Hld, El in Hl'. pose proof (length_nonempty x Nx) as Hpx.
    pose proof (sum_lengths_nonempty (bi_length x) (bi_length y) (negb (Bool.eqb (sign x) (sign y))) Hpx). by simpl in Hl'; lia.
  - intros Hl. rewrite El in Hl. split; [done|]. destruct (sum_too_big x y _ Hx Hy Hl) as [Es Hb].
    apply negb_true_iff, eqb_false_iff in Es.
    rewrite (sign_toZ x Hx Vx), (sign_toZ y Hy Vy) in Es. eapply too_big_mono; [exact Hb|].
    destruct (Z.ltb_spec (toZ x) 0), (Z.ltb_spec (toZ y) 0); (congruence || lia).
Qed.

(** ** Products and quotients *)

(** A processor operation with its status: what it computed counts unless the embedder
    asked for an interrupt. *)
Lemma wpI_run {B} x (m : digits -> PM digits) (f : BigInt -> IM B) p
    (Q : MaybeHandle B -> ProcessorImpl -> Prop) (P V : digits -> Prop) :
  status_ p = kOk ->
  wpP (m (digits_of x)) p (fun d p' => status_le p p' /\ P d /\ (status_ p' = kOk -> V d)) ->
  (forall d p', status_ p' = kOk -> P d -> V d -> wpP (f (mkBigInt (sign x) d)) p' Q) ->
  (forall p', status_ p' = kOk -> (exists n, InterruptRequested n = true) -> Q (inl kTerminated) p') ->
  wpP (with_digitsP x (fun Zd => Zd ← m Zd; s ← get_and_clear_status; mret (s, Zd)) ≫= f) p Q.
Proof.
  intros Hp Hm Hf Ht. apply wpI_bind, wpI_bind. apply wpP_elim in Hm as (d & p' & Em & Hle & HP & HV).
  unfold run, wpP, mbind, PM_bind, get_and_clear_status. rewrite Em. cbn.
  destruct (status_ p') eqn:Es; cbn.
  - apply Hf; [done | done | auto].
  - apply Ht; [done|]. destruct Hle as [_ [[E | (n & _ & Hn)] _]]; [done | congruence | by exists n].
Qed.

Lemma mul_too_big x y :
  bigint_ok x -> bigint_ok y -> toZ x <> 0 -> toZ y <> 0 ->
  kMaxLength < Z.of_nat (bi_length x + bi_length y) -> too_big (toZ x * toZ y).
Proof.
  intros Hx Hy Vx Vy Hl. destruct kMaxLength_bits as [_ Hb]. apply too_big_bpow. rewrite Z.abs_mul.
  assert (forall z, bigint_ok z -> toZ z <> 0 -> (0 < bi_length z)%nat) as Hpos.
  { intros z Hz Vz. apply length_nonempty. intros E. apply Vz. unfold toZ. rewrite E. by destruct (sign z). }
  pose proof (Hpos x Hx Vx). pose proof (Hpos y Hy Vy).
  pose proof (ok_lower x (bi_length x - 1) Hx ltac:(lia)) as Lx.
  pose proof (ok_lower y (bi_length y - 1) Hy ltac:(lia)) as Ly.
  apply Z.le_trans with (bpow (bi_length x - 1) * bpow (bi_length y - 1)).
  - rewrite <- bpow_add. apply bpow_le. lia.
  - pose proof (bpow_pos (bi_length x - 1)). pose proof (bpow_pos (bi_length y - 1)).
    apply Z.mul_le_mono_nonneg; lia.
Qed.

Lemma signed_mul s1 s2 (a b : Z) : signed_val (xorb s1 s2) (a * b) = signed_val s1 a * signed_val s2 b.
Proof. destruct s1, s2; cbn [xorb signed_val]; lia. Qed.

(** [BigInt::Multiply], if the multiplication of its digits is right: it is only called
    when the result can be allocated. *)
Lemma BigInt_Multiply_with x y p :
  bigint_ok x -> bigint_ok y -> status_ p = kOk ->
  (Z.of_nat (bi_length x + bi_length y) <= kMaxLength -> forall Zd, digits_ok Zd -> length Zd = (bi_length x + bi_length y)%nat ->
     wpP (Multiply Zd (digits_of x) (digits_of y)) p (fun Z' p' => status_le p p' /\ length Z' = length Zd /\ digits_ok Z' /\
       (status_ p' = kOk -> val Z' = val (digits_of x) * val (digits_of y)))) ->
  wpP (BigInt_Multiply x y) p (computes (toZ x * toZ y) (too_big (toZ x * toZ y))).
Proof.
  intros Hx Hy Hp Hmul. unfold BigInt_Multiply.
  destruct (is_zero x) eqn:Zx.
  { apply wpI_ret, computes_ret; [done | done | rewrite (ok_is_zero x Hx Zx); lia]. }
  destruct (is_zero y) eqn:Zy.
  { apply wpI_ret, computes_ret; [done | done | rewrite (ok_is_zero y Hy Zy); lia]. }
  destruct (ok_nonempty x Hx Zx) as [Nx Vx], (ok_nonempty y Hy Zy) as [Ny Vy].
  pose proof (length_nonempty x Nx) as Hpx. unfold MultiplyResultLength.
  apply wpI_New.
  2: { intros Hl. split; [done|]. by apply mul_too_big. }
  intros Hl d Hld Hd. pose proof Hx as [HX _ _ _]. pose proof Hy as [HY _ _ _].
  pose proof (length_Normalize (digits_of x)). pose proof (length_Normalize (digits_of y)).
  apply (wpI_run _ _ _ _ _ (fun d' => length d' = length d /\ digits_ok d')
    (fun d' => val d' = val (digits_of x) * val (digits_of y))); [done | | |].
  - eapply wpP_mono; [apply Hmul; done|]. intros Z' p' (? & ? & ? & ?). split_and!; done.
  - intros d' p' Hp' [Hl' Hd'] E. unfold set_sign. cbn [digits_of]. unfold bi_length in *.
    apply wpI_finish; [done | done | by rewrite Hl', Hld | |].
    + intros ->. simpl in Hl'. lia.
    + rewrite E. apply signed_mul.
  - intros p' Hp' Hn. by split.
Qed.

Lemma BigInt_Multiply_spec L x y p `{!Multiplier L} :
  bigint_ok x -> bigint_ok y -> steady p -> status_ p = kOk -> (bi_length x <= L)%nat -> (bi_length y <= L)%nat ->
  wpP (BigInt_Multiply x y) p (computes (toZ x * toZ y) (too_big (toZ x * toZ y))).
Proof.
  intros Hx Hy Hst Hp HLx HLy. apply BigInt_Multiply_with; try done. intros _ Zd HZ Hl.
  pose proof (length_Normalize (digits_of x)). pose proof (length_Normalize (digits_of y)). unfold bi_length in *.
  apply multiply_correct; try done; [apply Hx | apply Hy | lia].
Qed.

(** Truncating division on sign and magnitude. *)
Lemma signed_quot s1 s2 (a b : Z) :
  0 <= a -> 0 < b -> signed_val (xorb s1 s2) (a / b) = Z.quot (signed_val s1 a) (signed_val s2 b).
Proof.
  intros Ha Hb. rewrite <- Z.quot_div_nonneg by done.
  destruct s1, s2; cbn [xorb signed_val]; rewrite ?Z.quot_opp_l, ?Z.quot_opp_r by lia; lia.
Qed.

Lemma signed_rem s1 s2 (a b : Z) :
  0 <= a -> 0 < b -> signed_val s1 (a mod b) = Z.rem (signed_val s1 a) (signed_val s2 b).
Proof.
  intros Ha Hb. rewrite <- Z.rem_mod_nonneg by done.
  destruct s1, s2; cbn [signed_val]; rewrite ?Z.rem_opp_l, ?Z.rem_opp_r by lia; lia.
Qed.

Lemma wp_is_single_digit x c (Q : bool -> Prop) :
  bigint_ok x -> Q (bool_decide (digits_of x = [c])) -> wp (is_single_digit x c) Q.
Proof.
  intros Hx HQ. unfold is_single_digit, digit, bi_length, rd.
  destruct (digits_of x) as [|d [|d' ds]] eqn:E.
  - by rewrite bool_decide_false in HQ.
  - cbn. apply wp_ret. destruct (Z.eqb_spec d c) as [-> | Hne].
    + by rewrite bool_decide_true in HQ.
    + rewrite bool_decide_false in HQ; [done | congruence].
  - by rewrite bool_decide_false in HQ.
Qed.

Lemma divide_length x y :
  bigint_ok x -> (0 < bi_length y)%nat -> (bi_length y <= bi_length x)%nat ->
  0 < DivideResultLength (digits_of x) (digits_of y) <= kMaxLength.
Proof.
  intros Hx Hy Hl. pose proof (ok_length x Hx). unfold DivideResultLength, bi_length in *.
  destruct V8_ADVANCED_BIGINT_ALGORITHMS; [|lia].
  destruct (Z.leb_spec kBarrettThreshold (Z.of_nat (length (digits_of y)))); unfold kBarrettThreshold in *; lia.
Qed.

(** What both divisions know after their first tests. *)
Lemma wpI_compare_operands {B} x y (f : Z -> IM B) p (Q : MaybeHandle B -> ProcessorImpl -> Prop) :
  bigint_ok x -> bigint_ok y ->
  (forall c, compare_result c (Z.abs (toZ x)) (Z.abs (toZ y)) ->
     (0 <= c -> (bi_length y <= bi_length x)%nat) -> wpP (f c) p Q) ->
  wpP (call (Compare (digits_of x) (digits_of y)) ≫= f) p Q.
Proof.
  intros Hx Hy Hf. rewrite (toZ_abs x Hx), (toZ_abs y Hy) in Hf.
  destruct Hx as [HX NX _ _], Hy as [HY NY _ _]. apply wpI_call.
  eapply wp_mono; [by apply Compare_spec|]. intros c Hc. apply Hf; [done|].
  intros Hc0. apply normalized_length_le; try done. destruct Hc as (Hlt & _ & _). lia.
Qed.

Lemma BigInt_Divide_spec L LI x y p `{!Multiplier L} `{!Inverter LI} :
  bigint_ok x -> bigint_ok y -> toZ y <> 0 -> status_ p = kOk ->
  divisible L LI p (digits_of x) (digits_of y) ->
  wpP (BigInt_Divide x y) p (computes (Z.quot (toZ x) (toZ y)) False).
Proof.
  intros Hx Hy Vy Hp Hdiv. unfold BigInt_Divide.
  destruct (is_zero y) eqn:Zy; [by rewrite (ok_is_zero y Hy Zy) in Vy|].
  destruct (ok_nonempty y Hy Zy) as [Ny _]. pose proof (length_nonempty y Ny) as Hpy.
  pose proof Hx as [HX NX _ _]. pose proof Hy as [HY NY _ _].
  pose proof (val_nonneg _ HX) as VX. pose proof (val_pos_of_normalized _ HY NY Ny) as VY.
  assert (Z.quot (toZ x) (toZ y) = signed_val (xorb (sign x) (sign y)) (val (digits_of x) / val (digits_of y))) as Eq
    by (symmetry; by apply signed_quot).
  apply wpI_compare_operands; [done | done|]. intros c (Clt & _ & _) Hlen.
  rewrite (toZ_abs x Hx), (toZ_abs y Hy) in Clt.
  destruct (Z.ltb_spec c 0) as [Hc | Hc].
  { apply wpI_call_ret, wp_BigInt_Zero. intros z Hz E. apply computes_ret; [done | done|].
    rewrite E, Eq, Z.div_small by lia. by destruct (xorb _ _). }
  specialize (Hlen Hc). apply wpI_call, wp_is_single_digit; [done|]. case_bool_decide as H1y.
  { rewrite Eq, H1y, val_single, Z.div_1_r. destruct (Bool.eqb_spec (xorb (sign x) (sign y)) (sign x)) as [-> | Hs].
    - by apply wpI_ret, computes_ret.
    - apply wpI_call_ret, wp_UnaryMinus; [done|]. intros z Hz E. apply computes_ret; [done | done|].
      rewrite E. unfold toZ. destruct (sign x), (sign y); cbn [xorb signed_val] in *; (done || lia). }
  pose proof (divide_length x y Hx Hpy Hlen) as Hres.
  apply wpI_New; [|lia]. intros Hl d Hld Hd.
  apply (wpI_run _ _ _ _ _ (fun d' => length d' = length d /\ digits_ok d')
    (fun d' => val d' = val (digits_of x) / val (digits_of y))); [done | | |].
  - wpP_apply (Divide_spec L LI); cbn [digits_of]; try done; [lia | lia |].
    intros Z' p' (? & ? & ? & ?). split_and!; done.
  - intros d' p' Hp' [Hl' Hd'] E. unfold set_sign. cbn [digits_of].
    apply wpI_finish; [done | done | by rewrite Hl', Hld | |].
    + intros ->. simpl in Hl'. lia.
    + by rewrite E, Eq.
  - intros p' Hp' Hn. by split.
Qed.

Lemma BigInt_Remainder_spec L LI x y p `{!Multiplier L} `{!Inverter LI} :
  bigint_ok x -> bigint_ok y -> toZ y <> 0 -> status_ p = kOk ->
  divisible L LI p (digits_of x) (digits_of y) ->
  wpP (BigInt_Remainder x y) p (computes (Z.rem (toZ x) (toZ y)) False).
Proof.
  intros Hx Hy Vy Hp Hdiv. unfold BigInt_Remainder.
  destruct (is_zero y) eqn:Zy; [by rewrite (ok_is_zero y Hy Zy) in Vy|].
  destruct (ok_nonempty y Hy Zy) as [Ny _]. pose proof (length_nonempty y Ny) as Hpy.
  pose proof Hx as [HX NX _ _]. pose proof Hy as [HY NY HlY _].
  pose proof (val_nonneg _ HX) as VX. pose proof (val_pos_of_normalized _ HY NY Ny) as VY.
  assert (Z.rem (toZ x) (toZ y) = signed_val (sign x) (val (digits_of x) mod val (digits_of y))) as Er
    by (symmetry; by apply signed_rem).
  apply wpI_compare_operands; [done | done|]. intros c (Clt & _ & _) Hlen.
  rewrite (toZ_abs x Hx), (toZ_abs y Hy) in Clt.
  destruct (Z.ltb_spec c 0) as [Hc | Hc].
  { apply wpI_ret, computes_ret; [done | done|]. by rewrite Er, Z.mod_small by lia. }
  specialize (Hlen Hc). apply wpI_call, wp_is_single_digit; [done|]. case_bool_decide as H1y.
  { rewrite Er, H1y, val_single, Z.mod_1_r. apply wpI_call_ret, wp_BigInt_Zero. intros z Hz E.
    apply computes_ret; [done | done|]. rewrite E. by destruct (sign x). }
  unfold ModuloResultLength. apply wpI_New; [|unfold bi_length in HlY; lia]. intros Hl d Hld Hd.
  apply (wpI_run _ _ _ _ _ (fun d' => length d' = length d /\ digits_ok d')
    (fun d' => val d' = val (digits_of x) mod val (digits_of y))); [done | | |].
  - wpP_apply (Modulo_spec L LI); cbn [digits_of]; try done; [unfold ModuloResultLength; lia | lia |].
    intros Z' p' (? & ? & ? & ?). split_and!; done.
  - intros d' p' Hp' [Hl' Hd'] E. unfold set_sign. cbn [digits_of]. unfold bi_length in *.
    apply wpI_finish; [done | done | by rewrite Hl', Hld | |].
    + intros ->. simpl in Hl'. lia.
    + by rewrite E, Er.
  - intros p' Hp' Hn. by split.
Qed.
End bigint_arith.
