(* ===== verification/BigIntPower.v ===== *)
(** Exponentiation of BigInt objects: [BigInt::Exponentiate] of [src/objects/bigint.cc]. *)

From Stdlib Require Import ZArith Lia.
From stdpp Require Import base tactics numbers list option.
From S2P Require Import Prelude Digit Digits VectorArithmetic Processor MulSchoolbook MulKaratsuba Multiply Division BigIntObject BigIntSpec BigIntArith.

#[local] Open Scope Z_scope.

Section bigint_power.
Context `{Config, Platform}.
Context {alloc : Allocator} {fft : FftMultiplier}.
Implicit Types x y z base exponent : BigInt.

Lemma steady_ok p p' : steady p -> status_ p' = kOk -> steady p'.
Proof. intros [? | [_ Hno]] Hp'; [by left | right; by split]. Qed.

Lemma pow_abs_ge (b e : Z) : 1 <= Z.abs b -> 1 <= e -> Z.abs b <= Z.abs (b ^ e).
Proof.
  intros Hb He. rewrite Z.abs_pow. rewrite <- (Z.pow_1_r (Z.abs b)) at 1.
  apply Z.pow_le_mono_r; lia.
Qed.

(** What is left to multiply: [result * running_square ^ (2 * n)] stays the same. *)
Definition partial (result : option BigInt) : Z := from_option toZ 1 result.

Lemma exponentiate_loop_spec L fuel result rs n v p `{!Multiplier L} :
  (forall z, bigint_ok z -> Z.abs (toZ z) <= Z.abs v -> (bi_length z <= L)%nat) ->
  steady p -> status_ p = kOk -> 0 <= 2 * n < 2 ^ Z.of_nat fuel -> (0 < fuel)%nat ->
  (forall z, result = Some z -> bigint_ok z) -> bigint_ok rs ->
  1 <= Z.abs (toZ rs) -> 1 <= Z.abs (partial result) -> Z.abs (toZ rs) <= Z.abs v ->
  v = partial result * toZ rs ^ (2 * n) -> (n = 0 -> result <> None) ->
  wpP (exponentiate_loop fuel result rs n) p (fun r p' => status_ p' = kOk /\
    match r with
    | inr result' => exists z, result' = Some z /\ bigint_ok z /\ toZ z = v
    | inl kBigIntTooBig => too_big v
    | inl kTerminated => exists n, InterruptRequested n = true
    | inl _ => False
    end).
Proof.
  intros HL. revert result rs n p.
  induction fuel as [|fuel IH]; intros result rs n p Hst Hp Hn Hf Hres Hrs Ars Ares Hle Ev Hnull; [lia|].
  cbn [exponentiate_loop]. destruct (Z.eqb_spec n 0) as [-> | Hn0].
  { apply wpI_ret. split; [done|]. destruct result as [z|]; [|by destruct Hnull].
    exists z. split_and!; [done | by apply Hres |]. rewrite Ev, Z.mul_0_r, Z.pow_0_r. cbn. lia. }
  assert (toZ rs ^ (2 * n) = (toZ rs * toZ rs) ^ n) as Esq.
  { rewrite Z.pow_mul_r by lia. f_equal. ring. }
  pose proof (Z.abs_mul (toZ rs) (toZ rs)) as Asq.
  assert (1 <= Z.abs (toZ rs * toZ rs)) as Asq1 by nia.
  assert (Z.abs (toZ rs * toZ rs) <= Z.abs v) as Hsqv.
  { rewrite Ev, Esq, Z.abs_mul. pose proof (pow_abs_ge (toZ rs * toZ rs) n Asq1 ltac:(lia)). nia. }
  apply wpI_bind. eapply wpP_mono; [apply (BigInt_Multiply_spec L rs rs); try done; by apply HL|].
  intros [e | rs'] p1 [Hp1 Hr1].
  { split; [done|]. destruct e; try done. by eapply too_big_mono. }
  destruct Hr1 as [Hrs' Ers']. pose proof (steady_ok p p1 Hst Hp1) as Hst1.
  assert (n = n mod 2 + 2 * Z.shiftr n 1) as En.
  { rewrite Z.shiftr_div_pow2, Z.pow_1_r by lia. pose proof (Z.div_mod n 2 ltac:(lia)). lia. }
  pose proof (Z.mod_pos_bound n 2 ltac:(lia)) as Hm2. set (n' := Z.shiftr n 1) in *.
  assert (0 <= n /\ n < 2 ^ Z.of_nat fuel /\ 0 <= 2 * n' < 2 ^ Z.of_nat fuel) as (Hnn & Hlt & Hn').
  { rewrite Nat2Z.inj_succ, Z.pow_succ_r in Hn by lia. lia. }
  assert (0 < fuel)%nat as Hf' by (destruct fuel; [cbn in Hlt; lia | lia]).
  assert (v = partial result * toZ rs' ^ (n mod 2) * toZ rs' ^ (2 * n')) as Ev'.
  { rewrite Ev, Esq, <- Ers', <- Z.mul_assoc, <- Z.pow_add_r by lia. by rewrite <- En. }
  rewrite <- Ers' in *. rewrite Zmod_odd in *.
  assert (Z.abs v = Z.abs (partial result * toZ rs' ^ (if Z.odd n then 1 else 0)) * Z.abs (toZ rs' ^ (2 * n'))) as Av
    by (rewrite Ev' at 1; apply Z.abs_mul).
  assert (1 <= Z.abs (toZ rs' ^ (2 * n'))) as Apow.
  { rewrite Z.abs_pow. pose proof (Z.pow_pos_nonneg (Z.abs (toZ rs')) (2 * n')). lia. }
  apply wpI_bind.
  destruct (Z.odd n) eqn:Eodd.
  - rewrite Z.pow_1_r in *. destruct result as [z|].
    + cbn [partial from_option] in *. apply wpI_bind.
      assert (Z.abs (toZ z * toZ rs') <= Z.abs v) as Hzv by nia.
      rewrite Z.abs_mul in Hzv.
      eapply wpP_mono; [apply (BigInt_Multiply_spec L z rs'); try done; try (by apply Hres); apply HL; try done; [by apply Hres | nia]|].
      intros [e | z'] p2 [Hp2 Hr2].
      { split; [done|]. destruct e; try done. eapply too_big_mono; [exact Hr2|]. rewrite Z.abs_mul. done. }
      destruct Hr2 as [Hz' Ez']. apply wpI_ret, IH; cbn [partial from_option];
        [by eapply steady_ok | exact Hp2 | exact Hn' | exact Hf' | by intros ? [= <-] | exact Hrs' | exact Asq1
        | rewrite Ez', Z.abs_mul; nia | exact Hsqv | by rewrite Ez' | discriminate].
    + cbn [partial from_option] in *. rewrite Z.mul_1_l in Ev'.
      apply wpI_ret, IH; cbn [partial from_option];
        [exact Hst1 | exact Hp1 | exact Hn' | exact Hf' | by intros ? [= <-] | exact Hrs' | exact Asq1
        | exact Asq1 | exact Hsqv | exact Ev' | discriminate].
  - rewrite Z.pow_0_r, Z.mul_1_r in *.
    apply wpI_ret, IH; [exact Hst1 | exact Hp1 | exact Hn' | exact Hf' | exact Hres | exact Hrs' | exact Asq1
      | exact Ares | exact Hsqv | exact Ev' | intros; lia].
Qed.

(** ** The fast path for a base of magnitude two *)

Lemma insert_last_zeros (X : digits) m :
  (0 < length X)%nat -> is_digit m ->
  let Y := <[(length X - 1)%nat := m]> (Clear X) in
  length Y = length X /\ digits_ok Y /\ val Y = bpow (length X - 1) * m.
Proof.
  intros Hl Hm Y. unfold Y, Clear. set (k := (length X - 1)%nat).
  replace (length X) with (k + 1)%nat by (unfold k; lia).
  rewrite replicate_add, insert_app_r_alt by (rewrite length_replicate; lia).
  rewrite length_replicate, Nat.sub_diag. cbn [replicate insert list_insert].
  rewrite length_app, length_replicate, val_app, val_replicate_0, length_replicate. cbn [val].
  split_and!; [done | apply digits_ok_snoc; [by auto with digits | done] | lia].
Qed.

Lemma pow_minus_two n : signed_val (Z.odd n) (2 ^ n) = (-2) ^ n.
Proof.
  change (-2) with (- (2)). destruct (Z.odd n) eqn:E; cbn [signed_val].
  - symmetry. apply Z.pow_opp_odd. by apply Z.odd_spec.
  - symmetry. apply Z.pow_opp_even, Z.even_spec. by rewrite <- Z.negb_odd, E.
Qed.

Lemma power_of_two_spec base n p big :
  status_ p = kOk -> digits_of base = [2] -> 0 <= n < kMaxLengthBits ->
  wpP (power_of_two base n) p (computes (toZ base ^ n) big).
Proof.
  intros Hp Hb Hn. unfold power_of_two. destruct kMaxLength_bits as [Ek Hk].
  assert (0 < kDigitBits) as Hkd by (destruct kDigitBits_cases; lia).
  pose proof (Z.mod_pos_bound n kDigitBits Hkd) as Hbm. assert (n = kDigitBits * (n / kDigitBits) + n mod kDigitBits) as En by (apply Z.div_mod; lia).
  assert (0 <= n / kDigitBits < kMaxLength) as Hq.
  { split; [apply Z.div_pos; lia | apply Z.div_lt_upper_bound; lia]. }
  set (nd := Z.to_nat (1 + n / kDigitBits)).
  apply wpI_New; [|lia]. intros Hl d Hld Hd.
  assert (wrap (Z.shiftl 1 (n mod kDigitBits)) = 2 ^ (n mod kDigitBits) /\ is_digit (2 ^ (n mod kDigitBits))) as [-> Hdm].
  { assert (is_digit (2 ^ (n mod kDigitBits))) as Hd'.
    { unfold is_digit, digit_base. split; [apply Z.pow_nonneg; lia | apply Z.pow_lt_mono_r; lia]. }
    rewrite Z.shiftl_1_l. split; [by apply wrap_small | done]. }
  destruct (insert_last_zeros d (2 ^ (n mod kDigitBits))) as (Hli & Hdi & Vi); [lia | done |].
  apply wpI_call. unfold set_digit, InitializeDigits. cbn [digits_of sign].
  apply wp_bind, wp_wr; [rewrite (proj1 (Clear_spec d)); lia|]. apply wp_ret.
  replace (nd - 1)%nat with (length d - 1)%nat by lia.
  set (Y := <[(length d - 1)%nat := 2 ^ (n mod kDigitBits)]> (Clear d)) in *. clearbody Y.
  assert (val Y = 2 ^ n) as VY.
  { rewrite Vi, bpow_bits, Hld. replace (Z.of_nat (nd - 1)) with (n / kDigitBits) by lia.
    rewrite <- Z.pow_add_r by lia. f_equal. lia. }
  assert (toZ base = signed_val (sign base) 2) as Ebase by (unfold toZ; by rewrite Hb, val_single).
  rewrite Ebase. unfold set_sign. cbn [digits_of sign].
  destruct (sign base); cbn [signed_val]; apply wpI_finish; try done.
  - by rewrite Hli, Hld.
  - intros ->. simpl in *. lia.
  - rewrite VY. apply pow_minus_two.
  - by rewrite Hli, Hld.
Qed.

(** ** Exponentiation *)

Lemma pow_too_big (b e : Z) : 2 <= Z.abs b -> kMaxLengthBits <= e -> too_big (b ^ e).
Proof.
  intros Hb He. unfold too_big. rewrite Z.abs_pow.
  assert (0 < kDigitBits) by (destruct kDigitBits_cases; lia).
  apply Z.le_trans with (2 ^ e); [apply Z.pow_le_mono_r; lia | apply Z.pow_le_mono_l; lia].
Qed.

Lemma val_odd d X : Z.odd (val (d :: X)) = Z.odd d.
Proof. cbn [val]. rewrite Z.odd_add, Z.odd_mul, digit_base_even, Z.odd_mul. cbn. apply xorb_false_r. Qed.

Lemma land_one_even d : (Z.land d 1 =? 0) = negb (Z.odd d).
Proof. change 1 with (Z.ones 1). rewrite Z.land_ones by lia. change (2 ^ 1) with 2. rewrite Zmod_odd. by destruct (Z.odd d). Qed.

Lemma pow_minus_one n : 0 <= n -> (-1) ^ n = if Z.odd n then -1 else 1.
Proof.
  intros Hn. change (-1) with (- (1)) at 1. destruct (Z.odd n) eqn:E.
  - rewrite Z.pow_opp_odd by (by apply Z.odd_spec). by rewrite Z.pow_1_l.
  - rewrite Z.pow_opp_even by (apply Z.even_spec; by rewrite <- Z.negb_odd, E). by apply Z.pow_1_l.
Qed.

(** A base of magnitude one. *)
Lemma unit_power_spec base exponent e0 es p big :
  status_ p = kOk -> bigint_ok base -> digits_of base = [1] -> digits_of exponent = e0 :: es ->
  0 <= val (digits_of exponent) ->
  wpP (if sign base && (Z.land e0 1 =? 0) then call (BigInt_UnaryMinus base) else mret (M := IM) base) p
    (computes (toZ base ^ val (digits_of exponent)) big).
Proof.
  intros Hp Hok Hb He Hv. rewrite land_one_even, <- (val_odd e0 es), <- He.
  assert (toZ base = signed_val (sign base) 1) as E by (unfold toZ; by rewrite Hb, val_single).
  destruct (sign base) eqn:Es; cbn [signed_val andb] in *.
  - rewrite E. rewrite pow_minus_one by done. destruct (Z.odd _); cbn [negb].
    + by apply wpI_ret, computes_ret.
    + apply wpI_call_ret, wp_UnaryMinus; [done|]. intros z Hz Ez. apply computes_ret; [done | done | lia].
  - rewrite E, Z.pow_1_l by done. apply wpI_ret, computes_ret; done.
Qed.

Lemma BigInt_Exponentiate_spec L base exponent p `{!Multiplier L} :
  let v := toZ base ^ toZ exponent in
  bigint_ok base -> bigint_ok exponent -> 0 <= toZ exponent -> steady p -> status_ p = kOk ->
  (forall z, bigint_ok z -> Z.abs (toZ z) <= Z.abs v -> (bi_length z <= L)%nat) ->
  wpP (BigInt_Exponentiate base exponent) p (computes v (too_big v)).
Proof.
  intros v Hb He Hpos Hst Hp HL. unfold BigInt_Exponentiate.
  pose proof He as [HE NE _ Se]. pose proof (val_nonneg _ HE) as VE.
  destruct (sign exponent) eqn:Ese.
  { exfalso. unfold toZ in Hpos. rewrite Ese in Hpos. cbn [signed_val] in Hpos.
    destruct (decide (digits_of exponent = [])) as [E | Hne]; [by specialize (Se E)|].
    pose proof (val_pos_of_normalized _ HE NE Hne). lia. }
  assert (toZ exponent = val (digits_of exponent)) as Ee by (unfold toZ; by rewrite Ese).
  destruct (is_zero exponent) eqn:Ze.
  { apply wpI_call_ret, wp_NewFromInt; [lia|]. intros z Hz Ez. apply computes_ret; [done | done|].
    unfold v. by rewrite (ok_is_zero _ He Ze), Z.pow_0_r. }
  destruct (ok_nonempty exponent He Ze) as [Ne Ve].
  destruct (is_zero base) eqn:Zb.
  { apply wpI_ret, computes_ret; [done | done|]. unfold v. rewrite (ok_is_zero _ Hb Zb), Z.pow_0_l by lia. done. }
  destruct (ok_nonempty base Hb Zb) as [Nb Vb].
  destruct (digits_of exponent) as [|e0 es] eqn:Ed; [done|].
  assert (digit exponent 0 = Ok e0) as Edig by (unfold digit; by rewrite Ed).
  apply wpI_call, wp_is_single_digit; [done|]. case_bool_decide as H1b.
  { apply wpI_call. rewrite Edig. apply wp_Ok. unfold v. rewrite Ee, <- Ed.
    apply (unit_power_spec base exponent e0 es); try done. by rewrite Ed. }
  assert (2 <= Z.abs (toZ base)) as Hb2.
  { rewrite (toZ_abs base Hb). pose proof Hb as [HB NB _ _]. pose proof (val_pos_of_normalized _ HB NB Nb).
    destruct (digits_of base) as [|b0 [|b1 bs]] eqn:Eb; [done | |].
    - rewrite val_single in *. assert (b0 <> 1) by congruence. lia.
    - pose proof (normalized_lower _ HB NB Nb) as Hlow. cbn [length] in Hlow. pose proof digit_base_ge.
      pose proof (bpow_le 1 (S (S (length bs)) - 1) ltac:(lia)). rewrite bpow_1 in *. lia. }
  assert (kMaxLengthBits = 2 ^ 30) as Ek by done. pose proof digit_base_ge as Hbase.
  unfold bi_length. rewrite Ed. case_bool_decide as Hlen.
  { split; [done|]. apply pow_too_big; [done|]. rewrite Ee, Ek.
    pose proof (normalized_lower _ HE NE ltac:(done)) as Hlow. cbn [length] in *.
    pose proof (bpow_le 1 (S (length es) - 1) ltac:(lia)). rewrite bpow_1 in *. lia. }
  assert (es = []) as -> by (destruct es; [done | simpl in Hlen; lia]).
  rewrite val_single in *. apply wpI_call. rewrite Edig. apply wp_Ok.
  destruct (Z.eqb_spec e0 1) as [-> | He1].
  { apply wpI_ret, computes_ret; [done | done|]. unfold v. by rewrite Ee, Z.pow_1_r. }
  destruct (Z.leb_spec kMaxLengthBits e0) as [Hbig | Hsmall].
  { split; [done|]. apply pow_too_big; [done | lia]. }
  apply wpI_call, wp_is_single_digit; [done|]. case_bool_decide as H2b.
  { unfold v. rewrite Ee. by apply power_of_two_spec. }
  assert (e0 = e0 mod 2 + 2 * Z.shiftr e0 1) as En.
  { rewrite Z.shiftr_div_pow2, Z.pow_1_r by lia. pose proof (Z.div_mod e0 2 ltac:(lia)). lia. }
  pose proof (Z.mod_pos_bound e0 2 ltac:(lia)) as Hm2. set (n' := Z.shiftr e0 1) in *. rewrite Zmod_odd in *.
  assert (Z.abs (toZ base) <= Z.abs v) as Hbv by (apply pow_abs_ge; lia).
  apply wpI_bind. eapply wpP_mono.
  { apply (exponentiate_loop_spec L 31 _ base n' v _); [exact HL | exact Hst | exact Hp | | lia | | exact Hb | lia
      | | exact Hbv | | ].
    - change (Z.of_nat 31) with 31. destruct (Z.odd e0); lia.
    - intros z. destruct (Z.odd e0); [by intros [= <-] | done].
    - destruct (Z.odd e0); cbn; lia.
    - unfold v. rewrite Ee, En at 1. rewrite Z.pow_add_r by (destruct (Z.odd e0); lia).
      destruct (Z.odd e0); cbn [partial from_option]; rewrite ?Z.pow_1_r, ?Z.pow_0_r; done.
    - intros E0. destruct (Z.odd e0); [done|]. lia. }
  intros [e | r] p' [Hp' Hr]; [by split|]. destruct Hr as (z & -> & Hz & Ez). by apply wpI_ret, computes_ret.
Qed.
End bigint_power.
