(* ===== verification/BigIntBits.v ===== *)
(** Comparison, bitwise operations, shifts and truncation of BigInt objects
    ([src/objects/bigint.cc]), as operations on integers in two's complement. *)

From Stdlib Require Import ZArith Lia.
From stdpp Require Import base tactics numbers list option.
From S2P Require Import Prelude Digit Digits VectorArithmetic Processor MulSchoolbook MulKaratsuba Division Bitwise BitwiseShift BigIntObject BigIntSpec BigIntArith.

#[local] Open Scope Z_scope.

Section bigint_bits.
Context `{Config, Platform}.
Context {alloc : Allocator}.
Implicit Types x y z : BigInt.

(** ** Comparison *)

Definition comparison_of (c : comparison) : ComparisonResult :=
  match c with Lt => kLessThan | Eq => kEqual | Gt => kGreaterThan end.

Lemma sign_cases x : bigint_ok x ->
  (sign x = false /\ toZ x = val (digits_of x) /\ 0 <= toZ x) \/
  (sign x = true /\ toZ x = - val (digits_of x) /\ toZ x < 0).
Proof.
  intros [HX NX _ Hs]. pose proof (val_nonneg _ HX). unfold toZ. destruct (sign x) eqn:E; [right | by left].
  cbn [signed_val]. split_and!; [done | done|].
  destruct (decide (digits_of x = [])) as [Hn | Hne]; [by specialize (Hs Hn)|].
  pose proof (val_pos_of_normalized _ HX NX Hne). lia.
Qed.

Lemma CompareToBigInt_spec x y :
  bigint_ok x -> bigint_ok y -> CompareToBigInt x y = Ok (comparison_of (toZ x ?= toZ y)).
Proof.
  intros Hx Hy. unfold CompareToBigInt.
  destruct (wp_elim _ _ (Compare_spec _ _ (ok_digits x Hx) (ok_digits y Hy))) as (c & E & Clt & Ceq & Cgt).
  destruct (sign_cases x Hx) as [(Sx & Vx & Px) | (Sx & Vx & Px)],
    (sign_cases y Hy) as [(Sy & Vy & Py) | (Sy & Vy & Py)]; rewrite Sx, Sy, ?E; cbn.
  2: by rewrite (proj2 (Z.compare_gt_iff _ _)) by lia.
  2: by rewrite (proj2 (Z.compare_lt_iff _ _)) by lia.
  all: destruct (Z.ltb_spec 0 c), (Z.ltb_spec c 0), (Z.compare_spec (toZ x) (toZ y)); (done || lia).
Qed.

Lemma equal_digits_spec n i x y :
  (i + n = bi_length x)%nat -> bi_length x = bi_length y ->
  wp (equal_digits n i x y) (fun b => b = bool_decide (drop i (digits_of x) = drop i (digits_of y))).
Proof.
  unfold bi_length. revert i. induction n as [|n IH]; intros i Hi Hl; cbn [equal_digits].
  { apply wp_ret. rewrite !drop_ge by lia. by rewrite bool_decide_true. }
  unfold digit, rd.
  destruct (lookup_lt_is_Some_2 (digits_of x) i ltac:(lia)) as [dx Ex].
  destruct (lookup_lt_is_Some_2 (digits_of y) i ltac:(lia)) as [dy Ey].
  rewrite Ex, Ey. cbn. rewrite (drop_S _ _ _ Ex), (drop_S _ _ _ Ey).
  destruct (Z.eqb_spec dx dy) as [-> | Hne]; cbn [negb].
  - eapply wp_mono; [apply IH; lia|]. intros b ->. apply bool_decide_ext. split; [by intros -> | congruence].
  - apply wp_ret. by rewrite bool_decide_false by congruence.
Qed.

Lemma EqualToBigInt_spec x y :
  bigint_ok x -> bigint_ok y -> EqualToBigInt x y = Ok (toZ x =? toZ y).
Proof.
  intros Hx Hy. unfold EqualToBigInt.
  assert (forall b, (b = true <-> x = y) -> Ok b = Ok (toZ x =? toZ y)) as Hfin.
  { intros b Hb. f_equal. destruct (Z.eqb_spec (toZ x) (toZ y)) as [E | Hne].
    - apply Hb. by apply toZ_inj.
    - destruct b; [|done]. destruct Hne. by rewrite (proj1 Hb eq_refl). }
  destruct (xorb (sign x) (sign y)) eqn:Ex.
  { apply Hfin. split; [done|]. intros ->. by rewrite xorb_nilpotent in Ex. }
  apply xorb_eq in Ex. case_bool_decide as El.
  { apply Hfin. split; [done|]. by intros ->. }
  destruct (decide (bi_length x = bi_length y)) as [El' | ?]; [|done].
  destruct (wp_elim _ _ (equal_digits_spec (bi_length x) 0 x y eq_refl El')) as (b & -> & ->).
  rewrite !drop_0. apply Hfin. rewrite bool_decide_eq_true. destruct x, y; cbn in *. split; congruence.
Qed.

(** ** Bitwise operations *)

Lemma land_neg_le a b : b < 0 -> Z.land a b <= a.
Proof.
  intros Hb. assert (a = Z.land a b + Z.ldiff a b) as E.
  { rewrite Z.add_nocarry_lxor.
    - apply Z.bits_inj'. intros i Hi. rewrite Z.lxor_spec, Z.land_spec, Z.ldiff_spec.
      by destruct (Z.testbit a i), (Z.testbit b i).
    - apply Z.bits_inj'. intros i Hi. rewrite !Z.land_spec, Z.ldiff_spec, Z.bits_0.
      by destruct (Z.testbit a i), (Z.testbit b i). }
  assert (0 <= Z.ldiff a b); [|lia]. rewrite Z.ldiff_land. apply Z.land_nonneg. right. apply Z.lnot_nonneg. lia.
Qed.

(** A negative result is written into a non-empty buffer. *)
Lemma wpI_finish_digits s n d p v big :
  status_ p = kOk -> length d = n -> digits_ok d -> Z.of_nat n <= kMaxLength -> (0 < n)%nat \/ s = false ->
  signed_val s (val d) = v -> wpP (call (MakeImmutable (mkBigInt s d))) p (computes v big).
Proof.
  intros Hp Hl Hd Hn Hs Hv. apply wpI_finish; try done; [by rewrite Hl|].
  intros ->. destruct Hs; [simpl in Hl; lia | done].
Qed.

(** What follows the computation of a result: it is canonicalized. *)
Definition then_canonical (v : Z) (big : Prop) (r : MaybeHandle BigInt) (p : ProcessorImpl) : Prop :=
  match r with
  | inr z => wpP (call (MakeImmutable z)) p (computes v big)
  | inl e => computes v big (inl e) p
  end.

(** The two shapes of a case of a bitwise operation: a non-negative result, whose length
    is within the limit, and a negative one. *)
Lemma wpI_nonnegative_result n (f : digits -> res digits) v big p :
  status_ p = kOk -> Z.of_nat n <= kMaxLength ->
  (forall d, length d = n -> wp (f d) (fun d' => length d' = length d /\ digits_ok d' /\ val d' = v)) ->
  wpP (result ← call (ToHandleChecked (MutableBigInt_New n));
       result ← call (with_digits result f);
       call (dcheck (negb (sign result)));; mret result) p (then_canonical v big).
Proof.
  intros Hp Hn Hf. apply wpI_call, wp_New; [done|]. intros d Hl Hd.
  apply wpI_call, wp_with_digits. cbn [digits_of sign]. eapply wp_mono; [by apply Hf|].
  intros d' (Hl' & Hd' & E). apply wpI_call, wp_dcheck; [done|]. apply wpI_ret.
  eapply wpI_finish_digits; [done | done | done | lia | by right | done].
Qed.

Lemma wpI_negative_result n (f : digits -> res digits) v (big : Prop) p :
  status_ p = kOk -> (kMaxLength < Z.of_nat n -> big) -> (0 < n)%nat ->
  (forall d, length d = n -> wp (f d) (fun d' => length d' = length d /\ digits_ok d' /\ - val d' = v)) ->
  wpP (result ← ToHandle (MutableBigInt_New n);
       result ← call (with_digits result f);
       mret (set_sign result true)) p (then_canonical v big).
Proof.
  intros Hp Hbig Hn Hf. apply wpI_New.
  - intros Hl d Hld Hd. apply wpI_call, wp_with_digits. cbn [digits_of sign]. eapply wp_mono; [by apply Hf|].
    intros d' (Hl' & Hd' & E). apply wpI_ret.
    eapply wpI_finish_digits; [done | done | done | lia | left; lia | done].
  - intros Hl. split; [done | auto].
Qed.

Lemma neg_length x : toZ x = - val (digits_of x) -> toZ x < 0 -> (0 < bi_length x)%nat.
Proof. intros E Hx. apply length_nonempty. intros En. rewrite En in E. cbn in E. lia. Qed.

Lemma BigInt_BitwiseAnd_spec x y p :
  bigint_ok x -> bigint_ok y -> status_ p = kOk ->
  wpP (BigInt_BitwiseAnd x y) p (computes (Z.land (toZ x) (toZ y)) (too_big (Z.land (toZ x) (toZ y)))).
Proof.
  intros Hx Hy Hp. unfold BigInt_BitwiseAnd. apply wpI_bind.
  pose proof (ok_length x Hx) as Lx. pose proof (ok_length y Hy) as Ly.
  pose proof (ok_digits x Hx) as HX. pose proof (ok_digits y Hy) as HY.
  destruct (sign_cases x Hx) as [(Sx & Vx & Px) | (Sx & Vx & Px)],
    (sign_cases y Hy) as [(Sy & Vy & Py) | (Sy & Vy & Py)]; rewrite Sx, Sy; cbn [negb andb].
  - apply wpI_nonnegative_result; unfold BitwiseAnd_PosPos_ResultLength, bi_length in *; [done | lia|].
    intros d Hd. rewrite Vx, Vy. apply BitwiseAnd_PosPos_spec; (done || lia).
  - apply wpI_nonnegative_result; unfold BitwiseAnd_PosNeg_ResultLength; [done | lia|].
    intros d Hd. rewrite Vx, Vy. apply BitwiseAnd_PosNeg_spec; unfold bi_length in *; (done || lia).
  - apply wpI_nonnegative_result; unfold BitwiseAnd_PosNeg_ResultLength; [done | lia|].
    intros d Hd. rewrite Z.land_comm, Vx, Vy. apply BitwiseAnd_PosNeg_spec; unfold bi_length in *; (done || lia).
  - apply wpI_negative_result; unfold BitwiseAnd_NegNeg_ResultLength; [done | | lia |].
    + intros Hl. destruct (Z.le_gt_cases kMaxLength (Z.of_nat (bi_length x))).
      * eapply too_big_mono; [by apply (full_length_too_big x)|]. pose proof (land_neg_le (toZ x) (toZ y) Py). lia.
      * eapply too_big_mono; [apply (full_length_too_big y); [done | lia]|].
        rewrite Z.land_comm. pose proof (land_neg_le (toZ y) (toZ x) Px). lia.
    + intros d Hd. rewrite Vx, Vy. apply BitwiseAnd_NegNeg_spec; unfold bi_length in *; (done || lia).
Qed.

(** The exclusive or of operands of different signs may need one digit more than both; the
    operation gives up when one of them has the full length already. *)
Lemma BigInt_BitwiseXor_spec x y p :
  bigint_ok x -> bigint_ok y -> status_ p = kOk ->
  wpP (BigInt_BitwiseXor x y) p (computes (Z.lxor (toZ x) (toZ y)) (too_big (toZ x) \/ too_big (toZ y))).
Proof.
  intros Hx Hy Hp. unfold BigInt_BitwiseXor. apply wpI_bind.
  pose proof (ok_length x Hx) as Lx. pose proof (ok_length y Hy) as Ly.
  pose proof (ok_digits x Hx) as HX. pose proof (ok_digits y Hy) as HY.
  assert (kMaxLength < Z.of_nat (BitwiseXor_PosNeg_ResultLength (bi_length x) (bi_length y)) ->
    too_big (toZ x) \/ too_big (toZ y)) as Hbig.
  { unfold BitwiseXor_PosNeg_ResultLength. intros Hl.
    destruct (Z.le_gt_cases kMaxLength (Z.of_nat (bi_length x))); [left | right]; apply full_length_too_big; (done || lia). }
  destruct (sign_cases x Hx) as [(Sx & Vx & Px) | (Sx & Vx & Px)],
    (sign_cases y Hy) as [(Sy & Vy & Py) | (Sy & Vy & Py)]; rewrite Sx, Sy; cbn [negb andb].
  - apply wpI_nonnegative_result; unfold BitwiseXor_PosPos_ResultLength, bi_length in *; [done | lia|].
    intros d Hd. rewrite Vx, Vy. apply BitwiseXor_PosPos_spec; (done || lia).
  - apply wpI_negative_result; [done | done | unfold BitwiseXor_PosNeg_ResultLength; lia |].
    intros d Hd. unfold BitwiseXor_PosNeg_ResultLength, bi_length in *.
    rewrite Vx, Vy. apply BitwiseXor_PosNeg_spec; (done || lia).
  - apply wpI_negative_result; unfold BitwiseXor_PosNeg_ResultLength in *; [done | | lia |].
    { intros ?. apply Hbig. lia. }
    intros d Hd. unfold bi_length in *. rewrite Z.lxor_comm, Vx, Vy. apply BitwiseXor_PosNeg_spec; (done || lia).
  - apply wpI_nonnegative_result; unfold BitwiseXor_NegNeg_ResultLength, bi_length in *; [done | lia|].
    intros d Hd. rewrite Vx, Vy. apply BitwiseXor_NegNeg_spec; (done || lia).
Qed.

Lemma BigInt_BitwiseOr_spec x y p big :
  bigint_ok x -> bigint_ok y -> status_ p = kOk ->
  wpP (BigInt_BitwiseOr x y) p (computes (Z.lor (toZ x) (toZ y)) big).
Proof.
  intros Hx Hy Hp. unfold BigInt_BitwiseOr, BitwiseOrResultLength.
  pose proof (ok_length x Hx) as Lx. pose proof (ok_length y Hy) as Ly.
  pose proof (ok_digits x Hx) as HX. pose proof (ok_digits y Hy) as HY.
  apply wpI_call, wp_New; [lia|]. intros d Hl Hd.
  pose proof (neg_length x) as Nx. pose proof (neg_length y) as Ny.
  destruct (sign_cases x Hx) as [(Sx & Vx & Px) | (Sx & Vx & Px)],
    (sign_cases y Hy) as [(Sy & Vy & Py) | (Sy & Vy & Py)]; rewrite Sx, Sy; cbn [negb andb]; unfold bi_length in *;
    apply wpI_bind, wpI_call, wp_with_digits; cbn [digits_of sign]; rewrite Vx, Vy.
  - eapply wp_mono; [apply BitwiseOr_PosPos_spec; (done || lia)|]. intros d' (Hl' & Hd' & E).
    apply wpI_call, wp_dcheck; [done|]. apply wpI_ret.
    eapply wpI_finish_digits; [done | done | done | lia | by right | by rewrite <- E].
  - eapply wp_mono; [apply BitwiseOr_PosNeg_spec; (done || lia)|]. intros d' (Hl' & Hd' & E).
    apply wpI_ret. eapply wpI_finish_digits; [done | done | done | lia | left; lia | by rewrite <- E].
  - rewrite Z.lor_comm. eapply wp_mono; [apply BitwiseOr_PosNeg_spec; (done || lia)|]. intros d' (Hl' & Hd' & E).
    apply wpI_ret. eapply wpI_finish_digits; [done | done | done | lia | left; lia | by rewrite <- E].
  - eapply wp_mono; [apply BitwiseOr_NegNeg_spec; (done || lia)|]. intros d' (Hl' & Hd' & E).
    apply wpI_ret. eapply wpI_finish_digits; [done | done | done | lia | left; lia | by rewrite <- E].
Qed.

(** ** Shifts *)

Lemma kMaxLengthBits_digit : kMaxLengthBits < digit_base.
Proof. pose proof digit_base_ge. assert (kMaxLengthBits = 2 ^ 30) as -> by done. lia. Qed.

Lemma ToShiftAmount_spec y :
  bigint_ok y -> toZ y <> 0 ->
  wp (ToShiftAmount y) (fun r => r = if kMaxLengthBits <? Z.abs (toZ y) then None else Some (Z.abs (toZ y))).
Proof.
  intros Hy Vy. unfold ToShiftAmount. case_bool_decide as Hl.
  - apply wp_ret. pose proof (ok_lower y 1 Hy Hl) as Hlow. rewrite bpow_1 in Hlow.
    pose proof kMaxLengthBits_digit. destruct (Z.ltb_spec kMaxLengthBits (Z.abs (toZ y))); [done | lia].
  - pose proof (toZ_abs y Hy) as E. unfold digit, bi_length in *.
    destruct (digits_of y) as [|d [|d' ds]] eqn:Ed.
    + cbn in E. lia.
    + cbn. apply wp_ret. rewrite val_single in E. by rewrite E.
    + simpl in Hl. lia.
Qed.

Lemma pow_abs_mul_ge (v s : Z) : v <> 0 -> 0 <= s -> 2 ^ s <= Z.abs (v * 2 ^ s).
Proof.
  intros Hv Hs. pose proof (Z.pow_pos_nonneg 2 s ltac:(lia) Hs). rewrite Z.abs_mul, (Z.abs_eq (2 ^ s)) by lia. nia.
Qed.

Lemma last_digit x : digits_of x <> [] ->
  exists top, digit x (bi_length x - 1) = Ok top /\ list.last (digits_of x) = Some top.
Proof.
  intros Hne. destruct (exists_last Hne) as (X' & top & E). exists top. unfold digit, bi_length, rd.
  rewrite E, last_snoc, length_app, Nat.add_sub. rewrite lookup_app_r, Nat.sub_diag by lia. done.
Qed.

Lemma shift_length_too_big x top s :
  bigint_ok x -> toZ x <> 0 -> 0 <= s -> s / kDigitBits < 2 ^ 31 -> list.last (digits_of x) = Some top ->
  kMaxLength < LeftShift_ResultLength (bi_length x) top s -> too_big (toZ x * 2 ^ s).
Proof.
  intros Hx Vx Hs Hint Htop Hl. destruct kMaxLength_bits as [Ek Hk].
  assert (0 < kDigitBits) as Hkd by (destruct kDigitBits_cases; lia).
  set (q := s / kDigitBits) in *. assert (0 <= q) as Hq by (by apply Z.div_pos).
  assert (kDigitBits * q <= s) as Hqs by (by apply Z.mul_div_le).
  assert (0 < bi_length x)%nat as Hpos.
  { apply length_nonempty. intros E. by rewrite E in Htop. }
  assert (bpow (bi_length x - 1) * 2 ^ (kDigitBits * q) <= Z.abs (toZ x * 2 ^ s)) as Hmag.
  { rewrite Z.abs_mul, (Z.abs_eq (2 ^ s)) by (apply Z.pow_nonneg; lia).
    apply Z.mul_le_mono_nonneg; [pose proof (bpow_pos (bi_length x - 1)); lia | apply ok_lower; [done | lia]
      | apply Z.pow_nonneg; lia | apply Z.pow_le_mono_r; lia]. }
  apply too_big_bpow. etransitivity; [|exact Hmag].
  rewrite !bpow_bits, <- Z.pow_add_r by (try lia; apply Z.mul_nonneg_nonneg; lia).
  apply Z.pow_le_mono_r; [lia|]. rewrite <- Z.mul_add_distr_l. apply Z.mul_le_mono_nonneg_l; [lia|].
  unfold LeftShift_ResultLength in Hl. rewrite static_cast_int_id in Hl by lia. fold q in Hl. destruct (_ && _); lia.
Qed.

Lemma LeftShiftByAbsolute_spec x y p :
  let v := toZ x * 2 ^ Z.abs (toZ y) in
  bigint_ok x -> bigint_ok y -> toZ x <> 0 -> toZ y <> 0 -> status_ p = kOk ->
  wpP (LeftShiftByAbsolute x y) p (computes v (too_big v)).
Proof.
  intros v Hx Hy Vx Vy Hp. unfold LeftShiftByAbsolute. set (s := Z.abs (toZ y)) in *.
  assert (0 <= s) as Hs by lia. pose proof (ok_zero x Hx) as Zx. rewrite bool_decide_false in Zx by done.
  destruct (ok_nonempty x Hx Zx) as [Nx _].
  assert (0 < kDigitBits) as Hkd by (destruct kDigitBits_cases; lia).
  apply wpI_call. eapply wp_mono; [by apply ToShiftAmount_spec|]. intros r ->. fold s.
  destruct (Z.ltb_spec kMaxLengthBits s) as [Hbig | Hle].
  { split; [done|]. unfold too_big. pose proof (pow_abs_mul_ge (toZ x) s Vx Hs).
    etransitivity; [|exact H1]. apply Z.pow_le_mono_r; lia. }
  assert (s / kDigitBits < 2 ^ 31) as Hint by (apply digit_shift_small; change kMaxLengthBits with (2 ^ 30) in Hle; lia).
  destruct (last_digit x Nx) as (top & Edig & Elast). apply wpI_call. rewrite Edig. apply wp_Ok.
  destruct (LeftShift_ResultLength_fits (digits_of x) top s (ok_digits x Hx) Elast Hs Hint) as (Hn0 & Hfit1 & Hfit2).
  fold (bi_length x) in Hn0, Hfit1, Hfit2. set (n := LeftShift_ResultLength (bi_length x) top s) in *.
  destruct (Z.ltb_spec kMaxLength n) as [Hlong | Hok].
  { split; [done|]. apply (shift_length_too_big x top s Hx Vx Hs Hint Elast Hlong). }
  apply wpI_New; [|lia]. intros _ d Hl Hd. apply wpI_call, wp_with_digits. cbn [digits_of].
  eapply wp_mono; [apply BitwiseLeftShift_spec; [apply Hx | done | done | by rewrite Hl | by rewrite Hl]|].
  intros d' (Hl' & Hd' & E). unfold set_sign. cbn [digits_of].
  pose proof (length_nonempty x Nx).
  eapply wpI_finish_digits; [done | exact Hl' | done | lia | left; lia |].
  rewrite E. unfold v, toZ, signed_val. destruct (sign x); lia.
Qed.

Lemma wp_RightShiftByMaximum x s (Q : BigInt -> Prop) :
  bigint_ok x -> 0 <= s -> Z.abs (toZ x) < 2 ^ s -> toZ x <> 0 ->
  (forall z, bigint_ok z -> toZ z = toZ x / 2 ^ s -> Q z) -> wp (RightShiftByMaximum (sign x)) Q.
Proof.
  intros Hx Hs Hlt Vx HQ. unfold RightShiftByMaximum.
  destruct (sign_cases x Hx) as [(Sx & _ & Px) | (Sx & _ & Px)]; rewrite Sx.
  - apply wp_BigInt_Zero. intros z Hz E. apply HQ; [done|]. rewrite E, Z.div_small; lia.
  - apply wp_NewFromInt; [lia|]. intros z Hz E. apply HQ; [done|]. rewrite E.
    apply Z.div_unique with (toZ x + 2 ^ s); lia.
Qed.

(** The floor of a negative quotient, on magnitudes. *)
Lemma neg_div_floor (a m : Z) : 0 < m -> - a / m = - (a / m + (if a mod m =? 0 then 0 else 1)).
Proof.
  intros Hm. pose proof (Z.div_mod a m ltac:(lia)) as E. pose proof (Z.mod_pos_bound a m Hm).
  symmetry. destruct (Z.eqb_spec (a mod m) 0).
  - apply Z.div_unique with 0; lia.
  - apply Z.div_unique with (m - a mod m); lia.
Qed.

Lemma wp_RightShiftByAbsolute x y (Q : BigInt -> Prop) :
  bigint_ok x -> bigint_ok y -> toZ x <> 0 -> toZ y <> 0 ->
  (forall z, bigint_ok z -> toZ z = toZ x / 2 ^ Z.abs (toZ y) -> Q z) -> wp (RightShiftByAbsolute x y) Q.
Proof.
  intros Hx Hy Vx Vy HQ. unfold RightShiftByAbsolute. set (s := Z.abs (toZ y)) in *.
  assert (0 <= s) as Hs by lia. pose proof (ok_max x Hx) as Hmax. pose proof (ok_length x Hx) as Lx.
  apply wp_bind. eapply wp_mono; [by apply ToShiftAmount_spec|]. intros r ->. fold s.
  destruct (Z.ltb_spec kMaxLengthBits s) as [Hbig | Hle].
  { apply (wp_RightShiftByMaximum x s); [exact Hx | exact Hs | | exact Vx | exact HQ].
    eapply Z.lt_le_trans; [exact Hmax|]. apply Z.pow_le_mono_r; lia. }
  assert (s / kDigitBits < 2 ^ 31) as Hint by (apply digit_shift_small; change kMaxLengthBits with (2 ^ 30) in Hle; lia).
  wp_apply (RightShift_ResultLength_spec (digits_of x) (sign x) s (ok_digits x Hx) Hs Hint).
  intros [len state] [Hlen Hstate]. set (ds := Z.to_nat (s / kDigitBits)) in *. fold (bi_length x) in *.
  assert (0 < kDigitBits) as Hkd by (destruct kDigitBits_cases; lia).
  assert (bpow ds <= 2 ^ s) as Hds.
  { rewrite bpow_bits. apply Z.pow_le_mono_r; [lia|]. unfold ds.
    rewrite Z2Nat.id by (by apply Z.div_pos). by apply Z.mul_div_le. }
  destruct (decide (ds < bi_length x)%nat) as [Hshort | Hlong].
  2: { destruct Hlen as [(_ & -> & _) | (? & _)]; [|lia]. apply wp_bind, wp_dcheck_decide; [lia|].
    rewrite bool_decide_true by done.
    apply (wp_RightShiftByMaximum x s); [exact Hx | exact Hs | | exact Vx | exact HQ].
    eapply Z.lt_le_trans; [apply (ok_upper x ds Hx); lia | exact Hds]. }
  clear Hmax. destruct Hlen as [(? & _) | (_ & Hlen)]; [lia|]. destruct (Hstate Hshort) as [Em Hfit].
  apply wp_bind, wp_dcheck_decide; [lia|]. rewrite bool_decide_false by lia.
  apply wp_bind, wp_New; [lia|]. intros d Hl Hd. apply wp_bind, wp_with_digits. cbn [digits_of sign].
  eapply wp_mono; [apply BitwiseRightShift_spec; [apply Hx | done | done | done | fold (bi_length x); lia | by rewrite Hl]|].
  intros d' (Hl' & Hd' & E). rewrite Em in E.
  assert (signed_val (sign x) (val d') = toZ x / 2 ^ s) as Ev.
  { rewrite E. destruct (sign_cases x Hx) as [(Sx & -> & _) | (Sx & -> & _)]; rewrite Sx; cbn [signed_val andb].
    - lia.
    - rewrite neg_div_floor by (apply Z.pow_pos_nonneg; lia). by destruct (_ =? 0). }
  unfold set_sign, MakeImmutable. cbn [digits_of].
  replace (if sign x then mkBigInt true d' else mkBigInt false d') with (mkBigInt (sign x) d') by (by destruct (sign x)).
  eapply wp_mono; [apply Canonicalize_spec; [done | lia | intros ->; simpl in *; lia]|].
  intros z [Hz Ez]. apply HQ; [exact Hz | congruence].
Qed.

Lemma shiftl_cases (a b : Z) : Z.shiftl a b = if b <? 0 then a / 2 ^ Z.abs b else a * 2 ^ Z.abs b.
Proof.
  destruct (Z.ltb_spec b 0).
  - rewrite <- (Z.opp_involutive b) at 1. rewrite Z.shiftl_opp_r, Z.shiftr_div_pow2 by lia. f_equal. f_equal. lia.
  - rewrite Z.shiftl_mul_pow2 by done. f_equal. f_equal. lia.
Qed.

(** Both shifts; a negative amount shifts the other way. *)
Lemma BigInt_LeftShift_spec x y p :
  bigint_ok x -> bigint_ok y -> status_ p = kOk ->
  wpP (BigInt_LeftShift x y) p (computes (Z.shiftl (toZ x) (toZ y)) (too_big (Z.shiftl (toZ x) (toZ y)))).
Proof.
  intros Hx Hy Hp. unfold BigInt_LeftShift. rewrite (ok_zero x Hx), (ok_zero y Hy).
  case_bool_decide as Zy; cbn [orb].
  { apply wpI_ret, computes_ret; [done | done|]. by rewrite Zy, Z.shiftl_0_r. }
  case_bool_decide as Zx; cbn [orb].
  { apply wpI_ret, computes_ret; [done | done|]. by rewrite Zx, Z.shiftl_0_l. }
  rewrite (sign_toZ y Hy Zy), shiftl_cases. destruct (toZ y <? 0).
  - apply wpI_call_ret, wp_RightShiftByAbsolute; [done | done | done | done |].
    intros z Hz E. by apply computes_ret.
  - by apply LeftShiftByAbsolute_spec.
Qed.

Lemma BigInt_SignedRightShift_spec x y p :
  bigint_ok x -> bigint_ok y -> status_ p = kOk ->
  wpP (BigInt_SignedRightShift x y) p (computes (Z.shiftr (toZ x) (toZ y)) (too_big (Z.shiftr (toZ x) (toZ y)))).
Proof.
  intros Hx Hy Hp. unfold BigInt_SignedRightShift. rewrite (ok_zero x Hx), (ok_zero y Hy).
  case_bool_decide as Zy; cbn [orb].
  { apply wpI_ret, computes_ret; [done | done|]. by rewrite Zy, Z.shiftr_0_r. }
  case_bool_decide as Zx; cbn [orb].
  { apply wpI_ret, computes_ret; [done | done|]. by rewrite Zx, Z.shiftr_0_l. }
  rewrite (sign_toZ y Hy Zy). rewrite <- (Z.opp_involutive (toZ y)) at 2 3. rewrite Z.shiftr_opp_r, shiftl_cases, Z.abs_opp.
  destruct (Z.ltb_spec (toZ y) 0), (Z.ltb_spec (- toZ y) 0); [lia | | | lia].
  - by apply LeftShiftByAbsolute_spec.
  - apply wpI_call_ret, wp_RightShiftByAbsolute; [done | done | done | done |].
    intros z Hz E. by apply computes_ret.
Qed.

(** ** Truncation *)

Lemma as_int_n_abs n v : 0 < n -> Z.abs v < 2 ^ (n - 1) -> as_int_n n v = v.
Proof. intros Hn Hv. apply as_int_n_small; [done | lia]. Qed.

Lemma div_ceil_max n : 0 < n <= kMaxLengthBits -> 0 < DIV_CEIL n kDigitBits <= kMaxLength.
Proof.
  intros Hn. destruct kMaxLength_bits as [E _]. unfold DIV_CEIL.
  assert (0 < kDigitBits) as Hkd by (destruct kDigitBits_cases; lia).
  pose proof (Z.div_pos (n - 1) kDigitBits ltac:(lia) Hkd).
  assert ((n - 1) / kDigitBits < kMaxLength) by (apply Z.div_lt_upper_bound; lia). lia.
Qed.

(** The value of [BigInt.asIntN(n, x)]. *)
Definition int_n (n v : Z) : Z := if n =? 0 then 0 else as_int_n n v.

Lemma BigInt_AsIntN_spec n x :
  bigint_ok x -> 0 <= n -> wp (BigInt_AsIntN n x) (fun z => bigint_ok z /\ toZ z = int_n n (toZ x)).
Proof.
  intros Hx Hn. unfold BigInt_AsIntN, int_n.
  destruct (is_zero x) eqn:Zx; cbn [orb].
  { apply wp_ret. split; [done|]. rewrite (ok_is_zero x Hx Zx). destruct (Z.eqb_spec n 0); [done|].
    rewrite as_int_n_abs; [done | lia | apply Z.pow_pos_nonneg; lia]. }
  destruct (ok_nonempty x Hx Zx) as [Nx Vx].
  destruct (Z.ltb_spec kMaxLengthBits n) as [Hbig | Hle].
  { apply wp_ret. split; [exact Hx|]. assert (0 < kMaxLengthBits) by done.
    destruct (Z.eqb_spec n 0); [lia|]. rewrite as_int_n_abs; [reflexivity | lia |].
    eapply Z.lt_le_trans; [apply (ok_max x Hx)|]. apply Z.pow_le_mono_r; lia. }
  destruct (Z.eqb_spec n 0) as [-> | Hn0].
  { apply wp_BigInt_Zero. by intros z Hz E. }
  pose proof (div_ceil_max n ltac:(lia)) as Hlen.
  pose proof (AsIntNResultLength_spec (digits_of x) (sign x) n (ok_digits x Hx) ltac:(lia)) as Hspec.
  apply wp_elim in Hspec as (l & El & Hspec). rewrite El. apply wp_bind, wp_Ok.
  destruct (Z.eqb_spec l (-1)) as [-> | Hl].
  { apply wp_ret. split; [exact Hx|]. destruct Hspec as [[_ E] | [E _]]; [unfold toZ; by rewrite E | lia]. }
  destruct Hspec as [[? _] | [-> _]]; [done|].
  apply wp_bind, wp_New; [lia|]. intros d Hld Hd. apply wp_bind, wp_with_signed. cbn [digits_of].
  eapply wp_mono; [apply AsIntN_spec; [apply Hx | done | lia |]|].
  { rewrite El. f_equal. lia. }
  intros [d' s] (Hl' & Hd' & E).
  eapply wp_mono; [apply Canonicalize_spec; [done | lia | intros ->; simpl in *; lia]|].
  intros z [Hz Ez]. split; [exact Hz | rewrite Ez; exact E].
Qed.

Lemma BigInt_AsUintN_spec n x p :
  bigint_ok x -> 0 <= n -> status_ p = kOk ->
  wpP (BigInt_AsUintN n x) p (computes (toZ x mod 2 ^ n) (kMaxLengthBits < n /\ toZ x < 0)).
Proof.
  intros Hx Hn Hp. unfold BigInt_AsUintN.
  assert (0 < 2 ^ n) as Hpow by (apply Z.pow_pos_nonneg; lia).
  destruct (is_zero x) eqn:Zx.
  { apply wpI_ret, computes_ret; [done | exact Hx|]. by rewrite (ok_is_zero x Hx Zx). }
  destruct (ok_nonempty x Hx Zx) as [Nx Vx].
  destruct (Z.eqb_spec n 0) as [-> | Hn0].
  { apply wpI_call_ret, wp_BigInt_Zero. intros z Hz E. apply computes_ret; [done | done|].
    rewrite E. symmetry. apply Z.mod_1_r. }
  destruct (sign_cases x Hx) as [(Sx & Ex & Px) | (Sx & Ex & Px)]; rewrite Sx.
  - destruct (Z.leb_spec kMaxLengthBits n) as [Hbig | Hle].
    { apply wpI_ret, computes_ret; [exact Hp | exact Hx|]. symmetry. apply Z.mod_small. split; [exact Px|].
      pose proof (ok_max x Hx) as Hm. rewrite Z.abs_eq in Hm by exact Px.
      eapply Z.lt_le_trans; [exact Hm|]. apply Z.pow_le_mono_r; lia. }
    pose proof (div_ceil_max n ltac:(lia)) as Hlen.
    pose proof (AsUintN_Pos_ResultLength_spec (digits_of x) n (ok_digits x Hx) ltac:(lia)) as Hspec.
    apply wp_elim in Hspec as (l & El & Hspec). rewrite El. apply wpI_call, wp_Ok.
    destruct (Z.ltb_spec l 0) as [Hl | Hl].
    { apply wpI_ret, computes_ret; [exact Hp | exact Hx|]. rewrite Ex. destruct Hspec as [[_ E] | [E _]]; [by rewrite E | lia]. }
    destruct Hspec as [[? _] | [-> _]]; [lia|].
    apply wpI_call, wp_New; [lia|]. intros d Hld Hd. apply wpI_call, wp_with_digits. cbn [digits_of sign].
    eapply wp_mono; [apply AsUintN_Pos_spec; [apply Hx | lia | rewrite El; f_equal; lia]|].
    intros d' (Hl' & Hd' & E). apply wpI_call, wp_dcheck; [done|].
    eapply wpI_finish_digits; [exact Hp | exact Hl' | done | lia | by right | rewrite Ex; exact E].
  - destruct (Z.ltb_spec kMaxLengthBits n) as [Hbig | Hle]; [by split; [|split]|].
    assert (AsUintN_Neg_ResultLength n = Z.to_nat (DIV_CEIL n kDigitBits)) as El by done.
    pose proof (div_ceil_max n ltac:(lia)) as Hlen.
    apply wpI_call, wp_New; [lia|]. intros d Hld Hd. apply wpI_call, wp_with_digits. cbn [digits_of sign].
    eapply wp_mono; [apply AsUintN_Neg_spec; [apply Hx | lia | done]|].
    intros d' (Hl' & Hd' & E). apply wpI_call, wp_dcheck; [done|].
    eapply wpI_finish_digits; [exact Hp | exact Hl' | done | lia | by right | rewrite Ex; exact E].
Qed.
End bigint_bits.
