(* ===== verification/BigIntWords.v ===== *)
(** Conversions between BigInt objects and machine words, arrays of 64-bit words and
    serialized bytes ([src/objects/bigint.cc]), on a little-endian target. *)

From Stdlib Require Import ZArith Lia.
From stdpp Require Import base tactics numbers list option.
From S2P Require Import Prelude Double BitField Digit Digits VectorArithmetic Processor MulSchoolbook MulKaratsuba Division BigIntObject BigIntSpec BigIntArith BigIntBits.

#[local] Open Scope Z_scope.

Section bigint_words.
Context `{Config, Platform}.
Context {alloc : Allocator}.
Implicit Types x y z : BigInt.

(** [static_cast<int64_t>(v)]. *)
Definition int64 (v : Z) : Z := let m := uint64 v in if m <? 2 ^ 63 then m else m - 2 ^ 64.

(** ** 64-bit words *)

Definition set_64_bits (x : BigInt) (bits : Z) : res BigInt :=
  if kDigitBits =? 64 then set_digit x 0 (wrap bits)
  else
    x ← set_digit x 0 (wrap (Z.land bits (2 ^ 32 - 1)));
    set_digit x 1 (wrap (Z.shiftr bits 32)).

Definition FromInt64 (n : Z) : res BigInt :=
  if n =? 0 then BigInt_Zero
  else
    let length := Z.to_nat (64 / kDigitBits) in
    let sign := n <? 0 in
    let result := NewBigInt sign length in
    let absolute :=
      if negb sign then uint64 n
      else if n =? - 2 ^ 63 then uint64 (2 ^ 63 - 1) + 1
      else uint64 (- n) in
    result ← set_64_bits result absolute;
    MakeImmutable result.

Definition FromUint64 (n : Z) : res BigInt :=
  if n =? 0 then BigInt_Zero
  else
    let length := Z.to_nat (64 / kDigitBits) in
    let result := NewBigInt false length in
    result ← set_64_bits result n;
    MakeImmutable result.

(** The bits and [*lossless]. *)
Definition GetRawBits (x : BigInt) : res (Z * bool) :=
  if is_zero x then mret (0, true)
  else
    let len := bi_length x in
    let lossless := negb (64 / kDigitBits <? Z.of_nat len) in
    d0 ← digit x 0;
    raw ←
      (if (kDigitBits =? 32) && bool_decide (1 < len)%nat then
         d1 ← digit x 1; mret (Z.lor d0 (uint64 (Z.shiftl d1 32)))
       else mret d0);
    mret (if sign x then uint64 (uint64 (Z.lnot raw) + 1) else raw, lossless).

Definition AsInt64 (x : BigInt) : res (Z * bool) :=
  '(raw, lossless) ← GetRawBits x;
  let result := int64 raw in
  mret (result, if xorb (result <? 0) (sign x) then false else lossless).

Definition AsUint64 (x : BigInt) : res (Z * bool) :=
  '(result, lossless) ← GetRawBits x;
  mret (result, if sign x then false else lossless).

(** ** Arrays of words *)

Definition word (words : list Z) (i : nat) : res Z :=
  match words !! i with Some w => Ok w | None => Err OutOfBounds end.

(** The loops that fill the digits from the words. *)
Definition digits_from_words (words : list Z) (result : BigInt) : res BigInt :=
  let length := bi_length result in
  if kDigitBits =? 64 then
    for_loop length 0 (fun i result => w ← word words i; set_digit result i (wrap w)) result
  else
    for_loop (Nat.div2 (length + 1)) 0 (fun k result =>
      let i := (2 * k)%nat in
      w ← word words k;
      let lo := wrap w in
      let hi := wrap (Z.shiftr w 32) in
      result ← set_digit result i lo;
      if bool_decide (i + 1 < length)%nat then set_digit result (i + 1) hi else mret result) result.

Definition FromWords64 (sign_bit : bool) (words64_count : Z) (words : list Z) : IM BigInt :=
  if (words64_count <? 0) || (kMaxLength / (64 / kDigitBits) <? words64_count) then throw kBigIntTooBig
  else if words64_count =? 0 then call BigInt_Zero
  else
    let length := 64 / kDigitBits * words64_count in
    call (dcheck (0 <? length));;
    last_word ← call (word words (Z.to_nat (words64_count - 1)));
    let length := if (kDigitBits =? 32) && (last_word <=? Z.shiftl 1 32) then length - 1 else length in
    result ← ToHandle (MutableBigInt_New (Z.to_nat length));
    let result := set_sign result sign_bit in
    result ← call (digits_from_words words result);
    call (MakeImmutable result).

Definition Words64Count (x : BigInt) : Z :=
  Z.of_nat (bi_length x) / (64 / kDigitBits) +
  (if (kDigitBits =? 32) && (Z.of_nat (bi_length x) mod 2 =? 1) then 1 else 0).

(** The sign, the number of words the value has, and the buffer [words], of which
    [available_words] may be written. *)
Definition ToWordsArray64 (x : BigInt) (available_words : nat) (words : list Z)
    : res (bool * Z * list Z) :=
  let sign_bit := sign x in
  let words64_count := Words64Count x in
  if bool_decide (available_words = 0)%nat then mret (sign_bit, words64_count, words)
  else
    let len := bi_length x in
    words ←
      (if kDigitBits =? 64 then
         for_loop (len `min` available_words) 0 (fun i words =>
           d ← digit x i;
           if bool_decide (i < length words)%nat then mret (<[i := d]> words) else Err OutOfBounds) words
       else
         for_loop (Nat.div2 (len + 1) `min` available_words) 0 (fun k words =>
           let i := (2 * k)%nat in
           lo ← digit x i;
           hi ← (if bool_decide (i + 1 < len)%nat then digit x (i + 1) else mret 0);
           if bool_decide (k < length words)%nat
           then mret (<[k := Z.lor lo (uint64 (Z.shiftl hi 32))]> words) else Err OutOfBounds) words);
    mret (sign_bit, words64_count, words).

(** ** Serialization *)

Definition SignBits : BitField := mkBitField 0 1 32.
Definition LengthBits : BitField := Next SignBits 30.
Definition kDigitSize : Z := kDigitBits / 8.

Definition GetBitfieldForSerialization (x : BigInt) : res Z :=
  let bytelength := Z.of_nat (bi_length x) * kDigitSize in
  s ← encode SignBits (if sign x then 1 else 0);
  l ← encode LengthBits bytelength;
  mret (Z.lor s l).

Definition DigitsByteLengthForBitfield (bitfield : Z) : Z := decode LengthBits bitfield.

(** The bytes of a digit in memory, least significant first, and back. *)
Fixpoint digit_bytes (n : nat) (d : Z) : list Z :=
  match n with O => [] | S n => d mod 256 :: digit_bytes n (d / 256) end.

Fixpoint bytes_value (bytes : list Z) : Z :=
  match bytes with [] => 0 | b :: bytes => b + 256 * bytes_value bytes end.

(** [memcpy(storage, digits, bytelength)]. *)
Definition SerializeDigits (x : BigInt) : list Z :=
  flat_map (digit_bytes (Z.to_nat kDigitSize)) (digits_of x).

(** [memcpy(digits, storage, ...)]: [n] digits, read from the bytes. *)
Fixpoint digits_from_bytes (n : nat) (bytes : list Z) : digits :=
  match n with
  | O => []
  | S n => bytes_value (take (Z.to_nat kDigitSize) bytes) ::
      digits_from_bytes n (drop (Z.to_nat kDigitSize) bytes)
  end.

(** An empty result stands for rejected data; a length that [NewBigInt] refuses is a fatal
    error.  This is the branch for little-endian targets. *)
Definition FromSerializedDigits (bitfield : Z) (digits_storage : list Z) : res (option BigInt) :=
  let bytelength := decode LengthBits bitfield in
  dcheck (Z.of_nat (length digits_storage) =? bytelength);;
  let sign := negb (decode SignBits bitfield =? 0) in
  let length := Z.to_nat ((bytelength + kDigitSize - 1) / kDigitSize) in
  if bool_decide (length = 0)%nat && sign then mret None
  else
    dcheck (Z.of_nat length <=? kMaxLength);;
    let padding := replicate (Z.to_nat (Z.of_nat length * kDigitSize - bytelength)) 0 in
    let result := mkBigInt sign (digits_from_bytes length (digits_storage ++ padding)) in
    result ← MakeImmutable result;
    mret (Some result).

(** ** 64-bit words *)

Lemma digit_base_cases : (kDigitBits = 32 /\ digit_base = 2 ^ 32) \/ (kDigitBits = 64 /\ digit_base = 2 ^ 64).
Proof. unfold digit_base. destruct kDigitBits_cases as [-> | ->]; [left | right]; done. Qed.

Lemma wp_fresh_64 s bits (Q : BigInt -> Prop) :
  0 <= bits < 2 ^ 64 -> (forall z, bigint_ok z -> toZ z = signed_val s bits -> Q z) ->
  wp (result ← set_64_bits (NewBigInt s (Z.to_nat (64 / kDigitBits))) bits; MakeImmutable result) Q.
Proof.
  intros Hb HQ. destruct kMaxLength_bits as [_ Hk].
  assert (forall d, digits_ok d -> (0 < length d <= 2)%nat -> val d = bits -> wp (MakeImmutable (mkBigInt s d)) Q) as Hfin.
  { intros d Hd Hl E. eapply wp_mono; [apply Canonicalize_spec; [done | lia | intros ->; simpl in *; lia]|].
    intros z [Hz Ez]. apply HQ; [done|]. by rewrite Ez, E. }
  unfold set_64_bits, NewBigInt, set_digit.
  destruct digit_base_cases as [[-> Eb] | [-> Eb]].
  - replace (32 =? 64) with false by done. replace (Z.to_nat (64 / 32)) with 2%nat by done. pose proof (length_uninitialized 2) as Hl.
    destruct (uninitialized 2) as [|u0 [|u1 [|u2 u]]]; [discriminate Hl | discriminate Hl | | discriminate Hl]. cbn [digits_of sign].
    apply wp_bind, wp_bind, wp_bind, wp_wr; [simpl; lia|]. apply wp_ret, wp_bind, wp_wr; [simpl; lia|]. apply wp_ret.
    cbn [insert list_insert digits_of sign].
    change (2 ^ 32 - 1) with (Z.ones 32). rewrite Z.land_ones, Z.shiftr_div_pow2 by lia.
    pose proof (Z.mod_pos_bound bits (2 ^ 32) ltac:(lia)). pose proof (Z.div_mod bits (2 ^ 32) ltac:(lia)).
    assert (0 <= bits / 2 ^ 32 < 2 ^ 32) by (split; [apply Z.div_pos; lia | apply Z.div_lt_upper_bound; lia]).
    rewrite !wrap_small by (unfold is_digit; rewrite Eb; lia).
    apply Hfin; [|simpl; lia|cbn [val]; rewrite Eb; lia].
    apply Forall_cons_2; [|apply digits_ok_single]; unfold is_digit; rewrite Eb; lia.
  - replace (64 =? 64) with true by done. replace (Z.to_nat (64 / 64)) with 1%nat by done. pose proof (length_uninitialized 1) as Hl.
    destruct (uninitialized 1) as [|u0 [|u1 u]]; [discriminate Hl | | discriminate Hl]. cbn [digits_of sign].
    apply wp_bind, wp_bind, wp_wr; [simpl; lia|]. apply wp_ret. cbn [insert list_insert].
    rewrite wrap_small by (unfold is_digit; rewrite Eb; lia).
    apply Hfin; [|simpl; lia | cbn [val]; lia]. apply digits_ok_single. unfold is_digit. rewrite Eb. lia.
Qed.

Lemma wp_FromInt64 n (Q : BigInt -> Prop) :
  - 2 ^ 63 <= n < 2 ^ 63 -> (forall z, bigint_ok z -> toZ z = n -> Q z) -> wp (FromInt64 n) Q.
Proof.
  intros Hn HQ. unfold FromInt64. destruct (Z.eqb_spec n 0) as [-> | Hn0]; [by apply wp_BigInt_Zero|].
  set (absolute := if negb (n <? 0) then _ else _).
  assert (absolute = Z.abs n) as ->.
  { unfold absolute, uint64. destruct (Z.ltb_spec n 0); cbn [negb].
    - destruct (Z.eqb_spec n (- 2 ^ 63)) as [-> | ?]; [done|]. rewrite Z.mod_small; lia.
    - rewrite Z.mod_small; lia. }
  apply wp_fresh_64; [lia|]. intros z Hz E. apply HQ; [done|]. rewrite E.
  destruct (Z.ltb_spec n 0); cbn [signed_val]; lia.
Qed.

Lemma wp_FromUint64 n (Q : BigInt -> Prop) :
  0 <= n < 2 ^ 64 -> (forall z, bigint_ok z -> toZ z = n -> Q z) -> wp (FromUint64 n) Q.
Proof.
  intros Hn HQ. unfold FromUint64. destruct (Z.eqb_spec n 0) as [-> | Hn0]; [by apply wp_BigInt_Zero|].
  by apply wp_fresh_64.
Qed.

(** The low 64 bits of the magnitude. *)
Lemma raw_magnitude x :
  bigint_ok x -> is_zero x = false ->
  wp (d0 ← digit x 0;
      (if (kDigitBits =? 32) && bool_decide (1 < bi_length x)%nat then
         d1 ← digit x 1; mret (Z.lor d0 (uint64 (Z.shiftl d1 32)))
       else mret d0)) (fun raw => raw = Z.abs (toZ x) mod 2 ^ 64).
Proof.
  intros Hx Zx. destruct (ok_nonempty x Hx Zx) as [Nx _]. rewrite (toZ_abs x Hx). pose proof (ok_digits x Hx) as HX.
  unfold digit, bi_length, rd. destruct (digits_of x) as [|d0 X]; [done|]. apply Forall_cons_1 in HX as [Hd0 HX].
  cbn [lookup list_lookup length val]. apply wp_bind, wp_Ok. unfold is_digit in Hd0.
  pose proof (val_nonneg X HX).
  destruct digit_base_cases as [[-> Eb] | [-> Eb]]; cbn [Z.eqb Pos.eqb andb]; rewrite Eb in *.
  2: { apply wp_ret. symmetry. apply mod_eq_of_bounds; [done|]. exists (val X). lia. }
  case_bool_decide as Hl.
  2: { destruct X; [|simpl in Hl; lia]. apply wp_ret. cbn [val]. symmetry. rewrite Z.mod_small; lia. }
  destruct X as [|d1 X]; [simpl in Hl; lia|]. apply Forall_cons_1 in HX as [Hd1 HX]. unfold is_digit in Hd1. rewrite Eb in Hd1.
  cbn [lookup list_lookup val]. apply wp_bind, wp_Ok, wp_ret. unfold uint64. rewrite Z.shiftl_mul_pow2 by lia.
  rewrite Z.mod_small by lia. rewrite Z.lor_comm, lor_shiftl_add by lia. rewrite Eb. symmetry.
  apply mod_eq_of_bounds; [lia|]. exists (val X). lia.
Qed.

Lemma neg_mod64 raw : 0 <= raw < 2 ^ 64 -> uint64 (uint64 (Z.lnot raw) + 1) = (- raw) mod 2 ^ 64.
Proof. intros Hr. unfold uint64. rewrite Zplus_mod_idemp_l. f_equal. unfold Z.lnot. lia. Qed.

Lemma GetRawBits_spec x :
  bigint_ok x -> wp (GetRawBits x) (fun '(raw, lossless) =>
    raw = toZ x mod 2 ^ 64 /\ lossless = (Z.abs (toZ x) <? 2 ^ 64)).
Proof.
  intros Hx. unfold GetRawBits. destruct (is_zero x) eqn:Zx.
  { apply wp_ret. by rewrite (ok_is_zero x Hx Zx). }
  pose proof (raw_magnitude x Hx Zx) as Hraw.
  assert (negb (64 / kDigitBits <? Z.of_nat (bi_length x)) = (Z.abs (toZ x) <? 2 ^ 64)) as ->.
  { assert (bpow (Z.to_nat (64 / kDigitBits)) = 2 ^ 64) as Ep.
    { rewrite bpow_bits. destruct kDigitBits_cases as [-> | ->]; done. }
    assert (64 / kDigitBits = 2 \/ 64 / kDigitBits = 1) as Hq
      by (destruct kDigitBits_cases as [-> | ->]; [left | right]; done).
    destruct (Z.ltb_spec (64 / kDigitBits) (Z.of_nat (bi_length x))); cbn [negb]; symmetry.
    - apply Z.ltb_ge. rewrite <- Ep. apply ok_lower; [done | lia].
    - apply Z.ltb_lt. rewrite <- Ep. apply ok_upper; [done | lia]. }
  apply wp_bind. apply wp_elim in Hraw as (raw & Hm & ->).
  destruct (digit x 0) as [d0|] eqn:E0; [|by cbn in Hm]. cbn in Hm. apply wp_Ok, wp_bind. rewrite Hm. apply wp_Ok, wp_ret.
  split; [|done]. pose proof (Z.mod_pos_bound (Z.abs (toZ x)) (2 ^ 64) ltac:(lia)).
  destruct (sign_cases x Hx) as [(-> & _ & Px) | (-> & _ & Px)].
  - by rewrite Z.abs_eq.
  - rewrite neg_mod64 by done. replace (toZ x) with (- Z.abs (toZ x)) at 2 by lia.
    apply Z.bits_inj'. intros i Hi. f_equal. rewrite <- !Z.sub_0_l. by rewrite Zminus_mod_idemp_r.
Qed.

Lemma AsInt64_spec x :
  bigint_ok x -> wp (AsInt64 x) (fun '(r, lossless) =>
    r = int64 (toZ x) /\ lossless = ((- 2 ^ 63 <=? toZ x) && (toZ x <? 2 ^ 63))).
Proof.
  intros Hx. unfold AsInt64. wp_apply GetRawBits_spec; [done|]. intros [raw l] [-> ->]. apply wp_ret.
  assert (int64 (toZ x mod 2 ^ 64) = int64 (toZ x)) as -> by (unfold int64, uint64; by rewrite Z.mod_mod).
  split; [done|]. unfold int64, uint64. pose proof (Z.mod_pos_bound (toZ x) (2 ^ 64) ltac:(lia)) as Hm.
  pose proof (Z.div_mod (toZ x) (2 ^ 64) ltac:(lia)) as E.
  set (m := toZ x mod 2 ^ 64) in *. set (q := toZ x / 2 ^ 64) in *.
  destruct (sign_cases x Hx) as [(-> & _ & Px) | (-> & _ & Px)];
    destruct (Z.ltb_spec m (2 ^ 63)), (Z.leb_spec (- 2 ^ 63) (toZ x)), (Z.ltb_spec (toZ x) (2 ^ 63)),
      (Z.ltb_spec (Z.abs (toZ x)) (2 ^ 64)); cbn [andb];
    first [destruct (Z.ltb_spec m 0) | idtac]; first [destruct (Z.ltb_spec (m - 2 ^ 64) 0) | idtac]; cbn [xorb]; (done || lia).
Qed.

Lemma AsUint64_spec x :
  bigint_ok x -> wp (AsUint64 x) (fun '(r, lossless) =>
    r = toZ x mod 2 ^ 64 /\ lossless = ((0 <=? toZ x) && (toZ x <? 2 ^ 64))).
Proof.
  intros Hx. unfold AsUint64. wp_apply GetRawBits_spec; [done|]. intros [raw l] [-> ->]. apply wp_ret. split; [done|].
  destruct (sign_cases x Hx) as [(-> & _ & Px) | (-> & _ & Px)].
  - rewrite Z.abs_eq by done. by rewrite (proj2 (Z.leb_le _ _) Px).
  - by rewrite (proj2 (Z.leb_gt _ _) Px).
Qed.

(** ** Arrays of words *)

Definition is_word (w : Z) : Prop := 0 <= w < 2 ^ 64.

Fixpoint val64 (words : list Z) : Z :=
  match words with [] => 0 | w :: words => w + 2 ^ 64 * val64 words end.

(** The digits of a word, least significant first. *)
Definition word_digits (w : Z) : digits :=
  if kDigitBits =? 64 then [w] else [w mod 2 ^ 32; w / 2 ^ 32].

Definition words_digits (words : list Z) : digits := flat_map word_digits words.

Lemma word_digits_val w X : is_word w -> val (word_digits w ++ X) = w + 2 ^ 64 * val X.
Proof.
  intros Hw. unfold word_digits, is_word in *. destruct digit_base_cases as [[-> Eb] | [-> Eb]]; cbn [Z.eqb Pos.eqb app val].
  - rewrite Eb. pose proof (Z.div_mod w (2 ^ 32) ltac:(lia)). lia.
  - by rewrite Eb.
Qed.

Lemma word_digits_ok w : is_word w -> digits_ok (word_digits w).
Proof.
  intros Hw. unfold word_digits, is_word in *. destruct digit_base_cases as [[-> Eb] | [-> Eb]]; cbn [Z.eqb Pos.eqb].
  - pose proof (Z.mod_pos_bound w (2 ^ 32) ltac:(lia)).
    assert (0 <= w / 2 ^ 32 < 2 ^ 32) by (split; [apply Z.div_pos; lia | apply Z.div_lt_upper_bound; lia]).
    apply Forall_cons_2; [|apply digits_ok_single]; unfold is_digit; rewrite Eb; lia.
  - apply digits_ok_single. unfold is_digit. by rewrite Eb.
Qed.

Lemma words_digits_ok words : Forall is_word words -> digits_ok (words_digits words).
Proof.
  induction words as [|w words IH]; cbn; intros Hw; [constructor|]. apply Forall_cons_1 in Hw as [Hw Hws].
  apply Forall_app. split; [by apply word_digits_ok | by apply IH].
Qed.

Lemma words_digits_val words : Forall is_word words -> val (words_digits words) = val64 words.
Proof.
  induction words as [|w words IH]; cbn [words_digits flat_map val64]; intros Hw; [done|].
  apply Forall_cons_1 in Hw as [Hw Hws]. fold (words_digits words). by rewrite word_digits_val, IH.
Qed.

Lemma length_words_digits words : length (words_digits words) = (Z.to_nat (64 / kDigitBits) * length words)%nat.
Proof.
  unfold words_digits, word_digits. induction words as [|w words IH]; cbn [flat_map length]; [lia|].
  rewrite length_app, IH. destruct digit_base_cases as [[-> _] | [-> _]]; cbn [Z.eqb Pos.eqb length];
    [change (Z.to_nat (64 / 32)) with 2%nat | change (Z.to_nat (64 / 64)) with 1%nat]; lia.
Qed.

Lemma words_digits_take_S words k w :
  words !! k = Some w -> words_digits (take (S k) words) = words_digits (take k words) ++ word_digits w.
Proof.
  intros Hk. unfold words_digits. rewrite (take_S_r _ _ _ Hk), flat_map_app. cbn [flat_map]. by rewrite app_nil_r.
Qed.

(** One digit more: [P] is what the loop has written. *)
Lemma wp_set_digit s P R n (v : Z) (Q : BigInt -> Prop) :
  length P = n -> (0 < length R)%nat -> Q (mkBigInt s ((P ++ [v]) ++ drop 1 R)) ->
  wp (set_digit (mkBigInt s (P ++ R)) n v) Q.
Proof.
  intros Hn HR HQ. destruct R as [|r R]; [simpl in HR; lia|]. unfold set_digit. cbn [digits_of sign].
  apply wp_bind, wp_wr; [rewrite length_app; simpl; lia|]. apply wp_ret. rewrite (insert_snoc P R r v n Hn). done.
Qed.

Lemma digits_from_words_spec words s d (Q : BigInt -> Prop) :
  Forall is_word words ->
  (length d = length (words_digits words) \/ kDigitBits = 32 /\ S (length d) = length (words_digits words)) ->
  Q (mkBigInt s (take (length d) (words_digits words))) ->
  wp (digits_from_words words (mkBigInt s d)) Q.
Proof.
  intros Hw Hl HQ. rewrite length_words_digits in Hl. unfold digits_from_words, bi_length. cbn [digits_of].
  assert (forall k, (k < length words)%nat -> exists w, words !! k = Some w /\ is_word w) as Hlook.
  { intros k Hk. destruct (lookup_lt_is_Some_2 words k Hk) as [w Ew]. exists w. split; [done|].
    by eapply Forall_lookup_1. }
  destruct digit_base_cases as [[Ek Eb] | [Ek Eb]]; rewrite Ek in *; cbn [Z.eqb Pos.eqb].
  - change (Z.to_nat (64 / 32)) with 2%nat in Hl. set (len := length d) in *. set (n := Nat.div2 (len + 1)).
    assert (n = length words /\ (2 * n = len \/ 2 * n = len + 1)%nat) as [En En2].
    { pose proof (Nat.div2_odd (len + 1)) as Ho. fold n in Ho. destruct (Nat.odd (len + 1)); cbn [Nat.b2n] in Ho; lia. }
    eapply wp_mono.
    { apply (wp_for_loop (fun k r => r = mkBigInt s (take len (words_digits (take k words)) ++ drop (2 * k) d))).
      - rewrite take_0. cbn [words_digits flat_map]. by rewrite take_nil.
      - intros k r Hk ->. destruct (Hlook k ltac:(lia)) as (w & Ew & Hww). unfold word. rewrite Ew. apply wp_bind, wp_Ok.
        set (P := words_digits (take k words)).
        assert (length P = 2 * k)%nat as HlP.
        { unfold P. rewrite length_words_digits, length_take, Ek. change (Z.to_nat (64 / 32)) with 2%nat. lia. }
        rewrite (take_ge P) by lia. rewrite (words_digits_take_S _ _ _ Ew). fold P.
        assert (word_digits w = [wrap w; wrap (Z.shiftr w 32)]) as ->.
        { unfold word_digits. rewrite Ek. cbn [Z.eqb Pos.eqb]. unfold wrap. rewrite Eb, Z.shiftr_div_pow2 by lia.
          unfold is_word in Hww. f_equal. f_equal. symmetry. apply Z.mod_small.
          split; [apply Z.div_pos; lia | apply Z.div_lt_upper_bound; lia]. }
        apply wp_bind, wp_set_digit; [done | rewrite length_drop; lia |]. rewrite drop_drop.
        replace (2 * k + 1)%nat with (S (2 * k)) by lia. case_bool_decide as Hb.
        + apply wp_set_digit; [rewrite length_app, HlP; simpl; lia | rewrite length_drop; lia |].
          rewrite drop_drop. rewrite take_ge by (rewrite length_app; simpl; lia).
          replace ((P ++ [wrap w]) ++ [wrap (Z.shiftr w 32)]) with (P ++ [wrap w; wrap (Z.shiftr w 32)])
            by (by rewrite <- app_assoc).
          by replace (S (2 * k) + 1)%nat with (2 * S k)%nat by lia.
        + apply wp_ret. assert (len = S (2 * k)) as El by lia.
          replace (P ++ [wrap w; wrap (Z.shiftr w 32)]) with ((P ++ [wrap w]) ++ [wrap (Z.shiftr w 32)])
            by (by rewrite <- app_assoc).
          rewrite (take_app_le (P ++ [wrap w])) by (rewrite length_app; simpl; lia).
          rewrite (take_ge (P ++ [wrap w])) by (rewrite length_app; simpl; lia).
          rewrite !drop_ge by (unfold len in *; lia). done. }
    intros r ->. rewrite Nat.add_0_l, En, (take_ge words) by lia. rewrite drop_ge, app_nil_r by (unfold len in *; lia). done.
  - change (Z.to_nat (64 / 64)) with 1%nat in Hl. assert (length d = length words) as El by (destruct Hl as [? | [? _]]; lia).
    eapply wp_mono.
    { apply (wp_for_loop (fun k r => r = mkBigInt s (words_digits (take k words) ++ drop k d))).
      - done.
      - intros k r Hk ->. destruct (Hlook k ltac:(lia)) as (w & Ew & Hww). unfold word. rewrite Ew. apply wp_bind, wp_Ok.
        set (P := words_digits (take k words)).
        assert (length P = k) as HlP.
        { unfold P. rewrite length_words_digits, length_take, Ek. change (Z.to_nat (64 / 64)) with 1%nat. lia. }
        apply wp_set_digit; [done | rewrite length_drop; lia |]. rewrite drop_drop, (words_digits_take_S _ _ _ Ew). fold P.
        assert (word_digits w = [wrap w]) as ->.
        { unfold word_digits. rewrite Ek. cbn [Z.eqb Pos.eqb]. rewrite wrap_small; [done|]. unfold is_digit. by rewrite Eb. }
        by replace (k + 1)%nat with (S k) by lia. }
    intros r ->. rewrite Nat.add_0_l, El, (take_ge words) by lia. rewrite drop_ge, app_nil_r by lia.
    rewrite take_ge in HQ; [done|]. rewrite length_words_digits, Ek. change (Z.to_nat (64 / 64)) with 1%nat. lia.
Qed.

Lemma words_per_digit :
  (kDigitBits = 32 /\ 64 / kDigitBits = 2 /\ Z.to_nat (64 / kDigitBits) = 2%nat) \/
  (kDigitBits = 64 /\ 64 / kDigitBits = 1 /\ Z.to_nat (64 / kDigitBits) = 1%nat).
Proof. destruct kDigitBits_cases as [-> | ->]; [left | right]; done. Qed.

(** All words are converted, except that on a 32-bit target a last word of exactly
    [2 ^ 32] loses its upper half. *)
(** The magnitude [FromWords64] keeps: with 32-bit digits it drops the top digit of the last
    word [2^32]. *)
Definition kept_value (words : list Z) : Z :=
  if (kDigitBits =? 32) && bool_decide (list.last words = Some (2 ^ 32))
  then val64 words - 2 ^ (64 * Z.of_nat (length words) - 32) else val64 words.

(** Dropping the top digit of a last word that is at most [2^32]. *)
Lemma front_value words ws w n :
  Forall is_word words -> words = ws ++ [w] -> w <= 2 ^ 32 -> kDigitBits = 32 ->
  S n = length (words_digits words) ->
  val (take n (words_digits words)) =
    if bool_decide (Some w = Some (2 ^ 32)) then val64 words - 2 ^ (64 * Z.of_nat (length words) - 32) else val64 words.
Proof.
  intros Hw Ews Hle Ek Hn. rewrite <- (words_digits_val words Hw). pose proof (length_words_digits words) as LD.
  destruct words_per_digit as [(_ & _ & E2') | (? & _)]; [|lia]. rewrite E2' in LD.
  assert (is_word w) as Hww by (rewrite Ews in Hw; by apply Forall_app in Hw as [_ ?%Forall_inv]). unfold is_word in Hww.
  assert (words_digits words = (words_digits ws ++ [w mod 2 ^ 32]) ++ [w / 2 ^ 32]) as Esplit.
  { rewrite Ews. unfold words_digits. rewrite flat_map_app. cbn [flat_map]. rewrite app_nil_r, <- app_assoc.
    f_equal. unfold word_digits. by rewrite Ek. }
  assert (length (words_digits ws ++ [w mod 2 ^ 32]) = n) as Hlf.
  { rewrite Esplit, length_app in Hn. simpl in Hn. lia. }
  rewrite Esplit, take_app_length' by done. rewrite (val_snoc (_ ++ [_])), Hlf. case_bool_decide as Ew.
  - injection Ew as ->. change (2 ^ 32 / 2 ^ 32) with 1. rewrite bpow_bits, Ek.
    replace (32 * Z.of_nat n) with (64 * Z.of_nat (length words) - 32) by lia. lia.
  - assert (w <> 2 ^ 32) by congruence. rewrite Z.div_small by lia. lia.
Qed.

Lemma FromWords64_spec s words p :
  Forall is_word words -> Z.of_nat (length words) <= kMaxLength / (64 / kDigitBits) -> status_ p = kOk ->
  wpP (FromWords64 s (Z.of_nat (length words)) words) p (computes (signed_val s (kept_value words)) False).
Proof.
  intros Hw Hl Hp. unfold FromWords64.
  destruct (Z.ltb_spec (Z.of_nat (length words)) 0); [lia|].
  destruct (Z.ltb_spec (kMaxLength / (64 / kDigitBits)) (Z.of_nat (length words))); [lia|]. cbn [orb].
  destruct (Z.eqb_spec (Z.of_nat (length words)) 0) as [E0 | Hne].
  { destruct words; [|simpl in E0; lia]. apply wpI_call_ret, wp_BigInt_Zero. intros z Hz E.
    apply computes_ret; [done | done|]. rewrite E. unfold kept_value. rewrite andb_false_r. by destruct s. }
  pose proof (words_digits_ok words Hw) as HD. pose proof (words_digits_val words Hw) as VD.
  pose proof (length_words_digits words) as LD.
  assert (words <> []) as Hnil by (by intros ->). destruct (exists_last Hnil) as (ws & w & Ews).
  assert (list.last words = Some w) as Ew by (by rewrite Ews, last_snoc).
  assert (is_word w) as Hww by (rewrite Ews in Hw; by apply Forall_app in Hw as [_ ?%Forall_inv]).
  assert (word words (Z.to_nat (Z.of_nat (length words) - 1)) = Ok w) as Eword.
  { unfold word. rewrite last_lookup in Ew. replace (Z.to_nat _) with (Nat.pred (length words)) by lia. by rewrite Ew. }
  assert (Z.of_nat (length (words_digits words)) <= kMaxLength) as Hmax.
  { rewrite LD. destruct words_per_digit as [(_ & E2 & ->) | (_ & E2 & ->)]; rewrite E2 in Hl.
    - assert (2 * (kMaxLength / 2) <= kMaxLength) by (apply Z.mul_div_le; lia). lia.
    - rewrite Z.div_1_r in Hl. lia. }
  apply wpI_call, wp_dcheck.
  { apply Z.ltb_lt. destruct words_per_digit as [(_ & -> & _) | (_ & -> & _)]; lia. }
  apply wpI_call. rewrite Eword. apply wp_Ok.
  match goal with |- context [MutableBigInt_New ?n] => set (len := n) end.
  assert ((len = length (words_digits words) \/ kDigitBits = 32 /\ S len = length (words_digits words)) /\
    (0 < len)%nat /\ val (take len (words_digits words)) = kept_value words) as (Hlen & Hpos & Hval).
  { unfold len, kept_value. rewrite Ew.
    assert (forall n, (n = length (words_digits words)) -> val (take n (words_digits words)) = val64 words) as Hfull
      by (intros n ->; by rewrite take_ge).
    destruct words_per_digit as [(Ek & E2 & E2') | (Ek & E2 & E2')]; rewrite E2, LD, E2', Ek in *.
    2: { change (64 =? 32) with false. cbn [andb]. split_and!; [left; lia | lia | apply Hfull; lia]. }
    change (32 =? 32) with true. cbn [andb]. change (Z.shiftl 1 32) with (2 ^ 32).
    destruct (Z.leb_spec w (2 ^ 32)) as [Hle | Hgt].
    2: { rewrite bool_decide_false by (intros [= E]; lia). split_and!; [left; lia | lia | apply Hfull; lia]. }
    split_and!; [right; lia | lia|]. apply (front_value words ws w); (done || lia). }
  clearbody len. apply wpI_New; [|intros ?; destruct Hlen as [? | [_ ?]]; lia].
  intros _ d Hld Hd. unfold set_sign. cbn [digits_of]. apply wpI_call, digits_from_words_spec; [done | by rewrite Hld|].
  rewrite Hld. eapply (wpI_finish_digits _ len); [done | | by apply digits_ok_take | | by left | by rewrite Hval].
  - rewrite length_take. destruct Hlen as [? | [_ ?]]; lia.
  - destruct Hlen as [? | [_ ?]]; lia.
Qed.

Lemma val64_snoc ws w : val64 (ws ++ [w]) = val64 ws + 2 ^ (64 * Z.of_nat (length ws)) * w.
Proof.
  induction ws as [|v ws IH]; cbn [app val64 length]; [cbn; lia|].
  rewrite IH, Nat2Z.inj_succ. replace (64 * Z.succ (Z.of_nat (length ws))) with (64 + 64 * Z.of_nat (length ws)) by lia.
  rewrite Z.pow_add_r by lia. lia.
Qed.

Lemma Words64Count_spec x :
  Words64Count x = if kDigitBits =? 64 then Z.of_nat (bi_length x) else Z.of_nat (Nat.div2 (bi_length x + 1)).
Proof.
  unfold Words64Count. destruct kDigitBits_cases as [-> | ->].
  - replace (32 =? 64) with false by done. replace (32 =? 32) with true by done. replace (64 / 32) with 2 by done.
    rewrite Nat.div2_div, Nat2Z.inj_div. cbn [andb]. change (Z.of_nat 2) with 2.
    pose proof (Z.div_mod (Z.of_nat (bi_length x)) 2 ltac:(lia)). pose proof (Z.mod_pos_bound (Z.of_nat (bi_length x)) 2 ltac:(lia)).
    destruct (Z.eqb_spec (Z.of_nat (bi_length x) mod 2) 1) as [E | E].
    + rewrite E in *. apply Z.div_unique with 0; lia.
    + apply Z.div_unique with 1; lia.
  - replace (64 =? 64) with true by done. replace (64 =? 32) with false by done. replace (64 / 64) with 1 by done.
    rewrite Z.div_1_r. cbn [andb]. lia.
Qed.

(** The invariant of both loops: [k] words have been written. *)
Definition words_written (X : digits) (per : nat) (words0 : list Z) (k : nat) (ws : list Z) : Prop :=
  exists P, ws = P ++ drop k words0 /\ length P = k /\ Forall is_word P /\ val64 P = val (take (per * k) X).

Lemma words_written_step X per words0 k ws w :
  words_written X per words0 k ws -> (k < length words0)%nat -> is_word w ->
  val (take (per * S k) X) = val (take (per * k) X) + 2 ^ (64 * Z.of_nat k) * w ->
  bool_decide (k < length ws)%nat = true /\ words_written X per words0 (S k) (<[k := w]> ws).
Proof.
  intros (P & -> & HlP & HP & EP) Hk Hw Ev. split.
  { apply bool_decide_eq_true. rewrite length_app, length_drop. lia. }
  exists (P ++ [w]). split_and!.
  - destruct (lookup_lt_is_Some_2 words0 k Hk) as [r Hr]. rewrite (drop_S _ _ _ Hr).
    by rewrite (insert_snoc P _ r w k HlP).
  - rewrite length_app. simpl. lia.
  - apply Forall_app. split; [done | by constructor].
  - by rewrite val64_snoc, EP, HlP, Ev.
Qed.

Lemma ToWordsArray64_spec x n words :
  bigint_ok x -> length words = n -> (0 < n)%nat -> Words64Count x <= Z.of_nat n ->
  wp (ToWordsArray64 x n words) (fun '(s, count, ws) => s = sign x /\ count = Words64Count x /\
    length ws = n /\ Forall is_word (take (Z.to_nat count) ws) /\ val64 (take (Z.to_nat count) ws) = Z.abs (toZ x)).
Proof.
  intros Hx Hlw Hn Hc. unfold ToWordsArray64. rewrite bool_decide_false by lia.
  rewrite (toZ_abs x Hx). pose proof (ok_digits x Hx) as HX. pose proof (Words64Count_spec x) as Ec.
  set (c := Words64Count x) in *. apply wp_bind.
  assert (forall per, (length (digits_of x) <= per * Z.to_nat c)%nat -> forall ws, words_written (digits_of x) per words (Z.to_nat c) ws ->
    wp (mret (sign x, c, ws)) (fun '(s, count, ws) => s = sign x /\ count = c /\
      length ws = n /\ Forall is_word (take (Z.to_nat count) ws) /\ val64 (take (Z.to_nat count) ws) = val (digits_of x))) as Hfin.
  { intros per Hper ws (P & -> & HlP & HP & EP). apply wp_ret. rewrite take_app_length' by done.
    rewrite take_ge in EP by done. split_and!; try done. rewrite length_app, length_drop. lia. }
  unfold bi_length in *. set (len := length (digits_of x)) in *.
  destruct digit_base_cases as [[Ek Eb] | [Ek Eb]]; rewrite Ek in Ec |- *.
  - replace (32 =? 64) with false in * by done.
    assert (2 * Nat.div2 (len + 1) = len \/ 2 * Nat.div2 (len + 1) = len + 1)%nat as Hd2.
    { pose proof (Nat.div2_odd (len + 1)) as Ho. destruct (Nat.odd (len + 1)); cbn [Nat.b2n] in Ho; lia. }
    replace (Nat.div2 (len + 1) `min` n)%nat with (Z.to_nat c) by lia.
    eapply wp_mono; [apply (wp_for_loop (words_written (digits_of x) 2 words))|intros ws; apply Hfin; lia].
    { exists []. split_and!; (done || constructor). }
    intros k ws Hk Hinv. apply wp_bind, wp_rd; [lia | done|]. intros lo Hlo Hdlo. unfold is_digit in Hdlo. rewrite Eb in Hdlo.
    apply wp_bind. apply (wp_mono _ (fun hi => 0 <= hi < 2 ^ 32 /\
      val (take (2 * S k) (digits_of x)) = val (take (2 * k) (digits_of x)) + 2 ^ (64 * Z.of_nat k) * (lo + 2 ^ 32 * hi))).
    { assert (bpow (2 * k) = 2 ^ (64 * Z.of_nat k)) as Ep by (rewrite bpow_bits, Ek; f_equal; lia).
      case_bool_decide as Hb.
      - eapply wp_rd; [lia | done|]. intros hi Hhi Hdhi. unfold is_digit in Hdhi. rewrite Eb in Hdhi. split; [done|].
        replace (2 * S k)%nat with (S (2 * k + 1)) by lia. rewrite (val_take_S _ _ _ Hhi), Nat.add_1_r.
        rewrite (val_take_S _ _ _ Hlo), bpow_S, Ep, Eb. lia.
      - apply wp_ret. split; [lia|]. rewrite (take_ge _ (2 * S k)) by lia.
        rewrite <- (take_ge (digits_of x) (S (2 * k))) at 1 by lia. rewrite (val_take_S _ _ _ Hlo), Ep. lia. }
    intros hi [Hhi Ev]. unfold uint64. rewrite Z.shiftl_mul_pow2, Z.mod_small by lia.
    rewrite Z.lor_comm, lor_shiftl_add by lia.
    destruct (words_written_step (digits_of x) 2 words k ws (hi * 2 ^ 32 + lo)) as [-> Hnext];
      [done | lia | unfold is_word; lia | rewrite Ev; f_equal; f_equal; lia | by apply wp_ret].
  - replace (64 =? 64) with true in * by done.
    replace (len `min` n)%nat with (Z.to_nat c) by lia.
    eapply wp_mono; [apply (wp_for_loop (words_written (digits_of x) 1 words))|intros ws; apply Hfin; lia].
    { exists []. split_and!; (done || constructor). }
    intros k ws Hk Hinv. apply wp_bind, wp_rd; [lia | done|]. intros d Hd Hdd.
    destruct (words_written_step (digits_of x) 1 words k ws d) as [-> Hnext];
      [done | lia | unfold is_word, is_digit in *; lia | | by apply wp_ret].
    rewrite !Nat.mul_1_l, (val_take_S _ _ _ Hd), bpow_bits, Ek. done.
Qed.

(** ** Serialization *)

Lemma Canonicalize_id x : bigint_ok x -> Canonicalize x = Ok x.
Proof.
  intros Hx. destruct x as [s d]. pose proof Hx as [HX _ Hl Hs].
  destruct (wp_elim _ _ (Canonicalize_spec s d HX Hl Hs)) as (z & E & Hz & Ez).
  rewrite E. f_equal. by apply toZ_inj.
Qed.

Lemma bytes_value_digit_bytes n d : 0 <= d < 256 ^ Z.of_nat n -> bytes_value (digit_bytes n d) = d.
Proof.
  revert d. induction n as [|n IH]; intros d Hd; [cbn in *; lia|].
  rewrite Nat2Z.inj_succ, Z.pow_succ_r in Hd by lia. cbn [digit_bytes bytes_value].
  rewrite IH; [pose proof (Z.div_mod d 256); lia|].
  split; [apply Z.div_pos; lia | apply Z.div_lt_upper_bound; lia].
Qed.

Lemma length_digit_bytes n d : length (digit_bytes n d) = n.
Proof. revert d. induction n; intros d; cbn; auto. Qed.

Lemma kDigitSize_spec : kDigitBits = 8 * kDigitSize /\ (kDigitSize = 4 \/ kDigitSize = 8) /\
  digit_base = 256 ^ Z.of_nat (Z.to_nat kDigitSize).
Proof. unfold kDigitSize, digit_base. destruct kDigitBits_cases as [-> | ->]; split_and!; auto. Qed.

Lemma length_SerializeDigits x : length (SerializeDigits x) = (bi_length x * Z.to_nat kDigitSize)%nat.
Proof.
  unfold SerializeDigits, bi_length. induction (digits_of x) as [|d X IH]; cbn [flat_map length]; [done|].
  rewrite length_app, IH, length_digit_bytes. lia.
Qed.

Lemma digits_from_bytes_id X :
  digits_ok X -> digits_from_bytes (length X) (flat_map (digit_bytes (Z.to_nat kDigitSize)) X) = X.
Proof.
  induction X as [|d X IH]; cbn [length digits_from_bytes flat_map]; intros HX; [done|].
  apply Forall_cons_1 in HX as [Hd HX]. destruct kDigitSize_spec as (_ & _ & Eb).
  rewrite take_app_length', drop_app_length' by (symmetry; apply length_digit_bytes).
  rewrite bytes_value_digit_bytes by (unfold is_digit in Hd; by rewrite <- Eb). by rewrite IH.
Qed.

Lemma SignBits_ok : bitfield_ok SignBits.
Proof. split; cbn; lia. Qed.

Lemma LengthBits_ok : bitfield_ok LengthBits.
Proof. split; cbn; lia. Qed.

Lemma decode_lor F a b : bitfield_ok F -> decode F (Z.lor a b) = Z.lor (decode F a) (decode F b).
Proof.
  intros HF. apply Z.bits_inj'. intros i Hi. rewrite Z.lor_spec, !decode_testbit, Z.lor_spec by done.
  by destruct (i <? kSize F).
Qed.

(** The two fields of the serialized header. *)
Lemma serialized_header (s l : Z) :
  0 <= s < 2 -> 0 <= l < 2 ^ 30 ->
  decode SignBits (Z.lor (s * 2 ^ kShift SignBits) (l * 2 ^ kShift LengthBits)) = s /\
  decode LengthBits (Z.lor (s * 2 ^ kShift SignBits) (l * 2 ^ kShift LengthBits)) = l.
Proof.
  intros Hs Hl. pose proof SignBits_ok as HS. pose proof LengthBits_ok as HL. rewrite !decode_lor by done.
  rewrite (decode_encode SignBits HS s), (decode_encode LengthBits HL l) by done.
  assert (decode SignBits (l * 2 ^ kShift LengthBits) = 0) as ->.
  { apply Z.bits_inj'. intros i Hi. rewrite decode_testbit, Z.bits_0 by done. cbn [kSize kShift SignBits LengthBits Next].
    destruct (Z.ltb_spec i 1); [|done]. cbn [andb]. rewrite Z.mul_pow2_bits_low; [done | cbn; lia]. }
  assert (decode LengthBits (s * 2 ^ kShift SignBits) = 0) as ->.
  { assert (s = 0 \/ s = 1) as [-> | ->] by lia; done. }
  by rewrite Z.lor_0_r, Z.lor_0_l.
Qed.

Lemma serialize_roundtrip x :
  bigint_ok x -> exists bitfield, GetBitfieldForSerialization x = Ok bitfield /\
    0 <= bitfield < 2 ^ 32 /\
    DigitsByteLengthForBitfield bitfield = Z.of_nat (length (SerializeDigits x)) /\
    FromSerializedDigits bitfield (SerializeDigits x) = Ok (Some x).
Proof.
  intros Hx. destruct kDigitSize_spec as (Ek & Hk & _). destruct kMaxLength_bits as [Em _].
  pose proof (ok_length x Hx) as Hl. pose proof (length_SerializeDigits x) as Hls.
  assert (Z.of_nat (length (SerializeDigits x)) = Z.of_nat (bi_length x) * kDigitSize) as Ebl by (rewrite Hls; lia).
  set (bl := Z.of_nat (bi_length x) * kDigitSize) in *. set (s := if sign x then 1 else 0).
  assert (0 <= s < 2) as Hs by (unfold s; destruct (sign x); lia).
  assert (0 <= bl < 2 ^ 30) as Hbl.
  { assert (kMaxLength * (8 * kDigitSize) = 2 ^ 30) as E30 by (rewrite <- Ek; exact Em).
    assert (bl <= kMaxLength * kDigitSize) by (unfold bl; apply Z.mul_le_mono_nonneg_r; lia). lia. }
  destruct (serialized_header s bl Hs Hbl) as [Ds Dl].
  exists (Z.lor (s * 2 ^ kShift SignBits) (bl * 2 ^ kShift LengthBits)).
  unfold GetBitfieldForSerialization. fold bl s.
  rewrite (encode_spec SignBits SignBits_ok s), (encode_spec LengthBits LengthBits_ok bl) by done.
  split; [done|]. split.
  { change (kShift SignBits) with 0. change (kShift LengthBits) with 1. change (2 ^ 0) with 1. change (2 ^ 1) with 2.
    rewrite Z.mul_1_r, Z.lor_comm. pose proof (lor_shiftl_add bl s 1) as E. change (2 ^ 1) with 2 in E. rewrite E by lia. lia. }
  unfold DigitsByteLengthForBitfield, FromSerializedDigits. rewrite Ds, Dl. split; [done|].
  rewrite Ebl, Z.eqb_refl. cbn [dcheck mbind res_bind].
  replace ((bl + kDigitSize - 1) / kDigitSize) with (Z.of_nat (bi_length x))
    by (apply Z.div_unique with (kDigitSize - 1); lia).
  rewrite Nat2Z.id. assert (negb (s =? 0) = sign x) as -> by (unfold s; by destruct (sign x)).
  fold bl. rewrite Z.sub_diag. cbn [Z.to_nat replicate]. rewrite app_nil_r.
  unfold SerializeDigits, bi_length. rewrite digits_from_bytes_id by apply Hx.
  assert (bool_decide (length (digits_of x) = 0)%nat && sign x = false) as ->.
  { case_bool_decide as E; [|done]. apply nil_length_inv in E. by rewrite (ok_sign x Hx E). }
  unfold bi_length in Hl. rewrite (proj2 (Z.leb_le _ _)) by lia. cbn [dcheck mbind res_bind].
  unfold MakeImmutable. destruct x as [sx dx]. cbn [sign digits_of] in *. by rewrite Canonicalize_id.
Qed.

Lemma val64_bound ws : Forall is_word ws -> 0 <= val64 ws < 2 ^ (64 * Z.of_nat (length ws)).
Proof.
  induction ws as [|w ws IH]; intros Hws; [cbn; lia|]. apply Forall_cons_1 in Hws as [Hw Hws].
  specialize (IH Hws). cbn [val64 length]. unfold is_word in Hw.
  replace (64 * Z.of_nat (S (length ws))) with (64 + 64 * Z.of_nat (length ws)) by lia.
  rewrite Z.pow_add_r by lia. nia.
Qed.

Lemma val64_top ws w : Forall is_word ws -> list.last ws = Some w ->
  val64 ws / 2 ^ (64 * (Z.of_nat (length ws) - 1)) = w.
Proof.
  intros Hws [l ->]%last_Some. apply Forall_app in Hws as [Hl _]. pose proof (val64_bound l Hl).
  rewrite val64_snoc, length_app. cbn [length].
  replace (Z.of_nat (length l + 1) - 1) with (Z.of_nat (length l)) by lia.
  symmetry. apply Z.div_unique with (val64 l); lia.
Qed.

Lemma Words64Count_max x : bigint_ok x -> Words64Count x <= kMaxLength / (64 / kDigitBits).
Proof.
  intros Hx. pose proof (ok_length x Hx) as Hl. rewrite Words64Count_spec.
  destruct kMaxLength_bits as [Em _]. destruct kDigitBits_cases as [E | E]; rewrite E in *.
  - replace (32 =? 64) with false by done. replace (64 / 32) with 2 by done.
    rewrite Nat.div2_div, Nat2Z.inj_div. change (Z.of_nat 2) with 2. apply Z.div_le_lower_bound; [lia|].
    assert (kMaxLength = 2 ^ 25) as E25 by (change (2 ^ 25) with (kMaxLengthBits / 32); rewrite <- Em, Z.div_mul; lia).
    pose proof (Z.div_mod (Z.of_nat (bi_length x + 1)) 2 ltac:(lia)).
    pose proof (Z.mod_pos_bound (Z.of_nat (bi_length x + 1)) 2 ltac:(lia)). rewrite E25 in *. lia.
  - replace (64 =? 64) with true by done. replace (64 / 64) with 1 by done. by rewrite Z.div_1_r.
Qed.
End bigint_words.
