(* ===== verification/BigIntDouble.v ===== *)
(** BigInts and JavaScript numbers: the conversions and comparisons of
    [src/objects/bigint.cc] that involve a double.  A double is its bit pattern; what it
    denotes is [scaled] of [Double.v]. *)

From Stdlib Require Import ZArith Lia.
From stdpp Require Import base tactics numbers list option.
From S2P Require Import Prelude Double Digit Digits VectorArithmetic Processor SignedArithmetic BigIntObject BigIntSpec BigIntArith.

#[local] Open Scope Z_scope.

(** The width of a small integer (Smi), 31 or 32 bits ([SmiTagging] of [v8-internal.h]). *)
Class SmiConfig := {
  kSmiValueSize : Z;
  kSmiValueSize_cases : kSmiValueSize = 31 \/ kSmiValueSize = 32;
}.

(** A JavaScript number: a tagged small integer or a heap number. *)
Inductive Number : Type :=
  | Smi (value : Z)
  | HeapNumber (value : Z).

Inductive Rounding : Type :=
  | kRoundDown
  | kTie
  | kRoundUp.

Section bigint_double.
Context `{Config, Platform}.
Context {alloc : Allocator} {smi : SmiConfig}.
Implicit Types x : BigInt.

Definition kSmiMinValue : Z := - 2 ^ (kSmiValueSize - 1).
Definition kSmiMaxValue : Z := - (kSmiMinValue + 1).

(** ** From doubles *)

Definition kMantissaTopBit : Z := kSignificandSize - 1.

(** The part of the mantissa that belongs to the most significant digit; the unused bits
    are kept at the top of the 64-bit word.  The same code is in [NewFromDouble] and in
    [CompareToDouble]. *)
Definition mantissa_msd (mantissa msd_topbit : Z) : res (Z * Z * Z) :=
  if msd_topbit <? kMantissaTopBit then
    let remaining_mantissa_bits := kMantissaTopBit - msd_topbit in
    let digit := wrap (Z.shiftr mantissa remaining_mantissa_bits) in
    let mantissa := uint64 (Z.shiftl mantissa (64 - remaining_mantissa_bits)) in
    mret (digit, mantissa, remaining_mantissa_bits)
  else
    dcheck (kMantissaTopBit <=? msd_topbit);;
    let digit := wrap (uint64 (Z.shiftl mantissa (msd_topbit - kMantissaTopBit))) in
    mret (digit, 0, 0).

(** The next lower digit, in the loop of [NewFromDouble]. *)
Definition mantissa_next (mantissa remaining_mantissa_bits : Z) : res (Z * Z * Z) :=
  if 0 <? remaining_mantissa_bits then
    let remaining_mantissa_bits := remaining_mantissa_bits - kDigitBits in
    if kDigitBits / 8 =? 4 then
      mret (wrap (Z.shiftr mantissa 32), uint64 (Z.shiftl mantissa 32), remaining_mantissa_bits)
    else
      dcheck (kDigitBits / 8 =? 8);;
      mret (wrap mantissa, 0, remaining_mantissa_bits)
  else mret (0, mantissa, remaining_mantissa_bits).

Definition NewFromDouble (value : Z) : res BigInt :=
  dcheck (eq_floor value);;
  if eq_zero value then BigInt_Zero
  else
    let sign := lt_zero value in
    let double_bits := value in
    let raw_exponent := Z.land (Z.shiftr double_bits kPhysicalSignificandSize) 0x7FF in
    dcheck (negb (raw_exponent =? 0x7FF));;
    dcheck (0x3FF <=? raw_exponent);;
    let exponent := raw_exponent - 0x3FF in
    let digits := Z.to_nat (exponent / kDigitBits + 1) in
    let result := NewBigInt sign digits in
    let mantissa := Z.lor (Z.land double_bits kSignificandMask) kHiddenBit in
    let msd_topbit := exponent mod kDigitBits in
    '(digit, mantissa, remaining_mantissa_bits) ← mantissa_msd mantissa msd_topbit;
    result ← set_digit result (digits - 1) digit;
    '(result, _, _) ← for_down (digits - 1)
      (fun digit_index '(result, mantissa, remaining_mantissa_bits) =>
         '(digit, mantissa, remaining_mantissa_bits) ← mantissa_next mantissa remaining_mantissa_bits;
         result ← set_digit result digit_index digit;
         mret (result, mantissa, remaining_mantissa_bits))
      (result, mantissa, remaining_mantissa_bits);
    MakeImmutable result.

(** For a finite double, [DoubleToInteger(value) != value] says that it has a fraction. *)
Definition FromNumber (number : Number) : res (MaybeHandle BigInt) :=
  match number with
  | Smi value => r ← NewFromInt value; mret (inr r)
  | HeapNumber value =>
      if negb (isfinite value) || negb (eq_floor value) then mret (inl kBigIntFromNumber)
      else r ← NewFromDouble value; mret (inr r)
  end.

(** ** Comparison with doubles *)

(** The next lower digit, in the loop of [CompareToDouble]. *)
Definition compare_next (mantissa remaining_mantissa_bits : Z) : Z * Z * Z :=
  if 0 <? remaining_mantissa_bits then
    let remaining_mantissa_bits := remaining_mantissa_bits - kDigitBits in
    if negb (kDigitBits =? 64) then
      (wrap (Z.shiftr mantissa (64 - kDigitBits)), uint64 (Z.shiftl mantissa (Z.land kDigitBits 63)),
       remaining_mantissa_bits)
    else (wrap mantissa, 0, remaining_mantissa_bits)
  else (0, mantissa, remaining_mantissa_bits).

(** The loop over the digits below [n], and the check for a fractional part after it. *)
Fixpoint compare_digits (n : nat) (x : BigInt) (mantissa remaining_mantissa_bits : Z)
    : res ComparisonResult :=
  match n with
  | O =>
      if negb (mantissa =? 0) then
        dcheck (0 <? remaining_mantissa_bits);; mret (AbsoluteLess (sign x))
      else mret kEqual
  | S digit_index =>
      let '(compare_mantissa, mantissa, remaining_mantissa_bits) :=
        compare_next mantissa remaining_mantissa_bits in
      d ← digit x digit_index;
      if compare_mantissa <? d then mret (AbsoluteGreater (sign x))
      else if d <? compare_mantissa then mret (AbsoluteLess (sign x))
      else compare_digits digit_index x mantissa remaining_mantissa_bits
  end.

(** A non-zero BigInt and a non-zero finite double of the same sign. *)
Definition compare_magnitudes (x : BigInt) (double_bits : Z) : res ComparisonResult :=
  let x_sign := sign x in
  let raw_exponent := Z.land (Z.shiftr double_bits kPhysicalSignificandSize) 0x7FF in
  let mantissa := Z.land double_bits kSignificandMask in
  dcheck (negb (raw_exponent =? 0x7FF));;
  let exponent := raw_exponent - 0x3FF in
  if exponent <? 0 then
    dcheck (negb (is_zero x));; mret (AbsoluteGreater x_sign)
  else
    let x_length := bi_length x in
    x_msd ← digit x (x_length - 1);
    let msd_leading_zeros := CountLeadingZeros x_msd in
    let x_bitlength := Z.of_nat x_length * kDigitBits - msd_leading_zeros in
    let y_bitlength := exponent + 1 in
    if x_bitlength <? y_bitlength then mret (AbsoluteLess x_sign)
    else if y_bitlength <? x_bitlength then mret (AbsoluteGreater x_sign)
    else
      let mantissa := Z.lor mantissa kHiddenBit in
      let msd_topbit := kDigitBits - 1 - msd_leading_zeros in
      dcheck (msd_topbit =? (x_bitlength - 1) mod kDigitBits);;
      '(compare_mantissa, mantissa, remaining_mantissa_bits) ← mantissa_msd mantissa msd_topbit;
      if compare_mantissa <? x_msd then mret (AbsoluteGreater x_sign)
      else if x_msd <? compare_mantissa then mret (AbsoluteLess x_sign)
      else compare_digits (x_length - 1) x mantissa remaining_mantissa_bits.

Definition CompareToDouble (x : BigInt) (y : Z) : res ComparisonResult :=
  if isnan y then mret kUndefined
  else if y =? kInfinity then mret kLessThan
  else if y =? kSignMask + kInfinity then mret kGreaterThan
  else
    let x_sign := sign x in
    let y_sign := lt_zero y in
    if xorb x_sign y_sign then mret (UnequalSign x_sign)
    else if eq_zero y then
      dcheck (negb x_sign);; mret (if is_zero x then kEqual else kGreaterThan)
    else if is_zero x then
      dcheck (negb y_sign);; mret kLessThan
    else compare_magnitudes x y.

(** [std::abs(static_cast<int64_t>(value))] as a digit. *)
Definition smi_abs (value : Z) : Z := wrap (Z.abs value).

Definition EqualToNumber (x : BigInt) (y : Number) : res bool :=
  match y with
  | Smi value =>
      if value =? 0 then mret (is_zero x)
      else if bool_decide (bi_length x = 1)%nat && Bool.eqb (sign x) (value <? 0) then
        d ← digit x 0; mret (d =? smi_abs value)
      else mret false
  | HeapNumber value =>
      r ← CompareToDouble x value;
      mret (match r with kEqual => true | _ => false end)
  end.

Definition CompareToNumber (x : BigInt) (y : Number) : res ComparisonResult :=
  match y with
  | Smi y_value =>
      let x_sign := sign x in
      let y_sign := y_value <? 0 in
      if xorb x_sign y_sign then mret (UnequalSign x_sign)
      else if is_zero x then
        dcheck (negb y_sign);; mret (if y_value =? 0 then kEqual else kLessThan)
      else if bool_decide (1 < bi_length x)%nat then mret (AbsoluteGreater x_sign)
      else
        let abs_value := smi_abs y_value in
        x_digit ← digit x 0;
        mret (if abs_value <? x_digit then AbsoluteGreater x_sign
              else if x_digit <? abs_value then AbsoluteLess x_sign
              else kEqual)
  | HeapNumber value => CompareToDouble x value
  end.

(** ** To doubles *)

(** [while (digit_index > 0) { digit_index--; if (x->digit(digit_index) != 0) return kRoundUp; }] *)
Fixpoint round_rest (digit_index : nat) (x : BigInt) : res Rounding :=
  match digit_index with
  | O => mret kTie
  | S digit_index =>
      d ← digit x digit_index;
      if negb (d =? 0) then mret kRoundUp else round_rest digit_index x
  end.

(** The decision from the unconsumed bits of [current_digit] on. *)
Definition round_bits (x : BigInt) (digit_index : nat) (current_digit top_unconsumed_bit : Z)
    : res Rounding :=
  let bitmask := uint64 (Z.shiftl 1 top_unconsumed_bit) in
  if Z.land current_digit bitmask =? 0 then mret kRoundDown
  else
    let bitmask := bitmask - 1 in
    if negb (Z.land current_digit bitmask =? 0) then mret kRoundUp
    else round_rest digit_index x.

Definition DecideRounding (x : BigInt) (mantissa_bits_unset : Z) (digit_index : nat)
    (current_digit : Z) : res Rounding :=
  if 0 <? mantissa_bits_unset then mret kRoundDown
  else if mantissa_bits_unset <? 0 then
    round_bits x digit_index current_digit (- mantissa_bits_unset - 1)
  else
    dcheck (mantissa_bits_unset =? 0);;
    match digit_index with
    | O => mret kRoundDown
    | S digit_index =>
        current_digit ← digit x digit_index;
        round_bits x digit_index current_digit (kDigitBits - 1)
    end.

Definition infinity (sign : bool) : Z := if sign then kSignMask + kInfinity else kInfinity.

(** [mantissa++] with its overflows, and the assembly of the result. *)
Definition round_and_assemble (sign : bool) (exponent mantissa : Z) (rounding : Rounding) : Z :=
  let assemble exponent mantissa :=
    let sign_bit := if sign then uint64 (Z.shiftl 1 63) else 0 in
    let exponent := uint64 (Z.shiftl (exponent + 0x3FF) kPhysicalSignificandSize) in
    Z.lor (Z.lor sign_bit exponent) mantissa in
  if match rounding with
     | kRoundUp => true
     | kTie => Z.land mantissa 1 =? 1
     | kRoundDown => false
     end
  then
    let mantissa := uint64 (mantissa + 1) in
    if negb (Z.shiftr mantissa kPhysicalSignificandSize =? 0) then
      let exponent := exponent + 1 in
      if 1023 <? exponent then infinity sign else assemble exponent 0
    else assemble exponent mantissa
  else assemble exponent mantissa.

Definition ToDouble (x : BigInt) : res Z :=
  if is_zero x then mret 0
  else
    let x_length := bi_length x in
    x_msd ← digit x (x_length - 1);
    let msd_leading_zeros := CountLeadingZeros x_msd in
    let x_bitlength := Z.of_nat x_length * kDigitBits - msd_leading_zeros in
    if 1024 <? x_bitlength then mret (infinity (sign x))
    else
      let exponent := x_bitlength - 1 in
      let current_digit := x_msd in
      let digit_index := (x_length - 1)%nat in
      let shift := msd_leading_zeros + 1 + (64 - kDigitBits) in
      dcheck (1 <=? shift);;
      dcheck (shift <=? 64);;
      let mantissa := if shift =? 64 then 0 else uint64 (Z.shiftl current_digit shift) in
      let mantissa := Z.shiftr mantissa 12 in
      let mantissa_bits_unset := shift - 12 in
      '(mantissa, mantissa_bits_unset, digit_index, current_digit) ←
        (if (kDigitBits <=? mantissa_bits_unset) && bool_decide (0 < digit_index)%nat then
           let digit_index := (digit_index - 1)%nat in
           current_digit ← digit x digit_index;
           let mantissa :=
             Z.lor mantissa (uint64 (Z.shiftl current_digit (mantissa_bits_unset - kDigitBits))) in
           mret (mantissa, mantissa_bits_unset - kDigitBits, digit_index, current_digit)
         else mret (mantissa, mantissa_bits_unset, digit_index, current_digit));
      '(mantissa, mantissa_bits_unset, digit_index, current_digit) ←
        (if (0 <? mantissa_bits_unset) && bool_decide (0 < digit_index)%nat then
           dcheck (mantissa_bits_unset <? kDigitBits);;
           let digit_index := (digit_index - 1)%nat in
           current_digit ← digit x digit_index;
           let mantissa := Z.lor mantissa (Z.shiftr current_digit (kDigitBits - mantissa_bits_unset)) in
           mret (mantissa, mantissa_bits_unset - kDigitBits, digit_index, current_digit)
         else mret (mantissa, mantissa_bits_unset, digit_index, current_digit));
      rounding ← DecideRounding x mantissa_bits_unset digit_index current_digit;
      mret (round_and_assemble (sign x) exponent mantissa rounding).

Definition ToNumber (x : BigInt) : res Number :=
  if is_zero x then mret (Smi 0)
  else
    small ←
      (if bool_decide (bi_length x = 1)%nat then
         d ← digit x 0; mret (if d <? kSmiMaxValue then Some d else None)
       else mret None);
    match small with
    | Some value => mret (Smi (if sign x then - value else value))
    | None => result ← ToDouble x; mret (HeapNumber result)
    end.
End bigint_double.
