(* ===== verification/BigIntDoubleSpec.v ===== *)
(** What the operations of [BigIntDouble.v] compute: conversions and comparisons that
    involve a double are exact, except for [ToDouble], which rounds to nearest. *)

From Stdlib Require Import ZArith Lia.
From stdpp Require Import base tactics numbers list option.
From S2P Require Import Prelude Double Digit Digits VectorArithmetic Processor SignedArithmetic BigIntObject BigIntSpec BigIntArith BigIntBits BigIntDouble.

#[local] Open Scope Z_scope.

Section bigint_double_spec.
Context `{Config, Platform}.
Context {alloc : Allocator} {smi : SmiConfig}.
Implicit Types x : BigInt.

(** ** The mantissa as a stream of digits *)

(** The 64-bit word with the [r] unused bits of the mantissa at its top. *)
Definition stream (m r : Z) : Prop :=
  0 <= m < 2 ^ 64 /\ r <= 52 /\ exists k, m = k * 2 ^ (64 - Z.max r 0).

Lemma stream_done m r : stream m r -> r <= 0 -> m = 0.
Proof.
  intros (Hm & _ & k & E) Hr. rewrite Z.max_r in E by lia. change (64 - 0) with 64 in E. nia.
Qed.

Lemma pow2_split a b : 0 <= a -> 0 <= b -> 2 ^ (a + b) = 2 ^ a * 2 ^ b.
Proof. intros. by apply Z.pow_add_r. Qed.

Lemma mantissa_msd_spec M t :
  2 ^ 52 <= M < 2 ^ 53 -> 0 <= t < kDigitBits ->
  wp (mantissa_msd M t) (fun '(d, m, r) =>
    is_digit d /\ stream m r /\ (d * 2 ^ 64 + m) * 2 ^ 52 = M * 2 ^ t * 2 ^ 64).
Proof.
  intros HM Ht. unfold mantissa_msd, kMantissaTopBit, kSignificandSize. change (53 - 1) with 52.
  pose proof kDigitBits_cases as Hw. destruct (Z.ltb_spec t 52) as [Hlt | Hge].
  - apply wp_ret. remember (52 - t) as r eqn:Er. rewrite Z.shiftr_div_pow2, Z.shiftl_mul_pow2 by lia.
    assert (0 < 2 ^ r) by (apply Z.pow_pos_nonneg; lia).
    assert (2 ^ 52 = 2 ^ r * 2 ^ t) as E52 by (rewrite <- pow2_split by lia; f_equal; lia).
    assert (2 ^ 64 = 2 ^ r * 2 ^ (64 - r)) as E64 by (rewrite <- pow2_split by lia; f_equal; lia).
    assert (0 < 2 ^ (64 - r)) by (apply Z.pow_pos_nonneg; lia).
    assert (M / 2 ^ r < 2 ^ (t + 1)) as Hd.
    { apply Z.div_lt_upper_bound; [done|]. rewrite <- pow2_split by lia. replace (r + (t + 1)) with 53 by lia. lia. }
    assert (is_digit (M / 2 ^ r)) as Hdig.
    { split; [apply Z.div_pos; lia|]. unfold digit_base.
      assert (2 ^ (t + 1) <= 2 ^ kDigitBits) by (apply Z.pow_le_mono_r; lia). lia. }
    rewrite wrap_small by done. pose proof (Z.div_mod M (2 ^ r) ltac:(lia)) as DM.
    pose proof (Z.mod_pos_bound M (2 ^ r) ltac:(lia)) as Hmod.
    assert (uint64 (M * 2 ^ (64 - r)) = M mod 2 ^ r * 2 ^ (64 - r)) as ->.
    { apply mod_eq_of_bounds; [split; [nia | rewrite E64; nia]|].
      exists (M / 2 ^ r). rewrite E64, DM at 1. ring. }
    split_and!; [done | split_and!; [nia | rewrite E64; nia | lia |] |].
    + exists (M mod 2 ^ r). by rewrite Z.max_l by lia.
    + rewrite E64, E52. rewrite DM at 3. ring.
  - apply wp_bind, wp_dcheck; [by apply Z.leb_le|]. apply wp_ret.
    assert (kDigitBits = 64) as Hw64 by lia. rewrite Z.shiftl_mul_pow2 by lia.
    assert (2 ^ t = 2 ^ 52 * 2 ^ (t - 52)) as Et by (rewrite <- pow2_split by lia; f_equal; lia).
    assert (2 ^ 53 * 2 ^ (t - 52) <= 2 ^ 64) by (rewrite <- pow2_split by lia; apply Z.pow_le_mono_r; lia).
    assert (0 < 2 ^ (t - 52)) by (apply Z.pow_pos_nonneg; lia).
    assert (0 <= M * 2 ^ (t - 52) < 2 ^ 64) as Hr by nia.
    assert (is_digit (M * 2 ^ (t - 52))) by (unfold is_digit, digit_base; by rewrite Hw64).
    unfold uint64. rewrite Z.mod_small, wrap_small by done.
    split_and!; [done | split_and!; [lia | lia | lia | by exists 0] |]. rewrite Et. ring.
Qed.

(** Taking [kDigitBits] bits from the top of the word. *)
Definition stream_step (m r d m' r' : Z) : Prop :=
  is_digit d /\ stream m' r' /\ d * 2 ^ 64 + m' = m * digit_base.

Lemma stream_take32 m r :
  stream m r -> 0 < r -> kDigitBits = 32 ->
  stream_step m r (wrap (Z.shiftr m 32)) (uint64 (Z.shiftl m 32)) (r - 32).
Proof.
  intros (Hm & Hr & k & E) Hr0 Hw. unfold stream_step, stream.
  assert (digit_base = 2 ^ 32) as Eb by (unfold digit_base; by rewrite Hw).
  rewrite Z.shiftr_div_pow2, Z.shiftl_mul_pow2 by lia.
  pose proof (Z.div_mod m (2 ^ 32) ltac:(lia)) as DM. pose proof (Z.mod_pos_bound m (2 ^ 32) ltac:(lia)) as Hmod.
  assert (is_digit (m / 2 ^ 32)) as Hd by (unfold is_digit; rewrite Eb; split; [apply Z.div_pos | apply Z.div_lt_upper_bound]; lia).
  rewrite wrap_small by done.
  assert (uint64 (m * 2 ^ 32) = m mod 2 ^ 32 * 2 ^ 32) as Em
    by (apply mod_eq_of_bounds; [lia | exists (m / 2 ^ 32); lia]).
  rewrite Em. split_and!; [done | lia | lia | lia | | rewrite Eb; lia].
  rewrite (Z.max_l r 0) in E by lia. destruct (Z.le_gt_cases r 32).
  - exists 0. rewrite Z.mul_0_l. enough (m mod 2 ^ 32 = 0) as -> by lia.
    rewrite E. replace (64 - r) with ((32 - r) + 32) by lia. rewrite pow2_split, Z.mul_assoc by lia.
    by rewrite Z.mod_mul.
  - rewrite Z.max_l by lia. replace (64 - (r - 32)) with ((64 - r) + 32) by lia. rewrite pow2_split by lia.
    exists (k - m / 2 ^ 32 * 2 ^ (r - 32)).
    assert (2 ^ 32 = 2 ^ (r - 32) * 2 ^ (64 - r)) as E32 by (rewrite <- pow2_split by lia; f_equal; lia). nia.
Qed.

Lemma stream_take64 m r :
  stream m r -> 0 < r -> kDigitBits = 64 -> stream_step m r (wrap m) 0 (r - 64).
Proof.
  intros (Hm & Hr & _) Hr0 Hw. assert (digit_base = 2 ^ 64) as Eb by (unfold digit_base; by rewrite Hw).
  assert (is_digit m) as Hd by (unfold is_digit; by rewrite Eb).
  unfold stream_step, stream. rewrite wrap_small by done.
  split_and!; [apply Hd .. | lia | lia | lia | by exists 0 | lia].
Qed.

Lemma stream_end m r : stream m r -> r <= 0 -> stream_step m r 0 m r.
Proof.
  intros Hs Hr. pose proof (stream_done m r Hs Hr) as ->. split_and!; [apply is_digit_0 .. | | lia]. apply Hs.
Qed.

Lemma mantissa_next_spec m r :
  stream m r -> wp (mantissa_next m r) (fun '(d, m', r') => stream_step m r d m' r').
Proof.
  intros Hs. unfold mantissa_next. destruct (Z.ltb_spec 0 r); [|by apply wp_ret, stream_end].
  destruct kDigitBits_cases as [Hw | Hw]; rewrite Hw; cbn [Z.eqb Z.div]; change (32 / 8 =? 4) with true; change (64 / 8 =? 4) with false; cbv iota.
  - apply wp_ret. by apply stream_take32.
  - apply wp_bind, wp_dcheck; [done|]. apply wp_ret. by apply stream_take64.
Qed.

Lemma compare_next_spec m r :
  stream m r -> let '(d, m', r') := compare_next m r in stream_step m r d m' r'.
Proof.
  intros Hs. unfold compare_next. destruct (Z.ltb_spec 0 r); [|by apply stream_end].
  destruct kDigitBits_cases as [Hw | Hw]; rewrite Hw; cbn [Z.eqb negb Pos.eqb].
  - change (64 - 32) with 32. change (Z.land 32 63) with 32. by apply stream_take32.
  - by apply stream_take64.
Qed.

(** ** From doubles *)

Lemma wp_set_digit_at s D k d (Q : BigInt -> Prop) :
  (k < length D)%nat -> Q (mkBigInt s (<[k := d]> D)) -> wp (set_digit (mkBigInt s D) k d) Q.
Proof. intros Hk HQ. unfold set_digit. cbn [digits_of sign]. apply wp_bind, wp_wr; [done|]. by apply wp_ret. Qed.

Lemma val_drop_insert D k d :
  (k < length D)%nat -> val (drop k (<[k := d]> D)) = d + digit_base * val (drop (S k) D).
Proof.
  intros Hk. rewrite (drop_S _ d k) by (by apply list_lookup_insert_eq). cbn [val].
  by rewrite drop_insert_lt by lia.
Qed.

(** [D] holds, from digit [k] on, the integer part of [Y / 2 ^ 52] as far as it was taken
    from the stream; the rest of [Y] is still in the word. *)
Definition taken (D : digits) (k : nat) (m r Y : Z) : Prop :=
  stream m r /\ (val (drop k D) * 2 ^ 64 + m) * bpow k * 2 ^ 52 = Y * 2 ^ 64.

Lemma taken_step D k d m r m' r' Y :
  (k < length D)%nat -> taken D (S k) m r Y -> stream_step m r d m' r' ->
  taken (<[k := d]> D) k m' r' Y.
Proof.
  intros Hk (_ & E) (_ & Hs & Es). split; [done|]. rewrite val_drop_insert by done. rewrite bpow_S in E.
  rewrite <- E. replace ((d + digit_base * val (drop (S k) D)) * 2 ^ 64 + m')
    with (d * 2 ^ 64 + m' + digit_base * val (drop (S k) D) * 2 ^ 64) by ring. rewrite Es. ring.
Qed.

(** The exponent of an integral non-zero double. *)
Lemma integral_exponent d :
  scaled d mod unit_scale = 0 -> scaled d <> 0 ->
  1023 <= biased_exponent d /\ magnitude d = (fraction d + 2 ^ 52) * 2 ^ (biased_exponent d - 1).
Proof.
  intros Hi Hne. assert (magnitude d mod unit_scale = 0 /\ magnitude d <> 0) as [Hm Hm0].
  { unfold scaled in *. destruct (negative d); [|done]. split; [|lia].
    apply Z.mod_opp_l_z in Hi; [by rewrite Z.opp_involutive in Hi | done]. }
  pose proof (fraction_bounds d). pose proof (exponent_bounds d). pose proof (magnitude_nonneg d).
  assert (unit_scale <= magnitude d) as Hge.
  { apply Z.nlt_ge. intros Hlt. rewrite Z.mod_small in Hm; lia. }
  unfold magnitude in *. destruct (Z.eqb_spec (biased_exponent d) 0) as [E0 | E0].
  { unfold unit_scale in Hge. assert (2 ^ 52 <= 2 ^ 1074) by (apply Z.pow_le_mono_r; lia). lia. }
  split; [|done]. apply Z.nlt_ge. intros Hlt. unfold unit_scale in Hge.
  assert ((fraction d + 2 ^ 52) * 2 ^ (biased_exponent d - 1) < 2 ^ 53 * 2 ^ (biased_exponent d - 1))
    by (apply Z.mul_lt_mono_pos_r; [apply Z.pow_pos_nonneg; lia | lia]).
  rewrite <- pow2_split in * by lia.
  assert (2 ^ (53 + (biased_exponent d - 1)) <= 2 ^ 1074) by (apply Z.pow_le_mono_r; lia). lia.
Qed.

(** The integer an integral double denotes. *)
Lemma integral_mantissa d :
  scaled d mod unit_scale = 0 -> scaled d <> 0 ->
  exists N, (fraction d + 2 ^ 52) * 2 ^ (biased_exponent d - 0x3FF) = N * 2 ^ 52 /\
    magnitude d = N * unit_scale.
Proof.
  intros Hi Hz. destruct (integral_exponent d Hi Hz) as [He Em].
  apply Z.mod_divide in Hi as [N EN]; [|done]. exists (Z.abs N).
  assert (magnitude d = Z.abs N * unit_scale) as EN' by (by rewrite <- scaled_abs, EN, Z.abs_mul).
  split; [|done]. rewrite Em in EN'. unfold unit_scale in EN'.
  replace (biased_exponent d - 1) with (biased_exponent d - 1023 + 1022) in EN' by lia.
  change 1074 with (52 + 1022) in EN'. rewrite !pow2_split in EN' by lia.
  apply (Z.mul_cancel_r _ _ (2 ^ 1022)); [apply Z.pow_nonzero; lia|]. lia.
Qed.

Lemma eq_zero_scaled d : isfinite d = true -> eq_zero d = bool_decide (scaled d = 0).
Proof. intros Hf. unfold eq_zero. rewrite Hf. cbn. destruct (Z.eqb_spec (scaled d) 0); by case_bool_decide. Qed.

Lemma finite_not_nan d : isfinite d = true -> isnan d = false.
Proof. unfold isfinite, isnan. by destruct (biased_exponent d =? 2047). Qed.

Lemma lt_zero_scaled d : isfinite d = true -> lt_zero d = bool_decide (scaled d < 0).
Proof.
  intros Hf. unfold lt_zero. rewrite eq_zero_scaled, finite_not_nan by done. cbn [negb andb].
  pose proof (magnitude_nonneg d). unfold scaled.
  destruct (negative d); repeat case_bool_decide; (done || lia).
Qed.

Lemma NewFromDouble_spec d :
  isfinite d = true -> scaled d mod unit_scale = 0 ->
  wp (NewFromDouble d) (fun z => bigint_ok z /\ toZ z * unit_scale = scaled d).
Proof.
  intros Hf Hi. unfold NewFromDouble. apply wp_bind, wp_dcheck.
  { unfold eq_floor. rewrite Hf. by apply Z.eqb_eq. }
  rewrite eq_zero_scaled by done. case_bool_decide as Hz.
  { rewrite Hz. apply wp_BigInt_Zero. intros z Hok ->. by split. }
  destruct (integral_exponent d Hi Hz) as [He Em]. destruct (integral_mantissa d Hi Hz) as (N & EN & EM).
  pose proof (fraction_bounds d) as HF.
  pose proof (exponent_bounds d) as HE. rewrite shiftr_exponent, lor_hidden. unfold isfinite in Hf.
  apply wp_bind, wp_dcheck; [done|]. apply wp_bind, wp_dcheck; [by apply Z.leb_le|].
  remember (fraction d + 2 ^ 52) as M eqn:EqM. remember (biased_exponent d - 0x3FF) as E eqn:EqE.
  remember (Z.to_nat (E / kDigitBits + 1)) as n eqn:Eqn.
  pose proof kDigitBits_cases as Hw. assert (0 < kDigitBits) as Hw0 by lia.
  pose proof (Z_div_mod_eq_full E kDigitBits) as DM. pose proof (Z.mod_pos_bound E _ Hw0) as Ht.
  assert (0 <= E / kDigitBits) by (apply Z.div_pos; lia).
  assert (Z.of_nat n <= 32) as Hn32.
  { rewrite Eqn, Z2Nat.id by lia. assert (E / kDigitBits < 32) by (apply Z.div_lt_upper_bound; nia). lia. }
  apply wp_bind. eapply wp_mono; [apply (mantissa_msd_spec M); lia|]. intros [[top m] r] (Htop & Hs & Etop).
  set (s := lt_zero d). pose proof (uninitialized_ok n) as Hu. pose proof (length_uninitialized n) as Hlu.
  apply wp_bind, wp_set_digit_at; [lia|].
  set (D1 := <[(n - 1)%nat := top]> (uninitialized n)).
  assert (taken D1 (n - 1) m r (M * 2 ^ E)) as Htk.
  { split; [done|]. unfold D1. rewrite val_drop_insert, (drop_ge _ (S (n - 1))) by lia. cbn [val].
    rewrite Z.mul_0_r, Z.add_0_r, bpow_bits.
    assert (2 ^ E = 2 ^ (kDigitBits * (E / kDigitBits)) * 2 ^ (E mod kDigitBits)) as -> by (rewrite <- pow2_split by lia; f_equal; lia).
    replace (kDigitBits * Z.of_nat (n - 1)) with (kDigitBits * (E / kDigitBits)) by (f_equal; lia).
    replace ((top * 2 ^ 64 + m) * 2 ^ (kDigitBits * (E / kDigitBits)) * 2 ^ 52)
      with ((top * 2 ^ 64 + m) * 2 ^ 52 * 2 ^ (kDigitBits * (E / kDigitBits))) by ring. rewrite Etop. ring. }
  apply wp_bind. eapply wp_mono.
  { apply (wp_for_down (fun k '(z, m, r) => exists D, z = mkBigInt s D /\ length D = n /\ digits_ok D /\
      taken D k m r (M * 2 ^ E))).
    - exists D1. split_and!; [done | by unfold D1; rewrite length_insert | by apply Forall_insert | done].
    - intros k [[z m1] r1] Hk (D & -> & HlD & HD & HT). apply wp_bind.
      eapply wp_mono; [apply mantissa_next_spec, HT|]. intros [[dk m2] r2] Hst.
      apply wp_bind, wp_set_digit_at; [lia|]. apply wp_ret. exists (<[k := dk]> D). rewrite length_insert.
      split_and!; [done | done | apply Forall_insert; [done | apply Hst] | by eapply taken_step; [lia | |]]. }
  intros [[z m'] r'] (D & -> & HlD & HD & (Hm' & _) & ED). rewrite drop_0, bpow_0, Z.mul_1_r in ED.
  assert (D <> []) as Hne by (intros ->; simpl in HlD; lia). destruct kMaxLength_bits as [_ Hk].
  eapply wp_mono; [apply Canonicalize_spec; [done | lia | done]|]. intros z [Hok Ez]. split; [done|].
  assert (val D = N) as EV by (rewrite EN in ED; lia).
  rewrite Ez, EV. unfold s. rewrite lt_zero_scaled by done. pose proof (scaled_abs d) as Hab.
  unfold signed_val. case_bool_decide; rewrite ?Z.mul_opp_l; lia.
Qed.

(** ** Comparison *)

(** The outcome of a comparison of magnitudes with a common sign. *)
Definition abs_outcome (s : bool) (a b : Z) : ComparisonResult :=
  match a ?= b with Lt => AbsoluteLess s | Eq => kEqual | Gt => AbsoluteGreater s end.

Lemma abs_outcome_lt s a b : a < b -> AbsoluteLess s = abs_outcome s a b.
Proof. intros Hl. unfold abs_outcome. by rewrite (proj2 (Z.compare_lt_iff a b)). Qed.

Lemma abs_outcome_gt s a b : b < a -> AbsoluteGreater s = abs_outcome s a b.
Proof. intros Hl. unfold abs_outcome. by rewrite (proj2 (Z.compare_gt_iff a b)). Qed.

Lemma abs_outcome_signed s a b c :
  0 < c -> abs_outcome s a b = comparison_of (signed_val s (a * c) ?= signed_val s (b * c)).
Proof.
  intros Hc. unfold abs_outcome, comparison_of, signed_val.
  destruct (Z.compare_spec a b) as [-> | Hl | Hl]; [by rewrite Z.compare_refl | |];
    destruct s; cbn; symmetry;
    first [ rewrite (proj2 (Z.compare_lt_iff _ _)); [done | nia] | rewrite (proj2 (Z.compare_gt_iff _ _)); [done | nia] ].
Qed.

(** One digit of the comparison of [val D] with [Y / 2 ^ 52]. *)
Lemma compare_step D n d cm m r Y :
  digits_ok D -> D !! n = Some d -> stream m r ->
  ((digit_base * val (drop (S n) D) + cm) * 2 ^ 64 + m) * bpow n * 2 ^ 52 = Y * 2 ^ 64 ->
  (cm < d -> Y < val D * 2 ^ 52) /\ (d < cm -> val D * 2 ^ 52 < Y) /\ (d = cm -> taken D n m r Y).
Proof.
  intros HD Hd Hs E. pose proof (val_drop_S D n d Hd) as Hv. destruct Hs as (Hm & Hs).
  pose proof (val_split D n) as Hsp. pose proof (lookup_lt_Some _ _ _ Hd) as Hn.
  rewrite length_take_le in Hsp by lia. pose proof (val_bounds _ (digits_ok_take n D HD)) as Hlow.
  rewrite length_take_le in Hlow by lia. pose proof (bpow_pos n) as Hb.
  set (V := digit_base * val (drop (S n) D)) in *. set (low := val (take n D)) in *.
  rewrite Hv in Hsp. split_and!.
  - intros Hlt. assert ((V + cm) * 2 ^ 64 + m < (V + d) * 2 ^ 64) by lia. nia.
  - intros Hlt. assert ((V + d + 1) * 2 ^ 64 <= (V + cm) * 2 ^ 64 + m) by lia. nia.
  - intros ->. split; [by split|]. rewrite Hv. rewrite <- E. ring.
Qed.

Lemma compare_digits_spec n x m r Y :
  digits_ok (digits_of x) -> (n <= bi_length x)%nat -> taken (digits_of x) n m r Y ->
  wp (compare_digits n x m r) (fun c => c = abs_outcome (sign x) (val (digits_of x) * 2 ^ 52) Y).
Proof.
  intros HD. revert m r. induction n as [|n IH]; intros m r Hn [Hs E]; cbn [compare_digits].
  - rewrite drop_0, bpow_0, Z.mul_1_r in E. destruct (Z.eqb_spec m 0) as [-> | Hm]; cbn [negb].
    + apply wp_ret. unfold abs_outcome. by rewrite (proj2 (Z.compare_eq_iff _ _)) by lia.
    + apply wp_bind, wp_dcheck; [|apply wp_ret, abs_outcome_lt; destruct Hs; lia].
      apply Z.ltb_lt, Z.nle_gt. intros Hr. by apply Hm, (stream_done m r).
  - pose proof (compare_next_spec m r Hs) as Hstep. destruct (compare_next m r) as [[cm m'] r'].
    destruct Hstep as (_ & Hs' & Estep). unfold bi_length in Hn. unfold digit.
    apply wp_bind, wp_rd; [lia | done|]. intros d Hd _.
    destruct (compare_step (digits_of x) n d cm m' r' Y HD Hd Hs') as (Hgt & Hlt & Heq).
    { rewrite <- E, bpow_S. replace ((digit_base * val (drop (S n) (digits_of x)) + cm) * 2 ^ 64 + m')
        with (cm * 2 ^ 64 + m' + digit_base * val (drop (S n) (digits_of x)) * 2 ^ 64) by ring. rewrite Estep. ring. }
    destruct (Z.ltb_spec cm d); [by apply wp_ret, abs_outcome_gt; auto|].
    destruct (Z.ltb_spec d cm); [by apply wp_ret, abs_outcome_lt; auto|].
    apply IH; [unfold bi_length; lia|]. apply Heq. lia.
Qed.

(** The bit length the code computes from the most significant digit. *)
Lemma bitlength_spec x d :
  digits_ok (digits_of x) -> normalized (digits_of x) -> digits_of x !! (bi_length x - 1)%nat = Some d ->
  let L := Z.of_nat (bi_length x) * kDigitBits - CountLeadingZeros d in
  d <> 0 /\ 2 ^ (L - 1) <= val (digits_of x) < 2 ^ L /\ 0 <= CountLeadingZeros d < kDigitBits.
Proof.
  intros HD HN Hd L. pose proof (lookup_lt_Some _ _ _ Hd) as Hlen. unfold bi_length in *.
  assert (d <> 0) as Hd0.
  { intros ->. apply HN. rewrite last_lookup. by rewrite <- Nat.sub_1_r. }
  assert (digits_of x <> []) as Hne by (intros E; rewrite E in Hlen; simpl in Hlen; lia).
  pose proof (BitLength_spec (digits_of x) HD HN Hne) as HB. unfold BitLength, msd, rd in HB. rewrite bool_decide_eq_true_2, Hd in HB by lia.
  split_and!; [done | apply HB .. | | ]; by apply CountLeadingZeros_spec; [apply (digits_ok_lookup _ _ _ HD Hd) |].
Qed.

(** A normal double in terms of the unbiased exponent [E]; [Y] is the magnitude times
    [2 ^ 52], which is an integer when [0 <= E]. *)
Lemma magnitude_normal d :
  1023 <= biased_exponent d ->
  magnitude d = (fraction d + 2 ^ 52) * 2 ^ (biased_exponent d - 0x3FF) * 2 ^ 1022.
Proof.
  intros He. unfold magnitude. destruct (Z.eqb_spec (biased_exponent d) 0); [lia|].
  rewrite <- Z.mul_assoc, <- pow2_split by lia. do 2 f_equal. lia.
Qed.

Lemma magnitude_below_one d : biased_exponent d < 1023 -> magnitude d < unit_scale.
Proof.
  intros He. pose proof (fraction_bounds d). pose proof (exponent_bounds d). unfold magnitude, unit_scale.
  destruct (Z.eqb_spec (biased_exponent d) 0).
  - assert (2 ^ 52 <= 2 ^ 1074) by (apply Z.pow_le_mono_r; lia). lia.
  - assert (2 ^ 53 * 2 ^ (biased_exponent d - 1) <= 2 ^ 1074)
      by (rewrite <- pow2_split by lia; apply Z.pow_le_mono_r; lia).
    assert (0 < 2 ^ (biased_exponent d - 1)) by (apply Z.pow_pos_nonneg; lia). nia.
Qed.

Lemma abs_outcome_scale s a b : abs_outcome s (a * (2 ^ 52 * 2 ^ 1022)) (b * 2 ^ 1022) = abs_outcome s (a * 2 ^ 52) b.
Proof. unfold abs_outcome. by rewrite Z.mul_assoc, <- Zmult_compare_compat_r by lia. Qed.

(** The first digit of the mantissa is aligned with the most significant digit of [D]. *)
Lemma msd_aligned (D : digits) M t E cm m :
  0 <= t -> E = kDigitBits * Z.of_nat (length D - 1) + t -> (0 < length D)%nat ->
  (cm * 2 ^ 64 + m) * 2 ^ 52 = M * 2 ^ t * 2 ^ 64 ->
  ((digit_base * val (drop (S (length D - 1)) D) + cm) * 2 ^ 64 + m) * bpow (length D - 1) * 2 ^ 52 = M * 2 ^ E * 2 ^ 64.
Proof.
  intros Ht Et Hlen Ecm. pose proof kDigitBits_cases. rewrite drop_ge by lia. cbn [val].
  rewrite Z.mul_0_r, Z.add_0_l, Et, bpow_bits, pow2_split by lia.
  replace (M * (2 ^ (kDigitBits * Z.of_nat (length D - 1)) * 2 ^ t) * 2 ^ 64)
    with (M * 2 ^ t * 2 ^ 64 * 2 ^ (kDigitBits * Z.of_nat (length D - 1))) by ring.
  rewrite <- Ecm. ring.
Qed.

Lemma compare_magnitudes_spec x d :
  bigint_ok x -> is_zero x = false -> isfinite d = true -> scaled d <> 0 ->
  wp (compare_magnitudes x d)
    (fun c => c = abs_outcome (sign x) (val (digits_of x) * unit_scale) (magnitude d)).
Proof.
  intros Hx Hz Hf Hd0. destruct (ok_nonempty x Hx Hz) as [Hne _]. destruct Hx as [HX NX _ _].
  pose proof (val_pos_of_normalized _ HX NX Hne) as Hpos. pose proof (magnitude_nonneg d).
  pose proof (fraction_bounds d) as HF. pose proof (exponent_bounds d) as HE.
  assert (0 < unit_scale) as Hu by (apply Z.pow_pos_nonneg; lia).
  unfold compare_magnitudes. rewrite shiftr_exponent. unfold isfinite in Hf.
  apply wp_bind, wp_dcheck; [done|]. destruct (Z.ltb_spec (biased_exponent d - 1023) 0) as [Hneg | He].
  { apply wp_bind, wp_dcheck; [by rewrite Hz|]. apply wp_ret, abs_outcome_gt.
    pose proof (magnitude_below_one d ltac:(lia)). nia. }
  rewrite (magnitude_normal d) by lia. rewrite lor_hidden.
  set (E := biased_exponent d - 0x3FF) in *. set (M := fraction d + 2 ^ 52) in *.
  assert (2 ^ 52 <= M < 2 ^ 53) as HM by (unfold M; lia).
  assert (unit_scale = 2 ^ 52 * 2 ^ 1022) as -> by (unfold unit_scale; by rewrite <- pow2_split by lia).
  rewrite abs_outcome_scale. pose proof kDigitBits_cases as Hw. unfold digit, bi_length.
  assert (0 < length (digits_of x))%nat as Hlen by (destruct (digits_of x); [done | simpl; lia]).
  apply wp_bind, wp_rd; [lia | done|]. intros top Htop Hdt.
  destruct (bitlength_spec x top HX NX Htop) as (Ht0 & Hbits & Hc). unfold bi_length in Hbits.
  set (L := Z.of_nat (length (digits_of x)) * kDigitBits - CountLeadingZeros top) in *.
  assert (0 < 2 ^ E) by (apply Z.pow_pos_nonneg; lia).
  assert (1 <= L) by (unfold L; nia).
  destruct (Z.ltb_spec L (E + 1)) as [Hlt | Hge].
  { apply wp_ret, abs_outcome_lt. assert (2 ^ L <= 2 ^ E) by (apply Z.pow_le_mono_r; lia). nia. }
  destruct (Z.ltb_spec (E + 1) L) as [Hgt | Hle].
  { apply wp_ret, abs_outcome_gt. assert (2 * 2 ^ E <= 2 ^ (L - 1)) by (rewrite <- Z.pow_succ_r by lia; apply Z.pow_le_mono_r; lia). nia. }
  assert (L = E + 1) as EL by lia. set (t := kDigitBits - 1 - CountLeadingZeros top).
  assert (E = kDigitBits * Z.of_nat (length (digits_of x) - 1) + t) as Et by (unfold t, L in *; nia).
  apply wp_bind, wp_dcheck.
  { apply Z.eqb_eq. rewrite EL, Z.add_simpl_r, Et. symmetry. apply mod_eq_of_bounds; [unfold t; lia|].
    exists (Z.of_nat (length (digits_of x) - 1)). ring. }
  apply wp_bind. eapply wp_mono; [apply mantissa_msd_spec; [done | unfold t; lia]|].
  intros [[cm m] r] (_ & Hs & Ecm).
  destruct (compare_step (digits_of x) (length (digits_of x) - 1) top cm m r (M * 2 ^ E) HX Htop Hs) as (Cgt & Clt & Ceq).
  { apply (msd_aligned _ M t); (done || unfold t; lia). }
  destruct (Z.ltb_spec cm top); [by apply wp_ret, abs_outcome_gt; auto|].
  destruct (Z.ltb_spec top cm); [by apply wp_ret, abs_outcome_lt; auto|].
  apply compare_digits_spec; [done | unfold bi_length; lia|]. apply Ceq. lia.
Qed.

(** What [CompareToDouble] returns. *)
Definition double_outcome (v : Z) (d : Z) : ComparisonResult :=
  if isnan d then kUndefined
  else if isfinite d then comparison_of (v * unit_scale ?= scaled d)
  else if negative d then kGreaterThan else kLessThan.

Lemma double_classes d :
  is_double d ->
  isnan d = true \/ (isnan d = false /\ d = infinity (negative d) /\ isfinite d = false) \/
  (isnan d = false /\ isfinite d = true /\ d <> infinity true /\ d <> infinity false).
Proof.
  intros Hd. pose proof (double_fields d Hd) as E. unfold isnan, isfinite.
  destruct (Z.eqb_spec (biased_exponent d) 2047) as [Ee | Ee]; cbn [negb andb].
  - destruct (Z.eqb_spec (fraction d) 0) as [Ef | Ef]; cbn [negb]; [|by left]. right. left.
    split_and!; [done | | done]. rewrite Ee, Ef in E. rewrite E at 1. by destruct (negative d).
  - right. right. split_and!; [done | done | |]; intros ->; by apply Ee.
Qed.

Lemma CompareToDouble_spec x d :
  bigint_ok x -> is_double d -> wp (CompareToDouble x d) (fun c => c = double_outcome (toZ x) d).
Proof.
  intros Hx Hd. unfold CompareToDouble, double_outcome. change (kSignMask + kInfinity) with (infinity true).
  change kInfinity with (infinity false).
  destruct (double_classes d Hd) as [-> | [(-> & E & Hf) | (-> & Hf & Hp & Hn)]].
  { by apply wp_ret. }
  { rewrite Hf. destruct (negative d); rewrite E; by apply wp_ret. }
  rewrite Hf, (proj2 (Z.eqb_neq _ _) Hp), (proj2 (Z.eqb_neq _ _) Hn), lt_zero_scaled, eq_zero_scaled by done.
  assert (0 < unit_scale) as Hu by (apply Z.pow_pos_nonneg; lia). pose proof (scaled_abs d) as Hab.
  destruct (is_zero x) eqn:Hz.
  - assert (sign x = false) as -> by (apply (ok_sign x Hx); apply bool_decide_eq_true in Hz; by apply nil_length_inv).
    rewrite (ok_is_zero x Hx Hz). cbn [xorb]. case_bool_decide; [|case_bool_decide as Hd0].
    + apply wp_ret. by rewrite (proj2 (Z.compare_gt_iff _ _)) by lia.
    + apply wp_bind, wp_dcheck; [done|]. apply wp_ret. by rewrite Hd0.
    + apply wp_bind, wp_dcheck; [done|]. apply wp_ret. by rewrite (proj2 (Z.compare_lt_iff _ _)) by lia.
  - destruct (ok_nonempty x Hx Hz) as [_ Hx0].
    assert (scaled d <> 0 -> bool_decide (scaled d < 0) = sign x ->
      abs_outcome (sign x) (val (digits_of x) * unit_scale) (magnitude d) = comparison_of (toZ x * unit_scale ?= scaled d)) as Hsame.
    { intros Hd0 Es. rewrite (abs_outcome_signed _ _ _ 1), !Z.mul_1_r by lia. do 2 f_equal.
      - unfold toZ, signed_val. destruct (sign x); lia.
      - rewrite <- Es, <- Hab. unfold signed_val. case_bool_decide; lia. }
    destruct (sign_cases x Hx) as [(Sx & Vx & Px) | (Sx & Vx & Px)]; rewrite Sx in *;
      case_bool_decide as Hlt; cbn [xorb].
    + apply wp_ret. by rewrite (proj2 (Z.compare_gt_iff _ _)) by nia.
    + case_bool_decide as Hd0.
      * apply wp_bind, wp_dcheck; [done|]. apply wp_ret. by rewrite (proj2 (Z.compare_gt_iff _ _)) by nia.
      * rewrite <- Hsame by done. rewrite <- Sx. by apply compare_magnitudes_spec.
    + rewrite bool_decide_eq_false_2 by lia. rewrite <- Hsame by (done || lia). rewrite <- Sx.
      apply compare_magnitudes_spec; (done || lia).
    + apply wp_ret. by rewrite (proj2 (Z.compare_lt_iff _ _)) by nia.
Qed.

(** ** Numbers *)

Definition number_ok (y : Number) : Prop :=
  match y with
  | Smi n => kSmiMinValue <= n <= kSmiMaxValue
  | HeapNumber d => is_double d
  end.

(** The result of comparing the integer [v] with a number. *)
Definition number_outcome (v : Z) (y : Number) : ComparisonResult :=
  match y with
  | Smi n => comparison_of (v ?= n)
  | HeapNumber d => double_outcome v d
  end.

Lemma smi_bounds n : kSmiMinValue <= n <= kSmiMaxValue -> - 2 ^ 31 <= n < 2 ^ 31.
Proof. unfold kSmiMaxValue, kSmiMinValue. destruct kSmiValueSize_cases as [-> | ->]; lia. Qed.

Lemma smi_abs_eq n : kSmiMinValue <= n <= kSmiMaxValue -> smi_abs n = Z.abs n /\ is_digit (Z.abs n).
Proof.
  intros Hn%smi_bounds. pose proof digit_base_ge. assert (is_digit (Z.abs n)) by (unfold is_digit; lia).
  split; [by apply wrap_small | done].
Qed.

(** The magnitude of an object with a single digit, and of a longer one. *)
Lemma single_digit x : bigint_ok x -> bi_length x = 1%nat -> exists d, digits_of x = [d] /\ is_digit d /\ Z.abs (toZ x) = d /\ d <> 0.
Proof.
  intros Hx Hl. pose proof (toZ_abs x Hx) as Ha. destruct Hx as [HX NX _ _]. unfold bi_length in Hl.
  destruct (digits_of x) as [|d [|]]; try done. exists d. apply (digits_ok_lookup _ 0 d) in HX; [|done]. cbn [val] in Ha.
  rewrite Z.mul_0_r, Z.add_0_r in Ha. assert (d <> 0) by (intros ->; by apply NX). by split_and!; [| apply HX .. | |].
Qed.

Lemma several_digits x : bigint_ok x -> (1 < bi_length x)%nat -> digit_base <= Z.abs (toZ x).
Proof. intros Hx Hl. pose proof (ok_lower x 1 Hx Hl) as Hlow. by rewrite bpow_1 in Hlow. Qed.

Lemma CompareToNumber_spec x y :
  bigint_ok x -> number_ok y -> CompareToNumber x y = Ok (number_outcome (toZ x) y).
Proof.
  intros Hx Hy. destruct y as [n | d]; cbn [CompareToNumber number_outcome].
  2: { by destruct (wp_elim _ _ (CompareToDouble_spec x d Hx Hy)) as (c & -> & ->). }
  destruct (smi_abs_eq n Hy) as [-> Hn]. unfold is_digit in Hn. pose proof (several_digits x Hx) as Hs.
  destruct (is_zero x) eqn:Hz.
  - pose proof (ok_is_zero x Hx Hz) as E. rewrite E.
    assert (sign x = false) as -> by (apply (ok_sign x Hx); apply bool_decide_eq_true in Hz; by apply nil_length_inv).
    destruct (Z.ltb_spec n 0), (Z.eqb_spec n 0), (Z.compare_spec 0 n); (done || lia).
  - destruct (ok_nonempty x Hx Hz) as [Hne Hx0].
    assert (bi_length x <> 0)%nat as Hl0 by (apply bool_decide_eq_false in Hz; done).
    destruct (sign_cases x Hx) as [(Sx & Vx & Px) | (Sx & Vx & Px)]; rewrite Sx; destruct (Z.ltb_spec n 0); cbn [xorb].
    2, 3: case_bool_decide as Hl; [specialize (Hs Hl)|
      destruct (single_digit x Hx ltac:(lia)) as (d & E & Hd & Ea & Hd0); unfold digit; rewrite E; cbn;
      destruct (Z.ltb_spec (Z.abs n) d), (Z.ltb_spec d (Z.abs n))].
    all: destruct (Z.compare_spec (toZ x) n); (done || lia).
Qed.

Lemma EqualToNumber_spec x y :
  bigint_ok x -> number_ok y ->
  EqualToNumber x y = Ok (match number_outcome (toZ x) y with kEqual => true | _ => false end).
Proof.
  intros Hx Hy. destruct y as [n | d]; cbn [EqualToNumber number_outcome].
  2: { by destruct (wp_elim _ _ (CompareToDouble_spec x d Hx Hy)) as (c & -> & ->). }
  destruct (smi_abs_eq n Hy) as [-> Hn]. unfold is_digit in Hn. pose proof (several_digits x Hx) as Hs.
  destruct (Z.eqb_spec n 0) as [-> | Hn0].
  { rewrite (ok_zero x Hx). destruct (Z.compare_spec (toZ x) 0); case_bool_decide; (done || lia). }
  destruct (decide (bi_length x = 1)%nat) as [Hl | Hl].
  - rewrite bool_decide_eq_true_2 by done. destruct (single_digit x Hx Hl) as (d & E & Hd & Ea & Hd0). unfold digit. rewrite E.
    destruct (sign_cases x Hx) as [(-> & Vx & Px) | (-> & Vx & Px)]; destruct (Z.ltb_spec n 0); cbn;
      try destruct (Z.eqb_spec d (Z.abs n)); destruct (Z.compare_spec (toZ x) n); (done || lia).
  - rewrite bool_decide_eq_false_2 by done. cbn [andb].
    destruct (Z.compare_spec (toZ x) n) as [E | |]; [|done..]. destruct (decide (1 < bi_length x)%nat) as [Hg | Hg]; [specialize (Hs Hg); lia|].
    exfalso. apply Hn0. rewrite <- E. apply (ok_is_zero x Hx). apply bool_decide_eq_true. lia.
Qed.

(** The integer a number denotes, if it denotes one. *)
Definition integral (y : Number) : bool :=
  match y with Smi _ => true | HeapNumber d => isfinite d && (scaled d mod unit_scale =? 0) end.

(** The number multiplied by [2 ^ 1074]. *)
Definition number_scaled (y : Number) : Z :=
  match y with Smi n => n * unit_scale | HeapNumber d => scaled d end.

Lemma FromNumber_spec y :
  number_ok y ->
  wp (FromNumber y) (fun r =>
    if integral y then exists z, r = inr z /\ bigint_ok z /\ toZ z * unit_scale = number_scaled y
    else r = inl kBigIntFromNumber).
Proof.
  intros Hy. destruct y as [n | d]; cbn [FromNumber integral number_scaled].
  - pose proof (smi_bounds n Hy). apply wp_bind, wp_NewFromInt; [unfold kMinInt, kMaxInt; lia|]. intros z Hz E. apply wp_ret.
    exists z. by rewrite E.
  - unfold eq_floor. destruct (isfinite d) eqn:Hf; cbn [negb orb andb]; [|by apply wp_ret].
    destruct (Z.eqb_spec (scaled d mod unit_scale) 0); cbn [negb]; [|by apply wp_ret].
    apply wp_bind. eapply wp_mono; [by apply NewFromDouble_spec|]. intros z Hz. apply wp_ret. by exists z.
Qed.
End bigint_double_spec.
