(* ===== verification/BigIntToDouble.v ===== *)
(** [MutableBigInt::ToDouble] of [src/objects/bigint.cc] rounds to the nearest double, ties
    to even, and to an infinity beyond the largest finite double. *)

From Stdlib Require Import ZArith Lia.
From stdpp Require Import base tactics numbers list option.
From S2P Require Import Prelude Double Digit Digits VectorArithmetic Processor SignedArithmetic BigIntObject BigIntSpec BigIntArith BigIntBits BigIntDouble BigIntDoubleSpec.

#[local] Open Scope Z_scope.

Section bigint_to_double.
Context `{Config, Platform}.
Context {alloc : Allocator} {smi : SmiConfig}.
Implicit Types x : BigInt.

(** ** The rounding decision *)

(** How to round when [rem] is left over and the last place is worth [2 * half]. *)
Definition rounding_of (rem half : Z) : Rounding :=
  match rem ?= half with Lt => kRoundDown | Eq => kTie | Gt => kRoundUp end.

Lemma round_rest_spec i x :
  digits_ok (digits_of x) -> (i <= bi_length x)%nat ->
  wp (round_rest i x) (fun r => r = if val (take i (digits_of x)) =? 0 then kTie else kRoundUp).
Proof.
  intros HX. induction i as [|i IH]; intros Hi; cbn [round_rest]; [done|].
  unfold bi_length in *. apply wp_bind, wp_rd; [lia | done|]. intros d Hd Hdig.
  rewrite (val_take_S _ _ _ Hd). pose proof (val_nonneg _ (digits_ok_take i _ HX)). pose proof (bpow_pos i).
  destruct (Z.eqb_spec d 0) as [-> | Hd0]; cbn [negb].
  - rewrite Z.mul_0_r, Z.add_0_r. apply IH. lia.
  - apply wp_ret. destruct (Z.eqb_spec (val (take i (digits_of x)) + bpow i * d) 0); [|done].
    unfold is_digit in Hdig. nia.
Qed.

(** The bits of the magnitude below position [tb + 1] of digit [i]. *)
Lemma low_bits_mod D i c tb :
  digits_ok D -> D !! i = Some c -> 0 <= tb < kDigitBits ->
  val D mod 2 ^ (kDigitBits * Z.of_nat i + tb + 1) = val (take i D) + bpow i * (c mod 2 ^ (tb + 1)).
Proof.
  intros HD Hc Ht. pose proof (lookup_lt_Some _ _ _ Hc) as Hi. pose proof (val_split D i) as Hv.
  rewrite (drop_S _ _ _ Hc), length_take_le in Hv by lia. cbn [val] in Hv.
  pose proof (val_bounds _ (digits_ok_take i D HD)) as Hl. rewrite length_take_le in Hl by lia.
  pose proof (bpow_pos i). pose proof kDigitBits_cases.
  assert (2 ^ (kDigitBits * Z.of_nat i + tb + 1) = bpow i * 2 ^ (tb + 1)) as ->
    by (rewrite bpow_bits, <- pow2_split by lia; f_equal; lia).
  assert (digit_base = 2 ^ (tb + 1) * 2 ^ (kDigitBits - tb - 1)) as Eb
    by (unfold digit_base; rewrite <- pow2_split by lia; f_equal; lia).
  assert (0 < 2 ^ (tb + 1)) by (apply Z.pow_pos_nonneg; lia).
  pose proof (Z.mod_pos_bound c (2 ^ (tb + 1)) ltac:(lia)). pose proof (Z_div_mod_eq_full c (2 ^ (tb + 1))) as DM.
  apply mod_eq_of_bounds; [nia|].
  exists (c / 2 ^ (tb + 1) + 2 ^ (kDigitBits - tb - 1) * val (drop (S i) D)).
  rewrite Hv, Eb. rewrite DM at 1. ring.
Qed.

Lemma top_bit_mod c tb :
  0 <= tb -> c mod 2 ^ (tb + 1) = (if Z.testbit c tb then 2 ^ tb else 0) + c mod 2 ^ tb.
Proof.
  intros Ht. assert (0 < 2 ^ tb) by (apply Z.pow_pos_nonneg; lia).
  rewrite pow2_split, Z.pow_1_r, Z.rem_mul_r, <- Z.testbit_spec' by lia. destruct (Z.testbit c tb); cbn [Z.b2z]; lia.
Qed.

Lemma land_pow2 c tb : 0 <= tb -> Z.land c (2 ^ tb) = if Z.testbit c tb then 2 ^ tb else 0.
Proof.
  intros Ht. apply Z.bits_inj'. intros n Hn. rewrite Z.land_spec, Z.pow2_bits_eqb by done.
  destruct (Z.eqb_spec tb n) as [-> | Hne].
  - destruct (Z.testbit c n); [by rewrite Z.pow2_bits_true | by rewrite Z.bits_0].
  - rewrite andb_false_r. destruct (Z.testbit c tb); [by rewrite Z.pow2_bits_false | by rewrite Z.bits_0].
Qed.

Lemma round_bits_spec x i c tb :
  digits_ok (digits_of x) -> digits_of x !! i = Some c -> 0 <= tb < kDigitBits ->
  wp (round_bits x i c tb) (fun r =>
    r = rounding_of (val (digits_of x) mod 2 ^ (kDigitBits * Z.of_nat i + tb + 1))
                    (2 ^ (kDigitBits * Z.of_nat i + tb))).
Proof.
  intros HX Hc Ht. pose proof kDigitBits_cases. pose proof (lookup_lt_Some _ _ _ Hc) as Hi.
  rewrite (low_bits_mod _ _ c tb) by done. rewrite top_bit_mod by lia.
  assert (2 ^ (kDigitBits * Z.of_nat i + tb) = bpow i * 2 ^ tb) as -> by (rewrite bpow_bits, <- pow2_split by lia; done).
  pose proof (val_bounds _ (digits_ok_take i _ HX)) as Hl. rewrite length_take_le in Hl by lia. pose proof (bpow_pos i).
  assert (0 < 2 ^ tb) by (apply Z.pow_pos_nonneg; lia). pose proof (Z.mod_pos_bound c (2 ^ tb) ltac:(lia)).
  unfold round_bits. rewrite Z.shiftl_mul_pow2, Z.mul_1_l by lia.
  assert (uint64 (2 ^ tb) = 2 ^ tb) as ->.
  { apply Z.mod_small. split; [lia|]. apply Z.pow_lt_mono_r; lia. }
  rewrite land_pow2 by lia. replace (2 ^ tb - 1) with (Z.ones tb) by (rewrite Z.ones_equiv; lia). rewrite Z.land_ones by lia.
  unfold rounding_of. destruct (Z.testbit c tb); [|].
  - destruct (Z.eqb_spec (2 ^ tb) 0); [lia|]. destruct (Z.eqb_spec (c mod 2 ^ tb) 0) as [-> | Hm]; cbn [negb].
    + rewrite Z.add_0_r. eapply wp_mono; [apply round_rest_spec; [done | unfold bi_length; lia]|]. intros r ->.
      destruct (Z.eqb_spec (val (take i (digits_of x))) 0) as [-> | Hne].
      * by rewrite (proj2 (Z.compare_eq_iff _ _)) by lia.
      * by rewrite (proj2 (Z.compare_gt_iff _ _)) by lia.
    + apply wp_ret. by rewrite (proj2 (Z.compare_gt_iff _ _)) by nia.
  - apply wp_ret. by rewrite (proj2 (Z.compare_lt_iff _ _)) by nia.
Qed.

(** The decision for a magnitude of [L] bits: the lowest [L - 53] of them are rounded off. *)
Lemma DecideRounding_spec x u i c L :
  digits_ok (digits_of x) -> digits_of x !! i = Some c -> u = 53 - L + kDigitBits * Z.of_nat i ->
  - kDigitBits <= u -> (0 < u -> i = O) ->
  wp (DecideRounding x u i c) (fun r =>
    r = if 53 <? L then rounding_of (val (digits_of x) mod 2 ^ (L - 53)) (2 ^ (L - 54)) else kRoundDown).
Proof.
  intros HX Hc Hu Hlow Hi. pose proof kDigitBits_cases. unfold DecideRounding.
  destruct (Z.ltb_spec 0 u) as [Hpos | Hpos].
  { apply wp_ret. destruct (Z.ltb_spec 53 L); [|done]. rewrite (Hi Hpos) in Hu. lia. }
  destruct (Z.ltb_spec u 0) as [Hneg | Hneg].
  - destruct (Z.ltb_spec 53 L); [|nia]. eapply wp_mono; [apply round_bits_spec; (done || lia)|]. intros r ->.
    f_equal; [f_equal|]; f_equal; lia.
  - apply wp_bind, wp_dcheck; [by apply Z.eqb_eq; lia|]. destruct i as [|i].
    + apply wp_ret. destruct (Z.ltb_spec 53 L); [lia | done].
    + destruct (Z.ltb_spec 53 L); [|nia]. pose proof (lookup_lt_Some _ _ _ Hc).
      unfold digit. apply wp_bind, wp_rd; [lia | done|]. intros d Hd _.
      eapply wp_mono; [apply round_bits_spec; (done || lia)|]. intros r ->.
      f_equal; [f_equal|]; f_equal; lia.
Qed.

(** ** The mantissa *)

(** The leading 53 bits of the digits from [i] on, for a magnitude of [L] bits; the
    mantissa leaves out the first of them. *)
Definition leading (D : digits) (L : Z) (i : nat) : Z :=
  Z.shiftl (val (drop i D)) (53 - L + kDigitBits * Z.of_nat i).

(** When all digits or all 53 bits have been read_digits, these are the leading bits of the
    whole number. *)
Lemma leading_all D L i :
  digits_ok D -> (i <= length D)%nat -> (0 < 53 - L + kDigitBits * Z.of_nat i -> i = O) ->
  leading D L i = Z.shiftl (val D) (53 - L).
Proof.
  intros HD Hi Hu. unfold leading. destruct i as [|i]; [rewrite drop_0; f_equal; lia|].
  set (j := S i) in *. set (u := 53 - L + kDigitBits * Z.of_nat j) in *. pose proof kDigitBits_cases.
  assert (u <= 0) by (apply Z.nlt_ge; intros Hp; discriminate (Hu Hp)). pose proof (val_split D j) as Hv. rewrite length_take_le, bpow_bits in Hv by done.
  pose proof (val_bounds _ (digits_ok_take j D HD)) as Hl. rewrite length_take_le, bpow_bits in Hl by done.
  assert (val (drop j D) = Z.shiftl (val D) (- (kDigitBits * Z.of_nat j))) as ->.
  { rewrite Z.shiftl_opp_r, Z.shiftr_div_pow2 by lia. symmetry. apply (div_mod_unique _ _ _ (val (take j D))); lia. }
  rewrite <- (Z.opp_involutive u), Z.shiftl_opp_r, Z.shiftl_opp_r, Z.shiftr_shiftr by lia.
  rewrite <- Z.shiftl_opp_r. f_equal. lia.
Qed.

(** Consuming the next digit when at least all its bits fit. *)
Lemma leading_fits D L i d m :
  digits_ok D -> D !! i = Some d -> kDigitBits <= 53 - L + kDigitBits * Z.of_nat (S i) <= 52 ->
  0 <= m -> 2 ^ 52 + m = leading D L (S i) ->
  2 ^ 52 + Z.lor m (uint64 (Z.shiftl d (53 - L + kDigitBits * Z.of_nat (S i) - kDigitBits))) = leading D L i.
Proof.
  intros HD Hd Hu Hm E. set (u := 53 - L + kDigitBits * Z.of_nat (S i)) in *.
  pose proof kDigitBits_cases. pose proof (digits_ok_lookup D i d HD Hd) as Hdig. unfold is_digit in Hdig.
  unfold leading in *. fold u in E. replace (53 - L + kDigitBits * Z.of_nat i) with (u - kDigitBits) by lia.
  rewrite Z.shiftl_mul_pow2 in E by lia. rewrite !Z.shiftl_mul_pow2 by lia. rewrite (val_drop_S D i d Hd).
  assert (2 ^ u = digit_base * 2 ^ (u - kDigitBits)) as Eu by (unfold digit_base; rewrite <- pow2_split by lia; f_equal; lia).
  assert (0 < 2 ^ (u - kDigitBits)) by (apply Z.pow_pos_nonneg; lia).
  assert (2 ^ 52 = 2 ^ (52 - u) * 2 ^ u) as E52 by (rewrite <- pow2_split by lia; f_equal; lia).
  assert (2 ^ u <= 2 ^ 52) by (apply Z.pow_le_mono_r; lia).
  assert (0 <= d * 2 ^ (u - kDigitBits) < 2 ^ u) as Hr by nia.
  unfold uint64. rewrite (Z.mod_small (d * _)) by lia.
  assert (m = (val (drop (S i) D) - 2 ^ (52 - u)) * 2 ^ u) as -> by lia.
  rewrite lor_shiftl_add, Z.mul_sub_distr_r, <- E52, Eu by lia. ring.
Qed.

(** Consuming the leading bits of the next digit. *)
Lemma leading_partial D L i d m :
  digits_ok D -> D !! i = Some d -> 0 < 53 - L + kDigitBits * Z.of_nat (S i) <= 52 ->
  53 - L + kDigitBits * Z.of_nat (S i) < kDigitBits ->
  0 <= m -> 2 ^ 52 + m = leading D L (S i) ->
  2 ^ 52 + Z.lor m (Z.shiftr d (kDigitBits - (53 - L + kDigitBits * Z.of_nat (S i)))) = leading D L i.
Proof.
  intros HD Hd Hu Hw Hm E. set (u := 53 - L + kDigitBits * Z.of_nat (S i)) in *.
  pose proof kDigitBits_cases. pose proof (digits_ok_lookup D i d HD Hd) as Hdig. unfold is_digit in Hdig.
  unfold leading in *. fold u in E. replace (53 - L + kDigitBits * Z.of_nat i) with (- (kDigitBits - u)) by lia.
  rewrite Z.shiftl_opp_r, !Z.shiftr_div_pow2 by lia. rewrite Z.shiftl_mul_pow2 in E by lia. rewrite (val_drop_S D i d Hd).
  assert (digit_base = 2 ^ u * 2 ^ (kDigitBits - u)) as Eb by (unfold digit_base; rewrite <- pow2_split by lia; f_equal; lia).
  assert (0 < 2 ^ (kDigitBits - u)) by (apply Z.pow_pos_nonneg; lia).
  assert (2 ^ 52 = 2 ^ (52 - u) * 2 ^ u) as E52 by (rewrite <- pow2_split by lia; f_equal; lia).
  assert (0 <= d / 2 ^ (kDigitBits - u) < 2 ^ u) by (split; [apply Z.div_pos | apply Z.div_lt_upper_bound]; nia).
  assert (m = (val (drop (S i) D) - 2 ^ (52 - u)) * 2 ^ u) as -> by lia.
  rewrite lor_shiftl_add, Eb by lia.
  replace (d + 2 ^ u * 2 ^ (kDigitBits - u) * val (drop (S i) D))
    with (d + 2 ^ u * val (drop (S i) D) * 2 ^ (kDigitBits - u)) by ring. rewrite Z.div_add by lia. lia.
Qed.

(** The part of the mantissa that comes from the most significant digit. *)
Lemma leading_msd D d :
  digits_ok D -> (0 < length D)%nat -> D !! (length D - 1)%nat = Some d -> d <> 0 ->
  let L := Z.of_nat (length D) * kDigitBits - CountLeadingZeros d in
  let shift := CountLeadingZeros d + 1 + (64 - kDigitBits) in
  2 ^ 52 + Z.shiftr (if shift =? 64 then 0 else uint64 (Z.shiftl d shift)) 12 = leading D L (length D - 1) /\
  shift - 12 = 53 - L + kDigitBits * Z.of_nat (length D - 1).
Proof.
  intros HD Hlen Hd Hd0 L shift. pose proof (digits_ok_lookup D _ d HD Hd) as Hdig.
  destruct (CountLeadingZeros_spec d Hdig Hd0) as (Hc & Hlo & Hhi). pose proof kDigitBits_cases as Hw.
  assert (shift - 12 = 53 - L + kDigitBits * Z.of_nat (length D - 1)) as Eu by (unfold shift, L; nia). split; [|done].
  unfold leading. rewrite <- Eu, (drop_S _ _ _ Hd), drop_ge by lia. cbn [val]. rewrite Z.mul_0_r, Z.add_0_r.
  set (c := CountLeadingZeros d) in *. set (A := d * 2 ^ (shift - 1)).
  assert (A = d * 2 ^ c * 2 ^ (64 - kDigitBits)) as EA.
  { unfold A. rewrite <- Z.mul_assoc, <- pow2_split by lia. do 2 f_equal. lia. }
  assert (2 ^ 64 = digit_base * 2 ^ (64 - kDigitBits)) as E64 by (unfold digit_base; rewrite <- pow2_split by lia; f_equal; lia).
  assert (0 < 2 ^ (64 - kDigitBits)) by (apply Z.pow_pos_nonneg; lia).
  assert (2 ^ 63 <= A < 2 ^ 64) as HA by (change (2 ^ 63) with (2 ^ 64 / 2); rewrite E64, EA; split; [apply Z.div_le_upper_bound|]; nia).
  assert ((if shift =? 64 then 0 else uint64 (Z.shiftl d shift)) = 2 * A - 2 ^ 64) as ->.
  { assert (d * 2 ^ shift = 2 * A) as E2 by (unfold A; replace shift with (shift - 1 + 1) at 1 by lia; rewrite pow2_split by lia; ring).
    destruct (Z.eqb_spec shift 64) as [Es | Es].
    - assert (A = d * 2 ^ 63) by (unfold A; by rewrite Es). lia.
    - rewrite Z.shiftl_mul_pow2, E2 by lia. apply mod_eq_of_bounds; [lia | exists 1; lia]. }
  rewrite Z.shiftr_div_pow2 by lia. transitivity (A / 2 ^ 11).
  - replace (2 * A - 2 ^ 64) with ((A - 2 ^ 63) * 2) by lia. change (2 ^ 12) with (2 ^ 11 * 2).
    rewrite Z.div_mul_cancel_r by lia. replace (A - 2 ^ 63) with (A + (- 2 ^ 52) * 2 ^ 11) by lia. rewrite Z.div_add by lia. lia.
  - destruct (Z.le_gt_cases 0 (shift - 12)).
    + rewrite Z.shiftl_mul_pow2 by lia. unfold A. replace (shift - 1) with (shift - 12 + 11) by lia.
      rewrite pow2_split, Z.mul_assoc, Z.div_mul by lia. done.
    + replace (shift - 12) with (- (12 - shift)) by lia. rewrite Z.shiftl_opp_r, Z.shiftr_div_pow2 by lia. unfold A.
      change (2 ^ 11) with (2 ^ 11). replace 11 with ((12 - shift) + (shift - 1)) at 1 by lia.
      rewrite pow2_split, Z.div_mul_cancel_r by (try apply Z.pow_nonzero; lia). done.
Qed.

(** ** The result before rounding *)

(** The state of [ToDouble] after some digits have been read_digits. *)
Definition read_digits (D : digits) (L m u : Z) (i : nat) (c : Z) : Prop :=
  D !! i = Some c /\ u = 53 - L + kDigitBits * Z.of_nat i /\ - kDigitBits <= u <= 52 /\
  0 <= m /\ 2 ^ 52 + m = leading D L i.

Lemma read_digits_fits D L m u i c d :
  digits_ok D -> read_digits D L m u (S i) c -> kDigitBits <= u -> D !! i = Some d ->
  read_digits D L (Z.lor m (uint64 (Z.shiftl d (u - kDigitBits)))) (u - kDigitBits) i d.
Proof.
  intros HD (_ & -> & Hu & Hm & E) Hw Hd. pose proof kDigitBits_cases. split_and!; [done | lia | lia | lia | |].
  - apply Z.lor_nonneg. split; [done|]. unfold uint64. apply Z.mod_pos_bound. lia.
  - apply leading_fits; (done || lia).
Qed.

Lemma read_digits_partial D L m u i c d :
  digits_ok D -> read_digits D L m u (S i) c -> 0 < u < kDigitBits -> D !! i = Some d ->
  read_digits D L (Z.lor m (Z.shiftr d (kDigitBits - u))) (u - kDigitBits) i d.
Proof.
  intros HD (_ & -> & Hu & Hm & E) Hw Hd. pose proof kDigitBits_cases. split_and!; [done | lia | lia | lia | |].
  - apply Z.lor_nonneg. split; [done|]. apply Z.shiftr_nonneg. apply (digits_ok_lookup D i d HD Hd).
  - apply leading_partial; (done || lia).
Qed.

Lemma ToDouble_unrounded x :
  bigint_ok x -> is_zero x = false ->
  exists L, let X := val (digits_of x) in 1 <= L /\ 2 ^ (L - 1) <= X < 2 ^ L /\
    ToDouble x = Ok (if 1024 <? L then infinity (sign x)
      else round_and_assemble (sign x) (L - 1) (Z.shiftl X (53 - L) - 2 ^ 52)
        (if 53 <? L then rounding_of (X mod 2 ^ (L - 53)) (2 ^ (L - 54)) else kRoundDown)).
Proof.
  intros Hx Hz. destruct (ok_nonempty x Hx Hz) as [Hne _]. destruct Hx as [HX NX _ _].
  unfold ToDouble. rewrite Hz. pose proof kDigitBits_cases as Hw.
  assert (0 < length (digits_of x))%nat as Hlen by (destruct (digits_of x); [done | simpl; lia]).
  destruct (lookup_lt_is_Some_2 (digits_of x) (bi_length x - 1)) as [top Htop]; [unfold bi_length; lia|].
  destruct (bitlength_spec x top HX NX Htop) as (Ht0 & Hbits & Hc).
  assert (digit x (bi_length x - 1) = Ok top) as -> by (unfold digit, rd; by rewrite Htop). cbn [mbind res_bind]. unfold bi_length in *. set (D := digits_of x) in *.
  destruct (leading_msd D top HX Hlen Htop Ht0) as [Em Eu].
  remember (Z.of_nat (length D) * kDigitBits - CountLeadingZeros top) as L eqn:EL.
  remember (CountLeadingZeros top + 1 + (64 - kDigitBits)) as sh eqn:Esh.
  exists L. cbv zeta. split; [nia|]. split; [done|]. destruct (Z.ltb_spec 1024 L) as [|HL]; [done|].
  match goal with |- ?t = Ok ?v => enough (wp t (fun r => r = v)) as Hwp end.
  { by destruct (wp_elim _ _ Hwp) as (r & -> & ->). }
  apply wp_bind, wp_dcheck; [apply Z.leb_le; lia|]. apply wp_bind, wp_dcheck; [apply Z.leb_le; lia|].
  set (m0 := Z.shiftr (if sh =? 64 then 0 else uint64 (Z.shiftl top sh)) 12) in *.
  assert (read_digits D L m0 (sh - 12) (length D - 1) top) as H0'.
  { split_and!; [done | done | lia | lia | | done]. unfold m0. apply Z.shiftr_nonneg.
    destruct (sh =? 64); [done|]. apply Z.mod_pos_bound. lia. }
  apply wp_bind. eapply (wp_mono _ (fun '(m, u, i, c) => read_digits D L m u i c /\ (0 < u -> (0 < i)%nat -> u < kDigitBits))).
  { destruct (Z.leb_spec kDigitBits (sh - 12)); cbn [andb]; [|apply wp_ret; split; [done | lia]].
    case_bool_decide as Hi; [|apply wp_ret; split; [done | lia]].
    destruct (length D - 1)%nat as [|i] eqn:Ei; [lia|]. replace (S i - 1)%nat with i by lia.
    apply wp_bind, wp_rd; [unfold D in *; lia | done|]. intros d Hd _. apply wp_ret. split; [by eapply read_digits_fits|]. lia. }
  intros [[[m1 u1] i1] c1] [H1' Hlt]. apply wp_bind.
  eapply (wp_mono _ (fun '(m, u, i, c) => read_digits D L m u i c /\ (0 < u -> i = O))).
  { destruct (Z.ltb_spec 0 u1); cbn [andb]; [|apply wp_ret; split; [done | lia]].
    case_bool_decide as Hi; [|apply wp_ret; split; [done | lia]]. specialize (Hlt ltac:(done) Hi).
    apply wp_bind, wp_dcheck; [by apply Z.ltb_lt|]. destruct i1 as [|i]; [lia|]. replace (S i - 1)%nat with i by lia.
    pose proof (lookup_lt_Some _ _ _ (proj1 H1')).
    apply wp_bind, wp_rd; [unfold D in *; lia | done|]. intros d Hd _. apply wp_ret. split; [by eapply read_digits_partial|]. lia. }
  intros [[[m2 u2] i2] c2] [(Hc2 & Eu2 & Hu2 & Hm2 & E2) Hi2]. apply wp_bind. pose proof (lookup_lt_Some _ _ _ Hc2).
  eapply wp_mono; [apply (DecideRounding_spec x u2 i2 c2 L); (done || lia)|]. intros r ->. apply wp_ret.
  do 2 f_equal. rewrite <- (leading_all D L i2), <- E2 by (try done; lia). lia.
Qed.

(** ** Rounding *)

(** Whether a number with the leading bits [q] is rounded up. *)
Definition rounds_up (q : Z) (r : Rounding) : bool :=
  match r with kRoundUp => true | kTie => Z.odd q | kRoundDown => false end.

Definition assembled (s : bool) (e m : Z) : Z := (if s then 2 ^ 63 else 0) + (e + 0x3FF) * 2 ^ 52 + m.

Lemma assemble_bits (s : bool) e m :
  0 <= e <= 1023 -> 0 <= m < 2 ^ 52 ->
  Z.lor (Z.lor (if s then uint64 (Z.shiftl 1 63) else 0) (uint64 (Z.shiftl (e + 0x3FF) kPhysicalSignificandSize))) m
    = assembled s e m.
Proof.
  intros He Hm. unfold kPhysicalSignificandSize, assembled.
  change (uint64 (Z.shiftl 1 63)) with (2 ^ 63). rewrite Z.shiftl_mul_pow2 by lia. unfold uint64. rewrite (Z.mod_small (_ * _)) by lia.
  assert (Z.lor (if s then 2 ^ 63 else 0) ((e + 1023) * 2 ^ 52) = ((if s then 2 ^ 11 else 0) + (e + 1023)) * 2 ^ 52) as ->.
  { destruct s; [|by rewrite Z.lor_0_l]. change (2 ^ 63) with (1 * 2 ^ 63). rewrite lor_shiftl_add by lia. lia. }
  rewrite lor_shiftl_add by lia. destruct s; lia.
Qed.

Lemma assembled_spec (s : bool) e m :
  0 <= e <= 1023 -> 0 <= m < 2 ^ 52 ->
  let d := assembled s e m in
  is_double d /\ isfinite d = true /\ negative d = s /\ fraction d = m /\ magnitude d = (2 ^ 52 + m) * 2 ^ (e + 1022).
Proof.
  intros He Hm d. destruct (compose_fields s (e + 0x3FF) m) as (Hd & Hn & Hb & Hf); [lia | lia|].
  fold (assembled s e m) in Hd, Hn, Hb, Hf. fold d in Hd, Hn, Hb, Hf. split_and!; try (done || apply Hd).
  - unfold isfinite. rewrite Hb. destruct (Z.eqb_spec (e + 1023) 2047); [lia | done].
  - unfold magnitude. rewrite Hb, Hf. destruct (Z.eqb_spec (e + 1023) 0); [lia|].
    replace (e + 1023 - 1) with (e + 1022) by lia. ring.
Qed.

(** A magnitude [q * 2 ^ (e - 52)] with [2 ^ 52 <= q < 2 ^ 53], rounded. *)
Lemma round_and_assemble_spec (s : bool) e q r :
  0 <= e <= 1023 -> 2 ^ 52 <= q < 2 ^ 53 ->
  let k := q + Z.b2z (rounds_up q r) in let d := round_and_assemble s e (q - 2 ^ 52) r in
  if (k =? 2 ^ 53) && (e =? 1023) then d = infinity s
  else is_double d /\ isfinite d = true /\ negative d = s /\ Z.even (fraction d) = Z.even k /\
    magnitude d = k * 2 ^ (e + 1022).
Proof.
  intros He Hq k d. unfold d, round_and_assemble.
  assert ((match r with kRoundUp => true | kTie => Z.land (q - 2 ^ 52) 1 =? 1 | kRoundDown => false end) = rounds_up q r) as ->.
  { destruct r; [done | | done]. cbn. change 1 with (Z.ones 1) at 1. rewrite Z.land_ones by lia. change (2 ^ 1) with 2.
    rewrite Zmod_odd. replace (q - 2 ^ 52) with (q + 2 * (- 2 ^ 51)) by lia. rewrite Z.odd_add_mul_2. by destruct (Z.odd q). }
  unfold k. destruct (rounds_up q r); cbn [Z.b2z].
  2: { rewrite assemble_bits by lia. destruct (Z.eqb_spec (q + 0) (2 ^ 53)); [lia|]. cbn [andb].
    destruct (assembled_spec s e (q - 2 ^ 52)) as (A1 & A2 & A3 & A4 & A5); [lia | lia|].
    split_and!; try (done || apply A1); [|rewrite A5; f_equal; lia].
    rewrite A4. replace (q - 2 ^ 52) with (q + 2 * (- 2 ^ 51)) by lia. by rewrite Z.even_add_mul_2, Z.add_0_r. }
  assert (uint64 (q - 2 ^ 52 + 1) = q - 2 ^ 52 + 1) as -> by (apply Z.mod_small; lia).
  rewrite (Z.shiftr_div_pow2 (q - 2 ^ 52 + 1)) by done. change (2 ^ kPhysicalSignificandSize) with (2 ^ 52).
  destruct (Z.eqb_spec (q + 1) (2 ^ 53)) as [Eq | Nq]; cbn [andb].
  - replace (q - 2 ^ 52 + 1) with (2 ^ 52) by lia. change (2 ^ 52 / 2 ^ 52 =? 0) with false. cbn [negb].
    destruct (Z.eqb_spec e 1023) as [-> | Hne]; [done|]. destruct (Z.ltb_spec 1023 (e + 1)); [lia|].
    rewrite assemble_bits by lia.
    destruct (assembled_spec s (e + 1) 0) as (A1 & A2 & A3 & A4 & A5); [lia | lia|].
    split_and!; try (done || apply A1); [by rewrite A4, Eq|]. rewrite A5, Eq. replace (e + 1 + 1022) with (1 + (e + 1022)) by lia.
    rewrite pow2_split by lia. lia.
  - rewrite Z.div_small by lia. cbn [negb Z.eqb].
    rewrite assemble_bits by lia.
    destruct (assembled_spec s e (q - 2 ^ 52 + 1)) as (A1 & A2 & A3 & A4 & A5); [lia | lia|].
    split_and!; try (done || apply A1); [|rewrite A5; f_equal; lia].
    rewrite A4. replace (q - 2 ^ 52 + 1) with (q + 1 + 2 * (- 2 ^ 51)) by lia. by rewrite Z.even_add_mul_2.
Qed.

(** ** Nearest, ties to even *)

(** [d] is the double nearest to the integer [v], the one with an even fraction if two are
    equally near, and an infinity if [v] is out of range: rounding of IEEE 754. *)
Definition rounds_to (v d : Z) : Prop :=
  if 2 ^ 1024 - 2 ^ 970 <=? Z.abs v then d = infinity (v <? 0)
  else is_double d /\ isfinite d = true /\ negative d = (v <? 0) /\
    forall d', is_double d' -> isfinite d' = true ->
      let err := Z.abs (v * unit_scale - scaled d) in
      let err' := Z.abs (v * unit_scale - scaled d') in
      err <= err' /\ (err = err' -> scaled d' <> scaled d -> Z.even (fraction d) = true).

Definition rounded (X R : Z) : Z :=
  let q := X / 2 ^ R in q + Z.b2z (rounds_up q (rounding_of (X mod 2 ^ R) (2 ^ (R - 1)))).

Lemma rounded_nearest X R j :
  1 <= R ->
  Z.abs (X - rounded X R * 2 ^ R) <= Z.abs (X - j * 2 ^ R) /\
  (Z.abs (X - rounded X R * 2 ^ R) = Z.abs (X - j * 2 ^ R) -> j <> rounded X R -> Z.even (rounded X R) = true).
Proof.
  intros HR. unfold rounded. assert (2 ^ R = 2 * 2 ^ (R - 1)) as EU by (rewrite <- Z.pow_succ_r by lia; f_equal; lia).
  assert (0 < 2 ^ (R - 1)) as Hh by (apply Z.pow_pos_nonneg; lia). set (h := 2 ^ (R - 1)) in *. rewrite EU.
  pose proof (Z_div_mod_eq_full X (2 * h)) as DM. pose proof (Z.mod_pos_bound X (2 * h) ltac:(lia)) as Hm.
  set (q := X / (2 * h)) in *. set (rem := X mod (2 * h)) in *. clearbody q rem. subst X.
  unfold rounding_of. destruct (Z.compare_spec rem h) as [-> | Hl | Hg]; cbn [rounds_up Z.b2z].
  - rewrite <- Z.negb_even. destruct (Z.even q) eqn:Ev; cbn [negb Z.b2z].
    + rewrite Z.add_0_r. split; [|done]. destruct (Z.le_gt_cases j q); nia.
    + split; [destruct (Z.le_gt_cases j q); nia|]. intros _ _. by rewrite Z.even_add, Ev.
  - rewrite Z.add_0_r. destruct (Z.lt_trichotomy j q) as [? | [-> | ?]]; [|lia|]; split; try nia.
  - destruct (Z.lt_trichotomy j (q + 1)) as [? | [-> | ?]]; [|lia|]; split; try nia.
Qed.

(** The doubles from [2 ^ (R + 52)] on are multiples of [2 ^ R]. *)
Lemma double_grid d R :
  0 <= R -> (exists j, magnitude d = j * (2 ^ R * unit_scale)) \/ magnitude d < 2 ^ (R + 52) * unit_scale.
Proof.
  intros HR. pose proof (fraction_bounds d) as Hf. pose proof (exponent_bounds d). unfold magnitude, unit_scale.
  rewrite <- !pow2_split by lia. destruct (Z.eqb_spec (biased_exponent d) 0).
  { right. assert (2 ^ 52 <= 2 ^ (R + 52 + 1074)) by (apply Z.pow_le_mono_r; lia). lia. }
  destruct (Z.le_gt_cases (R + 1074) (biased_exponent d - 1)).
  - left. exists ((fraction d + 2 ^ 52) * 2 ^ (biased_exponent d - 1 - (R + 1074))).
    rewrite <- Z.mul_assoc, <- pow2_split by lia. do 2 f_equal. lia.
  - right. assert (2 ^ 53 * 2 ^ (biased_exponent d - 1) <= 2 ^ (R + 52 + 1074))
      by (rewrite <- pow2_split by lia; apply Z.pow_le_mono_r; lia).
    assert (0 < 2 ^ (biased_exponent d - 1)) by (apply Z.pow_pos_nonneg; lia). nia.
Qed.

(** Distances on the scale of the doubles: [t] is the (signed) value of some double. *)
Lemma nearest_scaled X R t S :
  1 <= R -> 0 < S -> 2 ^ (R + 52) <= X ->
  (exists j, t = j * (2 ^ R * S)) \/ t < 2 ^ (R + 52) * S ->
  let err := Z.abs (X * S - rounded X R * (2 ^ R * S)) in
  err <= Z.abs (X * S - t) /\ (err = Z.abs (X * S - t) -> t <> rounded X R * (2 ^ R * S) -> Z.even (rounded X R) = true).
Proof.
  intros HR HS HX Ht err. assert (err = Z.abs (X - rounded X R * 2 ^ R) * S) as ->.
  { unfold err. rewrite <- (Z.abs_eq S) at 3 by lia. rewrite <- Z.abs_mul. f_equal. ring. }
  destruct Ht as [[j ->] | Ht].
  - assert (Z.abs (X * S - j * (2 ^ R * S)) = Z.abs (X - j * 2 ^ R) * S) as ->.
    { rewrite <- (Z.abs_eq S) at 3 by lia. rewrite <- Z.abs_mul. f_equal. ring. }
    destruct (rounded_nearest X R j HR) as [Hle Hev]. split; [nia|]. intros E Hne. apply Hev; [nia|]. intros ->. by apply Hne.
  - destruct (rounded_nearest X R (2 ^ 52) HR) as [Hle _]. rewrite <- pow2_split, Z.add_comm in Hle by lia.
    rewrite (Z.abs_eq (X - 2 ^ (R + 52))) in Hle by lia. split; [nia|]. intros E. exfalso. nia.
Qed.

(** Out of range means: rounded to [2 ^ 1024]. *)
Lemma overflow_iff X L :
  54 <= L <= 1024 -> 2 ^ (L - 1) <= X < 2 ^ L ->
  (rounded X (L - 53) =? 2 ^ 53) && (L - 1 =? 1023) = (2 ^ 1024 - 2 ^ 970 <=? X).
Proof.
  intros HL HX. set (h := 2 ^ 970). assert (2 ^ 1024 = 2 ^ 54 * h) as E by (unfold h; by rewrite <- pow2_split by lia).
  rewrite E. assert (0 < h) as Hh by (apply Z.pow_pos_nonneg; lia). destruct (Z.eqb_spec (L - 1) 1023) as [EL | NL].
  2: { rewrite andb_false_r. symmetry. apply Z.leb_gt. assert (2 ^ L <= 2 ^ 53 * h)
         by (unfold h; rewrite <- pow2_split by lia; apply Z.pow_le_mono_r; lia). nia. }
  rewrite andb_true_r. replace L with 1024 in * by lia. rewrite E in HX. unfold rounded. change (1024 - 53 - 1) with 970.
  change (1024 - 53) with (1 + 970). rewrite (pow2_split 1 970) by lia. fold h.
  pose proof (Z_div_mod_eq_full X (2 ^ 1 * h)) as DM. pose proof (Z.mod_pos_bound X (2 ^ 1 * h) ltac:(lia)) as Hm.
  set (q := X / (2 ^ 1 * h)) in *. set (rem := X mod (2 ^ 1 * h)) in *. clearbody q rem h. clear E EL HL L. subst X.
  assert (q < 2 ^ 53) as Hq by nia. destruct (Z.eq_dec q (2 ^ 53 - 1)) as [-> | Hne].
  - unfold rounding_of. change (Z.odd (2 ^ 53 - 1)) with true.
    destruct (Z.compare_spec rem h); cbn [rounds_up Z.b2z];
      match goal with |- _ = ?b => destruct b eqn:Eb end; rewrite ?Z.leb_le, ?Z.leb_gt in Eb; (reflexivity || (exfalso; lia)).
  - assert (Z.b2z (rounds_up q (rounding_of rem h)) <= 1) by (destruct (rounds_up _ _); cbn; lia).
    rewrite (proj2 (Z.eqb_neq _ _)) by lia. symmetry. apply Z.leb_gt. nia.
Qed.

Lemma signed_error (s : bool) X S (a : Z) : Z.abs (signed_val s X * S - a) = Z.abs (X * S - signed_val s a).
Proof. unfold signed_val. destruct s; lia. Qed.

Lemma leading_range X L :
  1 <= L -> 2 ^ (L - 1) <= X < 2 ^ L ->
  2 ^ 52 <= Z.shiftl X (53 - L) < 2 ^ 53 /\ (53 < L -> Z.shiftl X (53 - L) = X / 2 ^ (L - 53)).
Proof.
  intros HL HX. assert (53 < L -> Z.shiftl X (53 - L) = X / 2 ^ (L - 53)) as Hex.
  { intros Hlt. replace (53 - L) with (- (L - 53)) by lia. by rewrite Z.shiftl_opp_r, Z.shiftr_div_pow2 by lia. }
  split; [|done]. destruct (Z.lt_ge_cases 53 L) as [Hlt | Hge].
  - rewrite Hex by done. assert (0 < 2 ^ (L - 53)) by (apply Z.pow_pos_nonneg; lia).
    split; [apply Z.div_le_lower_bound | apply Z.div_lt_upper_bound]; try done; rewrite <- pow2_split by lia;
      [replace (L - 53 + 52) with (L - 1) by lia | replace (L - 53 + 53) with L by lia]; lia.
  - rewrite Z.shiftl_mul_pow2 by lia. assert (0 < 2 ^ (53 - L)) by (apply Z.pow_pos_nonneg; lia).
    assert (2 ^ 52 = 2 ^ (L - 1) * 2 ^ (53 - L)) as -> by (rewrite <- pow2_split by lia; f_equal; lia).
    assert (2 ^ 53 = 2 ^ L * 2 ^ (53 - L)) as -> by (rewrite <- pow2_split by lia; f_equal; lia). nia.
Qed.

Lemma ToDouble_spec x : bigint_ok x -> wp (ToDouble x) (rounds_to (toZ x)).
Proof.
  intros Hx. assert (0 < unit_scale) as HS by (apply Z.pow_pos_nonneg; lia).
  destruct (is_zero x) eqn:Hz.
  { unfold ToDouble. rewrite Hz, (ok_is_zero x Hx Hz). apply wp_ret. unfold rounds_to.
    split_and!; [done .. |]. intros d' _ _. cbv zeta. change (scaled 0) with 0. split; [lia|]. intros E Hne. exfalso. lia. }
  destruct (ToDouble_unrounded x Hx Hz) as (L & HL1 & HXL & ->). apply wp_Ok.
  set (X := val (digits_of x)) in *. set (s := sign x).
  assert (0 < 2 ^ (L - 1)) by (apply Z.pow_pos_nonneg; lia).
  assert ((toZ x <? 0) = s) as Hs.
  { unfold toZ. fold X. fold s. unfold signed_val. destruct s; [apply Z.ltb_lt | apply Z.ltb_ge]; lia. }
  unfold rounds_to. rewrite (toZ_abs x Hx), Hs. fold X.
  destruct (Z.ltb_spec 1024 L) as [Hbig | HL].
  { assert (2 ^ 1024 <= 2 ^ (L - 1)) by (apply Z.pow_le_mono_r; lia).
    assert (0 < 2 ^ 970) by (apply Z.pow_pos_nonneg; lia). by rewrite (proj2 (Z.leb_le _ _)) by lia. }
  destruct (leading_range X L HL1 HXL) as [Hq Hex].
  set (r := if 53 <? L then _ else _). pose proof (round_and_assemble_spec s (L - 1) _ r ltac:(lia) Hq) as HR.
  cbv zeta in HR. set (d := round_and_assemble _ _ _ _) in *. set (k := _ + Z.b2z _) in HR.
  assert (k = if 53 <? L then rounded X (L - 53) else Z.shiftl X (53 - L)) as Ek.
  { unfold k, r. destruct (Z.ltb_spec 53 L); [|cbn; lia]. rewrite Hex by done. unfold rounded.
    replace (L - 53 - 1) with (L - 54) by lia. done. }
  assert ((k =? 2 ^ 53) && (L - 1 =? 1023) = (2 ^ 1024 - 2 ^ 970 <=? X)) as Eo.
  { rewrite Ek. destruct (Z.ltb_spec 53 L); [apply overflow_iff; lia|]. rewrite (proj2 (Z.eqb_neq _ _)) by lia.
    symmetry. apply Z.leb_gt. assert (2 ^ L <= 2 ^ 970) by (apply Z.pow_le_mono_r; lia).
    assert (2 ^ 1024 = 2 ^ 54 * 2 ^ 970) as -> by (by rewrite <- pow2_split by lia). lia. }
  rewrite Eo in HR. destruct (2 ^ 1024 - 2 ^ 970 <=? X); [done|]. destruct HR as (Hd & Hf & Hn & Hev & Hmag).
  split_and!; [apply Hd .. | done | done|]. intros d' Hd' Hf'. cbv zeta.
  unfold toZ. fold X. fold s. rewrite !signed_error, Hev.
  set (t := signed_val s (scaled d')). assert (signed_val s (scaled d) = magnitude d) as Es.
  { unfold scaled. rewrite Hn. unfold signed_val. destruct s; lia. }
  assert (scaled d' <> scaled d -> t <> magnitude d) as Hne.
  { rewrite <- Es. unfold t, signed_val. destruct s; lia. }
  rewrite Es, Hmag in *. rewrite Ek in *. destruct (Z.ltb_spec 53 L) as [Hlt | Hge].
  - assert (2 ^ (L - 1 + 1022) = 2 ^ (L - 53) * unit_scale) as EU by (unfold unit_scale; rewrite <- pow2_split by lia; f_equal; lia).
    rewrite EU in *.
    destruct (nearest_scaled X (L - 53) t unit_scale) as [Hle Hev']; [lia | done | replace (L - 53 + 52) with (L - 1) by lia; lia | | auto].
    pose proof (scaled_abs d') as Ha. assert (Z.abs t = magnitude d') as Ht by (unfold t, signed_val; destruct s; lia).
    destruct (double_grid d' (L - 53) ltac:(lia)) as [[j Ej] | Hl]; [left | right; lia].
    destruct (Z.abs_eq_or_opp t) as [Eo' | Eo']; [exists j | exists (- j)]; lia.
  - assert (Z.shiftl X (53 - L) * 2 ^ (L - 1 + 1022) = X * unit_scale) as EX.
    { rewrite Z.shiftl_mul_pow2, <- Z.mul_assoc, <- pow2_split by lia. unfold unit_scale. do 2 f_equal. lia. }
    rewrite EX in *. split; [lia|]. intros E Hd''. exfalso. apply (Hne Hd''). lia.
Qed.
End bigint_to_double.
