(* ===== verification/BigIntString.v ===== *)
(** BigInts and strings: the functions of [src/objects/bigint.cc] that print a BigInt, and
    those of [src/numbers/conversions.cc] that read one.  A string is the list of its code
    units; an iterator is the list of the code units from its position on. *)

From Stdlib Require Import ZArith Lia.
From stdpp Require Import base tactics numbers list option.
From S2P Require Import Prelude Digit Digits VectorArithmetic Processor Multiply FromString ToString BigIntObject.

#[local] Open Scope Z_scope.

(** ** Whitespace *)

(** [u_charType(c) == U_SPACE_SEPARATOR] of the ICU library: the general category [Zs] of
    Unicode, whose members in Latin-1 are the space and the no-break space. *)
Class UnicodeData := {
  is_space_separator : Z -> bool;
  space_separator_latin1 c : 0 <= c <= 255 -> is_space_separator c = (c =? 0x20) || (c =? 0xA0);
}.

(** The contents of a sequential string that was just allocated. *)
Class StringAllocator := {
  raw_string : nat -> list Z;
  length_raw_string n : length (raw_string n) = n;
}.

(** [State] and [Sign] of [conversions.cc]. *)
Inductive State : Type := kRunning | kError | kJunk | kEmpty | kZero | kDone.
Inductive Sign : Type := kNegative | kPositive | kNone.
Inductive Behavior : Type := kStringToBigInt | kLiteral.

#[export] Instance State_eq_dec : EqDecision State.
Proof. solve_decision. Defined.
#[export] Instance Sign_eq_dec : EqDecision Sign.
Proof. solve_decision. Defined.

(** The fields of [StringToIntHelper]; [cursor_] is a position in the subject. *)
Record StringToIntHelper : Type := mkHelper {
  helper_radix_ : Z;
  cursor_ : nat;
  helper_sign_ : Sign;
  leading_zero_ : bool;
  allow_binary_and_octal_prefixes_ : bool;
  allow_trailing_junk_ : bool;
  state_ : State;
}.

Definition set_state (h : StringToIntHelper) (s : State) : StringToIntHelper :=
  mkHelper (helper_radix_ h) (cursor_ h) (helper_sign_ h) (leading_zero_ h)
    (allow_binary_and_octal_prefixes_ h) (allow_trailing_junk_ h) s.
Definition set_helper_sign (h : StringToIntHelper) (s : Sign) : StringToIntHelper :=
  mkHelper (helper_radix_ h) (cursor_ h) s (leading_zero_ h)
    (allow_binary_and_octal_prefixes_ h) (allow_trailing_junk_ h) (state_ h).
Definition set_helper_radix (h : StringToIntHelper) (radix : Z) : StringToIntHelper :=
  mkHelper radix (cursor_ h) (helper_sign_ h) (leading_zero_ h)
    (allow_binary_and_octal_prefixes_ h) (allow_trailing_junk_ h) (state_ h).
Definition set_leading_zero (h : StringToIntHelper) : StringToIntHelper :=
  mkHelper (helper_radix_ h) (cursor_ h) (helper_sign_ h) true
    (allow_binary_and_octal_prefixes_ h) (allow_trailing_junk_ h) (state_ h).
Definition set_cursor (h : StringToIntHelper) (cursor : nat) : StringToIntHelper :=
  mkHelper (helper_radix_ h) cursor (helper_sign_ h) (leading_zero_ h)
    (allow_binary_and_octal_prefixes_ h) (allow_trailing_junk_ h) (state_ h).

Definition char_plus : Z := 43.

Section bigint_string.
Context `{Config, Platform, UnicodeData, StringAllocator}.
Context {alloc : Allocator} {fft : FftMultiplier}.

(** [IsOneByteWhitespace] and the [kIsWhiteSpaceOrLineTerminator] bit of
    [kOneByteCharFlags[c]]. *)
Definition IsOneByteWhitespace (c : Z) : bool :=
  (c =? 0x09) || (c =? 0x0B) || (c =? 0x0C) || (c =? 0x20) || (c =? 0xA0).
Definition one_byte_space_flag (c : Z) : bool := IsOneByteWhitespace c || (c =? 0x0D) || (c =? 0x0A).

Definition IsWhiteSpaceSlow (c : Z) : bool :=
  is_space_separator c || ((c <? 0x0D) && ((c =? 0x09) || (c =? 0x0B) || (c =? 0x0C))) || (c =? 0xFEFF).
Definition IsLineTerminator (c : Z) : bool :=
  (c =? 0x000A) || (c =? 0x000D) || (c =? 0x2028) || (c =? 0x2029).
Definition IsWhiteSpaceOrLineTerminatorSlow (c : Z) : bool := IsWhiteSpaceSlow c || IsLineTerminator c.

Definition IsWhiteSpaceOrLineTerminator (c : Z) : res bool :=
  if negb ((0 <=? c) && (c <=? 255)) then mret (IsWhiteSpaceOrLineTerminatorSlow c)
  else
    dcheck (Bool.eqb (IsWhiteSpaceOrLineTerminatorSlow c) (one_byte_space_flag c));;
    mret (one_byte_space_flag c).

(** The position of the next code unit that is not whitespace; the function returns
    whether it is before the end. *)
Fixpoint AdvanceToNonspace (current : list Z) : res (list Z) :=
  match current with
  | [] => mret []
  | c :: rest =>
      space ← IsWhiteSpaceOrLineTerminator c;
      if negb space then mret current else AdvanceToNonspace rest
  end.

(** ** Reading a BigInt *)

Definition isDigit (x radix : Z) : bool :=
  ((48 <=? x) && (x <=? 57) && (x <? 48 + radix)) ||
  ((10 <? radix) && (97 <=? x) && (x <? 97 + radix - 10)) ||
  ((10 <? radix) && (65 <=? x) && (x <? 65 + radix - 10)).

(** [*current]. *)
Definition deref (current : list Z) : res Z :=
  match current with [] => Err OutOfBounds | c :: _ => mret c end.

(** The loop that skips leading zeros: the position behind the zeros, and whether there were any. *)
Fixpoint skip_leading_zeros (current : list Z) (seen : bool) : res (list Z * bool) :=
  match current with
  | [] => if seen then mret ([], true) else Err OutOfBounds
  | c :: rest => if c =? char_0 then skip_leading_zeros rest true else mret (current, seen)
  end.

(** The radix prefix, for [radix_ == 0] or [radix_ == 16]: either a final state, or the
    helper and the position behind the prefix. *)
Definition detect_prefix (h : StringToIntHelper) (current : list Z) : res (StringToIntHelper + StringToIntHelper * list Z) :=
  let after_prefix h rest := if bool_decide (rest = []) then mret (inl (set_state h kJunk)) else mret (inr (h, rest)) in
  if helper_radix_ h =? 0 then
    let h := set_helper_radix h 10 in
    c ← deref current;
    if c =? char_0 then
      let current := tail current in
      if bool_decide (current = []) then mret (inl (set_state h kZero))
      else
        c ← deref current;
        if (c =? 120) || (c =? 88) then after_prefix (set_helper_radix h 16) (tail current)
        else if allow_binary_and_octal_prefixes_ h && ((c =? 111) || (c =? 79)) then
          after_prefix (set_helper_radix h 8) (tail current)
        else if allow_binary_and_octal_prefixes_ h && ((c =? 98) || (c =? 66)) then
          after_prefix (set_helper_radix h 2) (tail current)
        else mret (inr (set_leading_zero h, current))
    else mret (inr (h, current))
  else if helper_radix_ h =? 16 then
    c ← deref current;
    if c =? char_0 then
      let current := tail current in
      if bool_decide (current = []) then mret (inl (set_state h kZero))
      else
        c ← deref current;
        if (c =? 120) || (c =? 88) then after_prefix h (tail current)
        else mret (inr (set_leading_zero h, current))
    else mret (inr (h, current))
  else mret (inr (h, current)).

(** The digits behind the sign and the prefix. *)
Definition detect_digits (h : StringToIntHelper) (subject current : list Z) : res StringToIntHelper :=
  '(current, zeros) ← skip_leading_zeros current false;
  let h := if (zeros : bool) then set_leading_zero h else h in
  if bool_decide (current = []) then mret (set_state h kZero)
  else
    c ← deref current;
    if negb (leading_zero_ h) && negb (isDigit c (helper_radix_ h)) then mret (set_state h kJunk)
    else
      dcheck ((2 <=? helper_radix_ h) && (helper_radix_ h <=? 36));;
      mret (set_cursor h (length subject - length current)).

Definition DetectRadixInternal (h : StringToIntHelper) (subject : list Z) : res StringToIntHelper :=
  current ← AdvanceToNonspace subject;
  if bool_decide (current = []) then mret (set_state h kEmpty)
  else
    c ← deref current;
    let signed := if c =? char_plus then Some kPositive else if c =? char_minus then Some kNegative else None in
    let rest := match signed with Some _ => tail current | None => current end in
    if bool_decide (rest = []) then mret (set_state h kJunk)
    else
      let h := match signed with Some s => set_helper_sign h s | None => h end in
      r ← detect_prefix h rest;
      match r with
      | inl h => mret h
      | inr (h, current) => detect_digits h subject current
      end.

(** [ParseInt] with [ParseInternal] of [StringToBigIntHelper]: the helper and the
    accumulator. *)
Definition ParseInternal (h : StringToIntHelper) (subject : list Z) : res (StringToIntHelper * FromStringAccumulator) :=
  let acc := FromStringAccumulator_new (Z.to_nat kMaxLength) in
  '(current, acc) ← Parse acc (drop (cursor_ h) subject) (helper_radix_ h);
  match result_ acc with
  | kMaxSizeExceeded => mret (set_state h kError, acc)
  | Result_kOk =>
      if negb (allow_trailing_junk_ h) then
        rest ← AdvanceToNonspace current;
        mret (set_state h (if bool_decide (rest = []) then kDone else kJunk), acc)
      else mret (set_state h kDone, acc)
  end.

Definition ParseInt (h : StringToIntHelper) (subject : list Z) : res (StringToIntHelper * FromStringAccumulator) :=
  h ← DetectRadixInternal h subject;
  if bool_decide (state_ h <> kRunning) then mret (h, FromStringAccumulator_new (Z.to_nat kMaxLength))
  else ParseInternal h subject.

(** The constructors of [StringToBigIntHelper]. *)
Definition StringToBigIntHelper_new (behavior_ : Behavior) : StringToIntHelper :=
  mkHelper 0 0 kNone false true (match behavior_ with kStringToBigInt => false | kLiteral => true end) kRunning.

(** [BigInt::Allocate]. *)
Definition BigInt_Allocate (accumulator : FromStringAccumulator) (negative : bool) : IM BigInt :=
  let digits := ResultLength accumulator in
  call (dcheck (Z.of_nat digits <=? kMaxLength));;
  result ← call (ToHandleChecked (MutableBigInt_New digits));
  result ← with_digitsP result (fun Zd => Processor_FromString Zd accumulator);
  let result := if bool_decide (0 < digits)%nat then set_sign result negative else result in
  call (MakeImmutable result).

(** [GetResult]: [None] is an empty handle without a pending exception. *)
Definition GetResult (behavior_ : Behavior) (subject : list Z) : IM (option BigInt) :=
  '(h, accumulator_) ← call (ParseInt (StringToBigIntHelper_new behavior_) subject);
  if match behavior_ with kStringToBigInt => true | kLiteral => false end &&
     bool_decide (helper_sign_ h <> kNone) && negb (helper_radix_ h =? 10)
  then mret None
  else
    state ←
      (if bool_decide (state_ h = kEmpty) then
         match behavior_ with kStringToBigInt => mret kZero | kLiteral => call (Err DCheckFailed) end
       else mret (state_ h));
    match state with
    | kJunk | kError => mret None
    | kZero => z ← call BigInt_Zero; mret (Some z)
    | kDone =>
        z ← BigInt_Allocate accumulator_ (bool_decide (helper_sign_ h = kNegative)); mret (Some z)
    | kEmpty | kRunning => call (Err DCheckFailed)
    end.

Definition StringToBigInt (string : list Z) : IM (option BigInt) := GetResult kStringToBigInt string.
Definition BigIntLiteral (string : list Z) : IM (option BigInt) := GetResult kLiteral string.

(** ** Printing a BigInt *)

(** [String::kMaxLength] of [v8-primitive.h]. *)
Definition String_kMaxLength : Z := if kDigitBits =? 32 then 2 ^ 28 - 16 else 2 ^ 29 - 24.

(** [while (digit != 0)] of the fast path of [ToString]. *)
Fixpoint push_decimal (fuel : nat) (digit : Z) (out : cursor) : res cursor :=
  if digit =? 0 then mret out
  else
    match fuel with
    | O => Err OutOfFuel
    | S fuel => out ← push out (char_0 + digit mod 10); push_decimal fuel (digit / 10) out
    end.

(** The fast path for one digit and radix 10: the buffer and [chars_written]. *)
Definition ToString_single (x : BigInt) : res (list Z * nat) :=
  digit ← digit x 0;
  let bit_length := kDigitBits - CountLeadingZeros digit in
  let chars_allocated := Z.to_nat (Z.shiftl bit_length 7 / 425 + 1 + Z.b2z (sign x)) in
  out ← push_decimal (Z.to_nat kDigitBits) digit (mkCursor (raw_string chars_allocated) chars_allocated);
  out ← (if sign x then push out char_minus else mret out);
  if bool_decide (pos out = 0)%nat then mret (chars out, chars_allocated)
  else
    dcheck (bool_decide (0 < pos out)%nat);;
    let chars_written := (chars_allocated - pos out)%nat in
    let moved := drop (pos out) (chars out) in
    mret (moved ++ replicate (chars_allocated - chars_written) 0, chars_written).

(** [RightTrimString]: the string with its new length. *)
Definition RightTrimString (string : list Z) (chars_allocated chars_written : nat) : res (list Z) :=
  dcheck (bool_decide (chars_written <= chars_allocated)%nat);;
  mret (take chars_written string).

(** The generic path: the buffer, [chars_allocated] and [chars_written]. *)
Definition ToString_generic (x : BigInt) (radix : Z) : IM (list Z * nat * nat) :=
  call (dcheck ((2 <=? radix) && (radix <=? 36)));;
  chars_allocated ← call (ToStringResultLength (digits_of x) radix (sign x));
  if String_kMaxLength <? chars_allocated then throw kInvalidStringLength
  else
    let chars_allocated := Z.to_nat chars_allocated in
    '(characters, chars_written) ←
      run (Processor_ToString (raw_string chars_allocated) (digits_of x) radix (sign x));
    mret (characters, chars_allocated, chars_written).

(** [BigInt::ToString] with the default [should_throw], [kThrowOnError]; ["0"] is the
    [zero_string] of the factory. *)
Definition BigInt_ToString (x : BigInt) (radix : Z) : IM (list Z) :=
  if is_zero x then mret [char_0]
  else
    '(result, chars_allocated, chars_written) ←
      (if bool_decide (bi_length x = 1)%nat && (radix =? 10) then
         '(result, chars_written) ← call (ToString_single x);
         mret (result, length result, chars_written)
       else ToString_generic x radix);
    result ← call (RightTrimString result chars_allocated chars_written);
    call (dcheck (bool_decide (length result = chars_written)));;
    call (dcheck (forallb (fun c => negb (c =? kStringZapValue)) result));;
    mret result.

(** ["<a very large BigInt>"]. *)
Definition very_large : list Z :=
  [60; 97; 32; 118; 101; 114; 121; 32; 108; 97; 114; 103; 101; 32; 66; 105; 103; 73; 110; 116; 62].

(** [bigint::Platform], which never asks for an interrupt. *)
Definition default_platform : Platform := {| InterruptRequested := fun _ => false |}.

Definition NoSideEffectsToString (x : BigInt) : res (list Z) :=
  if is_zero x then mret [char_0]
  else if bool_decide (100 < bi_length x)%nat then mret very_large
  else
    chars_allocated ← ToStringResultLength (digits_of x) 10 (sign x);
    dcheck (chars_allocated <=? String_kMaxLength);;
    let chars_allocated := Z.to_nat chars_allocated in
    '((_, (characters, chars_written)), _) ←
      Processor_ToString (H0 := default_platform) (raw_string chars_allocated) (digits_of x) 10 (sign x) ProcessorImpl_new;
    RightTrimString characters chars_allocated chars_written.

(** ** Comparison with strings, and conversion of values *)

Definition CompareToString (x : BigInt) (y : list Z) : IM ComparisonResult :=
  ny ← StringToBigInt y;
  match ny with
  | None => mret kUndefined
  | Some ny => call (CompareToBigInt x ny)
  end.

Definition EqualToString (x : BigInt) (y : list Z) : IM bool :=
  n ← StringToBigInt y;
  match n with
  | None => mret false
  | Some n => call (EqualToBigInt x n)
  end.

(** The values [FromObject] distinguishes. *)
Inductive Object : Type :=
  | JSReceiver (receiver : nat)
  | Boolean (value : bool)
  | BigIntObject (value : BigInt)
  | StringObject (value : list Z)
  | OtherPrimitive.

(** [ToPrimitive] is [JSReceiver::ToPrimitive], which runs the script's own code; both the
    [SyntaxError] and the [TypeError] have the message [kBigIntFromObject]. *)
Definition FromObject (ToPrimitive : nat -> MaybeHandle Object) (obj : Object) : IM BigInt :=
  obj ← match obj with JSReceiver r => ToHandle (ToPrimitive r) | _ => mret obj end;
  match obj with
  | Boolean b => call (NewFromInt (Z.b2z b))
  | BigIntObject x => mret x
  | StringObject s =>
      n ← StringToBigInt s;
      match n with Some n => mret n | None => throw kBigIntFromObject end
  | JSReceiver _ | OtherPrimitive => throw kBigIntFromObject
  end.

(** [DecimalString], and [BigIntLiteralToDecimal] on the processor of the isolate. *)
Definition DecimalString (subject : list Z) : PM (list Z) :=
  '(h, accumulator_) ← lift (ParseInt (StringToBigIntHelper_new kLiteral) subject);
  if bool_decide (state_ h = kZero) then mret [char_0]
  else
    lift (dcheck (bool_decide (state_ h = kDone)));;
    let num_digits := ResultLength accumulator_ in
    '(_, digits) ← Processor_FromString (uninitialized num_digits) accumulator_;
    num_chars ← lift (ToStringResultLength digits 10 false);
    '(_, (out, num_chars)) ← Processor_ToString (raw_string (Z.to_nat num_chars)) digits 10 false;
    mret (take num_chars out).

Definition BigIntLiteralToDecimal (literal : list Z) : PM (list Z) := DecimalString literal.
End bigint_string.
