(* ===== verification/BigIntStringSpec.v ===== *)
(** What [StringToBigInt] of [src/numbers/conversions.cc] accepts: the grammar
    [StringIntegerLiteral] of ECMAScript, and the integer it denotes. *)

From Stdlib Require Import ZArith Lia.
From stdpp Require Import base tactics numbers list option.
From S2P Require Import Prelude Digit Digits VectorArithmetic Processor MulSchoolbook MulKaratsuba MulToom MulFft Multiply FftMultiply FromString FromStringSpec FromStringPowerTwo FromStringLarge Parsing ToString ToStringSpec SignedArithmetic BigIntObject BigIntSpec BigIntArith BigIntString.

#[local] Open Scope Z_scope.

(** ** The number of parts *)

Section part_count.
Context `{Config, Platform}.
Context {alloc : Allocator} {fft : FftMultiplier}.

(** An accumulator that is not filled inline, with at most [n] parts. *)
Definition counted (acc : FromStringAccumulator) (n : nat) : Prop :=
  length (stack_parts_ acc) = kStackParts /\ (stack_parts_used_ acc <= kStackParts)%nat /\
  inline_everything_ acc = false /\ (ResultLength acc <= n)%nat.

Lemma AddPart_count acc part more acc' n :
  counted acc n -> AddPart acc part = Ok (more, acc') -> counted acc' (S n).
Proof.
  intros (Hl & Hu & Hi & Hn). unfold AddPart, push_stack_part, wr. unfold counted, ResultLength in *. case_bool_decide as Hs.
  - rewrite decide_True by lia. intros [= <- <-]. cbn. rewrite length_insert. split_and!; (done || lia).
  - case_bool_decide as Hh; case_bool_decide; intros [= <- <-]; cbn; rewrite ?length_app; cbn; split_and!; (done || lia).
Qed.

Lemma AddPart_multiplier_count acc m part is_last more acc' n :
  counted acc n -> AddPart_multiplier acc m part is_last = Ok (more, acc') -> counted acc' (S n).
Proof.
  intros Hc. pose proof Hc as (Hl & Hu & Hi & Hn). unfold AddPart_multiplier. rewrite (proj1 (proj2 (proj2 Hc))), andb_false_r, orb_true_r. cbn [dcheck mbind res_bind].
  destruct is_last; cbn [mbind res_bind mret res_ret]; [apply AddPart_count; by split_and!|].
  destruct ((max_multiplier_ acc =? 0) || (max_multiplier_ acc =? m)); [apply AddPart_count; by split_and! | done].
Qed.

(** A part that is not the last one takes at least six characters. *)
Lemma part_chars radix n : 2 <= radix <= 36 -> digit_base <= radix ^ Z.of_nat n * radix -> (6 <= n)%nat.
Proof.
  intros Hr Hb. pose proof digit_base_ge. apply Nat.nlt_ge. intros Hn.
  assert (radix ^ Z.of_nat n * radix <= 36 ^ 6).
  { rewrite Z.mul_comm, <- Z.pow_succ_r by lia. transitivity (36 ^ Z.succ (Z.of_nat n)).
    - apply Z.pow_le_mono_l. lia.
    - apply Z.pow_le_mono_r; lia. }
  assert (36 ^ 6 < 2 ^ 32) by reflexivity. lia.
Qed.

Lemma parts_quotient (a b : nat) : (6 + b <= a -> S (b / 6) <= a / 6)%nat.
Proof.
  intros Hab. transitivity ((6 + b) / 6)%nat; [|by apply Nat.Div0.div_le_mono].
  rewrite Nat.add_comm. change 6%nat with (1 * 6)%nat at 2. rewrite Nat.div_add by done. lia.
Qed.

Lemma parse_parts_count radix fuel acc chars rest acc' n :
  2 <= radix <= 36 -> chars <> [] -> counted acc n ->
  parse_parts fuel acc chars radix = Ok (rest, acc') -> counted acc' (n + length chars / 6 + 1).
Proof.
  intros Hr. revert acc chars n. induction fuel as [|fuel IH]; intros acc chars n Hne Hc; [done|]. cbn [parse_parts].
  assert (1 < digit_base) as Hb by (pose proof digit_base_ge; lia).
  destruct (wp_elim _ _ (parse_part_spec radix chars 1 0 0 Hr Hne eq_refl Hb ltac:(lia)))
    as ([[[current m] part] done] & -> & ds & Hcon & Em & _ & _ & _ & Hdone). cbn [mbind res_bind].
  destruct (consumed_elim _ _ _ _ _ Hcon) as (_ & _ & Hl & _ & Hnd).
  destruct (AddPart_multiplier acc m part done) as [[more acc1]|] eqn:EA; [|done]. cbn [mbind res_bind].
  apply (AddPart_multiplier_count _ _ _ _ _ _ n) in EA; [|done].
  assert (forall k, (S n <= k)%nat -> counted acc1 k) as Hmono.
  { intros k Hk. destruct EA as (? & ? & ? & ?). split_and!; (done || lia). }
  destruct more; cbn [negb]; [|intros [= <- <-]; apply Hmono; lia].
  destruct done; [intros [= <- <-]; apply Hmono; lia|]. intros E. destruct (Hnd eq_refl) as [_ Hcur].
  specialize (Hdone eq_refl). rewrite Em, Z.mul_1_l in Hdone. apply part_chars in Hdone; [|done].
  specialize (IH acc1 current (S n) Hcur EA E). pose proof (parts_quotient (length chars) (length current) ltac:(lia)).
  destruct IH as (? & ? & ? & ?). split_and!; (done || lia).
Qed.

Lemma parse_parts_power_two_count cb fuel acc chars rest acc' n :
  1 <= cb <= 5 -> chars <> [] -> counted acc n ->
  parse_parts_power_two fuel acc chars (2 ^ cb) cb = Ok (rest, acc') -> counted acc' (n + length chars / 6 + 1).
Proof.
  intros Hcb. revert acc chars n. induction fuel as [|fuel IH]; intros acc chars n Hne Hc; [done|]. cbn [parse_parts_power_two].
  pose proof kDigitBits_cases as Hw. assert (0 <= kDigitBits <= kDigitBits) as Hb by lia.
  assert (0 <= 0 < 2 ^ (kDigitBits - kDigitBits)) as Hp by (rewrite Z.sub_diag; lia).
  destruct (wp_elim _ _ (parse_part_power_two_spec (2 ^ cb) cb eq_refl Hcb chars 0 kDigitBits Hne Hb Hp))
    as ([[[current part] bl] done] & -> & ds & Hcon & Ebl & _ & _ & _ & Hdone). cbn [mbind res_bind].
  destruct (consumed_elim _ _ _ _ _ Hcon) as (_ & _ & Hl & _ & Hnd).
  destruct (AddPart acc part) as [[more acc1]|] eqn:EA; [|done]. cbn [mbind res_bind].
  apply (AddPart_count _ _ _ _ n) in EA; [|done].
  assert (forall k, (S n <= k)%nat -> counted acc1 k) as Hmono.
  { intros k Hk. destruct EA as (? & ? & ? & ?). split_and!; (done || lia). }
  destruct more; cbn [negb]; [|intros [= <- <-]; apply Hmono; lia].
  destruct done; [intros [= <- <-]; apply Hmono; lia|]. intros E. destruct (Hnd eq_refl) as [_ Hcur].
  specialize (Hdone eq_refl). assert (6 <= length ds)%nat by nia.
  specialize (IH acc1 current (S n) Hcur EA E). pose proof (parts_quotient (length chars) (length current) ltac:(lia)).
  destruct IH as (? & ? & ? & ?). split_and!; (done || lia).
Qed.

Lemma AddPart_inline_flag acc m part is_last more acc' :
  AddPart_multiplier acc m part is_last = Ok (more, acc') -> inline_everything_ acc' = inline_everything_ acc.
Proof.
  unfold AddPart_multiplier, AddPart_inline, AddPart, push_stack_part, wr, dcheck, mbind, res_bind, mret, res_ret.
  intros E. repeat case_match; simplify_eq; reflexivity.
Qed.

Lemma parse_parts_inline_flag radix fuel acc chars rest acc' :
  parse_parts fuel acc chars radix = Ok (rest, acc') -> inline_everything_ acc' = inline_everything_ acc.
Proof.
  revert acc chars. induction fuel as [|fuel IH]; intros acc chars; [done|]. cbn [parse_parts].
  destruct (parse_part chars radix 1 0) as [[[[current m] part] fin]|]; [|done]. cbn [mbind res_bind].
  destruct (AddPart_multiplier acc m part fin) as [[more acc1]|] eqn:EA; [|done]. cbn [mbind res_bind].
  apply AddPart_inline_flag in EA. rewrite <- EA. destruct more; cbn [negb]; [|by intros [= <- <-]].
  destruct fin; [by intros [= <- <-] | apply IH].
Qed.

(** The length of the result of parsing [chars]. *)
Lemma Parse_count radix max_digits chars rest acc :
  2 <= radix <= 36 -> chars <> [] -> inline_safe radix chars ->
  Parse (FromStringAccumulator_new max_digits) chars radix = Ok (rest, acc) ->
  result_ acc = Result_kOk -> (ResultLength acc <= kStackParts `max` (length chars / 6 + 1))%nat.
Proof.
  intros Hr Hne Hsafe E Hok. destruct (wp_elim _ _ (Parse_spec radix max_digits chars Hr Hne Hsafe)) as ([rest' acc'] & E' & Hres).
  rewrite E in E'. injection E' as <- <-. unfold parse_result in Hres. destruct (split_digits radix chars).
  destruct Hres as [[? _] | (_ & _ & [Hin | (Hin & _)])]; [congruence | |].
  { unfold ResultLength. rewrite (io_heap _ _ Hin). pose proof (io_used _ _ Hin). cbn. lia. }
  enough (counted acc (0 + length chars / 6 + 1)) as (_ & _ & _ & Hn) by lia.
  revert E. unfold Parse. assert ((2 <=? radix) && (radix <=? 36) = true) as -> by (apply andb_true_iff; split; apply Z.leb_le; lia).
  cbn [dcheck mbind res_bind]. set (inline := if HAVE_TWODIGIT_T then _ else _). destruct inline; cbn [negb andb].
  - intros E. apply parse_parts_inline_flag in E. cbn in E. congruence.
  - assert (forall r, counted (mkAccumulator (uninitialized kStackParts) [] 0 (hd 0 (uninitialized 1)) (max_digits `max` kStackParts)
      Result_kOk 0 false r) 0) as Hc0.
    { intros r. split_and!; [apply length_uninitialized | cbn; lia | done | cbn; lia]. }
    destruct (Z.eqb_spec (Z.land radix (radix - 1)) 0) as [Ep | _]; [|intros E; by eapply parse_parts_count].
    destruct (power_of_two_radix radix Hr Ep) as (cb & Hcb & -> & Ecb). unfold ParsePowerTwo, rd. rewrite Ecb.
    intros E. by eapply parse_parts_power_two_count.
Qed.
End part_count.

(** ** The grammar *)

Section grammar.
Context `{UnicodeData}.

Fixpoint skip_spaces (cs : list Z) : list Z :=
  match cs with
  | [] => []
  | c :: rest => if IsWhiteSpaceOrLineTerminatorSlow c then skip_spaces rest else cs
  end.

(** Digits and then whitespace up to the end; without digits only if [zero] says that a
    leading zero has been read. *)
Definition digits_value (zero : bool) (radix : Z) (cs : list Z) : option Z :=
  let '(D, rest) := split_digits radix cs in
  if negb zero && bool_decide (D = []) then None
  else if bool_decide (skip_spaces rest = []) then Some (numeral radix D) else None.

(** [StringIntegerLiteral]: whitespace, or a decimal literal with an optional sign, or a
    binary, octal or hexadecimal literal without a sign, between optional whitespace. *)
Definition StringIntegerLiteral (cs : list Z) : option Z :=
  match skip_spaces cs with
  | [] => Some 0
  | 43 :: ds => digits_value false 10 ds
  | 45 :: ds => v ← digits_value false 10 ds; Some (- v)
  | 48 :: x :: ds =>
      if (x =? 120) || (x =? 88) then digits_value false 16 ds
      else if (x =? 111) || (x =? 79) then digits_value false 8 ds
      else if (x =? 98) || (x =? 66) then digits_value false 2 ds
      else digits_value false 10 (48 :: x :: ds)
  | ds => digits_value false 10 ds
  end.

(** ** Characters *)

Lemma latin1_space c : 0 <= c <= 255 -> IsWhiteSpaceOrLineTerminatorSlow c = one_byte_space_flag c.
Proof.
  intros Hc. unfold IsWhiteSpaceOrLineTerminatorSlow, IsWhiteSpaceSlow. rewrite space_separator_latin1 by done.
  apply Bool.eqb_prop.
  apply (small_cases (fun c => Bool.eqb (((c =? 32) || (c =? 160)) || ((c <? 13) && ((c =? 9) || (c =? 11) || (c =? 12))) ||
    (c =? 0xFEFF) || IsLineTerminator c) (one_byte_space_flag c)) 256); [lia | reflexivity].
Qed.

Lemma IsWhiteSpaceOrLineTerminator_spec c : IsWhiteSpaceOrLineTerminator c = Ok (IsWhiteSpaceOrLineTerminatorSlow c).
Proof.
  unfold IsWhiteSpaceOrLineTerminator. destruct (Z.leb_spec 0 c), (Z.leb_spec c 255); cbn [negb andb]; try done.
  rewrite latin1_space by lia. by rewrite Bool.eqb_reflx.
Qed.

Lemma AdvanceToNonspace_spec cs : AdvanceToNonspace cs = Ok (skip_spaces cs).
Proof.
  induction cs as [|c cs IH]; [done|]. cbn [AdvanceToNonspace skip_spaces]. rewrite IsWhiteSpaceOrLineTerminator_spec.
  cbn [mbind res_bind]. by destruct (IsWhiteSpaceOrLineTerminatorSlow c).
Qed.

Lemma skip_spaces_suffix cs : exists pre, cs = pre ++ skip_spaces cs.
Proof.
  induction cs as [|c cs [pre IH]]; [by exists []|]. cbn [skip_spaces].
  destruct (IsWhiteSpaceOrLineTerminatorSlow c); [exists (c :: pre); cbn; by f_equal | by exists []].
Qed.

Definition is_some {A} (o : option A) : bool := match o with Some _ => true | None => false end.

(** The radixes that occur. *)
Definition literal_radix (radix : Z) : Prop := radix = 2 \/ radix = 8 \/ radix = 10 \/ radix = 16.

Lemma isDigit_spec c radix : 0 <= c -> literal_radix radix -> isDigit c radix = is_some (char_digit c radix).
Proof.
  intros Hc Hr. destruct (Z.lt_ge_cases c 128) as [Hlt | Hge].
  - apply Bool.eqb_prop. destruct Hr as [-> | [-> | [-> | ->]]];
      [apply (small_cases (fun c => Bool.eqb (isDigit c 2) (is_some (char_digit c 2))) 128)
      |apply (small_cases (fun c => Bool.eqb (isDigit c 8) (is_some (char_digit c 8))) 128)
      |apply (small_cases (fun c => Bool.eqb (isDigit c 10) (is_some (char_digit c 10))) 128)
      |apply (small_cases (fun c => Bool.eqb (isDigit c 16) (is_some (char_digit c 16))) 128)];
      (lia || reflexivity).
  - assert (char_digit c radix = None) as -> by (unfold char_digit; destruct (Z.ltb_spec 127 c); [done | lia]).
    unfold isDigit. cbn [is_some].
    assert (radix <= 16) by (unfold literal_radix in Hr; lia).
    repeat match goal with |- context [?a <? ?b] => destruct (Z.ltb_spec a b) | |- context [?a <=? ?b] => destruct (Z.leb_spec a b) end; (done || lia).
Qed.

Lemma char_0_digit radix : literal_radix radix -> char_digit 48 radix = Some 0.
Proof. by intros [-> | [-> | [-> | ->]]]. Qed.

Lemma split_zero radix cs : literal_radix radix ->
  split_digits radix (48 :: cs) = let '(D, rest) := split_digits radix cs in (0 :: D, rest).
Proof. intros Hr. cbn [split_digits]. by rewrite char_0_digit. Qed.

(** A leading zero only matters for there being a digit. *)
Lemma digits_value_zero zero radix cs :
  literal_radix radix -> digits_value zero radix (48 :: cs) = digits_value true radix cs.
Proof.
  intros Hr. unfold digits_value. rewrite split_zero by done. destruct (split_digits radix cs) as [D rest].
  cbn [negb andb]. rewrite bool_decide_eq_false_2, andb_false_r by done. rewrite numeral_cons. cbn [Z.mul]. done.
Qed.

(** A character behind a zero that is neither a digit nor whitespace. *)
Lemma digits_value_letter zero x cs :
  0 <= x <= 255 -> char_digit x 10 = None -> one_byte_space_flag x = false -> digits_value zero 10 (48 :: x :: cs) = None.
Proof.
  intros Hx Ed Es. rewrite digits_value_zero by (unfold literal_radix; auto). unfold digits_value. cbn [split_digits]. rewrite Ed.
  cbn [negb andb skip_spaces]. by rewrite latin1_space, Es by done.
Qed.
End grammar.

(** ** Reading *)

Section reading.
Context `{Config, Platform, UnicodeData}.
Context {alloc : Allocator} {pointers : PointerEquality}.
#[local] Existing Instance nested_fft.
#[local] Opaque nested_fft.

(** Lengths of strings that are certainly not too long. *)
Definition readable (n : nat) : Prop := Z.of_nat n < 2 ^ 24.

Definition code_units (cs : list Z) : Prop := Forall (fun c => 0 <= c) cs.

(** The final state and the accumulator for a literal with the value [o]. *)
Definition outcome (h : StringToIntHelper) (acc : FromStringAccumulator) (n : nat) (o : option Z) : Prop :=
  match o with
  | Some v => state_ h = kZero /\ v = 0 \/
      state_ h = kDone /\ holds_value acc v /\ (ResultLength acc <= kStackParts `max` (n / 6 + 1))%nat
  | None => state_ h = kJunk
  end.

Lemma literal_inline_safe radix cs : literal_radix radix -> inline_safe radix cs.
Proof.
  intros Hr. apply inline_fits_safe. intros _. unfold inline_fits, inline_chars, kInlineThreshold, DIV_CEIL, kStackParts, digit_base.
  destruct kDigitBits_cases as [-> | ->]; destruct Hr as [-> | [-> | [-> | ->]]]; vm_compute; reflexivity.
Qed.

Lemma literal_radix_range radix : literal_radix radix -> 2 <= radix <= 36.
Proof. unfold literal_radix. lia. Qed.

Lemma skip_leading_zeros_spec cs seen :
  cs <> [] \/ seen = true ->
  exists rest b pre, skip_leading_zeros cs seen = Ok (rest, b) /\ cs = pre ++ rest /\ (rest = [] -> b = true) /\
    (seen = true -> b = true) /\
    forall z radix, literal_radix radix -> digits_value (z || seen) radix cs = digits_value (z || b) radix rest.
Proof.
  revert seen. induction cs as [|c cs IH]; intros seen Hs; cbn [skip_leading_zeros].
  { destruct Hs as [? | ->]; [done|]. by exists [], true, []. }
  destruct (Z.eqb_spec c char_0) as [-> | Hc]; [|by exists (c :: cs), seen, []].
  destruct (IH true (or_intror eq_refl)) as (rest & b & pre & E & -> & Hn & Hb & Hv).
  exists rest, b, (char_0 :: pre). split_and!; [done | done | done | auto |].
  intros z radix Hr. rewrite <- Hv, orb_true_r by done. apply (digits_value_zero _ _ _ Hr).
Qed.

(** [ParseInternal] from a cursor at which a digit is, or behind a leading zero. *)
Lemma ParseInternal_spec h subject rest :
  drop (cursor_ h) subject = rest -> rest <> [] -> literal_radix (helper_radix_ h) -> allow_trailing_junk_ h = false ->
  readable (length rest) ->
  (leading_zero_ h = false -> fst (split_digits (helper_radix_ h) rest) <> []) ->
  wp (ParseInternal h subject) (fun '(h', acc) =>
    helper_radix_ h' = helper_radix_ h /\ helper_sign_ h' = helper_sign_ h /\
    outcome h' acc (length rest) (digits_value (leading_zero_ h) (helper_radix_ h) rest)).
Proof.
  intros Ed Hne Hr Hj Hlen Hz. unfold readable in Hlen. unfold ParseInternal. rewrite Ed. set (radix := helper_radix_ h) in *.
  pose proof (literal_radix_range _ Hr) as Hr'. pose proof (literal_inline_safe radix rest Hr) as Hsafe.
  destruct (wp_elim _ _ (Parse_spec radix (Z.to_nat kMaxLength) rest Hr' Hne Hsafe)) as ([cur acc] & E & Hres).
  rewrite E. cbn [mbind res_bind]. unfold parse_result in Hres. unfold digits_value. pose proof (split_digits_length radix rest) as Hsl.
  destruct (split_digits radix rest) as [D tail] eqn:Esp. cbn [fst] in *. destruct Hres as [[_ Hbig] | (Hok & -> & Hv)].
  { destruct kMaxLength_bits as [_ Hk]. exfalso. lia. }
  rewrite Hok, Hj. cbn [negb]. rewrite AdvanceToNonspace_spec. apply wp_bind, wp_Ok, wp_ret. split_and!; [done | done|].
  assert (negb (leading_zero_ h) && bool_decide (D = []) = false) as ->.
  { destruct (leading_zero_ h); [done|]. cbn. apply bool_decide_eq_false_2, Hz. done. }
  pose proof (Parse_count _ _ _ _ _ Hr' Hne Hsafe E Hok). case_bool_decide; cbn [outcome state_ set_state]; [by right | done].
Qed.

(** The digits of a literal: what is left of [detect_digits] and [ParseInternal]. *)
Lemma detect_digits_spec h subject pre current :
  subject = pre ++ current -> current <> [] -> code_units subject -> literal_radix (helper_radix_ h) ->
  state_ h = kRunning -> allow_trailing_junk_ h = false -> readable (length subject) ->
  wp (h ← detect_digits h subject current;
      if bool_decide (state_ h <> kRunning) then mret (h, FromStringAccumulator_new (Z.to_nat kMaxLength))
      else ParseInternal h subject)
    (fun '(h', acc) => helper_radix_ h' = helper_radix_ h /\ helper_sign_ h' = helper_sign_ h /\
      exists n, (n <= length subject)%nat /\ outcome h' acc n (digits_value (leading_zero_ h) (helper_radix_ h) current)).
Proof.
  intros -> Hne Hcs Hr Hst Hj Hlen. unfold detect_digits.
  destruct (skip_leading_zeros_spec current false (or_introl Hne)) as (rest & b & zs & -> & Ec & Hb & _ & Hv). cbn [mbind res_bind].
  set (h1 := if b then set_leading_zero h else h).
  assert (helper_radix_ h1 = helper_radix_ h /\ helper_sign_ h1 = helper_sign_ h /\ state_ h1 = kRunning /\
    allow_trailing_junk_ h1 = false /\ leading_zero_ h1 = b || leading_zero_ h) as (E1 & E2 & E3 & E4 & E5).
  { unfold h1. destruct b; by split_and!. }
  assert (digits_value (leading_zero_ h) (helper_radix_ h) current = digits_value (leading_zero_ h1) (helper_radix_ h) rest) as ->.
  { rewrite E5, (orb_comm b), <- Hv, orb_false_r; done. }
  rewrite <- E1, <- E2 in *. assert ((length rest <= length (pre ++ current))%nat) as Hlr by (rewrite Ec, !length_app; lia).
  case_bool_decide as Hrest.
  { apply wp_bind, wp_ret. rewrite bool_decide_eq_true_2 by (cbn; done). apply wp_ret. split_and!; [done | done|].
    exists 0%nat. split; [lia|]. rewrite E5, (Hb Hrest), Hrest. cbn. by left. }
  destruct rest as [|c rest]; [done|]. cbn [deref mbind res_bind]. apply wp_bind.
  assert (0 <= c) as Hc0.
  { rewrite Ec, app_assoc in Hcs. apply Forall_app in Hcs as [_ Hcs]. by apply Forall_cons_1 in Hcs as [? _]. }
  apply wp_bind, wp_ret. rewrite (isDigit_spec c _ Hc0 Hr). destruct (negb (leading_zero_ h1) && negb (is_some (char_digit c (helper_radix_ h1)))) eqn:Ej.
  - apply andb_true_iff in Ej as [Ez%negb_true_iff Ed%negb_true_iff]. apply wp_ret. rewrite bool_decide_eq_true_2 by (cbn; done). apply wp_ret.
    split_and!; [done | done|]. exists 0%nat. split; [lia|]. unfold digits_value. cbn [split_digits]. rewrite Ez.
    destruct (char_digit c (helper_radix_ h1)); [done|]. done.
  - pose proof (literal_radix_range _ Hr). apply wp_bind, wp_dcheck; [apply andb_true_iff; split; apply Z.leb_le; lia|].
    apply wp_ret. rewrite bool_decide_eq_false_2 by (cbn; congruence).
    assert (drop (length (pre ++ current) - length (c :: rest)) (pre ++ current) = c :: rest) as Edrop.
    { rewrite Ec, app_assoc, length_app. replace (_ + _ - _)%nat with (length (pre ++ zs)) by lia. apply drop_app_length. }
    eapply wp_mono; [apply (ParseInternal_spec _ _ (c :: rest)); try done|].
    + unfold readable in *. lia.
    + cbn [set_cursor leading_zero_ helper_radix_]. intros Ez. rewrite Ez in Ej. cbn [negb andb] in Ej. cbn [split_digits].
      destruct (char_digit c (helper_radix_ h1)); [by destruct (split_digits _ rest) | done].
    + intros [h' acc] (? & ? & Ho). split_and!; [done | done|]. by exists (length (c :: rest)).
Qed.

(** The radix and the value of a literal without its sign. *)
Definition unsigned_literal (u : list Z) : Z * option Z :=
  match u with
  | 48 :: x :: ds =>
      if (x =? 120) || (x =? 88) then (16, digits_value false 16 ds)
      else if (x =? 111) || (x =? 79) then (8, digits_value false 8 ds)
      else if (x =? 98) || (x =? 66) then (2, digits_value false 2 ds)
      else (10, digits_value false 10 u)
  | _ => (10, digits_value false 10 u)
  end.

Lemma unsigned_literal_other c u : c <> 48 -> unsigned_literal (c :: u) = (10, digits_value false 10 (c :: u)).
Proof. intros Hc. cbn. repeat (case_match; try done). Qed.

Lemma bind_ret {A B} (a : A) (f : A -> res B) : (mret a ≫= f) = f a.
Proof. done. Qed.

(** The rest of [ParseInt] behind the whitespace and the sign. *)
Lemma detect_prefix_spec h subject pre u :
  subject = pre ++ u -> u <> [] -> code_units subject -> helper_radix_ h = 0 -> leading_zero_ h = false ->
  allow_binary_and_octal_prefixes_ h = true -> state_ h = kRunning -> allow_trailing_junk_ h = false ->
  readable (length subject) ->
  wp (h ← (r ← detect_prefix h u;
           match r with inl h => mret h | inr (h, current) => detect_digits h subject current end);
      if bool_decide (state_ h <> kRunning) then mret (h, FromStringAccumulator_new (Z.to_nat kMaxLength))
      else ParseInternal h subject)
    (fun '(h', acc) => helper_sign_ h' = helper_sign_ h /\ helper_radix_ h' = fst (unsigned_literal u) /\
      exists n, (n <= length subject)%nat /\ outcome h' acc n (snd (unsigned_literal u))).
Proof.
  intros Hsub Hne Hcs Hrad Hz Hp Hst Hj Hlen. unfold detect_prefix. rewrite Hrad. cbn [Z.eqb].
  assert (forall radix (z : bool) cur pre' o, subject = pre' ++ cur -> cur <> [] -> literal_radix radix ->
    o = digits_value z radix cur ->
    wp (h ← detect_digits (mkHelper radix (cursor_ h) (helper_sign_ h) z true (allow_trailing_junk_ h) (state_ h)) subject cur;
        if bool_decide (state_ h <> kRunning) then mret (h, FromStringAccumulator_new (Z.to_nat kMaxLength))
        else ParseInternal h subject)
      (fun '(h', acc) => helper_sign_ h' = helper_sign_ h /\ helper_radix_ h' = radix /\
        exists n, (n <= length subject)%nat /\ outcome h' acc n o)) as Hdet.
  { intros radix z cur pre' o Hs' Hne' Hr ->. eapply wp_mono; [by apply (detect_digits_spec _ subject pre' cur)|].
    intros [h' acc] (? & ? & Ho). by split_and!. }
  assert (literal_radix 10 /\ literal_radix 16 /\ literal_radix 8 /\ literal_radix 2) as (L10 & L16 & L8 & L2)
    by (unfold literal_radix; lia).
  destruct h as [r0 cu sg lz bo tj st]. cbn [helper_radix_ leading_zero_ allow_binary_and_octal_prefixes_ state_ allow_trailing_junk_ helper_sign_ cursor_] in *.
  subst r0 lz bo st tj. destruct u as [|c u]; [done|]. cbn [deref]. rewrite bind_ret.
  unfold set_helper_radix, set_leading_zero, set_state. cbn [helper_radix_ leading_zero_ allow_binary_and_octal_prefixes_ state_ allow_trailing_junk_ helper_sign_ cursor_].
  assert (forall radix x ds, literal_radix radix -> u = x :: ds ->
    wp (h ← (r ← (if bool_decide (ds = []) then mret (inl (mkHelper radix cu sg false true false kJunk))
                  else mret (inr (mkHelper radix cu sg false true false kRunning, ds)));
             match r with inl h => mret h | inr (h, current) => detect_digits h subject current end);
        if bool_decide (state_ h <> kRunning) then mret (h, FromStringAccumulator_new (Z.to_nat kMaxLength))
        else ParseInternal h subject)
      (fun '(h', acc) => helper_sign_ h' = sg /\ helper_radix_ h' = radix /\
        exists n, (n <= length subject)%nat /\ outcome h' acc n (digits_value false radix ds))) as Hpre.
  { intros radix x ds Hr ->. case_bool_decide as Hds.
    - subst ds. apply wp_Ok. split_and!; [done | done|]. exists 0%nat. split; [lia | done].
    - eapply (Hdet radix false ds (pre ++ [c; x])); try done. by rewrite Hsub, <- app_assoc. }
  destruct (Z.eqb_spec c char_0) as [-> | Hc].
  2: { rewrite unsigned_literal_other by done. by eapply (Hdet 10 false (c :: u) pre). }
  cbn [tail]. destruct u as [|x ds].
  { apply wp_Ok. split_and!; [done | done|]. exists 0%nat. split; [lia | by left]. }
  change char_0 with 48 in *. cbn [unsigned_literal]. rewrite bool_decide_eq_false_2 by done. cbn [deref tail andb]. rewrite bind_ret.
  destruct ((x =? 120) || (x =? 88)); [by apply (Hpre 16 x)|].
  destruct ((x =? 111) || (x =? 79)); [by apply (Hpre 8 x)|].
  destruct ((x =? 98) || (x =? 66)); [by apply (Hpre 2 x)|].
  apply (Hdet 10 true (x :: ds) (pre ++ [48])); try done; [by rewrite Hsub, <- app_assoc|]. by apply digits_value_zero.
Qed.

Lemma unsigned_literal_signed u :
  digits_value false 10 u = if fst (unsigned_literal u) =? 10 then snd (unsigned_literal u) else None.
Proof.
  destruct u as [|c [|x ds]]; [done| |]; (destruct (decide (c = 48)) as [-> | Hc]; [|by rewrite unsigned_literal_other]); [done|].
  cbn [unsigned_literal]. assert (forall y, In y [120; 88; 111; 79; 98; 66] -> digits_value false 10 (48 :: y :: ds) = None) as Hl.
  { intros y Hy. cbn in Hy. apply digits_value_letter; [lia | |]; destruct_or! Hy; subst; done. }
  destruct (Z.eqb_spec x 120) as [-> | _]; [by rewrite Hl by (cbn; auto)|].
  destruct (Z.eqb_spec x 88) as [-> | _]; [by rewrite Hl by (cbn; auto)|].
  destruct (Z.eqb_spec x 111) as [-> | _]; [by rewrite Hl by (cbn; auto)|].
  destruct (Z.eqb_spec x 79) as [-> | _]; [by rewrite Hl by (cbn; auto)|].
  destruct (Z.eqb_spec x 98) as [-> | _]; [by rewrite Hl by (cbn; auto 10)|].
  destruct (Z.eqb_spec x 66) as [-> | _]; [by rewrite Hl by (cbn; auto 10)|]. done.
Qed.

(** The grammar with the sign split off. *)
Lemma StringIntegerLiteral_sign s :
  StringIntegerLiteral s =
    match skip_spaces s with
    | [] => Some 0
    | c :: u =>
        if c =? char_plus then digits_value false 10 u
        else if c =? char_minus then Z.opp <$> digits_value false 10 u
        else snd (unsigned_literal (c :: u))
    end.
Proof.
  unfold StringIntegerLiteral. destruct (skip_spaces s) as [|c u]; [done|].
  destruct (Z.eqb_spec c char_plus) as [-> | Hp]; [done|]. destruct (Z.eqb_spec c char_minus) as [-> | Hm]; [done|].
  unfold char_plus, char_minus in *. cbn [unsigned_literal]. repeat (case_match; try (done || congruence)).
Qed.

(** The literal that a final state stands for. *)
Definition parsed (h : StringToIntHelper) (o : option Z) : option Z :=
  if bool_decide (helper_sign_ h <> kNone) && negb (helper_radix_ h =? 10) then None
  else if bool_decide (helper_sign_ h = kNegative) then Z.opp <$> o else o.

Lemma ParseInt_spec s :
  code_units s -> readable (length s) ->
  wp (ParseInt (StringToBigIntHelper_new kStringToBigInt) s) (fun '(h, acc) =>
    (state_ h = kEmpty /\ helper_sign_ h = kNone /\ StringIntegerLiteral s = Some 0) \/
    exists o n, (n <= length s)%nat /\ outcome h acc n o /\ StringIntegerLiteral s = parsed h o).
Proof.
  intros Hcs Hlen. unfold ParseInt, DetectRadixInternal. rewrite StringIntegerLiteral_sign, AdvanceToNonspace_spec. cbn [mbind res_bind].
  destruct (skip_spaces_suffix s) as [pre Es]. destruct (skip_spaces s) as [|c u] eqn:Eu.
  { apply wp_Ok. by left. }
  rewrite bool_decide_eq_false_2 by done. cbn [deref]. rewrite bind_ret.
  assert (forall sg pre' w, s = pre' ++ w -> w <> [] -> 
    wp (h ← (r ← detect_prefix (mkHelper 0 0 sg false true false kRunning) w;
             match r with inl h => mret h | inr (h, current) => detect_digits h s current end);
        if bool_decide (state_ h <> kRunning) then mret (h, FromStringAccumulator_new (Z.to_nat kMaxLength))
        else ParseInternal h s)
      (fun '(h, acc) => exists o n, (n <= length s)%nat /\ outcome h acc n o /\
        helper_sign_ h = sg /\ helper_radix_ h = fst (unsigned_literal w) /\ o = snd (unsigned_literal w))) as Hpre.
  { intros sg pre' w Hs Hw. eapply wp_mono; [by eapply (detect_prefix_spec _ s pre' w)|].
    intros [h acc] (? & ? & n & ? & ?). by exists (snd (unsigned_literal w)), n. }
  set (signed := if c =? char_plus then _ else _). set (rest := match signed with Some _ => _ | None => _ end).
  case_bool_decide as Hr.
  { apply wp_bind, wp_ret. rewrite bool_decide_eq_true_2 by done. apply wp_ret. right. exists None, 0%nat. split_and!; [lia | done|].
    unfold rest, signed in Hr. destruct (c =? char_plus); [cbn in Hr; by subst u|]. destruct (c =? char_minus); [cbn in Hr; by subst u | done]. }
  set (sg := match signed with Some x => x | None => kNone end).
  replace (match signed with Some x => set_helper_sign _ x | None => _ end) with (mkHelper 0 0 sg false true false kRunning)
    by (unfold sg; by destruct signed).
  assert (exists pre', s = pre' ++ rest) as [pre' Es'].
  { unfold rest. destruct signed; [exists (pre ++ [c]); by rewrite <- app_assoc | by exists pre]. }
  eapply wp_mono; [by eapply (Hpre sg pre')|]. intros [h acc] (o & n & Hn & Ho & Esg & Erad & Eo). right. exists o, n.
  split_and!; [done | done|]. unfold parsed. rewrite Esg, Erad, Eo. unfold rest, sg, signed. clear.
  destruct (c =? char_plus); [|destruct (c =? char_minus)].
  - rewrite unsigned_literal_signed. cbn [tail]. rewrite bool_decide_eq_true_2, bool_decide_eq_false_2 by done. by destruct (_ =? 10).
  - rewrite unsigned_literal_signed. cbn [tail]. rewrite !bool_decide_eq_true_2 by done. by destruct (_ =? 10).
  - rewrite !bool_decide_eq_false_2 by tauto. done.
Qed.

(** The outcome of reading a string with the value [o]. *)
Definition reads (o : option Z) (r : MaybeHandle (option BigInt)) (p' : ProcessorImpl) : Prop :=
  uninterrupted p' /\
  match o with
  | Some v => exists z, r = inr (Some z) /\ bigint_ok z /\ toZ z = v
  | None => r = inr None
  end.

Lemma BigInt_Allocate_spec acc v n negative p :
  holds_value acc v -> (ResultLength acc <= kStackParts `max` (n / 6 + 1))%nat -> readable n -> uninterrupted p ->
  wpP (BigInt_Allocate acc negative) p (fun r p' => uninterrupted p' /\
    exists z, r = inr z /\ bigint_ok z /\ toZ z = signed_val negative v).
Proof.
  intros Hv Hcount Hn Hun. unfold readable in Hn. destruct kMaxLength_bits as [_ Hk].
  assert (n / 6 <= n)%nat as Hq by (apply Nat.Div0.div_le_upper_bound; lia).
  assert (Z.of_nat (ResultLength acc) <= kMaxLength) as Hrl.
  { unfold kStackParts in Hcount. assert (2 ^ 24 = 16777216) by reflexivity. lia. }
  unfold BigInt_Allocate. apply wpI_call, wp_dcheck; [by apply Z.leb_le|].
  apply wpI_call, wp_New; [done|]. intros d Hd Hok. unfold with_digitsP. apply wpI_bind, wpI_bind. cbn [digits_of sign].
  assert (kFromStringLargeThreshold <= Z.of_nat (length d) -> Multiplier (length d)) as Hmul.
  { intros _. apply Multiplier_supported; [lia|]. intros _. rewrite Hd. pose proof kDigitBits_cases as Hkb.
    assert (n / 6 <= Z.to_nat (2 ^ 22 - 20))%nat by (apply Nat.Div0.div_le_upper_bound; lia). unfold kStackParts in *. lia. }
  destruct (wpP_elim _ _ _ (Processor_FromString_spec d acc v p Hv Hok Hd (or_intror Hun) Hmul)) as ([s Z'] & p' & E & Hp).
  destruct Hp as (Hs & HlZ & HZ' & _ & Hval & Hint). destruct Hun as [Hs0 Hno].
  assert (s = kOk) as ->.
  { destruct s; [done|]. destruct (proj1 Hint eq_refl) as [? | (m & _ & Hm)]; [congruence|]. by rewrite Hno in Hm. }
  unfold wpP at 1, run. rewrite E. apply wp_Ok. apply wpI_ret. specialize (Hval eq_refl).
  set (sg := if bool_decide (0 < ResultLength acc)%nat then negative else false).
  replace (if bool_decide (0 < ResultLength acc)%nat then set_sign _ negative else _) with (mkBigInt sg Z')
    by (unfold sg; by case_bool_decide).
  apply wpI_call_ret. eapply wp_mono; [apply Canonicalize_spec; [done | lia|]|].
  - intros ->. unfold sg. rewrite bool_decide_eq_false_2; [done|]. cbn in HlZ. lia.
  - intros z [Hz Ez]. split; [done|]. exists z. split_and!; [done | done|]. rewrite Ez, Hval. unfold sg. case_bool_decide as Hlt; [done|].
    assert (Z' = []) as -> by (apply nil_length_inv; lia). rewrite <- Hval. by destruct negative.
Qed.

(** [StringToBigInt] accepts exactly the literals of the grammar. *)
Lemma StringToBigInt_spec s p :
  code_units s -> readable (length s) -> uninterrupted p -> wpP (StringToBigInt s) p (reads (StringIntegerLiteral s)).
Proof.
  intros Hcs Hlen Hun. unfold StringToBigInt, GetResult. apply wpI_call. eapply wp_mono; [by apply ParseInt_spec|].
  assert (wpP (z ← call BigInt_Zero; mret (M := IM) (Some z)) p (reads (Some 0))) as Hzero.
  { apply wpI_call, wp_BigInt_Zero. intros z Hz Ez. apply wpI_ret. split; [done|]. by exists z. }
  intros [h acc] [(Est & Esg & ->) | (o & n & Hn & Ho & ->)]; cbn [andb].
  { rewrite Est, Esg. exact Hzero. }
  unfold parsed. destruct (bool_decide (helper_sign_ h <> kNone) && negb (helper_radix_ h =? 10)); [by apply wpI_ret|].
  unfold outcome in Ho. destruct o as [v|].
  2: { rewrite Ho, (bool_decide_eq_false_2 (kJunk = kEmpty)) by done. apply wpI_bind, wpI_ret, wpI_ret. by case_bool_decide. }
  destruct Ho as [[-> ->] | (-> & Hv & Hc)];
    [rewrite (bool_decide_eq_false_2 (kZero = kEmpty)) by done | rewrite (bool_decide_eq_false_2 (kDone = kEmpty)) by done].
  { case_bool_decide; exact Hzero. }
  apply wpI_bind, wpI_ret, wpI_bind.
  assert (readable n) as Hrn by (unfold readable in *; lia).
  eapply wpP_mono; [by eapply (BigInt_Allocate_spec acc v n)|]. intros r p' (Hun' & z & -> & Hz & Ez). apply wpI_ret. split; [done|].
  case_bool_decide; cbn; eexists; by split_and!.
Qed.
End reading.
