(* ===== verification/BigIntStringPrint.v ===== *)
(** What [BigInt::ToString] of [src/objects/bigint.cc] prints, on its fast path for one digit
    and on the generic path, and that [StringToBigInt] reads it back. *)

From Stdlib Require Import ZArith Lia.
From stdpp Require Import base tactics numbers list option.
From S2P Require Import Prelude Digit Digits VectorArithmetic Processor MulSchoolbook MulKaratsuba MulToom MulFft Multiply FftMultiply FromString FromStringSpec Parsing ToString ToStringSpec Printing SignedArithmetic BigIntObject BigIntSpec BigIntArith BigIntBits BigIntString BigIntStringSpec.

#[local] Open Scope Z_scope.

Section bigint_print.
Context `{Config, Platform, UnicodeData, StringAllocator}.
Context {alloc : Allocator} {pointers : PointerEquality}.
#[local] Existing Instance nested_fft.
#[local] Opaque nested_fft.

(** [cs] is the usual text of the integer [v]: the sign of a negative number, and its digits
    without leading zeros; zero is the single digit. *)
Definition text_of (radix v : Z) (cs : list Z) : Prop :=
  exists D, cs = text (v <? 0) D /\ digits_below radix D /\ numeral radix D = Z.abs v /\ (no_leading_zero D /\ v <> 0 \/ D = [0]).

(** ** The fast path *)

(** A cursor behind which the digits [D] are, in a buffer with any contents. *)
Definition holds_tail (o : cursor) (w : list Z) : Prop := exists pre, length pre = pos o /\ chars o = pre ++ w.

Lemma push_holds_tail o w c : holds_tail o w -> (0 < pos o)%nat ->
  wp (push o c) (fun o' => holds_tail o' (c :: w) /\ pos o = S (pos o')).
Proof.
  intros (pre & Hl & Ec) Hp. destruct o as [cs p]. cbn [chars pos] in *. subst cs. destruct p as [|p]; [lia|].
  destruct pre as [|q pre _] using rev_ind; [cbn in Hl; lia|]. rewrite length_app in Hl. cbn [length] in Hl.
  unfold push. cbn [pos chars]. apply wp_bind, wp_wr; [rewrite !length_app; cbn; lia|]. apply wp_ret. cbn [pos chars].
  split; [|done]. exists pre. cbn [pos chars]. split; [lia|]. rewrite <- app_assoc. replace p with (length pre + 0)%nat at 1 by lia.
  by rewrite insert_app_r.
Qed.

Lemma decimal_char d : 0 <= d < 10 -> char_0 + d = digit_char d.
Proof.
  intros Hd. apply Z.eqb_eq, (small_cases (fun d => char_0 + d =? digit_char d) 10); [lia | reflexivity].
Qed.

Lemma push_decimal_spec fuel d o D (r : nat) :
  holds_tail o (map digit_char D) -> 0 <= d < 2 ^ Z.of_nat fuel -> d < 10 ^ Z.of_nat r -> (r <= pos o)%nat ->
  wp (push_decimal fuel d o) (fun o' => exists D', holds_tail o' (map digit_char (D' ++ D)) /\ digits_below 10 D' /\
    no_leading_zero D' /\ numeral 10 D' = d /\ (pos o = pos o' + length D')%nat).
Proof.
  revert d o D r. induction fuel as [|fuel IH]; intros d o D r Hf Hd Hr Hp; cbn [push_decimal].
  { assert (d = 0) as -> by lia. exists []. split_and!; (done || constructor || (cbn; lia)). }
  destruct (Z.eqb_spec d 0) as [-> | Hd0]; [exists []; split_and!; (done || constructor || (cbn; lia))|].
  destruct r as [|r]; [cbn in Hr; lia|]. rewrite Nat2Z.inj_succ, Z.pow_succ_r in Hr, Hd by lia.
  pose proof (Z.div_mod d 10 ltac:(lia)) as Ediv. pose proof (Z.mod_pos_bound d 10 ltac:(lia)) as Hm.
  rewrite decimal_char by lia. apply wp_bind. eapply wp_mono; [apply push_holds_tail; [done | lia]|]. intros o1 [Hf1 Hp1].
  eapply wp_mono; [apply (IH (d / 10) o1 (d mod 10 :: D) r); [done | | | lia]|].
  - split; [apply Z.div_pos; lia | apply Z.div_lt_upper_bound; lia].
  - apply Z.div_lt_upper_bound; lia.
  - intros o' (D' & Hf' & HD' & Hz & En & Hpos). exists (D' ++ [d mod 10]).
    rewrite <- app_assoc. split_and!; [done | | | rewrite numeral_snoc; lia | rewrite length_app; cbn; lia].
    + apply Forall_app. split; [done | by constructor].
    + destruct D' as [|e D']; [|done]. unfold numeral in En. cbn in En. unfold no_leading_zero. cbn. intros [= E]. lia.
Qed.

(** The estimate of the length: [log10(2)] is less than [128 / 425]. *)
Lemma decimal_length_estimate L : 0 <= L <= 64 -> 2 ^ L <= 10 ^ (Z.shiftl L 7 / 425 + 1).
Proof. intros HL. apply Z.leb_le, (small_cases (fun L => 2 ^ L <=? 10 ^ (Z.shiftl L 7 / 425 + 1)) 65); [lia | reflexivity]. Qed.

Lemma ToString_single_spec s d :
  is_digit d -> d <> 0 ->
  wp (ToString_single (mkBigInt s [d])) (fun '(cs, n) => exists D, digits_below 10 D /\ no_leading_zero D /\ numeral 10 D = d /\
    n = length (text s D) /\ (n <= length cs)%nat /\ take n cs = text s D).
Proof.
  intros Hd Hd0. unfold ToString_single. apply wp_bind, wp_rd; [cbn; lia | by constructor|]. intros ? [= <-] _. cbn [sign].
  pose proof (CountLeadingZeros_spec d Hd Hd0) as (Hc & Hge & Hlt). set (c := CountLeadingZeros d) in *.
  assert (0 < kDigitBits <= 64) as Hw by (destruct kDigitBits_cases as [-> | ->]; lia).
  unfold is_digit, digit_base in *. set (L := kDigitBits - c).
  assert (d < 2 ^ L) as HdL.
  { replace kDigitBits with (L + c) in Hlt by (unfold L; lia). rewrite Z.pow_add_r in Hlt by (unfold L; lia).
    pose proof (Z.pow_pos_nonneg 2 c ltac:(lia) ltac:(lia)). nia. }
  pose proof (decimal_length_estimate L ltac:(unfold L; lia)) as Hest. set (q := Z.shiftl L 7 / 425 + 1) in *.
  assert (0 < q) as Hq.
  { unfold q. assert (0 <= Z.shiftl L 7 / 425) by (apply Z.div_pos; [apply Z.shiftl_nonneg; unfold L | ]; lia). lia. }
  set (N := Z.to_nat (q + Z.b2z s)). assert (Z.of_nat (Z.to_nat q) = q) as Eq by lia.
  apply wp_bind. eapply wp_mono.
  { apply (push_decimal_spec _ d (mkCursor (raw_string N) N) [] (Z.to_nat q)).
    - exists (raw_string N). cbn [pos chars map]. rewrite app_nil_r. split; [apply length_raw_string | done].
    - rewrite Z2Nat.id by lia. lia.
    - rewrite Eq. lia.
    - cbn [pos]. unfold N. destruct s; cbn; lia. }
  intros o (D & Hf & HD & Hz & En & Hpos). rewrite app_nil_r in Hf. cbn [pos] in Hpos.
  assert (length D <= Z.to_nat q)%nat as HlD by (apply (numeral_length 10 ltac:(lia) D); [done | done | rewrite En, Eq; lia]).
  apply wp_bind. apply (wp_mono _ (fun o' => holds_tail o' (text s D) /\ (N = pos o' + length (text s D))%nat)).
  { unfold text. rewrite length_app, length_map. destruct s; [|apply wp_ret; split; [done | cbn; lia]].
    eapply wp_mono; [apply push_holds_tail; [exact Hf|]|].
    - unfold N in Hpos. cbn in Hpos. lia.
    - intros o' [Hf' Hp']. split; [done | cbn; lia]. }
  clear o Hf Hpos. intros o [(pre & Hl & Ec) HN]. assert (length (chars o) = N) as HlN by (rewrite Ec, length_app; lia).
  case_bool_decide as Hp0.
  - apply wp_ret. exists D. assert (pre = []) as -> by (apply nil_length_inv; lia). cbn [app] in Ec.
    split_and!; try done; [lia | lia|]. rewrite Ec. apply take_ge. lia.
  - apply wp_bind, wp_dcheck; [apply bool_decide_eq_true_2; lia|]. apply wp_ret. exists D.
    rewrite Ec, <- Hl, drop_app_length. split_and!; try done; [lia | rewrite length_app; lia|].
    rewrite take_app_le by lia. apply take_ge. lia.
Qed.

(** ** The generic path *)

(** Neither a digit nor the sign is [kStringZapValue]. *)
Lemma text_not_zapped radix s D : 2 <= radix <= 36 -> digits_below radix D ->
  forallb (fun c => negb (c =? kStringZapValue)) (text s D) = true.
Proof.
  intros Hr HD. unfold text. rewrite forallb_app. apply andb_true_iff. split; [by destruct s|].
  apply forallb_forall. intros c Hc. apply in_map_iff in Hc as (d & <- & Hd).
  assert (0 <= d < radix) by (unfold digits_below in HD; rewrite Forall_forall in HD; by apply HD).
  apply (small_cases (fun d => negb (digit_char d =? kStringZapValue)) 36); [lia | reflexivity].
Qed.

Definition prints_or_too_long (x : BigInt) (radix : Z) (r : MaybeHandle (list Z)) (p' : ProcessorImpl) : Prop :=
  uninterrupted p' /\
  match r with
  | inr cs => text_of radix (toZ x) cs
  | inl e => e = kInvalidStringLength /\
      exists n, ToStringResultLength (digits_of x) radix (sign x) = Ok n /\ String_kMaxLength < n
  end.

Lemma text_of_digits radix x D :
  bigint_ok x -> toZ x <> 0 -> digits_below radix D -> no_leading_zero D -> numeral radix D = val (digits_of x) ->
  text_of radix (toZ x) (text (sign x) D).
Proof.
  intros Hx Hn HD Hz En. exists D. rewrite (toZ_abs x Hx).
  assert ((toZ x <? 0) = sign x) as ->.
  { pose proof (val_nonneg _ (ok_digits _ Hx)). unfold toZ, signed_val in *. destruct (sign x); [apply Z.ltb_lt | apply Z.ltb_ge]; lia. }
  split_and!; try done. by left.
Qed.

(** What both paths leave to the end of [ToString]. *)
Lemma ToString_end x radix cs (m n : nat) D p :
  2 <= radix <= 36 -> bigint_ok x -> toZ x <> 0 -> uninterrupted p -> digits_below radix D -> no_leading_zero D ->
  numeral radix D = val (digits_of x) -> n = length (text (sign x) D) -> (n <= m)%nat -> take n cs = text (sign x) D ->
  wpP (result ← call (RightTrimString cs m n);
       call (dcheck (bool_decide (length result = n)));;
       call (dcheck (forallb (fun c => negb (c =? kStringZapValue)) result));;
       mret (M := IM) result) p (prints_or_too_long x radix).
Proof.
  intros Hr Hx Hn Hun HD Hz En El Hnm Et. apply wpI_call. unfold RightTrimString. apply wp_bind, wp_dcheck; [by apply bool_decide_eq_true_2|].
  apply wp_ret. rewrite Et. apply wpI_call, wp_dcheck; [by apply bool_decide_eq_true_2|].
  apply wpI_call, wp_dcheck; [by apply (text_not_zapped radix)|]. apply wpI_ret. split; [done|]. by apply text_of_digits.
Qed.

Lemma BigInt_ToString_spec x radix p :
  2 <= radix <= 36 -> bigint_ok x -> uninterrupted p ->
  (IsPowerOfTwo radix = false -> mul_supported (bi_length x + 3)) ->
  wpP (BigInt_ToString x radix) p (prints_or_too_long x radix).
Proof.
  intros Hr Hx Hun Hs. unfold BigInt_ToString. rewrite (ok_zero x Hx). case_bool_decide as Hz.
  { apply wpI_ret. split; [done|]. rewrite Hz. exists [0]. split_and!; [done | | done | by right]. repeat constructor; lia. }
  pose proof Hx as [HX HN Hlen _]. pose proof (normalized_id _ HN) as EN.
  apply wpI_bind. destruct (bool_decide (bi_length x = 1%nat) && (radix =? 10)) eqn:Efast.
  - apply andb_true_iff in Efast as [E1%bool_decide_eq_true_1 ->%Z.eqb_eq]. destruct x as [s [|d [|]]]; try done.
    assert (is_digit d /\ d <> 0) as [Hd Hd0].
    { split; [by apply Forall_inv in HX|]. intros ->. by apply HN. }
    apply wpI_call. eapply wp_mono; [by apply ToString_single_spec|]. intros [cs n] (D & HD & Hlz & En & El & Hn & Et).
    apply wpI_ret. apply (ToString_end (mkBigInt s [d]) 10 cs (length cs) n D); try done. cbn [digits_of]. rewrite En. cbn [val]. lia.
  - clear Efast. unfold ToString_generic. apply wpI_call, wp_dcheck; [apply andb_true_iff; split; apply Z.leb_le; lia|].
    assert (0 < val (digits_of x)) as Hpos.
    { pose proof (val_nonneg _ HX). unfold toZ, signed_val in Hz. destruct (sign x); lia. }
    assert (digits_of x <> []) as Hne by (intros E; rewrite E in Hpos; cbn in Hpos; lia).
    assert (Z.of_nat (length (digits_of x)) * kDigitBits <= 2 ^ 30) as Hbits.
    { destruct kMaxLength_bits as [Hk _]. change (2 ^ 30) with kMaxLengthBits. unfold bi_length in Hlen.
      pose proof kDigitBits_cases. nia. }
    apply wpI_call. destruct (wp_elim _ _ (ToStringResultLength_spec radix Hr _ (sign x) HX HN Hne Hbits)) as (n & En & _).
    rewrite En. apply wp_Ok. destruct (Z.ltb_spec String_kMaxLength n) as [Hbig | Hok].
    { split; [done|]. split; [done|]. by exists n. }
    apply wpI_bind.
    assert (n <= Z.of_nat (length (raw_string (Z.to_nat n)))) as Hroom by (rewrite length_raw_string; lia).
    assert (wp (ToStringResultLength (Normalize (digits_of x)) radix (sign x)) (fun n' => n' <= Z.of_nat (length (raw_string (Z.to_nat n)))))
      as Hlen' by (by rewrite EN, En).
    assert (print_supported radix (length (Normalize (digits_of x)))) as Hsup by (rewrite EN; by split).
    rewrite <- EN in Hbits.
    destruct (wpP_elim _ _ _ (Processor_ToString_spec radix Hr _ _ (sign x) p Hun HX Hpos Hbits Hlen' (supported_fast _ _ Hsup)))
      as ([s [cs m]] & p' & E & -> & Hun' & (D & HD & Hlz & EnD & Em & Hm & Ecs)).
    unfold wpP at 1, run. rewrite E. apply wp_Ok, wpI_ret. rewrite length_raw_string in Hm.
    apply (ToString_end x radix cs (Z.to_nat n) m D); try done. by rewrite Ecs, Em, take_app_length.
Qed.

(** ** Reading the text of a number *)

Lemma digit_char_code d : 0 <= d < 10 -> digit_char d = 48 + d.
Proof. intros Hd. by rewrite <- decimal_char. Qed.

Lemma digits_value_text D :
  digits_below 10 D -> D <> [] -> digits_value false 10 (map digit_char D) = Some (numeral 10 D).
Proof.
  intros HD Hne. unfold digits_value. rewrite split_printed by (done || lia). by rewrite bool_decide_eq_false_2.
Qed.

(** A character that is not whitespace starts the literal. *)
Lemma skip_spaces_text c u : 0 <= c <= 255 -> one_byte_space_flag c = false -> skip_spaces (c :: u) = c :: u.
Proof. intros Hc Hf. cbn [skip_spaces]. by rewrite latin1_space, Hf. Qed.

Lemma decimal_not_space d : 0 <= d < 10 -> one_byte_space_flag (48 + d) = false.
Proof.
  intros Hd. apply negb_true_iff, (small_cases (fun d => negb (one_byte_space_flag (48 + d))) 10); [lia | reflexivity].
Qed.

Lemma StringIntegerLiteral_text v cs : text_of 10 v cs -> StringIntegerLiteral cs = Some v.
Proof.
  intros (D & -> & HD & En & Hz). assert (D <> []) as Hne.
  { intros ->. cbn in En. destruct Hz as [[_ ?] | ?]; [lia | done]. }
  pose proof (digits_value_text D HD Hne) as Hv. rewrite StringIntegerLiteral_sign. unfold text. destruct (Z.ltb_spec v 0) as [Hneg | Hnn].
  - cbn [app]. rewrite skip_spaces_text by (done || lia). cbn. rewrite Hv. cbn. f_equal. lia.
  - cbn [app]. destruct Hz as [[Hz Hv0] | ->]; [|change (map digit_char [0]) with [48]; rewrite skip_spaces_text by (done || lia);
      change (digits_value false 10 (map digit_char [0]) = Some v); rewrite Hv, En; f_equal; lia].
    destruct D as [|d D]; [done|]. apply Forall_cons_1 in HD as [Hd HD]. cbn [map] in *. rewrite digit_char_code in * by lia.
    assert (d <> 0) by (intros ->; by apply Hz).
    rewrite skip_spaces_text by (lia || by apply decimal_not_space). unfold char_plus, char_minus.
    destruct (Z.eqb_spec (48 + d) 43); [lia|]. destruct (Z.eqb_spec (48 + d) 45); [lia|].
    rewrite unsigned_literal_other by lia. cbn [snd]. rewrite Hv. f_equal. lia.
Qed.

(** The length of the decimal text. *)
Lemma decimal_text_length x cs :
  bigint_ok x -> text_of 10 (toZ x) cs -> (length cs <= length (digits_of x) * Z.to_nat kDigitBits + 2)%nat /\ code_units cs.
Proof.
  intros Hx (D & -> & HD & En & Hz). split.
  - rewrite toZ_abs in En by done. unfold text. rewrite length_app, length_map.
    destruct Hz as [[Hz _] | ->]; [|destruct (_ <? 0); cbn; lia].
    pose proof (val_bounds _ (ok_digits _ Hx)) as Hb. rewrite bpow_bits in Hb. pose proof kDigitBits_cases as Hw.
    assert (length D <= length (digits_of x) * Z.to_nat kDigitBits)%nat; [|destruct (_ <? 0); cbn; lia].
    apply (numeral_length 10 ltac:(lia)); [done | done|]. rewrite En, Nat2Z.inj_mul, Z2Nat.id by lia.
    eapply Z.lt_le_trans; [apply Hb|]. rewrite Z.mul_comm. apply Z.pow_le_mono_l. lia.
  - unfold text, code_units. apply Forall_app. split; [destruct (_ <? 0); [apply Forall_singleton; unfold char_minus; lia | constructor]|].
    apply Forall_map. eapply Forall_impl; [|exact HD]. intros d Hd. cbn in *. rewrite digit_char_code; lia.
Qed.

Lemma decimal_result_length x n :
  bigint_ok x -> digits_of x <> [] -> ToStringResultLength (digits_of x) 10 (sign x) = Ok n ->
  n <= Z.of_nat (length (digits_of x)) * kDigitBits + 2.
Proof.
  intros Hx Hne. unfold ToStringResultLength.
  destruct (wp_elim _ _ (BitLength_spec _ (ok_digits _ Hx) (ok_normalized _ Hx) Hne)) as (b & -> & Hb & _). cbn [mbind res_bind].
  change (IsPowerOfTwo 10) with false. cbv iota. change (rd kMaxBitsPerChar (Z.to_nat 10)) with (@Ok Z 107). cbn [mbind res_bind].
  change kBitsPerCharTableMultiplier with 32.
  assert (DIV_CEIL (b * 32) (107 - 1) <= b + 1).
  { unfold DIV_CEIL. enough ((b * 32 - 1) / (107 - 1) <= b) by lia. apply Z.div_le_upper_bound; lia. }
  unfold dcheck. destruct (_ <? 2 ^ 31 - 1); [|done]. cbn. intros [= <-]. destruct (sign x); cbn; lia.
Qed.

(** ** The clients of [StringToBigInt] *)

Lemma CompareToString_spec x s p :
  bigint_ok x -> code_units s -> readable (length s) -> uninterrupted p ->
  wpP (CompareToString x s) p (fun r p' => uninterrupted p' /\
    r = inr (match StringIntegerLiteral s with Some v => comparison_of (toZ x ?= v) | None => kUndefined end)).
Proof.
  intros Hx Hcs Hlen Hun. unfold CompareToString. apply wpI_bind. eapply wpP_mono; [by apply StringToBigInt_spec|].
  intros r p' [Hun' Hr]. destruct (StringIntegerLiteral s) as [v|]; [|by subst r].
  destruct Hr as (z & -> & Hz & <-). apply wpI_call_ret. by rewrite CompareToBigInt_spec.
Qed.

Lemma EqualToString_spec x s p :
  bigint_ok x -> code_units s -> readable (length s) -> uninterrupted p ->
  wpP (EqualToString x s) p (fun r p' => uninterrupted p' /\ r = inr (bool_decide (StringIntegerLiteral s = Some (toZ x)))).
Proof.
  intros Hx Hcs Hlen Hun. unfold EqualToString. apply wpI_bind. eapply wpP_mono; [by apply StringToBigInt_spec|].
  intros r p' [Hun' Hr]. destruct (StringIntegerLiteral s) as [v|]; [|by subst r].
  destruct Hr as (z & -> & Hz & <-). apply wpI_call_ret. rewrite EqualToBigInt_spec by done. split; [done|]. f_equal.
  destruct (Z.eqb_spec (toZ x) (toZ z)) as [-> | Hn]; [by rewrite bool_decide_eq_true_2|].
  rewrite bool_decide_eq_false_2 by congruence. done.
Qed.

(** The integer a value converts to. *)
Definition integer_of (obj : Object) : option Z :=
  match obj with
  | Boolean b => Some (Z.b2z b)
  | BigIntObject x => Some (toZ x)
  | StringObject s => StringIntegerLiteral s
  | JSReceiver _ | OtherPrimitive => None
  end.

Definition object_ok (obj : Object) : Prop :=
  match obj with
  | BigIntObject x => bigint_ok x
  | StringObject s => code_units s /\ readable (length s)
  | _ => True
  end.

Lemma FromObject_spec ToPrimitive obj p :
  uninterrupted p -> object_ok obj -> (forall r obj', obj = JSReceiver r -> ToPrimitive r = inr obj' -> object_ok obj') ->
  wpP (FromObject ToPrimitive obj) p (fun r p' => uninterrupted p' /\
    match match obj with JSReceiver receiver => ToPrimitive receiver | _ => inr obj end with
    | inl e => r = inl e
    | inr obj =>
        match integer_of obj with
        | Some v => exists z, r = inr z /\ bigint_ok z /\ toZ z = v
        | None => r = inl kBigIntFromObject
        end
    end).
Proof.
  intros Hun Hobj Hprim. unfold FromObject. apply wpI_bind.
  assert (forall prim, object_ok prim -> wpP (match prim with
    | Boolean b => call (NewFromInt (Z.b2z b))
    | BigIntObject x => mret (M := IM) x
    | StringObject s => n ← StringToBigInt s; match n with Some n => mret (M := IM) n | None => throw kBigIntFromObject end
    | JSReceiver _ | OtherPrimitive => throw kBigIntFromObject
    end) p (fun r p' => uninterrupted p' /\
      match integer_of prim with
      | Some v => exists z, r = inr z /\ bigint_ok z /\ toZ z = v
      | None => r = inl kBigIntFromObject
      end)) as Hp.
  { intros [r | b | x | s |] Hok; cbn [integer_of object_ok] in *; [by apply wp_Ok | | | | by apply wp_Ok].
    - apply wpI_call_ret, wp_NewFromInt; [destruct b; cbn; lia|]. intros z Hz Ez. split; [done|]. by exists z.
    - apply wpI_ret. split; [done|]. by exists x.
    - destruct Hok as [Hcs Hlen]. apply wpI_bind. eapply wpP_mono; [by apply StringToBigInt_spec|]. intros r p' [Hun' Hr].
      destruct (StringIntegerLiteral s) as [v|]; [|subst r; by apply wp_Ok]. destruct Hr as (z & -> & Hz & Ez). apply wpI_ret. split; [done|]. by exists z. }
  destruct obj as [r | b | x | s |].
  - unfold wpP at 1, ToHandle. apply wp_Ok. destruct (ToPrimitive r) as [e|prim] eqn:E; [done|]. apply Hp. by eapply Hprim.
  - apply wpI_ret, (Hp (Boolean b) Hobj).
  - apply wpI_ret, (Hp (BigIntObject x) Hobj).
  - apply wpI_ret, (Hp (StringObject s) Hobj).
  - apply wpI_ret, (Hp OtherPrimitive Hobj).
Qed.
End bigint_print.
