(* ===== verification/BigIntRuntime.v ===== *)
(** The functions of [src/objects/bigint.cc] that generated code calls: each receives a
    result object the caller has allocated, with its sign already set, and two operands; it
    computes the digits of the result in place and canonicalizes it. *)

From Stdlib Require Import ZArith Lia.
From stdpp Require Import base tactics numbers list option.
From S2P Require Import Prelude Digit Digits VectorArithmetic Processor MulSchoolbook MulKaratsuba MulToom Multiply DivHelpers DivSchoolbook DivBurnikel DivBarrett Division SignedArithmetic Bitwise BitwiseShift BigIntObject BigIntSpec BigIntArith BigIntBits.

#[local] Open Scope Z_scope.

Section bigint_runtime.
Context `{Config, Platform}.
Context {alloc : Allocator}.
Context {fft : FftMultiplier}.
Implicit Types x y z result : BigInt.

(** ** Sums, differences, comparison *)

Definition MutableBigInt_AbsoluteAddAndCanonicalize (result x y : BigInt) : res BigInt :=
  result ← with_digits result (fun Zd => Add Zd (digits_of x) (digits_of y));
  Canonicalize result.

Definition MutableBigInt_AbsoluteCompare (x y : BigInt) : res Z := Compare (digits_of x) (digits_of y).

Definition MutableBigInt_AbsoluteSubAndCanonicalize (result x y : BigInt) : res BigInt :=
  result ← with_digits result (fun Zd => Subtract Zd (digits_of x) (digits_of y));
  Canonicalize result.

(** ** Products and quotients *)

(** The result code and the result object: 0 for success, 1 if the computation was
    interrupted, in which case the object is not canonical. *)
Definition in_place (result : BigInt) (f : digits -> PM (Status * digits)) : PM (Z * BigInt) :=
  '(status, d) ← f (digits_of result);
  let result := mkBigInt (sign result) d in
  match status with
  | kInterrupted => mret (1, result)
  | kOk => result ← lift (Canonicalize result); mret (0, result)
  end.

Definition MutableBigInt_AbsoluteMulAndCanonicalize (result x y : BigInt) : PM (Z * BigInt) :=
  in_place result (fun Zd => Processor_Multiply Zd (digits_of x) (digits_of y)).

Definition MutableBigInt_AbsoluteDivAndCanonicalize (result x y : BigInt) : PM (Z * BigInt) :=
  lift (dcheck (DivideResultLength (digits_of x) (digits_of y) <=? Z.of_nat (bi_length result)));;
  in_place result (fun Zd => Processor_Divide Zd (digits_of x) (digits_of y)).

Definition MutableBigInt_AbsoluteModAndCanonicalize (result x y : BigInt) : PM (Z * BigInt) :=
  in_place result (fun Zd => Processor_Modulo Zd (digits_of x) (digits_of y)).

(** ** Bitwise operations *)

Definition MutableBigInt_BitwiseAndPosPosAndCanonicalize (result x y : BigInt) : res BigInt :=
  result ← with_digits result (fun Zd => BitwiseAnd_PosPos Zd (digits_of x) (digits_of y));
  Canonicalize result.

Definition MutableBigInt_BitwiseAndNegNegAndCanonicalize (result x y : BigInt) : res BigInt :=
  result ← with_digits result (fun Zd => BitwiseAnd_NegNeg Zd (digits_of x) (digits_of y));
  Canonicalize result.

Definition MutableBigInt_BitwiseAndPosNegAndCanonicalize (result x y : BigInt) : res BigInt :=
  result ← with_digits result (fun Zd => BitwiseAnd_PosNeg Zd (digits_of x) (digits_of y));
  Canonicalize result.

Definition MutableBigInt_BitwiseOrPosPosAndCanonicalize (result x y : BigInt) : res BigInt :=
  result ← with_digits result (fun Zd => BitwiseOr_PosPos Zd (digits_of x) (digits_of y));
  Canonicalize result.

Definition MutableBigInt_BitwiseOrNegNegAndCanonicalize (result x y : BigInt) : res BigInt :=
  result ← with_digits result (fun Zd => BitwiseOr_NegNeg Zd (digits_of x) (digits_of y));
  Canonicalize result.

Definition MutableBigInt_BitwiseOrPosNegAndCanonicalize (result x y : BigInt) : res BigInt :=
  result ← with_digits result (fun Zd => BitwiseOr_PosNeg Zd (digits_of x) (digits_of y));
  Canonicalize result.

Definition MutableBigInt_BitwiseXorPosPosAndCanonicalize (result x y : BigInt) : res BigInt :=
  result ← with_digits result (fun Zd => BitwiseXor_PosPos Zd (digits_of x) (digits_of y));
  Canonicalize result.

Definition MutableBigInt_BitwiseXorNegNegAndCanonicalize (result x y : BigInt) : res BigInt :=
  result ← with_digits result (fun Zd => BitwiseXor_NegNeg Zd (digits_of x) (digits_of y));
  Canonicalize result.

Definition MutableBigInt_BitwiseXorPosNegAndCanonicalize (result x y : BigInt) : res BigInt :=
  result ← with_digits result (fun Zd => BitwiseXor_PosNeg Zd (digits_of x) (digits_of y));
  Canonicalize result.

(** ** Shifts *)

Definition MutableBigInt_LeftShiftAndCanonicalize (result x : BigInt) (shift : Z) : res BigInt :=
  result ← with_digits result (fun Zd => BitwiseLeftShift Zd (digits_of x) shift);
  Canonicalize result.

Definition kLengthFieldBits : Z := 30.

(** The length of the result and, above it, whether the shift has to round down. *)
Definition RightShiftResultLength (x : BigInt) (x_sign : bool) (shift : Z) : res Z :=
  '(length, state) ← RightShift_ResultLength (digits_of x) x_sign shift;
  dcheck (Z.shiftr (Z.of_nat length) kLengthFieldBits =? 0);;
  mret (Z.lor (Z.shiftl (if must_round_down state then 1 else 0) kLengthFieldBits) (Z.of_nat length)).

Definition MutableBigInt_RightShiftAndCanonicalize (result x : BigInt) (shift must_round_down : Z) : res BigInt :=
  let state := mkRightShiftState (must_round_down =? 1) in
  result ← with_digits result (fun Zd => BitwiseRightShift Zd (digits_of x) shift state);
  Canonicalize result.

(** ** What the functions compute *)

(** A result object a caller may pass: [n] digits of arbitrary contents, and no negative
    sign on an object without digits. *)
Record result_object (result : BigInt) (n : nat) : Prop := {
  ro_length : bi_length result = n;
  ro_max : Z.of_nat n <= kMaxLength;
  ro_digits : digits_ok (digits_of result);
  ro_sign : n = 0%nat -> sign result = false;
}.

Definition stores (s : bool) (v : Z) (z : BigInt) : Prop := bigint_ok z /\ toZ z = signed_val s v.

Lemma stores_in_place result n f v :
  result_object result n ->
  wp (f (digits_of result)) (fun d => length d = length (digits_of result) /\ digits_ok d /\ val d = v) ->
  wp (result ← with_digits result f; Canonicalize result) (stores (sign result) v).
Proof.
  intros [Hl Hm _ Hs] Hf. apply wp_bind, wp_with_digits. eapply wp_mono; [exact Hf|].
  intros d (Hld & Hd & <-). unfold bi_length in *. apply Canonicalize_spec; [done | lia|].
  intros ->. apply Hs. cbn in Hld. lia.
Qed.

Lemma stores_processor result n (m : digits -> PM digits) v p :
  result_object result n -> status_ p = kOk ->
  wpP (m (digits_of result)) p (fun d p' => status_le p p' /\ length d = length (digits_of result) /\
    digits_ok d /\ (status_ p' = kOk -> val d = v)) ->
  wpP (in_place result (fun Zd => Zd ← m Zd; s ← get_and_clear_status; mret (s, Zd))) p
    (fun '(code, z) p' => status_ p' = kOk /\
      (code = 0 /\ stores (sign result) v z \/ code = 1 /\ exists n, InterruptRequested n = true)).
Proof.
  intros [Hl Hm _ Hs] Hp Hf. unfold in_place. apply wpP_bind, wpP_bind. eapply wpP_mono; [exact Hf|].
  intros d p' (Hle & Hld & Hd & Hv). apply wpP_bind. unfold wpP, get_and_clear_status. cbn.
  destruct (status_ p') eqn:Ep'; cbn.
  - unfold bi_length in *.
    assert (wp (Canonicalize (mkBigInt (sign result) d)) (stores (sign result) v)) as HC.
    { rewrite <- (Hv eq_refl). apply Canonicalize_spec; [done | lia|]. intros ->. apply Hs. cbn in Hld. lia. }
    destruct (wp_elim _ _ HC) as (z & E & Hz). unfold mbind, PM_bind, lift. rewrite E. cbn. split; [done|]. by left.
  - split; [done|]. right. split; [done|].
    destruct Hle as [_ [[E | (k & _ & Hk)] _]]; [done | congruence | by exists k].
Qed.

(** *** The magnitudes *)

Lemma AbsoluteAdd_spec result x y :
  bigint_ok x -> bigint_ok y -> result_object result (AddResultLength (bi_length x) (bi_length y)) ->
  wp (MutableBigInt_AbsoluteAddAndCanonicalize result x y) (stores (sign result) (Z.abs (toZ x) + Z.abs (toZ y))).
Proof.
  intros Hx Hy Hr. rewrite !toZ_abs by done. eapply stores_in_place; [exact Hr|].
  pose proof (ro_length _ _ Hr) as Hl. unfold AddResultLength, bi_length in Hl.
  eapply wp_mono; [apply Add_spec; [apply Hx | apply Hy | lia | lia]|].
  intros d (? & ? & ->). split_and!; [done | done|]. apply Z.mod_small. rewrite Hl.
  pose proof (val_bounds _ (ok_digits x Hx)) as [Hx0 Hx1]. pose proof (val_bounds _ (ok_digits y Hy)) as [Hy0 Hy1].
  pose proof (bpow_le (length (digits_of x)) (length (digits_of x) `max` length (digits_of y))%nat ltac:(lia)).
  pose proof (bpow_le (length (digits_of y)) (length (digits_of x) `max` length (digits_of y))%nat ltac:(lia)).
  rewrite Nat.add_1_r, bpow_S. pose proof digit_base_ge. pose proof (bpow_pos (length (digits_of x) `max` length (digits_of y))). nia.
Qed.

Lemma AbsoluteSub_spec result x y :
  bigint_ok x -> bigint_ok y -> Z.abs (toZ y) <= Z.abs (toZ x) ->
  result_object result (SubtractResultLength (bi_length x) (bi_length y)) ->
  wp (MutableBigInt_AbsoluteSubAndCanonicalize result x y) (stores (sign result) (Z.abs (toZ x) - Z.abs (toZ y))).
Proof.
  intros Hx Hy Hle Hr. rewrite !toZ_abs in * by done. eapply stores_in_place; [exact Hr|].
  pose proof (ro_length _ _ Hr) as Hl. unfold SubtractResultLength, bi_length in Hl.
  pose proof (length_Normalize (digits_of x)).
  apply Subtract_spec; [apply Hx | apply Hy | lia | done].
Qed.

Lemma AbsoluteMul_spec L result x y p `{!Multiplier L} :
  bigint_ok x -> bigint_ok y -> steady p -> status_ p = kOk -> (bi_length x <= L)%nat -> (bi_length y <= L)%nat ->
  result_object result (MultiplyResultLength (digits_of x) (digits_of y)) ->
  wpP (MutableBigInt_AbsoluteMulAndCanonicalize result x y) p (fun '(code, z) p' => status_ p' = kOk /\
    (code = 0 /\ stores (sign result) (Z.abs (toZ x) * Z.abs (toZ y)) z \/
     code = 1 /\ exists n, InterruptRequested n = true)).
Proof.
  intros Hx Hy Hst Hp Lx Ly Hr. rewrite !toZ_abs by done. eapply (stores_processor _ _ (fun Zd => Multiply Zd (digits_of x) (digits_of y)));
    [exact Hr | done|].
  pose proof (ro_length _ _ Hr) as Hl. unfold MultiplyResultLength, bi_length in *.
  pose proof (length_Normalize (digits_of x)). pose proof (length_Normalize (digits_of y)).
  eapply wpP_mono; [apply multiply_correct; [done | apply Hr | apply Hx | apply Hy | lia | lia | lia]|].
  intros d p' (? & ? & ? & ?). auto.
Qed.

Lemma AbsoluteDiv_spec L LI result x y p `{!Multiplier L} `{!Inverter LI} :
  bigint_ok x -> bigint_ok y -> toZ y <> 0 -> status_ p = kOk -> Z.abs (toZ y) <= Z.abs (toZ x) ->
  divisible L LI p (digits_of x) (digits_of y) ->
  result_object result (Z.to_nat (DivideResultLength (digits_of x) (digits_of y))) ->
  wpP (MutableBigInt_AbsoluteDivAndCanonicalize result x y) p (fun '(code, z) p' => status_ p' = kOk /\
    (code = 0 /\ stores (sign result) (Z.abs (toZ x) / Z.abs (toZ y)) z \/
     code = 1 /\ exists n, InterruptRequested n = true)).
Proof.
  intros Hx Hy Hy0 Hp Hle Hd Hr. rewrite !toZ_abs in * by done.
  assert (length (digits_of y) <= length (digits_of x))%nat as Hll
    by (apply normalized_length_le; [apply Hy | apply Hx | apply Hy | done]).
  pose proof (DivideResultLength_ge (digits_of x) (digits_of y)) as Hge.
  pose proof (ro_length _ _ Hr) as Hl. unfold bi_length in *.
  apply wpP_bind, wpP_lift, wp_dcheck; [unfold bi_length; apply Z.leb_le; lia|].
  eapply (stores_processor _ _ (fun Zd => Divide Zd (digits_of x) (digits_of y))); [exact Hr | done|].
  eapply wpP_mono; [apply (Divide_spec L LI); try done; [apply Hr | lia | lia]|]. done.
Qed.

Lemma AbsoluteMod_spec L LI result x y p `{!Multiplier L} `{!Inverter LI} :
  bigint_ok x -> bigint_ok y -> status_ p = kOk -> Z.abs (toZ y) <= Z.abs (toZ x) ->
  divisible L LI p (digits_of x) (digits_of y) ->
  result_object result (ModuloResultLength (digits_of y)) ->
  wpP (MutableBigInt_AbsoluteModAndCanonicalize result x y) p (fun '(code, z) p' => status_ p' = kOk /\
    (code = 0 /\ stores (sign result) (Z.abs (toZ x) mod Z.abs (toZ y)) z \/
     code = 1 /\ exists n, InterruptRequested n = true)).
Proof.
  intros Hx Hy Hp Hle Hd Hr. rewrite !toZ_abs in * by done.
  pose proof (ro_length _ _ Hr) as Hl. unfold bi_length in *.
  eapply (stores_processor _ _ (fun Zd => Modulo Zd (digits_of x) (digits_of y))); [exact Hr | done|].
  eapply wpP_mono; [apply (Modulo_spec L LI); try done; [apply Hr | lia]|]. done.
Qed.

(** *** Bits: operands of given signs *)

(** The contract of a bitwise entry point [f] for operands of signs [sx] and [sy]: in a result
    object of sign [sr] and of the advertised length it computes [op] on the integers. *)
Definition bitwise_entry (f : BigInt -> BigInt -> BigInt -> res BigInt) (len : nat -> nat -> nat)
    (op : Z -> Z -> Z) (sx sy sr : bool) : Prop :=
  forall result x y, bigint_ok x -> bigint_ok y -> sign x = sx -> sign y = sy -> sign result = sr ->
    result_object result (len (bi_length x) (bi_length y)) ->
    exists z, f result x y = Ok z /\ bigint_ok z /\ toZ z = op (toZ x) (toZ y).

Lemma bitwise_entry_intro (g : digits -> digits -> digits -> res digits) len op sx sy sr :
  (forall Zd X Y, digits_ok X -> digits_ok Y -> (sx = true -> 1 <= val X) -> (sy = true -> 1 <= val Y) ->
     length Zd = len (length X) (length Y) ->
     wp (g Zd X Y) (fun d => length d = length Zd /\ digits_ok d /\
       signed_val sr (val d) = op (signed_val sx (val X)) (signed_val sy (val Y)))) ->
  bitwise_entry (fun result x y =>
    result ← with_digits result (fun Zd => g Zd (digits_of x) (digits_of y)); Canonicalize result) len op sx sy sr.
Proof.
  intros Hg result x y Hx Hy <- <- <- Hr. apply wp_elim.
  assert (forall z, bigint_ok z -> sign z = true -> 1 <= val (digits_of z)) as Hneg.
  { intros z Hz E. destruct (sign_cases z Hz) as [(? & _) | (_ & ? & ?)]; [congruence | lia]. }
  destruct (wp_elim _ _ (Hg (digits_of result) (digits_of x) (digits_of y) (ok_digits x Hx) (ok_digits y Hy)
    (Hneg x Hx) (Hneg y Hy) (ro_length _ _ Hr))) as (d & E & Hl & Hd & Ev).
  eapply wp_mono; [eapply (stores_in_place _ _ _ (val d)); [exact Hr | by rewrite E]|].
  intros z [Hz Vz]. split; [done|]. rewrite Vz. exact Ev.
Qed.

Lemma RightShift_packed x x_sign shift :
  bigint_ok x -> 0 <= shift -> shift / kDigitBits < 2 ^ 31 ->
  wp (RightShiftResultLength x x_sign shift) (fun packed => exists len round,
    packed = round * 2 ^ kLengthFieldBits + len /\ 0 <= len < 2 ^ kLengthFieldBits /\ 0 <= round < 2 /\
    RightShift_ResultLength (digits_of x) x_sign shift = Ok (Z.to_nat len, mkRightShiftState (round =? 1))).
Proof.
  intros Hx Hs Hint. unfold RightShiftResultLength.
  destruct (wp_elim _ _ (RightShift_ResultLength_spec (digits_of x) x_sign shift (ok_digits x Hx) Hs Hint))
    as ([len [round]] & E & Hlen & _). rewrite E. cbn [mbind res_bind].
  pose proof (ok_length x Hx) as Hl. destruct kMaxLength_bits as [_ Hmax]. unfold bi_length in Hl.
  assert (0 <= Z.of_nat len < 2 ^ kLengthFieldBits) as Hb by (unfold kLengthFieldBits; lia).
  apply wp_bind, wp_dcheck.
  { apply Z.eqb_eq. rewrite Z.shiftr_div_pow2 by (unfold kLengthFieldBits; lia). by apply Z.div_small. }
  apply wp_ret. exists (Z.of_nat len), (if round then 1 else 0). cbn [must_round_down].
  rewrite Z.shiftl_mul_pow2, lor_shiftl_add by (unfold kLengthFieldBits in *; lia).
  rewrite Nat2Z.id. split_and!; try lia; destruct round; (done || lia).
Qed.

Lemma bpow_digit_shift shift : 0 <= shift -> forall n, (n <= Z.to_nat (shift / kDigitBits))%nat -> bpow n <= 2 ^ shift.
Proof.
  intros Hs n Hn. rewrite bpow_bits. assert (0 < kDigitBits) by (destruct kDigitBits_cases; lia).
  apply Z.pow_le_mono_r; [lia|]. pose proof (Z.mul_div_le shift kDigitBits).
  assert (Z.of_nat n <= shift / kDigitBits) by (pose proof (Z.div_pos shift kDigitBits); lia). nia.
Qed.

(** ** Correctness *)

(** The nine bitwise entry points, each for operands of the signs in its name and a
    result object of the advertised length and of the sign of the result, compute the two's
    complement operation on the integers. *)
Theorem runtime_Bitwise_refine :
  bitwise_entry MutableBigInt_BitwiseAndPosPosAndCanonicalize BitwiseAnd_PosPos_ResultLength Z.land false false false /\
  bitwise_entry MutableBigInt_BitwiseAndNegNegAndCanonicalize BitwiseAnd_NegNeg_ResultLength Z.land true true true /\
  bitwise_entry MutableBigInt_BitwiseAndPosNegAndCanonicalize (fun n _ => BitwiseAnd_PosNeg_ResultLength n) Z.land false true false /\
  bitwise_entry MutableBigInt_BitwiseOrPosPosAndCanonicalize BitwiseOrResultLength Z.lor false false false /\
  bitwise_entry MutableBigInt_BitwiseOrNegNegAndCanonicalize BitwiseOrResultLength Z.lor true true true /\
  bitwise_entry MutableBigInt_BitwiseOrPosNegAndCanonicalize BitwiseOrResultLength Z.lor false true true /\
  bitwise_entry MutableBigInt_BitwiseXorPosPosAndCanonicalize BitwiseXor_PosPos_ResultLength Z.lxor false false false /\
  bitwise_entry MutableBigInt_BitwiseXorNegNegAndCanonicalize BitwiseXor_NegNeg_ResultLength Z.lxor true true false /\
  bitwise_entry MutableBigInt_BitwiseXorPosNegAndCanonicalize BitwiseXor_PosNeg_ResultLength Z.lxor false true true.
Proof.
  split_and!; apply bitwise_entry_intro; intros Zd X Y HX HY Px Py Hl; cbn [signed_val]; 
    unfold BitwiseAnd_PosPos_ResultLength, BitwiseAnd_NegNeg_ResultLength, BitwiseAnd_PosNeg_ResultLength,
      BitwiseOrResultLength, BitwiseXor_PosPos_ResultLength, BitwiseXor_NegNeg_ResultLength,
      BitwiseXor_PosNeg_ResultLength in Hl;
    [apply BitwiseAnd_PosPos_spec | apply BitwiseAnd_NegNeg_spec | apply BitwiseAnd_PosNeg_spec
    | apply BitwiseOr_PosPos_spec | apply BitwiseOr_NegNeg_spec | apply BitwiseOr_PosNeg_spec
    | apply BitwiseXor_PosPos_spec | apply BitwiseXor_NegNeg_spec | apply BitwiseXor_PosNeg_spec]; auto; lia.
Qed.

(** C32: the two-step right shift: [RightShiftResultLength] packs the length of the result and
    the rounding flag into one word; with a result object of that length and that flag,
    [MutableBigInt_RightShiftAndCanonicalize] computes the shift rounded towards minus
    infinity; a packed length of 0 means that every bit is shifted out.  The number of whole
    digits to shift by must fit into an [int], to which both functions cast it; with 32-bit
    digits it always does, with 64-bit digits for shifts below [2^37]. *)
Theorem runtime_RightShift_protocol x shift :
  bigint_ok x -> 0 <= shift -> shift / kDigitBits < 2 ^ 31 ->
  exists packed, RightShiftResultLength x (sign x) shift = Ok packed /\ 0 <= packed < 2 ^ 31 /\
    let len := packed mod 2 ^ kLengthFieldBits in
    let round := packed / 2 ^ kLengthFieldBits in
    (len = 0 -> Z.abs (toZ x) < 2 ^ shift) /\
    (forall result, 0 < len -> result_object result (Z.to_nat len) -> sign result = sign x ->
       exists z, MutableBigInt_RightShiftAndCanonicalize result x shift round = Ok z /\
         bigint_ok z /\ toZ z = Z.shiftr (toZ x) shift).
Proof.
  intros Hx Hs Hint. destruct (wp_elim _ _ (RightShift_packed x (sign x) shift Hx Hs Hint))
    as (packed & E & len & round & -> & Hlen & Hround & Erl).
  assert (0 < 2 ^ kLengthFieldBits /\ 2 * 2 ^ kLengthFieldBits = 2 ^ 31) as [Hp Hp'] by (unfold kLengthFieldBits; lia).
  assert ((round * 2 ^ kLengthFieldBits + len) mod 2 ^ kLengthFieldBits = len /\
    (round * 2 ^ kLengthFieldBits + len) / 2 ^ kLengthFieldBits = round) as [Em Ed].
  { rewrite Z.add_comm, Z.mod_add, Z.div_add, Z.mod_small, Z.div_small by lia. lia. }
  eexists. split; [exact E|]. split; [nia|]. cbn zeta. rewrite Em, Ed. clear E Em Ed.
  pose proof (ok_digits x Hx) as HX.
  pose proof (RightShift_ResultLength_spec (digits_of x) (sign x) shift HX Hs Hint) as Hspec.
  rewrite Erl in Hspec. cbn [wp] in Hspec. destruct Hspec as [Hcases Hval].
  pose proof (bpow_digit_shift shift Hs (length (digits_of x))) as Hbp. split.
  - intros ->. rewrite toZ_abs by done. destruct Hcases as [(Hle & _) | (Hlt & ? & _)]; [|cbn in *; lia].
    pose proof (val_bounds _ HX). specialize (Hbp Hle). lia.
  - intros result Hl0 Hr Hsg. destruct Hcases as [(_ & ? & _) | (Hlt & Hl1 & Hl2)]; [lia|].
    destruct (Hval Hlt) as [Hround' Hfit]. cbn [must_round_down] in *. apply wp_elim.
    eapply wp_mono; [eapply stores_in_place; [exact Hr|]; apply BitwiseRightShift_spec; try done;
      rewrite ?(ro_length _ _ Hr); cbn [must_round_down]; unfold bi_length in *;
      pose proof (ro_length _ _ Hr) as Hrl; unfold bi_length in Hrl; rewrite ?Hrl; (done || lia)|].
    intros z [Hz Vz]. split; [done|]. rewrite Vz, Hsg, Z.shiftr_div_pow2 by done. cbn [must_round_down].
    rewrite Hround'. unfold toZ, signed_val. destruct (sign x); cbn [andb]; [|lia].
    rewrite neg_div_floor by (apply Z.pow_pos_nonneg; lia). by destruct (_ =? 0).
Qed.
End bigint_runtime.
