(* ===== verification/Instances.v ===== *)
(** Concrete instances of the interfaces the development is generic in: the
    configurations the library is built with, a platform that never asks for an
    interrupt and one that always does, and an allocator.  They are used to evaluate
    the model on concrete inputs. *)

From Stdlib Require Import ZArith Lia.
From stdpp Require Import base tactics numbers list option.
From S2P Require Import Prelude Digit Digits Processor.

#[local] Open Scope Z_scope.

(** 64-bit, [twodigit_t] and inline assembly available, the advanced algorithms
    enabled: what [CMakeLists.txt] builds on x64 with gcc or clang. *)
Definition x64 : Config := {|
  kLog2DigitBits := 6;
  kLog2DigitBits_cases := or_intror eq_refl;
  HAVE_TWODIGIT_T := true;
  HAVE_ASM_DIV := true;
  V8_ADVANCED_BIGINT_ALGORITHMS := true;
|}.

(** 32-bit, no double-width type, no assembly, basic algorithms only. *)
Definition portable32 : Config := {|
  kLog2DigitBits := 5;
  kLog2DigitBits_cases := or_introl eq_refl;
  HAVE_TWODIGIT_T := false;
  HAVE_ASM_DIV := false;
  V8_ADVANCED_BIGINT_ALGORITHMS := false;
|}.

(** 32-bit with the advanced algorithms. *)
Definition arm32 : Config := {|
  kLog2DigitBits := 5;
  kLog2DigitBits_cases := or_introl eq_refl;
  HAVE_TWODIGIT_T := true;
  HAVE_ASM_DIV := false;
  V8_ADVANCED_BIGINT_ALGORITHMS := true;
|}.

Definition quiet : Platform := {| InterruptRequested := fun _ => false |}.
Definition impatient : Platform := {| InterruptRequested := fun _ => true |}.

(** ** Deciding the hypotheses on concrete vectors *)

Section decide.
Context `{Config}.

Definition digits_okb (X : digits) : bool :=
  forallb (fun d => (0 <=? d) && (d <? digit_base)) X.

Lemma digits_okb_ok X : digits_okb X = true -> digits_ok X.
Proof.
  induction X as [|d X IH]; simpl; intros HX; [constructor|].
  apply andb_true_iff in HX as [[?%Z.leb_le ?%Z.ltb_lt]%andb_true_iff ?].
  constructor; [done | by apply IH].
Qed.

Lemma replicate_ok n d : is_digit d -> digits_ok (replicate n d).
Proof. apply Forall_replicate. Qed.

(** Memory filled with a garbage digit. *)
Definition filled (d : Z) (Hd : is_digit d) : Allocator := {|
  uninitialized := fun n => replicate n d;
  length_uninitialized := fun n => length_replicate n d;
  uninitialized_ok := fun n => replicate_ok n d Hd;
|}.
End decide.

Lemma garbage_ok : @is_digit x64 3735928559.
Proof. split; [by vm_compute | by vm_compute]. Qed.

Definition garbage : @Allocator x64 := @filled x64 3735928559 garbage_ok.

(** Discharges [digits_ok] of a closed vector. *)
Ltac solve_digits := apply digits_okb_ok; vm_compute; reflexivity.

(** Discharges a comparison between lengths of closed vectors. *)
Ltac solve_lengths :=
  lazymatch goal with
  | |- (_ <= _)%nat => apply Nat.leb_le; vm_compute; reflexivity
  | |- (_ < _)%nat => apply Nat.ltb_lt; vm_compute; reflexivity
  | |- _ => vm_compute; (reflexivity || discriminate)
  end.
