(* ===== verification/ProcessorCorrect.v ===== *)
(** The processor as a state machine: its reachable states, and when an interrupt
    request of the embedder is noticed. *)

From Stdlib Require Import ZArith Lia.
From stdpp Require Import base tactics numbers list option relations.
From S2P Require Import Prelude Digit Digits Processor Instances.

#[local] Open Scope Z_scope.

Section processor_correct.
Context `{Config, Platform}.

Implicit Types (p : ProcessorImpl).

(** The transitions: an algorithm accounts for work, or the API function that drives it
    ends and fetches the status. *)
Inductive proc_step : ProcessorImpl -> ProcessorImpl -> Prop :=
  | step_work p p' estimate :
      is_digit estimate -> AddWorkEstimate estimate p = Ok (tt, p') -> proc_step p p'
  | step_done p p' s :
      get_and_clear_status p = Ok (s, p') -> proc_step p p'.

Definition reachable p : Prop := rtc proc_step ProcessorImpl_new p.

(** A run of [AddWorkEstimate] calls. *)
Fixpoint do_work (estimates : list Z) : PM unit :=
  match estimates with
  | [] => mret tt
  | e :: es => AddWorkEstimate e;; do_work es
  end.

Lemma AddWorkEstimate_result e p :
  exists p', AddWorkEstimate e p = Ok (tt, p') /\ 0 <= work_estimate_ p' < kWorkEstimateThreshold.
Proof.
  unfold AddWorkEstimate. pose proof (wrap_digit (work_estimate_ p + e)) as Hd. unfold is_digit in Hd.
  destruct (Z.leb_spec kWorkEstimateThreshold (wrap (work_estimate_ p + e)));
    (eexists; split; [reflexivity|]); cbn [work_estimate_]; unfold kWorkEstimateThreshold in *; lia.
Qed.

Lemma wpP_do_work es p : wpP (do_work es) p (fun _ p' => status_le p p').
Proof.
  revert p. induction es as [|e es IH]; intros p; cbn [do_work].
  { apply wpP_ret. by auto with digits. }
  apply wpP_bind, wpP_AddWorkEstimate. intros p1 Hle. eapply wpP_mono; [apply IH|].
  intros ? p2 Hle2. eapply status_le_trans; done.
Qed.

(** Once the work since the last poll reaches the threshold, the platform is asked. *)
Lemma do_work_polls es p :
  0 <= work_estimate_ p < kWorkEstimateThreshold ->
  Forall (fun e => 0 <= e < digit_base - kWorkEstimateThreshold) es ->
  kWorkEstimateThreshold <= work_estimate_ p + foldr Z.add 0 es ->
  wpP (do_work es) p (fun _ p' => (polls p < polls p')%nat).
Proof.
  revert p. induction es as [|e es IH]; intros p Hp Hes Hsum; cbn [foldr do_work] in *; [lia|].
  apply Forall_cons in Hes as [He Hes]. apply wpP_bind. unfold wpP at 1, AddWorkEstimate.
  rewrite wrap_small by (unfold is_digit; lia).
  destruct (Z.leb_spec kWorkEstimateThreshold (work_estimate_ p + e)); apply wp_Ok.
  - eapply wpP_mono; [apply wpP_do_work|]. intros ? p' [Hle _]. cbn [polls] in Hle. lia.
  - apply (IH (mkProcessor (work_estimate_ p + e) (status_ p) (polls p)));
      cbn [work_estimate_]; [lia | done | lia].
Qed.

(** C36: in every reachable state of a processor the accumulated work is below the
    polling threshold, so the accumulator never wraps around unnoticed. *)
Theorem work_estimate_bounded p :
  reachable p -> 0 <= work_estimate_ p < kWorkEstimateThreshold.
Proof.
  unfold reachable. intros Hr. remember ProcessorImpl_new as p0 eqn:E0.
  assert (0 <= work_estimate_ p0 < kWorkEstimateThreshold) as H0'.
  { subst p0. cbn. unfold kWorkEstimateThreshold. lia. }
  clear E0. induction Hr as [p | p p1 p2 Hs Hr IH]; [done|]. apply IH. destruct Hs as [p p' e _ E | p p' s E].
  - destruct (AddWorkEstimate_result e p) as (p1 & E1 & Hb). rewrite E in E1. by injection E1 as <-.
  - unfold get_and_clear_status in E. by injection E as _ <-.
Qed.

(** C35: an embedder that keeps asking for an interrupt is heard: as soon as an operation
    has accounted for [kWorkEstimateThreshold] units of work since the last poll, in steps
    that do not overflow the accumulator, [should_terminate] answers true and stays so. *)
Theorem interrupt_is_noticed es more p :
  (forall n, InterruptRequested n = true) ->
  0 <= work_estimate_ p < kWorkEstimateThreshold ->
  Forall (fun e => 0 <= e < digit_base - kWorkEstimateThreshold) es ->
  kWorkEstimateThreshold <= work_estimate_ p + foldr Z.add 0 es ->
  exists p', (do_work es;; do_work more;; should_terminate) p = Ok (true, p').
Proof.
  intros Hreq Hp Hes Hsum.
  destruct (wp_elim _ _ (wp_and _ _ _ (do_work_polls es p Hp Hes Hsum) (wpP_do_work es p)))
    as ([[] p1] & E1 & Hpolls & Hle1).
  destruct (wpP_elim _ _ _ (wpP_do_work more p1)) as ([] & p2 & E2 & Hle2).
  pose proof (status_le_trans _ _ _ Hle1 Hle2) as [_ Hst].
  assert (status_ p2 = kInterrupted) as Hint.
  { apply Hst. right. exists (polls p). destruct Hle2 as [Hle2 _]. split; [lia | apply Hreq]. }
  exists p2. unfold mbind, PM_bind. rewrite E1, E2. unfold should_terminate. by rewrite Hint.
Qed.

(** Without a request a processor never terminates an operation, however much work
    is done, and the status fetched at the end is [kOk]. *)
Theorem quiet_processor_never_terminates es p :
  status_ p = kOk -> (forall n, InterruptRequested n = false) ->
  exists p1 p2, (do_work es;; should_terminate) p = Ok (false, p1) /\
    get_and_clear_status p1 = Ok (kOk, p2).
Proof.
  intros Hok Hno. destruct (wpP_elim _ _ _ (wpP_do_work es p)) as ([] & p1 & E1 & Hle).
  destruct (uninterrupted_le p p1 Hle) as [Hok1 _]; [done|].
  exists p1. eexists. unfold mbind, PM_bind. rewrite E1. unfold should_terminate, get_and_clear_status.
  rewrite Hok1. split; reflexivity.
Qed.
End processor_correct.

(** ** Evaluation at concrete inputs *)

Lemma work_estimate_bounded_witness :
  0 <= work_estimate_ (mkProcessor 4000000 kOk 0) < kWorkEstimateThreshold.
Proof.
  apply (@work_estimate_bounded x64 quiet). apply rtc_once.
  apply (step_work _ _ 4000000); [split; vm_compute; congruence | vm_compute; reflexivity].
Defined.

Lemma interrupt_is_noticed_witness :
  exists p', (@do_work x64 impatient [2000000; 2000000; 2000000];; @do_work x64 impatient [3];;
    should_terminate) ProcessorImpl_new = Ok (true, p').
Proof.
  apply (@interrupt_is_noticed x64 impatient);
    [reflexivity | split; vm_compute; congruence | | vm_compute; congruence].
  repeat constructor; vm_compute; congruence.
Defined.

