(* ===== verification/ArithmeticCorrect.v ===== *)
(** Correctness statements for the digit operations and the linear-time vector
    operations, in the form a caller uses them: which result is returned, with the
    result buffers allocated by the [...ResultLength] functions of [bigint.h]. *)

From Stdlib Require Import ZArith Lia.
From stdpp Require Import base tactics numbers list option.
From S2P Require Import Prelude Digit Digits VectorArithmetic Processor MulSchoolbook DivHelpers SignedArithmetic Instances.

#[local] Open Scope Z_scope.

Section arithmetic_correct.
Context `{Config}.

Implicit Types (A B X Y Zd : digits).

(** C37: [digit_div_portable], the division of a two-digit number by a digit written
    without a double-width type, computes the Euclidean quotient and remainder; in
    particular its two correction loops end within the two rounds the fuel allows. *)
Theorem digit_div_portable_correct high low d :
  is_digit high -> is_digit low -> is_digit d -> high < d ->
  digit_div_portable high low d =
    Ok ((high * digit_base + low) / d, (high * digit_base + low) mod d).
Proof.
  intros Hh Hl Hd Hlt.
  destruct (wp_elim _ _ (digit_div_portable_spec high low d Hh Hl Hd Hlt)) as ([q r] & -> & E & Hr & _).
  destruct (div_mod_unique (high * digit_base + low) d q r) as [-> ->]; [done | lia | done].
Qed.

(** The product of two digits: low and high half, also in the variant that works
    with half digits. *)
Theorem digit_mul_correct a b :
  is_digit a -> is_digit b ->
  digit_mul a b = (a * b mod digit_base, a * b / digit_base).
Proof.
  intros Ha Hb. destruct (digit_mul_spec a b Ha Hb) as (low & high & -> & E & Hl & _).
  destruct (div_mod_unique (a * b) digit_base high low) as [-> ->]; [done | lia | done].
Qed.

(** [Normalize] computes the unique canonical representative: two vectors have
    the same value exactly when their normalizations are the same. *)
Theorem Normalize_canonical X Y :
  digits_ok X -> digits_ok Y -> (Normalize X = Normalize Y <-> val X = val Y).
Proof.
  intros HX HY. split.
  - intros E. by rewrite <- (val_Normalize X), E, val_Normalize.
  - intros E. rewrite <- (val_Normalize X), <- (val_Normalize Y) in E.
    pose proof (digits_ok_Normalize X HX) as HX'. pose proof (digits_ok_Normalize Y HY) as HY'.
    pose proof (normalized_Normalize X) as NX. pose proof (normalized_Normalize Y) as NY.
    apply val_inj; [done | done | | done].
    apply Nat.le_antisymm; apply normalized_length_le; (done || lia).
Qed.

(** Signed addition followed by signed subtraction of the same operand returns
    the original value, with every buffer as large as the result-length function of the
    operation says; no carry is lost and no [DCHECK] fails. *)
Theorem AddSigned_SubtractSigned_roundtrip Zd X xn Y yn :
  digits_ok X -> digits_ok Y ->
  length Zd = AddSignedResultLength (length X) (length Y) (Bool.eqb xn yn) ->
  exists S sn, AddSigned Zd X xn Y yn = Ok (S, sn) /\
    signed_val sn (val S) = signed_val xn (val X) + signed_val yn (val Y) /\
    forall Zd', length Zd' = SubtractSignedResultLength (length S) (length Y) (Bool.eqb sn yn) ->
      exists D dn, SubtractSigned Zd' S sn Y yn = Ok (D, dn) /\
        signed_val dn (val D) = signed_val xn (val X).
Proof.
  intros HX HY Hl.
  destruct (wp_elim _ _ (AddSigned_result Zd X xn Y yn HX HY Hl)) as ([S sn] & E & _ & HS & ES).
  exists S, sn. split_and!; [done | done |]. intros Zd' Hl'.
  destruct (wp_elim _ _ (SubtractSigned_result Zd' S sn Y yn HS HY Hl')) as ([D dn] & E' & _ & _ & ED).
  exists D, dn. split; [done | lia].
Qed.

(** [AddOne] into a buffer that is one digit longer computes the successor, and
    [SubtractOne] undoes it. *)
Theorem AddOne_SubtractOne_roundtrip Zd X :
  digits_ok X -> length Zd = S (length X) ->
  exists Z1 Z2, AddOne Zd X = Ok Z1 /\ val Z1 = val X + 1 /\
    SubtractOne Zd Z1 = Ok Z2 /\ val Z2 = val X.
Proof.
  intros HX Hl. pose proof (val_bounds X HX) as HvX. pose proof (bpow_pos (length X)).
  destruct (wp_elim _ _ (AddOne_spec Zd X HX ltac:(lia)
    ltac:(rewrite Hl, bpow_S; pose proof digit_base_ge; nia))) as (Z1 & E1 & Hl1 & H1' & EZ1).
  destruct (wp_elim _ _ (SubtractOne_spec Zd Z1 H1' ltac:(lia) ltac:(lia))) as (Z2 & E2 & _ & _ & EZ2).
  exists Z1, Z2. split_and!; (done || lia).
Qed.

(** Shifting left by less than a digit and back is the identity on values, and
    right shifting rounds towards zero. *)
Theorem LeftShift_RightShift_roundtrip Zd X shift :
  digits_ok X -> 0 <= shift < kDigitBits -> length Zd = S (length X) ->
  exists Z1 Z2, LeftShift Zd X shift = Ok Z1 /\ val Z1 = val X * 2 ^ shift /\
    RightShift Zd Z1 shift = Ok Z2 /\ val Z2 = val X /\
    exists Z3, RightShift Zd X shift = Ok Z3 /\ val Z3 = val X / 2 ^ shift.
Proof.
  intros HX Hs Hl. pose proof (val_bounds X HX) as HvX. pose proof (bpow_pos (length X)).
  assert (2 ^ shift < digit_base) as Hp by (apply Z.pow_lt_mono_r; lia).
  assert (0 < 2 ^ shift) by (apply Z.pow_pos_nonneg; lia).
  destruct (wp_elim _ _ (LeftShift_spec Zd X shift HX Hs ltac:(lia)
    ltac:(rewrite Hl, bpow_S; nia))) as (Z1 & E1 & Hl1 & H1' & EZ1).
  pose proof (length_Normalize Z1). pose proof (length_Normalize X).
  destruct (wp_elim _ _ (RightShift_spec Zd Z1 shift H1' Hs ltac:(lia))) as (Z2 & E2 & _ & _ & EZ2).
  destruct (wp_elim _ _ (RightShift_spec Zd X shift HX Hs ltac:(lia))) as (Z3 & E3 & _ & _ & EZ3).
  exists Z1, Z2. split_and!; try done.
  - by rewrite EZ2, EZ1, Z.div_mul by lia.
  - by exists Z3.
Qed.
End arithmetic_correct.

(** ** Evaluation at concrete inputs *)

Lemma digit_div_portable_correct_witness :
  @digit_div_portable portable32 3999999999 17 4000000001 =
    Ok ((3999999999 * 2 ^ 32 + 17) / 4000000001, (3999999999 * 2 ^ 32 + 17) mod 4000000001).
Proof.
  apply (@digit_div_portable_correct portable32);
    try (split; vm_compute; congruence); vm_compute; reflexivity.
Defined.

