(* ===== verification/MultiplicationCorrect.v ===== *)
(** Correctness statements for multiplication: the schoolbook algorithm computes the
    product, and each faster algorithm returns the same vector as the schoolbook one. *)

From Stdlib Require Import ZArith Lia.
From stdpp Require Import base tactics numbers list option.
From S2P Require Import Prelude Digit Digits VectorArithmetic Processor MulSchoolbook MulKaratsuba MulToom MulFft FftMod FftPointwise FftInner FftOuter FftParameters Multiply FftMultiply SignedArithmetic Instances.

#[local] Open Scope Z_scope.

Section multiplication_correct.
Context `{Config, Platform, !Allocator, FftMultiplier}.

Implicit Types (X Y Zd : digits).

(** Two computations that fill a buffer of the same length with the same value return
    the same vector. *)
Lemma same_product m1 m2 p n (v : Z) :
  wpP m1 p (fun Z' p' => status_le p p' /\ length Z' = n /\ digits_ok Z' /\ val Z' = v) ->
  wpP m2 p (fun Z' p' => status_le p p' /\ length Z' = n /\ digits_ok Z' /\ val Z' = v) ->
  exists Z' p1 p2, m1 p = Ok (Z', p1) /\ m2 p = Ok (Z', p2) /\ val Z' = v.
Proof.
  intros (Z1 & p1 & E1 & _ & Hl1 & H1' & V1)%wpP_elim (Z2 & p2 & E2 & _ & Hl2 & H2' & V2)%wpP_elim.
  assert (Z1 = Z2) as -> by (apply val_inj; (done || congruence)).
  by exists Z2, p1, p2.
Qed.

(** Schoolbook multiplication fills a buffer of [MultiplyResultLength] digits with
    exactly the product, whatever it contained before; an interrupt request is recorded
    in the status but does not change the result. *)
Theorem MultiplySchoolbook_correct Zd X Y p :
  digits_ok X -> digits_ok Y -> normalized X -> normalized Y -> int_len X ->
  (length Y <= length X)%nat -> length Zd = MultiplyResultLength X Y ->
  exists Z' p', MultiplySchoolbook Zd X Y p = Ok (Z', p') /\ status_le p p' /\
    length Z' = length Zd /\ digits_ok Z' /\ val Z' = val X * val Y.
Proof.
  intros HX HY NX NY Hi Hl HlZ. unfold MultiplyResultLength in HlZ.
  apply (wpP_elim _ _ _ (MultiplySchoolbook_spec Zd X Y p HX HY NX NY Hi Hl ltac:(lia))).
Qed.

(** C18: Karatsuba multiplication returns the same vector as the schoolbook algorithm:
    the recursion ends, the scratch space suffices at every level, none of the
    subtractions leaves a borrow behind, and every [DCHECK] holds. *)
Theorem MultiplyKaratsuba_equiv Zd X Y p :
  steady p -> digits_ok Zd -> digits_ok X -> digits_ok Y -> normalized X -> normalized Y ->
  int_len X -> (34 <= length Y)%nat -> Z.of_nat (length Y) < 2 ^ 28 ->
  (length Y <= length X)%nat -> (MultiplyResultLength X Y <= length Zd)%nat ->
  exists Z' p1 p2, MultiplyKaratsuba Zd X Y p = Ok (Z', p1) /\
    MultiplySchoolbook Zd X Y p = Ok (Z', p2) /\ val Z' = val X * val Y.
Proof.
  intros Hst HZ HX HY NX NY Hi Hk Hk2 Hl HlZ. eapply same_product.
  - by apply MultiplyKaratsuba_spec.
  - by apply MultiplySchoolbook_spec.
Qed.

(** C19: Toom-Cook multiplication, as [Multiply] uses it (its five pointwise products are
    computed by [Multiply] itself), returns the same vector as the schoolbook algorithm:
    the evaluation at 0, 1, -1, -2, infinity and the interpolation are exact. *)
Theorem MultiplyToomCook_equiv Zd X Y p :
  V8_ADVANCED_BIGINT_ALGORITHMS = true ->
  digits_ok Zd -> digits_ok X -> digits_ok Y -> normalized X -> normalized Y -> int_len X ->
  (4 <= length Y)%nat -> Z.of_nat (length Y) < kFftThreshold ->
  (length Y <= length X)%nat -> (MultiplyResultLength X Y <= length Zd)%nat ->
  exists Z' p1 p2, MultiplyToomCook (Multiply_rec 2) Zd X Y p = Ok (Z', p1) /\
    MultiplySchoolbook Zd X Y p = Ok (Z', p2) /\ val Z' = val X * val Y.
Proof.
  intros Hadv HZ HX HY NX NY Hi Hk Hfft Hl HlZ. eapply same_product.
  - apply MultiplyToomCook_spec; try done. apply Multiply_exact_small; [done|].
    unfold third, DIV_CEIL, kFftThreshold in *.
    pose proof (Z.div_lt_upper_bound (Z.of_nat (length Y) - 1) 3 500). lia.
  - by apply MultiplySchoolbook_spec.
Qed.

End multiplication_correct.

Section all_algorithms.
Context `{Config, Platform, !Allocator, PointerEquality}.
#[local] Existing Instance nested_fft.
Implicit Types (X Y Zd : digits).

(** C1: [Multiply] picks an algorithm by the length of the shorter operand and computes the
    product, for products of up to [2^18 * kDigitBits] digits (16 million 64-bit or 8 million 32-bit
    digits) with the advanced algorithms and for all vectors without them: Toom-Cook and the
    FFT call [Multiply] back, and their nesting is bounded.  Only the FFT stops early when an
    interrupt is requested; the status tells. *)
Theorem Multiply_correct Zd X Y p :
  steady p -> digits_ok Zd -> digits_ok X -> digits_ok Y -> mul_lengths X Y ->
  length Zd = MultiplyResultLength X Y ->
  (V8_ADVANCED_BIGINT_ALGORITHMS = true -> Z.of_nat (length X) + Z.of_nat (length Y) <= 2 ^ 18 * kDigitBits) ->
  exists Z' p', Multiply Zd X Y p = Ok (Z', p') /\ status_le p p' /\ length Z' = length Zd /\ digits_ok Z' /\
    (status_ p' = kOk \/ Z.of_nat (min_len X Y) < kFftThreshold -> val Z' = val X * val Y).
Proof.
  intros Hst HZ HX HY Hlen HlZ Hfft. unfold MultiplyResultLength in HlZ. pose proof (length_Normalize X). pose proof (length_Normalize Y).
  destruct (decide (V8_ADVANCED_BIGINT_ALGORITHMS = true /\ kFftThreshold <= Z.of_nat (min_len X Y))) as [[Hadv Hlong] | Hshort].
  - destruct (wpP_elim _ _ _ (Multiply_all_spec Zd X Y p (Hfft Hadv) Hst HZ HX HY ltac:(lia))) as (Z' & p' & E & Hle & Hl & Hok & Hv).
    exists Z', p'. split_and!; try done. intros [? | ?]; [by apply Hv | lia].
  - destruct (wpP_elim _ _ _ (Multiply_spec Zd X Y p Hst HZ HX HY Hlen ltac:(lia) ltac:(intros Ha; apply Z.nle_gt; naive_solver))) as (Z' & p' & E & Hle & Hl & Hok & Hv).
    by exists Z', p'.
Qed.
End all_algorithms.

(** ** Evaluation at concrete inputs *)

(** Stands for [MultiplyFFT] where the operands are too short for it. *)
Definition unused_fft : FftMultiplier := fun Zd _ _ => lift (Err DCheckFailed).

Lemma MultiplyKaratsuba_equiv_witness :
  exists Z' p1 p2,
    @MultiplyKaratsuba x64 quiet garbage (replicate 68 0) (replicate 34 9) (replicate 34 5)
      ProcessorImpl_new = Ok (Z', p1) /\
    @MultiplySchoolbook x64 quiet (replicate 68 0) (replicate 34 9) (replicate 34 5)
      ProcessorImpl_new = Ok (Z', p2) /\
    @val x64 Z' = @val x64 (replicate 34 9) * @val x64 (replicate 34 5).
Proof.
  apply (@MultiplyKaratsuba_equiv x64 quiet garbage);
    [by left | solve_digits | solve_digits | solve_digits | discriminate | discriminate
    | solve_lengths | solve_lengths | solve_lengths | solve_lengths | solve_lengths].
Defined.

Lemma MultiplyToomCook_equiv_witness :
  exists Z' p1 p2,
    @MultiplyToomCook x64 garbage (@Multiply_rec x64 quiet garbage unused_fft 2)
      (replicate 400 0) (replicate 200 9) (replicate 200 5) ProcessorImpl_new = Ok (Z', p1) /\
    @MultiplySchoolbook x64 quiet (replicate 400 0) (replicate 200 9) (replicate 200 5)
      ProcessorImpl_new = Ok (Z', p2) /\
    @val x64 Z' = @val x64 (replicate 200 9) * @val x64 (replicate 200 5).
Proof.
  apply (@MultiplyToomCook_equiv x64 quiet garbage unused_fft);
    [reflexivity | solve_digits | solve_digits | solve_digits | discriminate | discriminate
    | solve_lengths | solve_lengths | solve_lengths | solve_lengths | solve_lengths].
Defined.

(** Pointers to equal digits are equal, or no two pointers are. *)
Definition by_value : PointerEquality := {|
  same_digits := fun X Y => bool_decide (X = Y);
  same_digits_eq := fun X Y => bool_decide_eq_true_1 (X = Y);
|}.

Definition x64_fft : FftMultiplier := @nested_fft x64 quiet garbage by_value.

Lemma Multiply_correct_witness :
  exists Z' p', @Multiply x64 quiet garbage x64_fft (replicate 12 0) [1; 2; 3; 0; 0; 0]
      (replicate 6 5) ProcessorImpl_new = Ok (Z', p') /\
    status_le (H := quiet) ProcessorImpl_new p' /\ length Z' = 12%nat /\ @digits_ok x64 Z' /\
    (status_ p' = kOk \/ Z.of_nat (min_len [1; 2; 3; 0; 0; 0] (replicate 6 5)) < kFftThreshold ->
     @val x64 Z' = @val x64 [1; 2; 3; 0; 0; 0] * @val x64 (replicate 6 5)).
Proof.
  apply (@Multiply_correct x64 quiet garbage by_value (replicate 12 0));
    [by left | solve_digits | solve_digits | solve_digits
    | split_and!; solve_lengths | reflexivity | intros _; solve_lengths].
Defined.
