(* ===== verification/FftCorrect.v ===== *)
(** Correctness statements for [src/bigint/mul-fft.cc]: the arithmetic modulo [F_n], the
    parameters, the transformation, and the two layers of the multiplication. *)

From Stdlib Require Import ZArith Lia.
From stdpp Require Import base tactics numbers list option.
From S2P Require Import Prelude Digit Digits VectorArithmetic Processor MulSchoolbook MulKaratsuba MulFft FftMod FftAlgebra FftTransform FftPointwise FftStart FftInner FftOuter FftParameters Multiply FftMultiply SignedArithmetic Instances MultiplicationCorrect.

#[local] Open Scope Z_scope.

Section fft_correct.
Context `{Config, Platform, !Allocator, PointerEquality}.
Implicit Types (x A B X Y Zd R : digits).

(** The canonical representative is the remainder. *)
Lemma residue_mod K r v : residue K r v -> val r = v mod Fn K.
Proof.
  intros [(Hl & Hok & Hle) E]. pose proof (val_bounds r Hok). pose proof (bpow_pos K). assert (0 < Fn K) by (unfold Fn; lia).
  pose proof (Z.mod_pos_bound v (Fn K) ltac:(done)). apply (eqm_unique (Fn K) _ _ 0); [| unfold Fn in *; lia | lia].
  rewrite E. exists (v / Fn K). pose proof (Z.div_mod v (Fn K)). lia.
Qed.

Lemma wp_residue K m v : wp m (fun r => residue K r v) -> exists r, m = Ok r /\ canon K r /\ val r = v mod Fn K.
Proof. intros (r & E & Hr)%wp_elim. exists r. split_and!; [done | apply Hr | by apply residue_mod]. Qed.

(** C21: [ShiftModFn] multiplies a number of [K + 1] digits, at most [2^K], by any power of
    two modulo [F_n = 2^K + 1]: the result is the remainder, it is again at most [2^K], and
    neither the old contents of the buffer nor a correct [zero_above] hint change it. *)
Theorem ShiftModFn_correct K R x power_of_two zero_above :
  (0 < K)%nat -> canon K x -> length R = S K -> digits_ok R -> 0 <= power_of_two -> zero_from_cap x K zero_above ->
  exists r, ShiftModFn R x power_of_two K zero_above = Ok r /\ canon K r /\ val r = (val x * 2 ^ power_of_two) mod Fn K.
Proof. intros. by apply wp_residue, ShiftModFn_spec. Qed.

(** C22: [GetParameters] chooses the transformation for a product of [N] digits: [n = 2^m]
    chunks of [s] digits hold both operands, the parts of [K] digits have room for the sums
    of [n] products of chunks, [2^r] is a root of unity of order [n] modulo [2^K + 1], the
    rounding loop and the search for [m] end, and no operand that is long enough for the
    FFT is shorter than a chunk.  [N] is at most [2^18 * kDigitBits]; beyond that chunks can
    be longer. *)
Theorem GetParameters_sound N :
  0 < N <= 2 ^ 18 * kDigitBits ->
  exists m P, GetParameters N = Ok (m, P) /\ 2 <= m /\ param_n P = 2 ^ m /\ N <= param_n P * param_s P /\
    0 < param_s P < kFftThreshold /\ param_n P * 2 ^ (2 * (kDigitBits * param_s P)) * 2 <= 2 ^ (kDigitBits * param_K P) /\
    param_r P * (param_n P / 2) = kDigitBits * param_K P /\ param_K P < 34900.
Proof.
  intros HN. pose proof kDigitBits_cases as Hkb. destruct (wp_elim _ _ (GetParameters_spec N ltac:(lia))) as ([m P] & E & Hm & HP & Hshort).
  pose proof (chunks_below_threshold N m P HN Hm Hshort) as Hs. destruct (part_bounds N m P HN Hm HP Hshort) as [HK _].
  exists m, P. destruct HP as [En Hs0 Hfit _ [Hr Er] Hroom _]. unfold kFftThreshold. rewrite En. split_and!; try done; try lia.
  - rewrite <- !Z.pow_add_r, <- Z.pow_add_r with (c := 1) by nia. apply Z.pow_le_mono_r; nia.
  - rewrite <- Er. f_equal. replace m with (m - 1 + 1) at 1 by lia. rewrite Z.pow_add_r by lia. apply Z.div_mul. done.
Qed.

(** The numbers in the parts of a container. *)
Definition part_val (c : FFTContainer) (k : nat) : Z := val (default [] (part_ c !! k)).

(** C20: the forward transformation evaluates the polynomial whose coefficients are the [2^l]
    parts at the powers of two [2^(exponent l omega k)], modulo [F_n], for an [omega] with
    [2^(omega * 2^(l-1)) = -1]; the recursion ends and every [DCHECK] holds. *)
Theorem FFT_evaluates l K omega c :
  (0 < K)%nat -> (0 < l)%nat -> root (Fn K) l omega -> container_ok (2 ^ l) K c -> Forall (canon K) (part_ c) ->
  exists c', FFT_ReturnShuffledThreadsafe (S (2 ^ l)) 0 (2 ^ l) omega c = Ok c' /\ container_ok (2 ^ l) K c' /\
    forall k, (k < 2 ^ l)%nat -> part_val c' k = eval (2 ^ l) (part_val c) (2 ^ exponent l omega k) mod Fn K.
Proof.
  intros HK Hl Hroot Hc Hcanon. pose proof (container_length _ _ _ Hc) as Hlen.
  assert (forall k, (0 + k < 2 ^ l)%nat -> holds K c (0 + k) (part_val c k)) as Hparts.
  { intros k Hk. destruct (lookup_lt_is_Some_2 (part_ c) k) as [p Ep]; [lia|]. exists p. unfold part_val. cbn [Nat.add]. rewrite Ep. split_and!; try done.
    split; [by eapply Forall_lookup_1 | done]. }
  destruct (wp_elim _ _ (FFT_ReturnShuffledThreadsafe_spec (2 ^ l) K HK (S (2 ^ l)) l 0 omega (part_val c) c
    ltac:(pose proof (Nat.pow_gt_lin_r 2 l); lia) Hl (proj1 Hroot) Hc ltac:(done) Hparts)) as (c' & E & Hc' & Hv & _).
  exists c'. split_and!; try done. intros k Hk. destruct (Hv k Hk) as (p & Ep & Hp). cbn [Nat.add] in Ep.
  unfold part_val at 1. rewrite Ep. cbn. apply residue_mod. eapply residue_mono; [done|]. by apply transform_eval.
Qed.
(** C3: the inner layer multiplies modulo [F_n]: for parts of [K_] digits that are multiplied
    by an FFT, [MultiplyFFT_Inner] with the parameters of [ComputeParameters_Inner] leaves a
    number of double width from which [ModFnDoubleWidth] gets the product modulo [2^K + 1].
    The negative coefficients of the negacyclic convolution are told by [ShouldBeNegative],
    and the mutual recursion with [DoPointwiseMultiplication] ends. *)
Theorem MultiplyFFT_Inner_correct K Zd A B dest p :
  kFftInnerThreshold <= Z.of_nat K < 34900 -> Z.land (Z.of_nat K) 3 = 0 -> steady p ->
  canon K A -> canon K B -> length Zd = (2 * (K + 1))%nat -> digits_ok Zd -> length dest = S K -> digits_ok dest ->
  exists P R p', ComputeParameters_Inner (Z.of_nat K) = Ok P /\
    MultiplyFFT_Inner inner_fuel (@Multiply _ _ _ (fft_levels 2)) P Zd A B p = Ok (R, p') /\ status_le p p' /\ length R = length Zd /\
    (status_ p' = kOk -> exists r, ModFnDoubleWidth dest R = Ok r /\ canon K r /\ val r = (val A * val B) mod Fn K).
Proof.
  unfold kFftInnerThreshold. intros HK H3 Hst HA HB HlZ HZ Hld Hd.
  destruct (wp_elim _ _ (ComputeParameters_Inner_spec K ltac:(lia) H3)) as (P & EP & HP).
  pose proof (MultiplyFFT_Inner_spec (@Multiply _ _ _ (fft_levels 2)) (Z.to_nat 34999) Multiplier_two_levels ComputeParameters_Inner_spec inner_fuel K P
    HP ltac:(lia) (inner_depth_int K ltac:(lia)) Zd A B p Hst HA HB HlZ HZ) as (R & p' & ER & Hle & HlR & HR & Hv)%wpP_elim.
  exists P, R, p'. split_and!; try done; [lia|]. intros Hok. destruct (Hv Hok) as (V & j & Ej & HV & E).
  apply wp_residue. eapply wp_mono; [apply (ModFnDoubleWidth_spec K dest R V j); (done || lia)|]. intros r Hr. exact (residue_mono _ _ _ _ Hr E).
Qed.

(** C2: [MultiplyFFT], as [Multiply] calls it, returns the same vector as the schoolbook
    algorithm unless an interrupt stops it: for operands from the FFT threshold on and
    products of up to [2^18 * kDigitBits] digits, the chunks, the transformations, the pointwise products
    (by nested FFTs where the parts are long) and the recombination are exact. *)
Theorem MultiplyFFT_equiv Zd X Y p :
  steady p -> digits_ok Zd -> digits_ok X -> digits_ok Y -> normalized X -> normalized Y ->
  (length Y <= length X)%nat -> kFftThreshold <= Z.of_nat (length Y) ->
  Z.of_nat (length X) + Z.of_nat (length Y) <= 2 ^ 18 * kDigitBits -> (MultiplyResultLength X Y <= length Zd)%nat ->
  exists Z' p', MultiplyFFT (@Multiply _ _ _ (fft_levels 2)) Zd X Y p = Ok (Z', p') /\ status_le p p' /\
    (status_ p' = kOk -> exists p2, MultiplySchoolbook Zd X Y p = Ok (Z', p2) /\ val Z' = val X * val Y).
Proof.
  intros Hst HZ HX HY NX NY Hl Hfft HN HlZ. pose proof kDigitBits_cases. unfold MultiplyResultLength in HlZ.
  destruct (wpP_elim _ _ _ (MultiplyFFT_level _ _ Multiplier_two_levels Zd X Y p (parts_below_all _ HN) HN ltac:(lia) Hfft Hst HZ HX HY HlZ)) as (Z' & p' & E & Hle & Hl' & Hok & Hv).
  exists Z', p'. split_and!; try done. intros Hk.
  destruct (wpP_elim _ _ _ (MultiplySchoolbook_spec Zd X Y p HX HY NX NY ltac:(unfold int_len; lia) Hl HlZ)) as (Z2 & p2 & E2 & _ & Hl2 & Hok2 & Hv2).
  exists p2. assert (Z' = Z2) as <- by (apply val_inj; [done | done | congruence | by rewrite Hv, Hv2]). done.
Qed.

(** [Start] copies a whole first chunk of an operand that fills less than half of the
    container, without comparing with its length. *)
Lemma Start_short X s theta omega c :
  theta = 0 -> (0 < n_ c)%nat -> length (part_ c) = n_ c -> (length X < s)%nat -> (length X <= Nat.div2 (n_ c * s))%nat ->
  Start X s theta omega c = Err OutOfBounds.
Proof.
  intros -> Hn Hparts Hs Hhalf. unfold Start. rewrite bool_decide_false by lia. cbn [dcheck Z.eqb mbind res_bind].
  destruct (lookup_lt_is_Some_2 (part_ c) 0) as [p Ep]; [lia|]. unfold get_part. rewrite Ep. cbn [mbind res_bind].
  unfold CopyAndZeroExtend. rewrite bool_decide_false by lia. done.
Qed.
End fft_correct.

(** ** An operand that is shorter than a chunk *)

Section past_end.
Context {alloc : @Allocator arm32} {pointers : PointerEquality}.
#[local] Existing Instance arm32.

Lemma GetParameters_long_chunks : GetParameters 25133676 = Ok (14, mkParameters 0 3072 16384 1535 12).
Proof. vm_compute. reflexivity. Qed.

Lemma lift_Ok_bind {A B} (m : res A) a (f : A -> PM B) p : m = Ok a -> (lift m ≫= f) p = f a p.
Proof. by intros ->. Qed.

Lemma PM_bind_Err {A B} (m : PM A) e (f : A -> PM B) p : m p = Err e -> (m ≫= f) p = Err e.
Proof. intros E. unfold mbind, PM_bind. by rewrite E. Qed.

(** The first operand is as long as the container. *)
Lemma Start_long_chunks X :
  digits_ok X -> Z.of_nat (length X) = 25132176 ->
  exists c, Start X (Z.to_nat 1535) 0 12 (FFTContainer_new (Z.to_nat 16384) (Z.to_nat 3072)) = Ok c.
Proof.
  intros HX HlX. assert (Z.to_nat 16384 = 2 ^ 14)%nat as -> by (apply Nat2Z.inj; rewrite pow_of_nat; lia).
  assert (Z.of_nat (2 ^ 14) = 16384) as Hn by (by rewrite pow_of_nat). set (n := (2 ^ 14)%nat) in *.
  destruct (wp_elim _ _ (FFTContainer_Start_spec 14 (Z.to_nat 3072) (Z.to_nat 1535) ltac:(lia) ltac:(lia) X HX 0 12 ltac:(lia) ltac:(lia)
    ltac:(unfold fits, nparts; fold n; nia) (FFTContainer_new n (Z.to_nat 3072))
    (FFTContainer_new_ok _ _) ltac:(lia) eq_refl ltac:(unfold nparts; fold n; nia))) as (c & E & _).
  by exists c.
Qed.

(** C40: with 32-bit digits a chunk can be longer than the shorter operand: for a product of
    25133676 digits [GetParameters] chooses chunks of 1535 digits, and if the shorter operand
    has 1500 digits, [Start] reads behind its end. *)
Theorem MultiplyFFT_reads_past_end mul Zd X Y p :
  digits_ok X -> Z.of_nat (length X) = 25132176 -> Z.of_nat (length Y) = kFftThreshold ->
  MultiplyFFT mul Zd X Y p = Err OutOfBounds.
Proof.
  unfold kFftThreshold. intros HX HlX HlY. destruct (Start_long_chunks X HX HlX) as [a Ea].
  unfold MultiplyFFT. rewrite HlX, HlY. change (25132176 + 1500) with 25133676.
  rewrite (lift_Ok_bind _ _ _ _ GetParameters_long_chunks). cbn [param_r param_n param_K param_s param_m]. rewrite (lift_Ok_bind _ _ _ _ Ea).
  destruct (same_digits X Y) eqn:Esame; [apply same_digits_eq in Esame; subst; lia|].
  apply PM_bind_Err, PM_bind_Err. unfold lift. rewrite Start_short; [done | done | cbn; lia | | lia | cbn [n_ FFTContainer_new]].
  - cbn. by rewrite length_map, length_seq.
  - rewrite Nat.div2_div. apply Nat.div_le_lower_bound; lia.
Qed.
End past_end.

(** ** Evaluation at concrete inputs *)

(** Discharges [canon] of a closed vector. *)
Ltac solve_canon := split_and!; [vm_compute; reflexivity | solve_digits | vm_compute; discriminate].

Lemma ShiftModFn_correct_witness :
  exists r, @ShiftModFn x64 [9; 9; 9] [5; 3; 0] 200 2 (Some 2%nat) = Ok r /\ @canon x64 2 r /\
    @val x64 r = (@val x64 [5; 3; 0] * 2 ^ 200) mod @Fn x64 2.
Proof.
  apply (@ShiftModFn_correct x64 2 [9; 9; 9] [5; 3; 0] 200 (Some 2%nat)); [lia | solve_canon | reflexivity | solve_digits | lia | cbn; lia].
Defined.

(** 3072 digits: 64 chunks of 48 digits. *)
Lemma GetParameters_sound_witness :
  exists m P, @GetParameters x64 3072 = Ok (m, P) /\ 2 <= m /\ param_n P = 2 ^ m /\ 3072 <= param_n P * param_s P /\
    0 < param_s P < kFftThreshold /\ param_n P * 2 ^ (2 * (@kDigitBits x64 * param_s P)) * 2 <= 2 ^ (@kDigitBits x64 * param_K P) /\
    param_r P * (param_n P / 2) = @kDigitBits x64 * param_K P /\ param_K P < 34900.
Proof. apply (@GetParameters_sound x64 3072). split; vm_compute; (reflexivity || discriminate). Defined.

(** Four parts of two 64-bit digits; [2^32] is a fourth root of unity modulo [2^64 + 1]. *)
Definition four_parts : FFTContainer := mkContainer 4 1 [[1; 0]; [2; 0]; [0; 1]; [7; 0]] [0; 0; 0; 0].

Lemma FFT_evaluates_witness :
  exists c', @FFT_ReturnShuffledThreadsafe x64 (S (2 ^ 2)) 0 (2 ^ 2) 32 four_parts = Ok c' /\ @container_ok x64 (2 ^ 2) 1 c' /\
    forall k, (k < 2 ^ 2)%nat -> @part_val x64 c' k = eval (2 ^ 2) (@part_val x64 four_parts) (2 ^ exponent 2 32 k) mod @Fn x64 1.
Proof.
  apply (@FFT_evaluates x64 2 1 32 four_parts); [lia | lia | | | repeat (apply Forall_cons_2; [solve_canon|]); apply Forall_nil_2].
  - split; [lia|]. exists 1. reflexivity.
  - constructor; try reflexivity; [|solve_digits].
    repeat (apply Forall_cons_2; [split; [reflexivity | solve_digits]|]); apply Forall_nil_2.
Defined.

Lemma MultiplyFFT_Inner_correct_witness :
  exists P R p', @ComputeParameters_Inner x64 200 = Ok P /\
    @MultiplyFFT_Inner x64 garbage inner_fuel (@Multiply x64 quiet garbage (@fft_levels x64 quiet garbage by_value 2)) P
      (replicate 402 0) (replicate 200 5 ++ [0]) (replicate 200 9 ++ [0]) ProcessorImpl_new = Ok (R, p') /\
    status_le (H := quiet) ProcessorImpl_new p' /\ length R = 402%nat /\
    (status_ p' = kOk -> exists r, @ModFnDoubleWidth x64 (replicate 201 0) R = Ok r /\ @canon x64 200 r /\
      @val x64 r = (@val x64 (replicate 200 5 ++ [0]) * @val x64 (replicate 200 9 ++ [0])) mod @Fn x64 200).
Proof.
  apply (@MultiplyFFT_Inner_correct x64 quiet garbage by_value 200 (replicate 402 0) (replicate 200 5 ++ [0]) (replicate 200 9 ++ [0]) (replicate 201 0));
    [unfold kFftInnerThreshold; lia | reflexivity | by left | solve_canon | solve_canon | reflexivity | solve_digits | reflexivity | solve_digits].
Defined.

Lemma MultiplyFFT_equiv_witness :
  exists Z' p', @MultiplyFFT x64 garbage by_value (@Multiply x64 quiet garbage (@fft_levels x64 quiet garbage by_value 2)) (replicate 3000 0) (replicate 1500 9) (replicate 1500 5) ProcessorImpl_new = Ok (Z', p') /\
    status_le (H := quiet) ProcessorImpl_new p' /\
    (status_ p' = kOk -> exists p2, @MultiplySchoolbook x64 quiet (replicate 3000 0) (replicate 1500 9) (replicate 1500 5) ProcessorImpl_new = Ok (Z', p2) /\
      @val x64 Z' = @val x64 (replicate 1500 9) * @val x64 (replicate 1500 5)).
Proof.
  apply (@MultiplyFFT_equiv x64 quiet garbage by_value (replicate 3000 0) (replicate 1500 9) (replicate 1500 5));
    [by left | solve_digits | solve_digits | solve_digits | discriminate | discriminate | solve_lengths | solve_lengths | solve_lengths | solve_lengths].
Defined.

Lemma one_ok : @is_digit arm32 1.
Proof. split; vm_compute; (reflexivity || discriminate). Qed.

Lemma MultiplyFFT_reads_past_end_witness :
  @MultiplyFFT arm32 (@filled arm32 1 one_ok) by_value (@Multiply arm32 quiet (@filled arm32 1 one_ok) unused_fft) [] (replicate (Z.to_nat 25132176) 1) (replicate (Z.to_nat 1500) 1) ProcessorImpl_new = Err OutOfBounds.
Proof.
  apply (@MultiplyFFT_reads_past_end (@filled arm32 1 one_ok) by_value (@Multiply arm32 quiet (@filled arm32 1 one_ok) unused_fft) [] (replicate (Z.to_nat 25132176) 1) (replicate (Z.to_nat 1500) 1));
    [apply replicate_ok, one_ok | rewrite length_replicate; lia | rewrite length_replicate; unfold kFftThreshold; lia].
Defined.
