(* ===== verification/DivisionCorrect.v ===== *)
(** Correctness statements for division: the schoolbook algorithms compute the Euclidean
    quotient and remainder, Burnikel-Ziegler and Barrett division return the same vectors,
    and the public entry points divide with remainder. *)

From Stdlib Require Import ZArith Lia.
From stdpp Require Import base tactics numbers list option.
From S2P Require Import Prelude Digit Digits VectorArithmetic Processor MulSchoolbook MulKaratsuba MulToom MulFft Multiply FftMultiply DivHelpers DivSchoolbook DivBurnikel DivBarrett DivNewton Division SignedArithmetic Instances MultiplicationCorrect.

#[local] Open Scope Z_scope.

Section division_correct.
Context `{Config, Platform, !Allocator, PointerEquality}.
#[local] Existing Instance nested_fft.
#[local] Opaque nested_fft.

Implicit Types (A B Q R : digits).

(** C17: schoolbook division (Knuth's Algorithm D) returns the Euclidean quotient and
    remainder: the estimate of every quotient digit is at most two too large before the
    two-digit test and at most one after it, the add-back step repairs it, and the loop
    ends. *)
Theorem DivideSchoolbook_correct Q R A B p :
  digits_ok Q -> digits_ok A -> digits_ok B -> normalized B -> (2 <= length B)%nat ->
  (length B <= length A)%nat -> (length A - length B < length Q)%nat -> (length B <= length R)%nat ->
  exists Q' R' p', DivideSchoolbook Q R A B p = Ok ((Q', R'), p') /\ status_le p p' /\
    length Q' = length Q /\ length R' = length R /\ digits_ok Q' /\ digits_ok R' /\
    val Q' = val A / val B /\ val R' = val A mod val B.
Proof.
  intros HQ HA HB NB Hn Hl HlQ HlR.
  destruct (wpP_elim _ _ _ (DivideSchoolbook_spec Q R A B p HQ HA HB NB Hn Hl
    ltac:(unfold quotient_fits; right; left; lia) ltac:(by right)))
    as ([Q' R'] & p' & E & Hle & HlQ' & HlR' & HQ' & EQ & ER).
  assert (Q <> []) as HneQ by (intros ->; simpl in *; lia).
  assert (R <> []) as HneR by (intros ->; simpl in *; lia).
  exists Q', R', p'. destruct (ER HneR). split_and!; auto.
Qed.

(** C15: Burnikel-Ziegler division returns exactly the digits schoolbook division returns
    (when no interrupt is requested): the recursion on 3-by-2 and 2-by-1 blocks ends, its
    correction loop runs at most twice, and no intermediate block overflows. *)
Theorem DivideBurnikelZiegler_equiv Q R A B p :
  steady p -> uninterrupted p ->
  digits_ok Q -> digits_ok R -> digits_ok A -> digits_ok B -> normalized B -> (2 <= length B)%nat ->
  (length B <= length A)%nat -> (length A - length B < length Q)%nat -> (length B <= length R)%nat ->
  Z.of_nat (length B) < 2 ^ 28 ->
  mul_supported (length B) ->
  exists Q' R' p1 p2, DivideBurnikelZiegler Q R A B p = Ok ((Q', R'), p1) /\
    DivideSchoolbook Q R A B p = Ok ((Q', R'), p2) /\
    val Q' = val A / val B /\ val R' = val A mod val B.
Proof.
  intros Hst Hun HQ HR HA HB NB Hn Hl HlQ HlR Hi Hfft.
  assert (Q <> []) as HneQ by (intros ->; simpl in *; lia).
  assert (R <> []) as HneR by (intros ->; simpl in *; lia).
  assert (B <> []) as HneB by (intros ->; simpl in *; lia).
  pose proof (Multiplier_supported (length B) Hi Hfft) as Hmul.
  destruct (wpP_elim _ _ _ (DivideBurnikelZiegler_spec (length B) Q R A B p Hst HQ HR HA HB NB HneB
    Hl HlQ ltac:(by right) ltac:(lia) ltac:(lia)))
    as ([Q1 R1] & p1 & E1 & Hle1 & HlQ1 & HQ1 & HlR1 & HR1 & V1).
  destruct (uninterrupted_le p p1 Hle1 Hun) as [Hok _]. destruct (V1 Hok) as [VQ1 VR1].
  destruct (wpP_elim _ _ _ (DivideSchoolbook_spec Q R A B p HQ HA HB NB Hn Hl
    ltac:(unfold quotient_fits; right; left; lia) ltac:(by right)))
    as ([Q2 R2] & p2 & E2 & _ & HlQ2 & HlR2 & HQ2 & VQ2 & VR2).
  destruct (VR2 HneR) as [HR2 VR2'].
  specialize (VQ2 HneQ). specialize (VR1 HneR).
  assert (Q1 = Q2) as -> by (apply val_inj; (done || congruence)).
  assert (R1 = R2) as -> by (apply val_inj; (done || congruence)).
  exists Q2, R2, p1, p2. split_and!; auto.
Qed.

(** The products and the inverses that a division by [B] needs. *)
Lemma division_interfaces B :
  Z.of_nat (length B + 3) < 2 ^ 28 -> mul_supported (length B + 3) -> Multiplier (length B + 3) /\ Inverter (length B).
Proof.
  intros Hi Hs. pose proof (Multiplier_supported (length B + 3) Hi Hs) as Hm. split; [done|].
  apply (Inverter_of_Multiplier (length B + 3)); (done || lia).
Qed.

(** C16: Barrett division returns exactly the digits schoolbook division returns: the
    approximate quotient computed with the inverse is off by at most five, the correction
    loops end within that bound, and no intermediate result overflows.  The inverse is
    computed by division or, from [kNewtonInversionThreshold] digits on, by Newton's
    iteration, whose truncations are accounted for.  In builds with the
    advanced algorithms the divisor is at least three digits shorter than [2^17 * kDigitBits]
    digits; no interrupt is requested. *)
Theorem DivideBarrett_equiv Q R A B p :
  uninterrupted p ->
  digits_ok Q -> digits_ok R -> digits_ok A -> digits_ok B -> normalized A -> normalized B ->
  (2 <= length B)%nat -> (length B < length A)%nat -> (length A - length B + 1 < length Q)%nat ->
  (length B <= length R)%nat ->
  Z.of_nat (length B + 3) < 2 ^ 28 -> mul_supported (length B + 3) ->
  exists Q' R' p1 p2, DivideBarrett Q R A B p = Ok ((Q', R'), p1) /\
    DivideSchoolbook Q R A B p = Ok ((Q', R'), p2) /\
    val Q' = val A / val B /\ val R' = val A mod val B.
Proof.
  intros Hun HQ HR HA HB NA NB Hn Hl HlQ HlR Hi Hfft.
  assert (Q <> []) as HneQ by (intros ->; simpl in *; lia).
  assert (R <> []) as HneR by (intros ->; simpl in *; lia).
  assert (B <> []) as HneB by (intros ->; simpl in *; lia).
  destruct (division_interfaces B Hi Hfft) as [Hmul Hinverter].
  destruct (wpP_elim _ _ _ (DivideBarrett_spec (length B + 3) (length B) Q R A B p Hun HQ HR HA HB NA NB HneB
    Hl HlQ HlR ltac:(lia) ltac:(lia))) as ([Q1 R1] & p1 & E1 & Hle1 & HlQ1 & HQ1 & HlR1 & HR1 & V1).
  destruct (uninterrupted_le p p1 Hle1 Hun) as [Hok _]. destruct (V1 Hok) as [VQ1 VR1].
  destruct (wpP_elim _ _ _ (DivideSchoolbook_spec Q R A B p HQ HA HB NB Hn ltac:(lia)
    ltac:(unfold quotient_fits; right; left; lia) ltac:(by right)))
    as ([Q2 R2] & p2 & E2 & _ & HlQ2 & HlR2 & HQ2 & VQ2 & VR2).
  destruct (VR2 HneR) as [HR2 VR2']. specialize (VQ2 HneQ).
  assert (Q1 = Q2) as -> by (apply val_inj; (done || congruence)).
  assert (R1 = R2) as -> by (apply val_inj; (done || congruence)).
  exists Q2, R2, p1, p2. split_and!; auto.
Qed.

Lemma divisible_supported A B p :
  uninterrupted p -> digits_ok A -> digits_ok B -> normalized A -> normalized B -> B <> [] ->
  Z.of_nat (length B + 3) < 2 ^ 28 -> divisible (length B + 3) (length B) p A B.
Proof.
  intros Hun HA HB NA NB HneB Hi. split; try done; [by right | lia | lia |]. intros (Hadv & Hth & Hlt). split; [done | lia].
Qed.

(** C28: the public [Divide] and [Modulo], in result buffers of exactly the advertised
    lengths, report [kOk] and together divide with remainder, whichever algorithm the
    thresholds select, for a divisor that is not greater than the dividend, when no
    interrupt is requested.  In builds with the advanced algorithms the divisor is at least
    three digits shorter than [2^17 * kDigitBits] digits. *)
Theorem Processor_Divide_Modulo_euclid Q R A B p :
  uninterrupted p -> digits_ok Q -> digits_ok R -> digits_ok A -> digits_ok B ->
  normalized A -> normalized B -> B <> [] -> val B <= val A ->
  Z.of_nat (length Q) = DivideResultLength A B -> length R = ModuloResultLength B ->
  Z.of_nat (length B + 3) < 2 ^ 28 -> mul_supported (length B + 3) ->
  exists Q' R' p1 p2, Processor_Divide Q A B p = Ok ((kOk, Q'), p1) /\
    Processor_Modulo R A B p1 = Ok ((kOk, R'), p2) /\ uninterrupted p2 /\
    length Q' = length Q /\ length R' = length R /\ digits_ok Q' /\ digits_ok R' /\
    val A = val Q' * val B + val R' /\ 0 <= val R' < val B.
Proof.
  intros Hun HQ HR HA HB NA NB HneB HBA HlQ HlR Hi Hfft.
  destruct (division_interfaces B Hi Hfft) as [Hmul Hinverter].
  pose proof (val_pos_of_normalized B HB NB HneB) as HB0.
  assert (length B <= length A)%nat as Hl by (by apply normalized_length_le).
  pose proof (DivideResultLength_ge A B).
  destruct (wpP_elim _ _ _ (Divide_spec (length B + 3) (length B) Q A B p
    (divisible_supported A B p Hun HA HB NA NB HneB Hi) HQ ltac:(lia) ltac:(lia)))
    as (Q' & p1 & E1 & Hle1 & HlQ' & HQ' & VQ).
  destruct (uninterrupted_le p p1 Hle1 Hun) as [Hok1 Hno].
  set (p1' := mkProcessor (work_estimate_ p1) kOk (polls p1)).
  assert (uninterrupted p1') as Hun1 by done.
  destruct (wpP_elim _ _ _ (Modulo_spec (length B + 3) (length B) R A B p1'
    (divisible_supported A B p1' Hun1 HA HB NA NB HneB Hi) HR ltac:(lia) HBA))
    as (R' & p2 & E2 & Hle2 & HlR' & HR' & VR).
  destruct (uninterrupted_le p1' p2 Hle2 Hun1) as [Hok2 _].
  exists Q', R', p1', (mkProcessor (work_estimate_ p2) kOk (polls p2)).
  unfold Processor_Divide, Processor_Modulo, mbind, PM_bind. rewrite E1. cbn.
  rewrite Hok1. split; [done|]. fold p1'. rewrite E2. cbn. rewrite Hok2.
  rewrite (VQ Hok1), (VR Hok2). pose proof (Z.div_mod (val A) (val B)).
  pose proof (Z.mod_pos_bound (val A) (val B) HB0). split_and!; try done; lia.
Qed.

(** For a dividend below the divisor [Modulo] returns the divisor instead of the
    dividend, which is the remainder. *)
Theorem Modulo_smaller_dividend R A B p :
  digits_ok R -> digits_ok A -> digits_ok B -> normalized A -> normalized B ->
  (length B <= length R)%nat -> val A < val B ->
  exists R', Modulo R A B p = Ok (R', p) /\ val R' = val B /\ val R' <> val A mod val B.
Proof.
  intros HR HA HB NA NB HlR Hlt.
  pose proof (val_nonneg A HA). assert (B <> []) as HneB by (intros ->; simpl in *; lia).
  cut (wpP (Modulo R A B) p (fun R' p' => p' = p /\ val R' = val B)).
  { intros (R' & p' & E & -> & V)%wpP_elim. exists R'. rewrite V, Z.mod_small by lia. split_and!; (done || lia). }
  unfold Modulo. rewrite !normalized_id by done.
  apply wpP_bind, wpP_lift, wp_dcheck_decide; [destruct B; [done | simpl; lia]|].
  wpP_lift_apply (Compare_spec A B); [done | done|]. intros cmp (Clt & _ & _).
  destruct (Z.ltb_spec cmp 0); [|lia]. apply wpP_bind, wpP_lift. rewrite <- (app_nil_l R).
  apply (wp_write_loop (fun k P _ => P = take k B)); [done | lia | constructor | done | |].
  { intros k P [] Hk HlP HP ->. apply wp_bind, wp_rd; [lia | done|]. intros b Hb Hdb. apply wp_ret.
    split; [done|]. by rewrite (take_S_r _ _ _ Hb). }
  intros P [] HlP HP ->. rewrite Nat.add_0_l in *. apply wpP_lift, wp_zero_from; [done|].
  rewrite val_app_zeros, take_ge by lia. done.
Qed.
End division_correct.

(** ** Evaluation at concrete inputs *)

Lemma DivideSchoolbook_correct_witness :
  exists Q' R' p', @DivideSchoolbook x64 quiet garbage [0; 0; 0] [0; 0] [1; 2; 3; 4] [5; 6]
      ProcessorImpl_new = Ok ((Q', R'), p') /\
    @status_le quiet ProcessorImpl_new p' /\ length Q' = 3%nat /\ length R' = 2%nat /\
    @digits_ok x64 Q' /\ @digits_ok x64 R' /\
    @val x64 Q' = @val x64 [1; 2; 3; 4] / @val x64 [5; 6] /\
    @val x64 R' = @val x64 [1; 2; 3; 4] mod @val x64 [5; 6].
Proof.
  apply (@DivideSchoolbook_correct x64 quiet garbage [0; 0; 0] [0; 0]);
    [solve_digits | solve_digits | solve_digits | discriminate | solve_lengths ..].
Defined.

Lemma DivideBurnikelZiegler_equiv_witness :
  exists Q' R' p1 p2,
    @DivideBurnikelZiegler x64 quiet garbage x64_fft (replicate 41 0) (replicate 60 0)
      (replicate 100 7) (replicate 60 3) ProcessorImpl_new = Ok ((Q', R'), p1) /\
    @DivideSchoolbook x64 quiet garbage (replicate 41 0) (replicate 60 0)
      (replicate 100 7) (replicate 60 3) ProcessorImpl_new = Ok ((Q', R'), p2) /\
    @val x64 Q' = @val x64 (replicate 100 7) / @val x64 (replicate 60 3) /\
    @val x64 R' = @val x64 (replicate 100 7) mod @val x64 (replicate 60 3).
Proof.
  apply (@DivideBurnikelZiegler_equiv x64 quiet garbage by_value);
    [by left | by split | solve_digits | solve_digits | solve_digits | solve_digits | discriminate
    | solve_lengths | solve_lengths | solve_lengths | solve_lengths | solve_lengths
    | intros _; solve_lengths].
Defined.

Lemma DivideBarrett_equiv_witness :
  exists Q' R' p1 p2,
    @DivideBarrett x64 quiet garbage x64_fft (replicate 9 0) (replicate 3 0)
      [1; 2; 3; 4; 5; 6; 7; 8; 9] [4; 5; 6] ProcessorImpl_new = Ok ((Q', R'), p1) /\
    @DivideSchoolbook x64 quiet garbage (replicate 9 0) (replicate 3 0)
      [1; 2; 3; 4; 5; 6; 7; 8; 9] [4; 5; 6] ProcessorImpl_new = Ok ((Q', R'), p2) /\
    @val x64 Q' = @val x64 [1; 2; 3; 4; 5; 6; 7; 8; 9] / @val x64 [4; 5; 6] /\
    @val x64 R' = @val x64 [1; 2; 3; 4; 5; 6; 7; 8; 9] mod @val x64 [4; 5; 6].
Proof.
  apply (@DivideBarrett_equiv x64 quiet garbage by_value);
    [by split | solve_digits | solve_digits | solve_digits | solve_digits | discriminate | discriminate
    | solve_lengths | solve_lengths | solve_lengths | solve_lengths | solve_lengths
    | intros _; solve_lengths].
Defined.

Lemma Processor_Divide_Modulo_euclid_witness :
  exists Q' R' p1 p2,
    @Processor_Divide x64 quiet garbage x64_fft (replicate 41 0) (replicate 100 7) (replicate 60 3)
      ProcessorImpl_new = Ok ((kOk, Q'), p1) /\
    @Processor_Modulo x64 quiet garbage x64_fft (replicate 60 0) (replicate 100 7) (replicate 60 3)
      p1 = Ok ((kOk, R'), p2) /\ @uninterrupted quiet p2 /\
    length Q' = 41%nat /\ length R' = 60%nat /\ @digits_ok x64 Q' /\ @digits_ok x64 R' /\
    @val x64 (replicate 100 7) = @val x64 Q' * @val x64 (replicate 60 3) + @val x64 R' /\
    0 <= @val x64 R' < @val x64 (replicate 60 3).
Proof.
  apply (@Processor_Divide_Modulo_euclid x64 quiet garbage by_value (replicate 41 0) (replicate 60 0));
    [by split | solve_digits | solve_digits | solve_digits | solve_digits | discriminate | discriminate
    | discriminate | vm_compute; discriminate | reflexivity | reflexivity | solve_lengths
    | intros _; solve_lengths].
Defined.

Lemma Modulo_smaller_dividend_witness :
  exists R', @Modulo x64 quiet garbage x64_fft [0; 0] [3] [1; 2] ProcessorImpl_new =
      Ok (R', ProcessorImpl_new) /\ @val x64 R' = @val x64 [1; 2] /\
    @val x64 R' <> @val x64 [3] mod @val x64 [1; 2].
Proof.
  apply (@Modulo_smaller_dividend x64 quiet garbage by_value [0; 0] [3] [1; 2]);
    [solve_digits | solve_digits | solve_digits | discriminate | discriminate | solve_lengths | by vm_compute].
Defined.
