(* ===== verification/StringCorrect.v ===== *)
(** Correctness statements for the conversions from and to strings. *)

From Stdlib Require Import ZArith Lia.
From stdpp Require Import base tactics numbers list option.
From S2P Require Import Prelude Digit Digits VectorArithmetic Processor MulSchoolbook MulKaratsuba DivHelpers MulToom MulFft Multiply FftMultiply DivSchoolbook DivBurnikel DivBarrett FromString FromStringSpec FromStringPowerTwo FromStringLarge Parsing ToString ToStringSpec ToStringPowerTwo ToStringFast Printing Instances MultiplicationCorrect.

#[local] Open Scope Z_scope.

Section string_correct.
Context `{Config, Platform}.
Context {alloc : Allocator} {pointers : PointerEquality}.
#[local] Existing Instance nested_fft.
#[local] Opaque nested_fft.

(** Lengths of results for which the multiplication is verified. *)
Definition parse_supported (n : nat) : Prop :=
  Z.of_nat n < 2 ^ 28 /\ mul_supported n.

(** [FromString] delivers the value [v] that an accumulator holds. *)
Definition delivers_value (acc : FromStringAccumulator) (v : Z) (p : ProcessorImpl) : Prop :=
  forall Zd, length Zd = ResultLength acc -> digits_ok Zd -> parse_supported (length Zd) ->
    exists Z' p', Processor_FromString Zd acc p = Ok ((kOk, Z'), p') /\ uninterrupted p' /\
      length Z' = length Zd /\ digits_ok Z' /\ val Z' = v.

Lemma holds_delivers acc v p : uninterrupted p -> holds_value acc v -> delivers_value acc v p.
Proof.
  intros Hun Hv Zd Hl HZ [Hi Hfft].
  assert (kFromStringLargeThreshold <= Z.of_nat (length Zd) -> Multiplier (length Zd)) as Hmul
    by (intros _; by apply Multiplier_supported).
  destruct (wpP_elim _ _ _ (Processor_FromString_spec Zd acc v p Hv HZ Hl (or_intror Hun) Hmul)) as ([s Z'] & p' & E & Hp).
  destruct Hp as (Hs & HlZ & HZ' & _ & Hval & Hint). destruct Hun as [Hs0 Hno].
  assert (s = kOk) as ->.
  { destruct s; [done|]. destruct (proj1 Hint eq_refl) as [? | (n & _ & Hn)]; [congruence|]. by rewrite Hno in Hn. }
  exists Z', p'. split_and!; try done. by apply Hval.
Qed.

(** C7: parsing.  [Parse] reads the longest prefix of digits of the radix and stops behind it,
    or reports that there are too many parts; [Processor::FromString] then returns the value of
    exactly these digits, with whichever of the four representations and algorithms the length
    and the radix select.  The digits must fit on the stack if they are accumulated inline,
    which [Parse] does not check; the result has at most [2^17 * kDigitBits] digits in builds
    with the advanced algorithms; no interrupt is requested. *)
Theorem FromString_correct radix max_digits chars p :
  2 <= radix <= 36 -> chars <> [] -> inline_safe radix chars -> uninterrupted p ->
  exists rest acc, Parse (FromStringAccumulator_new max_digits) chars radix = Ok (rest, acc) /\
    let '(D, tail) := split_digits radix chars in
    result_ acc = kMaxSizeExceeded /\ (max_digits `max` kStackParts <= length D)%nat \/
    result_ acc = Result_kOk /\ rest = tail /\ delivers_value acc (numeral radix D) p.
Proof.
  intros Hr Hne Hsafe Hun. destruct (wp_elim _ _ (Parse_spec radix max_digits chars Hr Hne Hsafe)) as ([rest acc] & E & Hp).
  exists rest, acc. split; [done|]. unfold parse_result in Hp. destruct (split_digits radix chars) as [D tail].
  destruct Hp as [? | (? & ? & Hv)]; [by left | right]. split_and!; try done. by apply holds_delivers.
Qed.

(** C6: printing.  For a non-zero number and a buffer of the length [ToStringResultLength]
    promises, [Processor::ToString] never leaves the buffer and writes the sign and the digits
    of the number in the radix, without leading zeros, followed by zero bytes.  The number
    has at most [2^30] bits and, for a radix that is not a power of two in a build with the
    advanced algorithms, three digits less than [2^17 * kDigitBits]; no interrupt is
    requested. *)
Theorem ToString_correct radix out X sign n p :
  2 <= radix <= 36 -> uninterrupted p -> digits_ok X -> 0 < val X -> print_supported radix (length (Normalize X)) ->
  ToStringResultLength (Normalize X) radix sign = Ok n -> n <= Z.of_nat (length out) ->
  exists cs m p', Processor_ToString out X radix sign p = Ok ((kOk, (cs, m)), p') /\ uninterrupted p' /\
    prints radix sign (val X) out cs m.
Proof.
  intros Hr Hun HX Hpos Hs En Hn.
  assert (wp (ToStringResultLength (Normalize X) radix sign) (fun n => n <= Z.of_nat (length out))) as Hlen by (by rewrite En).
  destruct (wpP_elim _ _ _ (Processor_ToString_spec radix Hr out X sign p Hun HX Hpos (proj1 Hs) Hlen (supported_fast _ _ Hs)))
    as ([s [cs m]] & p' & E & -> & Hun' & Hpr). by exists cs, m, p'.
Qed.

(** Parsing the text of a number yields the number. *)
Theorem ToString_FromString_roundtrip radix out X n max_digits p :
  2 <= radix <= 36 -> (HAVE_TWODIGIT_T = true -> inline_fits radix) -> uninterrupted p -> digits_ok X -> 0 < val X ->
  print_supported radix (length (Normalize X)) ->
  ToStringResultLength (Normalize X) radix false = Ok n -> n <= Z.of_nat (length out) -> (length out < max_digits)%nat ->
  exists cs m p' acc, Processor_ToString out X radix false p = Ok ((kOk, (cs, m)), p') /\
    Parse (FromStringAccumulator_new max_digits) (take m cs) radix = Ok ([], acc) /\ result_ acc = Result_kOk /\
    delivers_value acc (val X) p'.
Proof.
  intros Hr Hfits Hun HX Hpos Hs En Hn Hmax.
  assert (wp (ToStringResultLength (Normalize X) radix false) (fun n => n <= Z.of_nat (length out))) as Hlen by (by rewrite En).
  destruct (wpP_elim _ _ _ (Processor_ToString_spec radix Hr out X false p Hun HX Hpos (proj1 Hs) Hlen (supported_fast _ _ Hs)))
    as ([s [cs m]] & p' & E & -> & Hun' & (D & HD & Hz & Ev & -> & Hm & ->)).
  assert (D <> []) as Hne by (intros ->; unfold numeral in Ev; cbn in Ev; lia).
  change (text false D) with (map digit_char D) in *. rewrite length_map in Hm.
  destruct (wp_elim _ _ (Parse_spec radix max_digits (map digit_char D) Hr ltac:(by destruct D) (inline_fits_safe radix _ Hfits)))
    as ([rest acc] & Ep & Hp).
  unfold parse_result in Hp. rewrite (split_printed radix D Hr HD) in Hp. destruct Hp as [[_ Hbig] | (Hres & -> & Hv)]; [lia|].
  eexists _, _, p', acc. split_and!; [exact E | by rewrite take_app_length | done|].
  apply holds_delivers; [done|]. by rewrite <- Ev.
Qed.

(** The number zero.  [ToString] needs the most significant digit to compute the length of
    the result, so it fails for zero; were this check left out, the ['0'] that [Classic] writes
    for zero would be removed again by [Finish], which returns an empty text. *)
Theorem ToString_zero_not_printed radix out X f p :
  digits_ok X -> val X = 0 ->
  ToString out X radix (sign_ f) p = Err DCheckFailed /\
  (digits_ f = [] -> sign_ f = false -> (0 < length out)%nat ->
   out_ f = mkCursor (replicate (length out) kStringZapValue) (length out) ->
   exists f', Classic f p = Ok (f', p) /\ exists cs, Finish f' = Ok (length out, cs)).
Proof.
  intros HX HV. split.
  - unfold ToString, ToStringImpl, ToStringFormatter_new.
    assert (Normalize X = []) as -> by (apply val_zero_normalized; [by apply digits_ok_Normalize | apply normalized_Normalize | by rewrite val_Normalize]).
    reflexivity.
  - intros Ed Es Hl Eo. destruct (length out) as [|m] eqn:El; [lia|]. unfold Classic. rewrite Ed, Eo.
    rewrite bool_decide_true by done.
    pose proof (push_chars m [] char_0) as Hpush. rewrite app_nil_r in Hpush.
    set (o := mkCursor (replicate m kStringZapValue ++ [char_0]) m) in *.
    exists (set_out f o). split.
    { unfold mbind, PM_bind, lift. by rewrite Hpush. }
    unfold Finish. cbn [set_out out_ sign_ chars pos o]. rewrite Es, length_app, length_replicate. cbn [length].
    rewrite bool_decide_true by lia. cbn [dcheck mbind res_bind].
    rewrite Nat.add_1_r. cbn [skip_zeros chars pos]. unfold o. cbn [chars pos]. rewrite length_app, length_replicate, Nat.add_1_r.
    rewrite bool_decide_true by lia.
    assert (rd (replicate m kStringZapValue ++ [char_0]) m = Ok char_0) as ->.
    { unfold rd. rewrite lookup_app_r, length_replicate, Nat.sub_diag by (rewrite length_replicate; lia). done. }
    cbn [mbind res_bind]. rewrite Z.eqb_refl, bool_decide_false by lia. by eexists.
Qed.

(** The empty string.  [Parse] reads the first character before it compares the position
    with the end, so it must not be called with an empty range. *)
Theorem Parse_empty_reads_end radix max_digits :
  2 <= radix <= 36 -> Parse (FromStringAccumulator_new max_digits) [] radix = Err OutOfBounds.
Proof.
  intros Hr. unfold Parse. 
  assert ((2 <=? radix) && (radix <=? 36) = true) as -> by (apply andb_true_iff; split; apply Z.leb_le; lia). cbn [dcheck mbind res_bind].
  destruct (_ && _) eqn:E; [|reflexivity].
  apply andb_true_iff in E as [_ E%Z.eqb_eq]. destruct (power_of_two_radix radix Hr E) as (cb & _ & _ & Ecb).
  unfold ParsePowerTwo, rd. by rewrite Ecb.
Qed.

(** C39: the stack of the inlined accumulation overflows whenever it can.  [kInlineThreshold]
    counts bits, but a part only holds whole characters: if [c + 1] characters of the radix
    do not fit into a digit, every string of at most [kInlineThreshold] characters with more
    than [kStackParts * c] leading digits makes [Parse] write behind the end of
    [stack_parts_], whatever the characters are. *)
Theorem Parse_inline_overflow radix (c : nat) max_digits chars :
  2 <= radix <= 36 -> HAVE_TWODIGIT_T = true -> Z.of_nat (length chars) <= kInlineThreshold ->
  digit_base <= radix ^ Z.of_nat (S c) -> (kStackParts * c < length (fst (split_digits radix chars)))%nat ->
  Parse (FromStringAccumulator_new max_digits) chars radix = Err OutOfBounds.
Proof.
  intros Hr Htd Hl Hc Hn. unfold Parse. rewrite !(proj2 (Z.leb_le _ _)), Htd by lia. cbn [andb dcheck mbind res_bind negb].
  pose proof (fresh_ok max_digits) as Hf.
  apply (parse_parts_inline_overflow radix c _ _ _ 0); try (done || lia).
  - intros ->. cbn in Hn. lia.
  - destruct Hf. by split.
  - cbn. unfold kStackParts. lia.
Qed.
End string_correct.

(** ** Witnesses *)

(** The text ["123z"], a decimal number followed by another character. *)
Definition sample_chars : list Z := [49; 50; 51; 122].

Lemma ready : uninterrupted (H := quiet) ProcessorImpl_new.
Proof. done. Qed.

Lemma FromString_correct_witness :
  exists rest acc, Parse (H := x64) (FromStringAccumulator_new (alloc := garbage) 100) sample_chars 10 = Ok (rest, acc) /\
    let '(D, tail) := split_digits 10 sample_chars in
    result_ acc = kMaxSizeExceeded /\ (100 `max` kStackParts <= length D)%nat \/
    result_ acc = Result_kOk /\ rest = tail /\
    @delivers_value x64 quiet garbage by_value acc (numeral 10 D) ProcessorImpl_new.
Proof.
  apply (@FromString_correct x64 quiet garbage by_value 10 100 sample_chars ProcessorImpl_new);
    [lia | discriminate | intros _ _; exists 12%nat; split; vm_compute; [reflexivity | lia] | exact ready].
Defined.

(** A number of 100 digits, above the threshold of the divide and conquer algorithm. *)
Lemma ToString_correct_witness :
  exists cs m p', @Processor_ToString x64 quiet garbage x64_fft (replicate 1920 0) (replicate 100 7) 10 true ProcessorImpl_new
      = Ok ((kOk, (cs, m)), p') /\ uninterrupted (H := quiet) p' /\ prints 10 true (@val x64 (replicate 100 7)) (replicate 1920 0) cs m.
Proof.
  apply (@ToString_correct x64 quiet garbage by_value 10 (replicate 1920 0) (replicate 100 7) true 1915 ProcessorImpl_new).
  - lia.
  - exact ready.
  - apply Forall_replicate. split; [by vm_compute | by vm_compute].
  - vm_compute. reflexivity.
  - split; [vm_compute; discriminate | intros _ _; vm_compute; discriminate].
  - vm_compute. reflexivity.
  - vm_compute. discriminate.
Defined.

(** With 64-bit digits a part holds 12 characters of radix 31; 97 of them are accumulated inline. *)
Lemma Parse_inline_overflow_witness :
  Parse (H := x64) (FromStringAccumulator_new (alloc := garbage) 100) (replicate 50 97 ++ replicate 47 49) 31 = Err OutOfBounds.
Proof.
  apply (@Parse_inline_overflow x64 garbage 31 12 100 (replicate 50 97 ++ replicate 47 49));
    [lia | reflexivity | vm_compute; discriminate | vm_compute; discriminate | vm_compute; lia].
Defined.
