(* ===== verification/BigIntCorrect.v ===== *)
(** Correctness statements for BigInt objects: every operation of [src/objects/bigint.cc]
    refines the operation of the same name on the integers, with the errors ECMAScript
    prescribes, and the conversions to machine words and bytes are exact. *)

From Stdlib Require Import ZArith Lia.
From stdpp Require Import base tactics numbers list option.
From S2P Require Import Prelude Double BitField Digit Digits VectorArithmetic Processor MulSchoolbook MulKaratsuba MulToom MulFft Multiply FftMultiply DivHelpers DivSchoolbook DivBurnikel DivBarrett Division SignedArithmetic Bitwise BitwiseShift BigIntObject BigIntSpec BigIntArith BigIntPower BigIntBits BigIntWords BigIntRuntime Instances MultiplicationCorrect DivisionCorrect.

#[local] Open Scope Z_scope.

(** ** The abstract operations *)

(** The outcome of running [m] in the state [p]: it returns, leaves the processor ready
    for the next operation, and [computes] the integer [v]. *)
Definition delivers `{Config, Platform} (m : IM BigInt) (p : ProcessorImpl) (v : Z) (big : Prop) : Prop :=
  exists r p', m p = Ok (r, p') /\ computes v big r p'.

(** The same for the operations that never call the processor, and hence cannot be
    terminated: the canonical object for [v], or [kBigIntTooBig] if [big] holds. *)
Definition returns `{Config} (m : IM BigInt) (p : ProcessorImpl) (v : Z) (big : Prop) : Prop :=
  exists r p', m p = Ok (r, p') /\ status_ p' = kOk /\
    match r with
    | inr z => bigint_ok z /\ toZ z = v
    | inl e => e = kBigIntTooBig /\ big
    end.

(** Products for which the multiplication is verified: every product that can be allocated
    with 64-bit digits or without the advanced algorithms, and [2^23] digits otherwise. *)
Definition product_supported `{Config} (n : nat) : Prop :=
  V8_ADVANCED_BIGINT_ALGORITHMS = true -> kDigitBits = 32 -> Z.of_nat n <= 2 ^ 23.

Section bigint_correct.
Context `{Config, Platform, !Allocator, PointerEquality}.
#[local] Existing Instance nested_fft.
#[local] Opaque nested_fft.
Implicit Types x y z : BigInt.

Lemma delivers_wp m p v big : wpP m p (computes v big) -> delivers m p v big.
Proof. intros Hm. destruct (wpP_elim _ _ _ Hm) as (r & p' & E & Hr). by exists r, p'. Qed.

(** What an operation does on a platform without interrupts it does on any, if it does not
    depend on the platform. *)
Lemma returns_wp m p v big : wpP m p (computes (H0 := quiet) v big) -> returns m p v big.
Proof.
  intros Hm. destruct (wpP_elim _ _ _ Hm) as (r & p' & E & Hp & Hr). exists r, p'. split_and!; [done | done|].
  destruct r as [[] |]; try done. by destruct Hr as [n Hn].
Qed.

Lemma multiplier_for n : Z.of_nat n <= kMaxLength + 1 -> mul_supported n -> Multiplier n.
Proof. intros Hn. pose proof kMaxLength_bits. apply Multiplier_supported. lia. Qed.

(** C5: addition, subtraction, increment and decrement refine the integer operations: the
    result is the canonical object for the exact sum or difference; the only error is
    [kBigIntTooBig], and only for results of the maximal length. *)
Theorem BigInt_Add_Subtract_refine x y p :
  bigint_ok x -> bigint_ok y -> status_ p = kOk ->
  returns (BigInt_Add x y) p (toZ x + toZ y) (too_big (toZ x + toZ y)) /\
  returns (BigInt_Subtract x y) p (toZ x - toZ y) (too_big (toZ x - toZ y)) /\
  returns (BigInt_Increment x) p (toZ x + 1) (too_big (toZ x + 1)) /\
  returns (BigInt_Decrement x) p (toZ x - 1) (too_big (toZ x - 1)).
Proof.
  intros Hx Hy Hp. split_and!; apply returns_wp;
    [by apply BigInt_Add_spec | by apply BigInt_Subtract_spec | by apply BigInt_Increment_spec
    | by apply BigInt_Decrement_spec].
Qed.

(** C23: multiplication refines the product of the integers, whatever the lengths of the
    operands: the canonical object for the product, or [kBigIntTooBig] if it is too long.
    (With 32-bit digits and the advanced algorithms, up to [2^23] digits.) *)
Theorem BigInt_Multiply_refine x y p :
  bigint_ok x -> bigint_ok y -> steady p -> status_ p = kOk -> product_supported (bi_length x + bi_length y) ->
  delivers (BigInt_Multiply x y) p (toZ x * toZ y) (too_big (toZ x * toZ y)).
Proof.
  intros Hx Hy Hst Hp Hs. apply delivers_wp, BigInt_Multiply_with; try done. intros Hmax Zd HZ Hl.
  pose proof (length_Normalize (digits_of x)). pose proof (length_Normalize (digits_of y)). pose proof kMaxLength_bits. unfold bi_length in *.
  destruct V8_ADVANCED_BIGINT_ALGORITHMS eqn:Eadv.
  - apply Multiply_all_spec; try done; [|apply Hx | apply Hy | lia]. specialize (Hs Eadv).
    destruct kDigitBits_cases as [E | E]; [specialize (Hs E)|]; change kMaxLengthBits with (2 ^ 30) in *; rewrite E in *; lia.
  - assert (Multiplier (length (digits_of x) `max` length (digits_of y))) as Hm.
    { apply multiplier_for; [unfold bi_length; lia|]. intros Ha. congruence. }
    apply multiply_correct; try done; [apply Hx | apply Hy | lia | lia | lia].
Qed.

(** What a division of objects needs: products and inverses of the length of the divisor. *)
Lemma divisible_operands x y p :
  bigint_ok x -> bigint_ok y -> toZ y <> 0 -> uninterrupted p -> mul_supported (bi_length y + 3) ->
  Multiplier (bi_length y + 3) /\ Inverter (bi_length y) /\
  divisible (bi_length y + 3) (bi_length y) p (digits_of x) (digits_of y).
Proof.
  intros Hx Hy Hy0 Hun Hs. pose proof (ok_length y Hy). pose proof kMaxLength_bits. unfold bi_length in *.
  assert (Z.of_nat (length (digits_of y) + 3) < 2 ^ 28) as Hi by lia.
  destruct (division_interfaces (digits_of y) Hi Hs) as [Hm Hinv]. split_and!; [done | done|].
  apply divisible_supported; try done; [apply Hx | apply Hy | apply Hx | apply Hy |].
  intros E. apply Hy0. unfold toZ. rewrite E. by destruct (sign y).
Qed.

(** C4: division and remainder refine the truncating quotient and remainder of the
    integers: [x = (x / y) * y + x % y], the remainder has the sign of the dividend and is
    smaller than the divisor, whichever algorithm is selected; with a non-zero divisor and
    no interrupt request neither operation fails.  In builds with the advanced algorithms
    the divisor is at least three digits shorter than [2^17 * kDigitBits] digits. *)
Theorem BigInt_Divide_Remainder_refine x y p :
  bigint_ok x -> bigint_ok y -> toZ y <> 0 -> uninterrupted p -> mul_supported (bi_length y + 3) ->
  exists q r p1 p2, BigInt_Divide x y p = Ok (inr q, p1) /\ BigInt_Remainder x y p = Ok (inr r, p2) /\
    bigint_ok q /\ bigint_ok r /\ toZ q = Z.quot (toZ x) (toZ y) /\ toZ r = Z.rem (toZ x) (toZ y) /\
    toZ x = toZ y * toZ q + toZ r /\ Z.abs (toZ r) < Z.abs (toZ y) /\ 0 <= toZ x * toZ r.
Proof.
  intros Hx Hy Hy0 Hun Ly. destruct (divisible_operands x y p Hx Hy Hy0 Hun Ly) as (Hm & Hi & Hd).
  destruct Hun as [Hp Hno].
  destruct (delivers_wp _ _ _ _ (BigInt_Divide_spec _ _ x y p Hx Hy Hy0 Hp Hd)) as (q & p1 & Eq & _ & Cq).
  destruct (delivers_wp _ _ _ _ (BigInt_Remainder_spec _ _ x y p Hx Hy Hy0 Hp Hd)) as (r & p2 & Er & _ & Cr).
  destruct q as [[] | q]; try (by destruct Cq); [destruct Cq as [n Hn]; by rewrite Hno in Hn|].
  destruct r as [[] | r]; try (by destruct Cr); [destruct Cr as [n Hn]; by rewrite Hno in Hn|].
  destruct Cq as [Hq Vq], Cr as [Hr Vr]. exists q, r, p1, p2. rewrite Vq, Vr. split_and!; try done.
  - by apply Z.quot_rem.
  - by apply Z.rem_bound_abs.
  - rewrite Z.mul_comm. by apply Z.rem_sign_mul.
Qed.

(** C24: exponentiation by squaring refines the power of the integers, the special cases for
    exponent 0 and 1 and for the bases 0, 1, -1, 2 and -2 included; the loop ends. *)
Theorem BigInt_Exponentiate_refine x y p :
  bigint_ok x -> bigint_ok y -> 0 <= toZ y -> steady p -> status_ p = kOk ->
  (V8_ADVANCED_BIGINT_ALGORITHMS = true -> Z.log2 (Z.abs (toZ x ^ toZ y)) < 2 ^ 17 * (kDigitBits * kDigitBits)) ->
  delivers (BigInt_Exponentiate x y) p (toZ x ^ toZ y) (too_big (toZ x ^ toZ y)).
Proof.
  intros Hx Hy Hy0 Hst Hp Hv. apply delivers_wp. pose proof kMaxLength_bits. pose proof kDigitBits_cases as Hkb.
  set (L := if V8_ADVANCED_BIGINT_ALGORITHMS then Z.to_nat (2 ^ 17 * kDigitBits) else Z.to_nat kMaxLength).
  assert (Multiplier L) as Hm.
  { apply multiplier_for; unfold L, mul_supported; destruct V8_ADVANCED_BIGINT_ALGORITHMS; try done; lia. }
  apply (BigInt_Exponentiate_spec L); try done. intros z Hz Hle. pose proof (ok_length z Hz).
  unfold L in *. destruct V8_ADVANCED_BIGINT_ALGORITHMS; [|lia]. specialize (Hv eq_refl).
  destruct (le_lt_dec (bi_length z) (Z.to_nat (2 ^ 17 * kDigitBits))) as [|Hlt]; [done|]. pose proof (ok_lower z _ Hz Hlt) as Hlo.
  rewrite bpow_bits, Z2Nat.id in Hlo by lia. assert (kDigitBits * (2 ^ 17 * kDigitBits) <= Z.log2 (Z.abs (toZ x ^ toZ y))); [|lia].
  set (e := kDigitBits * (2 ^ 17 * kDigitBits)) in *. assert (0 <= e) as He by (unfold e; nia). pose proof (Z.pow_pos_nonneg 2 e ltac:(lia) He). apply Z.log2_le_pow2; lia.
Qed.

Lemma int64_range v : - 2 ^ 63 <= int64 v < 2 ^ 63 /\ int64 v mod 2 ^ 64 = v mod 2 ^ 64.
Proof.
  unfold int64, uint64. pose proof (Z.mod_pos_bound v (2 ^ 64) ltac:(lia)).
  destruct (Z.ltb_spec (v mod 2 ^ 64) (2 ^ 63)); (split; [lia|]).
  - apply Z.mod_mod. lia.
  - rewrite Zminus_mod, Z.mod_same, Z.sub_0_r, !Z.mod_mod by lia. done.
Qed.

Lemma int64_small v : - 2 ^ 63 <= v < 2 ^ 63 -> int64 v = v.
Proof.
  intros Hv. unfold int64, uint64. destruct (Z.leb_spec 0 v).
  - rewrite Z.mod_small by lia. destruct (Z.ltb_spec v (2 ^ 63)); lia.
  - assert (v mod 2 ^ 64 = v + 2 ^ 64) as -> by (symmetry; apply Z.mod_unique with (-1); lia).
    destruct (Z.ltb_spec (v + 2 ^ 64) (2 ^ 63)); lia.
Qed.

(** C25: the bitwise operators refine the infinite two's complement operators on the
    integers, whatever the signs; [|] never fails. *)
Theorem BigInt_Bitwise_refine x y p :
  bigint_ok x -> bigint_ok y -> status_ p = kOk ->
  returns (BigInt_BitwiseAnd x y) p (Z.land (toZ x) (toZ y)) (too_big (Z.land (toZ x) (toZ y))) /\
  returns (BigInt_BitwiseOr x y) p (Z.lor (toZ x) (toZ y)) False /\
  returns (BigInt_BitwiseXor x y) p (Z.lxor (toZ x) (toZ y)) (too_big (toZ x) \/ too_big (toZ y)) /\
  returns (BigInt_BitwiseNot x) p (Z.lnot (toZ x)) (too_big (Z.lnot (toZ x))).
Proof.
  intros Hx Hy Hp. split_and!; apply returns_wp;
    [by apply BigInt_BitwiseAnd_spec | by apply BigInt_BitwiseOr_spec | by apply BigInt_BitwiseXor_spec
    | by apply BigInt_BitwiseNot_spec].
Qed.

(** C26: the shifts refine the arithmetic shifts of the integers, a negative shift amount
    shifting the other way and right shifts rounding towards minus infinity, also for
    shift amounts beyond the maximal length. *)
Theorem BigInt_Shift_refine x y p :
  bigint_ok x -> bigint_ok y -> status_ p = kOk ->
  returns (BigInt_LeftShift x y) p (Z.shiftl (toZ x) (toZ y)) (too_big (Z.shiftl (toZ x) (toZ y))) /\
  returns (BigInt_SignedRightShift x y) p (Z.shiftr (toZ x) (toZ y)) (too_big (Z.shiftr (toZ x) (toZ y))).
Proof.
  intros Hx Hy Hp. split; apply returns_wp;
    [by apply BigInt_LeftShift_spec | by apply BigInt_SignedRightShift_spec].
Qed.

(** C27: [asIntN] and [asUintN] return the representative of [x] modulo [2^n] in the signed
    and in the unsigned range, for every [n]; [asUintN] fails only for a negative [x] whose
    result would have more than [kMaxLengthBits] bits. *)
Theorem BigInt_AsIntN_AsUintN_refine n x p :
  bigint_ok x -> 0 < n -> status_ p = kOk ->
  (exists z, BigInt_AsIntN n x = Ok z /\ bigint_ok z /\ - 2 ^ (n - 1) <= toZ z < 2 ^ (n - 1) /\
     toZ z mod 2 ^ n = toZ x mod 2 ^ n) /\
  returns (BigInt_AsUintN n x) p (toZ x mod 2 ^ n) (kMaxLengthBits < n /\ toZ x < 0).
Proof.
  intros Hx Hn Hp. split; [|apply returns_wp; apply BigInt_AsUintN_spec; (done || lia)].
  destruct (wp_elim _ _ (BigInt_AsIntN_spec n x Hx ltac:(lia))) as (z & E & Hz & Vz).
  exists z. split_and!; try done; rewrite Vz; unfold int_n, as_int_n; destruct (Z.eqb_spec n 0); try lia;
    destruct (pow2_half n Hn) as [E2 Hpos]; pose proof (Z.mod_pos_bound (toZ x) (2 ^ n) ltac:(lia));
    destruct (Z.leb_spec (2 ^ (n - 1)) (toZ x mod 2 ^ n)); try lia.
  - rewrite <- (Z.mul_1_l (2 ^ n)) at 2. replace (_ - 1 * 2 ^ n) with (toZ x mod 2 ^ n + (-1) * 2 ^ n) by lia.
    by rewrite Z.mod_add, Z.mod_mod by lia.
  - by rewrite Z.mod_mod by lia.
Qed.

(** Comparison and equality of objects are comparison and equality of the integers they
    represent, and equality of objects as data. *)
Theorem BigInt_Compare_refine x y :
  bigint_ok x -> bigint_ok y ->
  CompareToBigInt x y = Ok (comparison_of (toZ x ?= toZ y)) /\
  EqualToBigInt x y = Ok (toZ x =? toZ y) /\ (toZ x = toZ y <-> x = y).
Proof.
  intros Hx Hy. split_and!; [by apply CompareToBigInt_spec | by apply EqualToBigInt_spec|].
  split; [by apply toZ_inj | congruence].
Qed.

(** C29: the errors ECMAScript prescribes: division and remainder by zero, a negative
    exponent and every unsigned right shift throw, and leave the processor as it was. *)
Theorem BigInt_errors x y p :
  bigint_ok y ->
  (toZ y = 0 -> BigInt_Divide x y p = Ok (inl kBigIntDivZero, p) /\
                BigInt_Remainder x y p = Ok (inl kBigIntDivZero, p)) /\
  (toZ y < 0 -> BigInt_Exponentiate x y p = Ok (inl kMustBePositive, p)) /\
  BigInt_UnsignedRightShift x y p = Ok (inl kBigIntShr, p).
Proof.
  intros Hy. split_and!; [intros E | intros Hneg | done].
  - assert (is_zero y = true) as Ez by (rewrite ok_zero by done; by apply bool_decide_true).
    unfold BigInt_Divide, BigInt_Remainder. by rewrite Ez.
  - destruct (sign_cases y Hy) as [(_ & _ & ?) | (Es & _)]; [lia|]. unfold BigInt_Exponentiate. by rewrite Es.
Qed.

(** C30: [Canonicalize] turns any freshly computed sign and digits into the canonical object
    for their value: no leading zero digits and no negative zero; canonical objects are
    left alone. *)
Theorem Canonicalize_canonical x :
  digits_ok (digits_of x) -> Z.of_nat (bi_length x) <= kMaxLength ->
  (digits_of x = [] -> sign x = false) ->
  exists z, Canonicalize x = Ok z /\ bigint_ok z /\ toZ z = toZ x /\ Canonicalize z = Ok z.
Proof.
  intros Hd Hl Hs. destruct x as [s d].
  destruct (wp_elim _ _ (Canonicalize_spec s d Hd Hl Hs)) as (z & E & Hz & Vz).
  exists z. split_and!; [done | done | done | by apply Canonicalize_id].
Qed.

(** Conversion of 64-bit integers, signed and unsigned, to objects and back is exact,
    and for any object the conversion to 64 bits returns the value modulo [2^64] and says
    whether that lost information. *)
Theorem Int64_roundtrip n x :
  bigint_ok x ->
  (- 2 ^ 63 <= n < 2 ^ 63 -> exists z, FromInt64 n = Ok z /\ bigint_ok z /\ AsInt64 z = Ok (n, true)) /\
  (0 <= n < 2 ^ 64 -> exists z, FromUint64 n = Ok z /\ bigint_ok z /\ AsUint64 z = Ok (n, true)) /\
  (exists r lossless, AsInt64 x = Ok (r, lossless) /\ - 2 ^ 63 <= r < 2 ^ 63 /\
     r mod 2 ^ 64 = toZ x mod 2 ^ 64 /\ (lossless = true <-> toZ x = r)).
Proof.
  intros Hx. split_and!.
  - intros Hn. destruct (wp_elim _ _ (wp_FromInt64 n (fun z => bigint_ok z /\ toZ z = n) Hn (fun z Hz Vz => conj Hz Vz)))
      as (z & E & Hz & Vz). exists z. split_and!; [done | done|].
    destruct (wp_elim _ _ (AsInt64_spec z Hz)) as ([r l] & E' & -> & ->). rewrite E', Vz, int64_small by lia.
    by rewrite (proj2 (Z.leb_le _ _)), (proj2 (Z.ltb_lt _ _)) by lia.
  - intros Hn. destruct (wp_elim _ _ (wp_FromUint64 n (fun z => bigint_ok z /\ toZ z = n) Hn (fun z Hz Vz => conj Hz Vz)))
      as (z & E & Hz & Vz). exists z. split_and!; [done | done|].
    destruct (wp_elim _ _ (AsUint64_spec z Hz)) as ([r l] & E' & -> & ->). rewrite E', Vz, Z.mod_small by lia.
    by rewrite (proj2 (Z.leb_le _ _)), (proj2 (Z.ltb_lt _ _)) by lia.
  - destruct (wp_elim _ _ (AsInt64_spec x Hx)) as ([r l] & E & -> & ->). exists (int64 (toZ x)), ((- 2 ^ 63 <=? toZ x) && (toZ x <? 2 ^ 63)).
    pose proof (int64_range (toZ x)) as [Hr Hm]. split_and!; [done | lia | lia | done|].
    rewrite andb_true_iff, Z.leb_le, Z.ltb_lt. split; [|lia]. intros Hs. symmetry. by apply int64_small.
Qed.

(** Zero has no words, and nothing is written for it. *)
Lemma ToWordsArray64_exact x words :
  bigint_ok x -> Z.of_nat (length words) = Words64Count x ->
  wp (ToWordsArray64 x (length words) words) (fun '(s, count, ws) => s = sign x /\ count = Words64Count x /\
    length ws = length words /\ Forall is_word (take (Z.to_nat count) ws) /\ val64 (take (Z.to_nat count) ws) = Z.abs (toZ x)).
Proof.
  intros Hx Hl. destruct words as [|w words]; [|apply ToWordsArray64_spec; [done | done | cbn; lia | lia]].
  unfold ToWordsArray64. cbn [length] in *. rewrite bool_decide_true by done. apply wp_ret. rewrite <- Hl. cbn.
  split_and!; [done | done | done | constructor|]. pose proof (Words64Count_spec x) as Ec.
  assert (bi_length x = 0)%nat as E0.
  { pose proof (Nat.div2_odd (bi_length x + 1)) as Ho. destruct (Nat.odd (bi_length x + 1)); cbn [Nat.b2n] in Ho;
      destruct kDigitBits_cases as [Ek | Ek]; rewrite Ek in Ec; cbn [Z.eqb Pos.eqb] in Ec; lia. }
  unfold toZ. apply nil_length_inv in E0. rewrite E0. by destruct (sign x).
Qed.

(** C33: an object survives the conversion to an array of 64-bit words and back: the array of
    [Words64Count] words holds the magnitude, and [FromWords64] rebuilds the same object.
    With 32-bit digits this excludes magnitudes whose top word is exactly [2^32]. *)
Theorem Words64_roundtrip x words p :
  bigint_ok x -> status_ p = kOk -> Z.of_nat (length words) = Words64Count x ->
  kDigitBits = 64 \/ Z.abs (toZ x) / 2 ^ (64 * (Words64Count x - 1)) <> 2 ^ 32 ->
  exists ws p', ToWordsArray64 x (length words) words = Ok (sign x, Words64Count x, ws) /\
    val64 ws = Z.abs (toZ x) /\ FromWords64 (sign x) (Words64Count x) ws p = Ok (inr x, p').
Proof.
  intros Hx Hp Hl Htop. destruct (wp_elim _ _ (ToWordsArray64_exact x words Hx Hl))
    as ([[s c] ws] & E & -> & -> & Hlw & Hws & Vws).
  rewrite take_ge in Hws, Vws by lia. pose proof (Words64Count_max x Hx) as Hmax. rewrite <- Hl, <- Hlw in Hmax.
  assert (kept_value ws = val64 ws) as Ekept.
  { unfold kept_value. destruct Htop as [-> | Hne32]; [done|]. rewrite bool_decide_false, andb_false_r; [done|].
    intros Htop. apply Hne32. rewrite <- Vws, <- Hl, <- Hlw. by apply val64_top. }
  destruct (returns_wp _ _ _ _ (FromWords64_spec (H0 := quiet) (sign x) ws p Hws Hmax Hp))
    as (r & p' & Er & _ & Hr).
  destruct r as [e | z]; [by destruct Hr|]. destruct Hr as [Hz Vz]. exists ws, p'. split_and!; try done.
  rewrite <- Hl, <- Hlw, Er. repeat f_equal. apply toZ_inj; [done | done|]. rewrite Vz, Ekept, Vws, (toZ_abs x Hx). done.
Qed.

(** C34: an object survives serialization: the bitfield and the digit bytes that
    [SerializeDigits] writes, whose number [DigitsByteLengthForBitfield] reads back from
    the bitfield, give the same object again; a header for a negative zero is rejected. *)
Theorem Serialize_roundtrip x :
  bigint_ok x ->
  (exists bitfield, GetBitfieldForSerialization x = Ok bitfield /\ 0 <= bitfield < 2 ^ 32 /\
     DigitsByteLengthForBitfield bitfield = Z.of_nat (length (SerializeDigits x)) /\
     FromSerializedDigits bitfield (SerializeDigits x) = Ok (Some x)) /\
  (forall bitfield, encode SignBits 1 = Ok bitfield -> FromSerializedDigits bitfield [] = Ok None).
Proof.
  intros Hx. split; [by apply serialize_roundtrip|]. intros bitfield Hb.
  rewrite (encode_spec SignBits SignBits_ok) in Hb by (cbn; lia). injection Hb as <-.
  unfold FromSerializedDigits, kDigitSize. by destruct kDigitBits_cases as [-> | ->].
Qed.

(** With 32-bit digits [FromWords64] loses the top digit of every array whose last word
    is exactly [2^32]: the test that decides whether that word needs two digits is [<=]
    where [<] is needed.  In particular the one-word array for [2^32] becomes zero. *)
Theorem FromWords64_drops_top_digit s words p :
  kDigitBits = 32 -> Forall is_word words -> Z.of_nat (length words) <= kMaxLength / 2 ->
  list.last words = Some (2 ^ 32) -> status_ p = kOk ->
  returns (FromWords64 s (Z.of_nat (length words)) words) p
    (signed_val s (val64 words - 2 ^ (64 * Z.of_nat (length words) - 32))) False.
Proof.
  intros Ek Hw Hl Hlast Hp. apply returns_wp.
  assert (val64 words - 2 ^ (64 * Z.of_nat (length words) - 32) = kept_value words) as ->.
  { unfold kept_value. rewrite Ek, bool_decide_true by done. done. }
  apply FromWords64_spec; try done. rewrite Ek. done.
Qed.

Lemma code_zero (m : PM (Z * BigInt)) p s v :
  (forall n, InterruptRequested n = false) ->
  wpP m p (fun '(code, z) p' => status_ p' = kOk /\
    (code = 0 /\ stores s v z \/ code = 1 /\ exists n, InterruptRequested n = true)) ->
  exists z p', m p = Ok ((0, z), p') /\ stores s v z.
Proof.
  intros Hno ([c z] & p' & E & _ & [[-> Hz] | (_ & n & Hn)])%wpP_elim; [by exists z, p' | by rewrite Hno in Hn].
Qed.

(** C31: the entry points generated code uses for magnitudes: in result objects of the
    advertised lengths, whatever their contents and signs, they leave the canonical objects
    for the sum, difference, product, quotient and remainder of the magnitudes with those
    signs, and report success.  The divisor is non-zero and not greater than the dividend,
    in builds with the advanced algorithms the dividend has at most [2^17 * kDigitBits] digits
    and the divisor three fewer, and no interrupt is requested. *)
Theorem runtime_Absolute_refine radd rsub rmul rdiv rmod x y p :
  bigint_ok x -> bigint_ok y -> toZ y <> 0 -> Z.abs (toZ y) <= Z.abs (toZ x) -> uninterrupted p ->
  mul_supported (bi_length x) -> mul_supported (bi_length y + 3) ->
  result_object radd (AddResultLength (bi_length x) (bi_length y)) ->
  result_object rsub (SubtractResultLength (bi_length x) (bi_length y)) ->
  result_object rmul (MultiplyResultLength (digits_of x) (digits_of y)) ->
  result_object rdiv (Z.to_nat (DivideResultLength (digits_of x) (digits_of y))) ->
  result_object rmod (ModuloResultLength (digits_of y)) ->
  let a := Z.abs (toZ x) in let b := Z.abs (toZ y) in
  (exists z, MutableBigInt_AbsoluteAddAndCanonicalize radd x y = Ok z /\ stores (sign radd) (a + b) z) /\
  (exists z, MutableBigInt_AbsoluteSubAndCanonicalize rsub x y = Ok z /\ stores (sign rsub) (a - b) z) /\
  (exists z p', MutableBigInt_AbsoluteMulAndCanonicalize rmul x y p = Ok ((0, z), p') /\ stores (sign rmul) (a * b) z) /\
  (exists z p', MutableBigInt_AbsoluteDivAndCanonicalize rdiv x y p = Ok ((0, z), p') /\ stores (sign rdiv) (a / b) z) /\
  (exists z p', MutableBigInt_AbsoluteModAndCanonicalize rmod x y p = Ok ((0, z), p') /\ stores (sign rmod) (a mod b) z).
Proof.
  intros Hx Hy Hy0 Hle Hun Lx Ly Ha Hs Hmu Hdi Hmo a b. pose proof Hun as [Hp Hno].
  destruct (divisible_operands x y p Hx Hy Hy0 Hun Ly) as (Hm & Hi & Hd). split_and!.
  - by apply wp_elim, AbsoluteAdd_spec.
  - by apply wp_elim, AbsoluteSub_spec.
  - pose proof (ok_length x Hx). pose proof (ok_length y Hy).
    assert (Multiplier (bi_length x `max` bi_length y)) as Hmx.
    { apply multiplier_for; [lia|]. intros Hadv. specialize (Lx Hadv). specialize (Ly Hadv). lia. }
    apply code_zero with (v := a * b); [done|]. by apply (AbsoluteMul_spec (bi_length x `max` bi_length y)); [.. | by right | done | lia | lia | ].
  - apply code_zero with (v := a / b); [done|]. by apply (AbsoluteDiv_spec (bi_length y + 3) (bi_length y)).
  - apply code_zero with (v := a mod b); [done|]. by apply (AbsoluteMod_spec (bi_length y + 3) (bi_length y)).
Qed.
End bigint_correct.

(** ** Evaluation at concrete inputs *)

Ltac solve_bigint := split; [solve_digits | discriminate | solve_lengths | discriminate].

(** [-(1 + 2 * 2^64 + 3 * 2^128)] and [5 + 6 * 2^64]. *)
Definition sample_x : BigInt := mkBigInt true [1; 2; 3].
Definition sample_y : BigInt := mkBigInt false [5; 6].

Lemma sample_x_ok : @bigint_ok x64 sample_x.
Proof. solve_bigint. Qed.

Lemma sample_y_ok : @bigint_ok x64 sample_y.
Proof. solve_bigint. Qed.

Lemma BigInt_Add_Subtract_refine_witness :
  let x := @toZ x64 sample_x in let y := @toZ x64 sample_y in
  @returns x64 (@BigInt_Add x64 garbage sample_x sample_y) ProcessorImpl_new (x + y) (@too_big x64 (x + y)) /\
  @returns x64 (@BigInt_Subtract x64 garbage sample_x sample_y) ProcessorImpl_new (x - y) (@too_big x64 (x - y)) /\
  @returns x64 (@BigInt_Increment x64 garbage sample_x) ProcessorImpl_new (x + 1) (@too_big x64 (x + 1)) /\
  @returns x64 (@BigInt_Decrement x64 garbage sample_x) ProcessorImpl_new (x - 1) (@too_big x64 (x - 1)).
Proof. apply (@BigInt_Add_Subtract_refine x64 garbage); [exact sample_x_ok | exact sample_y_ok | reflexivity]. Defined.

Lemma BigInt_Multiply_refine_witness :
  let v := @toZ x64 sample_x * @toZ x64 sample_y in
  @delivers x64 quiet (@BigInt_Multiply x64 quiet garbage x64_fft sample_x sample_y) ProcessorImpl_new v (@too_big x64 v).
Proof.
  apply (@BigInt_Multiply_refine x64 quiet garbage by_value);
    [exact sample_x_ok | exact sample_y_ok | by left | reflexivity | intros _ [=]].
Defined.

Lemma BigInt_Divide_Remainder_refine_witness :
  exists q r p1 p2,
    @BigInt_Divide x64 quiet garbage x64_fft sample_x sample_y ProcessorImpl_new = Ok (inr q, p1) /\
    @BigInt_Remainder x64 quiet garbage x64_fft sample_x sample_y ProcessorImpl_new = Ok (inr r, p2) /\
    @bigint_ok x64 q /\ @bigint_ok x64 r /\ @toZ x64 q = Z.quot (@toZ x64 sample_x) (@toZ x64 sample_y) /\
    @toZ x64 r = Z.rem (@toZ x64 sample_x) (@toZ x64 sample_y) /\
    @toZ x64 sample_x = @toZ x64 sample_y * @toZ x64 q + @toZ x64 r /\
    Z.abs (@toZ x64 r) < Z.abs (@toZ x64 sample_y) /\ 0 <= @toZ x64 sample_x * @toZ x64 r.
Proof.
  apply (@BigInt_Divide_Remainder_refine x64 quiet garbage by_value);
    [exact sample_x_ok | exact sample_y_ok | vm_compute; discriminate | by split
    | intros _; solve_lengths].
Defined.

Lemma BigInt_Exponentiate_refine_witness :
  let y := mkBigInt false [9] in let v := @toZ x64 sample_x ^ @toZ x64 y in
  @delivers x64 quiet (@BigInt_Exponentiate x64 quiet garbage x64_fft sample_x y) ProcessorImpl_new v (@too_big x64 v).
Proof.
  apply (@BigInt_Exponentiate_refine x64 quiet garbage by_value);
    [exact sample_x_ok | solve_bigint | vm_compute; discriminate | by left | reflexivity
    | intros _; vm_compute; reflexivity].
Defined.

Lemma BigInt_Bitwise_refine_witness :
  let x := @toZ x64 sample_x in let y := @toZ x64 sample_y in
  @returns x64 (@BigInt_BitwiseAnd x64 garbage sample_x sample_y) ProcessorImpl_new (Z.land x y) (@too_big x64 (Z.land x y)) /\
  @returns x64 (@BigInt_BitwiseOr x64 garbage sample_x sample_y) ProcessorImpl_new (Z.lor x y) False /\
  @returns x64 (@BigInt_BitwiseXor x64 garbage sample_x sample_y) ProcessorImpl_new (Z.lxor x y)
    (@too_big x64 x \/ @too_big x64 y) /\
  @returns x64 (@BigInt_BitwiseNot x64 garbage sample_x) ProcessorImpl_new (Z.lnot x) (@too_big x64 (Z.lnot x)).
Proof. apply (@BigInt_Bitwise_refine x64 garbage); [exact sample_x_ok | exact sample_y_ok | reflexivity]. Defined.

Lemma BigInt_Shift_refine_witness :
  let y := mkBigInt true [70] in let x := @toZ x64 sample_x in
  @returns x64 (@BigInt_LeftShift x64 garbage sample_x y) ProcessorImpl_new (Z.shiftl x (@toZ x64 y))
    (@too_big x64 (Z.shiftl x (@toZ x64 y))) /\
  @returns x64 (@BigInt_SignedRightShift x64 garbage sample_x y) ProcessorImpl_new (Z.shiftr x (@toZ x64 y))
    (@too_big x64 (Z.shiftr x (@toZ x64 y))).
Proof. apply (@BigInt_Shift_refine x64 garbage); [exact sample_x_ok | solve_bigint | reflexivity]. Defined.

Lemma BigInt_AsIntN_AsUintN_refine_witness :
  (exists z, @BigInt_AsIntN x64 garbage 100 sample_x = Ok z /\ @bigint_ok x64 z /\
     - 2 ^ (100 - 1) <= @toZ x64 z < 2 ^ (100 - 1) /\ @toZ x64 z mod 2 ^ 100 = @toZ x64 sample_x mod 2 ^ 100) /\
  @returns x64 (@BigInt_AsUintN x64 garbage 100 sample_x) ProcessorImpl_new (@toZ x64 sample_x mod 2 ^ 100)
    (kMaxLengthBits < 100 /\ @toZ x64 sample_x < 0).
Proof. apply (@BigInt_AsIntN_AsUintN_refine x64 garbage); [exact sample_x_ok | reflexivity | reflexivity]. Defined.

Lemma BigInt_Compare_refine_witness :
  CompareToBigInt sample_x sample_y = Ok (comparison_of (@toZ x64 sample_x ?= @toZ x64 sample_y)) /\
  EqualToBigInt sample_x sample_y = Ok (@toZ x64 sample_x =? @toZ x64 sample_y) /\
  (@toZ x64 sample_x = @toZ x64 sample_y <-> sample_x = sample_y).
Proof. apply (@BigInt_Compare_refine x64); [exact sample_x_ok | exact sample_y_ok]. Defined.

Lemma BigInt_errors_witness :
  let zero := mkBigInt false [] in let p := ProcessorImpl_new in
  (@toZ x64 zero = 0 ->
     @BigInt_Divide x64 quiet garbage x64_fft sample_x zero p = Ok (inl kBigIntDivZero, p) /\
     @BigInt_Remainder x64 quiet garbage x64_fft sample_x zero p = Ok (inl kBigIntDivZero, p)) /\
  (@toZ x64 zero < 0 -> @BigInt_Exponentiate x64 quiet garbage x64_fft sample_x zero p = Ok (inl kMustBePositive, p)) /\
  BigInt_UnsignedRightShift sample_x zero p = Ok (inl kBigIntShr, p).
Proof. apply (@BigInt_errors x64 quiet garbage by_value). split; [solve_digits | discriminate | solve_lengths | reflexivity]. Defined.

Lemma Canonicalize_canonical_witness :
  exists z, Canonicalize (mkBigInt true [0; 0]) = Ok z /\ @bigint_ok x64 z /\
    @toZ x64 z = @toZ x64 (mkBigInt true [0; 0]) /\ Canonicalize z = Ok z.
Proof. apply (@Canonicalize_canonical x64); [solve_digits | solve_lengths | discriminate]. Defined.

Lemma Int64_roundtrip_witness :
  (- 2 ^ 63 <= 2 ^ 63 - 1 < 2 ^ 63 ->
     exists z, @FromInt64 x64 garbage (2 ^ 63 - 1) = Ok z /\ @bigint_ok x64 z /\ @AsInt64 x64 z = Ok (2 ^ 63 - 1, true)) /\
  (0 <= 2 ^ 63 - 1 < 2 ^ 64 ->
     exists z, @FromUint64 x64 garbage (2 ^ 63 - 1) = Ok z /\ @bigint_ok x64 z /\ @AsUint64 x64 z = Ok (2 ^ 63 - 1, true)) /\
  (exists r lossless, @AsInt64 x64 sample_x = Ok (r, lossless) /\ - 2 ^ 63 <= r < 2 ^ 63 /\
     r mod 2 ^ 64 = @toZ x64 sample_x mod 2 ^ 64 /\ (lossless = true <-> @toZ x64 sample_x = r)).
Proof. apply (@Int64_roundtrip x64 garbage). exact sample_x_ok. Defined.

Lemma Words64_roundtrip_witness :
  exists ws p', @ToWordsArray64 x64 sample_x 3 [0; 0; 0] = Ok (true, 3, ws) /\
    val64 ws = Z.abs (@toZ x64 sample_x) /\ @FromWords64 x64 garbage true 3 ws ProcessorImpl_new = Ok (inr sample_x, p').
Proof.
  apply (@Words64_roundtrip x64 garbage sample_x [0; 0; 0]);
    [exact sample_x_ok | reflexivity | reflexivity | left; reflexivity].
Defined.

Lemma Serialize_roundtrip_witness :
  (exists bitfield, @GetBitfieldForSerialization x64 sample_x = Ok bitfield /\ 0 <= bitfield < 2 ^ 32 /\
     DigitsByteLengthForBitfield bitfield = Z.of_nat (length (@SerializeDigits x64 sample_x)) /\
     @FromSerializedDigits x64 bitfield (@SerializeDigits x64 sample_x) = Ok (Some sample_x)) /\
  (forall bitfield, encode SignBits 1 = Ok bitfield -> @FromSerializedDigits x64 bitfield [] = Ok None).
Proof. apply (@Serialize_roundtrip x64). exact sample_x_ok. Defined.

Lemma garbage32_ok : @is_digit portable32 3735928559.
Proof. split; [by vm_compute | by vm_compute]. Qed.

Lemma FromWords64_drops_top_digit_witness :
  @returns portable32 (@FromWords64 portable32 (@filled portable32 _ garbage32_ok) false 1 [2 ^ 32]) ProcessorImpl_new
    (val64 [2 ^ 32] - 2 ^ (64 * 1 - 32)) False.
Proof.
  apply (@FromWords64_drops_top_digit portable32 _ false [2 ^ 32]);
    [reflexivity | constructor; [split; by vm_compute | constructor] | solve_lengths | reflexivity | reflexivity].
Defined.

Ltac solve_result_object := split; [reflexivity | solve_lengths | solve_digits | discriminate].

(** Result objects of the lengths for [sample_x] and [sample_y], filled with sevens. *)
Lemma runtime_Absolute_refine_witness :
  let object n := mkBigInt true (replicate n 7) in let p := ProcessorImpl_new in
  let a := Z.abs (@toZ x64 sample_x) in let b := Z.abs (@toZ x64 sample_y) in
  (exists z, @MutableBigInt_AbsoluteAddAndCanonicalize x64 (object 4%nat) sample_x sample_y = Ok z /\
     @stores x64 true (a + b) z) /\
  (exists z, @MutableBigInt_AbsoluteSubAndCanonicalize x64 (object 3%nat) sample_x sample_y = Ok z /\
     @stores x64 true (a - b) z) /\
  (exists z p', @MutableBigInt_AbsoluteMulAndCanonicalize x64 quiet garbage x64_fft (object 5%nat) sample_x sample_y p
     = Ok ((0, z), p') /\ @stores x64 true (a * b) z) /\
  (exists z p', @MutableBigInt_AbsoluteDivAndCanonicalize x64 quiet garbage x64_fft (object 2%nat) sample_x sample_y p
     = Ok ((0, z), p') /\ @stores x64 true (a / b) z) /\
  (exists z p', @MutableBigInt_AbsoluteModAndCanonicalize x64 quiet garbage x64_fft (object 2%nat) sample_x sample_y p
     = Ok ((0, z), p') /\ @stores x64 true (a mod b) z).
Proof.
  apply (@runtime_Absolute_refine x64 quiet garbage by_value (mkBigInt true (replicate 4 7)) (mkBigInt true (replicate 3 7))
    (mkBigInt true (replicate 5 7)) (mkBigInt true (replicate 2 7)) (mkBigInt true (replicate 2 7)) sample_x sample_y);
    [exact sample_x_ok | exact sample_y_ok | vm_compute; discriminate | vm_compute; discriminate | by split
    | intros _; solve_lengths | intros _; solve_lengths | solve_result_object ..].
Defined.

Lemma runtime_RightShift_protocol_witness :
  exists packed, @RightShiftResultLength x64 sample_x true 70 = Ok packed /\ 0 <= packed < 2 ^ 31 /\
    let len := packed mod 2 ^ kLengthFieldBits in
    let round := packed / 2 ^ kLengthFieldBits in
    (len = 0 -> Z.abs (@toZ x64 sample_x) < 2 ^ 70) /\
    (forall result, 0 < len -> @result_object x64 result (Z.to_nat len) -> sign result = true ->
       exists z, @MutableBigInt_RightShiftAndCanonicalize x64 result sample_x 70 round = Ok z /\
         @bigint_ok x64 z /\ @toZ x64 z = Z.shiftr (@toZ x64 sample_x) 70).
Proof. apply (@runtime_RightShift_protocol x64 sample_x 70); [exact sample_x_ok | discriminate | reflexivity]. Defined.
