(* ===== verification/NumberCorrect.v ===== *)
(** Correctness statements for BigInts and JavaScript numbers: comparisons and the
    conversion from numbers are exact, the conversion to numbers rounds to nearest. *)

From Stdlib Require Import ZArith Lia.
From stdpp Require Import base tactics numbers list option.
From S2P Require Import Prelude Double Digit Digits Processor BigIntObject BigIntSpec BigIntArith BigIntBits BigIntDouble BigIntDoubleSpec BigIntToDouble Instances BigIntCorrect.

#[local] Open Scope Z_scope.

Section number_correct.
Context `{Config, Platform, !Allocator, SmiConfig}.
Implicit Types x z : BigInt.

(** A double that denotes an integer in range rounds to itself. *)
Lemma rounds_to_self d d' v :
  is_double d -> isfinite d = true -> scaled d <> 0 -> v * unit_scale = scaled d -> rounds_to v d' -> d' = d.
Proof.
  intros Hd Hf Hd0 Ev Hr. unfold rounds_to in Hr. pose proof (magnitude_max d Hf) as Hmax.
  assert (0 < unit_scale) as HS by (apply Z.pow_pos_nonneg; lia).
  rewrite <- scaled_abs, <- Ev, Z.abs_mul, (Z.abs_eq unit_scale) in Hmax by lia.
  apply Z.mul_le_mono_pos_r in Hmax; [|done].
  assert (2 ^ 970 < 2 ^ 971) by (apply Z.pow_lt_mono_r; lia).
  rewrite (proj2 (Z.leb_gt _ _)) in Hr by lia. destruct Hr as (Hd' & _ & _ & Hnear).
  destruct (Hnear d Hd Hf) as [Hle _]. rewrite Ev in Hle. symmetry. apply scaled_inj; (done || lia).
Qed.

(** The small integers that [ToNumber] returns: those strictly below [Smi::kMaxValue]. *)
Lemma ToNumber_spec x d :
  bigint_ok x -> ToDouble x = Ok d ->
  ToNumber x = Ok (if Z.abs (toZ x) <? kSmiMaxValue then Smi (toZ x) else HeapNumber d).
Proof.
  intros Hx Ed. unfold ToNumber.
  assert (0 < kSmiMaxValue < 2 ^ 31) as Hmax by (unfold kSmiMaxValue, kSmiMinValue; destruct kSmiValueSize_cases as [-> | ->]; lia).
  destruct (is_zero x) eqn:Hz.
  { rewrite (ok_is_zero x Hx Hz). cbn [Z.abs]. by rewrite (proj2 (Z.ltb_lt _ _)) by lia. }
  case_bool_decide as Hl.
  - destruct (single_digit x Hx Hl) as (a & E & Ha & Ea & Ha0). unfold digit, rd. rewrite E.
    cbn [mbind res_bind lookup list_lookup mret res_ret]. rewrite Ea.
    destruct (Z.ltb_spec a kSmiMaxValue); cbn [mbind res_bind]; [|by rewrite Ed].
    destruct (sign_cases x Hx) as [(-> & Vx & Px) | (-> & Vx & Px)]; do 2 f_equal; lia.
  - cbn [mbind res_bind mret res_ret]. rewrite Ed. rewrite (proj2 (Z.ltb_ge _ _)); [done|].
    destruct (ok_nonempty x Hx Hz) as [Nx _]. pose proof (length_nonempty x Nx).
    pose proof (ok_lower x 1 Hx ltac:(lia)) as Hlo. pose proof digit_base_ge. rewrite bpow_1 in Hlo. lia.
Qed.

(** C8: [ToDouble] returns the double nearest to the BigInt, with ties to even, and an
    infinity of the right sign from [2 ^ 1024 - 2 ^ 970] on; [ToNumber] returns the exact
    small integer precisely when the magnitude is below [Smi::kMaxValue], and that double
    otherwise.  In particular the digits that are not read into the mantissa decide the
    rounding correctly on both digit widths. *)
Theorem ToNumber_rounds_to_nearest x :
  bigint_ok x ->
  exists d, ToDouble x = Ok d /\ rounds_to (toZ x) d /\
    ToNumber x = Ok (if Z.abs (toZ x) <? kSmiMaxValue then Smi (toZ x) else HeapNumber d).
Proof.
  intros Hx. destruct (wp_elim _ _ (ToDouble_spec x Hx)) as (d & E & Hd). exists d. split_and!; [done | done|].
  by apply ToNumber_spec.
Qed.

(** C12: comparing a BigInt with a number is exact: no rounding of the BigInt and no
    truncation of the number is involved, an infinity is beyond every BigInt, NaN is
    unordered, and [-0] equals [0n]. *)
Theorem Number_comparison_exact x y :
  bigint_ok x -> number_ok y ->
  CompareToNumber x y = Ok (number_outcome (toZ x) y) /\
  EqualToNumber x y = Ok (match number_outcome (toZ x) y with kEqual => true | _ => false end).
Proof. intros Hx Hy. split; [by apply CompareToNumber_spec | by apply EqualToNumber_spec]. Qed.

(** C14: a number is converted to a BigInt exactly when it denotes an integer, and then
    without loss; every other number, finite or not, is rejected with [kBigIntFromNumber]. *)
Theorem FromNumber_exact y :
  number_ok y ->
  if integral y then
    exists z, FromNumber y = Ok (inr z) /\ bigint_ok z /\ toZ z * unit_scale = number_scaled y
  else FromNumber y = Ok (inl kBigIntFromNumber).
Proof.
  intros Hy. destruct (wp_elim _ _ (FromNumber_spec y Hy)) as (r & E & Hr).
  destruct (integral y); [|by rewrite E, Hr]. destruct Hr as (z & -> & Hz). by exists z.
Qed.

(** A double that denotes a non-zero integer survives the conversion to a BigInt and
    back bit for bit. *)
Theorem double_BigInt_roundtrip d :
  is_double d -> isfinite d = true -> scaled d mod unit_scale = 0 -> scaled d <> 0 ->
  exists z, NewFromDouble d = Ok z /\ bigint_ok z /\ ToDouble z = Ok d.
Proof.
  intros Hd Hf Hi Hd0. destruct (wp_elim _ _ (NewFromDouble_spec d Hf Hi)) as (z & E & Hz & Ez).
  exists z. split_and!; [done | apply Hz .. |].
  destruct (wp_elim _ _ (ToDouble_spec z Hz)) as (d' & -> & Hr). f_equal. by eapply rounds_to_self.
Qed.
End number_correct.

(** ** Evaluation at concrete inputs *)

(** 31-bit small integers, as with pointer compression. *)
Definition smi31 : SmiConfig := {| kSmiValueSize := 31; kSmiValueSize_cases := or_introl eq_refl |}.

Lemma ToNumber_rounds_to_nearest_witness :
  exists d, @ToDouble x64 sample_x = Ok d /\ @rounds_to (@toZ x64 sample_x) d /\
    @ToNumber x64 smi31 sample_x = Ok (HeapNumber d).
Proof. apply (@ToNumber_rounds_to_nearest x64 smi31 sample_x sample_x_ok). Defined.

Lemma Number_comparison_exact_witness :
  @CompareToNumber x64 sample_x (HeapNumber 0x7FF0000000000000) = Ok kLessThan /\
  @EqualToNumber x64 sample_x (HeapNumber 0x7FF0000000000000) = Ok false.
Proof.
  apply (@Number_comparison_exact x64 smi31 sample_x (HeapNumber 0x7FF0000000000000));
    [exact sample_x_ok | split; vm_compute; congruence].
Defined.

Lemma FromNumber_exact_witness : @FromNumber x64 garbage (HeapNumber 0x3FE0000000000000) = Ok (inl kBigIntFromNumber).
Proof.
  apply (@FromNumber_exact x64 garbage smi31 (HeapNumber 0x3FE0000000000000)).
  split; vm_compute; congruence.
Defined.

Lemma double_BigInt_roundtrip_witness :
  exists z, @NewFromDouble x64 garbage 0xC7E0000000000001 = Ok z /\ @bigint_ok x64 z /\
    @ToDouble x64 z = Ok 0xC7E0000000000001.
Proof.
  apply (@double_BigInt_roundtrip x64 garbage);
    [split; vm_compute; congruence | reflexivity | vm_compute; reflexivity | vm_compute; discriminate].
Defined.
