(* ===== verification/BigIntStringCorrect.v ===== *)
(** Correctness statements for the conversions between BigInts and strings that scripts
    use: [BigInt("...")], [x.toString(radix)], [x == "..."] and [x < "..."]. *)

From Stdlib Require Import ZArith Lia.
From stdpp Require Import base tactics numbers list option.
From S2P Require Import Prelude Digit Digits VectorArithmetic Processor MulSchoolbook MulKaratsuba MulToom MulFft Multiply FftMultiply FromString FromStringSpec Parsing ToString ToStringSpec Printing SignedArithmetic BigIntObject BigIntSpec BigIntArith BigIntBits BigIntString BigIntStringSpec BigIntStringPrint Instances MultiplicationCorrect StringCorrect.

#[local] Open Scope Z_scope.

Section bigint_string_correct.
Context `{Config, Platform, UnicodeData, StringAllocator}.
Context {alloc : Allocator} {pointers : PointerEquality}.
#[local] Existing Instance nested_fft.
#[local] Opaque nested_fft.

(** C9: the grammar.  [StringToBigInt] returns a canonical BigInt for the value of the string
    if the string is a [StringIntegerLiteral] of ECMAScript, and no BigInt and no exception
    otherwise; it returns, and leaves the processor ready.  The string has fewer than [2^24]
    characters, so that no literal is too long for a BigInt, and no interrupt is requested. *)
Theorem StringToBigInt_grammar s p :
  code_units s -> readable (length s) -> uninterrupted p ->
  exists r p', StringToBigInt s p = Ok (inr r, p') /\ uninterrupted p' /\
    match StringIntegerLiteral s, r with
    | Some v, Some z => bigint_ok z /\ toZ z = v
    | None, None => True
    | _, _ => False
    end.
Proof.
  intros Hcs Hlen Hun. destruct (wpP_elim _ _ _ (StringToBigInt_spec s p Hcs Hlen Hun)) as (r & p' & E & Hun' & Hr).
  destruct (StringIntegerLiteral s) as [v|]; [destruct Hr as (z & -> & Hz & Ez); by exists (Some z), p' | subst r; by exists None, p'].
Qed.

(** C10: printing.  [BigInt::ToString] returns the sign and the digits of the integer in the
    radix without leading zeros, ["0"] for zero; the only error is [kInvalidStringLength],
    and only if the estimated length is more than the maximal length of a string.  For a radix
    that is not a power of two, in builds with the advanced algorithms, the BigInt is at least
    three digits shorter than [2^17 * kDigitBits] digits; no interrupt is requested. *)
Theorem BigInt_ToString_correct x radix p :
  2 <= radix <= 36 -> bigint_ok x -> uninterrupted p ->
  (IsPowerOfTwo radix = false -> mul_supported (bi_length x + 3)) ->
  exists r p', BigInt_ToString x radix p = Ok (r, p') /\ uninterrupted p' /\
    match r with
    | inr cs => text_of radix (toZ x) cs
    | inl e => e = kInvalidStringLength /\
        exists n, ToStringResultLength (digits_of x) radix (sign x) = Ok n /\ String_kMaxLength < n
    end.
Proof.
  intros Hr Hx Hun Hs. destruct (wpP_elim _ _ _ (BigInt_ToString_spec x radix p Hr Hx Hun Hs)) as (r & p' & E & Hun' & Hp).
  by exists r, p'.
Qed.

(** C11: [BigInt(x.toString())] is [x], for every BigInt whose digits have fewer than
    [2^24 - 2] bits, so that the text has fewer than [2^24] characters, when no interrupt is
    requested. *)
Theorem BigInt_String_roundtrip x p :
  bigint_ok x -> uninterrupted p -> Z.of_nat (bi_length x) * kDigitBits < 2 ^ 24 - 2 ->
  exists cs p' p'', BigInt_ToString x 10 p = Ok (inr cs, p') /\ StringToBigInt cs p' = Ok (inr (Some x), p'').
Proof.
  intros Hx Hun Hlen. pose proof kDigitBits_cases as Hw. unfold bi_length in *.
  assert (mul_supported (length (digits_of x) + 3)) as Hadv by (intros _; destruct Hw as [E | E]; rewrite E in *; lia).
  destruct (wpP_elim _ _ _ (BigInt_ToString_spec x 10 p ltac:(lia) Hx Hun (fun _ => Hadv))) as (r & p' & E & Hun' & Hp).
  destruct r as [e | cs].
  { destruct Hp as (_ & n & En & Hn). exfalso. assert (digits_of x <> []) as Hne by (intros E0; by rewrite E0 in En).
    apply (decimal_result_length x n Hx Hne) in En. unfold String_kMaxLength in Hn. destruct (kDigitBits =? 32); lia. }
  destruct (decimal_text_length x cs Hx Hp) as [Hl Hcs].
  assert (readable (length cs)) as Hread by (unfold readable; nia).
  destruct (wpP_elim _ _ _ (StringToBigInt_spec cs p' Hcs Hread Hun')) as (r & p'' & E' & _ & Hr).
  rewrite (StringIntegerLiteral_text _ _ Hp) in Hr. destruct Hr as (z & -> & Hz & Ez). apply toZ_inj in Ez; [subst z | done | done].
  by exists cs, p', p''.
Qed.

(** C13: comparison with strings.  [EqualToString] compares with the integer the string
    denotes, and [CompareToString] orders by it; a string that is no literal is not equal
    to any BigInt, and comparison with it is [kUndefined].  The string has fewer than [2^24]
    characters, and no interrupt is requested. *)
Theorem String_comparison_exact x s p :
  bigint_ok x -> code_units s -> readable (length s) -> uninterrupted p ->
  (exists p', CompareToString x s p =
    Ok (inr (match StringIntegerLiteral s with Some v => comparison_of (toZ x ?= v) | None => kUndefined end), p')) /\
  (exists p', EqualToString x s p = Ok (inr (bool_decide (StringIntegerLiteral s = Some (toZ x))), p')).
Proof.
  intros Hx Hcs Hlen Hun. split.
  - destruct (wpP_elim _ _ _ (CompareToString_spec x s p Hx Hcs Hlen Hun)) as (r & p' & E & _ & ->). by exists p'.
  - destruct (wpP_elim _ _ _ (EqualToString_spec x s p Hx Hcs Hlen Hun)) as (r & p' & E & _ & ->). by exists p'.
Qed.

End bigint_string_correct.

(** ** Witnesses *)

(** The members of the general category [Zs]. *)
Definition unicode : UnicodeData.
Proof.
  refine {| is_space_separator := fun c => (c =? 0x20) || (c =? 0xA0) || (c =? 0x1680) || ((0x2000 <=? c) && (c <=? 0x200A)) ||
    (c =? 0x202F) || (c =? 0x205F) || (c =? 0x3000) |}.
  intros c Hc. lia.
Defined.

Definition blank_strings : StringAllocator := {| raw_string := fun n => replicate n 0; length_raw_string := fun n => length_replicate n 0 |}.

(** The text [" -0123 "] with a line feed, and the number it denotes. *)
Definition sample_literal : list Z := [0x2003; 45; 48; 49; 50; 51; 10].
Definition sample_value : BigInt := mkBigInt true [123].

Lemma sample_value_ok : @bigint_ok x64 sample_value.
Proof. split; [solve_digits | discriminate | vm_compute; discriminate | discriminate]. Qed.

Lemma sample_literal_units : code_units sample_literal.
Proof. unfold code_units, sample_literal. repeat constructor; lia. Qed.

Lemma sample_literal_readable : readable (length sample_literal).
Proof. reflexivity. Qed.

Lemma StringToBigInt_grammar_witness :
  @StringIntegerLiteral unicode sample_literal = Some (-123) /\
  exists r p', @StringToBigInt x64 quiet unicode garbage x64_fft sample_literal ProcessorImpl_new = Ok (inr r, p') /\
    uninterrupted (H := quiet) p' /\
    match @StringIntegerLiteral unicode sample_literal, r with
    | Some v, Some z => @bigint_ok x64 z /\ @toZ x64 z = v
    | None, None => True
    | _, _ => False
    end.
Proof.
  split; [vm_compute; reflexivity|].
  apply (@StringToBigInt_grammar x64 quiet unicode garbage by_value sample_literal ProcessorImpl_new);
    [exact sample_literal_units | exact sample_literal_readable | exact ready].
Defined.

Lemma BigInt_ToString_correct_witness :
  exists r p', @BigInt_ToString x64 quiet blank_strings garbage x64_fft sample_value 10 ProcessorImpl_new = Ok (r, p') /\
    uninterrupted (H := quiet) p' /\
    match r with
    | inr cs => text_of 10 (@toZ x64 sample_value) cs
    | inl e => e = kInvalidStringLength /\
        exists n, @ToStringResultLength x64 (digits_of sample_value) 10 (sign sample_value) = Ok n /\ @String_kMaxLength x64 < n
    end.
Proof.
  apply (@BigInt_ToString_correct x64 quiet blank_strings garbage by_value sample_value 10 ProcessorImpl_new);
    [lia | exact sample_value_ok | exact ready | intros _ _; vm_compute; discriminate].
Defined.

Lemma BigInt_String_roundtrip_witness :
  exists cs p' p'', @BigInt_ToString x64 quiet blank_strings garbage x64_fft sample_value 10 ProcessorImpl_new = Ok (inr cs, p') /\
    @StringToBigInt x64 quiet unicode garbage x64_fft cs p' = Ok (inr (Some sample_value), p'').
Proof.
  apply (@BigInt_String_roundtrip x64 quiet unicode blank_strings garbage by_value sample_value ProcessorImpl_new);
    [exact sample_value_ok | exact ready | reflexivity].
Defined.

Lemma String_comparison_exact_witness :
  (exists p', @CompareToString x64 quiet unicode garbage x64_fft sample_value sample_literal ProcessorImpl_new =
    Ok (inr (match @StringIntegerLiteral unicode sample_literal with
      | Some v => comparison_of (@toZ x64 sample_value ?= v) | None => kUndefined end), p')) /\
  (exists p', @EqualToString x64 quiet unicode garbage x64_fft sample_value sample_literal ProcessorImpl_new =
    Ok (inr (bool_decide (@StringIntegerLiteral unicode sample_literal = Some (@toZ x64 sample_value))), p')).
Proof.
  apply (@String_comparison_exact x64 quiet unicode garbage by_value sample_value sample_literal ProcessorImpl_new);
    [exact sample_value_ok | exact sample_literal_units | exact sample_literal_readable | exact ready].
Defined.
